(* ===== verification/_CoqProject ===== *)
-Q . S2P
Prelude.v
Float64.v
HashAny.v
Qsort.v
Utils.v
Nodes.v
HashText.v
HashEclass.v
Fss.v
Knn.v
PgArray.v
LwprModel.v
LwprMath.v
LwprReg.v
PgState.v
Storage.v
StorageLwpr.v
LwprUpdate.v
LwprPredict.v
SelectivityCache.v
Bitmapset.v
BitmapOps.v
Paths.v
Costs.v
Learning.v
Preprocess.v
PathUtils.v
JoinRels.v
JoinSearch.v
JoinLegal.v
JoinPath.v
JoinPathOk.v
JoinUnique.v
JoinSemi.v
Postprocess.v
Hooks.v
AutoTuning.v
Guc.v
Extension.v
BTree.v
