(* ===== verification/Prelude.v ===== *)
(** * Verification of the exploratory optimizer

    The program is PostgreSQL 10.0 with the extension contrib/aqo, an adaptive
    query optimizer that learns the cardinalities of executed queries and lets the
    planner explore plans about which it knows little.  Paths below are relative to
    src/postgresql-10.0-with-exploratory-optimizer/.

    ** The program and its parts

    A query passes through AQO four times.
    - The planner hook (preprocessing.c) recognises the query by the hash of its
      text without constants (hash.c), finds or makes its row in the table
      aqo_queries (storage.c), keeps the history of the last query templates and
      sets the record [query_context], which the other parts read.
    - While the planner works, the cardinality hooks (cardinality_hooks.c) gather
      the clauses below a relation with their selectivities (path_utils.c,
      selectivity_cache.c), reduce them to a feature subspace and a vector of
      features (hash.c), load the model of the subspace (storage.c) and ask it for
      the rows and an explore value (cardinality_estimation.c,
      machine_learning_lwpr.c, machine_learning.c).  The join search
      (plan_generation.c, joinrels.c, relnode.c) builds the join relations level by
      level, the path generator (joinpath.c) joins the paths of their inputs, and the
      planner keeps the paths that are good in cost or in explore value (pathnode.c,
      planner.c).
    - When execution starts, the context is put into the query environment
      (postprocessing.c, queryenvironment.c).
    - When it ends, the executed plan is walked, every node is learned into the
      model of its subspace, the costs of the query are recorded and the context is
      removed (postprocessing.c, plan_generation.c).

    ** The files

    Basis.  [Prelude]: the error monad [res] (an access outside an array, an
    undefined conversion, an elog, exhausted fuel), checked reads and writes, [for]
    loops with their invariant rules, 32-bit integers.  [Float64]: [double] as
    IEEE binary64 of the Standard Library's SpecFloat; [exp] and [log] are the
    class [Libm].  [HashAny] (hashfunc.c), [Qsort] (port/qsort.c), [Utils]
    (utils.c), [Bitmapset] and [BitmapOps] (bitmapset.c: comparing and walking, and
    the set algebra).

    From clauses to features.  [Nodes]: expression trees and their text
    (outfuncs.c).  [HashText], [HashEclass], [Fss]: hash.c, that is the hashes of
    texts, the equivalence classes of arguments, and [get_fss_for_object].

    Models.  [Knn]: machine_learning.c.  [LwprModel] (records, memory layout,
    initialisation), [LwprMath] (vector kernels), [LwprReg] (the learning step of
    one receptive field), [LwprUpdate] (training), [LwprPredict] (prediction):
    machine_learning_lwpr.c.

    Tables.  [PgArray]: arrays in tuples.  [PgState]: the state of a session (the
    rows of each table, the query context, the command counter, what is open), the
    monad [PG] over it, and scans, updates and index insertions; what other
    sessions do is the class [Cluster].  [Storage], [StorageLwpr]: storage.c.
    [BTree]: the check of a unique index in the pages of the B-tree (nbtinsert.c,
    nbtsearch.c).

    Queries.  [Costs] (the best costs, plan_generation.c), [Learning]
    (cardinality_estimation.c and the learning of one node), [Preprocess]
    (preprocessing.c), [PathUtils] (path_utils.c), [SelectivityCache], [Postprocess]
    (postprocessing.c), [Hooks] (cardinality_hooks.c), [AutoTuning]
    (auto_tuning.c).

    Loading.  [Guc]: the settings of a session and their transactions (guc.c).
    [Extension]: aqo.c, which defines [aqo.mode] and takes the hooks.

    The planner.  [Paths]: the competition of paths (pathnode.c, planner.c).
    [JoinRels]: the join search (plan_generation.c, joinrels.c, relnode.c and what
    they call), a state monad over the relations, whose paths are a state behind the
    class [JoinPaths].  [JoinSearch]: its theorems, proved against the laws
    [JoinPathsOk] of the paths.  [JoinLegal]: which joins are legal.  [JoinPath]: the
    path generator (joinpath.c), exploring or not; the cost formulas are the class
    [JoinCosts].  [JoinPathOk]: the generator is an instance of [JoinPaths] and has the
    laws.  [JoinUnique]: where exploring departs from PostgreSQL for semijoins,
    prechecks and gather paths.  [JoinSemi]: what PostgreSQL's own routines promise for
    semijoins.

    ** The theorems

    - Features: the subspace and the features of an object do not depend on the
      order of its clauses and relations or on its constants; the classes of
      arguments are those of the least equivalence; scrubbing a text refines the
      removal of what follows the patterns and stays in its buffer.
    - Models: every model that training can reach is well formed and trains and
      predicts inside every array; a training step changes the fields by learning,
      adding at most one and pruning at most one; predictions change nothing that
      was learned; the two projection routines agree; the carved memory blocks hold
      all their arrays.
    - Tables: what is stored is read back; keys stay unique; everything opened is
      closed; lost updates are dropped, heap-only updates and missing indexes have
      the effects stated.  The check of a unique index is decided by the first live entry
      with the key, in whatever page it is, and agrees with the rule on rows.
    - Sessions: any sequence of learned nodes, estimates and new queries runs to
      its end, keeps the tables well formed and loses no model; what was learned is
      found ever after.
    - Queries: the stored history is that of the last three templates; queries that
      are not for AQO leave the tables alone; the walk over an executed plan visits
      every node and is a session; the executor hooks end inside every array and
      restore the context; the hooks answer with the model or the estimate below;
      cached selectivities are the ones restored after execution.
    - Planning: the list of paths stays sorted and loses only dominated paths; the
      one-pass front is the Pareto front of cost and explore value; the chosen path
      has the greatest explore value among the affordable ones.
    - Settings: the stacks of former values implement nested transactions; every value kept
      is one of the options; only a superuser changes [aqo.mode]; loading the library
      takes every hook, keeps what was there and happens once.
    - Relation sets: the words of bitmapset.c refine finite sets of numbers.
    - Joins: for inner-join problems the search ends without an error, level [k] holds
      unions of [k] initial relations, none twice and all the connected ones, and the
      last one joins everything; with the real path generator it has a path that
      needs no other relation.  Hash table and linear search find the same relation.
      For any special joins and lateral references [join_is_legal] answers, and
      accepts only joins that respect them.  For any join that makes no input unique the
      generator stays in its lists, keeps paths well formed and drops no relation's
      last usable path.  A semijoin by a unique input is computed from the unique path
      alone by PostgreSQL's own routines, and by the exploring ones from one unique path
      and, wrongly, from the raw others.

    ** Bounds and fuel

    Loops with a counter are structural ([for_range]). A [while] has fuel: the
    length of the text, of the set or of the array plus one, the number of plan
    nodes, one more than the sides of the special joins, the levels of a stack of
    settings, or the pages and items of an index; each result that needs it is
    stated as a result that is reached ([ensures], [pg_ensures]), so no theorem
    holds because fuel ran out. Integers that can wrap are wrapped ([wrap32],
    [to_int32], [to_int64]); sizes of arrays are naturals with the hypothesis that
    they fit an [int] where the code multiplies or stores them.

    ** Not modelled

    - PostgreSQL below the hooks: the planner's own estimators ([Estimators],
      [Statistics]), the standard planner and executor, locks and transactions
      (only their outcomes for a row, [Cluster]).
    - Of the planner: the scans of base relations, the cost formulas and selectivities
      of joins, target lists, the equalities generated from equivalence classes,
      foreign tables, the genetic search, and everything above the last join.
    - Of the B-tree: the descent from the root, the insertion of the entry, splits,
      locks on buffers; which versions of a row are visible is the class [HeapSearch].
    - Settings of other types, the configuration files and the table of names.
    - Freeing of memory: allocation is modelled where sizes matter. *)
From stdpp Require Export base tactics list numbers option.
From stdpp Require Import strings.
From stdpp Require Export sets gmap.
From Stdlib Require Export ZArith Lia.

(** ** The C-level error monad

    A C computation either returns or has a fault: an access outside the
    allocated object ([Fault_bounds], undefined behaviour in C), a conversion
    of a [double] that no [int] represents ([Fault_conv], undefined too), an
    [elog(ERROR)] ([Fault_elog]), or, in the model only, a loop that ran out
    of the fuel it was given ([Fault_fuel]). *)
Inductive fault : Type :=
| Fault_bounds
| Fault_conv
| Fault_fuel
| Fault_elog (msg : string).

Inductive res (A : Type) : Type :=
| Ok (a : A)
| Err (f : fault).
Arguments Ok {A} a.
Arguments Err {A} f.

#[export] Instance res_ret : MRet res := fun A a => Ok a.
#[export] Instance res_bind : MBind res := fun A B f m =>
  match m with Ok a => f a | Err e => Err e end.
#[export] Instance res_fmap : FMap res := fun A B f m =>
  match m with Ok a => Ok (f a) | Err e => Err e end.

(** [ensures m Q]: [m] returns, and its result satisfies [Q]. *)
Definition ensures {A} (m : res A) (Q : A → Prop) : Prop :=
  match m with Ok a => Q a | Err _ => False end.

(** ** Arrays: a palloc'ed block is the list of its cells *)
Definition rd {A} (a : list A) (i : nat) : res A :=
  match a !! i with Some x => Ok x | None => Err Fault_bounds end.

Definition wr {A} (a : list A) (i : nat) (x : A) : res (list A) :=
  match a !! i with Some _ => Ok (<[i := x]> a) | None => Err Fault_bounds end.

(** Accesses with a C [int] subscript. *)
Definition rdz {A} (a : list A) (i : Z) : res A :=
  if (0 <=? i)%Z then rd a (Z.to_nat i) else Err Fault_bounds.

Definition wrz {A} (a : list A) (i : Z) (x : A) : res (list A) :=
  if (0 <=? i)%Z then wr a (Z.to_nat i) x else Err Fault_bounds.

(** ** Loops *)

(** [for (i = lo; i < hi; ++i) body], the state being what [body] assigns. *)
Fixpoint for_from {S : Type} (i n : nat) (body : nat → S → res S) (s : S) : res S :=
  match n with
  | O => Ok s
  | Datatypes.S n' => s' ← body i s; for_from (Datatypes.S i) n' body s'
  end.

Definition for_range {S : Type} (lo hi : nat) (body : nat → S → res S) (s : S) : res S :=
  for_from lo (hi - lo) body s.

(** [while (cond) body] with at most [fuel] iterations. *)
Fixpoint while_fuel {S : Type} (fuel : nat) (cond : S → res bool) (body : S → res S) (s : S)
  : res S :=
  b ← cond s;
  if (b : bool) then
    match fuel with
    | O => Err Fault_fuel
    | Datatypes.S fuel' => s' ← body s; while_fuel fuel' cond body s'
    end
  else Ok s.

(** A C [foreach] over a [List]. *)
Fixpoint foreach {A S : Type} (l : list A) (body : A → S → res S) (s : S) : res S :=
  match l with
  | [] => Ok s
  | x :: l' => s' ← body x s; foreach l' body s'
  end.

(** ** Machine integers *)
Definition wrap32 (z : Z) : Z := (z mod 2 ^ 32)%Z.
(** The value of a 32-bit pattern read as a two's complement [int]. *)
Definition to_int32 (z : Z) : Z :=
  let u := wrap32 z in if (u <? 2 ^ 31)%Z then u else (u - 2 ^ 32)%Z.

(** ** Weakest-precondition style rules for [ensures] *)
Create HintDb cmon.

Lemma ensures_ok {A} (a : A) (Q : A → Prop) : Q a → ensures (Ok a) Q.
Proof. done. Qed.

Lemma ensures_ret {A} (a : A) (Q : A → Prop) : Q a → ensures (mret a : res A) Q.
Proof. done. Qed.

Lemma ensures_bind {A B} (m : res A) (f : A → res B) (Q : B → Prop) :
  ensures m (fun a => ensures (f a) Q) → ensures (m ≫= f) Q.
Proof. by destruct m. Qed.

Lemma ensures_mono {A} (m : res A) (P Q : A → Prop) :
  ensures m P → (∀ a, P a → Q a) → ensures m Q.
Proof. destruct m; simpl; auto. Qed.

Lemma ensures_bind_mono {A B} (m : res A) (f : A → res B) (P : A → Prop) (Q : B → Prop) :
  ensures m P → (∀ a, P a → ensures (f a) Q) → ensures (m ≫= f) Q.
Proof. destruct m; simpl; auto; done. Qed.

Lemma ensures_and {A} (m : res A) (P Q : A → Prop) :
  ensures m P → ensures m Q → ensures m (fun a => P a ∧ Q a).
Proof. destruct m; simpl; auto. Qed.

Lemma ensures_eq {A} (m : res A) (a : A) (Q : A → Prop) :
  m = Ok a → ensures m Q → Q a.
Proof. by intros ->. Qed.

Lemma ensures_inv {A} (m : res A) (Q : A → Prop) :
  ensures m Q → ∃ a, m = Ok a ∧ Q a.
Proof. destruct m; simpl; [eauto | done]. Qed.

Lemma ensures_intro {A} (m : res A) (a : A) (Q : A → Prop) :
  m = Ok a → Q a → ensures m Q.
Proof. by intros ->. Qed.

Lemma res_bind_ok {A B} (m : res A) (f : A → res B) (b : B) :
  m ≫= f = Ok b → ∃ a, m = Ok a ∧ f a = Ok b.
Proof. destruct m; simpl; [eauto | done]. Qed.

Lemma rd_lt {A} (a : list A) i : i < length a → ∃ x, a !! i = Some x ∧ rd a i = Ok x.
Proof.
  intros Hi. destruct (lookup_lt_is_Some_2 a i Hi) as [x Hx].
  exists x. unfold rd. by rewrite Hx.
Qed.

Lemma rd_some {A} (a : list A) i x : a !! i = Some x → rd a i = Ok x.
Proof. unfold rd. by intros ->. Qed.

Lemma rd_ok {A} (a : list A) i x : rd a i = Ok x → a !! i = Some x.
Proof. unfold rd. destruct (a !! i); naive_solver. Qed.

Lemma wr_lt {A} (a : list A) i x : i < length a → wr a i x = Ok (<[i := x]> a).
Proof. intros Hi. unfold wr. by destruct (lookup_lt_is_Some_2 a i Hi) as [y ->]. Qed.

Lemma wr_ok {A} (a b : list A) i x : wr a i x = Ok b → i < length a ∧ b = <[i := x]> a.
Proof.
  unfold wr. destruct (a !! i) eqn:E; [|done]. intros [= <-].
  split; [by eapply lookup_lt_Some | done].
Qed.

Lemma ensures_rd {A} (a : list A) i (Q : A → Prop) :
  i < length a → (∀ x, a !! i = Some x → Q x) → ensures (rd a i) Q.
Proof. intros Hi HQ. destruct (rd_lt a i Hi) as (x & Hx & ->). by apply HQ. Qed.

Lemma ensures_wr {A} (a : list A) i x (Q : list A → Prop) :
  i < length a → Q (<[i := x]> a) → ensures (wr a i x) Q.
Proof. intros Hi HQ. by rewrite wr_lt. Qed.

Lemma rdz_nat {A} (a : list A) (i : nat) : rdz a (Z.of_nat i) = rd a i.
Proof. unfold rdz. destruct (Z.leb_spec 0 (Z.of_nat i)); [|lia]. by rewrite Nat2Z.id. Qed.

Lemma wrz_nat {A} (a : list A) (i : nat) x : wrz a (Z.of_nat i) x = wr a i x.
Proof. unfold wrz. destruct (Z.leb_spec 0 (Z.of_nat i)); [|lia]. by rewrite Nat2Z.id. Qed.

(** The invariant rule of [for]: total, since the number of turns is fixed. *)
Lemma ensures_for_from {S} (I : nat → S → Prop) i n (body : nat → S → res S) s :
  I i s →
  (∀ j t, i ≤ j < i + n → I j t → ensures (body j t) (I (Datatypes.S j))) →
  ensures (for_from i n body s) (I (i + n)).
Proof.
  revert i s. induction n as [|n IH]; intros i s HI Hb; simpl.
  - by replace (i + 0) with i by lia.
  - eapply ensures_bind_mono; [apply Hb; [lia | done]|].
    intros t Ht. replace (i + Datatypes.S n) with (Datatypes.S i + n) by lia.
    apply IH; [done|]. intros j u Hj. apply Hb. lia.
Qed.

Lemma ensures_for {S} (I : nat → S → Prop) lo hi (body : nat → S → res S) s :
  lo ≤ hi → I lo s →
  (∀ j t, lo ≤ j < hi → I j t → ensures (body j t) (I (Datatypes.S j))) →
  ensures (for_range lo hi body s) (I hi).
Proof.
  intros Hle HI Hb. unfold for_range.
  replace hi with (lo + (hi - lo)) at 2 by lia.
  apply ensures_for_from; [done|]. intros j t Hj. apply Hb. lia.
Qed.

Lemma for_from_ext {S} i n (b1 b2 : nat → S → res S) s :
  (∀ j t, i ≤ j < i + n → b1 j t = b2 j t) → for_from i n b1 s = for_from i n b2 s.
Proof.
  revert i s. induction n as [|n IH]; intros i s Hb; simpl; [done|].
  rewrite Hb; [|lia]. destruct (b2 i s); simpl; [|done].
  apply IH. intros. apply Hb. lia.
Qed.

Lemma for_from_app {S} i n m (body : nat → S → res S) s :
  for_from i (n + m) body s = for_from i n body s ≫= for_from (i + n) m body.
Proof.
  revert i s. induction n as [|n IH]; intros i s; simpl.
  - by replace (i + 0) with i by lia.
  - destruct (body i s); simpl; [|done]. rewrite IH.
    by replace (Datatypes.S i + n) with (i + Datatypes.S n) by lia.
Qed.

Lemma for_range_empty {S} lo hi (body : nat → S → res S) s :
  hi ≤ lo → for_range lo hi body s = Ok s.
Proof. intros H. unfold for_range. by replace (hi - lo) with 0 by lia. Qed.

(** Two loops that keep a relation between their states. *)
Lemma for_rel {S T} (R : nat → S → T → Prop) lo hi b1 b2 (s : S) (t : T) :
  lo ≤ hi → R lo s t →
  (∀ j s t, lo ≤ j < hi → R j s t → ∃ s' t', b1 j s = Ok s' ∧ b2 j t = Ok t' ∧ R (Datatypes.S j) s' t') →
  ∃ s' t', for_range lo hi b1 s = Ok s' ∧ for_range lo hi b2 t = Ok t' ∧ R hi s' t'.
Proof.
  intros Hle HR Hb. unfold for_range. remember (hi - lo) as k eqn:Ek. revert lo s t Hle HR Hb Ek.
  induction k as [|k IH]; intros lo s t Hle HR Hb Ek; simpl.
  - replace hi with lo by lia. eauto.
  - destruct (Hb lo s t ltac:(lia) HR) as (s' & t' & -> & -> & HR'). simpl.
    apply IH; [lia | done | | lia]. intros. apply Hb; [lia | done].
Qed.

(** The invariant rule of [while], with a measure bounding the fuel. *)
Lemma ensures_while {S} (I : S → Prop) (m : S → nat) fuel
    (cond : S → res bool) (body : S → res S) s :
  I s → m s ≤ fuel →
  (∀ t, I t → ensures (cond t) (fun b => b = true →
        ensures (body t) (fun t' => I t' ∧ m t' < m t))) →
  ensures (while_fuel fuel cond body s) (fun t => I t ∧ cond t = Ok false).
Proof.
  revert s. induction fuel as [|fuel IH]; intros s HI Hm Hstep; simpl;
    pose proof (Hstep s HI) as Hs; destruct (cond s) as [[]|] eqn:Ec; simpl in *; try done.
  - specialize (Hs eq_refl). destruct (body s); simpl in *; [|done]. lia.
  - specialize (Hs eq_refl). destruct (body s) as [t|]; simpl in *; [|done].
    destruct Hs as [HIt Hmt]. apply IH; [done | lia | done].
Qed.

(** The invariant rule of [foreach]: over the elements done so far. *)
Lemma ensures_foreach_prefix {A S} (I : list A → S → Prop) l (body : A → S → res S) s :
  I [] s →
  (∀ pre x rest t, l = pre ++ x :: rest → I pre t → ensures (body x t) (I (pre ++ [x]))) →
  ensures (foreach l body s) (I l).
Proof.
  intros HI Hb.
  cut (∀ rest pre s, l = pre ++ rest → I pre s → ensures (foreach rest body s) (I l)).
  { intros H. by apply (H l [] s). }
  clear HI s. induction rest as [|x rest IH]; intros pre s -> HI; simpl.
  - by rewrite app_nil_r.
  - eapply ensures_bind_mono; [by eapply Hb|]. intros t Ht.
    apply (IH (pre ++ [x])); [by rewrite <- (assoc_L (++)) | done].
Qed.

Lemma ensures_foreach {A S} (I : list A → S → Prop) l (body : A → S → res S) s :
  I [] s →
  (∀ pre x t, x ∈ l → I pre t → ensures (body x t) (I (pre ++ [x]))) →
  ensures (foreach l body s) (I l).
Proof.
  intros HI Hb. apply ensures_foreach_prefix; [done|]. intros pre x rest t -> Ht.
  apply Hb; [set_solver | done].
Qed.

Lemma foreach_map {A B S} (f : A → B) l (body : B → S → res S) (s : S) :
  foreach (map f l) body s = foreach l (fun x => body (f x)) s.
Proof.
  revert s. induction l as [|x l IH]; intros s; simpl; [done|].
  destruct (body (f x) s); simpl; [apply IH | done].
Qed.

Lemma foreach_ext {A S} l (b1 b2 : A → S → res S) (s : S) :
  (∀ x t, b1 x t = b2 x t) → foreach l b1 s = foreach l b2 s.
Proof.
  intros H. revert s. induction l as [|x l IH]; intros s; simpl; [done|].
  rewrite H. destruct (b2 x s); simpl; [apply IH | done].
Qed.

#[export] Hint Resolve ensures_ok ensures_ret : cmon.

(** [cstep] performs one symbolic step of a C computation in an [ensures] goal. *)
Ltac cstep :=
  match goal with
  | |- ensures (Ok _) _ => apply ensures_ok
  | |- ensures (mret _) _ => apply ensures_ret
  | |- ensures (_ ≫= _) _ => apply ensures_bind
  | |- ensures (rd _ _) _ => apply ensures_rd; [| intros ? ?]
  | |- ensures (wr _ _ _) _ => apply ensures_wr
  | |- ensures (if ?b then _ else _) _ => destruct b eqn:?
  | |- ensures (match ?x with _ => _ end) _ => destruct x eqn:?
  end.

Ltac csteps := repeat (simpl; cstep).

Lemma ensures_fmap {A B} (m : res A) (f : A → B) (Q : B → Prop) :
  ensures m (fun a => Q (f a)) → ensures (f <$> m) Q.
Proof. by destruct m. Qed.

(** ** List facts shared by the components *)
Lemma replicate_lookup_inv {A} n (x y : A) i : replicate n x !! i = Some y → y = x ∧ i < n.
Proof. intros H. apply lookup_replicate in H. naive_solver. Qed.

Lemma filter_iff_in {A} (P Q : A → Prop) `{!∀ x, Decision (P x), !∀ x, Decision (Q x)} (l : list A) :
  (∀ x, x ∈ l → P x ↔ Q x) → filter P l = filter Q l.
Proof.
  induction l as [|x l IH]; intros Hin; [done|]. rewrite !filter_cons.
  rewrite IH by set_solver. assert (P x ↔ Q x) by set_solver. repeat case_decide; tauto.
Qed.

Lemma filter_none {A} (P : A → Prop) `{!∀ x, Decision (P x)} (l : list A) : (∀ x, x ∈ l → ¬ P x) → filter P l = [].
Proof.
  induction l as [|x l IH]; intros Hin; [done|]. rewrite filter_cons, decide_False by set_solver.
  apply IH. set_solver.
Qed.

Lemma filter_all {A} (P : A → Prop) `{!∀ x, Decision (P x)} (l : list A) : (∀ x, x ∈ l → P x) → filter P l = l.
Proof.
  induction l as [|x l IH]; intros Hin; [done|]. rewrite filter_cons, decide_True by set_solver.
  f_equal. apply IH. set_solver.
Qed.

Lemma wrap32_range z : (0 ≤ wrap32 z < 2 ^ 32)%Z.
Proof. apply Z.mod_pos_bound. lia. Qed.

Lemma wrap32_idem z : wrap32 (wrap32 z) = wrap32 z.
Proof. apply Z.mod_small, wrap32_range. Qed.

Lemma wrap32_small z : (0 ≤ z < 2 ^ 32)%Z → wrap32 z = z.
Proof. apply Z.mod_small. Qed.

Lemma to_int32_range z : (- 2 ^ 31 ≤ to_int32 z < 2 ^ 31)%Z.
Proof.
  unfold to_int32. pose proof (wrap32_range z).
  destruct (Z.ltb_spec (wrap32 z) (2 ^ 31)); lia.
Qed.
