(* ===== verification/Float64.v ===== *)
(** * Float64: the C type [double]

    IEEE 754 binary64 with rounding to nearest, ties to even, as the
    computable [spec_float] of the Standard Library: every [double] expression
    of the sources is evaluated here operation by operation in the order in
    which C evaluates it.  NaN has no payload.  [exp] and [log] of libm are
    not in the repository: they are the fields of the class [Libm]. *)
From S2P Require Import Prelude.
From Stdlib Require Import SpecFloat.

Definition double : Type := spec_float.

Definition prec : Z := 53.
Definition emax : Z := 1024.

Definition d0 : double := S754_zero false.
Definition dadd (x y : double) : double := SFadd prec emax x y.
Definition dsub (x y : double) : double := SFsub prec emax x y.
Definition dmul (x y : double) : double := SFmul prec emax x y.
Definition ddiv (x y : double) : double := SFdiv prec emax x y.
Definition dopp (x : double) : double := SFopp x.
Definition c_sqrt (x : double) : double := SFsqrt prec emax x.
Definition c_fabs (x : double) : double := SFabs x.

(** C comparisons: all false when an operand is NaN, except [!=]. *)
Definition dlt (x y : double) : bool := SFltb x y.
Definition dle (x y : double) : bool := SFleb x y.
Definition deq (x y : double) : bool := SFeqb x y.

(** [(double) n] for an integer [n]. *)
Definition d_of_Z (n : Z) : double := binary_normalize prec emax n 0 false.

(** The constant with the value [n / d], correctly rounded: [dlit 1 10] is [0.1]. *)
Definition dlit (n d : positive) : double :=
  let '(mz, ez, lz) := SFdiv_core_binary prec emax (Zpos n) 0 (Zpos d) 0 in
  binary_round_aux prec emax false mz ez lz.

(** [(int) x]: truncation towards zero; undefined when no [int] has the value. *)
Definition d_trunc (x : double) : option Z :=
  match x with
  | S754_zero _ => Some 0%Z
  | S754_finite s m e =>
      let a := if (0 <=? e)%Z then (Zpos m * 2 ^ e)%Z else (Zpos m / 2 ^ (- e))%Z in
      Some (if s then (- a)%Z else a)
  | _ => None
  end.

Definition d_to_int (x : double) : res Z :=
  match d_trunc x with
  | Some z => if ((- 2 ^ 31 <=? z) && (z <? 2 ^ 31))%Z then Ok z else Err Fault_conv
  | None => Err Fault_conv
  end.

(** The object representation: the eight bytes of the value, little-endian. *)
Definition d_bits (x : double) : Z :=
  match x with
  | S754_zero s => if s then 2 ^ 63 else 0
  | S754_infinity s => (if s then 2 ^ 63 else 0) + 2047 * 2 ^ 52
  | S754_nan => 2047 * 2 ^ 52 + 2 ^ 51
  | S754_finite s m e =>
      (if s then 2 ^ 63 else 0) +
      (if Zpos m <? 2 ^ 52 then Zpos m else (e + 1075) * 2 ^ 52 + (Zpos m - 2 ^ 52))
  end%Z.

Definition bytes_of (n : nat) (z : Z) : list Z :=
  map (fun i => (z / 2 ^ (8 * Z.of_nat i)) mod 256)%Z (seq 0 n).

Definition d_bytes (x : double) : list Z := bytes_of 8 (d_bits x).

Definition is_nan (x : double) : bool :=
  match x with S754_nan => true | _ => false end.

Declare Scope dbl_scope.
Delimit Scope dbl_scope with D.
Infix "+" := dadd : dbl_scope.
Infix "-" := dsub : dbl_scope.
Infix "*" := dmul : dbl_scope.
Infix "/" := ddiv : dbl_scope.
Notation "- x" := (dopp x) : dbl_scope.
Infix "<?" := dlt : dbl_scope.
Infix "<=?" := dle : dbl_scope.
Notation "x >? y" := (dlt y x) (only parsing) : dbl_scope.
Notation "x >=? y" := (dle y x) (only parsing) : dbl_scope.
Infix "=?" := deq : dbl_scope.
Bind Scope dbl_scope with double.

(** libm, which is outside the repository. *)
Class Libm : Type := {
  c_exp : double → double;
  c_log : double → double
}.

(** A stand-in for libm to evaluate the definitions on concrete inputs. *)
Definition sample_libm : Libm := {| c_exp := fun x => x; c_log := fun x => dsub x (d_of_Z 1) |}.

(** ** Order *)

(** Lexicographic key of a number; equal keys are equal values ([0 = -0]). *)
Definition dkey (x : double) : Z * Z * Z :=
  match x with
  | S754_nan | S754_zero _ => (0, 0, 0)
  | S754_infinity s => (if s then -2 else 2, 0, 0)
  | S754_finite s m e => if s then (-1, - e, Zneg m) else (1, e, Zpos m)
  end%Z.

Definition klt (a b : Z * Z * Z) : Prop :=
  let '(a1, a2, a3) := a in let '(b1, b2, b3) := b in
  (a1 < b1 ∨ (a1 = b1 ∧ (a2 < b2 ∨ (a2 = b2 ∧ a3 < b3))))%Z.

Lemma dcompare_key x y :
  is_nan x = false → is_nan y = false →
  match SFcompare x y with
  | Some Lt => klt (dkey x) (dkey y)
  | Some Eq => dkey x = dkey y
  | Some Gt => klt (dkey y) (dkey x)
  | None => False
  end.
Proof.
  destruct x as [[]|[]| |[] m e], y as [[]|[]| |[] m' e']; simpl; intros; try done;
    unfold klt; simpl; try lia;
    destruct (Z.compare_spec e e'); subst; simpl; try lia;
    change (Pos.compare_cont Eq m m') with (Pos.compare m m');
    destruct (Pos.compare_spec m m'); subst; simpl; try lia; done.
Qed.

Lemma dlt_key x y :
  dlt x y = true ↔ is_nan x = false ∧ is_nan y = false ∧ klt (dkey x) (dkey y).
Proof.
  unfold dlt, SFltb. destruct (is_nan x) eqn:Hx.
  { destruct x; try done. naive_solver. }
  destruct (is_nan y) eqn:Hy.
  { destruct y; try done. destruct x; naive_solver. }
  pose proof (dcompare_key x y Hx Hy) as H. destruct (dkey x) as [[a1 a2] a3], (dkey y) as [[b1 b2] b3].
  destruct (SFcompare x y) as [[]|]; simpl in *; naive_solver lia.
Qed.

Lemma dle_key x y :
  dle x y = true ↔ is_nan x = false ∧ is_nan y = false ∧ ¬ klt (dkey y) (dkey x).
Proof.
  unfold dle, SFleb. destruct (is_nan x) eqn:Hx.
  { destruct x; try done. naive_solver. }
  destruct (is_nan y) eqn:Hy.
  { destruct y; try done. destruct x; naive_solver. }
  pose proof (dcompare_key x y Hx Hy) as H. destruct (dkey x) as [[a1 a2] a3], (dkey y) as [[b1 b2] b3].
  destruct (SFcompare x y) as [[]|]; simpl in *; naive_solver lia.
Qed.

Lemma deq_key x y :
  deq x y = true ↔ is_nan x = false ∧ is_nan y = false ∧ dkey x = dkey y.
Proof.
  unfold deq, SFeqb. destruct (is_nan x) eqn:Hx.
  { destruct x; try done. naive_solver. }
  destruct (is_nan y) eqn:Hy.
  { destruct y; try done. destruct x; naive_solver. }
  pose proof (dcompare_key x y Hx Hy) as H. destruct (dkey x) as [[a1 a2] a3], (dkey y) as [[b1 b2] b3].
  destruct (SFcompare x y) as [[]|]; simpl in *; naive_solver lia.
Qed.

Lemma dlt_irrefl x : dlt x x = false.
Proof. apply not_true_iff_false. rewrite dlt_key. destruct (dkey x) as [[? ?] ?]. simpl. lia. Qed.

Lemma dlt_trans x y z : dlt x y = true → dlt y z = true → dlt x z = true.
Proof.
  rewrite !dlt_key. destruct (dkey x) as [[? ?] ?], (dkey y) as [[? ?] ?], (dkey z) as [[? ?] ?].
  simpl. naive_solver lia.
Qed.

Lemma dlt_asym x y : dlt x y = true → dlt y x = false.
Proof.
  intros H. apply not_true_iff_false. intros H'.
  pose proof (dlt_trans _ _ _ H H'). by rewrite dlt_irrefl in *.
Qed.

(** [dge x y]: [x] is not smaller than [y] ([!(x < y)] of the sources). *)
Lemma klt_trans_not a b c : ¬ klt a b → ¬ klt b c → ¬ klt a c.
Proof. destruct a as [[? ?] ?], b as [[? ?] ?], c as [[? ?] ?]. simpl. lia. Qed.

Lemma dlt_false_trans x y z :
  is_nan y = false → dlt x y = false → dlt y z = false → dlt x z = false.
Proof.
  intros Hy. rewrite <- !not_true_iff_false, !dlt_key. intros Hxy Hyz (Hx & Hz & Hlt).
  revert Hlt. apply (klt_trans_not _ (dkey y)); intros ?; [apply Hxy | apply Hyz]; done.
Qed.

Lemma dle_not_lt x y :
  is_nan x = false → is_nan y = false → dle x y = negb (dlt y x).
Proof.
  intros Hx Hy. destruct (dlt y x) eqn:E; simpl; [|apply dle_key].
  - apply not_true_iff_false. rewrite dle_key. rewrite dlt_key in E. naive_solver.
  - rewrite <- not_true_iff_false, dlt_key in E. naive_solver.
Qed.

Lemma dlt_total x y :
  is_nan x = false → is_nan y = false → dlt x y = false → dlt y x = false → deq x y = true.
Proof.
  intros Hx Hy. rewrite <- !not_true_iff_false, !dlt_key, deq_key. intros H1 H2. split_and!; [done | done|].
  destruct (dkey x) as [[a1 a2] a3], (dkey y) as [[b1 b2] b3]. simpl in *.
  assert (a1 = b1 ∧ a2 = b2 ∧ a3 = b3)%Z as (-> & -> & ->); [|done].
  assert (N1 : ¬ (a1 < b1 ∨ a1 = b1 ∧ (a2 < b2 ∨ a2 = b2 ∧ a3 < b3))%Z) by (intros ?; by apply H1).
  assert (N2 : ¬ (b1 < a1 ∨ b1 = a1 ∧ (b2 < a2 ∨ b2 = a2 ∧ b3 < a3))%Z) by (intros ?; by apply H2).
  lia.
Qed.

(** ** Sign *)

(** [x] is not negative: NaN, a zero, or a number with a positive sign. *)
Definition notneg (x : double) : Prop := dlt x d0 = false.

Lemma notneg_sign x :
  notneg x ↔ match x with S754_infinity true | S754_finite true _ _ => False | _ => True end.
Proof. unfold notneg, dlt, SFltb. destruct x as [[]|[]| |[] ? ?]; simpl; naive_solver. Qed.

Lemma round_aux_sign s m e l :
  match binary_round_aux prec emax s m e l with
  | S754_zero s' | S754_infinity s' | S754_finite s' _ _ => s' = s
  | S754_nan => True
  end.
Proof.
  unfold binary_round_aux. destruct (shr_fexp _ _ m e l) as [mrs e'].
  destruct (shr_fexp _ _ _ e' loc_Exact) as [mrs' e'']. destruct (shr_m mrs'); simpl; try done.
  by destruct (_ <=? _)%Z.
Qed.

Lemma notneg_round_aux m e l : notneg (binary_round_aux prec emax false m e l).
Proof.
  apply notneg_sign. pose proof (round_aux_sign false m e l).
  destruct (binary_round_aux _ _ _ _ _ _); naive_solver.
Qed.

Lemma notneg_mul_self x : notneg (dmul x x).
Proof.
  apply notneg_sign. destruct x as [[]|[]| |[] m e]; simpl; try done;
    apply notneg_sign, notneg_round_aux.
Qed.

Lemma notneg_mul x y : notneg x → notneg y → notneg (dmul x y).
Proof.
  rewrite !notneg_sign. destruct x as [sx|sx| |sx mx ex], y as [sy|sy| |sy my ey]; simpl; try done;
    try (by destruct sx, sy); try (by destruct sx); try (by destruct sy).
  destruct sx, sy; try done. intros _ _. apply notneg_sign, notneg_round_aux.
Qed.

Lemma notneg_add x y : notneg x → notneg y → notneg (dadd x y).
Proof.
  rewrite !notneg_sign. destruct x as [[]|[]| |[] mx ex], y as [[]|[]| |[] my ey]; simpl; try done.
  intros _ _. unfold binary_round. destruct (shl_align _ _ _). apply notneg_sign, notneg_round_aux.
Qed.

Lemma notneg_div x y : notneg x → notneg y → (∀ s, y ≠ S754_zero s) → notneg (ddiv x y).
Proof.
  rewrite !notneg_sign. destruct x as [sx|sx| |sx mx ex], y as [sy|sy| |sy my ey]; simpl; try done;
    try (by destruct sx, sy); try naive_solver.
  destruct sx, sy; try done. intros _ _ _.
  destruct (SFdiv_core_binary _ _ _ _ _ _) as [[? ?] ?]. apply notneg_sign, notneg_round_aux.
Qed.

Lemma notneg_sqrt x : notneg (c_sqrt x).
Proof.
  apply notneg_sign. destruct x as [[]|[]| |[] m e]; simpl; try done.
  destruct (SFsqrt_core_binary _ _ _ _) as [[? ?] ?]. apply notneg_sign, notneg_round_aux.
Qed.

Lemma notneg_fabs x : notneg (c_fabs x).
Proof. by apply notneg_sign; destruct x as [[]|[]| |[] m e]. Qed.

Lemma notneg_d0 : notneg d0.
Proof. done. Qed.

Lemma notneg_nan : notneg S754_nan.
Proof. done. Qed.

Create HintDb dbl.
#[export] Hint Resolve notneg_mul_self notneg_mul notneg_add notneg_sqrt notneg_fabs notneg_d0 : dbl.

(** ** Integers in doubles *)
Lemma iter_xO p d :
  Zpos (Pos.iter xO p d) = (Zpos p * 2 ^ Zpos d)%Z ∧
  Zpos (digits2_pos (Pos.iter xO p d)) = (Zpos (digits2_pos p) + Zpos d)%Z.
Proof.
  induction d as [|d [IH1 IH2]] using Pos.peano_ind; [simpl; lia|].
  rewrite Pos.iter_succ. split.
  - rewrite Pos2Z.inj_xO, IH1, Pos2Z.inj_succ, Z.pow_succ_r by lia. lia.
  - simpl digits2_pos. rewrite !Pos2Z.inj_succ, IH2. lia.
Qed.

Lemma round_exact s m e :
  fexp prec emax (Zpos (digits2_pos m) + e) = e → (e <= emax - prec)%Z →
  binary_round_aux prec emax s (Zpos m) e loc_Exact = S754_finite s m e.
Proof.
  intros Hf He. unfold binary_round_aux.
  assert (Hs : shr_fexp prec emax (Zpos m) e loc_Exact = (Build_shr_record (Zpos m) false false, e)).
  { unfold shr_fexp. cbn [Zdigits2]. by rewrite Hf, Z.sub_diag. }
  rewrite Hs. cbn -[Z.leb shr_fexp]. rewrite Hs. cbn -[Z.leb]. by rewrite (proj2 (Z.leb_le _ _) He).
Qed.

Lemma round_small s p :
  (Zpos (digits2_pos p) <= 53)%Z →
  ∃ m k, (0 <= k)%Z ∧ Zpos m = (Zpos p * 2 ^ k)%Z ∧ binary_round prec emax s p 0 = S754_finite s m (- k).
Proof.
  intros Hd. set (k := (53 - Zpos (digits2_pos p))%Z).
  assert (Hf : fexp prec emax (Zpos (digits2_pos p)) = (- k)%Z).
  { unfold fexp, emin, prec, emax. lia. }
  unfold binary_round. rewrite Z.add_0_r, Hf. unfold shl_align. rewrite Z.sub_0_r.
  destruct k as [|d|d] eqn:Ek; [| |lia].
  - exists p, 0%Z. split; [lia|]. split; [lia|]. apply round_exact; [by rewrite Z.add_0_r | done].
  - destruct (iter_xO p d) as [H1 H2]. exists (Pos.iter xO p d), (Zpos d). split; [lia|]. split; [done|].
    apply round_exact; [|unfold emax, prec; lia]. rewrite H2.
    replace (Zpos (digits2_pos p) + Zpos d + - Zpos d)%Z with (Zpos (digits2_pos p)) by lia. exact Hf.
Qed.

Lemma digits_le p n : (Zpos p < 2 ^ n)%Z → (0 <= n)%Z → (Zpos (digits2_pos p) <= n)%Z.
Proof.
  intros Hp Hn. assert (Hlow : (2 ^ (Zpos (digits2_pos p) - 1) <= Zpos p)%Z).
  { clear. induction p as [p IH|p IH|]; simpl digits2_pos; try done; rewrite Pos2Z.inj_succ;
      replace (Z.succ (Zpos (digits2_pos p)) - 1)%Z with (Z.succ (Zpos (digits2_pos p) - 1)) by lia;
      rewrite Z.pow_succ_r by lia; lia. }
  apply Z.lt_succ_r, Z.nle_gt. intros Hlt.
  assert (2 ^ n <= 2 ^ (Zpos (digits2_pos p) - 1))%Z by (apply Z.pow_le_mono_r; lia). lia.
Qed.

(** [(int) (double) z] is [z] for every [int]. *)
Lemma d_to_int_of_Z z : (- 2 ^ 31 <= z < 2 ^ 31)%Z → d_to_int (d_of_Z z) = Ok z.
Proof.
  intros Hz. assert (Ht : d_trunc (d_of_Z z) = Some z).
  { unfold d_of_Z, binary_normalize. destruct z as [|p|p]; [done| |].
    - destruct (round_small false p) as (m & k & Hk & Hm & ->); [apply digits_le; lia|].
      cbn -[Z.leb Z.pow Z.div Z.mul]. f_equal. destruct (Z.leb_spec 0 (- k)).
      + assert (k = 0)%Z as -> by lia. cbn -[Z.mul]. lia.
      + rewrite Z.opp_involutive, Hm. apply Z.div_mul. apply Z.pow_nonzero; lia.
    - destruct (round_small true p) as (m & k & Hk & Hm & ->); [apply digits_le; lia|].
      cbn -[Z.leb Z.pow Z.div Z.mul Z.opp]. change (Zneg p) with (- Zpos p)%Z. do 2 f_equal. destruct (Z.leb_spec 0 (- k)).
      + assert (k = 0)%Z as -> by lia. cbn -[Z.mul]. lia.
      + rewrite Z.opp_involutive, Hm. apply Z.div_mul. apply Z.pow_nonzero; lia. }
  unfold d_to_int. rewrite Ht.
  rewrite (proj2 (Z.leb_le (- 2 ^ 31) z)) by lia. by rewrite (proj2 (Z.ltb_lt z (2 ^ 31))) by lia.
Qed.

(** ** Signs *)
Lemma round_aux_opp s m e l : binary_round_aux prec emax (negb s) m e l = dopp (binary_round_aux prec emax s m e l).
Proof.
  unfold binary_round_aux, dopp. destruct (shr_fexp prec emax m e l) as [mrs1 e1].
  destruct (shr_fexp prec emax _ e1 loc_Exact) as [mrs2 e2]. destruct (shr_m mrs2); try done. by destruct (Z.leb _ _).
Qed.

Lemma dmul_opp_swap p q : dmul (dopp q) p = dopp (dmul p q).
Proof.
  destruct p as [sp|sp| |sp mp ep], q as [sq|sq| |sq mq eq]; unfold dmul, dopp; cbn [SFopp SFmul]; try done;
    try (f_equal; by destruct sp, sq).
  rewrite Pos.mul_comm, Z.add_comm. change (SFopp ?x) with (dopp x). rewrite <- round_aux_opp. f_equal. by destruct sp, sq.
Qed.

Lemma dsub_opp x y : dsub x y = dadd x (dopp y).
Proof.
  destruct x as [sx|sx| |sx mx ex], y as [sy|sy| |sy my ey]; unfold dsub, dadd, dopp; cbn [SFopp SFsub SFadd]; try done;
    by destruct sx, sy.
Qed.

(** [a - p * q] and [a + (-q) * p] are the same number. *)
Lemma dsub_mul a p q : dsub a (dmul p q) = dadd a (dmul (dopp q) p).
Proof. by rewrite dsub_opp, dmul_opp_swap. Qed.
