(* ===== verification/HashAny.v ===== *)
(** * HashAny: [hash_any] and [hash_uint32] of src/backend/access/hash/hashfunc.c

    Bob Jenkins' hash of a byte string, the only hash function behind the
    query, clause and feature-subspace hashes of contrib/aqo.  A byte is a [Z]
    in [0, 256), a [uint32] a [Z] in [0, 2^32) with the wrap-around of every
    addition and subtraction written out.  The configuration is the one of
    config.log (little-endian, [WORDS_BIGENDIAN] not defined); both code
    paths, for word-aligned and for unaligned keys, are modelled. *)
From S2P Require Import Prelude Float64.

Local Open Scope Z_scope.

Definition add32 (x y : Z) : Z := wrap32 (x + y).
Definition sub32 (x y : Z) : Z := wrap32 (x - y).
Definition xor32 (x y : Z) : Z := Z.lxor x y.
Definition shl32 (x k : Z) : Z := wrap32 (Z.shiftl x k).

Definition rot (x k : Z) : Z := Z.lor (shl32 x k) (Z.shiftr x (32 - k)).

(** The internal state [a, b, c]. *)
Record abc : Type := Abc { sa : Z; sb : Z; sc : Z }.

Definition mix (st : abc) : abc :=
  let '(Abc a b c) := st in
  let a := sub32 a c in let a := xor32 a (rot c 4) in let c := add32 c b in
  let b := sub32 b a in let b := xor32 b (rot a 6) in let a := add32 a c in
  let c := sub32 c b in let c := xor32 c (rot b 8) in let b := add32 b a in
  let a := sub32 a c in let a := xor32 a (rot c 16) in let c := add32 c b in
  let b := sub32 b a in let b := xor32 b (rot a 19) in let a := add32 a c in
  let c := sub32 c b in let c := xor32 c (rot b 4) in let b := add32 b a in
  Abc a b c.

Definition final (st : abc) : abc :=
  let '(Abc a b c) := st in
  let c := xor32 c b in let c := sub32 c (rot b 14) in
  let a := xor32 a c in let a := sub32 a (rot c 11) in
  let b := xor32 b a in let b := sub32 b (rot a 25) in
  let c := xor32 c b in let c := sub32 c (rot b 16) in
  let a := xor32 a c in let a := sub32 a (rot c 4) in
  let b := xor32 b a in let b := sub32 b (rot a 14) in
  let c := xor32 c b in let c := sub32 c (rot b 24) in
  Abc a b c.

(** [k[i]]; the switches read only positions below the length. *)
Definition byte_at (k : list Z) (i : nat) : Z := nth i k 0.

(** A little-endian word fetch: the [uint32] at byte offset [4 * i]. *)
Definition word_at (k : list Z) (i : nat) : Z :=
  byte_at k (4 * i) + 2 ^ 8 * byte_at k (4 * i + 1) +
  2 ^ 16 * byte_at k (4 * i + 2) + 2 ^ 24 * byte_at k (4 * i + 3).

(** The same four bytes gathered one at a time in [uint32] arithmetic. *)
Definition gather_at (k : list Z) (i : nat) : Z :=
  add32 (add32 (add32 (byte_at k i) (shl32 (byte_at k (i + 1)) 8))
               (shl32 (byte_at k (i + 2)) 16))
        (shl32 (byte_at k (i + 3)) 24).

(** The last at most 11 bytes, aligned key: [switch (len)] with fall through,
    left by [break] at the cases 8 and 4. *)
Definition tail_aligned (k : list Z) (st : abc) : abc :=
  let len := length k in
  let '(Abc a b c) := st in
  let c := if (11 <=? len)%nat then add32 c (shl32 (byte_at k 10) 24) else c in
  let c := if (10 <=? len)%nat then add32 c (shl32 (byte_at k 9) 16) else c in
  let c := if (9 <=? len)%nat then add32 c (shl32 (byte_at k 8) 8) else c in
  if (8 <=? len)%nat then
    let b := add32 b (word_at k 1) in
    let a := add32 a (word_at k 0) in
    Abc a b c
  else
    let b := if (7 <=? len)%nat then add32 b (shl32 (byte_at k 6) 16) else b in
    let b := if (6 <=? len)%nat then add32 b (shl32 (byte_at k 5) 8) else b in
    let b := if (5 <=? len)%nat then add32 b (byte_at k 4) else b in
    if (4 <=? len)%nat then
      let a := add32 a (word_at k 0) in
      Abc a b c
    else
      let a := if (3 <=? len)%nat then add32 a (shl32 (byte_at k 2) 16) else a in
      let a := if (2 <=? len)%nat then add32 a (shl32 (byte_at k 1) 8) else a in
      let a := if (1 <=? len)%nat then add32 a (byte_at k 0) else a in
      Abc a b c.

(** The last at most 11 bytes, unaligned key: every case falls through. *)
Definition tail_unaligned (k : list Z) (st : abc) : abc :=
  let len := length k in
  let '(Abc a b c) := st in
  let c := if (11 <=? len)%nat then add32 c (shl32 (byte_at k 10) 24) else c in
  let c := if (10 <=? len)%nat then add32 c (shl32 (byte_at k 9) 16) else c in
  let c := if (9 <=? len)%nat then add32 c (shl32 (byte_at k 8) 8) else c in
  let b := if (8 <=? len)%nat then add32 b (shl32 (byte_at k 7) 24) else b in
  let b := if (7 <=? len)%nat then add32 b (shl32 (byte_at k 6) 16) else b in
  let b := if (6 <=? len)%nat then add32 b (shl32 (byte_at k 5) 8) else b in
  let b := if (5 <=? len)%nat then add32 b (byte_at k 4) else b in
  let a := if (4 <=? len)%nat then add32 a (shl32 (byte_at k 3) 24) else a in
  let a := if (3 <=? len)%nat then add32 a (shl32 (byte_at k 2) 16) else a in
  let a := if (2 <=? len)%nat then add32 a (shl32 (byte_at k 1) 8) else a in
  let a := if (1 <=? len)%nat then add32 a (byte_at k 0) else a in
  Abc a b c.

(** [while (len >= 12)]: both paths add three words, mix and advance. *)
Fixpoint hash_loop_aligned (fuel : nat) (k : list Z) (st : abc) : abc :=
  match fuel with
  | O => st
  | S fuel =>
      if (12 <=? length k)%nat then
        hash_loop_aligned fuel (drop 12 k)
          (mix (Abc (add32 (sa st) (word_at k 0)) (add32 (sb st) (word_at k 1))
                    (add32 (sc st) (word_at k 2))))
      else tail_aligned k st
  end.

Fixpoint hash_loop_unaligned (fuel : nat) (k : list Z) (st : abc) : abc :=
  match fuel with
  | O => st
  | S fuel =>
      if (12 <=? length k)%nat then
        hash_loop_unaligned fuel (drop 12 k)
          (mix (Abc (add32 (sa st) (gather_at k 0)) (add32 (sb st) (gather_at k 4))
                    (add32 (sc st) (gather_at k 8))))
      else tail_unaligned k st
  end.

(** [hash_any(k, keylen)]: [aligned] is the test on the address of [k], and
    [keylen] the length of the key.  [S (length k)] turns are enough: each one
    but the last removes 12 bytes. *)
Definition hash_any (aligned : bool) (k : list Z) : Z :=
  let len := Z.of_nat (length k) in
  let i := wrap32 (2654435769 + len + 3923095) in
  let st := Abc i i i in
  let st := if aligned then hash_loop_aligned (S (length k)) k st
            else hash_loop_unaligned (S (length k)) k st in
  sc (final st).

Definition hash_uint32 (k : Z) : Z :=
  let i := wrap32 (2654435769 + 4 + 3923095) in
  sc (final (Abc (add32 i k) i i)).

Definition bytes_ok (k : list Z) : Prop := Forall (fun b => 0 <= b < 256) k.

(** ** Lemmas *)
Lemma add32_assoc x y z : add32 (add32 x y) z = add32 x (y + z).
Proof. unfold add32, wrap32. rewrite Zplus_mod_idemp_l. f_equal. lia. Qed.

Lemma add32_wrap_r x y : add32 x (wrap32 y) = add32 x y.
Proof. unfold add32, wrap32. apply Zplus_mod_idemp_r. Qed.

Lemma shl32_small b k : 0 <= b < 256 -> 0 <= k <= 24 -> shl32 b k = 2 ^ k * b.
Proof.
  intros Hb Hk. unfold shl32. rewrite Z.shiftl_mul_pow2 by lia.
  assert (2 ^ k <= 2 ^ 24) by (apply Z.pow_le_mono_r; lia).
  assert (0 < 2 ^ k) by (apply Z.pow_pos_nonneg; lia).
  rewrite wrap32_small; [lia | nia].
Qed.

Lemma byte_at_range k i : bytes_ok k -> 0 <= byte_at k i < 256.
Proof.
  intros H. unfold byte_at. destruct (decide (i < length k)%nat) as [Hi|Hi].
  - apply (proj1 (List.Forall_forall _ k) H), nth_In, Hi.
  - rewrite nth_overflow by lia. lia.
Qed.

Lemma bytes_ok_drop n k : bytes_ok k -> bytes_ok (drop n k).
Proof. apply Forall_drop. Qed.

Lemma word_at_range k i : bytes_ok k -> 0 <= word_at k i < 2 ^ 32.
Proof.
  intros H. unfold word_at.
  pose proof (byte_at_range k (4 * i) H). pose proof (byte_at_range k (4 * i + 1) H).
  pose proof (byte_at_range k (4 * i + 2) H). pose proof (byte_at_range k (4 * i + 3) H). lia.
Qed.

Lemma gather_word k i : bytes_ok k -> gather_at k (4 * i) = word_at k i.
Proof.
  intros H. unfold gather_at. rewrite !shl32_small by (first [by apply byte_at_range | lia]).
  rewrite !add32_assoc. unfold add32. rewrite wrap32_small; [unfold word_at; lia|].
  pose proof (word_at_range k i H). unfold word_at in *. lia.
Qed.

Ltac norm32 H :=
  rewrite ?shl32_small by (first [by apply byte_at_range | lia]);
  rewrite ?add32_assoc; f_equal; unfold word_at; simpl byte_at; lia.

Lemma tail_paths k st : bytes_ok k -> tail_aligned k st = tail_unaligned k st.
Proof.
  intros H. unfold tail_aligned, tail_unaligned. destruct st as [a b c].
  destruct (8 <=? length k)%nat eqn:E8.
  - apply Nat.leb_le in E8. replace (7 <=? length k)%nat with true by (symmetry; apply Nat.leb_le; lia).
    replace (6 <=? length k)%nat with true by (symmetry; apply Nat.leb_le; lia).
    replace (5 <=? length k)%nat with true by (symmetry; apply Nat.leb_le; lia).
    replace (4 <=? length k)%nat with true by (symmetry; apply Nat.leb_le; lia).
    replace (3 <=? length k)%nat with true by (symmetry; apply Nat.leb_le; lia).
    replace (2 <=? length k)%nat with true by (symmetry; apply Nat.leb_le; lia).
    replace (1 <=? length k)%nat with true by (symmetry; apply Nat.leb_le; lia).
    f_equal; norm32 H.
  - destruct (4 <=? length k)%nat eqn:E4; [|done].
    apply Nat.leb_le in E4.
    replace (3 <=? length k)%nat with true by (symmetry; apply Nat.leb_le; lia).
    replace (2 <=? length k)%nat with true by (symmetry; apply Nat.leb_le; lia).
    replace (1 <=? length k)%nat with true by (symmetry; apply Nat.leb_le; lia).
    f_equal; norm32 H.
Qed.

Lemma loop_paths fuel k st :
  bytes_ok k -> hash_loop_aligned fuel k st = hash_loop_unaligned fuel k st.
Proof.
  revert k st. induction fuel as [|fuel IH]; intros k st H; [done|].
  cbn [hash_loop_aligned hash_loop_unaligned]. destruct (12 <=? length k)%nat; [|by apply tail_paths].
  rewrite IH by (by apply bytes_ok_drop).
  by rewrite <- (gather_word k 0 H), <- (gather_word k 1 H), <- (gather_word k 2 H).
Qed.

Lemma sub32_range x y : 0 <= sub32 x y < 2 ^ 32.
Proof. apply wrap32_range. Qed.

Lemma final_range st : 0 <= sc (final st) < 2 ^ 32.
Proof. destruct st. apply sub32_range. Qed.

(** Enough turns: more fuel does not change the result of the loop. *)
Lemma hash_loop_fuel fuel fuel' k st :
  (length k < fuel)%nat -> (length k < fuel')%nat ->
  hash_loop_aligned fuel k st = hash_loop_aligned fuel' k st.
Proof.
  revert fuel' k st. induction fuel as [|fuel IH]; intros fuel' k st H H'; [lia|].
  destruct fuel' as [|fuel']; [lia|]. cbn [hash_loop_aligned]. destruct (Nat.leb_spec 12 (length k)); [|done].
  apply IH; rewrite length_drop; lia.
Qed.

(** ** Properties *)

(** [hash_any] gives the same 32-bit hash whatever the alignment of the
    key: the word-wide path and the byte-wise path agree on every byte string. *)
Theorem hash_any_alignment (k : list Z) :
  bytes_ok k -> hash_any true k = hash_any false k /\ 0 <= hash_any true k < 2 ^ 32.
Proof.
  intros H. unfold hash_any. split; [|apply final_range].
  by rewrite loop_paths.
Qed.

Lemma hash_any_alignment_witness :
  hash_any true [1; 2; 3; 255; 0; 17; 200; 9; 10; 11; 12; 13; 14] =
  hash_any false [1; 2; 3; 255; 0; 17; 200; 9; 10; 11; 12; 13; 14].
Proof.
  apply (hash_any_alignment [1; 2; 3; 255; 0; 17; 200; 9; 10; 11; 12; 13; 14]).
  repeat constructor; lia.
Defined.

(** [hash_uint32(k)] is [hash_any] of the four bytes of [k], as its
    comment promises. *)
Theorem hash_uint32_any (k : Z) (aligned : bool) :
  0 <= k < 2 ^ 32 -> hash_uint32 k = hash_any aligned (bytes_of 4 k).
Proof.
  intros Hk.
  assert (Hb : bytes_ok (bytes_of 4 k)).
  { repeat constructor; apply Z.mod_pos_bound; lia. }
  assert (Hw : word_at (bytes_of 4 k) 0 = k).
  { unfold word_at, byte_at, bytes_of. cbn [seq map nth Nat.mul Nat.add].
    change (2 ^ (8 * Z.of_nat 0)) with 1. change (2 ^ (8 * Z.of_nat 1)) with 256.
    change (2 ^ (8 * Z.of_nat 2)) with (256 * 256).
    change (2 ^ (8 * Z.of_nat 3)) with (256 * (256 * 256)).
    rewrite Z.div_1_r, <- !Z.div_div by lia.
    pose proof (Z.div_mod k 256 ltac:(lia)). pose proof (Z.div_mod (k / 256) 256 ltac:(lia)).
    pose proof (Z.div_mod (k / 256 / 256) 256 ltac:(lia)).
    rewrite (Z.mod_small (k / 256 / 256 / 256) 256); [lia|].
    rewrite !Z.div_div by lia. split; [apply Z.div_pos; lia | apply Z.div_lt_upper_bound; lia]. }
  transitivity (hash_any true (bytes_of 4 k)).
  - unfold hash_uint32, hash_any. simpl. rewrite Hw. reflexivity.
  - destruct aligned; [done|]. unfold hash_any. by rewrite loop_paths.
Qed.

Lemma hash_uint32_any_witness : hash_uint32 305419896 = hash_any false (bytes_of 4 305419896).
Proof. apply (hash_uint32_any 305419896 false). lia. Defined.
