(* ===== verification/Qsort.v ===== *)
(** * Qsort: [pg_qsort] of src/port/qsort.c

    [qsort] is [pg_qsort] everywhere in the backend (src/include/port.h), so
    this is the sort behind every hash that must not depend on an order.  The
    array [a] of [n] elements is the list of its elements, a pointer
    [a + i * es] is the index [i], and every element access is checked.  The
    comparator is an arbitrary function to [int]; the swaps of [swapfunc]
    exchange whole elements, whatever the [swaptype]. *)
From S2P Require Import Prelude.
From stdpp Require Import sorting.

Section Qsort.
Context {A : Type} (cmp : A → A → Z).

(** ** The code *)
Definition swap (l : list A) (i j : nat) : res (list A) :=
  x ← rd l i; y ← rd l j; l' ← wr l i y; wr l' j x.

(** [vecswap(a + i, a + j, d)]: element by element, from the left. *)
Definition vecswap (l : list A) (i j d : nat) : res (list A) :=
  for_range 0 d (fun k l => swap l (i + k) (j + k)) l.

Definition cmp_at (l : list A) (i j : nat) : res Z :=
  x ← rd l i; y ← rd l j; Ok (cmp x y).

(** The index [med3] selects. *)
Definition med3 (l : list A) (a b c : nat) : res nat :=
  ab ← cmp_at l a b;
  if (ab <? 0)%Z then
    bc ← cmp_at l b c;
    if (bc <? 0)%Z then Ok b
    else ac ← cmp_at l a c; Ok (if (ac <? 0)%Z then c else a)
  else
    bc ← cmp_at l b c;
    if (0 <? bc)%Z then Ok b
    else ac ← cmp_at l a c; Ok (if (ac <? 0)%Z then a else c).

(** [for (pl = pm; pl > a && cmp(pl - es, pl) > 0; pl -= es) swap(pl, pl - es)] *)
Fixpoint insert_down (l : list A) (pl : nat) : res (list A) :=
  match pl with
  | O => Ok l
  | S pl' =>
      r ← cmp_at l pl' pl;
      if (0 <? r)%Z then l' ← swap l pl pl'; insert_down l' pl' else Ok l
  end.

Definition insertion_sort (l : list A) : res (list A) :=
  for_range 1 (length l) (fun pm l => insert_down l pm) l.

(** The check for already-sorted input, from position [pm] with [k] to go. *)
Fixpoint presorted_from (l : list A) (pm k : nat) : res bool :=
  match k with
  | O => Ok true
  | S k' =>
      r ← cmp_at l (pm - 1) pm;
      if (0 <? r)%Z then Ok false else presorted_from l (S pm) k'
  end.

(** The index of the pivot: the median of three, or of nine when [n > 40]. *)
Definition choose_pivot (l : list A) : res nat :=
  let n := length l in
  let pm := n / 2 in
  if 7 <? n then
    let pl := 0 in
    let pn := n - 1 in
    if 40 <? n then
      let d := n / 8 in
      pl ← med3 l pl (pl + d) (pl + 2 * d);
      pm ← med3 l (pm - d) pm (pm + d);
      pn ← med3 l (pn - 2 * d) (pn - d) pn;
      med3 l pl pm pn
    else med3 l pl pm pn
  else Ok pm.

(** [while (pb <= pc && (r = cmp(pb, a)) <= 0)] *)
Fixpoint scan_lo (fuel : nat) (l : list A) (pa pb pc : nat) : res (list A * nat * nat) :=
  if pb <=? pc then
    match fuel with
    | O => Err Fault_fuel
    | S fuel =>
        r ← cmp_at l pb 0;
        if (r <=? 0)%Z then
          if (r =? 0)%Z then l' ← swap l pa pb; scan_lo fuel l' (S pa) (S pb) pc
          else scan_lo fuel l pa (S pb) pc
        else Ok (l, pa, pb)
    end
  else Ok (l, pa, pb).

(** [while (pb <= pc && (r = cmp(pc, a)) >= 0)] *)
Fixpoint scan_hi (fuel : nat) (l : list A) (pb pc pd : nat) : res (list A * nat * nat) :=
  if pb <=? pc then
    match fuel with
    | O => Err Fault_fuel
    | S fuel =>
        r ← cmp_at l pc 0;
        if (0 <=? r)%Z then
          if (r =? 0)%Z then l' ← swap l pc pd; scan_hi fuel l' pb (pc - 1) (pd - 1)
          else scan_hi fuel l pb (pc - 1) pd
        else Ok (l, pc, pd)
    end
  else Ok (l, pc, pd).

(** The [for (;;)] that partitions around the pivot at index 0. *)
Fixpoint partition_loop (fuel : nat) (l : list A) (pa pb pc pd : nat)
  : res (list A * nat * nat * nat * nat) :=
  match fuel with
  | O => Err Fault_fuel
  | S fuel =>
      '(l, pa, pb) ← scan_lo (length l) l pa pb pc;
      '(l, pc, pd) ← scan_hi (length l) l pb pc pd;
      if pc <? pb then Ok (l, pa, pb, pc, pd)
      else l ← swap l pb pc; partition_loop fuel l pa (S pb) (pc - 1) pd
  end.

(** Sorting the elements [off, off + len) in place. *)
Definition on_range (l : list A) (off len : nat) (f : list A → res (list A)) : res (list A) :=
  s ← f (take len (drop off l)); Ok (take off l ++ s ++ drop (off + len) l).

Fixpoint pg_qsort (fuel : nat) (l : list A) : res (list A) :=
  match fuel with
  | O => Err Fault_fuel
  | S fuel =>
      let n := length l in
      if n <? 7 then insertion_sort l
      else
        presorted ← presorted_from l 1 (n - 1);
        if (presorted : bool) then Ok l
        else
          pm ← choose_pivot l;
          l ← swap l 0 pm;
          '(l, pa, pb, pc, pd) ← partition_loop n l 1 1 (n - 1) (n - 1);
          let d1 := Nat.min pa (pb - pa) in
          l ← vecswap l 0 (pb - d1) d1;
          let d1 := Nat.min (pd - pc) (n - pd - 1) in
          l ← vecswap l pb (n - d1) d1;
          let d1 := pb - pa in
          let d2 := pd - pc in
          if d1 <=? d2 then
            l ← (if 1 <? d1 then on_range l 0 d1 (pg_qsort fuel) else Ok l);
            if 1 <? d2 then on_range l (n - d2) d2 (pg_qsort fuel) else Ok l
          else
            l ← (if 1 <? d2 then on_range l (n - d2) d2 (pg_qsort fuel) else Ok l);
            if 1 <? d1 then on_range l 0 d1 (pg_qsort fuel) else Ok l
  end.

(** [qsort(a, n, es, cmp)]: [n] nested or iterated calls are enough. *)
Definition qsort (l : list A) : res (list A) := pg_qsort (S (length l)) l.

(** ** What the comparator must satisfy for the result to be sorted *)
Definition cle (x y : A) : Prop := (cmp x y ≤ 0)%Z.

Class CmpOrder (P : A → Prop) : Prop := {
  cmp_refl x : P x → cmp x x = 0%Z;
  cmp_sym x y : P x → P y → (cmp x y < 0 ↔ 0 < cmp y x)%Z;
  cmp_trans x y z : P x → P y → P z → cle x y → cle y z → cle x z
}.

Definition sorted (l : list A) : Prop := StronglySorted cle l.

(** ** Element exchange *)
Definition exchange (l : list A) (i j : nat) : list A :=
  match l !! i, l !! j with
  | Some x, Some y => <[j := x]> (<[i := y]> l)
  | _, _ => l
  end.

Lemma swap_exchange l i j :
  i < length l → j < length l → swap l i j = Ok (exchange l i j).
Proof.
  intros Hi Hj. unfold swap, exchange.
  destruct (rd_lt l i Hi) as (x & Hx & ->), (rd_lt l j Hj) as (y & Hy & ->). simpl.
  rewrite Hx, Hy, wr_lt by done. simpl. by rewrite wr_lt by (by rewrite length_insert).
Qed.

Lemma length_exchange l i j : length (exchange l i j) = length l.
Proof.
  unfold exchange. destruct (l !! i), (l !! j); try done. by rewrite !length_insert.
Qed.

Lemma lookup_exchange l i j k :
  i < length l → j < length l →
  exchange l i j !! k = if decide (k = j) then l !! i else if decide (k = i) then l !! j else l !! k.
Proof.
  intros Hi Hj. unfold exchange.
  destruct (lookup_lt_is_Some_2 l i Hi) as [x Hx], (lookup_lt_is_Some_2 l j Hj) as [y Hy].
  rewrite Hx, Hy. destruct (decide (k = j)) as [->|Hkj].
  - by rewrite list_lookup_insert_eq by (by rewrite length_insert).
  - rewrite list_lookup_insert_ne by done. destruct (decide (k = i)) as [->|Hki].
    + by rewrite list_lookup_insert_eq.
    + by rewrite list_lookup_insert_ne.
Qed.

Lemma exchange_perm l i j : i < length l → j < length l → exchange l i j ≡ₚ l.
Proof.
  intros Hi Hj. apply Permutation_inj. split; [apply length_exchange|].
  exists (fun k => if decide (k = j) then i else if decide (k = i) then j else k). split.
  - intros a b. repeat case_decide; congruence.
  - intros k. rewrite lookup_exchange by done. by repeat case_decide.
Qed.

Lemma ensures_swap l i j (Q : list A → Prop) :
  i < length l → j < length l → Q (exchange l i j) → ensures (swap l i j) Q.
Proof. intros Hi Hj HQ. by rewrite swap_exchange. Qed.

Lemma ensures_cmp_at l i j (Q : Z → Prop) :
  i < length l → j < length l →
  (∀ x y, l !! i = Some x → l !! j = Some y → Q (cmp x y)) → ensures (cmp_at l i j) Q.
Proof.
  intros Hi Hj HQ. unfold cmp_at. csteps; try done. by apply HQ.
Qed.

(** The elements at the positions [lo, hi) satisfy [P]. *)
Definition rng (l : list A) (lo hi : nat) (P : A → Prop) : Prop :=
  ∀ k x, lo ≤ k < hi → l !! k = Some x → P x.

(** ** Insertion sort *)
Lemma sorted_snoc P `{!CmpOrder P} l x :
  Forall P l → P x → sorted l → Forall (fun y => cle y x) l → sorted (l ++ [x]).
Proof.
  intros HP Hx Hs Hle. apply StronglySorted_app_2; [|done|by repeat constructor].
  intros y z Hy Hz. apply list_elem_of_singleton in Hz as ->.
  rewrite Forall_forall in Hle. by apply Hle.
Qed.

Lemma cle_flip P `{!CmpOrder P} x y : P x → P y → (0 < cmp x y)%Z → cle y x.
Proof. intros Hx Hy H. apply (cmp_sym (P := P)) in H; [|done..]. unfold cle. lia. Qed.

Lemma lookup_mid (l1 l2 : list A) x : (l1 ++ x :: l2) !! length l1 = Some x.
Proof. rewrite lookup_app_r by lia. by rewrite Nat.sub_diag. Qed.

Lemma exchange_adjacent (q : list A) y x rest :
  exchange (q ++ y :: x :: rest) (S (length q)) (length q) = q ++ x :: y :: rest.
Proof.
  apply list_eq. intros k. rewrite lookup_exchange by (rewrite length_app; simpl; lia).
  rewrite (lookup_app_r q) by lia. replace (S (length q) - length q) with 1 by lia.
  rewrite lookup_mid. simpl.
  destruct (decide (k = length q)) as [->|Hk]; [by rewrite lookup_mid|].
  destruct (decide (k = S (length q))) as [->|Hk'].
  - rewrite lookup_app_r by lia. by replace (S (length q) - length q) with 1 by lia.
  - destruct (decide (k < length q)).
    + by rewrite !lookup_app_l by lia.
    + rewrite !lookup_app_r by lia. destruct (k - length q) as [|[|m]] eqn:E; [lia|lia|].
      done.
Qed.

Lemma Forall_snoc_2 (P : A → Prop) l x : Forall P l → P x → Forall P (l ++ [x]).
Proof. intros. apply Forall_app. split; [done | by apply Forall_singleton]. Qed.

Lemma insert_down_spec l1 x rest :
  ensures (insert_down (l1 ++ x :: rest) (length l1)) (fun l' =>
    ∃ l1', l' = l1' ++ rest ∧ l1' ≡ₚ l1 ++ [x] ∧
           ∀ P, CmpOrder P → Forall P (l1 ++ [x]) → sorted l1 → sorted l1').
Proof.
  revert rest. induction l1 as [|y q IH] using rev_ind; intros rest.
  { simpl. exists [x]. split; [done|]. split; [done|]. intros. by repeat constructor. }
  rewrite length_app, Nat.add_1_r. simpl insert_down.
  rewrite <- (assoc_L (++)). simpl.
  apply ensures_bind, ensures_cmp_at; [rewrite length_app; simpl; lia..|].
  intros y' x' Hy'. rewrite lookup_mid in Hy'. injection Hy' as <-.
  rewrite lookup_app_r by lia. replace (S (length q) - length q) with 1 by lia.
  simpl. intros [= <-].
  destruct (Z.ltb_spec 0 (cmp y x)) as [Hgt|Hle].
  - apply ensures_bind, ensures_swap; [rewrite length_app; simpl; lia..|].
    rewrite exchange_adjacent. eapply ensures_mono; [apply (IH (y :: rest))|].
    intros l' (q' & -> & Hperm & Hsort). exists (q' ++ [y]). split; [by rewrite <- (assoc_L (++))|].
    split.
    { rewrite Hperm, <- !(assoc_L (++)). f_equiv. simpl. by rewrite Permutation_swap. }
    intros P HP HF Hs. rewrite !Forall_app in HF. destruct HF as ((HFq & HFy) & HFx).
    rewrite Forall_singleton in HFy. rewrite Forall_singleton in HFx.
    apply (StronglySorted_app cle) in Hs as (Hq & Hqs & _).
    apply (sorted_snoc P); [rewrite Hperm; by apply Forall_snoc_2 | done | |].
    + apply (Hsort P); [done | by apply Forall_snoc_2 | done].
    + rewrite Hperm, Forall_app, Forall_singleton, Forall_forall. split.
      * intros z Hz. apply Hq; [done | set_solver].
      * by apply (cle_flip P).
  - simpl. exists (q ++ [y; x]). rewrite <- !(assoc_L (++)). split; [done|]. split; [done|].
    intros P HP HF Hs. change (q ++ [y; x]) with (q ++ [y] ++ [x]) in *. rewrite (assoc_L (++)) in *.
    apply Forall_app in HF as (HFq & HFx). rewrite Forall_singleton in HFx.
    apply (sorted_snoc P); [done | done | done |].
    apply Forall_app in HFq as (HFq & HFy). rewrite Forall_singleton in HFy.
    apply (StronglySorted_app cle) in Hs as (Hq & _ & _).
    rewrite Forall_app, Forall_singleton. split; [|done].
    rewrite Forall_forall in HFq |- *. intros z Hz.
    apply (cmp_trans (P := P) z y x); auto. apply Hq; [done | set_solver].
Qed.

Lemma sorted_short (l : list A) : length l ≤ 1 → sorted l.
Proof. destruct l as [|x [|]]; simpl; [constructor | by repeat constructor | lia]. Qed.

Lemma insertion_sort_spec l :
  ensures (insertion_sort l) (fun l' =>
    l' ≡ₚ l ∧ ∀ P, CmpOrder P → Forall P l → sorted l').
Proof.
  unfold insertion_sort. destruct (decide (length l ≤ 1)) as [Hshort|Hlong].
  { rewrite for_range_empty by done. simpl. split; [done|]. intros. by apply sorted_short. }
  eapply ensures_mono.
  - apply (ensures_for (fun i t => t ≡ₚ l ∧
             ∀ P, CmpOrder P → Forall P l → sorted (take i t))); [lia | |].
    + split; [done|]. intros. apply sorted_short. rewrite length_take. lia.
    + intros j t Hj [Hperm Hs].
      assert (Hlen : length t = length l) by (by apply Permutation_length).
      destruct (lookup_lt_is_Some_2 t j) as [x Hx]; [lia|].
      assert (Hj' : length (take j t) = j) by (rewrite length_take; lia).
      pose proof (insert_down_spec (take j t) x (drop (S j) t)) as Hins.
      rewrite take_drop_middle, Hj' in Hins by done.
      eapply ensures_mono; [exact Hins|].
      intros l' (p & -> & Hp & Hsp).
      assert (Hpl : length p = S j) by (rewrite Hp, length_app, Hj'; simpl; lia).
      split.
      * rewrite Hp, <- (assoc_L (++)). simpl. by rewrite take_drop_middle.
      * intros P HP HF. rewrite take_app_length' by lia.
        apply (Hsp P); [done | | by apply (Hs P)].
        rewrite <- (take_S_r t j x) by done. apply Forall_take. by rewrite Hperm.
  - intros l' [Hperm Hs]. split; [done|]. intros P HP HF.
    specialize (Hs P HP HF). rewrite <- (Permutation_length Hperm) in Hs.
    by rewrite firstn_all in Hs.
Qed.

(** ** The presorted check *)
Lemma presorted_from_spec l pm k :
  1 ≤ pm → pm + k = length l →
  ensures (presorted_from l pm k) (fun b =>
    b = true → ∀ i x y, pm ≤ S i → l !! i = Some x → l !! S i = Some y → cle x y).
Proof.
  revert pm. induction k as [|k IH]; intros pm Hpm Hk; simpl.
  - intros _ i x y Hi _ Hy. apply lookup_lt_Some in Hy. lia.
  - apply ensures_bind, ensures_cmp_at; [lia..|]. intros x y Hx Hy.
    destruct (Z.ltb_spec 0 (cmp x y)); simpl; [done|].
    eapply ensures_mono; [apply IH; lia|]. intros b Hb Hbt i x' y' Hi Hx' Hy'.
    destruct (decide (S i = pm)) as [<-|]; [|apply (Hb Hbt i); auto; lia].
    replace (S i - 1) with i in Hx by lia. unfold cle. naive_solver lia.
Qed.

Lemma adjacent_sorted P `{!CmpOrder P} l :
  Forall P l → (∀ i x y, l !! i = Some x → l !! S i = Some y → cle x y) → sorted l.
Proof.
  induction l as [|x l IH]; intros HP Hadj; [constructor|].
  apply Forall_cons in HP as [Hx HP]. constructor.
  - apply IH; [done|]. intros i a b Ha Hb. by apply (Hadj (S i)).
  - assert (Hs : sorted l) by (apply IH; [done|]; intros i a b Ha Hb; by apply (Hadj (S i))).
    destruct l as [|y l]; [constructor|].
    pose proof (Hadj 0 x y eq_refl eq_refl) as Hxy. inversion Hs as [|? ? Hs' Hall]; subst.
    apply Forall_cons in HP as [Hy HP]. constructor; [done|].
    rewrite Forall_forall in HP, Hall |- *. intros z Hz. apply (cmp_trans (P := P) x y z); auto.
Qed.

(** ** Partitioning *)

(** The state of the partition loop: the pivot [v] at index 0, then elements
    equal to it, smaller ones, the unscanned ones, greater ones, equal ones. *)
Record part_inv (l0 : list A) (v : A) (l : list A) (pa pb pc pd : nat) : Prop := {
  pi_perm : l ≡ₚ l0;
  pi_pivot : l !! 0 = Some v;
  pi_order : 1 ≤ pa ≤ pb ∧ pb ≤ S pc ∧ pc ≤ pd < length l0;
  pi_eq_lo : rng l 1 pa (fun x => cmp x v = 0%Z);
  pi_lt : rng l pa pb (fun x => (cmp x v < 0)%Z);
  pi_gt : rng l (S pc) (S pd) (fun x => (0 < cmp x v)%Z);
  pi_eq_hi : rng l (S pd) (length l0) (fun x => cmp x v = 0%Z)
}.

Lemma part_inv_length l0 v l pa pb pc pd :
  part_inv l0 v l pa pb pc pd → length l = length l0.
Proof. intros []. by apply Permutation_length. Qed.

Ltac rng_tac :=
  let k := fresh "k" in let x := fresh "x" in let Hk := fresh "Hk" in
  intros k x Hk; rewrite ?lookup_exchange by lia; repeat case_decide; subst; intros ?;
  simplify_eq;
  match goal with
  | _ => solve [assumption | lia | congruence]
  | H : rng _ _ _ _ |- _ => solve [eapply H; [|eassumption]; lia]
  | H1 : ?t !! ?i = Some _, H2 : ?t !! ?j = Some _ |- _ =>
      let E := fresh in assert (E : i = j) by lia; rewrite E in H1; simplify_eq;
      solve [assumption | lia]
  end.

Lemma scan_lo_spec fuel l0 v l pa pb pc pd :
  part_inv l0 v l pa pb pc pd → S pc - pb ≤ fuel →
  ensures (scan_lo fuel l pa pb pc) (fun '(l', pa', pb') =>
    part_inv l0 v l' pa' pb' pc pd ∧ pb ≤ pb' ∧
    (pb' ≤ pc → ∃ x, l' !! pb' = Some x ∧ (0 < cmp x v)%Z)).
Proof.
  revert l pa pb. induction fuel as [|fuel IH]; intros l pa pb Hinv Hf;
    pose proof (part_inv_length _ _ _ _ _ _ _ Hinv) as Hlen;
    pose proof Hinv as [Hp Hv Ho He Hl Hg Hh]; simpl.
  { destruct (Nat.leb_spec pb pc); [lia|]. simpl. naive_solver lia. }
  destruct (Nat.leb_spec pb pc) as [Hle|Hgt]; [|simpl; naive_solver lia].
  apply ensures_bind, ensures_cmp_at; [lia..|]. intros x v' Hx Hv'.
  assert (v' = v) as -> by congruence.
  destruct (Z.leb_spec (cmp x v) 0) as [Hc|Hc]; [|simpl; naive_solver].
  destruct (Z.eqb_spec (cmp x v) 0) as [Hz|Hz].
  - apply ensures_bind, ensures_swap; [lia..|].
    eapply ensures_mono; [apply IH; [|lia]|intros [[l' pa'] pb']; naive_solver lia].
    split; try (by rewrite exchange_perm by lia); [|lia|rng_tac..].
    rewrite lookup_exchange by lia. repeat case_decide; [lia | lia | done].
  - eapply ensures_mono; [apply IH; [|lia]|intros [[l' pa'] pb']; naive_solver lia].
    split; auto; [lia|].
    intros k y Hk Hy. destruct (decide (k = pb)) as [->|]; [|by eapply Hl; [|done]; lia].
    simplify_eq. lia.
Qed.

Lemma scan_hi_spec fuel l0 v l pa pb pc pd :
  part_inv l0 v l pa pb pc pd → S pc - pb ≤ fuel →
  (pb ≤ pc → ∃ x, l !! pb = Some x ∧ (0 < cmp x v)%Z) →
  ensures (scan_hi fuel l pb pc pd) (fun '(l', pc', pd') =>
    part_inv l0 v l' pa pb pc' pd' ∧ pc' ≤ pc ∧
    (pb ≤ pc' → (∃ x, l' !! pb = Some x ∧ (0 < cmp x v)%Z) ∧
                ∃ y, l' !! pc' = Some y ∧ (cmp y v < 0)%Z)).
Proof.
  revert l pc pd. induction fuel as [|fuel IH]; intros l pc pd Hinv Hf Hpb;
    pose proof (part_inv_length _ _ _ _ _ _ _ Hinv) as Hlen;
    pose proof Hinv as [Hp Hv Ho He Hl Hg Hh]; simpl.
  { destruct (Nat.leb_spec pb pc); [lia|]. simpl. naive_solver lia. }
  destruct (Nat.leb_spec pb pc) as [Hle|Hgt]; [|simpl; naive_solver lia].
  apply ensures_bind, ensures_cmp_at; [lia..|]. intros x v' Hx Hv'.
  assert (v' = v) as -> by congruence.
  destruct (Z.leb_spec 0 (cmp x v)) as [Hc|Hc]; [|simpl; naive_solver].
  destruct (Z.eqb_spec (cmp x v) 0) as [Hz|Hz].
  - assert (pb ≠ pc) by (intros ->; destruct Hpb as (? & ? & ?); [lia | naive_solver lia]).
    apply ensures_bind, ensures_swap; [lia..|].
    eapply ensures_mono; [apply IH; [|lia|]|intros [[l' pa'] pb']; naive_solver lia].
    + split; try (by rewrite exchange_perm by lia); [|lia|rng_tac..].
      rewrite lookup_exchange by lia. repeat case_decide; [lia | lia | done].
    + intros _. destruct Hpb as (y & Hy & Hyv); [lia|]. exists y. split; [|done].
      rewrite lookup_exchange by lia. repeat case_decide; [lia | lia | done].
  - eapply ensures_mono; [apply IH; [|lia|]|intros [[l' pa'] pb']; naive_solver lia].
    + split; auto; [lia|].
      intros k y Hk Hy. destruct (decide (k = pc)) as [->|]; [|by eapply Hg; [|done]; lia].
      simplify_eq. lia.
    + intros. apply Hpb. lia.
Qed.

Lemma partition_loop_spec fuel l0 v l pa pb pc pd :
  part_inv l0 v l pa pb pc pd → S pc - pb < fuel →
  ensures (partition_loop fuel l pa pb pc pd) (fun '(l', pa', pb', pc', pd') =>
    part_inv l0 v l' pa' pb' pc' pd' ∧ pb' = S pc').
Proof.
  revert l pa pb pc pd. induction fuel as [|fuel IH]; intros l pa pb pc pd Hinv Hf; [lia|].
  cbn [partition_loop]. pose proof (part_inv_length _ _ _ _ _ _ _ Hinv) as Hlen.
  pose proof (pi_order _ _ _ _ _ _ _ Hinv) as Ho.
  eapply ensures_bind_mono; [apply (scan_lo_spec _ l0 v _ _ _ _ pd); [done | lia]|].
  intros [[l1 pa1] pb1] (Hinv1 & Hpb1 & Hx1).
  pose proof (part_inv_length _ _ _ _ _ _ _ Hinv1) as Hlen1.
  pose proof (pi_order _ _ _ _ _ _ _ Hinv1) as Ho1.
  eapply ensures_bind_mono; [apply (scan_hi_spec _ l0 v _ pa1); [done | lia | done]|].
  intros [[l2 pc2] pd2] (Hinv2 & Hpc2 & Hx2).
  pose proof (part_inv_length _ _ _ _ _ _ _ Hinv2) as Hlen2.
  pose proof Hinv2 as [Hp Hv Ho2 He Hl Hg Hh].
  destruct (Nat.ltb_spec pc2 pb1) as [Hlt|Hge]; [split; [done|lia]|].
  destruct Hx2 as ((x & Hx & Hxv) & (y & Hy & Hyv)); [done|].
  assert (pb1 ≠ pc2) by (intros ->; naive_solver lia).
  apply ensures_bind, ensures_swap; [lia..|].
  apply IH; [|lia].
  split; try (by rewrite exchange_perm by lia); [|lia|rng_tac..].
  rewrite lookup_exchange by lia. repeat case_decide; [lia | lia | done].
Qed.

(** [k] in the block of length [d] at [i]. *)
Definition blk (i d k : nat) : bool := (i <=? k) && (k <? i + d).

Lemma blk_true i d k : blk i d k = true ↔ i ≤ k < i + d.
Proof. unfold blk. rewrite andb_true_iff, Nat.leb_le, Nat.ltb_lt. lia. Qed.

Lemma vecswap_spec l i j d :
  i + d ≤ j → j + d ≤ length l →
  ensures (vecswap l i j d) (fun l' => l' ≡ₚ l ∧
    ∀ k, l' !! k = if blk i d k then l !! (j + (k - i))
                   else if blk j d k then l !! (i + (k - j)) else l !! k).
Proof.
  intros Hij Hj. unfold vecswap.
  apply (ensures_for (fun m t => t ≡ₚ l ∧
    ∀ k, t !! k = if blk i m k then l !! (j + (k - i))
                  else if blk j m k then l !! (i + (k - j)) else l !! k)); [lia | |].
  - split; [done|]. intros k.
    destruct (blk i 0 k) eqn:E1; [apply blk_true in E1; lia|].
    destruct (blk j 0 k) eqn:E2; [apply blk_true in E2; lia|]. done.
  - intros m t Hm [Hp Hk]. pose proof (Permutation_length Hp) as Hlen.
    apply ensures_swap; [lia..|]. split; [by rewrite exchange_perm by lia|].
    intros k. rewrite lookup_exchange, !Hk by lia.
    repeat match goal with
    | |- context [blk ?a ?b ?c] =>
        destruct (blk a b c) eqn:?; [rewrite blk_true in * | rewrite <- not_true_iff_false, blk_true in *]
    end; repeat case_decide; subst; try lia; f_equal; lia.
Qed.

Lemma med3_spec l a b c :
  a < length l → b < length l → c < length l →
  ensures (med3 l a b c) (fun i => i = a ∨ i = b ∨ i = c).
Proof.
  intros Ha Hb Hc. unfold med3. apply ensures_bind, ensures_cmp_at; [lia..|]. intros x y _ _.
  destruct (cmp x y <? 0)%Z;
    (apply ensures_bind, ensures_cmp_at; [lia..|]; intros u w _ _; case_match; [simpl; tauto|]);
    (apply ensures_bind, ensures_cmp_at; [lia..|]; intros u' w' _ _; simpl; case_match; tauto).
Qed.

Lemma choose_pivot_spec l :
  7 ≤ length l → ensures (choose_pivot l) (fun i => i < length l).
Proof.
  intros Hn. unfold choose_pivot.
  assert (length l / 2 < length l) by (apply Nat.div_lt; lia).
  assert (8 * (length l / 8) ≤ length l) by (apply Nat.Div0.mul_div_le).
  assert (length l < 2 * (length l / 2) + 2 ∧ 2 * (length l / 2) ≤ length l).
  { pose proof (Nat.div_mod_eq (length l) 2). pose proof (Nat.mod_upper_bound (length l) 2). lia. }
  case_match; [|done]. case_match.
  - repeat (eapply ensures_bind_mono; [apply med3_spec; lia|intros ? ?; simpl in *]).
    eapply ensures_mono; [apply med3_spec; lia|]. intros; simpl in *. lia.
  - eapply ensures_mono; [apply med3_spec; lia|]. intros; simpl in *. lia.
Qed.

(** The array after the two block swaps: smaller, equal, greater. *)
Definition three_way (l0 l : list A) (v : A) (d1 d2 : nat) : Prop :=
  l ≡ₚ l0 ∧ d1 + d2 < length l0 ∧
  rng l 0 d1 (fun x => (cmp x v < 0)%Z) ∧
  rng l d1 (length l0 - d2) (fun x => x = v ∨ cmp x v = 0%Z) ∧
  rng l (length l0 - d2) (length l0) (fun x => (0 < cmp x v)%Z).

(** Swapping the shorter of two adjacent blocks with the far end of the other
    exchanges the two blocks. *)
Lemma vecswap_blocks l a m b P Q :
  a ≤ m ≤ b → b ≤ length l → rng l a m P → rng l m b Q →
  ensures (vecswap l a (b - Nat.min (m - a) (b - m)) (Nat.min (m - a) (b - m))) (fun l' =>
    l' ≡ₚ l ∧ (∀ k, k < a ∨ b ≤ k → l' !! k = l !! k) ∧
    rng l' a (a + (b - m)) Q ∧ rng l' (a + (b - m)) b P).
Proof.
  intros Ham Hb HP HQ. eapply ensures_mono; [apply vecswap_spec; lia|].
  intros l' [Hp Hk]. split; [done|].
  assert (Hlo : ∀ k, k < a ∨ b ≤ k → l' !! k = l !! k).
  { intros k Hout. rewrite Hk.
    destruct (blk a _ k) eqn:E1; [apply blk_true in E1; lia|].
    destruct (blk (b - _) _ k) eqn:E2; [apply blk_true in E2; lia|]. done. }
  split; [done|].
  split; intros k x Hin Hx; rewrite Hk in Hx;
    (destruct (blk a _ k) eqn:E1; [|destruct (blk (b - _) _ k) eqn:E2]);
    rewrite <- ?not_true_iff_false, ?blk_true in E1;
    try rewrite <- ?not_true_iff_false, ?blk_true in E2;
    first [exfalso; lia | eapply HP; [|exact Hx]; lia | eapply HQ; [|exact Hx]; lia].
Qed.

Lemma block_swaps_spec l0 v l pa pb pc pd :
  part_inv l0 v l pa pb pc pd → pb = S pc →
  ensures (l ← vecswap l 0 (pb - Nat.min pa (pb - pa)) (Nat.min pa (pb - pa));
           vecswap l pb (length l0 - Nat.min (pd - pc) (length l0 - pd - 1))
                     (Nat.min (pd - pc) (length l0 - pd - 1)))
    (fun l' => three_way l0 l' v (pb - pa) (pd - pc)).
Proof.
  intros Hinv ->. pose proof (part_inv_length _ _ _ _ _ _ _ Hinv) as Hlen.
  destruct Hinv as [Hp Hv Ho He Hl Hg Hh].
  assert (He' : rng l 0 pa (fun x => x = v ∨ cmp x v = 0%Z)).
  { intros [|k] x Hk Hx; [left; congruence | right; eapply He; [|done]; lia]. }
  pose proof (vecswap_blocks l 0 pa (S pc) _ _ ltac:(lia) ltac:(lia) He' Hl) as H1.
  rewrite Nat.sub_0_r in H1.
  eapply ensures_bind_mono; [exact H1|]. clear H1. intros l1 (Hp1 & Hout1 & Hl1 & He1).
  pose proof (Permutation_length Hp1) as Hlen1.
  assert (Hg1 : rng l1 (S pc) (S pd) (fun x => (0 < cmp x v)%Z)).
  { intros k x Hk. rewrite Hout1 by lia. by apply Hg. }
  assert (Hh1 : rng l1 (S pd) (length l0) (fun x => cmp x v = 0%Z)).
  { intros k x Hk. rewrite Hout1 by lia. by apply Hh. }
  pose proof (vecswap_blocks l1 (S pc) (S pd) (length l0) _ _ ltac:(lia) ltac:(lia) Hg1 Hh1) as H2.
  replace (S pd - S pc) with (pd - pc) in H2 by lia.
  replace (length l0 - S pd) with (length l0 - pd - 1) in H2 by lia.
  eapply ensures_mono; [exact H2|]. intros l2 (Hp2 & Hout2 & Hh2 & Hg2).
  split; [by rewrite Hp2, Hp1|]. split; [lia|]. split; [|split].
  - intros k x Hk. rewrite Hout2 by lia. apply Hl1. lia.
  - intros k x Hk Hx. destruct (decide (k < S pc)).
    + rewrite Hout2 in Hx by lia. eapply He1; [|done]. lia.
    + right. eapply Hh2; [|done]. lia.
  - intros k x Hk. apply Hg2. lia.
Qed.

(** ** The whole sort *)

(** What a sort promises about its result [l'] on the input [l]. *)
Definition sort_ok (l l' : list A) : Prop :=
  l' ≡ₚ l ∧ ∀ P, CmpOrder P → Forall P l → sorted l'.

Lemma on_range_app f a b c off len Q :
  length a = off → length b = len → ensures (f b) Q →
  ensures (on_range (a ++ b ++ c) off len f) (fun l' => ∃ b', l' = a ++ b' ++ c ∧ Q b').
Proof.
  intros <- <- Hf. unfold on_range. rewrite drop_app_length, !take_app_length.
  eapply ensures_bind_mono; [exact Hf|]. intros b' Hb'. simpl. exists b'.
  rewrite (assoc_L (++) a b c). by rewrite drop_app_length' by (by rewrite length_app).
Qed.

Lemma on_range_ok f a b c off len :
  length a = off → length b = len →
  (1 < len → ensures (f b) (sort_ok b)) →
  ensures (if 1 <? len then on_range (a ++ b ++ c) off len f else Ok (a ++ b ++ c))
    (fun l' => ∃ b', l' = a ++ b' ++ c ∧ sort_ok b b').
Proof.
  intros Ha Hb Hf. destruct (Nat.ltb_spec 1 len) as [Hlt|Hle].
  - apply on_range_app; auto.
  - simpl. exists b. split; [done|]. split; [done|]. intros. apply sorted_short. lia.
Qed.

Lemma rng_Forall l lo hi P : rng l lo hi P → Forall P (take (hi - lo) (drop lo l)).
Proof.
  intros H. apply Forall_lookup. intros k x Hk. apply lookup_take_Some in Hk as [Hk Hlt].
  rewrite lookup_drop in Hk. eapply H; [|done]. lia.
Qed.

Lemma three_way_parts l0 l v d1 d2 :
  three_way l0 l v d1 d2 →
  ∃ L E G, l = L ++ E ++ G ∧ length L = d1 ∧ length G = d2 ∧
    Forall (fun x => (cmp x v < 0)%Z) L ∧ Forall (fun x => x = v ∨ cmp x v = 0%Z) E ∧
    Forall (fun x => (0 < cmp x v)%Z) G.
Proof.
  intros (Hp & Hd & Hl & He & Hg). pose proof (Permutation_length Hp) as Hlen.
  apply rng_Forall in Hl, He, Hg.
  exists (take (d1 - 0) (drop 0 l)), (take (length l0 - d2 - d1) (drop d1 l)),
    (take (length l0 - (length l0 - d2)) (drop (length l0 - d2) l)).
  split; [|split; [|split; [|done]]].
  - rewrite drop_0, Nat.sub_0_r.
    rewrite (take_ge (drop (length l0 - d2) l)) by (rewrite length_drop; lia).
    replace (length l0 - d2) with (d1 + (length l0 - d2 - d1)) at 2 by lia.
    rewrite <- drop_drop. by rewrite !take_drop.
  - rewrite length_take, drop_0. lia.
  - rewrite length_take, length_drop. lia.
Qed.

Lemma sorted_three P `{!CmpOrder P} v (L E G : list A) :
  P v → Forall P L → Forall P E → Forall P G → sorted L → sorted G →
  Forall (fun x => (cmp x v < 0)%Z) L → Forall (fun x => x = v ∨ cmp x v = 0%Z) E →
  Forall (fun x => (0 < cmp x v)%Z) G → sorted (L ++ E ++ G).
Proof.
  intros Hv PL PE PG SL SG HL HE HG.
  assert (HE' : ∀ x, x ∈ E → P x ∧ cle x v ∧ cle v x).
  { rewrite Forall_forall in PE, HE. intros x Hx. specialize (PE x Hx). specialize (HE x Hx).
    unfold cle. pose proof (cmp_refl (P := P) v Hv). pose proof (cmp_sym (P := P) x v PE Hv).
    pose proof (cmp_sym (P := P) v x Hv PE). split; [done|]. destruct HE; subst; lia. }
  rewrite Forall_forall in PL, PG, HL, HG.
  assert (HL' : ∀ x, x ∈ L → P x ∧ cle x v).
  { intros x Hx. specialize (HL x Hx). split; [by apply PL|]. unfold cle. lia. }
  assert (HG' : ∀ x, x ∈ G → P x ∧ cle v x).
  { intros x Hx. split; [by apply PG|]. apply (cle_flip P); auto. }
  assert (Hpair : ∀ x y, P x → P y → cle x v → cle v y → cle x y).
  { intros x y Hx Hy. by apply (cmp_trans (P := P)). }
  apply StronglySorted_app_2; [|done|apply StronglySorted_app_2; [| |done]].
  - intros x y Hx Hy. apply elem_of_app in Hy as [Hy|Hy]; apply Hpair; naive_solver.
  - intros x y Hx Hy. apply Hpair; naive_solver.
  - clear - HE' Hpair. induction E as [|x E IH]; [constructor|].
    constructor; [apply IH; intros; apply HE'; set_solver|].
    rewrite Forall_forall. intros y Hy.
    destruct (HE' x) as (? & ? & ?); [set_solver|]. destruct (HE' y) as (? & ? & ?); [set_solver|].
    by apply Hpair.
Qed.

Lemma sort_parts_ok l0 v (L E G L' G' : list A) :
  L ++ E ++ G ≡ₚ l0 → v ∈ l0 → sort_ok L L' → sort_ok G G' →
  Forall (fun x => (cmp x v < 0)%Z) L → Forall (fun x => x = v ∨ cmp x v = 0%Z) E →
  Forall (fun x => (0 < cmp x v)%Z) G → sort_ok l0 (L' ++ E ++ G').
Proof.
  intros Hp Hv [HL HLs] [HG HGs] FL FE FG. split; [by rewrite HL, HG|].
  intros P HP HF. pose proof HF as HF'. rewrite <- Hp, !Forall_app in HF'.
  destruct HF' as (PL & PE & PG).
  apply (sorted_three P v); try rewrite HL; try rewrite HG; eauto.
  by eapply Forall_forall in HF.
Qed.

Lemma pg_qsort_spec fuel l : length l < fuel → ensures (pg_qsort fuel l) (sort_ok l).
Proof.
  revert l. induction fuel as [|fuel IH]; intros l Hf; [lia|]. cbn [pg_qsort].
  destruct (Nat.ltb_spec (length l) 7) as [|Hn]; [apply insertion_sort_spec|].
  eapply ensures_bind_mono; [apply (presorted_from_spec l 1); lia|].
  intros [] Hps.
  { split; [done|]. intros P HP HF. apply (adjacent_sorted P); [done|].
    intros i x y. apply (Hps eq_refl). lia. }
  eapply ensures_bind_mono; [apply choose_pivot_spec; lia|]. intros pm Hpm; simpl in Hpm.
  apply ensures_bind, ensures_swap; [lia..|].
  pose proof (exchange_perm l 0 pm ltac:(lia) ltac:(lia)) as Hex.
  set (l1 := exchange l 0 pm) in *. pose proof (Permutation_length Hex) as Hlen1.
  destruct (lookup_lt_is_Some_2 l1 0) as [v Hv]; [lia|].
  eapply ensures_bind_mono.
  { apply (partition_loop_spec _ l v); [|lia].
    split; [done | done | lia | unfold rng; intros; lia..]. }
  intros [[[[l2 pa] pb] pc] pd] [Hinv Hpb].
  pose proof (block_swaps_spec _ _ _ _ _ _ _ Hinv Hpb) as Hbs.
  destruct (vecswap l2 0 _ _) as [l3|] eqn:E3; simpl in Hbs |- *; [|done].
  eapply ensures_bind_mono; [exact Hbs|]. clear Hbs. intros l4 H3w.
  assert (Hvin : v ∈ l). { rewrite <- Hex. by eapply list_elem_of_lookup_2. }
  pose proof H3w as (Hp4 & Hd & _).
  apply three_way_parts in H3w as (L & E & G & -> & HL & HG & FL & FE & FG).
  assert (Hlen4 : length L + (length E + length G) = length l).
  { rewrite <- (Permutation_length Hp4), !length_app. lia. }
  assert (HrL : 1 < pb - pa → ensures (pg_qsort fuel L) (sort_ok L)) by (intros; apply IH; lia).
  assert (HrG : 1 < pd - pc → ensures (pg_qsort fuel G) (sort_ok G)) by (intros; apply IH; lia).
  destruct (pb - pa <=? pd - pc).
  - eapply ensures_bind_mono; [apply (on_range_ok _ [] L (E ++ G)); done|].
    intros l5 (L' & -> & HL'). simpl.
    rewrite (assoc_L (++) L' E G), <- (app_nil_r G).
    eapply ensures_mono; [apply on_range_ok; [|done|done]|].
    { rewrite length_app, (Permutation_length (proj1 HL')). lia. }
    intros l6 (G' & -> & HG'). rewrite app_nil_r, <- (assoc_L (++)).
    by apply (sort_parts_ok l v L E G).
  - rewrite (assoc_L (++) L E G), <- (app_nil_r G).
    eapply ensures_bind_mono; [apply on_range_ok; [|done|done]|].
    { rewrite length_app. lia. }
    intros l5 (G' & -> & HG'). rewrite app_nil_r, <- (assoc_L (++)).
    eapply ensures_mono; [apply (on_range_ok _ [] L (E ++ G')); done|].
    intros l6 (L' & -> & HL'). simpl. by apply (sort_parts_ok l v L E G).
Qed.

(** Whatever the comparator, [qsort] returns, reads and writes only inside the
    array, and permutes it; it sorts when the comparator is an order on it. *)
Lemma qsort_ok l : ensures (qsort l) (sort_ok l).
Proof. apply pg_qsort_spec. lia. Qed.

Lemma qsort_perm l l' : qsort l = Ok l' → l' ≡ₚ l.
Proof. intros H. pose proof (qsort_ok l) as Hq. rewrite H in Hq. apply Hq. Qed.

End Qsort.

(** C28. [pg_qsort] returns on every array and with every comparator, accesses
    only elements of the array, and leaves a permutation of it; when the
    comparator is a total preorder on a set that contains the elements, the
    result is in nondecreasing order. *)
Theorem qsort_sorts {A : Type} (cmp : A → A → Z) (l : list A) :
  ensures (qsort cmp l) (fun l' => l' ≡ₚ l ∧
    ∀ P, CmpOrder cmp P → Forall P l → StronglySorted (cle cmp) l').
Proof. apply qsort_ok. Qed.
