(* ===== verification/Utils.v ===== *)
(** * Utils: contrib/aqo/utils.c

    The comparators given to [qsort], [argsort] (the indexes that sort an
    array), [inverse_permutation], and the [QueryStat] object whose six
    series hold [aqo_stat_size] numbers each. *)
From S2P Require Import Prelude Float64 Qsort.
From stdpp Require Import sorting.

(** ** Comparators *)
Definition int_cmp (a b : Z) : Z :=
  if (a <? b)%Z then -1 else if (b <? a)%Z then 1 else 0.

Definition double_cmp (a b : double) : Z :=
  if dlt a b then -1 else if dlt b a then 1 else 0.

(** [argsort_cmp] reads the array through the file's static variables, here
    the arguments [cmp] and [a].  [qsort] gives it indexes of [a] only. *)
Definition argsort_cmp {A} (cmp : A → A → Z) (a : list A) (i j : nat) : Z :=
  match a !! i, a !! j with
  | Some x, Some y => cmp x y
  | _, _ => 0
  end.

Definition argsort {A} (cmp : A → A → Z) (a : list A) : res (list nat) :=
  qsort (argsort_cmp cmp a) (seq 0 (length a)).

(** [inv0] is the block [palloc] returns, with whatever it holds. *)
Definition inverse_permutation (inv0 idx : list nat) : res (list nat) :=
  for_range 0 (length idx) (fun i inv => j ← rd idx i; wr inv j i) inv0.

(** ** QueryStat *)
Record QueryStat : Type := mkQueryStat {
  execution_time_with_aqo : list double;
  execution_time_without_aqo : list double;
  planning_time_with_aqo : list double;
  planning_time_without_aqo : list double;
  cardinality_error_with_aqo : list double;
  cardinality_error_without_aqo : list double;
  executions_with_aqo : Z;
  executions_without_aqo : Z
}.

(** The sizes are separate in C ([palloc0] sets them to 0) and are the lengths
    of the series here: a fresh object has empty series. *)
Definition palloc_query_stat : QueryStat := mkQueryStat [] [] [] [] [] [] 0 0.

(** ** The comparators are orders *)
#[export] Instance int_cmp_order : CmpOrder int_cmp (fun _ => True).
Proof.
  split; unfold cle, int_cmp; intros;
    repeat match goal with
    | |- context [(?x <? ?y)%Z] => destruct (Z.ltb_spec x y)
    | H : context [(?x <? ?y)%Z] |- _ => destruct (Z.ltb_spec x y)
    end; lia.
Qed.

(** [double_cmp] is an order on the numbers that are not NaN only. *)
#[export] Instance double_cmp_order : CmpOrder double_cmp (fun x => is_nan x = false).
Proof.
  unfold double_cmp. split; unfold cle.
  - intros x _. by rewrite dlt_irrefl.
  - intros x y _ _. destruct (dlt x y) eqn:E1; [rewrite (dlt_asym _ _ E1); lia|].
    destruct (dlt y x); lia.
  - intros x y z _ Hy _ Hxy Hyz.
    assert (H : ∀ a b, ((if dlt a b then -1 else if dlt b a then 1 else 0) ≤ 0)%Z → dlt b a = false).
    { intros a b. destruct (dlt a b) eqn:E; [by intros; apply dlt_asym|]. by destruct (dlt b a). }
    apply H in Hxy, Hyz. rewrite (dlt_false_trans z y x) by done. by destruct (dlt x z).
Qed.

(** ** argsort *)
Lemma int_cmp_cle x y : cle int_cmp x y ↔ (x ≤ y)%Z.
Proof.
  unfold cle, int_cmp. destruct (Z.ltb_spec x y); [lia|]. destruct (Z.ltb_spec y x); lia.
Qed.

#[export] Instance argsort_cmp_order {A} (cmp : A → A → Z) (a : list A) P `{!CmpOrder cmp P} :
  Forall P a → CmpOrder (argsort_cmp cmp a) (fun i => i < length a).
Proof.
  intros HP.
  assert (Hlk : ∀ i, i < length a → ∃ x, a !! i = Some x ∧ P x).
  { intros i Hi. destruct (lookup_lt_is_Some_2 a i Hi) as [x Hx]. exists x.
    split; [done|]. by eapply Forall_lookup in HP. }
  split; unfold cle, argsort_cmp.
  - intros i Hi. destruct (Hlk i Hi) as (x & -> & Hx). by apply (cmp_refl cmp).
  - intros i j Hi Hj. destruct (Hlk i Hi) as (x & -> & Hx), (Hlk j Hj) as (y & -> & Hy).
    by apply (cmp_sym cmp).
  - intros i j k Hi Hj Hk.
    destruct (Hlk i Hi) as (x & -> & Hx), (Hlk j Hj) as (y & -> & Hy), (Hlk k Hk) as (z & -> & Hz).
    by apply (cmp_trans cmp).
Qed.

(** The elements of [a] at the indexes [idx]. *)
Definition gather {A} (a : list A) (idx : list nat) : option (list A) := mapM (a !!.) idx.

Lemma gather_seq {A} (a b : list A) : gather (b ++ a) (seq (length b) (length a)) = Some a.
Proof.
  unfold gather. apply mapM_Some. revert b. induction a as [|x a IH]; intros b; simpl; constructor.
  - by rewrite lookup_app_r, Nat.sub_diag by lia.
  - specialize (IH (b ++ [x])). rewrite length_app, Nat.add_1_r, <- (assoc_L (++)) in IH.
    done.
Qed.

Lemma mapM_perm {A B} (f : A → option B) l l' k :
  l ≡ₚ l' → mapM f l = Some k → ∃ k', mapM f l' = Some k' ∧ k' ≡ₚ k.
Proof.
  setoid_rewrite mapM_Some. intros Hp Hk.
  destruct (Permutation_Forall2 Hp Hk) as (k' & Hp' & Hf). by exists k'.
Qed.

Lemma argsort_idx {A} (cmp : A → A → Z) (a : list A) idx :
  argsort cmp a = Ok idx → idx ≡ₚ seq 0 (length a).
Proof. apply qsort_perm. Qed.

Lemma gather_perm {A} (a : list A) idx :
  idx ≡ₚ seq 0 (length a) → ∃ s, gather a idx = Some s ∧ s ≡ₚ a.
Proof. intros Hp. apply (mapM_perm _ (seq 0 (length a))); [done|]. apply (gather_seq a []). Qed.

Lemma gather_sorted {A} (cmp : A → A → Z) (a : list A) idx s :
  gather a idx = Some s → StronglySorted (cle (argsort_cmp cmp a)) idx → sorted cmp s.
Proof.
  unfold gather. rewrite mapM_Some. intros HF. induction HF as [|i x idx s Hx HF IH]; intros Hs;
    [constructor|].
  inversion Hs as [|? ? Hs' Hle]; subst. constructor; [by apply IH|].
  apply Forall_lookup. intros k y Hy.
  apply (Forall2_lookup_r _ _ _ _ _ HF) in Hy as (j & Hj & Hjy).
  eapply Forall_lookup in Hle; [|exact Hj]. unfold cle, argsort_cmp in Hle |- *.
  by rewrite Hx, Hjy in Hle.
Qed.

Lemma argsort_ok {A} (cmp : A → A → Z) (a : list A) :
  ensures (argsort cmp a) (fun idx => idx ≡ₚ seq 0 (length a) ∧
    ∃ s, gather a idx = Some s ∧ s ≡ₚ a ∧ ∀ P, CmpOrder cmp P → Forall P a → sorted cmp s).
Proof.
  eapply ensures_mono; [apply qsort_ok|]. intros idx [Hp Hs]. split; [done|].
  destruct (gather_perm a idx Hp) as (s & Hg & Hps). exists s. split; [done|]. split; [done|].
  intros P HP HF. eapply gather_sorted; [done|].
  apply (Hs (fun i => i < length a)); [by eapply argsort_cmp_order|].
  apply Forall_forall. intros i Hi%elem_of_seq. lia.
Qed.

(** ** Inverse permutations *)
Lemma inverse_permutation_ok (inv0 idx : list nat) :
  idx ≡ₚ seq 0 (length idx) → length inv0 = length idx →
  ensures (inverse_permutation inv0 idx) (fun inv => length inv = length idx ∧
    ∀ i j, idx !! i = Some j ↔ inv !! j = Some i).
Proof.
  intros Hp Hlen.
  assert (Hin : ∀ i j, idx !! i = Some j → j < length idx).
  { intros i j Hj%list_elem_of_lookup_2. rewrite Hp, elem_of_seq in Hj. lia. }
  assert (Hnd : NoDup idx) by (rewrite Hp; apply NoDup_seq).
  eapply ensures_mono.
  { apply (ensures_for (fun m inv => length inv = length idx ∧
      ∀ i j, i < m → idx !! i = Some j → inv !! j = Some i)); [lia | split; [done|lia] |].
    intros m inv Hm [Hl Hinv]. apply ensures_bind, ensures_rd; [lia|]. intros j Hj.
    apply ensures_wr; [rewrite Hl; by eapply Hin|]. split; [by rewrite length_insert|].
    intros i k Hi Hk. destruct (decide (i = m)) as [->|Hne].
    - simplify_eq. apply list_lookup_insert_eq. rewrite Hl. by eapply Hin.
    - rewrite list_lookup_insert_ne; [apply Hinv; [lia|done]|].
      intros ->. apply Hne. by eapply NoDup_lookup. }
  intros inv [Hl Hinv]. split; [done|]. intros i j. split; intros H.
  - apply Hinv; [by eapply lookup_lt_Some | done].
  - assert (Hj : j ∈ idx).
    { rewrite Hp, elem_of_seq. apply lookup_lt_Some in H. lia. }
    apply list_elem_of_lookup_1 in Hj as [i' Hi']. rewrite (Hinv i' j) in H;
      [by simplify_eq | by eapply lookup_lt_Some | done].
Qed.

(** ** Sorting integers *)
#[export] Instance int_cle_antisymm : AntiSymm (=) (cle int_cmp).
Proof. intros x y. rewrite !int_cmp_cle. lia. Qed.

Lemma qsort_int_ok l :
  ensures (qsort int_cmp l) (fun l' => l' ≡ₚ l ∧ StronglySorted Z.le l').
Proof.
  eapply ensures_mono; [apply qsort_ok|]. intros l' [Hp Hs]. split; [done|].
  assert (H : sorted int_cmp l') by (apply (Hs (fun _ => True) int_cmp_order); by apply Forall_forall).
  clear -H. induction H as [|x l Hs IH Hx]; constructor; [done|].
  eapply Forall_impl; [exact Hx|]. intros y. apply int_cmp_cle.
Qed.

(** The result of sorting integers depends on their multiset only. *)
Lemma qsort_int_perm l1 l2 : l1 ≡ₚ l2 → qsort int_cmp l1 = qsort int_cmp l2.
Proof.
  intros Hp. destruct (ensures_inv _ _ (qsort_int_ok l1)) as (s1 & -> & Hp1 & Hs1).
  destruct (ensures_inv _ _ (qsort_int_ok l2)) as (s2 & -> & Hp2 & Hs2). f_equal.
  apply (StronglySorted_unique Z.le); [done | done|]. by rewrite Hp1, Hp2.
Qed.

(** [argsort] followed by [inverse_permutation], as [get_fss_for_object]
    uses them: the indexes list every element of the array once, in the order
    of the comparator, and the second array sends each index to its place in
    the first; no access leaves the arrays, whatever [palloc] returned. *)
Theorem argsort_inverse {A : Type} (cmp : A → A → Z) (a : list A) (inv0 : list nat) :
  length inv0 = length a →
  ensures (idx ← argsort cmp a; inv ← inverse_permutation inv0 idx; Ok (idx, inv))
    (fun '(idx, inv) => idx ≡ₚ seq 0 (length a) ∧
      (∀ i j, idx !! i = Some j ↔ inv !! j = Some i) ∧
      ∃ s, gather a idx = Some s ∧ s ≡ₚ a ∧
           ∀ P, CmpOrder cmp P → Forall P a → StronglySorted (cle cmp) s).
Proof.
  intros Hl. eapply ensures_bind_mono; [apply argsort_ok|]. intros idx [Hp Hs].
  pose proof (Permutation_length Hp) as Hlen. rewrite length_seq in Hlen.
  eapply ensures_bind_mono; [apply inverse_permutation_ok; [by rewrite Hlen | lia]|].
  intros inv [_ Hinv]. done.
Qed.

Lemma argsort_inverse_witness :
  (idx ← argsort int_cmp [30; 10; 20; 10]%Z; inv ← inverse_permutation [7; 7; 7; 7] idx; Ok (idx, inv))
    = Ok ([1; 3; 2; 0], [3; 0; 2; 1]) ∧
  ensures (idx ← argsort int_cmp [30; 10; 20; 10]%Z; inv ← inverse_permutation [7; 7; 7; 7] idx; Ok (idx, inv))
    (fun '(idx, inv) => ∀ i j, idx !! i = Some j ↔ inv !! j = Some i).
Proof.
  split; [vm_compute; reflexivity|].
  eapply ensures_mono; [apply (argsort_inverse int_cmp [30; 10; 20; 10]%Z [7; 7; 7; 7]); reflexivity|].
  intros [idx inv] (_ & Hinv & _). exact Hinv.
Defined.
