(* ===== verification/Nodes.v ===== *)
(** * Nodes: expression trees and their printed form

    The nodes the clause hashes look into (src/include/nodes/primnodes.h) and
    the part of [nodeToString] (src/backend/nodes/outfuncs.c) that prints
    them.  A C string is the list of its characters before the terminating
    zero.  A node of any other type is [OtherNode]: its printed fields, in
    order, as text and sub-nodes ([TextNode] is such a text). *)
From S2P Require Import Prelude.
From stdpp Require Import strings pretty.
From Stdlib Require Import Ascii.

Notation cstring := (list ascii).
Definition lit (s : string) : cstring := String.list_ascii_of_string s.
(** [%d] and [%u] *)
Definition dec (z : Z) : cstring := lit (pretty z).

Record VarFields : Type := mkVar {
  varno : Z; varattno : Z; vartype : Z; vartypmod : Z; varcollid : Z;
  varlevelsup : Z; varnoold : Z; varoattno : Z; var_location : Z }.

(** [constvalue]: the eight bytes of a by-value Datum, or the bytes a
    by-reference Datum points to, as signed chars. *)
Record ConstFields : Type := mkConst {
  consttype : Z; consttypmod : Z; constcollid : Z; constlen : Z;
  constvalue : list Z; constisnull : bool; constbyval : bool; const_location : Z }.

Record ParamFields : Type := mkParam {
  paramkind : Z; paramid : Z; paramtype : Z; paramtypmod : Z; paramcollid : Z;
  param_location : Z }.

(** [DistinctExpr] and [NullIfExpr] are typedefs of [OpExpr]. *)
Record OpFields : Type := mkOp {
  opno : Z; opfuncid : Z; opresulttype : Z; opretset : bool; opcollid : Z;
  inputcollid : Z; op_location : Z }.

Record SaopFields : Type := mkSaop {
  sa_opno : Z; sa_opfuncid : Z; useOr : bool; sa_inputcollid : Z; sa_location : Z }.

Inductive node : Type :=
| Var (v : VarFields)
| Const (c : ConstFields)
| Param (p : ParamFields)
| OpExpr (o : OpFields) (args : list node)
| DistinctExpr (o : OpFields) (args : list node)
| NullIfExpr (o : OpFields) (args : list node)
| ScalarArrayOpExpr (o : SaopFields) (args : list node)
| OtherNode (fields : list node)
| TextNode (s : cstring).

(** ** outfuncs.c *)
Definition booltostr (b : bool) : cstring := if b then lit "true" else lit "false".

(** [WRITE_INT_FIELD], [WRITE_OID_FIELD] and the like *)
Definition wfield (name : string) (z : Z) : cstring := lit " :" ++ lit name ++ lit " " ++ dec z.
Definition wbool (name : string) (b : bool) : cstring :=
  lit " :" ++ lit name ++ lit " " ++ booltostr b.

Definition outDatum (value : list Z) (typlen : Z) (typbyval : bool) : cstring :=
  dec (if typbyval then typlen else Z.of_nat (length value)) ++ lit " [ " ++
  concat (map (fun b => dec b ++ lit " ") value) ++ lit "]".

Definition outVar (v : VarFields) : cstring :=
  lit "VAR" ++ wfield "varno" (varno v) ++ wfield "varattno" (varattno v) ++
  wfield "vartype" (vartype v) ++ wfield "vartypmod" (vartypmod v) ++
  wfield "varcollid" (varcollid v) ++ wfield "varlevelsup" (varlevelsup v) ++
  wfield "varnoold" (varnoold v) ++ wfield "varoattno" (varoattno v) ++
  wfield "location" (var_location v).

(** What [_outConst] writes after the label. *)
Definition outConst_body (c : ConstFields) : cstring :=
  wfield "consttype" (consttype c) ++ wfield "consttypmod" (consttypmod c) ++
  wfield "constcollid" (constcollid c) ++ wfield "constlen" (constlen c) ++
  wbool "constbyval" (constbyval c) ++ wbool "constisnull" (constisnull c) ++
  wfield "location" (const_location c) ++ lit " :constvalue " ++
  if constisnull c then lit "<>" else outDatum (constvalue c) (constlen c) (constbyval c).

Definition outConst (c : ConstFields) : cstring := lit "CONST" ++ outConst_body c.

Definition outParam (p : ParamFields) : cstring :=
  lit "PARAM" ++ wfield "paramkind" (paramkind p) ++ wfield "paramid" (paramid p) ++
  wfield "paramtype" (paramtype p) ++ wfield "paramtypmod" (paramtypmod p) ++
  wfield "paramcollid" (paramcollid p) ++ wfield "location" (param_location p).

(** [_outOpExpr], [_outDistinctExpr], [_outNullIfExpr]: the same but the label. *)
Definition outOp (label : string) (o : OpFields) (args : cstring) : cstring :=
  lit label ++ wfield "opno" (opno o) ++ wfield "opfuncid" (opfuncid o) ++
  wfield "opresulttype" (opresulttype o) ++ wbool "opretset" (opretset o) ++
  wfield "opcollid" (opcollid o) ++ wfield "inputcollid" (inputcollid o) ++
  lit " :args " ++ args ++ wfield "location" (op_location o).

Definition outSaop (o : SaopFields) (args : cstring) : cstring :=
  lit "SCALARARRAYOPEXPR" ++ wfield "opno" (sa_opno o) ++ wfield "opfuncid" (sa_opfuncid o) ++
  wbool "useOr" (useOr o) ++ wfield "inputcollid" (sa_inputcollid o) ++
  lit " :args " ++ args ++ wfield "location" (sa_location o).

(** [_outList] of a list of nodes, given their printed forms. *)
Fixpoint join_sp (l : list cstring) : cstring :=
  match l with
  | [] => []
  | [s] => s
  | s :: l' => s ++ lit " " ++ join_sp l'
  end.

(** [outNode] of a [List *]: the empty list is the null pointer. *)
Definition outList (l : list cstring) : cstring :=
  match l with [] => lit "<>" | _ => lit "(" ++ join_sp l ++ lit ")" end.

Fixpoint outNode (n : node) : cstring :=
  match n with
  | Var v => lit "{" ++ outVar v ++ lit "}"
  | Const c => lit "{" ++ outConst c ++ lit "}"
  | Param p => lit "{" ++ outParam p ++ lit "}"
  | OpExpr o args => lit "{" ++ outOp "OPEXPR" o (outList (map outNode args)) ++ lit "}"
  | DistinctExpr o args =>
      lit "{" ++ outOp "DISTINCTEXPR" o (outList (map outNode args)) ++ lit "}"
  | NullIfExpr o args =>
      lit "{" ++ outOp "NULLIFEXPR" o (outList (map outNode args)) ++ lit "}"
  | ScalarArrayOpExpr o args => lit "{" ++ outSaop o (outList (map outNode args)) ++ lit "}"
  | OtherNode fields => lit "{" ++ concat (map outNode fields) ++ lit "}"
  | TextNode s => s
  end.

Definition nodeToString (n : node) : cstring := outNode n.

(** ** Induction through the argument lists *)
Section node_ind.
Context (P : node → Prop).
Context (HVar : ∀ v, P (Var v)) (HConst : ∀ c, P (Const c)) (HParam : ∀ p, P (Param p)).
Context (HOp : ∀ o args, Forall P args → P (OpExpr o args)).
Context (HDist : ∀ o args, Forall P args → P (DistinctExpr o args)).
Context (HNull : ∀ o args, Forall P args → P (NullIfExpr o args)).
Context (HSaop : ∀ o args, Forall P args → P (ScalarArrayOpExpr o args)).
Context (HOther : ∀ fs, Forall P fs → P (OtherNode fs)).
Context (HText : ∀ s, P (TextNode s)).

Fixpoint node_ind' (n : node) : P n :=
  let all := fix all (l : list node) : Forall P l :=
    match l with
    | [] => Forall_nil_2 P
    | x :: l' => Forall_cons_2 P x l' (node_ind' x) (all l')
    end in
  match n with
  | Var v => HVar v
  | Const c => HConst c
  | Param p => HParam p
  | OpExpr o args => HOp o args (all args)
  | DistinctExpr o args => HDist o args (all args)
  | NullIfExpr o args => HNull o args (all args)
  | ScalarArrayOpExpr o args => HSaop o args (all args)
  | OtherNode fs => HOther fs (all fs)
  | TextNode s => HText s
  end.
End node_ind.

(** ** Characters of the printed numbers *)
Definition digit_like (c : ascii) : Prop :=
  c ∈ [ "0"; "1"; "2"; "3"; "4"; "5"; "6"; "7"; "8"; "9"; "-" ]%char.

Lemma lit_app s1 s2 : lit (String.append s1 s2) = lit s1 ++ lit s2.
Proof. unfold lit. induction s1 as [|c s1 IH]; simpl; [done|]. by rewrite IH. Qed.

Lemma pretty_N_char_digit x : digit_like (pretty_N_char x).
Proof. unfold digit_like, pretty_N_char. repeat (case_match; simplify_eq/=); set_solver. Qed.

Lemma pretty_N_go_digits x s : Forall digit_like (lit s) → Forall digit_like (lit (pretty_N_go x s)).
Proof.
  revert s. induction (N.lt_wf_0 x) as [x _ IH]; intros s Hs.
  destruct (decide (x = 0)%N) as [->|Hx].
  - by rewrite pretty_N_go_0.
  - rewrite pretty_N_go_step by lia. apply IH; [apply N.div_lt; lia|].
    simpl. constructor; [apply pretty_N_char_digit | done].
Qed.

Lemma pretty_N_digits (x : N) : Forall digit_like (lit (pretty x)).
Proof.
  unfold pretty, pretty_N. case_decide; [|by apply pretty_N_go_digits; constructor].
  apply Forall_singleton. unfold digit_like. set_solver.
Qed.

Lemma dec_digits z : Forall digit_like (dec z).
Proof.
  unfold dec, pretty, pretty_Z. destruct z; simpl; [|apply pretty_N_digits|].
  - apply Forall_singleton. unfold digit_like. set_solver.
  - constructor; [unfold digit_like; set_solver | apply pretty_N_digits].
Qed.
