(* ===== verification/HashText.v ===== *)
(** * HashText: the string and node hashes of contrib/aqo/hash.c

    [replace_patterns] and the five removals built on it, the hashes of
    strings, nodes, and arrays, with the theorem that makes the query hash
    useful: two nodes that differ in the contents of their constants only have
    the same hash. *)
From S2P Require Import Prelude Float64 HashAny Qsort Utils Nodes.
From stdpp Require Import strings sorting.
From Stdlib Require Import Ascii.

(** ** The code *)
Definition is_brace (ch : ascii) : bool := bool_decide (ch = "{"%char) || bool_decide (ch = "}"%char).
Definition is_colon (ch : ascii) : bool := bool_decide (ch = ":"%char).

(** [strncmp(&str[i - len], pat, len) == 0], tested when [i >= len]. *)
Definition pattern_before (str pat : cstring) (i : nat) : bool :=
  (length pat <=? i) &&
  bool_decide (take (length pat) (drop (i - length pat) str) = pat).

(** [while (str[i] && !end_pattern(str[i])) i++] *)
Fixpoint skip_to (fuel : nat) (str : cstring) (stop : ascii → bool) (i : nat) : res nat :=
  match str !! i with
  | None => Ok i
  | Some c =>
      if stop c then Ok i
      else match fuel with
           | O => Err Fault_fuel
           | S fuel => skip_to fuel str stop (S i)
           end
  end.

(** The [for (i = 0; str[i];)] loop: [out] is the array [res], [j] its end. *)
Fixpoint replace_loop (fuel : nat) (str pat : cstring) (stop : ascii → bool)
    (i j : nat) (out : cstring) : res (cstring * nat) :=
  match str !! i with
  | None => Ok (out, j)
  | Some _ =>
      match fuel with
      | O => Err Fault_fuel
      | S fuel =>
          i ← (if pattern_before str pat i then skip_to (length str) str stop i else Ok i);
          match str !! i with
          | Some c => out ← wr out j c; replace_loop fuel str pat stop (S i) (S j) out
          | None => replace_loop fuel str pat stop i j out
          end
      end
  end.

(** [palloc0(strlen(str) + 1)], and the string that the array then holds. *)
Definition replace_patterns (str pat : cstring) (stop : ascii → bool) : res cstring :=
  '(out, j) ← replace_loop (S (length str)) str pat stop 0 0
                (replicate (length str + 1) Ascii.zero);
  Ok (take j out).

Definition remove_consts (s : cstring) : res cstring := replace_patterns s (lit "{CONST") is_brace.
Definition remove_locations (s : cstring) : res cstring :=
  replace_patterns s (lit " :location") is_brace.
Definition remove_varno (s : cstring) : res cstring := replace_patterns s (lit " :varno") is_colon.
Definition remove_varnoold (s : cstring) : res cstring :=
  replace_patterns s (lit " :varnoold") is_colon.
Definition remove_stmt_len (s : cstring) : res cstring :=
  replace_patterns s (lit " :stmt_len") is_brace.

Definition char_bytes (s : cstring) : list Z := map (fun c => Z.of_N (N_of_ascii c)) s.

(** palloc'ed strings and arrays are word-aligned. *)
Definition get_str_hash (s : cstring) : Z := to_int32 (hash_any true (char_bytes s)).

Definition get_query_hash (parse : node) : res Z :=
  s ← remove_consts (nodeToString parse);
  s ← remove_locations s;
  s ← remove_varno s;
  s ← remove_varnoold s;
  s ← remove_stmt_len s;
  Ok (to_int32 (hash_any true (char_bytes s))).

Definition get_node_hash (n : node) : res Z :=
  s ← remove_consts (nodeToString n);
  s ← remove_locations s;
  s ← remove_varno s;
  s ← remove_varnoold s;
  Ok (get_str_hash s).

Definition get_node_hash2 (n : node) : res Z := Ok (get_str_hash (nodeToString n)).

Definition int_bytes (arr : list Z) : list Z := concat (map (fun z => bytes_of 4 (wrap32 z)) arr).

Definition get_int_array_hash (arr : list Z) : Z := to_int32 (hash_any true (int_bytes arr)).

Definition get_int_array_hash2 (arr : list double) : Z :=
  to_int32 (hash_any true (concat (map d_bytes arr))).

Definition get_unsorted_unsafe_int_array_hash (arr : list Z) : res Z :=
  arr ← qsort int_cmp arr; Ok (get_int_array_hash arr).

Definition get_unordered_int_list_hash (lst : list Z) : res Z :=
  get_unsorted_unsafe_int_array_hash lst.

Definition get_relidslist_hash (relidslist : list Z) : res Z :=
  get_unordered_int_list_hash relidslist.

Definition get_fss_hash (clauses_hash eclasses_hash relidslist_hash : Z) : Z :=
  to_int32 (hash_any true (int_bytes [clauses_hash; eclasses_hash; relidslist_hash])).

(** ** The reference: one pass over the characters

    [pre] is what was read, [sk] whether a pattern is being skipped. *)
Definition ends_with (pre pat : cstring) : bool :=
  (length pat <=? length pre) && bool_decide (drop (length pre - length pat) pre = pat).

Fixpoint scrub (pat : cstring) (stop : ascii → bool) (pre : cstring) (sk : bool) (s : cstring)
  : cstring :=
  match s with
  | [] => []
  | c :: s' =>
      if (sk || ends_with pre pat) && negb (stop c) then scrub pat stop (pre ++ [c]) true s'
      else c :: scrub pat stop (pre ++ [c]) false s'
  end.

Lemma ends_with_spec pre pat : ends_with pre pat = true ↔ ∃ q, pre = q ++ pat.
Proof.
  unfold ends_with. rewrite andb_true_iff, Nat.leb_le, bool_decide_eq_true. split.
  - intros [_ H]. exists (take (length pre - length pat) pre). rewrite <- H at 2. by rewrite take_drop.
  - intros [q ->]. rewrite length_app. split; [lia|].
    by replace (length q + length pat - length pat) with (length q) by lia; rewrite drop_app_length.
Qed.

Lemma pattern_before_ends_with pre s pat :
  pattern_before (pre ++ s) pat (length pre) = ends_with pre pat.
Proof.
  unfold pattern_before, ends_with. destruct (Nat.leb_spec (length pat) (length pre)); [|done].
  simpl. apply bool_decide_ext. rewrite drop_app_le by lia.
  by rewrite take_app_length' by (rewrite length_drop; lia).
Qed.

Lemma skip_to_app pre x s stop fuel :
  Forall (fun c => stop c = false) x → length x ≤ fuel →
  (s = [] ∨ ∃ c s', s = c :: s' ∧ stop c = true) →
  skip_to fuel (pre ++ x ++ s) stop (length pre) = Ok (length pre + length x).
Proof.
  revert pre fuel. induction x as [|c x IH]; intros pre fuel Hx Hf Hs; simpl in *.
  - destruct fuel; simpl; rewrite lookup_app_r, Nat.sub_diag, Nat.add_0_r by lia;
      destruct Hs as [->|(c & s' & -> & Hc)]; simpl; try done; by rewrite Hc.
  - apply Forall_cons in Hx as [Hc Hx]. destruct fuel as [|fuel]; [lia|]. simpl.
    rewrite lookup_app_r, Nat.sub_diag by lia. simpl. rewrite Hc.
    specialize (IH (pre ++ [c]) fuel Hx ltac:(lia) Hs).
    rewrite <- (assoc_L (++)), length_app, Nat.add_1_r in IH. simpl in IH. rewrite IH.
    f_equal. lia.
Qed.

(** A string splits into its longest part without a stop character and the rest. *)
Lemma split_stop (stop : ascii → bool) s :
  ∃ x t, s = x ++ t ∧ Forall (fun c => stop c = false) x ∧
         (t = [] ∨ ∃ c t', t = c :: t' ∧ stop c = true).
Proof.
  induction s as [|c s IH]; [exists [], []; naive_solver|].
  destruct (stop c) eqn:E.
  - exists [], (c :: s). naive_solver.
  - destruct IH as (x & t & -> & Hx & Ht). exists (c :: x), t. split; [done|].
    split; [by constructor | done].
Qed.

Lemma scrub_skip pat stop pre x s :
  Forall (fun c => stop c = false) x →
  scrub pat stop pre true (x ++ s) = scrub pat stop (pre ++ x) true s.
Proof.
  revert pre. induction x as [|c x IH]; intros pre Hx; simpl; [by rewrite app_nil_r|].
  apply Forall_cons in Hx as [Hc Hx]. rewrite Hc. simpl. rewrite IH by done.
  by rewrite <- (assoc_L (++)).
Qed.

Lemma scrub_start pat stop pre sk s :
  sk || ends_with pre pat = true → scrub pat stop pre sk s = scrub pat stop pre true s.
Proof. intros H. destruct s as [|c s]; simpl; [done|]. by rewrite H. Qed.

Lemma scrub_stop pat stop pre sk c s :
  stop c = true → scrub pat stop pre sk (c :: s) = c :: scrub pat stop (pre ++ [c]) false s.
Proof. intros H. simpl. rewrite H. by rewrite andb_false_r. Qed.

Lemma scrub_length pat stop pre sk s : length (scrub pat stop pre sk s) ≤ length s.
Proof.
  revert pre sk. induction s as [|c s IH]; intros pre sk; simpl; [done|].
  case_match; simpl; [etrans; [apply IH|lia] | by apply le_n_S, IH].
Qed.

Lemma take_snoc_insert {A} (l : list A) j (x : A) :
  j < length l → take (S j) (<[j:=x]> l) = take j l ++ [x].
Proof.
  intros Hj. rewrite (take_S_r _ j x) by (by apply list_lookup_insert_eq).
  by rewrite take_insert_ge by lia.
Qed.

(** The loop writes what [scrub] emits, and stays inside the array as long as
    it has as many free cells as characters are left. *)
Lemma replace_loop_spec fuel pat stop pre s j out :
  length s ≤ fuel → j + length s ≤ length out →
  ensures (replace_loop fuel (pre ++ s) pat stop (length pre) j out) (fun '(out', j') =>
    length out' = length out ∧ take j' out' = take j out ++ scrub pat stop pre false s ∧
    j' = j + length (scrub pat stop pre false s)).
Proof.
  revert pre s j out. induction fuel as [|fuel IH]; intros pre s j out Hf Hj.
  { destruct s; [|simpl in *; lia]. simpl. rewrite lookup_app_r, Nat.sub_diag by lia. simpl.
    by rewrite app_nil_r, Nat.add_0_r. }
  destruct s as [|c s].
  { simpl. rewrite lookup_app_r, Nat.sub_diag by lia. simpl. by rewrite app_nil_r, Nat.add_0_r. }
  cbn [replace_loop]. rewrite lookup_app_r, Nat.sub_diag by lia. cbn [lookup list_lookup].
  rewrite pattern_before_ends_with.
  assert (Hone : ∀ q d t, pre ++ c :: s = q ++ d :: t → length t ≤ length s →
    scrub pat stop pre false (c :: s) = d :: scrub pat stop (q ++ [d]) false t →
    ensures (out' ← wr out j d; replace_loop fuel (pre ++ c :: s) pat stop (S (length q)) (S j) out')
      (fun r : cstring * nat => let '(out', j') := r in length out' = length out ∧
         take j' out' = take j out ++ scrub pat stop pre false (c :: s) ∧
         j' = j + length (scrub pat stop pre false (c :: s)))).
  { intros q d t Heq Ht Hscr. simpl in Hf, Hj. apply ensures_bind, ensures_wr; [lia|].
    replace (pre ++ c :: s) with ((q ++ [d]) ++ t) by (by rewrite Heq, <- (assoc_L (++))).
    replace (S (length q)) with (length (q ++ [d])) by (rewrite length_app; simpl; lia).
    eapply ensures_mono; [apply IH; rewrite ?length_insert; lia|].
    intros [out' j'] (Hl & Ht' & Hj'). rewrite length_insert in Hl. split; [done|].
    rewrite Hscr, Ht', Hj', take_snoc_insert, <- (assoc_L (++)) by lia. split; [done|]. simpl. lia. }
  destruct (ends_with pre pat) eqn:He; cbn [mbind res_bind].
  - destruct (split_stop stop (c :: s)) as (x & t & Hxt & Hx & Ht). rewrite Hxt.
    rewrite skip_to_app by (try done; rewrite !length_app; lia). cbn [mbind res_bind].
    assert (Hsc : scrub pat stop pre false (x ++ t) = scrub pat stop (pre ++ x) true t).
    { rewrite scrub_start by done. by apply scrub_skip. }
    rewrite <- length_app, (assoc_L (++)), lookup_app_r, Nat.sub_diag by lia.
    rewrite <- (assoc_L (++)), <- Hxt in *.
    destruct Ht as [->|(d & t' & -> & Hd)]; cbn [lookup list_lookup].
    + rewrite app_nil_r in Hxt. subst x. rewrite Hsc.
      pose proof (IH (pre ++ c :: s) [] j out ltac:(simpl in *; lia) ltac:(simpl in *; lia)) as H.
      by rewrite app_nil_r in H.
    + apply (Hone _ _ t'); [by rewrite Hxt, (assoc_L (++)) | |].
      * apply (f_equal length) in Hxt. rewrite length_app in Hxt. simpl in Hxt. lia.
      * by rewrite Hsc, scrub_stop.
  - rewrite lookup_app_r, Nat.sub_diag by lia. cbn [lookup list_lookup].
    apply (Hone _ _ s); [done | done |]. simpl. by rewrite He.
Qed.

(** [replace_patterns] returns, never leaves its buffer, and computes [scrub]. *)
Lemma replace_patterns_scrub str pat stop :
  replace_patterns str pat stop = Ok (scrub pat stop [] false str).
Proof.
  unfold replace_patterns.
  pose proof (replace_loop_spec (S (length str)) pat stop [] str 0
    (replicate (length str + 1) Ascii.zero) ltac:(lia)) as H.
  rewrite length_replicate in H. specialize (H ltac:(lia)). simpl app in H. simpl length in H.
  apply ensures_inv in H as ([out j] & -> & Hl & Ht & Hj). simpl. by rewrite Ht.
Qed.

(** ** What a removal cannot see *)

(** The strings are equal up to the parts between a pattern and the stop
    character after it. *)
Inductive blank_eq (pat : cstring) (stop : ascii → bool) : cstring → cstring → Prop :=
| be_nil : blank_eq pat stop [] []
| be_char c s1 s2 : blank_eq pat stop s1 s2 → blank_eq pat stop (c :: s1) (c :: s2)
| be_blank x y c s1 s2 :
    Forall (fun c => stop c = false) x → Forall (fun c => stop c = false) y → stop c = true →
    blank_eq pat stop s1 s2 → blank_eq pat stop (pat ++ x ++ c :: s1) (pat ++ y ++ c :: s2).

Lemma blank_eq_app pat stop s1 s2 t1 t2 :
  blank_eq pat stop s1 s2 → blank_eq pat stop t1 t2 → blank_eq pat stop (s1 ++ t1) (s2 ++ t2).
Proof.
  intros Hs Ht. induction Hs as [|c s1 s2 Hs IH|x y c s1 s2 Hx Hy Hc Hs IH]; simpl; [done| |].
  - by constructor.
  - rewrite <- !(assoc_L (++) pat), <- (assoc_L (++) x), <- (assoc_L (++) y). simpl. by constructor.
Qed.

Lemma blank_eq_refl pat stop s : blank_eq pat stop s s.
Proof. induction s; by constructor. Qed.

#[local] Hint Resolve blank_eq_app blank_eq_refl : core.

(** The pattern has a stop character at its first position at most. *)
Definition stop_at_head (pat : cstring) (stop : ascii → bool) : Prop :=
  ∀ k c, pat !! k = Some c → stop c = true → k = 0.

Lemma ends_with_after_stop pat stop u c t :
  stop_at_head pat stop → stop c = true →
  ends_with (u ++ c :: t) pat = true ↔ ∃ q, c :: t = q ++ pat.
Proof.
  intros Hhd Hc. rewrite ends_with_spec. split; [|intros [q Hq]; exists (u ++ q); by rewrite Hq, (assoc_L (++))].
  intros [q Hq]. apply app_eq_app in Hq as (w & [[-> ->]|[-> Hw]]); [|by exists w].
  pose proof (Hhd (length w) c) as Hw. rewrite lookup_app_r, Nat.sub_diag in Hw by lia.
  specialize (Hw eq_refl Hc). destruct w; [|done]. by exists [].
Qed.

Lemma scrub_prefix pat stop u s1 s2 pre1 pre2 sk :
  (∀ t, ends_with (pre1 ++ t) pat = ends_with (pre2 ++ t) pat) →
  (∀ sk', scrub pat stop (pre1 ++ u) sk' s1 = scrub pat stop (pre2 ++ u) sk' s2) →
  scrub pat stop pre1 sk (u ++ s1) = scrub pat stop pre2 sk (u ++ s2).
Proof.
  revert pre1 pre2 sk. induction u as [|c u IH]; intros pre1 pre2 sk Hpre Hs; simpl.
  - by rewrite !app_nil_r in Hs.
  - pose proof (Hpre []) as H0. rewrite !app_nil_r in H0. rewrite H0.
    assert (H : ∀ b, scrub pat stop (pre1 ++ [c]) b (u ++ s1) = scrub pat stop (pre2 ++ [c]) b (u ++ s2)).
    { intros b. apply IH; intros; rewrite <- !(assoc_L (++)); simpl; auto. }
    by case_match; rewrite H.
Qed.

Lemma scrub_blank_eq pat stop s1 s2 pre1 pre2 sk :
  stop_at_head pat stop → blank_eq pat stop s1 s2 →
  (∀ t, ends_with (pre1 ++ t) pat = ends_with (pre2 ++ t) pat) →
  scrub pat stop pre1 sk s1 = scrub pat stop pre2 sk s2.
Proof.
  intros Hhd Hs. revert pre1 pre2 sk.
  induction Hs as [|c s1 s2 Hs IH|x y c s1 s2 Hx Hy Hc Hs IH]; intros pre1 pre2 sk Hpre; [done| |].
  - apply (scrub_prefix pat stop [c]); [done|]. intros b. apply IH. intros t.
    by rewrite <- !(assoc_L (++)).
  - apply scrub_prefix; [done|]. intros b.
    rewrite !(scrub_start _ _ _ b) by (apply orb_true_iff; right; apply ends_with_spec; eauto).
    rewrite !scrub_skip, !scrub_stop by done. f_equal. apply IH. intros t.
    apply eq_iff_eq_true. rewrite <- !(assoc_L (++) _ [c] t). simpl.
    by rewrite !(ends_with_after_stop _ stop).
Qed.

Lemma remove_consts_blank_eq s1 s2 :
  blank_eq (lit "{CONST") is_brace s1 s2 → remove_consts s1 = remove_consts s2.
Proof.
  intros H. unfold remove_consts. rewrite !replace_patterns_scrub. f_equal.
  apply scrub_blank_eq; [|done|done].
  intros k c Hk Hc. do 6 (destruct k as [|k]; [simpl in Hk; simplify_eq; done|]). done.
Qed.

(** ** Constants *)

(** The node with the contents of every constant forgotten. *)
Fixpoint forget_consts (n : node) : node :=
  match n with
  | Const _ => Const (mkConst 0 0 0 0 [] true false 0)
  | OpExpr o args => OpExpr o (map forget_consts args)
  | DistinctExpr o args => DistinctExpr o (map forget_consts args)
  | NullIfExpr o args => NullIfExpr o (map forget_consts args)
  | ScalarArrayOpExpr o args => ScalarArrayOpExpr o (map forget_consts args)
  | OtherNode fs => OtherNode (map forget_consts fs)
  | _ => n
  end.

Definition no_brace (s : cstring) : Prop := Forall (fun c => is_brace c = false) s.

Lemma no_brace_dec z : no_brace (dec z).
Proof.
  eapply Forall_impl; [apply dec_digits|]. intros c Hc. unfold digit_like in Hc.
  set_unfold in Hc. naive_solver.
Qed.

Lemma no_brace_app s t : no_brace s → no_brace t → no_brace (s ++ t).
Proof. apply Forall_app_2. Qed.

Lemma no_brace_outConst_body c : no_brace (outConst_body c).
Proof.
  assert (Hlit : ∀ s, forallb (fun c => negb (is_brace c)) (lit s) = true → no_brace (lit s)).
  { intros s H. apply Forall_forall. rewrite forallb_forall in H. intros x Hx.
    apply list_elem_of_In in Hx. specialize (H x Hx). by destruct (is_brace x). }
  assert (Hb : ∀ b, no_brace (booltostr b)) by (intros []; by apply Hlit).
  unfold outConst_body, outDatum, wfield, wbool.
  destruct (constisnull c);
    repeat first [apply no_brace_app | apply no_brace_dec | apply Hb | by apply Hlit].
  induction (constvalue c) as [|b l IH]; simpl; [constructor|].
  repeat apply no_brace_app; [apply no_brace_dec | by repeat constructor | done].
Qed.

Notation ceq := (blank_eq (lit "{CONST") is_brace).

Lemma ceq_outConst c c' : ceq (outNode (Const c)) (outNode (Const c')).
Proof.
  apply (be_blank (lit "{CONST") is_brace (outConst_body c) (outConst_body c') "}"%char [] []);
    [apply no_brace_outConst_body.. | done | constructor].
Qed.

Lemma ceq_outList l1 l2 : Forall2 ceq l1 l2 → ceq (outList l1) (outList l2).
Proof.
  intros H. assert (Hj : ceq (join_sp l1) (join_sp l2)).
  { induction H as [|s1 s2 l1 l2 Hs Hl IH]; [constructor|].
    destruct Hl; simpl; [done|]. apply blank_eq_app; [done|]. by constructor. }
  destruct H; [auto|]. unfold outList. auto.
Qed.

Lemma ceq_map l (f : node → node) :
  Forall (fun n => ceq (outNode n) (outNode (f n))) l →
  Forall2 ceq (map outNode l) (map outNode (map f l)).
Proof. induction 1; simpl; by constructor. Qed.

Lemma ceq_forget n : ceq (outNode n) (outNode (forget_consts n)).
Proof.
  induction n as [v|c|p|o args IH|o args IH|o args IH|o args IH|fs IH|s] using node_ind';
    try apply blank_eq_refl; [apply ceq_outConst|..];
    apply ceq_map in IH; cbn [outNode forget_consts]; repeat apply blank_eq_app;
    auto using ceq_outList.
  induction IH; simpl; auto.
Qed.

Lemma remove_consts_forget n :
  remove_consts (nodeToString n) = remove_consts (nodeToString (forget_consts n)).
Proof. apply remove_consts_blank_eq, ceq_forget. Qed.

Lemma get_node_hash_forget n : get_node_hash n = get_node_hash (forget_consts n).
Proof. unfold get_node_hash. by rewrite remove_consts_forget. Qed.

Lemma get_query_hash_total n : ∃ h, get_query_hash n = Ok h.
Proof.
  unfold get_query_hash, remove_consts, remove_locations, remove_varno, remove_varnoold, remove_stmt_len.
  repeat (rewrite replace_patterns_scrub; cbn [mbind res_bind]). eauto.
Qed.

(** C33. [replace_patterns] returns for every string and pattern, never writes
    outside the buffer of [strlen(str) + 1] bytes it allocates, and computes
    the one-pass removal: after the pattern, everything up to the next stop
    character is dropped. *)
Theorem replace_patterns_correct (str pat : cstring) (stop : ascii → bool) :
  replace_patterns str pat stop = Ok (scrub pat stop [] false str) ∧
  length (scrub pat stop [] false str) ≤ length str.
Proof. split; [apply replace_patterns_scrub | apply scrub_length]. Qed.

(** The query hash is constant-insensitive, as its comment demands: two
    queries whose trees differ in the contents of constants only (type, value,
    length, null flag, location) have the same hash, and it always exists. *)
Theorem query_hash_const_insensitive (q1 q2 : node) :
  forget_consts q1 = forget_consts q2 →
  ∃ h, get_query_hash q1 = Ok h ∧ get_query_hash q2 = Ok h.
Proof.
  intros E. destruct (get_query_hash_total q1) as [h Hh]. exists h. split; [done|].
  revert Hh. unfold get_query_hash. by rewrite (remove_consts_forget q1), E, <- remove_consts_forget.
Qed.

(** [x = 5] and [x = 'abc'] over one column, as query trees. *)
Definition sample_var : node := Var (mkVar 1 2 23 (-1) 0 0 1 2 30).
Definition sample_int (z : Z) : node := Const (mkConst 23 (-1) 0 4 [z; 0; 0; 0; 0; 0; 0; 0]%Z false true 34).
Definition sample_eq (c : node) : node := OpExpr (mkOp 96 65 16 false 0 0 32) [sample_var; c].

Lemma query_hash_const_insensitive_witness :
  sample_eq (sample_int 5) ≠ sample_eq (sample_int 77) ∧
  ∃ h, get_query_hash (OtherNode [TextNode (lit "QUERY :quals "); sample_eq (sample_int 5)]) = Ok h ∧
       get_query_hash (OtherNode [TextNode (lit "QUERY :quals "); sample_eq (sample_int 77)]) = Ok h.
Proof.
  split; [discriminate|]. apply query_hash_const_insensitive. reflexivity.
Defined.
