(* ===== verification/HashEclass.v ===== *)
(** * HashEclass: equivalence classes of clause arguments (contrib/aqo/hash.c)

    The arguments of the equality clauses of a clause list are represented by
    their hashes in a sorted array without repetitions; a disjoint-set forest
    [p] over its positions ([-1] marks a root) joins the arguments of each
    clause; the class hash of an argument is the hash of all hashes of its
    class. *)
From S2P Require Import Prelude Float64 HashAny Qsort Utils Nodes HashText.
From stdpp Require Import strings sorting.
From Stdlib Require Import Relation_Operators.

(** ** Clauses *)
Definition is_const (n : node) : bool := match n with Const _ => true | _ => false end.

Definition has_consts (lst : list node) : bool := existsb is_const lst.

(** [get_clause_args_ptr]: the argument list the pointer leads to. *)
Definition get_clause_args (clause : node) : option (list node) :=
  match clause with
  | OpExpr _ args | DistinctExpr _ args | NullIfExpr _ args | ScalarArrayOpExpr _ args => Some args
  | _ => None
  end.

(** Writing through [get_clause_args_ptr] of a copy of the clause. *)
Definition set_clause_args (clause : node) (args : list node) : node :=
  match clause with
  | OpExpr o _ => OpExpr o args
  | DistinctExpr o _ => DistinctExpr o args
  | NullIfExpr o _ => NullIfExpr o args
  | ScalarArrayOpExpr o _ => ScalarArrayOpExpr o args
  | _ => clause
  end.

(** The operators listed in [clause_is_eq_clause], the named ones first
    ([Int4EqualOperator], [BooleanEqualOperator], [TextEqualOperator],
    [TIDEqualOperator], [ARRAY_EQ_OP], [RECORD_EQ_OP]). *)
Definition eq_operators : list Z :=
  [96; 91; 98; 387; 1070; 2988; 15; 92; 93; 94; 352; 353; 385; 386; 410; 416; 503; 532; 533; 560;
   566; 607; 649; 620; 670; 792; 811; 900; 1093; 1108; 1550; 1120; 1130; 1320; 1330; 1500; 1535;
   1616; 1220; 1201; 1752; 1784; 1804; 1862; 1868; 1955; 2060; 2542; 2972; 3222; 3516; 3629; 3676;
   3882; 3240; 3240]%Z.

Definition clause_is_eq_clause (clause : node) : bool :=
  match clause with
  | OpExpr o _ | DistinctExpr o _ | NullIfExpr o _ => bool_decide (opno o ∈ eq_operators)
  | ScalarArrayOpExpr o _ => bool_decide (sa_opno o ∈ eq_operators)
  | _ => false
  end.

(** ** Sorted arrays *)

(** C's [bsearch]: the probe is the middle of [[lo, hi)]. *)
Fixpoint bsearch (fuel : nat) (val : Z) (arr : list Z) (lo hi : nat) : res (option nat) :=
  if lo <? hi then
    match fuel with
    | O => Err Fault_fuel
    | S fuel =>
        let mid := (lo + hi) / 2 in
        x ← rd arr mid;
        let c := int_cmp val x in
        if (c <? 0)%Z then bsearch fuel val arr lo mid
        else if (0 <? c)%Z then bsearch fuel val arr (S mid) hi
        else Ok (Some mid)
    end
  else Ok None.

Definition get_id_in_sorted_int_array (val : Z) (arr : list Z) : res Z :=
  i ← bsearch (length arr) val arr 0 (length arr);
  Ok (match i with None => -1 | Some i => Z.of_nat i end)%Z.

Definition get_arg_eclass (arg_hash : Z) (args_hash eclass_hash : list Z) : res Z :=
  di ← get_id_in_sorted_int_array arg_hash args_hash;
  if (di =? -1)%Z then Ok 0%Z else rdz eclass_hash di.

(** ** The arguments of the equality clauses *)

(** The non-constant arguments the two passes of [get_clauselist_args] visit. *)
Definition eq_clause_args (clause : node) : list node :=
  match get_clause_args clause with
  | Some args => if clause_is_eq_clause clause then filter (fun a => is_const a = false) args else []
  | None => []
  end.

Definition clauselist_args (clauselist : list node) : list node :=
  concat (map eq_clause_args clauselist).

(** The loop that removes adjacent duplicates: [args_hash] and [sh]. *)
Definition dedup_step (i : nat) (st : list Z * nat) : res (list Z * nat) :=
  let '(a, sh) := st in
  x ← rd a (i - 1);
  y ← rd a i;
  if (x =? y)%Z then Ok (a, S sh) else a ← wr a (i - sh) y; Ok (a, sh).

Definition get_clauselist_args (clauselist : list node) : res (list Z) :=
  (* the first pass counts [cnt], the second fills the array *)
  args_hash ← mapM get_node_hash (clauselist_args clauselist);
  let cnt := length args_hash in
  args_hash ← qsort int_cmp args_hash;
  '(args_hash, sh) ← for_range 1 cnt dedup_step (args_hash, 0);
  (* repalloc to [nargs = cnt - sh] cells *)
  Ok (take (cnt - sh) args_hash).

(** ** The disjoint set *)

(** The recursive find with path compression. *)
Fixpoint disjoint_set_get_parent (fuel : nat) (p : list Z) (v : Z) : res (list Z * Z) :=
  match fuel with
  | O => Err Fault_fuel
  | S fuel =>
      pv ← rdz p v;
      if (pv =? -1)%Z then Ok (p, v)
      else
        '(p, r) ← disjoint_set_get_parent fuel p pv;
        p ← wrz p v r;
        Ok (p, r)
  end.

(** [length p] nested calls are enough: a path visits no position twice. *)
Definition ds_find (p : list Z) (v : Z) : res (list Z * Z) :=
  disjoint_set_get_parent (length p) p v.

Definition disjoint_set_merge_eclasses (p : list Z) (v1 v2 : Z) : res (list Z) :=
  '(p, p1) ← ds_find p v1;
  '(p, p2) ← ds_find p v2;
  if negb (p1 =? p2)%Z then
    if negb (Z.rem (v1 + v2) 2 =? 0)%Z then wrz p p1 p2 else wrz p p2 p1
  else Ok p.

(** One argument of a clause: [i3] is the previous one's position, or [-1]. *)
Definition join_arg (args_hash : list Z) (arg : node) (st : list Z * Z) : res (list Z * Z) :=
  let '(p, i3) := st in
  if is_const arg then Ok (p, i3)
  else
    h2 ← get_node_hash arg;
    i2 ← get_id_in_sorted_int_array h2 args_hash;
    p ← (if negb (i3 =? -1)%Z then disjoint_set_merge_eclasses p i2 i3 else Ok p);
    Ok (p, i2).

Definition join_clause (args_hash : list Z) (clause : node) (p : list Z) : res (list Z) :=
  match get_clause_args clause with
  | Some args =>
      if clause_is_eq_clause clause then
        '(p, _) ← foreach args (join_arg args_hash) (p, -1)%Z; Ok p
      else Ok p
  | None => Ok p
  end.

Definition perform_eclasses_join (clauselist : list node) (args_hash : list Z) : res (list Z) :=
  foreach clauselist (join_clause args_hash) (replicate (length args_hash) (-1)%Z).

(** [lsts[v] = lappend_int(lsts[v], args_hash[i])] with [v] the root of [i]. *)
Definition class_list_step (args_hash : list Z) (i : nat) (st : list Z * list (list Z))
  : res (list Z * list (list Z)) :=
  let '(p, lsts) := st in
  '(p, v) ← ds_find p (Z.of_nat i);
  h ← rd args_hash i;
  l ← rdz lsts v;
  lsts ← wrz lsts v (l ++ [h]);
  Ok (p, lsts).

Definition class_hash_step (e_hashes : list Z) (i : nat) (st : list Z * list Z)
  : res (list Z * list Z) :=
  let '(p, eclass_hash) := st in
  '(p, v) ← ds_find p (Z.of_nat i);
  e ← rdz e_hashes v;
  Ok (p, eclass_hash ++ [e]).

(** Returns [args_hash] and [eclass_hash]; [nargs] is their length. *)
Definition get_eclasses (clauselist : list node) : res (list Z * list Z) :=
  args_hash ← get_clauselist_args clauselist;
  let nargs := length args_hash in
  p ← perform_eclasses_join clauselist args_hash;
  '(p, lsts) ← for_range 0 nargs (class_list_step args_hash) (p, replicate nargs []);
  e_hashes ← mapM get_unordered_int_list_hash lsts;
  '(p, eclass_hash) ← for_range 0 nargs (class_hash_step e_hashes) (p, []);
  Ok (args_hash, eclass_hash).

(** ** Node hashes as a function *)
Definition node_hash (n : node) : Z :=
  get_str_hash (scrub (lit " :varnoold") is_colon [] false
    (scrub (lit " :varno") is_colon [] false
      (scrub (lit " :location") is_brace [] false
        (scrub (lit "{CONST") is_brace [] false (nodeToString n))))).

Lemma get_node_hash_ok n : get_node_hash n = Ok (node_hash n).
Proof.
  unfold get_node_hash, remove_consts, remove_locations, remove_varno, remove_varnoold.
  by repeat (rewrite replace_patterns_scrub; cbn [mbind res_bind]).
Qed.

Lemma mapM_res_total {A B} (f : A → res B) (g : A → B) l :
  (∀ x, x ∈ l → f x = Ok (g x)) → mapM f l = Ok (map g l).
Proof.
  induction l as [|x l IH]; intros H; simpl; [done|].
  rewrite H by set_solver. simpl. rewrite IH by set_solver. done.
Qed.

(** ** Binary search *)
Definition ssorted (l : list Z) : Prop := StronglySorted Z.lt l.

Lemma ssorted_lookup l i j x y :
  ssorted l → l !! i = Some x → l !! j = Some y → i < j → (x < y)%Z.
Proof.
  intros Hs. revert i j. induction Hs as [|z l Hs IH Hz]; intros i j Hi Hj Hij; [done|].
  destruct j as [|j]; [lia|]. destruct i as [|i]; simpl in *.
  - simplify_eq. eapply Forall_lookup in Hz; eauto.
  - eapply IH; eauto. lia.
Qed.

Lemma ssorted_inj l i j x : ssorted l → l !! i = Some x → l !! j = Some x → i = j.
Proof.
  intros Hs Hi Hj. destruct (Nat.lt_trichotomy i j) as [Hl|[?|Hl]]; [|done|].
  - pose proof (ssorted_lookup l i j _ _ Hs Hi Hj Hl). lia.
  - pose proof (ssorted_lookup l j i _ _ Hs Hj Hi Hl). lia.
Qed.

Lemma bsearch_ok fuel val arr lo hi :
  ssorted arr → hi ≤ length arr → hi - lo ≤ fuel →
  (∀ k, arr !! k = Some val → lo ≤ k < hi) →
  ensures (bsearch fuel val arr lo hi) (fun r =>
    match r with Some i => arr !! i = Some val | None => val ∉ arr end).
Proof.
  intros Hs. revert lo hi. induction fuel as [|fuel IH]; intros lo hi Hhi Hf Hk; cbn [bsearch].
  - destruct (Nat.ltb_spec lo hi); [lia|]. simpl. intros [k Hin]%list_elem_of_lookup_1.
    specialize (Hk k Hin). lia.
  - destruct (Nat.ltb_spec lo hi) as [Hlt|].
    2:{ simpl. intros [k Hin]%list_elem_of_lookup_1. specialize (Hk k Hin). lia. }
    assert (Hmid : lo ≤ (lo + hi) / 2 < hi).
    { split; [apply Nat.div_le_lower_bound; lia | apply Nat.Div0.div_lt_upper_bound; lia]. }
    set (mid := (lo + hi) / 2) in *.
    apply ensures_bind, ensures_rd; [lia|]. intros x Hx. unfold int_cmp.
    destruct (Z.ltb_spec val x) as [Hvx|Hvx]; simpl.
    { apply IH; [lia | lia|]. intros k Hkv. specialize (Hk k Hkv). split; [lia|].
      destruct (decide (k < mid)); [done|]. destruct (decide (k = mid)) as [->|]; [simplify_eq; lia|].
      pose proof (ssorted_lookup _ mid k _ _ Hs Hx Hkv). lia. }
    destruct (Z.ltb_spec x val) as [Hxv|Hxv]; simpl.
    { apply IH; [lia | lia|]. intros k Hkv. specialize (Hk k Hkv). split; [|lia].
      destruct (decide (mid < k)); [lia|]. destruct (decide (k = mid)) as [->|]; [simplify_eq; lia|].
      pose proof (ssorted_lookup _ k mid _ _ Hs Hkv Hx). lia. }
    assert (x = val) as <- by lia. done.
Qed.

Lemma get_id_ok val arr :
  ssorted arr →
  ensures (get_id_in_sorted_int_array val arr) (fun d =>
    (d = -1 ∧ val ∉ arr)%Z ∨ ∃ i, d = Z.of_nat i ∧ arr !! i = Some val).
Proof.
  intros Hs. eapply ensures_bind_mono.
  - apply bsearch_ok; [done | lia | lia |]. intros k Hk%lookup_lt_Some. lia.
  - intros [i|] Hr; simpl; [right; eauto | left; auto].
Qed.

(** ** Removing duplicates *)
Lemma sorted_le_lookup l i j x y :
  StronglySorted Z.le l → l !! i = Some x → l !! j = Some y → i ≤ j → (x ≤ y)%Z.
Proof.
  intros Hs. revert i j. induction Hs as [|z l Hs IH Hz]; intros i j Hi Hj Hij; [done|].
  destruct i as [|i], j as [|j]; simpl in *; simplify_eq; [lia| |lia|eapply IH; eauto; lia].
  by eapply Forall_lookup in Hz.
Qed.

Record dedup_inv (s : list Z) (i : nat) (a : list Z) (sh : nat) : Prop := {
  di_len : length a = length s;
  di_sh : sh < i;
  di_rest : ∀ k, i - 1 ≤ k → a !! k = s !! k;
  di_sorted : ssorted (take (i - sh) a);
  di_elem : ∀ x, x ∈ take (i - sh) a ↔ x ∈ take i s
}.

Lemma dedup_step_ok s i a sh :
  StronglySorted Z.le s → 1 ≤ i < length s → dedup_inv s i a sh →
  ensures (dedup_step i (a, sh)) (fun '(a', sh') => dedup_inv s (S i) a' sh').
Proof.
  intros Hs Hi [Hl Hsh Hrest Hsort Helem]. unfold dedup_step.
  apply ensures_bind, ensures_rd; [lia|]. intros x Hx. apply ensures_bind, ensures_rd; [lia|].
  intros y Hy. rewrite Hrest in Hx, Hy by lia.
  destruct (Z.eqb_spec x y) as [->|Hne].
  - split; [done | lia | intros; apply Hrest; lia | done |].
    intros z. simpl. rewrite Helem, (take_S_r s i y), elem_of_app, list_elem_of_singleton by done.
    split; [tauto|]. intros [?| ->]; [done|].
    apply list_elem_of_lookup. exists (i - 1). rewrite lookup_take_lt by lia. done.
  - apply ensures_bind, ensures_wr; [lia|].
    assert (Htk : take (S i - sh) (<[i - sh:=y]> a) = take (i - sh) a ++ [y]).
    { replace (S i - sh) with (S (i - sh)) by lia. apply take_snoc_insert. lia. }
    split; rewrite ?Htk; [by rewrite length_insert | lia | | |].
    + intros k Hk. destruct (decide (k = i - sh)) as [->|].
      * rewrite list_lookup_insert_eq by lia. by replace (i - sh) with i by lia.
      * rewrite list_lookup_insert_ne by done. apply Hrest. lia.
    + apply StronglySorted_app_2; [|done|by repeat constructor].
      intros u v Hu Hv. apply list_elem_of_singleton in Hv as ->.
      apply Helem, list_elem_of_lookup in Hu as [k Hk]. apply lookup_take_Some in Hk as [Hk Hki].
      pose proof (sorted_le_lookup _ k (i - 1) _ _ Hs Hk Hx ltac:(lia)).
      pose proof (sorted_le_lookup _ (i - 1) i _ _ Hs Hx Hy ltac:(lia)). lia.
    + intros z. rewrite (take_S_r s i y), !elem_of_app, Helem by done. done.
Qed.

(** The argument hashes: strictly increasing, and those of the arguments. *)
Lemma get_clauselist_args_ok clauselist :
  ensures (get_clauselist_args clauselist) (fun ah => ssorted ah ∧
    ∀ h, h ∈ ah ↔ ∃ a, a ∈ clauselist_args clauselist ∧ h = node_hash a).
Proof.
  unfold get_clauselist_args.
  rewrite (mapM_res_total _ node_hash) by (intros; apply get_node_hash_ok). cbn [mbind res_bind].
  set (hs := map node_hash (clauselist_args clauselist)).
  eapply ensures_bind_mono; [apply qsort_int_ok|]. intros s [Hp Hs].
  rewrite <- (Permutation_length Hp).
  assert (Hin : ∀ h, h ∈ s ↔ ∃ a, a ∈ clauselist_args clauselist ∧ h = node_hash a).
  { intros h. rewrite Hp. unfold hs. rewrite list_elem_of_In, in_map_iff.
    setoid_rewrite list_elem_of_In. naive_solver. }
  destruct (decide (length s = 0)) as [Hz|Hz].
  { apply nil_length_inv in Hz as ->. simpl. split; [constructor | done]. }
  eapply ensures_bind_mono.
  - apply (ensures_for (fun i st => dedup_inv s i st.1 st.2)); [lia | |].
    + destruct s as [|x s]; [done|]. split; simpl; [done | lia | done | by repeat constructor | done].
    + intros j [a sh] Hj Hinv. eapply ensures_mono; [by apply dedup_step_ok|].
      by intros [a' sh'].
  - intros [a sh] [Hl _ _ Hsort Helem]. simpl in *. split; [done|]. intros h.
    by rewrite Helem, firstn_all.
Qed.

(** ** The disjoint-set forest *)

(** [r] is the root that the links from [v] lead to. *)
Inductive root (p : list Z) : nat → nat → Prop :=
| root_here v : p !! v = Some (-1)%Z → root p v v
| root_step v u r : p !! v = Some (Z.of_nat u) → root p u r → root p v r.

(** Every position leads to a root: the links have no cycle. *)
Definition forest (p : list Z) : Prop := ∀ v, v < length p → ∃ r, root p v r.

(** The positions visited from [v]. *)
Inductive rpath (p : list Z) : nat → list nat → nat → Prop :=
| rpath_here v : p !! v = Some (-1)%Z → rpath p v [v] v
| rpath_step v u l r : p !! v = Some (Z.of_nat u) → rpath p u l r → rpath p v (v :: l) r.

Lemma root_is_root p v r : root p v r → p !! r = Some (-1)%Z.
Proof. by induction 1. Qed.

Lemma root_lt p v r : root p v r → r < length p.
Proof. intros H. by eapply lookup_lt_Some, root_is_root. Qed.

Lemma root_fun p v r r' : root p v r → root p v r' → r = r'.
Proof.
  intros H. revert r'. induction H as [v Hv|v u r Hv Hr IH]; intros r' H'; inversion H'; subst;
    simplify_eq; try lia; auto.
Qed.

Lemma root_rpath p v r : root p v r → ∃ l, rpath p v l r.
Proof. induction 1 as [v Hv|v u r Hv Hr [l IH]]; eexists; econstructor; eauto. Qed.

Lemma rpath_fun p v l l' r r' : rpath p v l r → rpath p v l' r' → l = l'.
Proof.
  intros H. revert l' r'. induction H as [v Hv|v u l r Hv Hr IH]; intros l' r' H'; inversion H'; subst;
    simplify_eq; try lia; f_equal; eauto.
Qed.

Lemma rpath_drop p v l r k w : rpath p v l r → l !! k = Some w → rpath p w (drop k l) r.
Proof.
  intros H. revert k. induction H as [v Hv|v u l r Hv Hr IH]; intros [|k] Hk; simpl in *;
    simplify_eq; [by constructor | by econstructor | by apply IH].
Qed.

Lemma rpath_length p v l r : rpath p v l r → length l ≤ length p.
Proof.
  intros H. rewrite <- (length_seq (length p) 0). apply submseteq_length, NoDup_submseteq.
  - apply NoDup_alt. intros i j w Hi Hj.
    pose proof (rpath_drop _ _ _ _ _ _ H Hi) as H1. pose proof (rpath_drop _ _ _ _ _ _ H Hj) as H2.
    pose proof (f_equal length (rpath_fun _ _ _ _ _ _ H1 H2)) as E. rewrite !length_drop in E.
    apply lookup_lt_Some in Hi, Hj. lia.
  - intros w [k Hk]%list_elem_of_lookup. apply elem_of_seq.
    pose proof (rpath_drop _ _ _ _ _ _ H Hk) as H1. inversion H1 as [? E|? ? ? ? E]; apply lookup_lt_Some in E; lia.
Qed.

(** Pointing a position at its root changes no root. *)
Lemma root_compress p v r x y :
  root p v r → v ≠ r → root (<[v := Z.of_nat r]> p) x y ↔ root p x y.
Proof.
  intros Hv Hne. pose proof (root_is_root _ _ _ Hv) as Hr.
  assert (Hvl : v < length p) by (inversion Hv; by eapply lookup_lt_Some).
  assert (Hlk : (<[v:=Z.of_nat r]> p) !! v = Some (Z.of_nat r)) by (by apply list_lookup_insert_eq).
  assert (Hne' : ∀ z, z ≠ v → (<[v:=Z.of_nat r]> p) !! z = p !! z) by (intros; by apply list_lookup_insert_ne).
  split; intros H.
  - induction H as [x Hx|x u y Hx Hu IH].
    + destruct (decide (x = v)) as [->|Hx']; [rewrite Hlk in Hx; simplify_eq; lia|].
      rewrite Hne' in Hx by done. by constructor.
    + destruct (decide (x = v)) as [->|Hx'].
      * rewrite Hlk in Hx. simplify_eq.
        by rewrite (root_fun _ _ _ _ IH (root_here _ _ Hr)).
      * rewrite Hne' in Hx by done. by eapply root_step.
  - induction H as [x Hx|x u y Hx Hu IH].
    + destruct (decide (x = v)) as [->|Hx'].
      * by rewrite (root_fun _ _ _ _ Hv (root_here _ _ Hx)) in Hne.
      * constructor. by rewrite Hne'.
    + destruct (decide (x = v)) as [->|Hx'].
      * assert (y = r) as -> by (eapply root_fun; [by eapply root_step | done]).
        eapply root_step; [done|]. constructor. by rewrite Hne'.
      * eapply root_step; [by rewrite Hne' | done].
Qed.

Definition same_roots (p p' : list Z) : Prop :=
  length p' = length p ∧ ∀ x y, root p' x y ↔ root p x y.

(** Find returns the root and keeps every root, compressing the path. *)
Lemma get_parent_ok fuel p v l r :
  rpath p v l r → length l ≤ fuel →
  ensures (disjoint_set_get_parent fuel p (Z.of_nat v)) (fun '(p', r') =>
    r' = Z.of_nat r ∧ same_roots p p').
Proof.
  intros H. revert fuel. induction H as [v Hv|v u l r Hv Hr IH]; intros [|fuel] Hf; simpl in Hf; try lia;
    cbn [disjoint_set_get_parent]; rewrite rdz_nat, (rd_some _ _ _ Hv); cbn [mbind res_bind].
  - simpl. by split.
  - destruct (Z.eqb_spec (Z.of_nat u) (-1)); [lia|].
    eapply ensures_bind_mono; [apply IH; lia|]. intros [p' r'] (-> & Hlen & Hroots).
    rewrite wrz_nat. apply lookup_lt_Some in Hv as Hvl.
    apply ensures_bind, ensures_wr; [lia|]. split; [done|]. split; [by rewrite length_insert|].
    assert (Hru : root p u r) by (clear -Hr; induction Hr; econstructor; eauto).
    assert (Hrv : root p' v r) by (apply Hroots; by eapply root_step).
    intros x y. rewrite root_compress; [apply Hroots | done |].
    intros ->. apply root_is_root in Hru. simplify_eq.
Qed.

Lemma ds_find_ok p v :
  forest p → v < length p →
  ensures (ds_find p (Z.of_nat v)) (fun '(p', r) =>
    same_roots p p' ∧ ∃ r', r = Z.of_nat r' ∧ root p v r').
Proof.
  intros Hf Hv. destruct (Hf v Hv) as [r Hr]. destruct (root_rpath _ _ _ Hr) as [l Hl].
  eapply ensures_mono; [apply (get_parent_ok _ _ _ _ _ Hl); by eapply rpath_length|].
  intros [p' r'] [-> H]. split; [done|]. eauto.
Qed.

Lemma same_roots_forest p p' : same_roots p p' → forest p → forest p'.
Proof. intros [Hl Hr] Hf v Hv. rewrite Hl in Hv. destruct (Hf v Hv) as [r H]. exists r. by apply Hr. Qed.

Lemma same_roots_trans p p' p'' : same_roots p p' → same_roots p' p'' → same_roots p p''.
Proof. intros [Hl Hr] [Hl' Hr']. split; [congruence|]. intros x y. by rewrite Hr', Hr. Qed.

(** Linking the root [a] below the root [b]. *)
Lemma root_link p a b x y :
  p !! a = Some (-1)%Z → p !! b = Some (-1)%Z → a ≠ b →
  root (<[a := Z.of_nat b]> p) x y ↔ ∃ z, root p x z ∧ y = if decide (z = a) then b else z.
Proof.
  intros Ha Hb Hne. apply lookup_lt_Some in Ha as Hal.
  assert (Hlk : (<[a:=Z.of_nat b]> p) !! a = Some (Z.of_nat b)) by (by apply list_lookup_insert_eq).
  assert (Hne' : ∀ z, z ≠ a → (<[a:=Z.of_nat b]> p) !! z = p !! z) by (intros; by apply list_lookup_insert_ne).
  assert (Hrb : root (<[a:=Z.of_nat b]> p) b b) by (constructor; by rewrite Hne').
  split.
  - induction 1 as [x Hx|x u y Hx Hu IH].
    + destruct (decide (x = a)) as [->|Hx']; [rewrite Hlk in Hx; simplify_eq; lia|].
      rewrite Hne' in Hx by done. exists x. split; [by constructor | by rewrite decide_False].
    + destruct (decide (x = a)) as [->|Hx'].
      * rewrite Hlk in Hx. simplify_eq.
        exists a. rewrite decide_True by done. split; [by constructor | by eapply root_fun].
      * rewrite Hne' in Hx by done. destruct IH as (z & Hz & ->). exists z.
        split; [by eapply root_step | done].
  - intros (z & Hz & ->). induction Hz as [x Hx|x u z Hx Hu IH].
    + case_decide; subst; [by eapply root_step|]. constructor. by rewrite Hne'.
    + assert (x ≠ a) by (intros ->; simplify_eq; lia).
      eapply root_step; [by rewrite Hne' | done].
Qed.

(** [x] and [y] are in one class of the forest. *)
Definition same_class (p : list Z) (x y : nat) : Prop := ∃ r, root p x r ∧ root p y r.

Lemma same_class_roots p p' x y : same_roots p p' → same_class p' x y ↔ same_class p x y.
Proof. intros [_ H]. unfold same_class. by setoid_rewrite H. Qed.

Lemma same_class_root_r p v r x : root p v r → same_class p x v ↔ root p x r.
Proof.
  intros Hv. split; [|by exists r]. intros (r' & Hx & Hv'). by rewrite (root_fun _ _ _ _ Hv Hv').
Qed.

Lemma same_class_sym p x y : same_class p x y → same_class p y x.
Proof. intros (r & ? & ?). by exists r. Qed.

Lemma same_class_root_l p v r x : root p v r → same_class p v x ↔ root p x r.
Proof. intros Hv. rewrite <- same_class_root_r by done. split; apply same_class_sym. Qed.

(** Linking two roots joins their two classes and nothing else. *)
Lemma link_ok p a b :
  forest p → p !! a = Some (-1)%Z → p !! b = Some (-1)%Z → a ≠ b →
  ensures (wrz p (Z.of_nat a) (Z.of_nat b)) (fun p' =>
    forest p' ∧ length p' = length p ∧
    ∀ x y, same_class p' x y ↔ same_class p x y ∨
      (root p x a ∧ root p y b) ∨ (root p x b ∧ root p y a)).
Proof.
  intros Hf Ha Hb Hne. rewrite wrz_nat. apply ensures_wr; [by eapply lookup_lt_Some|].
  split; [|split].
  - intros v. rewrite length_insert. intros Hv. destruct (Hf v Hv) as [r Hr].
    eexists. rewrite root_link by done. by exists r.
  - by rewrite length_insert.
  - intros x y. unfold same_class. setoid_rewrite root_link; [|done..]. split.
    + intros (r & (z & Hz & ->) & (z' & Hz' & Heq)). repeat case_decide; subst; eauto 10.
    + intros [(r & Hx & Hy)|[[Hx Hy]|[Hx Hy]]].
      * eexists. split; [by exists r | by exists r].
      * exists b. split; [exists a | exists b]; by case_decide.
      * exists b. split; [exists b | exists a]; by case_decide.
Qed.

Lemma merge_ok p v1 v2 :
  forest p → v1 < length p → v2 < length p →
  ensures (disjoint_set_merge_eclasses p (Z.of_nat v1) (Z.of_nat v2)) (fun p' =>
    forest p' ∧ length p' = length p ∧
    ∀ x y, same_class p' x y ↔ same_class p x y ∨
      (same_class p x v1 ∧ same_class p v2 y) ∨ (same_class p x v2 ∧ same_class p v1 y)).
Proof.
  intros Hf Hv1 Hv2. unfold disjoint_set_merge_eclasses.
  eapply ensures_bind_mono; [by apply ds_find_ok|]. intros [p1 ?] (Hs1 & r1 & -> & Hr1).
  pose proof (same_roots_forest _ _ Hs1 Hf) as Hf1. pose proof (proj1 Hs1) as Hl1.
  eapply ensures_bind_mono; [apply (ds_find_ok p1 v2); [done | lia]|].
  intros [p2 ?] (Hs2 & r2 & -> & Hr2). apply (proj2 Hs1) in Hr2.
  pose proof (same_roots_trans _ _ _ Hs1 Hs2) as Hs. pose proof (proj1 Hs) as Hl.
  pose proof (same_roots_forest _ _ Hs2 Hf1) as Hf2.
  assert (Hcl : ∀ x y, (same_class p x v1 ∧ same_class p v2 y) ∨ (same_class p x v2 ∧ same_class p v1 y)
                ↔ (root p x r1 ∧ root p y r2) ∨ (root p x r2 ∧ root p y r1)).
  { intros x y. by rewrite !(same_class_root_r p v1 r1), !(same_class_root_r p v2 r2),
      !(same_class_root_l p v1 r1), !(same_class_root_l p v2 r2). }
  destruct (Z.eqb_spec (Z.of_nat r1) (Z.of_nat r2)) as [He|Hne]; simpl.
  { assert (r1 = r2) as <- by lia. split; [done|]. split; [done|]. intros x y.
    rewrite (same_class_roots p p2), Hcl by done. unfold same_class. naive_solver. }
  pose proof (root_is_root _ _ _ (proj2 (proj2 Hs _ _) Hr1)) as Hb1.
  pose proof (root_is_root _ _ _ (proj2 (proj2 Hs _ _) Hr2)) as Hb2.
  destruct (negb _); (eapply ensures_mono; [apply link_ok; [done..|lia]|]);
    intros p' (Hf' & Hl' & Hc'); split_and!; [done | lia | | done | lia |];
    intros x y; rewrite Hc', Hcl, (same_class_roots p p2), !(proj2 Hs) by done; tauto.
Qed.

(** ** The classes the clauses define *)

(** The equivalence generated by putting the members of each group together. *)
Inductive eqv (gs : list (list Z)) : Z → Z → Prop :=
| eqv_group g a b : g ∈ gs → a ∈ g → b ∈ g → eqv gs a b
| eqv_refl a : eqv gs a a
| eqv_sym a b : eqv gs a b → eqv gs b a
| eqv_trans a b c : eqv gs a b → eqv gs b c → eqv gs a c.

Lemma eqv_mono gs gs' a b :
  (∀ x y, (∃ g, g ∈ gs ∧ x ∈ g ∧ y ∈ g) → eqv gs' x y) → eqv gs a b → eqv gs' a b.
Proof. intros H. induction 1; eauto using eqv. Qed.

(** Adding [h] to the last group, which has the member [h3], joins two classes. *)
Lemma eqv_snoc gs g h h3 a b :
  h3 ∈ g →
  eqv (gs ++ [g ++ [h]]) a b ↔ eqv (gs ++ [g]) a b ∨
    (eqv (gs ++ [g]) a h ∧ eqv (gs ++ [g]) h3 b) ∨ (eqv (gs ++ [g]) a h3 ∧ eqv (gs ++ [g]) h b).
Proof.
  intros H3. set (E := eqv (gs ++ [g])).
  assert (Hg : ∀ x y, x ∈ g → y ∈ g → E x y).
  { intros x y Hx Hy. apply (eqv_group _ g); set_solver. }
  assert (Hs : ∀ x y, E x y → E y x) by apply eqv_sym.
  assert (Ht : ∀ x y z, E x y → E y z → E x z) by apply eqv_trans.
  assert (Hr : ∀ x, E x x) by apply eqv_refl.
  split.
  - induction 1 as [g' x y Hin Hx Hy|x|x y _ IH|x y z _ IH1 _ IH2]; [|auto|naive_solver|naive_solver].
    apply elem_of_app in Hin as [Hin|Hin%list_elem_of_singleton].
    + left. apply (eqv_group _ g'); set_solver.
    + subst g'. rewrite elem_of_app, list_elem_of_singleton in Hx, Hy. naive_solver.
  - assert (Hup : ∀ x y, E x y → eqv (gs ++ [g ++ [h]]) x y).
    { intros x y. apply eqv_mono. intros u v (g' & Hin & Hu & Hv).
      apply elem_of_app in Hin as [Hin|Hin%list_elem_of_singleton];
        [apply (eqv_group _ g') | subst; apply (eqv_group _ (g ++ [h]))]; set_solver. }
    assert (Hhh : eqv (gs ++ [g ++ [h]]) h h3) by (apply (eqv_group _ (g ++ [h])); set_solver).
    intros [?|[[? ?]|[? ?]]]; [by apply Hup|..].
    + apply (eqv_trans _ _ h), (eqv_trans _ _ h3); auto.
    + apply (eqv_trans _ _ h3), (eqv_trans _ _ h); auto. by apply eqv_sym.
Qed.

(** A new one-member group changes nothing. *)
Lemma eqv_singleton gs h a b : eqv (gs ++ [[h]]) a b ↔ eqv (gs ++ [[]]) a b.
Proof.
  split; apply eqv_mono; intros x y (g & Hin & Hx & Hy);
    apply elem_of_app in Hin as [Hin|Hin%list_elem_of_singleton]; subst;
    try (apply (eqv_group _ g); set_solver); [|set_solver].
  apply list_elem_of_singleton in Hx, Hy. subst. apply eqv_refl.
Qed.

Lemma eqv_nil_group gs a b : eqv (gs ++ [[]]) a b ↔ eqv gs a b.
Proof.
  split; apply eqv_mono; intros x y (g & Hin & Hx & Hy); [|apply (eqv_group _ g); set_solver].
  apply elem_of_app in Hin as [Hin|Hin%list_elem_of_singleton]; [by apply (eqv_group _ g)|].
  subst. set_solver.
Qed.

Lemma eqv_equiv gs gs' a b : (∀ g, g ∈ gs ↔ g ∈ gs') → eqv gs a b ↔ eqv gs' a b.
Proof.
  intros H. split; apply eqv_mono; intros x y (g & Hin & Hx & Hy); apply (eqv_group _ g);
    auto; by apply H.
Qed.

(** The forest over [ah] has the classes generated by [gs]. *)
Record classes (ah : list Z) (gs : list (list Z)) (p : list Z) : Prop := {
  cl_forest : forest p;
  cl_len : length p = length ah;
  cl_eqv i j a b : ah !! i = Some a → ah !! j = Some b → same_class p i j ↔ eqv gs a b
}.

Lemma classes_equiv ah gs gs' p :
  (∀ a b, eqv gs a b ↔ eqv gs' a b) → classes ah gs p → classes ah gs' p.
Proof. intros H [Hf Hl Hc]. split; [done | done|]. intros. rewrite <- H. eauto. Qed.

Definition arg_hashes (args : list node) : list Z :=
  map node_hash (filter (fun a => is_const a = false) args).

Lemma arg_hashes_snoc args a :
  arg_hashes (args ++ [a]) = arg_hashes args ++ if is_const a then [] else [node_hash a].
Proof.
  unfold arg_hashes. rewrite filter_app, map_app, filter_cons. by destruct (is_const a).
Qed.

(** The group of a clause. *)
Definition clause_group (c : node) : list Z := map node_hash (eq_clause_args c).

(** What [i3] is after the arguments with the hashes [g]. *)
Definition prev_arg (ah g : list Z) (i3 : Z) : Prop :=
  (i3 = -1 ∧ g = [])%Z ∨ ∃ i h, i3 = Z.of_nat i ∧ ah !! i = Some h ∧ h ∈ g.

Lemma join_arg_ok ah gs args a p i3 :
  ssorted ah → (is_const a = false → node_hash a ∈ ah) →
  classes ah (gs ++ [arg_hashes args]) p → prev_arg ah (arg_hashes args) i3 →
  ensures (join_arg ah a (p, i3)) (fun '(p', i3') =>
    classes ah (gs ++ [arg_hashes (args ++ [a])]) p' ∧ prev_arg ah (arg_hashes (args ++ [a])) i3').
Proof.
  intros Hs Hin Hc Hp. rewrite arg_hashes_snoc. unfold join_arg.
  destruct (is_const a) eqn:Ea; [simpl; by rewrite app_nil_r|].
  rewrite get_node_hash_ok. cbn [mbind res_bind]. specialize (Hin eq_refl).
  eapply ensures_bind_mono; [by apply get_id_ok|]. intros i2 [[_ ?]|(i & -> & Hi)]; [done|].
  assert (Hnew : prev_arg ah (arg_hashes args ++ [node_hash a]) (Z.of_nat i)).
  { right. exists i, (node_hash a). split; [done|]. split; [done|]. set_solver. }
  destruct Hp as [[-> Hnil]|(j & h3 & -> & Hj & H3)].
  - simpl. split; [|done]. rewrite Hnil in *. simpl.
    eapply classes_equiv; [|exact Hc]. intros. by rewrite eqv_singleton.
  - destruct (Z.eqb_spec (Z.of_nat j) (-1)); [lia|]. cbn [negb].
    pose proof (cl_len _ _ _ Hc) as Hl. apply lookup_lt_Some in Hi as Hil, Hj as Hjl.
    eapply ensures_bind_mono; [apply merge_ok; [apply Hc | lia | lia]|].
    intros p' (Hf' & Hl' & Hc'). split; [|done]. split; [done | lia|].
    intros x y u v Hu Hv. rewrite Hc', (eqv_snoc _ _ _ h3) by done.
    rewrite !(cl_eqv _ _ _ Hc _ _ _ _ Hu Hv), !(cl_eqv _ _ _ Hc _ _ _ _ Hu Hi), !(cl_eqv _ _ _ Hc _ _ _ _ Hu Hj),
      !(cl_eqv _ _ _ Hc _ _ _ _ Hi Hv), !(cl_eqv _ _ _ Hc _ _ _ _ Hj Hv). done.
Qed.

Lemma join_clause_ok ah gs c p :
  ssorted ah → (∀ h, h ∈ clause_group c → h ∈ ah) → classes ah gs p →
  ensures (join_clause ah c p) (classes ah (gs ++ [clause_group c])).
Proof.
  intros Hs Hin Hc. unfold join_clause.
  assert (Hnil : clause_group c = [] → classes ah (gs ++ [clause_group c]) p).
  { intros ->. eapply classes_equiv; [|exact Hc]. intros. by rewrite eqv_nil_group. }
  unfold clause_group, eq_clause_args in *. destruct (get_clause_args c) as [args|]; [|by apply Hnil].
  destruct (clause_is_eq_clause c); [|by apply Hnil].
  eapply ensures_bind_mono.
  - apply (ensures_foreach (fun dn st => classes ah (gs ++ [arg_hashes dn]) st.1 ∧
                                         prev_arg ah (arg_hashes dn) st.2)).
    + split; [|by left]. eapply classes_equiv; [|exact Hc]. intros. by rewrite eqv_nil_group.
    + intros dn a [p' i3] Ha [Hc' Hp']. eapply ensures_mono; [apply join_arg_ok; eauto|].
      * intros Ea. apply Hin. rewrite list_elem_of_In, in_map_iff. exists a. split; [done|].
        rewrite <- list_elem_of_In. by apply list_elem_of_filter.
      * by intros [p'' i3'].
  - intros [p' i3'] [Hc' _]. done.
Qed.

(** The forest built from the clauses has the classes they generate. *)
Lemma perform_eclasses_join_ok ah cl :
  ssorted ah → (∀ c h, c ∈ cl → h ∈ clause_group c → h ∈ ah) →
  ensures (perform_eclasses_join cl ah) (classes ah (map clause_group cl)).
Proof.
  intros Hs Hin. unfold perform_eclasses_join.
  apply (ensures_foreach (fun dn => classes ah (map clause_group dn))).
  - simpl.
    assert (Hr : ∀ v r, root (replicate (length ah) (-1)%Z) v r → v = r).
    { intros v r H. inversion H as [|? ? ? Hv]; [done|]. apply replicate_lookup_inv in Hv. lia. }
    split; [|by rewrite length_replicate|].
    + intros v Hv. rewrite length_replicate in Hv. exists v. constructor. by apply lookup_replicate.
    + intros i j a b Ha Hb. apply lookup_lt_Some in Ha as Hal. split.
      * intros (r & <-%Hr & <-%Hr). simplify_eq. apply eqv_refl.
      * intros H. assert (a = b) as <-.
        { clear -H. induction H as [g ? ? Hg| | |]; [set_solver|congruence..]. }
        rewrite (ssorted_inj _ _ _ _ Hs Ha Hb). exists j.
        split; constructor; apply lookup_replicate; split; auto; by eapply lookup_lt_Some.
  - intros dn c p Hc Hcl. rewrite map_app. apply join_clause_ok; eauto.
Qed.

(** ** Class hashes *)
Lemma mapM_res_Forall2 {A B} (f : A → res B) l :
  (∀ x, x ∈ l → ∃ y, f x = Ok y) → ∃ k, mapM f l = Ok k ∧ Forall2 (fun x y => f x = Ok y) l k.
Proof.
  induction l as [|x l IH]; intros H; simpl; [by exists []|].
  destruct (H x) as [y Hy]; [set_solver|]. destruct IH as (k & Hk & HF); [set_solver|].
  exists (y :: k). rewrite Hy, Hk. simpl. split; [done|]. by constructor.
Qed.

Lemma int_list_hash_total l : ∃ h, get_unordered_int_list_hash l = Ok h.
Proof.
  unfold get_unordered_int_list_hash, get_unsorted_unsafe_int_array_hash.
  destruct (ensures_inv _ _ (qsort_int_ok l)) as (s & -> & _). simpl. eauto.
Qed.

Lemma int_list_hash_perm l1 l2 :
  l1 ≡ₚ l2 → get_unordered_int_list_hash l1 = get_unordered_int_list_hash l2.
Proof.
  intros Hp. unfold get_unordered_int_list_hash, get_unsorted_unsafe_int_array_hash.
  by rewrite (qsort_int_perm l1 l2).
Qed.

(** The lists after the positions below [i]: those of each root. *)
Record class_lists (ah p : list Z) (i : nat) (lsts : list (list Z)) : Prop := {
  cls_len : length lsts = length ah;
  cls_nodup r l : lsts !! r = Some l → NoDup l;
  cls_elem r l : lsts !! r = Some l →
    ∀ h, h ∈ l ↔ ∃ k, k < i ∧ ah !! k = Some h ∧ root p k r
}.

Lemma class_list_step_ok ah p i p' lsts :
  ssorted ah → forest p → length p = length ah → i < length ah →
  same_roots p p' → class_lists ah p i lsts →
  ensures (class_list_step ah i (p', lsts)) (fun '(p'', lsts') =>
    same_roots p p'' ∧ class_lists ah p (S i) lsts').
Proof.
  intros Hs Hf Hl Hi Hsr [Hll Hnd Hel]. unfold class_list_step.
  eapply ensures_bind_mono.
  { apply ds_find_ok; [by eapply same_roots_forest | rewrite (proj1 Hsr); lia]. }
  intros [p'' r'] (Hsr' & r & -> & Hr). apply (proj2 Hsr) in Hr.
  apply ensures_bind, ensures_rd; [done|]. intros h Hh. rewrite rdz_nat.
  pose proof (root_lt _ _ _ Hr) as Hrl.
  apply ensures_bind, ensures_rd; [lia|]. intros l Hlr. rewrite wrz_nat.
  apply ensures_bind, ensures_wr; [lia|]. split; [by eapply same_roots_trans|].
  assert (Hk : ∀ k, k < i → ah !! k = Some h → False).
  { intros k Hk Hkh. pose proof (ssorted_inj _ _ _ _ Hs Hkh Hh). lia. }
  split; [by rewrite length_insert| |]; intros r2 l2 Hr2;
    (destruct (decide (r2 = r)) as [->|Hne];
       [rewrite list_lookup_insert_eq in Hr2 by lia; injection Hr2 as <-
       |rewrite list_lookup_insert_ne in Hr2 by done]).
  - apply NoDup_app. split; [by eapply Hnd|]. split; [|apply NoDup_singleton].
    intros x Hx ->%list_elem_of_singleton. apply (Hel r l Hlr h) in Hx as (k & ? & ? & _). eauto.
  - by eapply Hnd.
  - intros x. rewrite elem_of_app, list_elem_of_singleton, (Hel r l Hlr x). split.
    + intros [(k & ? & ? & ?)| ->]; [exists k; auto with lia | exists i; auto].
    + intros (k & Hki & Hkx & Hkr). destruct (decide (k = i)) as [->|]; [right; congruence|].
      left. exists k. auto with lia.
  - intros x. rewrite (Hel r2 l2 Hr2 x). split; intros (k & ? & ? & Hkr); exists k; [auto with lia|].
    split_and!; [|done|done]. destruct (decide (k = i)) as [->|]; [|lia].
    by rewrite (root_fun _ _ _ _ Hkr Hr) in Hne.
Qed.

Lemma class_hash_step_ok (ah p : list Z) i (p' e_hashes eh : list Z) :
  forest p → length p = length ah → length e_hashes = length ah → i < length ah → same_roots p p' →
  (length eh = i ∧ ∀ k r, k < i → root p k r → eh !! k = e_hashes !! r) →
  ensures (class_hash_step e_hashes i (p', eh)) (fun '(p'', eh') => same_roots p p'' ∧
    length eh' = S i ∧ ∀ k r, k < S i → root p k r → eh' !! k = e_hashes !! r).
Proof.
  intros Hf Hl Hel Hi Hsr [Hlen Heh]. unfold class_hash_step.
  eapply ensures_bind_mono.
  { apply ds_find_ok; [by eapply same_roots_forest | rewrite (proj1 Hsr); lia]. }
  intros [p'' r'] (Hsr' & r & -> & Hr). apply (proj2 Hsr) in Hr. rewrite rdz_nat.
  pose proof (root_lt _ _ _ Hr) as Hrl. apply ensures_bind, ensures_rd; [lia|]. intros e He.
  split; [by eapply same_roots_trans|]. split; [rewrite length_app; simpl; lia|].
  intros k r2 Hk Hkr. destruct (decide (k = i)) as [->|].
  - rewrite lookup_app_r, Hlen, Nat.sub_diag by lia. by rewrite (root_fun _ _ _ _ Hkr Hr), He.
  - rewrite lookup_app_l by lia. apply Heh; [lia | done].
Qed.

(** What [get_eclasses] promises: the increasing argument hashes, and for each
    the hash of its class in the equivalence the clauses generate. *)
Record eclasses_ok (cl : list node) (ah eh : list Z) : Prop := {
  ec_sorted : ssorted ah;
  ec_args h : h ∈ ah ↔ ∃ a, a ∈ clauselist_args cl ∧ h = node_hash a;
  ec_len : length eh = length ah;
  ec_hash i h e : ah !! i = Some h → eh !! i = Some e →
    ∃ cls, NoDup cls ∧ (∀ x, x ∈ cls ↔ x ∈ ah ∧ eqv (map clause_group cl) h x) ∧
           get_unordered_int_list_hash cls = Ok e
}.

Lemma clause_group_args cl c h :
  c ∈ cl → h ∈ clause_group c → ∃ a, a ∈ clauselist_args cl ∧ h = node_hash a.
Proof.
  intros Hc Hh. unfold clause_group in Hh. apply list_elem_of_fmap in Hh as (a & -> & Ha).
  exists a. split; [|done]. unfold clauselist_args. apply list_elem_of_In, in_concat.
  exists (eq_clause_args c). rewrite in_map_iff. setoid_rewrite <- list_elem_of_In. eauto.
Qed.

Lemma get_eclasses_ok cl :
  ensures (get_eclasses cl) (fun '(ah, eh) => eclasses_ok cl ah eh).
Proof.
  unfold get_eclasses. eapply ensures_bind_mono; [apply get_clauselist_args_ok|].
  intros ah [Hs Hargs].
  eapply ensures_bind_mono; [apply perform_eclasses_join_ok; [done|]|].
  { intros c h Hc Hh. apply Hargs. by eapply clause_group_args. }
  intros p [Hf Hl Hc].
  eapply ensures_bind_mono.
  { apply (ensures_for (fun i st => same_roots p st.1 ∧ class_lists ah p i st.2)); [lia| |].
    - split; [by split|]. split; simpl; [by rewrite length_replicate|..];
        intros r l; intros H; apply replicate_lookup_inv in H as [-> _];
        [constructor|]. intros h. split; [set_solver | intros (? & ? & _); lia].
    - intros i [p' lsts] Hi [Hsr Hcl]. eapply ensures_mono; [apply class_list_step_ok; eauto; lia|].
      by intros [p'' lsts']. }
  intros [p1 lsts] [Hsr1 [Hll Hnd Hel]]. simpl in *.
  destruct (mapM_res_Forall2 get_unordered_int_list_hash lsts) as (ehs & -> & HF).
  { intros; apply int_list_hash_total. }
  cbn [mbind res_bind]. pose proof (Forall2_length _ _ _ HF) as Hlen.
  eapply ensures_bind_mono.
  { apply (ensures_for (fun i st => same_roots p st.1 ∧ length st.2 = i ∧
             ∀ k r, k < i → root p k r → st.2 !! k = ehs !! r)); [lia | split; [done|split; [done|lia]] |].
    intros i [p' eh] Hi [Hsr Heh].
    eapply ensures_mono; [apply (class_hash_step_ok ah p); eauto; lia|]. by intros [p'' eh']. }
  intros [p2 eh] (_ & Hehl & Heh). simpl in *. split; [done | done | done|].
  intros i h e Hi He. apply lookup_lt_Some in Hi as Hil. destruct (Hf i ltac:(lia)) as [r Hr].
  rewrite (Heh i r Hil Hr) in He. destruct (Forall2_lookup_r _ _ _ _ _ HF He) as (cls & Hcls & Hh).
  exists cls. split; [by eapply Hnd|]. split; [|done]. intros x. rewrite (Hel r cls Hcls x). split.
  - intros (k & _ & Hk & Hkr). split; [by eapply list_elem_of_lookup_2|].
    apply (Hc i k); [done | done|]. by exists r.
  - intros [[k Hk]%list_elem_of_lookup Hx]. exists k. split; [by eapply lookup_lt_Some|].
    split; [done|]. apply (Hc i k) in Hx as (r' & Hr' & Hkr); [|done..].
    by rewrite (root_fun _ _ _ _ Hr Hr').
Qed.

(** The class hashes do not depend on the order of the clauses. *)
Lemma eclasses_ok_perm cl cl' ah eh ah' eh' :
  cl ≡ₚ cl' → eclasses_ok cl ah eh → eclasses_ok cl' ah' eh' → ah = ah' ∧ eh = eh'.
Proof.
  intros Hp [Hs Ha Hl Hh] [Hs' Ha' Hl' Hh'].
  assert (Hargs : ∀ a, a ∈ clauselist_args cl ↔ a ∈ clauselist_args cl').
  { intros a. unfold clauselist_args. by rewrite Hp. }
  assert (Hmem : ∀ h, h ∈ ah ↔ h ∈ ah') by (intros h; rewrite Ha, Ha'; by setoid_rewrite Hargs).
  assert (Hnd : ∀ l, ssorted l → NoDup l).
  { intros l Hsl. apply NoDup_alt. intros. by eapply ssorted_inj. }
  assert (ah = ah') as <-.
  { apply (StronglySorted_unique_strong Z.lt); [intros; lia | done | done|].
    by apply NoDup_Permutation; auto. }
  split; [done|]. apply list_eq_same_length with (length ah); [done | done|].
  intros i e e' Hi He He'. destruct (lookup_lt_is_Some_2 ah i Hi) as [h Hih].
  destruct (Hh i h e Hih He) as (c & Hnc & Hc & Hce), (Hh' i h e' Hih He') as (c' & Hnc' & Hc' & Hce').
  assert (c ≡ₚ c') as Hcc.
  { apply NoDup_Permutation; [done..|]. intros x. rewrite Hc, Hc'.
    rewrite (eqv_equiv (map clause_group cl) (map clause_group cl')); [done|].
    intros g. by rewrite Hp. }
  rewrite (int_list_hash_perm _ _ Hcc) in Hce. congruence.
Qed.

Lemma get_eclasses_perm cl cl' : cl ≡ₚ cl' → get_eclasses cl = get_eclasses cl'.
Proof.
  intros Hp. destruct (ensures_inv _ _ (get_eclasses_ok cl)) as ([ah eh] & -> & H).
  destruct (ensures_inv _ _ (get_eclasses_ok cl')) as ([ah' eh'] & -> & H').
  by destruct (eclasses_ok_perm _ _ _ _ _ _ Hp H H') as [-> ->].
Qed.

(** C15. [get_eclasses] returns for every clause list without leaving an array
    (so the recursive find terminates and the forest stays acyclic), the
    argument hashes are increasing and are those of the non-constant arguments
    of the equality clauses, and the class hash of an argument is the
    order-insensitive hash of its class in the least equivalence that relates
    the arguments of each clause. *)
Theorem get_eclasses_classes (cl : list node) :
  ensures (get_eclasses cl) (fun '(args_hash, eclass_hash) =>
    ssorted args_hash ∧
    (∀ h, h ∈ args_hash ↔ ∃ a, a ∈ clauselist_args cl ∧ get_node_hash a = Ok h) ∧
    length eclass_hash = length args_hash ∧
    ∀ i h e, args_hash !! i = Some h → eclass_hash !! i = Some e →
      ∃ cls, NoDup cls ∧ (∀ x, x ∈ cls ↔ x ∈ args_hash ∧ eqv (map clause_group cl) h x) ∧
             get_unordered_int_list_hash cls = Ok e).
Proof.
  eapply ensures_mono; [apply get_eclasses_ok|]. intros [ah eh] [Hs Ha Hl Hh].
  split_and!; auto. intros h. rewrite Ha. setoid_rewrite get_node_hash_ok. naive_solver.
Qed.

(** On an acyclic forest, joining two arguments joins exactly their two
    classes, keeps the forest acyclic and its size, and returns. *)
Theorem merge_joins_classes (p : list Z) (v1 v2 : nat) :
  forest p → v1 < length p → v2 < length p →
  ensures (disjoint_set_merge_eclasses p (Z.of_nat v1) (Z.of_nat v2)) (fun p' =>
    forest p' ∧ length p' = length p ∧
    ∀ x y, same_class p' x y ↔ same_class p x y ∨
      (same_class p x v1 ∧ same_class p v2 y) ∨ (same_class p x v2 ∧ same_class p v1 y)).
Proof. apply merge_ok. Qed.

Lemma merge_joins_classes_witness :
  disjoint_set_merge_eclasses [1; -1; -1; 2]%Z 0 3 = Ok [1; 2; -1; 2]%Z ∧
  ensures (disjoint_set_merge_eclasses [1; -1; -1; 2]%Z 0 3) forest.
Proof.
  split; [reflexivity|].
  eapply ensures_mono; [apply (merge_joins_classes [1; -1; -1; 2]%Z 0 3)|]; [|simpl; lia..|].
  - intros v Hv. simpl in Hv.
    assert (H1 : root [1; -1; -1; 2]%Z 1 1) by (by constructor).
    assert (H2 : root [1; -1; -1; 2]%Z 2 2) by (by constructor).
    destruct v as [|[|[|[|v]]]]; [exists 1 | exists 1 | exists 2 | exists 2 | lia]; try done;
      [by apply (root_step _ 0 1 1) | by apply (root_step _ 3 2 2)].
  - intros p' [Hf _]. exact Hf.
Defined.

(** The hash of a list of relation ids depends on the multiset of the ids
    only, and exists for every list. *)
Theorem relidslist_hash_order_insensitive (l1 l2 : list Z) :
  l1 ≡ₚ l2 → ∃ h, get_relidslist_hash l1 = Ok h ∧ get_relidslist_hash l2 = Ok h.
Proof.
  intros Hp. unfold get_relidslist_hash. rewrite (int_list_hash_perm _ _ Hp).
  destruct (int_list_hash_total l2) as [h ->]. by exists h.
Qed.

Lemma relidslist_hash_order_insensitive_witness :
  ∃ h, get_relidslist_hash [16384; 16390; 16387]%Z = Ok h ∧
       get_relidslist_hash [16387; 16384; 16390]%Z = Ok h.
Proof.
  apply relidslist_hash_order_insensitive.
  apply (Permutation_trans (l' := [16384; 16387; 16390]%Z));
    [apply perm_skip, perm_swap | apply perm_swap].
Defined.
