(* ===== verification/Fss.v ===== *)
(** * Fss: feature subspaces, [get_clause_hash] and [get_fss_for_object] of
      contrib/aqo/hash.c

    A relation with its clauses is mapped to a feature subspace: a hash that
    identifies it and the vector of the logarithms of the selectivities.  The
    main results: the hash and the features do not depend on the order of the
    clauses, the hash does not depend on the constants in them, and every
    array access stays inside its array. *)
From S2P Require Import Prelude Float64 HashAny Qsort Utils Nodes HashText HashEclass.
From stdpp Require Import sorting.

(** ** The code *)
Definition log_selectivity_lower_bound : double := d_of_Z (-30).

(** [makeNode(Param)] zeroes the node; only [paramid] is then set. *)
Definition class_param (arg_eclass : Z) : node := Param (mkParam 0 arg_eclass 0 0 0 0).

(** The body that [get_clause_hash] and [get_clause_hash2] share, with the
    node hash [nh] that tells them apart. *)
Definition clause_hash_by (nh : node → res Z) (clause : node) (args_hash eclass_hash : list Z)
  : res Z :=
  match get_clause_args clause with
  | None => nh clause
  | Some args =>
      args ← mapM (fun a =>
        h ← nh a;
        arg_eclass ← get_arg_eclass h args_hash eclass_hash;
        Ok (if negb (arg_eclass =? 0)%Z then class_param arg_eclass else a)) args;
      let cclause := set_clause_args clause args in
      if negb (clause_is_eq_clause clause) || has_consts args then nh cclause
      else a ← rd args 0; nh a
  end.

Definition get_clause_hash : node → list Z → list Z → res Z := clause_hash_by get_node_hash.
Definition get_clause_hash2 : node → list Z → list Z → res Z := clause_hash_by get_node_hash2.

Definition clause_has_consts (clause : node) : bool :=
  match get_clause_args clause with Some args => has_consts args | None => false end.

(** The loop over the selectivities: position [inverse_idx[i]] of both arrays. *)
Definition fill_feature `{Libm} (inverse_idx : list nat) (clause_hashes : list Z) (sel : double)
    (st : nat * list double * list Z) : res (nat * list double * list Z) :=
  let '(i, features, sorted_clauses) := st in
  j ← rd inverse_idx i;
  features ← wr features j (c_log sel);
  f ← rd features j;
  features ← (if dlt f log_selectivity_lower_bound then wr features j log_selectivity_lower_bound
              else Ok features);
  h ← rd clause_hashes i;
  sorted_clauses ← wr sorted_clauses j h;
  Ok (S i, features, sorted_clauses).

(** [for (j = i; j < n && sorted_clauses[j] == sorted_clauses[i]; ++j)] *)
Definition same_clause (n : nat) (sorted_clauses : list Z) (i j : nat) : res bool :=
  if j <? n then
    x ← rd sorted_clauses j; y ← rd sorted_clauses i; Ok (x =? y)%Z
  else Ok false.

Fixpoint count_group (fuel n : nat) (sorted_clauses : list Z) (has_const : list bool)
    (idx : list nat) (i j k : nat) : res (nat * nat) :=
  b ← same_clause n sorted_clauses i j;
  if (b : bool) then
    match fuel with
    | O => Err Fault_fuel
    | S fuel =>
        o ← rd idx j;
        c ← rd has_const o;
        count_group fuel n sorted_clauses has_const idx i (S j) (k + if (c : bool) then 1 else 0)
    end
  else Ok (j, k).

Fixpoint compact_group (fuel n : nat) (has_const : list bool) (idx : list nat) (i m k : nat)
    (sorted_clauses : list Z) (features : list double) (j sh : nat)
  : res (list Z * list double * nat * nat) :=
  b ← same_clause n sorted_clauses i j;
  if (b : bool) then
    match fuel with
    | O => Err Fault_fuel
    | S fuel =>
        o ← rd idx j;
        c ← rd has_const o;
        if (c : bool) || (k + 1 =? m - i) then
          f ← rd features j;
          features ← wr features (j - sh) f;
          h ← rd sorted_clauses j;
          sorted_clauses ← wr sorted_clauses (j - sh) h;
          compact_group fuel n has_const idx i m k sorted_clauses features (S j) sh
        else compact_group fuel n has_const idx i m k sorted_clauses features (S j) (S sh)
    end
  else Ok (sorted_clauses, features, j, sh).

(** The outer [for (i = 0; i < n;)]: one turn per group of equal hashes. *)
Fixpoint compact (fuel n : nat) (has_const : list bool) (idx : list nat)
    (sorted_clauses : list Z) (features : list double) (i sh : nat)
  : res (list Z * list double * nat) :=
  if i <? n then
    match fuel with
    | O => Err Fault_fuel
    | S fuel =>
        '(m, k) ← count_group n n sorted_clauses has_const idx i i 0;
        let old_sh := sh in
        '(sorted_clauses, features, j, sh) ←
          compact_group n n has_const idx i m k sorted_clauses features i sh;
        features ← on_range features (i - old_sh) (j - sh - (i - old_sh)) (qsort double_cmp);
        compact fuel n has_const idx sorted_clauses features j sh
    end
  else Ok (sorted_clauses, features, sh).

(** Returns [fss_hash] and [features]; [nfeatures] is their number.  [inv0]
    and [sc0] are the uninitialised blocks of [inverse_idx] and of
    [sorted_clauses]. *)
Definition get_fss_for_object `{Libm} (inv0 : list nat) (sc0 : list Z)
    (clauselist : list node) (selectivities : list double) (relidslist : list Z)
  : res (Z * list double) :=
  let n := length clauselist in
  '(args_hash, eclass_hash) ← get_eclasses clauselist;
  clause_hashes ← mapM (fun c => get_clause_hash c args_hash eclass_hash) clauselist;
  let has_const := map clause_has_consts clauselist in
  idx ← argsort int_cmp clause_hashes;
  inverse_idx ← inverse_permutation inv0 idx;
  '(_, features, sorted_clauses) ←
    foreach selectivities (fill_feature inverse_idx clause_hashes) (0, replicate n d0, sc0);
  '(sorted_clauses, features, sh) ← compact n n has_const idx sorted_clauses features 0 0;
  let nfeatures := n - sh in
  let features := take nfeatures features in
  let clauses_hash := get_int_array_hash (take nfeatures sorted_clauses) in
  let eclasses_hash := get_int_array_hash eclass_hash in
  relidslist_hash ← get_relidslist_hash relidslist;
  Ok (get_fss_hash clauses_hash eclasses_hash relidslist_hash, features).

(** ** What the compaction keeps *)

(** A clause of the list: its hash, whether it has a constant, its feature. *)
Record item : Type := mkItem { ihash : Z; iconst : bool; ifeat : double }.

Definition gcount (l : list item) (h : Z) : nat := length (filter (fun it => ihash it = h) l).
Definition kcount (l : list item) (h : Z) : nat :=
  length (filter (fun it => ihash it = h ∧ iconst it = true) l).

(** A clause is kept when it has a constant, or when it is the only one of
    those with its hash that has none. *)
Definition keep (l : list item) (it : item) : bool :=
  iconst it || (kcount l (ihash it) + 1 =? gcount l (ihash it)).

Definition kept (l : list item) : list item := filter (fun it => keep l it = true) l.

Lemma kept_perm l l' : l ≡ₚ l' → kept l ≡ₚ kept l'.
Proof.
  intros Hp. unfold kept. rewrite (list_filter_iff _ (fun it => keep l' it = true)).
  - by rewrite Hp.
  - intros it. unfold keep, gcount, kcount. by rewrite Hp.
Qed.

(** ** The loops *)
Section compaction.
(** The clauses in the order of [idx]: sorted by hash. *)
Context (items : list item) (has_const : list bool) (idx : list nat).
Context (Hidx : ∀ j it, items !! j = Some it → ∃ o, idx !! j = Some o ∧ has_const !! o = Some (iconst it)).

Notation n := (length items).

(** The arrays from position [j] on are still the original ones. *)
Definition rest_ok (j : nat) (sc : list Z) (fs : list double) : Prop :=
  length sc = n ∧ length fs = n ∧
  ∀ k it, j ≤ k → items !! k = Some it → sc !! k = Some (ihash it) ∧ fs !! k = Some (ifeat it).

(** [items] is [A], a group [R] with the hash [h], and the rest [B]. *)
Definition group_at (A R B : list item) (h : Z) : Prop :=
  items = A ++ R ++ B ∧ Forall (fun it => ihash it = h) R ∧
  (∀ it B', B = it :: B' → ihash it ≠ h).

Lemma same_clause_ok A R1 R2 B h sc fs :
  group_at A (R1 ++ R2) B h → R1 ++ R2 ≠ [] → rest_ok (length A + length R1) sc fs →
  sc !! length A = Some h →
  same_clause n sc (length A) (length A + length R1) =
    Ok (match R2 with [] => false | _ => true end).
Proof.
  intros (Hit & HR & HB) Hne (Hls & Hlf & Hrest) Hh. unfold same_clause.
  assert (Hlen : n = length A + (length R1 + length R2 + length B)).
  { rewrite Hit, !length_app. lia. }
  assert (Hlk : ∀ it t, R2 ++ B = it :: t → sc !! (length A + length R1) = Some (ihash it)).
  { intros it t Ht. apply Hrest; [done|]. rewrite Hit, lookup_app_r by lia. rewrite <- (assoc_L (++)).
    rewrite lookup_app_r by lia. rewrite Ht.
    by replace (length A + length R1 - length A - length R1) with 0 by lia. }
  destruct (Nat.ltb_spec (length A + length R1) n) as [Hlt|Hge].
  - destruct R2 as [|it R2].
    + destruct B as [|it B]; [simpl in *; lia|].
      rewrite (rd_some _ _ _ (Hlk it B eq_refl)), (rd_some _ _ _ Hh). cbn [mbind res_bind].
      f_equal. apply Z.eqb_neq. by eapply HB.
    + rewrite (rd_some _ _ _ (Hlk it (R2 ++ B) eq_refl)), (rd_some _ _ _ Hh). cbn [mbind res_bind].
      f_equal. apply Z.eqb_eq. rewrite Forall_app, Forall_cons in HR. naive_solver.
  - destruct R2; [done|]. simpl in *. lia.
Qed.

Lemma group_at_shift A R1 it R2 B h :
  group_at A (R1 ++ it :: R2) B h → group_at A ((R1 ++ [it]) ++ R2) B h.
Proof. by rewrite <- (assoc_L (++) R1). Qed.

Lemma group_lookup A R1 it R2 B h :
  group_at A (R1 ++ it :: R2) B h → items !! (length A + length R1) = Some it ∧ ihash it = h.
Proof.
  intros (-> & HR & _). split.
  - rewrite lookup_app_r by lia. rewrite <- (assoc_L (++)), lookup_app_r by lia.
    by replace (length A + length R1 - length A - length R1) with 0 by lia.
  - rewrite Forall_app, Forall_cons in HR. naive_solver.
Qed.

Lemma rest_ok_weaken j j' sc fs : j ≤ j' → rest_ok j sc fs → rest_ok j' sc fs.
Proof. intros Hj (? & ? & H). split; [done|]. split; [done|]. intros. apply H; [lia | done]. Qed.

Lemma count_group_ok fuel A R1 R2 B h sc fs k :
  group_at A (R1 ++ R2) B h → R1 ++ R2 ≠ [] → rest_ok (length A) sc fs →
  sc !! length A = Some h → length R2 ≤ fuel →
  count_group fuel n sc has_const idx (length A) (length A + length R1) k =
    Ok (length A + length (R1 ++ R2), k + length (filter (fun it => iconst it = true) R2)).
Proof.
  revert R1 k fuel. induction R2 as [|it R2 IH]; intros R1 k fuel Hg Hne Hrest Hh Hf.
  - assert (Hsc := same_clause_ok A R1 [] B h sc fs Hg Hne (rest_ok_weaken _ (length A + length R1) _ _ (Nat.le_add_r _ _) Hrest) Hh).
    destruct fuel; cbn [count_group]; rewrite Hsc; cbn [mbind res_bind];
      by rewrite app_nil_r, Nat.add_0_r.
  - assert (Hsc := same_clause_ok A R1 (it :: R2) B h sc fs Hg Hne (rest_ok_weaken _ (length A + length R1) _ _ (Nat.le_add_r _ _) Hrest) Hh).
    destruct fuel as [|fuel]; simpl in Hf; [lia|]. cbn [count_group]. rewrite Hsc. cbn [mbind res_bind].
    destruct (group_lookup _ _ _ _ _ _ Hg) as [Hit _].
    destruct (Hidx _ _ Hit) as (o & Ho & Hc).
    rewrite (rd_some _ _ _ Ho). cbn [mbind res_bind]. rewrite (rd_some _ _ _ Hc). cbn [mbind res_bind].
    specialize (IH (R1 ++ [it]) (k + if iconst it then 1 else 0) fuel (group_at_shift _ _ _ _ _ _ Hg)
                  ltac:(by destruct R1) Hrest Hh ltac:(lia)).
    rewrite length_app in IH. simpl in IH.
    replace (length A + (length R1 + 1)) with (S (length A + length R1)) in IH by lia.
    rewrite IH. rewrite !length_app, filter_cons. simpl. f_equal. f_equal; [lia|].
    destruct (iconst it); case_decide; simpl; try done; lia.
Qed.

(** The compaction of a group: [P] and [Q] are what the earlier groups left. *)
Lemma compact_group_ok fuel A R1 R2 B h m k (kp : item → bool) P Q sc fs sh :
  (∀ it, kp it = iconst it || (k + 1 =? m - length A)) →
  group_at A (R1 ++ R2) B h → R1 ++ R2 ≠ [] → length R2 ≤ fuel →
  let j := length A + length R1 in
  let K := filter (fun it => kp it = true) R1 in
  rest_ok j sc fs → sc !! length A = Some h → sh + length (P ++ map ihash K) = j →
  length P = length Q →
  take (j - sh) sc = P ++ map ihash K → take (j - sh) fs = Q ++ map ifeat K →
  ensures (compact_group fuel n has_const idx (length A) m k sc fs j sh) (fun '(sc', fs', j', sh') =>
    let K' := filter (fun it => kp it = true) (R1 ++ R2) in
    j' = length A + length (R1 ++ R2) ∧ rest_ok j' sc' fs' ∧
    sh' + length (P ++ map ihash K') = j' ∧
    take (j' - sh') sc' = P ++ map ihash K' ∧ take (j' - sh') fs' = Q ++ map ifeat K').
Proof.
  intros Hkp. revert R1 fuel sc fs sh.
  induction R2 as [|it R2 IH]; intros R1 fuel sc fs sh Hg Hne Hf j K Hrest Hh Hsh HPQ Hsc Hfs.
  - assert (Hsm := same_clause_ok A R1 [] B h sc fs Hg Hne Hrest Hh).
    subst j K. destruct fuel; cbn [compact_group]; rewrite Hsm; cbn [mbind res_bind ensures];
      rewrite app_nil_r; split_and!; auto; lia.
  - assert (Hsm := same_clause_ok A R1 (it :: R2) B h sc fs Hg Hne Hrest Hh).
    destruct fuel as [|fuel]; simpl in Hf; [lia|]. cbn [compact_group]. subst j.
    rewrite Hsm. cbn [mbind res_bind].
    destruct (group_lookup _ _ _ _ _ _ Hg) as [Hit Hih].
    destruct (Hidx _ _ Hit) as (o & Ho & Hc).
    rewrite (rd_some _ _ _ Ho). cbn [mbind res_bind]. rewrite (rd_some _ _ _ Hc). cbn [mbind res_bind].
    assert (HK : filter (fun it => kp it = true) (R1 ++ [it]) = K ++ if kp it then [it] else []).
    { rewrite filter_app, filter_cons. by destruct (kp it). }
    destruct (proj2 (proj2 Hrest) _ _ (Nat.le_refl _) Hit) as [Hsj Hfj].
    apply group_at_shift in Hg.
    specialize (IH (R1 ++ [it]) fuel). rewrite HK, length_app in IH. simpl in IH.
    rewrite <- (assoc_L (++) R1 [it] R2) in IH.
    replace (length A + (length R1 + 1)) with (S (length A + length R1)) in IH by lia.
    pose proof (proj1 Hrest) as Hls. pose proof (proj1 (proj2 Hrest)) as Hlf.
    apply lookup_lt_Some in Hit as Hjn.
    rewrite <- Hkp. destruct (kp it) eqn:Ekp.
    + rewrite (rd_some _ _ _ Hfj). cbn [mbind res_bind]. apply ensures_bind, ensures_wr; [lia|].
      rewrite (rd_some _ _ _ Hsj). cbn [mbind res_bind]. apply ensures_bind, ensures_wr; [lia|].
      apply IH.
      * by rewrite (assoc_L (++)).
      * by destruct R1.
      * lia.
      * split_and!; [by rewrite length_insert..|]. intros q it' Hq Hq'.
        rewrite !list_lookup_insert_ne by lia. apply Hrest; [lia | done].
      * destruct (decide (length A + length R1 - sh = length A)) as [->|].
        -- rewrite list_lookup_insert_eq by lia. by rewrite Hih.
        -- by rewrite list_lookup_insert_ne by done.
      * rewrite map_app, !length_app in *. simpl. lia.
      * done.
      * replace (S (length A + length R1) - sh) with (S (length A + length R1 - sh)) by lia.
        rewrite take_snoc_insert, Hsc, map_app, (assoc_L (++)) by lia. done.
      * replace (S (length A + length R1) - sh) with (S (length A + length R1 - sh)) by lia.
        rewrite take_snoc_insert, Hfs, map_app, (assoc_L (++)) by lia. done.
    + rewrite app_nil_r in IH. apply IH.
      * by rewrite (assoc_L (++)).
      * by destruct R1.
      * lia.
      * eapply rest_ok_weaken; [|done]. lia.
      * done.
      * lia.
      * done.
      * replace (S (length A + length R1) - S sh) with (length A + length R1 - sh) by lia. done.
      * replace (S (length A + length R1) - S sh) with (length A + length R1 - sh) by lia. done.
Qed.

(** *** The features of the kept clauses *)

(** [F] are the features of [K], ordered inside each group of equal hashes. *)
Definition group_sorted (hs : list Z) (F : list double) : Prop :=
  ∀ i j h x y, i < j → hs !! i = Some h → hs !! j = Some h → F !! i = Some x → F !! j = Some y →
    cle double_cmp x y.

Record feats_ok (K : list item) (F : list double) : Prop := {
  fo_len : length F = length K;
  fo_perm : zip (map ihash K) F ≡ₚ map (fun it => (ihash it, ifeat it)) K;
  fo_sorted P : CmpOrder double_cmp P → Forall P (map ifeat items) → group_sorted (map ihash K) F
}.

Lemma zip_const {A B} (h : A) (l : list B) : zip (replicate (length l) h) l = map (pair h) l.
Proof. induction l; simpl; congruence. Qed.

Lemma map_ihash_group (R : list item) h :
  Forall (fun it => ihash it = h) R → map ihash R = replicate (length R) h.
Proof. induction 1; simpl; congruence. Qed.

Lemma feats_ok_app K R F F' h :
  feats_ok K F → Forall (fun it => ihash it = h) R → (∀ it, it ∈ K → ihash it ≠ h) →
  (∀ it, it ∈ R → it ∈ items) → sort_ok double_cmp (map ifeat R) F' → feats_ok (K ++ R) (F ++ F').
Proof.
  intros [Hl Hp Hs] HR HK Hin [Hp' Hs'].
  assert (Hl' : length F' = length R) by (rewrite Hp'; apply length_map).
  pose proof (map_ihash_group R h HR) as Hmap. split.
  - rewrite !length_app. lia.
  - rewrite map_app, zip_with_app by (rewrite length_map; lia). rewrite Hp, map_app. f_equiv.
    rewrite Hmap, <- Hl', zip_const, Hp'. rewrite map_map.
    assert (map (fun x => (h, ifeat x)) R = map (fun it => (ihash it, ifeat it)) R) as ->; [|done].
    clear -HR. induction HR; simpl; congruence.
  - intros P HP HF i j g x y Hij Hi Hj Hx Hy. rewrite map_app in Hi, Hj.
    assert (HlK : length (map ihash K) = length F) by (rewrite length_map; lia).
    destruct (decide (j < length F)) as [Hjl|Hjl].
    { rewrite lookup_app_l in Hi, Hj by lia. rewrite lookup_app_l in Hx, Hy by lia. by apply (Hs P HP HF i j g). }
    rewrite (lookup_app_r _ _ j) in Hj by lia. rewrite Hmap in Hj.
    apply replicate_lookup_inv in Hj as [-> _].
    destruct (decide (i < length F)) as [Hil|Hil].
    { rewrite lookup_app_l in Hi by lia. apply list_elem_of_lookup_2, list_elem_of_fmap in Hi as (it & Hh & Hit).
      by specialize (HK it Hit). }
    rewrite lookup_app_r in Hx, Hy by lia.
    assert (Hsort : sorted double_cmp F').
    { apply (Hs' P); [done|]. rewrite Forall_forall in HF |- *. intros z Hz. apply HF.
      apply list_elem_of_fmap in Hz as (it & -> & Hit). apply list_elem_of_fmap. eauto. }
    clear -Hsort Hx Hy Hij Hil. revert Hx Hy.
    assert (i - length F < j - length F) as Hlt by lia. revert Hlt.
    generalize (i - length F) as a, (j - length F) as b. clear -Hsort.
    induction Hsort as [|z l Hs IH Hz]; intros a b Hab Ha Hb; [done|].
    destruct b as [|b]; [lia|]. destruct a as [|a]; simpl in *.
    + simplify_eq. by eapply Forall_lookup in Hz.
    + apply (IH a b); [lia | done | done].
Qed.

Lemma group_counts A R B h :
  group_at A R B h → (∀ it, it ∈ A → ihash it ≠ h) → (∀ it, it ∈ B → ihash it ≠ h) →
  gcount items h = length R ∧ kcount items h = length (filter (fun it => iconst it = true) R).
Proof.
  intros (Hit & HR & _) HA HB. rewrite Forall_forall in HR. unfold gcount, kcount. rewrite Hit, !filter_app.
  rewrite (filter_none _ A) by naive_solver. rewrite (filter_none _ B) by naive_solver.
  rewrite (filter_none _ A) by naive_solver. rewrite (filter_none _ B) by naive_solver.
  rewrite !app_nil_r. simpl. split; [by rewrite filter_all|].
  f_equal. apply filter_iff_in. naive_solver.
Qed.

Lemma split_group (l : list item) h :
  ∃ R B, l = R ++ B ∧ Forall (fun it => ihash it = h) R ∧ (∀ it B', B = it :: B' → ihash it ≠ h).
Proof.
  induction l as [|it l IH]; [exists [], []; naive_solver|].
  destruct (decide (ihash it = h)) as [Hh|Hh].
  - destruct IH as (R & B & -> & HR & HB). exists (it :: R), B. split; [done|]. split; [by constructor | done].
  - exists [], (it :: l). naive_solver.
Qed.
(** *** The whole compaction *)
Definition by_hash : list item → Prop := StronglySorted (fun a b => (ihash a ≤ ihash b)%Z).

Lemma by_hash_app l1 l2 : by_hash (l1 ++ l2) → ∀ a b, a ∈ l1 → b ∈ l2 → (ihash a ≤ ihash b)%Z.
Proof. intros (H & _ & _)%StronglySorted_app. by apply H. Qed.

Lemma by_hash_filter (kp : item → bool) l : by_hash l → by_hash (filter (fun it => kp it = true) l).
Proof.
  intros Hby. induction Hby as [|it l Hby IH Hall]; [constructor|]. rewrite filter_cons.
  case_decide; [|done]. constructor; [done|]. rewrite Forall_forall in Hall |- *.
  intros x [_ Hx]%list_elem_of_filter. auto.
Qed.

(** The clauses after a group boundary start with a whole group. *)
Lemma next_group A b0 B0 :
  by_hash items → items = A ++ b0 :: B0 → (∀ a b, a ∈ A → b ∈ b0 :: B0 → ihash a ≠ ihash b) →
  ∃ R B, B0 = R ++ B ∧ group_at A (b0 :: R) B (ihash b0) ∧
    (∀ it, it ∈ A → ihash it ≠ ihash b0) ∧ (∀ it, it ∈ B → ihash it ≠ ihash b0).
Proof.
  intros Hsort Hit HAB. destruct (split_group B0 (ihash b0)) as (R & B & -> & HR & HB).
  exists R, B. split; [done|]. split; [by repeat split; auto|]. split.
  { intros it Hi. apply HAB; set_solver. }
  intros it Hi. destruct B as [|b1 B]; [set_solver|]. pose proof (HB b1 B eq_refl) as Hne.
  change (b0 :: R ++ b1 :: B) with ((b0 :: R) ++ b1 :: B) in Hit.
  rewrite Hit in Hsort. apply StronglySorted_app in Hsort as (_ & _ & Hsort).
  pose proof (by_hash_app _ _ Hsort b0 b1 ltac:(set_solver) ltac:(set_solver)) as Hle.
  apply StronglySorted_app in Hsort as (_ & _ & Hsort). inversion Hsort as [|? ? _ Hall]; subst.
  rewrite Forall_forall in Hall. apply elem_of_cons in Hi as [->|Hi]; [done|].
  specialize (Hall it Hi). lia.
Qed.

(** Sorting a block that ends at or before [j] leaves the rest alone. *)
Lemma rest_ok_block j sc (F G F' T : list double) :
  length F' = length G → length F + length G ≤ j →
  rest_ok j sc (F ++ G ++ T) → rest_ok j sc (F ++ F' ++ T).
Proof.
  intros Hl Hj (H1 & H2 & H3). split; [done|]. rewrite !length_app in *. split; [lia|].
  intros k it Hk Hki. destruct (H3 k it Hk Hki) as [H4 H5]. split; [done|]. rewrite <- H5.
  rewrite !(lookup_app_r F) by lia. rewrite (lookup_app_r F'), (lookup_app_r G) by lia. by rewrite Hl.
Qed.

(** The state between two groups: [A] is done, [sh] of its clauses were dropped. *)
Record boundary (A : list item) (sc : list Z) (fs : list double) (sh : nat) : Prop := {
  bd_rest : rest_ok (length A) sc fs;
  bd_sh : sh + length (filter (fun it => keep items it = true) A) = length A;
  bd_sc : take (length A - sh) sc = map ihash (filter (fun it => keep items it = true) A);
  bd_fs : feats_ok (filter (fun it => keep items it = true) A) (take (length A - sh) fs)
}.

(** One turn of the outer loop. *)
Lemma compact_turn_ok A R B h sc fs sh :
  group_at A R B h → R ≠ [] → (∀ it, it ∈ A → ihash it ≠ h) → (∀ it, it ∈ B → ihash it ≠ h) →
  boundary A sc fs sh →
  ensures ('(m, k) ← count_group n n sc has_const idx (length A) (length A) 0;
           '(sc, fs, j, sh') ← compact_group n n has_const idx (length A) m k sc fs (length A) sh;
           fs ← on_range fs (length A - sh) (j - sh' - (length A - sh)) (qsort double_cmp);
           Ok (sc, fs, j, sh'))
    (fun '(sc', fs', j, sh') => j = length (A ++ R) ∧ boundary (A ++ R) sc' fs' sh').
Proof.
  intros Hg Hne HinA HinB [Hrest Hsh Hsc Hfs]. pose proof Hg as (Hit & HR & _).
  rewrite Forall_forall in HR. destruct (group_counts A R B h Hg HinA HinB) as [Hgc Hkc].
  assert (Hn : length A + length R ≤ n) by (rewrite Hit, !length_app; lia).
  assert (Hh : sc !! length A = Some h).
  { destruct R as [|r R]; [done|]. destruct (group_lookup A [] r R B h Hg) as [Hl <-].
    rewrite Nat.add_0_r in Hl. by apply (proj2 (proj2 Hrest)). }
  pose proof (count_group_ok n A [] R B h sc fs 0 Hg Hne Hrest Hh) as Hcount.
  rewrite Nat.add_0_r in Hcount. rewrite Hcount by lia. clear Hcount.
  cbn [mbind res_bind]. simpl app in *. rewrite Nat.add_0_l, <- Hkc, <- Hgc.
  set (kp := fun it => iconst it || (kcount items h + 1 =? length A + gcount items h - length A)).
  set (K := filter _ A) in *. set (KR := filter (fun it => keep items it = true) R).
  assert (HK' : filter (fun it => kp it = true) R = KR).
  { apply filter_iff_in. intros it Hin. unfold kp, keep. rewrite (HR it Hin).
    by replace (length A + gcount items h - length A) with (gcount items h) by lia. }
  assert (HFlen : length (take (length A - sh) fs) = length A - sh).
  { rewrite (fo_len _ _ Hfs). fold K. lia. }
  eapply ensures_bind_mono.
  { pose proof (compact_group_ok n A [] R B h (length A + gcount items h) (kcount items h) kp
      (map ihash K) (take (length A - sh) fs) sc fs sh) as Hcg.
    simpl app in Hcg. cbn [length] in Hcg. rewrite Nat.add_0_r, !app_nil_r in Hcg.
    apply Hcg; auto; rewrite ?length_map; lia. }
  intros [[[sc' fs'] j'] sh'] (Hj' & Hrest' & Hsh' & Hsc' & Hfs').
  rewrite HK' in *. rewrite !length_app, !length_map in Hsh'.
  rewrite <- (take_drop (j' - sh') fs'), Hfs', <- (assoc_L (++)) in Hrest' |- *.
  eapply ensures_bind_mono; [apply on_range_app; [done | rewrite length_map; lia | apply qsort_ok]|].
  intros fs2 (F' & -> & HF').
  assert (HlenF' : length F' = length (map ifeat KR)) by apply (Permutation_length (proj1 HF')).
  assert (HlA : length (A ++ R) = j') by (rewrite length_app; lia).
  split; [done|]. split; rewrite ?HlA, ?filter_app; fold K KR; rewrite ?length_app, ?map_app.
  - eapply rest_ok_block; [exact HlenF' | rewrite length_map; lia | done].
  - lia.
  - by rewrite Hsc'.
  - rewrite length_map in HlenF'. rewrite (assoc_L (++)), take_app_length' by (rewrite length_app; lia).
    apply (feats_ok_app _ _ _ _ h); [done | | | | done].
    + apply Forall_forall. intros it [_ Hi]%list_elem_of_filter. auto.
    + intros it [_ Hi]%list_elem_of_filter. auto.
    + intros it [_ Hi]%list_elem_of_filter. rewrite Hit. set_solver.
Qed.

Lemma compact_ok fuel A B sc fs sh :
  by_hash items → items = A ++ B → (∀ a b, a ∈ A → b ∈ B → ihash a ≠ ihash b) → length B ≤ fuel →
  boundary A sc fs sh →
  ensures (compact fuel n has_const idx sc fs (length A) sh) (fun '(sc', fs', sh') =>
    boundary items sc' fs' sh').
Proof.
  intros Hsort. revert A B sc fs sh.
  induction fuel as [|fuel IH]; intros A B sc fs sh Hit HAB Hf Hbd.
  { destruct B; [|simpl in *; lia]. rewrite app_nil_r in Hit. cbn [compact].
    rewrite <- Hit, Nat.ltb_irrefl. subst A. done. }
  cbn [compact]. destruct B as [|b0 B0].
  { rewrite app_nil_r in Hit. rewrite <- Hit, Nat.ltb_irrefl. subst A. done. }
  destruct (Nat.ltb_spec (length A) n) as [_|Hge];
    [|rewrite Hit, length_app in Hge; simpl in Hge; lia].
  destruct (next_group A b0 B0 Hsort Hit HAB) as (R & B & -> & Hg & HinA & HinB).
  pose proof (compact_turn_ok A (b0 :: R) B (ihash b0) sc fs sh Hg ltac:(done) HinA HinB Hbd) as Ht.
  destruct (count_group _ _ _ _ _ _ _ _) as [[m k]|]; [|done]. cbn [mbind res_bind] in *.
  destruct (compact_group _ _ _ _ _ _ _ _ _ _ _) as [[[[sc1 fs1] j] sh1]|]; [|done].
  cbn [mbind res_bind] in *.
  destruct (on_range _ _ _ _) as [fs2|]; [|done]. cbn [mbind res_bind ensures] in *.
  destruct Ht as [-> Hbd']. apply (IH _ B); [by rewrite <- (assoc_L (++)) | | | done].
  - intros a b [Ha|Ha]%elem_of_app Hb; [apply HAB; set_solver|].
    destruct Hg as (_ & HR & _). rewrite Forall_forall in HR. rewrite (HR a Ha).
    intros E. by apply (HinB b Hb).
  - simpl in Hf. rewrite length_app in Hf. lia.
Qed.
End compaction.

(** ** Reading off the whole function *)
Section fss.
Context `{Libm}.

Definition feature_of (sel : double) : double :=
  if dlt (c_log sel) log_selectivity_lower_bound then log_selectivity_lower_bound else c_log sel.

(** The clauses in the order of the list. *)
Definition raw_items (hs : list Z) (cl : list node) (sels : list double) : list item :=
  zip_with (fun hc s => mkItem hc.1 (clause_has_consts hc.2) (feature_of s)) (zip hs cl) sels.

Lemma fill_feature_ok inv hs n i fs sc sel :
  length fs = n → length sc = n → length hs = n → length inv = n → i < n →
  (∀ i j, inv !! i = Some j → j < n) →
  ensures (fill_feature inv hs sel (i, fs, sc)) (fun '(i', fs', sc') =>
    i' = S i ∧ ∃ j h, inv !! i = Some j ∧ hs !! i = Some h ∧
      fs' = <[j := feature_of sel]> fs ∧ sc' = <[j := h]> sc).
Proof.
  intros Hf Hs Hh Hi Hin Hlt. unfold fill_feature.
  apply ensures_bind, ensures_rd; [lia|]. intros j Hj. specialize (Hlt i j Hj).
  apply ensures_bind, ensures_wr; [lia|].
  rewrite (rd_some _ _ (c_log sel)) by (apply list_lookup_insert_eq; lia). cbn [mbind res_bind].
  assert (Hw : (if dlt (c_log sel) log_selectivity_lower_bound
                then wr (<[j:=c_log sel]> fs) j log_selectivity_lower_bound
                else Ok (<[j:=c_log sel]> fs)) = Ok (<[j := feature_of sel]> fs)).
  { unfold feature_of. destruct (dlt _ _); [|done].
    rewrite wr_lt by (rewrite length_insert; lia). by rewrite list_insert_insert_eq. }
  rewrite Hw. cbn [mbind res_bind].
  apply ensures_bind, ensures_rd; [lia|]. intros h Hhi. apply ensures_bind, ensures_wr; [lia|].
  split; [done|]. exists j, h. done.
Qed.

Lemma fill_ok (idx inv : list nat) (hs : list Z) (sels : list double) (sc0 : list Z) n :
  length hs = n → length sels = n → length sc0 = n → length inv = n →
  (∀ i j, idx !! i = Some j ↔ inv !! j = Some i) → (∀ i j, inv !! i = Some j → j < n) →
  ensures (foreach sels (fill_feature inv hs) (0, replicate n d0, sc0)) (fun '(_, fs, sc) =>
    length fs = n ∧ length sc = n ∧
    ∀ j o h s, idx !! j = Some o → hs !! o = Some h → sels !! o = Some s →
      sc !! j = Some h ∧ fs !! j = Some (feature_of s)).
Proof.
  intros Hh Hs Hsc Hi Hinv Hlt. eapply ensures_mono.
  { apply (ensures_foreach_prefix (fun dn st => let '(i, fs, sc) := st in
      i = length dn ∧ length fs = n ∧ length sc = n ∧
      ∀ j o h s, o < length dn → inv !! o = Some j → hs !! o = Some h → sels !! o = Some s →
        sc !! j = Some h ∧ fs !! j = Some (feature_of s))).
    { split; [done|]. rewrite length_replicate. split; [done|]. split; [done|]. simpl. lia. }
    intros pre x rest [[i fs] sc] Hpre (-> & Hf & Hc & IHf).
    assert (Hx : sels !! length pre = Some x) by (rewrite Hpre; apply lookup_mid).
    apply lookup_lt_Some in Hx as Hxl.
    eapply ensures_mono; [apply (fill_feature_ok _ _ n); auto; lia|].
    intros [[i' fs'] sc'] (-> & j & h & Hj & Hhi & -> & ->).
    rewrite length_app, !length_insert. simpl. split; [lia|]. split; [done|]. split; [done|].
    intros j2 o h2 s2 Ho Hj2 Hh2 Hs2. destruct (decide (o = length pre)) as [->|Hne].
    - simplify_eq. pose proof (Hlt _ _ Hj). rewrite !list_lookup_insert_eq by lia. done.
    - assert (j ≠ j2). { intros ->. apply Hinv in Hj, Hj2. congruence. }
      rewrite !list_lookup_insert_ne by done. eapply IHf; eauto. lia. }
  intros [[i fs] sc] (_ & Hf & Hc & Hall). split; [done|]. split; [done|].
  intros j o h s Ho Hho Hso. eapply Hall; eauto; [by eapply lookup_lt_Some | by apply Hinv].
Qed.

(** An equality clause has an argument. *)
Definition clause_ok (c : node) : Prop := clause_is_eq_clause c = true → get_clause_args c ≠ Some [].

Lemma get_arg_eclass_total h ah eh :
  ssorted ah → length eh = length ah → ∃ e, get_arg_eclass h ah eh = Ok e.
Proof.
  intros Hs Hl. unfold get_arg_eclass.
  destruct (ensures_inv _ _ (get_id_ok h ah Hs)) as (d & -> & [[-> _]|(i & -> & Hi)]);
    cbn [mbind res_bind]; [eauto|].
  destruct (Z.eqb_spec (Z.of_nat i) (-1)); [lia|]. apply lookup_lt_Some in Hi. rewrite rdz_nat.
  destruct (rd_lt eh i ltac:(lia)) as (x & _ & ->). eauto.
Qed.

Lemma clause_hash_by_total nh cl ah eh c :
  (∀ n, ∃ h, nh n = Ok h) → eclasses_ok cl ah eh → clause_ok c → ∃ h, clause_hash_by nh c ah eh = Ok h.
Proof.
  intros Hnh [Hs _ Hl _] Hok. unfold clause_hash_by. destruct (get_clause_args c) as [args|] eqn:Ea; [|done].
  edestruct (mapM_res_Forall2 (fun a => h ← nh a; arg_eclass ← get_arg_eclass h ah eh;
    Ok (if negb (arg_eclass =? 0)%Z then class_param arg_eclass else a)) args) as (args' & Hm & HF).
  { intros a _. destruct (Hnh a) as [h ->]. cbn [mbind res_bind].
    destruct (get_arg_eclass_total h ah eh Hs Hl) as [e ->]. cbn [mbind res_bind]. eauto. }
  rewrite Hm. cbn [mbind res_bind]. destruct (clause_is_eq_clause c) eqn:Ec; simpl; [|done].
  destruct (has_consts args'); [done|]. destruct args' as [|a' args']; [|apply Hnh].
  apply Forall2_nil_inv_r in HF as ->. by destruct (Hok Ec).
Qed.

Lemma clause_hash_total cl ah eh c :
  eclasses_ok cl ah eh → clause_ok c → ∃ h, get_clause_hash c ah eh = Ok h.
Proof. apply clause_hash_by_total. intros n. rewrite get_node_hash_ok. eauto. Qed.

Lemma clause_hash2_total cl ah eh c :
  eclasses_ok cl ah eh → clause_ok c → ∃ h, get_clause_hash2 c ah eh = Ok h.
Proof. apply clause_hash_by_total. by eexists. Qed.

Lemma raw_items_lookup hs cl sels o it :
  raw_items hs cl sels !! o = Some it → ∃ c s, hs !! o = Some (ihash it) ∧ cl !! o = Some c ∧
    sels !! o = Some s ∧ iconst it = clause_has_consts c ∧ ifeat it = feature_of s.
Proof.
  unfold raw_items. intros Hit. apply lookup_zip_with_Some in Hit as ([h c] & s & -> & Hz & Hs).
  apply lookup_zip_with_Some in Hz as (h' & c' & [= <- <-] & Hh & Hc). exists c, s. done.
Qed.

Lemma length_raw_items hs cl sels n :
  length hs = n → length cl = n → length sels = n → length (raw_items hs cl sels) = n.
Proof. intros. unfold raw_items. rewrite !length_zip_with. lia. Qed.

Lemma gather_lookup {A} (a : list A) idx s j o :
  gather a idx = Some s → idx !! j = Some o → s !! j = a !! o.
Proof.
  intros Hg%mapM_Some Ho. destruct (Forall2_lookup_l _ _ _ _ _ Hg Ho) as (x & -> & Hx). done.
Qed.

Lemma gather_lookup_inv {A} (a : list A) idx s j x :
  gather a idx = Some s → s !! j = Some x → ∃ o, idx !! j = Some o ∧ a !! o = Some x.
Proof. intros Hg%mapM_Some Hx. by apply (Forall2_lookup_r _ _ _ _ _ Hg). Qed.

(** Sorting the clauses by their hashes. *)
Lemma argsort_items hs cl sels n :
  length hs = n → length cl = n → length sels = n →
  ensures (argsort int_cmp hs) (fun idx => idx ≡ₚ seq 0 n ∧
    ∃ items, gather (raw_items hs cl sels) idx = Some items ∧ items ≡ₚ raw_items hs cl sels ∧
             length items = n ∧ by_hash items).
Proof.
  intros Hh Hc Hs. eapply ensures_mono; [apply argsort_ok|]. intros idx (Hp & s & Hg & Hps & Hsort).
  rewrite Hh in Hp. split; [done|].
  pose proof (length_raw_items hs cl sels n Hh Hc Hs) as Hl.
  destruct (gather_perm (raw_items hs cl sels) idx) as (items & Hgi & Hpi); [by rewrite Hl|].
  exists items. split; [done|]. split; [done|]. split; [by rewrite (Permutation_length Hpi)|].
  assert (Hmap : s = map ihash items).
  { apply list_eq. intros j. destruct (idx !! j) as [o|] eqn:Ho.
    - rewrite (gather_lookup _ _ _ _ _ Hg Ho). change (map ihash items) with (ihash <$> items).
      rewrite list_lookup_fmap, (gather_lookup _ _ _ _ _ Hgi Ho).
      destruct (raw_items hs cl sels !! o) as [it|] eqn:Eo.
      + by destruct (raw_items_lookup _ _ _ _ _ Eo) as (? & ? & -> & _).
      + apply lookup_ge_None in Eo. assert (o ∈ seq 0 n) as Hin%elem_of_seq
          by (rewrite <- Hp; by eapply list_elem_of_lookup_2). lia.
    - apply lookup_ge_None in Ho. rewrite !lookup_ge_None_2; [done| |].
      + rewrite length_map, (Permutation_length Hpi), Hl.
        by rewrite (Permutation_length Hp), length_seq in Ho.
      + rewrite (Permutation_length Hps), Hh. by rewrite (Permutation_length Hp), length_seq in Ho. }
  assert (Hss : sorted int_cmp s) by (apply (Hsort (fun _ => True) _); by apply Forall_forall).
  subst s. unfold by_hash. clear -Hss. induction items as [|it items IH]; [constructor|].
  inversion Hss as [|? ? Hss' Hall]; subst. constructor; [by apply IH|].
  rewrite Forall_map in Hall. eapply Forall_impl; [exact Hall|]. intros x. apply int_cmp_cle.
Qed.

(** What [get_fss_for_object] returns. *)
Record fss_result (cl : list node) (sels : list double) (rl : list Z) (h : Z) (F : list double)
    (ah eh : list Z) (hs : list Z) (items : list item) (rh : Z) : Prop := {
  fr_eclasses : eclasses_ok cl ah eh;
  fr_hashes : Forall2 (fun c hh => get_clause_hash c ah eh = Ok hh) cl hs;
  fr_items : items ≡ₚ raw_items hs cl sels;
  fr_sorted : by_hash items;
  fr_relids : get_relidslist_hash rl = Ok rh;
  fr_hash : h = get_fss_hash (get_int_array_hash (map ihash (kept items))) (get_int_array_hash eh) rh;
  fr_feats : feats_ok items (kept items) F
}.

Lemma get_fss_ok inv0 sc0 cl sels rl :
  Forall clause_ok cl → length sels = length cl → length inv0 = length cl → length sc0 = length cl →
  ensures (get_fss_for_object inv0 sc0 cl sels rl) (fun '(h, F) =>
    ∃ ah eh hs items rh, fss_result cl sels rl h F ah eh hs items rh).
Proof.
  intros Hok Hs Hi0 Hs0. unfold get_fss_for_object.
  eapply ensures_bind_mono; [apply get_eclasses_ok|]. intros [ah eh] Hec.
  destruct (mapM_res_Forall2 (fun c => get_clause_hash c ah eh) cl) as (hs & -> & HF).
  { rewrite Forall_forall in Hok. intros c Hc. by eapply clause_hash_total; [|apply Hok]. }
  cbn [mbind res_bind]. pose proof (Forall2_length _ _ _ HF) as Hh. set (n := length cl) in *.
  eapply ensures_bind_mono; [by apply (argsort_items hs cl sels n)|].
  intros idx (Hp & items & Hg & Hpi & Hli & Hby).
  pose proof (Permutation_length Hp) as Hlx. rewrite length_seq in Hlx.
  eapply ensures_bind_mono; [apply inverse_permutation_ok; [by rewrite Hlx|lia]|].
  intros inv [Hlinv Hinv].
  eapply ensures_bind_mono; [apply (fill_ok idx inv hs sels sc0 n); auto; try lia|].
  { intros i j Hj. apply Hinv, lookup_lt_Some in Hj. lia. }
  intros [[i fs] sc] (Hlf & Hlc & Hall).
  assert (Hidx : ∀ j it, items !! j = Some it → ∃ o, idx !! j = Some o ∧
            map clause_has_consts cl !! o = Some (iconst it)).
  { intros j it Hit. destruct (gather_lookup_inv _ _ _ _ _ Hg Hit) as (o & Ho & Hr). exists o.
    destruct (raw_items_lookup _ _ _ _ _ Hr) as (c & s & _ & Hc & _ & -> & _). split; [done|].
    change (map clause_has_consts cl) with (clause_has_consts <$> cl). by rewrite list_lookup_fmap, Hc. }
  rewrite <- Hli. eapply ensures_bind_mono.
  { apply (compact_ok items _ idx Hidx _ [] items); [done | done | set_solver | done|].
    split; simpl; [|done|done|].
    - split; [lia|]. split; [lia|]. intros k it _ Hit.
      destruct (gather_lookup_inv _ _ _ _ _ Hg Hit) as (o & Ho & Hr).
      destruct (raw_items_lookup _ _ _ _ _ Hr) as (c & s & Hh' & _ & Hs' & _ & ->). eauto.
    - split; [done | done|]. intros P HP HFP a b. intros. done. }
  intros [[sc' fs'] sh'] [_ Hsh Hsc Hfs]. fold (kept items) in *.
  destruct (int_list_hash_total rl) as [rh Hrh]. unfold get_relidslist_hash. rewrite Hrh.
  cbn [mbind res_bind ensures]. rewrite Hsc. exists ah, eh, hs, items, rh. by split.
Qed.
(** ** Independence of the order of the clauses *)

(** The order in which the features are left, on the hash and the number. *)
Definition klex (a b : Z * (Z * Z * Z)) : Prop :=
  (a.1 < b.1)%Z ∨ (a.1 = b.1 ∧ ¬ klt b.2 a.2).

#[local] Instance klex_antisymm : AntiSymm (=) klex.
Proof.
  intros [h [[a b] c]] [h' [[a' b'] c']]. unfold klex, klt. simpl. intros H1 H2.
  assert (h = h' ∧ a = a' ∧ b = b' ∧ c = c') by lia. naive_solver.
Qed.

Lemma double_cmp_key x y :
  is_nan x = false → is_nan y = false → cle double_cmp x y → ¬ klt (dkey y) (dkey x).
Proof.
  intros Hx Hy. unfold cle, double_cmp. destruct (dlt x y) eqn:E.
  - intros _. apply dlt_asym in E. rewrite <- not_true_iff_false, dlt_key in E. naive_solver.
  - destruct (dlt y x) eqn:E'; [lia|]. intros _. rewrite <- not_true_iff_false, dlt_key in E'. naive_solver.
Qed.

Lemma zip_lookup_pair {A B} (l : list A) (k : list B) i a b :
  zip l k !! i = Some (a, b) → l !! i = Some a ∧ k !! i = Some b.
Proof. intros Hz. apply lookup_zip_with_Some in Hz as (? & ? & [= <- <-] & ? & ?). done. Qed.

Lemma StronglySorted_lookup_2 {A} (R : A → A → Prop) (l : list A) :
  (∀ i j x y, i < j → l !! i = Some x → l !! j = Some y → R x y) → StronglySorted R l.
Proof.
  induction l as [|x l IH]; intros HR; constructor.
  - apply IH. intros i j a b Hij Ha Hb. apply (HR (S i) (S j)); [lia | done | done].
  - apply Forall_lookup. intros i y Hy. apply (HR 0 (S i)); [lia | done | done].
Qed.

Lemma StronglySorted_lookup_1 {A} (R : A → A → Prop) (l : list A) i j x y :
  StronglySorted R l → i < j → l !! i = Some x → l !! j = Some y → R x y.
Proof.
  intros HR. revert i j. induction HR as [|z l HR IH Hz]; intros i j Hij Hi Hj; [done|].
  destruct j as [|j]; [lia|]. destruct i as [|i]; simpl in *.
  - simplify_eq. by eapply Forall_lookup in Hz.
  - apply (IH i j); [lia | done | done].
Qed.

(** The keys of the features, with their hashes, are in the order [klex]. *)
Lemma feats_sorted items F :
  by_hash items → feats_ok items (kept items) F → Forall (fun it => is_nan (ifeat it) = false) items →
  StronglySorted klex (zip (map ihash (kept items)) (map dkey F)).
Proof.
  intros Hby [Hl Hp Hs] Hnan.
  assert (Hgs : group_sorted (map ihash (kept items)) F).
  { apply (Hs (fun x => is_nan x = false)); [apply double_cmp_order | by apply Forall_map]. }
  assert (HF : Forall (fun x => is_nan x = false) F).
  { apply Forall_forall. intros x Hx.
    assert (Hin : x ∈ map snd (zip (map ihash (kept items)) F)).
    { change (map snd ?l) with (snd <$> l). by rewrite snd_zip by (rewrite length_map; lia). }
    rewrite Hp in Hin. rewrite map_map in Hin. apply list_elem_of_fmap in Hin as (it & -> & Hit).
    apply list_elem_of_filter in Hit as [_ Hit]. rewrite Forall_forall in Hnan. by apply Hnan. }
  apply StronglySorted_lookup_2. intros i j [h k] [h' k'] Hij Hi Hj.
  apply zip_lookup_pair in Hi as [Hi Hki], Hj as [Hj Hkj].
  change (map dkey F) with (dkey <$> F) in *.
  rewrite list_lookup_fmap in Hki, Hkj.
  destruct (F !! i) as [x|] eqn:Ex; [|done]. destruct (F !! j) as [y|] eqn:Ey; [|done].
  injection Hki as <-. injection Hkj as <-. unfold klex. simpl.
  destruct (decide (h = h')) as [<-|Hne].
  - right. split; [done|]. rewrite Forall_forall in HF.
    apply double_cmp_key; [apply HF; by eapply list_elem_of_lookup_2 .. |]. by apply (Hgs i j h).
  - left. assert (Hle : (h ≤ h')%Z); [|lia].
    change (map ihash (kept items)) with (ihash <$> kept items) in *.
    rewrite list_lookup_fmap in Hi, Hj.
    destruct (kept items !! i) as [a|] eqn:Ea; [|done]. destruct (kept items !! j) as [b|] eqn:Eb; [|done].
    injection Hi as <-. injection Hj as <-.
    apply (StronglySorted_lookup_1 (fun a b => (ihash a ≤ ihash b)%Z) (kept items) i j); auto.
    by apply by_hash_filter.
Qed.

(** Results for permuted clauses agree: hash, number and values of the features. *)
Lemma zip_map_r {A B C} (f : B → C) (l : list A) (k : list B) :
  zip l (map f k) = map (fun p => (p.1, f p.2)) (zip l k).
Proof. revert k. induction l as [|a l IH]; intros [|b k]; simpl; [done..|]. by rewrite IH. Qed.

Lemma feats_perm items items' F F' :
  items ≡ₚ items' → by_hash items → by_hash items' →
  feats_ok items (kept items) F → feats_ok items' (kept items') F' →
  Forall (fun it => is_nan (ifeat it) = false) items →
  map ihash (kept items) = map ihash (kept items') ∧ map dkey F = map dkey F'.
Proof.
  intros Hp Hby Hby' Hf Hf' Hnan.
  assert (Hnan' : Forall (fun it => is_nan (ifeat it) = false) items') by (by rewrite <- Hp).
  pose proof (feats_sorted _ _ Hby Hf Hnan) as Hs. pose proof (feats_sorted _ _ Hby' Hf' Hnan') as Hs'.
  assert (Heq : zip (map ihash (kept items)) (map dkey F) = zip (map ihash (kept items')) (map dkey F')).
  { apply (StronglySorted_unique klex); [done | done|]. rewrite !zip_map_r.
    apply fmap_Permutation. rewrite (fo_perm _ _ _ Hf), (fo_perm _ _ _ Hf').
    apply fmap_Permutation, kept_perm, Hp. }
  pose proof (fo_len _ _ _ Hf) as Hl. pose proof (fo_len _ _ _ Hf') as Hl'. split.
  - apply (f_equal (fmap fst)) in Heq. by rewrite !fst_zip in Heq by (rewrite !length_map; lia).
  - apply (f_equal (fmap snd)) in Heq. by rewrite !snd_zip in Heq by (rewrite !length_map; lia).
Qed.
Lemma raw_items_map (g : node → Z) cl sels :
  raw_items (map g cl) cl sels =
  map (fun p => mkItem (g p.1) (clause_has_consts p.1) (feature_of p.2)) (zip cl sels).
Proof.
  unfold raw_items. revert sels. induction cl as [|c cl IH]; intros [|s sels]; simpl; [done..|].
  by rewrite IH.
Qed.

Lemma clause_hashes_map ah eh cl hs :
  Forall2 (fun c hh => get_clause_hash c ah eh = Ok hh) cl hs →
  hs = map (fun c => match get_clause_hash c ah eh with Ok h => h | Err _ => 0%Z end) cl.
Proof. induction 1 as [|c h cl hs Hc _ IH]; simpl; [done|]. by rewrite Hc, IH. Qed.

Lemma fss_results_agree cl cl' sels sels' rl rl' h h' F F' ah eh hs items rh ah' eh' hs' items' rh' :
  length cl = length sels → length cl' = length sels' →
  zip cl sels ≡ₚ zip cl' sels' → rl ≡ₚ rl' → Forall (fun s => is_nan (c_log s) = false) sels →
  fss_result cl sels rl h F ah eh hs items rh → fss_result cl' sels' rl' h' F' ah' eh' hs' items' rh' →
  h = h' ∧ map dkey F = map dkey F'.
Proof.
  intros Hl Hl' Hp Hr Hnan [He Hh Hi Hb Hrh -> Hf] [He' Hh' Hi' Hb' Hrh' -> Hf'].
  assert (Hcl : cl ≡ₚ cl').
  { rewrite <- (fst_zip cl sels), <- (fst_zip cl' sels') by lia. by rewrite Hp. }
  destruct (eclasses_ok_perm _ _ _ _ _ _ Hcl He He') as [<- <-].
  assert (Hitems : items ≡ₚ items').
  { rewrite Hi, Hi', (clause_hashes_map _ _ _ _ Hh), (clause_hashes_map _ _ _ _ Hh'), !raw_items_map.
    by apply fmap_Permutation. }
  destruct (feats_perm items items' F F') as [Hk Hd]; try assumption.
  { apply Forall_forall. intros it Hit. rewrite Hi in Hit.
    apply list_elem_of_lookup in Hit as [o Ho]. apply raw_items_lookup in Ho as (c & s & _ & _ & Hs & _ & ->).
    eapply Forall_lookup in Hnan; [|exact Hs]. unfold feature_of. by destruct (dlt _ _). }
  split; [|done]. unfold get_relidslist_hash in *. rewrite (int_list_hash_perm _ _ Hr) in Hrh.
  rewrite Hrh in Hrh'. injection Hrh' as <-. by rewrite Hk.
Qed.

(** ** Independence of the constants *)
Lemma get_clause_args_forget c :
  get_clause_args (forget_consts c) = map forget_consts <$> get_clause_args c.
Proof. by destruct c. Qed.

Lemma is_eq_clause_forget c : clause_is_eq_clause (forget_consts c) = clause_is_eq_clause c.
Proof. by destruct c. Qed.

Lemma is_const_forget c : is_const (forget_consts c) = is_const c.
Proof. by destruct c. Qed.

Lemma has_consts_forget l : has_consts (map forget_consts l) = has_consts l.
Proof. unfold has_consts. induction l as [|a l IH]; simpl; [done|]. by rewrite is_const_forget, IH. Qed.

Lemma node_hash_forget a : node_hash (forget_consts a) = node_hash a.
Proof.
  pose proof (get_node_hash_forget a) as E. rewrite !get_node_hash_ok in E. congruence.
Qed.

Lemma eq_clause_args_forget c :
  eq_clause_args (forget_consts c) = map forget_consts (eq_clause_args c).
Proof.
  unfold eq_clause_args. rewrite get_clause_args_forget, is_eq_clause_forget.
  destruct (get_clause_args c) as [args|]; simpl; [|done]. destruct (clause_is_eq_clause c); [|done].
  induction args as [|a args IH]; [done|]. simpl map. rewrite !filter_cons, is_const_forget, IH.
  by case_decide.
Qed.

Lemma get_eclasses_forget cl : get_eclasses (map forget_consts cl) = get_eclasses cl.
Proof.
  assert (Ha : get_clauselist_args (map forget_consts cl) = get_clauselist_args cl).
  { unfold get_clauselist_args. rewrite !(mapM_res_total _ node_hash) by (intros; apply get_node_hash_ok).
    assert (E : map node_hash (clauselist_args (map forget_consts cl)) = map node_hash (clauselist_args cl));
      [|by rewrite E].
    unfold clauselist_args. rewrite !concat_map, !map_map. f_equal. apply map_ext. intros c.
    rewrite eq_clause_args_forget, map_map. apply map_ext, node_hash_forget. }
  unfold get_eclasses. rewrite Ha. destruct (get_clauselist_args cl) as [ah|]; [|done].
  cbn [mbind res_bind].
  assert (Hj : perform_eclasses_join (map forget_consts cl) ah = perform_eclasses_join cl ah); [|by rewrite Hj].
  unfold perform_eclasses_join. rewrite foreach_map. apply foreach_ext. intros c p. unfold join_clause.
  rewrite get_clause_args_forget, is_eq_clause_forget. destruct (get_clause_args c) as [args|]; [|done].
  cbn [fmap option_fmap option_map]. destruct (clause_is_eq_clause c); [|done]. rewrite foreach_map. f_equal.
  apply foreach_ext. intros a [p' i3]. unfold join_arg.
  by rewrite is_const_forget, !get_node_hash_ok, node_hash_forget.
Qed.

Lemma get_clause_hash_forget c ah eh :
  get_clause_hash (forget_consts c) ah eh = get_clause_hash c ah eh.
Proof.
  unfold get_clause_hash, clause_hash_by. rewrite get_clause_args_forget, is_eq_clause_forget.
  destruct (get_clause_args c) as [args|] eqn:Ea; cbn [fmap option_fmap option_map];
    [|by rewrite !get_node_hash_ok, node_hash_forget].
  set (f := fun a => h ← get_node_hash a; _).
  assert (Hm : mapM f (map forget_consts args) = map forget_consts <$> mapM f args).
  { assert (Hf : ∀ a, f (forget_consts a) = forget_consts <$> f a).
    { intros a. unfold f. rewrite !get_node_hash_ok, node_hash_forget. cbn [mbind res_bind].
      destruct (get_arg_eclass (node_hash a) ah eh) as [e|]; [|done]. cbn. by destruct (e =? 0)%Z. }
    clear Ea. clearbody f. induction args as [|a args IH]; [done|]. simpl. rewrite IH, Hf.
    destruct (f a); [|done]. by destruct (mapM f args). }
  rewrite Hm. destruct (mapM f args) as [l|]; [|done]. cbn [fmap res_fmap mbind res_bind].
  rewrite has_consts_forget.
  assert (Hset : set_clause_args (forget_consts c) (map forget_consts l) = forget_consts (set_clause_args c l)).
  { by destruct c. }
  rewrite Hset, !get_node_hash_ok, node_hash_forget. destruct (_ || _); [done|].
  destruct l as [|a l]; [done|]. simpl. by rewrite !get_node_hash_ok, node_hash_forget.
Qed.

Lemma get_fss_forget inv0 sc0 cl sels rl :
  get_fss_for_object inv0 sc0 (map forget_consts cl) sels rl = get_fss_for_object inv0 sc0 cl sels rl.
Proof.
  unfold get_fss_for_object. rewrite get_eclasses_forget, length_map, map_map.
  assert (Hc : map (fun c => clause_has_consts (forget_consts c)) cl = map clause_has_consts cl).
  { apply map_ext. intros c. unfold clause_has_consts. rewrite get_clause_args_forget.
    destruct (get_clause_args c); simpl; [apply has_consts_forget | done]. }
  rewrite Hc. destruct (get_eclasses cl) as [[ah eh]|]; [|done]. cbn [mbind res_bind].
  assert (Hm : mapM (fun c => get_clause_hash c ah eh) (map forget_consts cl) =
               mapM (fun c => get_clause_hash c ah eh) cl); [|by rewrite Hm].
  clear Hc. induction cl as [|c cl IH]; [done|]. simpl. by rewrite get_clause_hash_forget, IH.
Qed.
End fss.

(** C1. The feature subspace is clause-order-insensitive, as [get_fss_hash]'s
    comment demands: permuting the clauses together with their selectivities,
    and the relation ids, changes neither the hash nor the number and the
    values of the features.  The function returns and stays inside its arrays
    whatever the uninitialised blocks hold.  Equality clauses have at least
    one argument, and no selectivity has a NaN logarithm. *)
Theorem fss_order_insensitive `{Libm} (inv0 inv0' : list nat) (sc0 sc0' : list Z)
    (cl cl' : list node) (sels sels' : list double) (rl rl' : list Z) :
  zip cl sels ≡ₚ zip cl' sels' → rl ≡ₚ rl' →
  Forall clause_ok cl → Forall (fun s => is_nan (c_log s) = false) sels →
  length sels = length cl → length inv0 = length cl → length sc0 = length cl →
  length sels' = length cl' → length inv0' = length cl' → length sc0' = length cl' →
  ∃ h F F', get_fss_for_object inv0 sc0 cl sels rl = Ok (h, F) ∧
            get_fss_for_object inv0' sc0' cl' sels' rl' = Ok (h, F') ∧
            map dkey F = map dkey F'.
Proof.
  intros Hp Hr Hok Hnan Hs Hi Hc Hs' Hi' Hc'.
  assert (Hok' : Forall clause_ok cl').
  { rewrite <- (fst_zip cl' sels') by lia. rewrite <- Hp. by rewrite fst_zip by lia. }
  destruct (ensures_inv _ _ (get_fss_ok inv0 sc0 cl sels rl Hok Hs Hi Hc))
    as ([h F] & -> & ah & eh & hs & items & rh & Hres).
  destruct (ensures_inv _ _ (get_fss_ok inv0' sc0' cl' sels' rl' Hok' Hs' Hi' Hc'))
    as ([h' F'] & -> & ah' & eh' & hs' & items' & rh' & Hres').
  destruct (fss_results_agree cl cl' sels sels' rl rl' h h' F F' _ _ _ _ _ _ _ _ _ _ (eq_sym Hs) (eq_sym Hs')
              Hp Hr Hnan Hres Hres') as [-> Hd].
  exists h', F, F'. done.
Qed.

Definition sample_join : node :=
  OpExpr (mkOp 96 65 16 false 0 0 50) [sample_var; Var (mkVar 2 1 23 (-1) 0 0 2 1 60)].

Lemma fss_order_insensitive_witness :
  ∃ h F F', @get_fss_for_object sample_libm [0; 0] [5; 5]%Z [sample_eq (sample_int 5); sample_join]
              [d_of_Z 1; dlit 1 10] [3; 1]%Z = Ok (h, F) ∧
            @get_fss_for_object sample_libm [9; 9] [0; 0]%Z [sample_join; sample_eq (sample_int 5)]
              [dlit 1 10; d_of_Z 1] [1; 3]%Z = Ok (h, F') ∧ map dkey F = map dkey F'.
Proof.
  apply (@fss_order_insensitive sample_libm); try reflexivity.
  - apply perm_swap.
  - apply perm_swap.
  - repeat constructor; intros _; discriminate.
  - repeat constructor.
Defined.

(** C13. The feature subspace is constant-insensitive: replacing the constants
    of the clauses by others, with the same selectivities, changes nothing of
    what [get_fss_for_object] returns. *)
Theorem fss_const_insensitive `{Libm} (inv0 : list nat) (sc0 : list Z) (cl cl' : list node)
    (sels : list double) (rl : list Z) :
  map forget_consts cl = map forget_consts cl' →
  get_fss_for_object inv0 sc0 cl sels rl = get_fss_for_object inv0 sc0 cl' sels rl.
Proof. intros E. by rewrite <- get_fss_forget, E, get_fss_forget. Qed.

Lemma fss_const_insensitive_witness :
  @get_fss_for_object sample_libm [0] [0]%Z [sample_eq (sample_int 5)] [dlit 1 10] [1]%Z =
  @get_fss_for_object sample_libm [0] [0]%Z [sample_eq (sample_int 77)] [dlit 1 10] [1]%Z.
Proof. apply (@fss_const_insensitive sample_libm). reflexivity. Defined.

(** C14. At most one feature per clause; a feature is never below
    [log_selectivity_lower_bound]; the features are those of the clauses kept
    (the ones with a constant, and the only one of its hash without), ordered
    inside each group of equal clause hashes. *)
Theorem fss_features `{Libm} (inv0 : list nat) (sc0 : list Z) (cl : list node)
    (sels : list double) (rl : list Z) :
  Forall clause_ok cl → length sels = length cl → length inv0 = length cl → length sc0 = length cl →
  ensures (get_fss_for_object inv0 sc0 cl sels rl) (fun '(h, F) =>
    length F ≤ length cl ∧ Forall (fun f => dlt f log_selectivity_lower_bound = false) F ∧
    ∃ ah eh hs items, get_eclasses cl = Ok (ah, eh) ∧
      mapM (fun c => get_clause_hash c ah eh) cl = Ok hs ∧ items ≡ₚ raw_items hs cl sels ∧
      by_hash items ∧ feats_ok items (kept items) F).
Proof.
  intros Hok Hs Hi Hc. pose proof (get_fss_ok inv0 sc0 cl sels rl Hok Hs Hi Hc) as Hfss.
  destruct (ensures_inv _ _ (get_eclasses_ok cl)) as ([ah0 eh0] & Hec & Hec0).
  eapply ensures_mono; [exact Hfss|]. intros [h F] (ah & eh & hs & items & rh & [He Hh Hit Hb _ _ Hf]).
  destruct (eclasses_ok_perm cl cl _ _ _ _ (Permutation_refl _) Hec0 He) as [-> ->].
  assert (Hlen : length items = length cl).
  { rewrite (Permutation_length Hit).
    by apply length_raw_items; [symmetry; eapply Forall2_length | | ]. }
  split; [|split].
  - rewrite (fo_len _ _ _ Hf), <- Hlen. apply length_filter.
  - apply Forall_forall. intros f Hfin.
    assert (Hin : f ∈ map snd (zip (map ihash (kept items)) F)).
    { change (map snd ?l) with (snd <$> l). rewrite snd_zip; [done|].
      rewrite length_map, (fo_len _ _ _ Hf). lia. }
    rewrite (fo_perm _ _ _ Hf), map_map in Hin. apply list_elem_of_fmap in Hin as (it & -> & Hkin).
    apply list_elem_of_filter in Hkin as [_ Hkin]. rewrite Hit in Hkin.
    apply list_elem_of_lookup in Hkin as [o Ho].
    apply raw_items_lookup in Ho as (c & s & _ & _ & _ & _ & ->). unfold feature_of.
    destruct (dlt (c_log s) _) eqn:E; [apply dlt_irrefl | done].
  - exists ah, eh, hs, items. split_and!; auto.
    rewrite (clause_hashes_map _ _ _ _ Hh). apply mapM_res_total. intros c Hcin.
    apply list_elem_of_lookup in Hcin as [k Hk].
    by destruct (Forall2_lookup_l _ _ _ _ _ Hh Hk) as (hh & _ & ->).
Qed.

Lemma fss_features_witness :
  ensures (@get_fss_for_object sample_libm [0] [0]%Z [sample_eq (sample_int 5)] [dlit 1 10] [1]%Z)
    (fun '(h, F) => length F ≤ 1).
Proof.
  eapply ensures_mono; [apply (@fss_features sample_libm); try reflexivity|].
  - repeat constructor; intros _; discriminate.
  - intros [h F] [Hl _]. exact Hl.
Defined.
