(* ===== verification/Knn.v ===== *)
(** * Knn: contrib/aqo/machine_learning.c

    The nearest-neighbour regression: distances, the selection of the [aqo_k]
    nearest rows with their weights, prediction and the two learning
    procedures.  A matrix is the list of its separately allocated rows. *)
From S2P Require Import Prelude Float64.
From stdpp Require Import sorting.

(** ** The code *)
Definition object_selection_object_threshold : double := dlit 1 10.
Definition learning_rate : double := dlit 1 10.

Definition fs_distance (a b : list double) (len : nat) : res double :=
  s ← for_range 0 len (fun i s =>
        x ← rd a i; y ← rd b i; Ok (s + (x - y) * (x - y))%D) d0;
  Ok (if len =? 0 then s else c_sqrt (s / d_of_Z (Z.of_nat len))%D).

Definition fs_similarity (dist : double) : double := (d_of_Z 1 / (dlit 1 1000 + dist))%D.

(** [idx[j] == -1 || distances[i] < distances[idx[j]]] *)
Definition closer (distances : list double) (i : nat) (x : Z) : res bool :=
  if (x =? -1)%Z then Ok true
  else di ← rd distances i; dx ← rdz distances x; Ok (dlt di dx).

(** [for (; j < aqo_k; ++j)]: insertion by shifting the rest. *)
Definition shift_in (aqo_k j : nat) (idx : list Z) (to_insert : Z) : res (list Z) :=
  '(idx, _) ← for_range j aqo_k (fun j st =>
      let '(idx, to_insert) := st in
      tmp ← rd idx j;
      idx ← wr idx j to_insert;
      Ok (idx, tmp)) (idx, to_insert);
  Ok idx.

(** The loop over [j] for the row [i], with [todo] positions left. *)
Fixpoint insert_row (distances : list double) (aqo_k i : nat) (idx : list Z) (j todo : nat)
  : res (list Z) :=
  match todo with
  | O => Ok idx
  | S todo =>
      x ← rd idx j;
      b ← closer distances i x;
      if (b : bool) then shift_in aqo_k j idx (Z.of_nat i)
      else insert_row distances aqo_k i idx (S j) todo
  end.

(** [for (i = 0; i < aqo_k && idx[i] != -1; ++i)]: [body] gets [i] and [idx[i]]. *)
Fixpoint while_idx {S : Type} (idx : list Z) (i todo : nat) (body : nat → Z → S → res S) (s : S)
  : res S :=
  match todo with
  | O => Ok s
  | Datatypes.S todo =>
      x ← rd idx i;
      if negb (x =? -1)%Z then s ← body i x s; while_idx idx (Datatypes.S i) todo body s
      else Ok s
  end.

(** Returns [w], [w_sum] and [idx]. *)
Definition OkNNr_compute_weights (distances : list double) (matrix_rows aqo_k : nat)
  : res (list double * double * list Z) :=
  let idx := replicate aqo_k (-1)%Z in
  let w := replicate aqo_k d0 in
  idx ← for_range 0 matrix_rows (fun i idx => insert_row distances aqo_k i idx 0 aqo_k) idx;
  '(w, w_sum) ← while_idx idx 0 aqo_k (fun i x st =>
      let '(w, w_sum) := st in
      d ← rdz distances x;
      w ← wr w i (fs_similarity d);
      wi ← rd w i;
      Ok (w, (w_sum + wi)%D)) (w, d0);
  Ok (w, w_sum, idx).

Definition row_distances (matrix_rows matrix_cols : nat) (matrix : list (list double))
    (nw_features : list double) : res (list double) :=
  for_range 0 matrix_rows (fun i distances =>
    row ← rd matrix i;
    d ← fs_distance row nw_features matrix_cols;
    wr distances i d) (replicate matrix_rows d0).

(** The weighted mean of the targets over all [aqo_k] positions of [idx]. *)
Definition weighted_mean (aqo_k : nat) (idx : list Z) (w targets : list double) (w_sum : double)
  : res double :=
  for_range 0 aqo_k (fun i result =>
    x ← rd idx i;
    if negb (x =? -1)%Z then
      t ← rdz targets x; wi ← rd w i; Ok (result + t * wi / w_sum)%D
    else Ok result) d0.

(** The end of both predictions: never negative but for the refusal. *)
Definition clip_prediction (idx : list Z) (result : double) : res double :=
  let result := if (result <? d0)%D then d0 else result in
  x ← rd idx 0;
  Ok (if (x =? -1)%Z then d_of_Z (-1) else result).

Definition OkNNr_predict (matrix_rows matrix_cols : nat) (matrix : list (list double))
    (targets nw_features : list double) (aqo_k : nat) : res double :=
  distances ← row_distances matrix_rows matrix_cols matrix nw_features;
  '(w, w_sum, idx) ← OkNNr_compute_weights distances matrix_rows aqo_k;
  result ← weighted_mean aqo_k idx w targets w_sum;
  clip_prediction idx result.

(** The same loop as in [row_distances], tracking the smallest distance. *)
Definition row_distances_min (matrix_rows matrix_cols : nat) (matrix : list (list double))
    (nw_features : list double) : res (list double * double) :=
  for_range 0 matrix_rows (fun i st =>
    let '(distances, min_distance) := st in
    row ← rd matrix i;
    d ← fs_distance row nw_features matrix_cols;
    distances ← wr distances i d;
    Ok (distances, if (d <? min_distance)%D then d else min_distance))
    (replicate matrix_rows d0, d_of_Z 9999).

Definition OkNNr_predict2 (matrix_rows matrix_cols : nat) (matrix : list (list double))
    (targets nw_features : list double) (aqo_k : nat) : res double :=
  let threshold_distance := dlit 1 10 in
  if matrix_rows =? 0 then Ok d0
  else
    '(distances, min_distance) ← row_distances_min matrix_rows matrix_cols matrix nw_features;
    if (min_distance >? threshold_distance)%D then Ok d0
    else
      '(w, w_sum, idx) ← OkNNr_compute_weights distances matrix_rows aqo_k;
      result ← weighted_mean aqo_k idx w targets w_sum;
      clip_prediction idx result.

(** The first loop of both learning procedures: the distances and the row of
    the smallest one. *)
Definition nearest_row (matrix_rows matrix_cols : nat) (matrix : list (list double))
    (nw_features : list double) : res (list double * nat) :=
  for_range 0 matrix_rows (fun i st =>
    let '(distances, min_distance_id) := st in
    row ← rd matrix i;
    d ← fs_distance row nw_features matrix_cols;
    distances ← wr distances i d;
    di ← rd distances i;
    dm ← rd distances min_distance_id;
    Ok (distances, if (di <? dm)%D then i else min_distance_id))
    (replicate matrix_rows d0, 0).

(** [for (j...) matrix[r][j] += rate * (nw_features[j] - matrix[r][j])] *)
Definition move_row (rate : double) (matrix_cols r : nat) (nw_features : list double)
    (matrix : list (list double)) : res (list (list double)) :=
  for_range 0 matrix_cols (fun j matrix =>
    row ← rd matrix r;
    f ← rd nw_features j;
    x ← rd row j;
    row ← wr row j (x + rate * (f - x))%D;
    wr matrix r row) matrix.

(** [for (j...) matrix[r][j] = nw_features[j]] *)
Definition copy_row (matrix_cols r : nat) (nw_features : list double)
    (matrix : list (list double)) : res (list (list double)) :=
  for_range 0 matrix_cols (fun j matrix =>
    row ← rd matrix r;
    f ← rd nw_features j;
    row ← wr row j f;
    wr matrix r row) matrix.

(** [a[i] += rate * (v - a[i])] *)
Definition move_cell (rate v : double) (a : list double) (i : nat) : res (list double) :=
  x ← rd a i; wr a i (x + rate * (v - x))%D.

(** The gradient step on the row [idx[i]] and its target. *)
Definition gradient_row (matrix_cols : nat) (w distances nw_features : list double)
    (w_sum result coef1 : double) (i : nat) (x : Z)
    (st : list (list double) * list double * list nat)
  : res (list (list double) * list double * list nat) :=
  let '(matrix, targets, lst) := st in
  t ← rdz targets x;
  wi ← rd w i;
  let coef2 := (coef1 * (t - result) * wi * wi / c_sqrt (d_of_Z (Z.of_nat matrix_cols)) / w_sum)%D in
  targets ← wrz targets x (t - coef1 * wi / w_sum)%D;
  matrix ← for_range 0 matrix_cols (fun j matrix =>
    cur_row ← rdz matrix x;
    f ← rd nw_features j;
    c ← rd cur_row j;
    d ← rdz distances x;
    cur_row ← wr cur_row j (c - coef2 * (f - c) / d)%D;
    wrz matrix x cur_row) matrix;
  Ok (matrix, targets, lst ++ [Z.to_nat x]).

(** Returns the matrix, the targets and the list of the changed rows. *)
Definition OkNNr_learn (matrix_rows matrix_cols : nat) (matrix : list (list double))
    (targets nw_features : list double) (nw_target : double) (aqo_k : nat)
  : res (list (list double) * list double * list nat) :=
  '(distances, min_distance_id) ← nearest_row matrix_rows matrix_cols matrix nw_features;
  if matrix_rows <? aqo_k then
    near ← (if negb (matrix_rows =? 0) then
              d ← rd distances min_distance_id; Ok (d <? object_selection_object_threshold)%D
            else Ok false);
    if (near : bool) then
      matrix ← move_row learning_rate matrix_cols min_distance_id nw_features matrix;
      targets ← move_cell learning_rate nw_target targets min_distance_id;
      Ok (matrix, targets, [min_distance_id])
    else
      matrix ← copy_row matrix_cols matrix_rows nw_features matrix;
      targets ← wr targets matrix_rows nw_target;
      Ok (matrix, targets, [matrix_rows])
  else
    '(w, w_sum, idx) ← OkNNr_compute_weights distances matrix_rows aqo_k;
    result ← while_idx idx 0 aqo_k (fun i x result =>
        t ← rdz targets x; wi ← rd w i; Ok (result + t * wi / w_sum)%D) d0;
    let coef1 := (learning_rate * (result - nw_target))%D in
    while_idx idx 0 aqo_k
      (gradient_row matrix_cols w distances nw_features w_sum result coef1) (matrix, targets, []).

(** The best-cost record: the same update in both branches of [OkNNr_learn2]. *)
Definition learn_best_cost (matrix_cols : nat) (matrix : list (list double))
    (best_est_costs best_true_costs nw_features : list double)
    (nw_est_cost nw_true_cost : double) (min_distance_id : nat)
  : res (list (list double) * list double * list double * list nat) :=
  let learning_rate1 := dlit 1 10 in
  let learning_rate2 := d_of_Z 1 in
  let compare_rate := dlit 1 100 in
  let one := d_of_Z 1 in
  hist_cost ← rd best_true_costs min_distance_id;
  if (nw_true_cost =? hist_cost)%D
     || ((nw_true_cost >? hist_cost) && (nw_true_cost <? hist_cost * (one + compare_rate)))%D
     || ((nw_true_cost <? hist_cost) && (nw_true_cost * (one + compare_rate) >? hist_cost))%D
  then
    matrix ← move_row learning_rate1 matrix_cols min_distance_id nw_features matrix;
    best_est_costs ← move_cell learning_rate2 nw_est_cost best_est_costs min_distance_id;
    Ok (matrix, best_est_costs, best_true_costs, [min_distance_id])
  else if (nw_true_cost * (one + compare_rate) <? hist_cost)%D then
    matrix ← move_row learning_rate1 matrix_cols min_distance_id nw_features matrix;
    best_est_costs ← move_cell learning_rate2 nw_est_cost best_est_costs min_distance_id;
    t ← rd best_true_costs min_distance_id;
    best_true_costs ← wr best_true_costs min_distance_id
                         (t + learning_rate2 * (nw_true_cost - hist_cost))%D;
    Ok (matrix, best_est_costs, best_true_costs, [min_distance_id])
  else if (hist_cost * (one + compare_rate) <? nw_true_cost)%D then
    e ← rd best_est_costs min_distance_id;
    '(matrix, best_est_costs) ←
      (if (nw_est_cost <? e)%D then
         matrix ← move_row learning_rate1 matrix_cols min_distance_id nw_features matrix;
         best_est_costs ← move_cell learning_rate2 nw_est_cost best_est_costs min_distance_id;
         Ok (matrix, best_est_costs)
       else Ok (matrix, best_est_costs));
    Ok (matrix, best_est_costs, best_true_costs, [min_distance_id])
  else Ok (matrix, best_est_costs, best_true_costs, []).

Definition OkNNr_learn2 (matrix_rows matrix_cols : nat) (matrix : list (list double))
    (best_est_costs best_true_costs nw_features : list double)
    (nw_est_cost nw_true_cost : double) (aqo_k : nat)
  : res (list (list double) * list double * list double * list nat) :=
  let object_selection_object_threshold2 := dlit 1 10 in
  '(distances, min_distance_id) ← nearest_row matrix_rows matrix_cols matrix nw_features;
  if matrix_rows <? aqo_k then
    near ← (if negb (matrix_rows =? 0) then
              d ← rd distances min_distance_id; Ok (d <? object_selection_object_threshold2)%D
            else Ok false);
    if (near : bool) then
      learn_best_cost matrix_cols matrix best_est_costs best_true_costs nw_features
        nw_est_cost nw_true_cost min_distance_id
    else
      matrix ← copy_row matrix_cols matrix_rows nw_features matrix;
      best_est_costs ← wr best_est_costs matrix_rows nw_est_cost;
      best_true_costs ← wr best_true_costs matrix_rows nw_true_cost;
      Ok (matrix, best_est_costs, best_true_costs, [matrix_rows])
  else
    learn_best_cost matrix_cols matrix best_est_costs best_true_costs nw_features
      nw_est_cost nw_true_cost min_distance_id.

(** ** The nearest rows *)

(** [i] is closer than [x]. *)
Definition near (d : list double) (i x : nat) : bool :=
  match d !! i, d !! x with Some a, Some b => dlt a b | _, _ => false end.

(** Insertion after the rows that [i] is not closer than. *)
Fixpoint rank_in (d : list double) (i : nat) (l : list nat) : list nat :=
  match l with
  | [] => [i]
  | x :: l' => if near d i x then i :: l else x :: rank_in d i l'
  end.

(** All rows, nearest first, earlier rows first among equals. *)
Definition ranking (d : list double) (n : nat) : list nat :=
  foldl (fun l i => rank_in d i l) [] (seq 0 n).

(** The array [idx] that holds the first [k] of [l]. *)
Definition enc (k : nat) (l : list nat) : list Z :=
  map Z.of_nat (take k l) ++ replicate (k - length l) (-1)%Z.

Lemma length_enc k l : length (enc k l) = k.
Proof. unfold enc. rewrite length_app, length_map, length_take, length_replicate. lia. Qed.

Lemma lookup_enc k l i :
  i < k → enc k l !! i = Some (match l !! i with Some x => Z.of_nat x | None => -1 end)%Z.
Proof.
  intros Hi. unfold enc. change (map Z.of_nat ?l) with (Z.of_nat <$> l).
  destruct (l !! i) as [x|] eqn:E.
  - apply lookup_lt_Some in E as Hl. rewrite lookup_app_l by (rewrite length_fmap, length_take; lia).
    by rewrite list_lookup_fmap, lookup_take_lt, E by lia.
  - apply lookup_ge_None in E. rewrite lookup_app_r; rewrite length_fmap, length_take; [|lia].
    apply lookup_replicate. split; [done|]. lia.
Qed.

Lemma enc_app pre l k : length pre ≤ k → enc k (pre ++ l) = map Z.of_nat pre ++ enc (k - length pre) l.
Proof.
  intros Hk. unfold enc. rewrite take_app_ge by done. rewrite map_app, <- (assoc_L (++)), length_app.
  by replace (k - (length pre + length l)) with (k - length pre - length l) by lia.
Qed.

Lemma take_enc m l : take m (enc (S m) l) = enc m l.
Proof.
  apply list_eq. intros i. destruct (decide (i < m)) as [Hi|Hi].
  - rewrite lookup_take_lt by done. by rewrite !lookup_enc by lia.
  - rewrite !lookup_ge_None_2; [done| |]; rewrite ?length_take, !length_enc; lia.
Qed.

Lemma shift_in_ok k j idx v :
  j ≤ k → length idx = k → shift_in k j idx v = Ok (take j idx ++ take (k - j) (v :: drop j idx)).
Proof.
  intros Hj Hl. unfold shift_in.
  assert (H : ensures (for_range j k (fun j st => let '(idx, to_insert) := st in
      tmp ← rd idx j; idx ← wr idx j to_insert; Ok (idx, tmp)) (idx, v))
    (fun st => st.1 = take j idx ++ take (k - j) (v :: drop j idx))).
  { eapply ensures_mono.
    - apply (ensures_for (fun m st => st.1 = take j idx ++ take (m - j) (v :: drop j idx) ++ drop m idx ∧
        Some st.2 = (v :: drop j idx) !! (m - j))); [done| |].
      + rewrite Nat.sub_diag. simpl. by rewrite take_drop.
      + intros m [a t] Hm [Ha Ht]. simpl in Ha, Ht |- *. subst a.
        assert (Hlen : length (take j idx ++ take (m - j) (v :: drop j idx)) = m).
        { rewrite length_app, !length_take. simpl. rewrite length_drop. lia. }
        rewrite (assoc_L (++)).
        destruct (lookup_lt_is_Some_2 idx m) as [x Hx]; [lia|].
        assert (Hr : ((take j idx ++ take (m - j) (v :: drop j idx)) ++ drop m idx) !! m = Some x).
        { rewrite lookup_app_r, Hlen, Nat.sub_diag, lookup_drop by lia. by rewrite Nat.add_0_r. }
        rewrite (rd_some _ _ _ Hr). cbn [mbind res_bind]. apply ensures_bind, ensures_wr.
        { by eapply lookup_lt_Some. }
        simpl. split.
        * rewrite insert_app_r_alt, Hlen, Nat.sub_diag by lia.
          rewrite (drop_S idx x m) by done. simpl. replace (S m - j) with (S (m - j)) by lia.
          rewrite (take_S_r _ (m - j) t) by done. by rewrite <- !(assoc_L (++)).
        * replace (S m - j) with (S (m - j)) by lia. simpl. rewrite lookup_drop.
          by replace (j + (m - j)) with m by lia.
    - intros [a t] [Ha _]. simpl in *. rewrite Ha, (drop_ge idx k) by lia. by rewrite app_nil_r. }
  apply ensures_inv in H as ([a t] & -> & Ha). simpl in *. by rewrite Ha.
Qed.

Lemma insert_row_ok d k i pre suf todo :
  length pre + todo = k → i < length d → (∀ x, x ∈ pre ++ suf → x < length d) →
  insert_row d k i (enc k (pre ++ suf)) (length pre) todo = Ok (enc k (pre ++ rank_in d i suf)).
Proof.
  intros Hk Hi Hlt. revert pre suf Hk Hlt. induction todo as [|todo IH]; intros pre suf Hk Hlt; simpl.
  { rewrite !enc_app by lia. replace (k - length pre) with 0 by lia. done. }
  assert (Hlk : enc k (pre ++ suf) !! length pre =
                Some (match suf with [] => -1 | x :: _ => Z.of_nat x end)%Z).
  { rewrite lookup_enc, lookup_app_r, Nat.sub_diag by lia. by destruct suf. }
  rewrite (rd_some _ _ _ Hlk). cbn [mbind res_bind].
  assert (Hshift : shift_in k (length pre) (enc k (pre ++ suf)) (Z.of_nat i) = Ok (enc k (pre ++ i :: suf))).
  { rewrite shift_in_ok by (rewrite ?length_enc; lia). rewrite !enc_app by lia.
    rewrite take_app_length', drop_app_length' by (by rewrite length_map).
    replace (k - length pre) with (S todo) by lia. simpl. by rewrite take_enc. }
  destruct suf as [|x suf]; [exact Hshift|]. unfold closer.
  destruct (Z.eqb_spec (Z.of_nat x) (-1)); [lia|].
  assert (Hx : x < length d) by (apply Hlt; set_solver). rewrite rdz_nat. simpl. unfold near.
  destruct (rd_lt d i Hi) as (a & -> & ->), (rd_lt d x Hx) as (b & -> & ->). cbn [mbind res_bind].
  destruct (dlt a b); [exact Hshift|].
  specialize (IH (pre ++ [x]) suf). rewrite length_app in IH. simpl in IH. rewrite <- !(assoc_L (++)) in IH.
  replace (length pre + 1) with (S (length pre)) in IH by lia. apply IH; [lia | exact Hlt].
Qed.

Lemma rank_in_perm d i l : rank_in d i l ≡ₚ i :: l.
Proof.
  induction l as [|x l IH]; simpl; [done|]. case_match; [done|]. rewrite IH. apply Permutation_swap.
Qed.

Definition no_closer (d : list double) (a b : nat) : Prop := near d b a = false.

Lemma rank_in_sorted d i l :
  Forall (fun x => is_nan x = false) d → i < length d → (∀ x, x ∈ l → x < length d) →
  StronglySorted (no_closer d) l → StronglySorted (no_closer d) (rank_in d i l).
Proof.
  intros Hnan Hi Hlt Hs. induction Hs as [|x l Hs IH Hx]; simpl; [by repeat constructor|].
  assert (Hxl : x < length d) by (apply Hlt; set_solver).
  destruct (near d i x) eqn:E.
  - constructor; [by constructor|]. rewrite Forall_forall in Hx. apply Forall_forall.
    intros y Hy. unfold no_closer.
    assert (Hyl : y < length d) by (apply Hlt; set_solver).
    assert (Hyx : near d y x = false).
    { apply elem_of_cons in Hy as [->|Hy]; [|by apply Hx]. unfold near.
      destruct (d !! x); [apply dlt_irrefl | done]. }
    unfold near in *.
    destruct (lookup_lt_is_Some_2 d i Hi) as [a Ha], (lookup_lt_is_Some_2 d x Hxl) as [b Hb],
      (lookup_lt_is_Some_2 d y Hyl) as [c Hc]. rewrite Ha, Hb, Hc in *.
    apply (dlt_false_trans c b a); [|done|by apply dlt_asym]. by eapply Forall_lookup in Hnan.
  - constructor; [apply IH; set_solver|]. apply Forall_forall. intros y.
    rewrite rank_in_perm, elem_of_cons. intros [->|Hy]; [done|]. rewrite Forall_forall in Hx. by apply Hx.
Qed.

Lemma ranking_S d n : ranking d (S n) = rank_in d n (ranking d n).
Proof. unfold ranking. by rewrite seq_S, foldl_app. Qed.

Lemma ranking_perm d n : ranking d n ≡ₚ seq 0 n.
Proof.
  induction n as [|n IH]; [done|]. rewrite ranking_S, rank_in_perm, seq_S, IH. simpl.
  by rewrite Permutation_cons_append.
Qed.

Lemma ranking_lt d n x : x ∈ ranking d n → x < n.
Proof. rewrite ranking_perm, elem_of_seq. lia. Qed.

Lemma length_ranking d n : length (ranking d n) = n.
Proof. rewrite ranking_perm. apply length_seq. Qed.

Lemma ranking_sorted d n :
  Forall (fun x => is_nan x = false) d → n ≤ length d → StronglySorted (no_closer d) (ranking d n).
Proof.
  intros Hnan. induction n as [|n IH]; intros Hn; [constructor|]. rewrite ranking_S.
  apply rank_in_sorted; [done | lia | | apply IH; lia]. intros x Hx%ranking_lt. lia.
Qed.

Lemma select_rows_ok d n k :
  n ≤ length d →
  for_range 0 n (fun i idx => insert_row d k i idx 0 k) (replicate k (-1)%Z) = Ok (enc k (ranking d n)).
Proof.
  intros Hn.
  assert (H : ensures (for_range 0 n (fun i idx => insert_row d k i idx 0 k) (replicate k (-1)%Z))
                (fun idx => idx = enc k (ranking d n))).
  { apply (ensures_for (fun i idx => idx = enc k (ranking d i))); [lia| |].
    - unfold enc, ranking. simpl. by rewrite take_nil, Nat.sub_0_r.
    - intros i idx Hi ->. pose proof (insert_row_ok d k i [] (ranking d i) k) as Hins. simpl in Hins.
      rewrite Hins; [by rewrite ranking_S | done | lia |]. intros x Hx%ranking_lt. lia. }
  by apply ensures_inv in H as (a & -> & ->).
Qed.

(** The invariant rule of the loops over the selected rows. *)
Lemma ensures_while_idx {S} (I : nat → S → Prop) k l (body : nat → Z → S → res S) s :
  I 0 s → (∀ i x t, i < k → l !! i = Some x → I i t → ensures (body i (Z.of_nat x) t) (I (Datatypes.S i))) →
  ensures (while_idx (enc k l) 0 k body s) (I (Nat.min k (length l))).
Proof.
  intros HI Hb.
  cut (∀ todo i s, i + todo = k → i ≤ length l → I i s →
         ensures (while_idx (enc k l) i todo body s) (I (Nat.min k (length l)))).
  { intros H. apply H; [done | lia | done]. }
  clear HI s. induction todo as [|todo IH]; intros i s Hk Hi HI; simpl.
  { by replace (Nat.min k (length l)) with i by lia. }
  rewrite (rd_some _ _ _ (lookup_enc k l i ltac:(lia))). cbn [mbind res_bind].
  destruct (l !! i) as [x|] eqn:E.
  - destruct (Z.eqb_spec (Z.of_nat x) (-1)); [lia|]. cbn [negb].
    apply lookup_lt_Some in E as Hl.
    eapply ensures_bind_mono; [apply Hb; [lia | done | done]|]. intros t Ht. apply IH; [lia | lia | done].
  - apply lookup_ge_None in E. simpl. by replace (Nat.min k (length l)) with i by lia.
Qed.

(** What [OkNNr_compute_weights] computes. *)
Record weights_ok (d : list double) (n k : nat) (w : list double) (w_sum : double) (idx : list Z) : Prop := {
  wo_idx : idx = enc k (ranking d n);
  wo_len : length w = k;
  wo_sim i x a : i < k → ranking d n !! i = Some x → d !! x = Some a → w !! i = Some (fs_similarity a);
  wo_sum : w_sum = foldl dadd d0 (take (Nat.min k n) w)
}.

Lemma compute_weights_ok d n k :
  n ≤ length d →
  ensures (OkNNr_compute_weights d n k) (fun '(w, w_sum, idx) => weights_ok d n k w w_sum idx).
Proof.
  intros Hn. unfold OkNNr_compute_weights. rewrite select_rows_ok by done. cbn [mbind res_bind].
  eapply ensures_bind_mono.
  - apply (ensures_while_idx (fun i st => length st.1 = k ∧
      (∀ j x a, j < i → ranking d n !! j = Some x → d !! x = Some a → st.1 !! j = Some (fs_similarity a)) ∧
      st.2 = foldl dadd d0 (take i st.1))).
    + simpl. rewrite length_replicate. split; [done|]. split; [lia | done].
    + intros i x [w s] Hi Hx (Hl & Hw & Hs). simpl in *. rewrite rdz_nat.
      assert (Hxn : x < n) by (apply (ranking_lt d n); by eapply list_elem_of_lookup_2).
      apply ensures_bind, ensures_rd; [lia|]. intros a Ha. apply ensures_bind, ensures_wr; [lia|].
      rewrite (rd_some _ _ (fs_similarity a)) by (apply list_lookup_insert_eq; lia). cbn [mbind res_bind].
      simpl. split; [by rewrite length_insert|]. split.
      * intros j y b Hj Hy Hb. destruct (decide (j = i)) as [->|].
        -- simplify_eq. apply list_lookup_insert_eq. lia.
        -- rewrite list_lookup_insert_ne by done. apply (Hw j y b); [lia | done | done].
      * rewrite (take_S_r _ i (fs_similarity a)) by (apply list_lookup_insert_eq; lia).
        rewrite take_insert_ge, foldl_app by lia. simpl. by rewrite Hs.
  - intros [w s] (Hl & Hw & Hs). simpl in *. rewrite length_ranking in *. split; auto.
    intros i x a Hi Hx Ha. apply (Hw i x a); [|done|done].
    apply lookup_lt_Some in Hx. rewrite length_ranking in Hx. lia.
Qed.

(** ** Distances and predictions *)
Lemma fs_distance_ok a b len :
  len ≤ length a → len ≤ length b → ensures (fs_distance a b len) notneg.
Proof.
  intros Ha Hb. unfold fs_distance. eapply ensures_bind_mono.
  - apply (ensures_for (fun _ s => notneg s)); [lia | apply notneg_d0|].
    intros j s Hj Hs. csteps; [lia..|]. auto with dbl.
  - intros s Hs. simpl. destruct (len =? 0); auto with dbl.
Qed.

(** [rows] rows of at least [cols] cells. *)
Definition mat_ok (m : list (list double)) (rows cols : nat) : Prop :=
  rows ≤ length m ∧ ∀ i row, m !! i = Some row → cols ≤ length row.

(** [d] are the distances of the first [n] rows. *)
Definition dists_ok (m : list (list double)) (nw : list double) (cols n : nat) (d : list double) : Prop :=
  ∀ i row, i < n → m !! i = Some row → ∃ x, fs_distance row nw cols = Ok x ∧ d !! i = Some x.

Lemma dists_ok_step m nw cols i row x d :
  m !! i = Some row → fs_distance row nw cols = Ok x → i < length d →
  dists_ok m nw cols i d → dists_ok m nw cols (S i) (<[i := x]> d).
Proof.
  intros Hr Hx Hi Hd j row' Hj Hr'. destruct (decide (j = i)) as [->|].
  - simplify_eq. exists x. by rewrite list_lookup_insert_eq.
  - rewrite list_lookup_insert_ne by done. apply Hd; [lia | done].
Qed.

Lemma dist_row_ok m nw rows cols i :
  mat_ok m rows cols → cols ≤ length nw → i < rows →
  ∃ row x, m !! i = Some row ∧ rd m i = Ok row ∧ fs_distance row nw cols = Ok x ∧ notneg x.
Proof.
  intros [Hr Hc] Hnw Hi. destruct (rd_lt m i ltac:(lia)) as (row & Hrow & Hrd).
  destruct (ensures_inv _ _ (fs_distance_ok row nw cols (Hc _ _ Hrow) Hnw)) as (x & Hx & Hn).
  exists row, x. done.
Qed.

Lemma row_distances_ok m nw rows cols :
  mat_ok m rows cols → cols ≤ length nw →
  ensures (row_distances rows cols m nw) (fun d => length d = rows ∧ dists_ok m nw cols rows d).
Proof.
  intros Hm Hnw. apply (ensures_for (fun i d => length d = rows ∧ dists_ok m nw cols i d)); [lia| |].
  - rewrite length_replicate. split; [done|]. intros ? ? ?. lia.
  - intros i d Hi [Hl Hd]. destruct (dist_row_ok m nw rows cols i Hm Hnw ltac:(lia)) as (row & x & Hr & -> & Hx & _).
    cbn [mbind res_bind]. rewrite Hx. cbn [mbind res_bind]. apply ensures_wr; [lia|].
    rewrite length_insert. split; [done|]. eapply dists_ok_step; eauto. lia.
Qed.

Lemma row_distances_min_ok m nw rows cols :
  mat_ok m rows cols → cols ≤ length nw →
  ensures (row_distances_min rows cols m nw) (fun '(d, mn) => length d = rows ∧ dists_ok m nw cols rows d).
Proof.
  intros Hm Hnw. eapply ensures_mono.
  - apply (ensures_for (fun i st => length st.1 = rows ∧ dists_ok m nw cols i st.1)); [lia| |].
    + simpl. rewrite length_replicate. split; [done|]. intros ? ? ?. lia.
    + intros i [d mn] Hi [Hl Hd]. simpl in *.
      destruct (dist_row_ok m nw rows cols i Hm Hnw ltac:(lia)) as (row & x & Hr & -> & Hx & _).
      cbn [mbind res_bind]. rewrite Hx. cbn [mbind res_bind]. apply ensures_bind, ensures_wr; [lia|].
      simpl. rewrite length_insert. split; [done|]. eapply dists_ok_step; eauto. lia.
  - intros [d mn] H. exact H.
Qed.

Lemma weighted_mean_ok k d n w targets w_sum :
  length w = k → n ≤ length targets → ensures (weighted_mean k (enc k (ranking d n)) w targets w_sum) (fun _ => True).
Proof.
  intros Hw Ht. apply (ensures_for (fun _ _ => True)); [lia | done|]. intros i r Hi _.
  rewrite (rd_some _ _ _ (lookup_enc k _ i ltac:(lia))). cbn [mbind res_bind].
  destruct (ranking d n !! i) as [x|] eqn:E; [|done].
  destruct (Z.eqb_spec (Z.of_nat x) (-1)); [lia|]. cbn [negb]. rewrite rdz_nat.
  assert (x < n) by (apply (ranking_lt d n); by eapply list_elem_of_lookup_2).
  csteps; [lia | lia | done].
Qed.

Lemma clip_prediction_ok k d n r :
  1 ≤ k → ensures (clip_prediction (enc k (ranking d n)) r) (fun r' =>
    if n =? 0 then r' = d_of_Z (-1) else notneg r').
Proof.
  intros Hk. unfold clip_prediction. rewrite (rd_some _ _ _ (lookup_enc k _ 0 ltac:(lia))). cbn [mbind res_bind ensures].
  pose proof (length_ranking d n) as Hl. destruct n as [|n]; simpl.
  - destruct (ranking d 0); [done | discriminate].
  - destruct (ranking d (S n)) as [|x l]; [discriminate|]. simpl.
    destruct (Z.eqb_spec (Z.of_nat x) (-1)); [lia|]. destruct (dlt r d0) eqn:E; [apply notneg_d0 | done].
Qed.

Lemma predict_tail_ok k d rows targets :
  1 ≤ k → length d = rows → rows ≤ length targets →
  ensures ('(w, w_sum, idx) ← OkNNr_compute_weights d rows k;
           result ← weighted_mean k idx w targets w_sum; clip_prediction idx result)
    (fun r => if rows =? 0 then r = d_of_Z (-1) else notneg r).
Proof.
  intros Hk Hd Ht. eapply ensures_bind_mono; [apply compute_weights_ok; lia|].
  intros [[w s] idx] [-> Hw _ _]. eapply ensures_bind_mono; [by apply weighted_mean_ok|].
  intros r _. by apply clip_prediction_ok.
Qed.

Lemma predict_ok rows cols matrix targets nw k :
  1 ≤ k → mat_ok matrix rows cols → cols ≤ length nw → rows ≤ length targets →
  ensures (OkNNr_predict rows cols matrix targets nw k) (fun r => if rows =? 0 then r = d_of_Z (-1) else notneg r).
Proof.
  intros Hk Hm Hnw Ht. eapply ensures_bind_mono; [by apply row_distances_ok|]. intros d [Hd _]. by apply predict_tail_ok.
Qed.

Lemma predict2_ok rows cols matrix targets nw k :
  1 ≤ k → mat_ok matrix rows cols → cols ≤ length nw → rows ≤ length targets →
  ensures (OkNNr_predict2 rows cols matrix targets nw k) notneg.
Proof.
  intros Hk Hm Hnw Ht. unfold OkNNr_predict2. destruct (Nat.eqb_spec rows 0) as [|Hr]; [apply notneg_d0|].
  eapply ensures_bind_mono; [by apply row_distances_min_ok|]. intros [d mn] [Hd _].
  destruct (dlt _ mn); [apply notneg_d0|].
  eapply ensures_mono; [by apply predict_tail_ok|]. intros r. by destruct (Nat.eqb_spec rows 0).
Qed.

(** ** What learning changes *)

(** Only the rows in [S] differ, and no row changes its length. *)
Record rows_frame (S : list nat) (m m' : list (list double)) : Prop := {
  rf_len : length m' = length m;
  rf_other i : i ∉ S → m' !! i = m !! i;
  rf_row i r r' : m !! i = Some r → m' !! i = Some r' → length r' = length r
}.

Lemma rows_frame_refl S m : rows_frame S m m.
Proof. split; [done | done|]. intros. simplify_eq. done. Qed.

Lemma rows_frame_trans S m m' m'' : rows_frame S m m' → rows_frame S m' m'' → rows_frame S m m''.
Proof.
  intros [Hl Ho Hr] [Hl' Ho' Hr']. split; [congruence | intros; rewrite Ho', Ho by done; done|].
  intros i r r'' Hi Hi''. destruct (lookup_lt_is_Some_2 m' i) as [r' Hi'].
  { rewrite Hl. by eapply lookup_lt_Some. }
  rewrite (Hr' _ _ _ Hi' Hi''). by eapply Hr.
Qed.

Lemma rows_frame_mono S S' m m' : S ⊆ S' → rows_frame S m m' → rows_frame S' m m'.
Proof. intros Hs [Hl Ho Hr]. split; [done | | done]. intros i Hi. apply Ho. set_solver. Qed.

Lemma rows_frame_set m i r j x :
  m !! i = Some r → rows_frame [i] m (<[i := <[j := x]> r]> m).
Proof.
  intros Hi. split; [by rewrite length_insert| |].
  - intros k Hk. apply list_lookup_insert_ne. set_solver.
  - intros k a b Ha Hb. destruct (decide (k = i)) as [->|].
    + rewrite list_lookup_insert_eq in Hb by (by eapply lookup_lt_Some). simplify_eq. by rewrite length_insert.
    + rewrite list_lookup_insert_ne in Hb by done. by simplify_eq.
Qed.

Lemma rows_frame_mat S m m' rows cols : rows_frame S m m' → mat_ok m rows cols → mat_ok m' rows cols.
Proof.
  intros [Hl _ Hr] [H1 H2]. split; [lia|]. intros i r' Hi'.
  destruct (lookup_lt_is_Some_2 m i) as [r Hi]. { rewrite <- Hl. by eapply lookup_lt_Some. }
  rewrite (Hr _ _ _ Hi Hi'). by eapply H2.
Qed.

Lemma move_row_ok rate cols r nw m rows :
  mat_ok m rows cols → cols ≤ length nw → r < length m → ensures (move_row rate cols r nw m) (rows_frame [r] m).
Proof.
  intros Hm Hnw Hr. apply (ensures_for (fun _ m' => rows_frame [r] m m')); [lia | apply rows_frame_refl|].
  intros j m' Hj Hf. pose proof (rows_frame_mat _ _ _ _ _ Hf Hm) as [H1 H2]. pose proof (rf_len _ _ _ Hf) as Hl.
  apply ensures_bind, ensures_rd; [lia|]. intros row Hrow. pose proof (H2 _ _ Hrow).
  csteps; try lia. eapply rows_frame_trans; [done|]. by apply rows_frame_set.
Qed.

Lemma copy_row_ok cols r nw m rows :
  mat_ok m rows cols → cols ≤ length nw → r < length m → ensures (copy_row cols r nw m) (rows_frame [r] m).
Proof.
  intros Hm Hnw Hr. apply (ensures_for (fun _ m' => rows_frame [r] m m')); [lia | apply rows_frame_refl|].
  intros j m' Hj Hf. pose proof (rows_frame_mat _ _ _ _ _ Hf Hm) as [H1 H2]. pose proof (rf_len _ _ _ Hf) as Hl.
  apply ensures_bind, ensures_rd; [lia|]. intros row Hrow. pose proof (H2 _ _ Hrow).
  csteps; try lia. eapply rows_frame_trans; [done|]. by apply rows_frame_set.
Qed.

Lemma nearest_row_ok m nw rows cols :
  mat_ok m rows cols → cols ≤ length nw →
  ensures (nearest_row rows cols m nw) (fun '(d, mid) => length d = rows ∧ dists_ok m nw cols rows d ∧
    (mid = 0 ∨ mid < rows)).
Proof.
  intros Hm Hnw. eapply ensures_mono.
  - apply (ensures_for (fun i st => length st.1 = rows ∧ dists_ok m nw cols i st.1 ∧ (st.2 = 0 ∨ st.2 < rows))); [lia| |].
    + simpl. rewrite length_replicate. split; [done|]. split; [intros ? ? ?; lia | auto].
    + intros i [d mid] Hi (Hl & Hd & Hmid). simpl in *.
      destruct (dist_row_ok m nw rows cols i Hm Hnw ltac:(lia)) as (row & x & Hr & -> & Hx & _).
      cbn [mbind res_bind]. rewrite Hx. cbn [mbind res_bind]. apply ensures_bind, ensures_wr; [lia|].
      apply ensures_bind, ensures_rd; [rewrite length_insert; lia|]. intros di _.
      apply ensures_bind, ensures_rd; [rewrite length_insert; lia|]. intros dm _.
      simpl. rewrite length_insert. split; [done|].
      split; [eapply dists_ok_step; eauto; lia | destruct (dlt di dm); lia].
  - intros [d mid] H. exact H.
Qed.

(** The row found is a nearest one when no distance is NaN. *)
Lemma nearest_row_min m nw rows cols :
  mat_ok m rows cols → cols ≤ length nw →
  (∀ i row x, i < rows → m !! i = Some row → fs_distance row nw cols = Ok x → is_nan x = false) →
  ensures (nearest_row rows cols m nw) (fun '(d, mid) => ∀ j, j < rows → near d j mid = false).
Proof.
  intros Hm Hnw Hnan. eapply ensures_mono.
  - apply (ensures_for (fun i st => length st.1 = rows ∧ (i = 0 → st.2 = 0) ∧ (st.2 < i ∨ i = 0) ∧
      (∀ k x, k < i → st.1 !! k = Some x → is_nan x = false) ∧ ∀ j, j < i → near st.1 j st.2 = false)); [lia| |].
    + simpl. rewrite length_replicate. split_and!; auto; lia.
    + intros i [d mid] Hi (Hl & H0 & Hmid & Hn & Hmin). simpl in *.
      destruct (dist_row_ok m nw rows cols i Hm Hnw ltac:(lia)) as (row & x & Hr & -> & Hx & _).
      cbn [mbind res_bind]. rewrite Hx. cbn [mbind res_bind]. apply ensures_bind, ensures_wr; [lia|].
      assert (Hmr : mid < rows) by lia.
      set (d' := <[i := x]> d). assert (Hl' : length d' = rows) by (unfold d'; by rewrite length_insert).
      assert (Hi' : d' !! i = Some x) by (apply list_lookup_insert_eq; lia).
      assert (Hne : ∀ k, k ≠ i → d' !! k = d !! k) by (intros; by apply list_lookup_insert_ne).
      assert (Hn' : ∀ k y, k < S i → d' !! k = Some y → is_nan y = false).
      { intros k y Hk Hy. destruct (decide (k = i)) as [->|]; [rewrite Hi' in Hy; injection Hy as <-; apply (Hnan i row); [lia | done | done]|].
        rewrite Hne in Hy by done. apply (Hn k y); [lia | done]. }
      rewrite (rd_some _ _ _ Hi'). cbn [mbind res_bind].
      apply ensures_bind, ensures_rd; [lia|]. intros dm Hdm.
      assert (Hmid' : ∀ j, j < i → near d' j mid = false).
      { intros j Hj. unfold near. rewrite !Hne by lia. by apply Hmin. }
      simpl. split; [done|]. split; [done|]. split; [destruct (dlt x dm); lia|]. split; [done|].
      intros j Hj. destruct (dlt x dm) eqn:E.
      * destruct (decide (j = i)) as [->|]; [unfold near; by rewrite Hi', dlt_irrefl|].
        specialize (Hmid' j ltac:(lia)). unfold near in *. rewrite Hi'. rewrite Hdm in Hmid'.
        destruct (d' !! j) as [y|]; [|done].
        apply (dlt_false_trans y dm x); [|done|by apply dlt_asym].
        apply (Hn' mid dm); [|done]. destruct Hmid; lia.
      * destruct (decide (j = i)) as [->|]; [unfold near; by rewrite Hi', Hdm|]. apply Hmid'. lia.
  - intros [d mid] (_ & _ & _ & _ & H). exact H.
Qed.

(** Room for the rows: one more when the matrix may still grow. *)
Definition room (m : list (list double)) (rows cols k : nat) : Prop :=
  mat_ok m rows cols ∧ (rows < k → rows < length m).

Definition cells_frame (S : list nat) (a a' : list double) : Prop :=
  length a' = length a ∧ ∀ i, i ∉ S → a' !! i = a !! i.

Lemma cells_frame_set a i x : i < length a → cells_frame [i] a (<[i := x]> a).
Proof. intros Hi. split; [by rewrite length_insert|]. intros j Hj. apply list_lookup_insert_ne. set_solver. Qed.

Lemma cells_frame_trans S a a' a'' : cells_frame S a a' → cells_frame S a' a'' → cells_frame S a a''.
Proof. intros [Hl Ho] [Hl' Ho']. split; [congruence|]. intros i Hi. by rewrite Ho', Ho. Qed.

Lemma cells_frame_refl S a : cells_frame S a a.
Proof. done. Qed.

Lemma cells_frame_mono S S' a a' : S ⊆ S' → cells_frame S a a' → cells_frame S' a a'.
Proof. intros Hs [Hl Ho]. split; [done|]. intros i Hi. apply Ho. set_solver. Qed.

Lemma move_cell_ok rate v a i : i < length a → ensures (move_cell rate v a i) (cells_frame [i] a).
Proof. intros Hi. unfold move_cell. csteps; [lia | lia|]. by apply cells_frame_set. Qed.

Lemma gradient_row_ok cols w d nw s r c i x rows (m : list (list double)) (t : list double) lst m0 t0 :
  mat_ok m0 rows cols → cols ≤ length nw → i < length w → x < length d → x < rows → x < length t0 →
  rows_frame lst m0 m → cells_frame lst t0 t →
  ensures (gradient_row cols w d nw s r c i (Z.of_nat x) (m, t, lst)) (fun '(m', t', lst') =>
    lst' = lst ++ [x] ∧ rows_frame lst' m0 m' ∧ cells_frame lst' t0 t').
Proof.
  intros Hm Hnw Hw Hd Hx Ht Hf Hc. unfold gradient_row.
  assert (Hsub : lst ⊆ lst ++ [x]) by set_solver. assert (Hsub' : [x] ⊆ lst ++ [x]) by set_solver.
  pose proof (proj1 Hc) as Hlt. pose proof (proj1 Hm) as Hlm.
  rewrite (rdz_nat t). apply ensures_bind, ensures_rd; [lia|]. intros tx _.
  apply ensures_bind, ensures_rd; [lia|]. intros wi _. rewrite (wrz_nat t).
  apply ensures_bind, ensures_wr; [lia|].
  eapply ensures_bind_mono.
  - apply (ensures_for (fun _ m' => rows_frame (lst ++ [x]) m0 m')); [lia | exact (rows_frame_mono _ _ _ _ Hsub Hf)|].
    intros j m' Hj Hf'. pose proof (rows_frame_mat _ _ _ _ _ Hf' Hm) as [H1 H2].
    rewrite !rdz_nat. apply ensures_bind, ensures_rd; [lia|]. intros row Hrow. pose proof (H2 _ _ Hrow).
    apply ensures_bind, ensures_rd; [lia|]. intros f _. apply ensures_bind, ensures_rd; [lia|]. intros cv _.
    apply ensures_bind, ensures_rd; [lia|]. intros dv _. apply ensures_bind, ensures_wr; [lia|].
    rewrite wrz_nat. apply ensures_wr; [lia|]. eapply rows_frame_trans; [done|].
    eapply rows_frame_mono; [exact Hsub'|]. by apply rows_frame_set.
  - intros m' Hf'. simpl. rewrite Nat2Z.id. split; [done|]. split; [done|].
    eapply cells_frame_trans; [exact (cells_frame_mono _ _ _ _ Hsub Hc)|].
    eapply cells_frame_mono; [exact Hsub'|]. apply cells_frame_set. lia.
Qed.

Lemma take_min_length {A} (l : list A) k : take (Nat.min k (length l)) l = take k l.
Proof.
  destruct (decide (k ≤ length l)); [by rewrite Nat.min_l by lia|].
  rewrite Nat.min_r by lia. by rewrite firstn_all, take_ge by lia.
Qed.

(** The rows that change: one when the matrix still grows, else the [k] nearest. *)
Definition learned_rows (d : list double) (rows k : nat) (lst : list nat) : Prop :=
  if rows <? k then ∃ x, lst = [x] ∧ x ≤ rows else lst = take k (ranking d rows).

Lemma learn_ok rows cols m t nw nt k :
  room m rows cols k → length t = length m → cols ≤ length nw →
  ensures (OkNNr_learn rows cols m t nw nt k) (fun '(m', t', lst) =>
    (∃ d, dists_ok m nw cols rows d ∧ learned_rows d rows k lst) ∧
    rows_frame lst m m' ∧ cells_frame lst t t').
Proof.
  intros [Hm Hroom] Ht Hnw. unfold OkNNr_learn, learned_rows.
  eapply ensures_bind_mono; [by apply nearest_row_ok|]. intros [d mid] (Hl & Hd & Hmid).
  pose proof (proj1 Hm) as Hlm. destruct (Nat.ltb_spec rows k) as [Hlt|Hge].
  - specialize (Hroom Hlt).
    apply ensures_bind. apply (ensures_mono _ (fun near => near = true → mid < rows)).
    { destruct (Nat.eqb_spec rows 0); [done|]. cbn [negb].
      apply ensures_bind, ensures_rd; [lia|]. intros x _. simpl. lia. }
    intros [] Hnear.
    + specialize (Hnear eq_refl).
      eapply ensures_bind_mono; [eapply move_row_ok; eauto; lia|]. intros m' Hf.
      eapply ensures_bind_mono; [apply move_cell_ok; lia|]. intros t' Hc.
      split; [|done]. exists d. split; [done|]. exists mid. split; [done | lia].
    + eapply ensures_bind_mono; [eapply copy_row_ok; eauto; lia|]. intros m' Hf.
      apply ensures_bind, ensures_wr; [lia|]. split; [|split; [done | apply cells_frame_set; lia]].
      exists d. split; [done|]. by exists rows.
  - eapply ensures_bind_mono; [apply compute_weights_ok; lia|]. intros [[w s] idx] [-> Hw _ _].
    assert (Hrk : ∀ i x, ranking d rows !! i = Some x → x < rows).
    { intros i x Hx. apply (ranking_lt d). by eapply list_elem_of_lookup_2. }
    eapply ensures_bind_mono.
    { apply (ensures_while_idx (fun _ _ => True)); [done|]. intros i x r Hi Hx _.
      pose proof (Hrk _ _ Hx). rewrite rdz_nat. csteps; [lia | lia | done]. }
    intros r _. eapply ensures_mono.
    + apply (ensures_while_idx (fun i st => let '(m', t', lst) := st in
        lst = take i (ranking d rows) ∧ rows_frame lst m m' ∧ cells_frame lst t t')).
      * split; [done|]. split; [apply rows_frame_refl | apply cells_frame_refl].
      * intros i x [[m' t'] lst] Hi Hx (-> & Hf & Hc). pose proof (Hrk _ _ Hx).
        eapply ensures_mono; [eapply gradient_row_ok; eauto; lia|].
        intros [[m'' t''] lst'] (-> & Hf' & Hc'). split; [symmetry; by apply take_S_r | done].
    + intros [[m' t'] lst] (-> & Hf & Hc). rewrite take_min_length in *. split; [|done].
      exists d. done.
Qed.

Lemma learn_best_cost_ok cols m est true_ nw ne nt mid rows :
  mat_ok m rows cols → length est = length m → length true_ = length m → cols ≤ length nw → mid < length m →
  ensures (learn_best_cost cols m est true_ nw ne nt mid) (fun '(m', est', true', lst) =>
    (lst = [] ∨ lst = [mid]) ∧ rows_frame lst m m' ∧ cells_frame lst est est' ∧ cells_frame lst true_ true').
Proof.
  intros Hm He Ht Hnw Hmid. unfold learn_best_cost.
  pose proof (move_row_ok (dlit 1 10) cols mid nw m rows Hm Hnw Hmid) as Hmove.
  apply ensures_bind, ensures_rd; [lia|]. intros hc Hhc. destruct (_ || _).
  { eapply ensures_bind_mono; [exact Hmove|]. intros m' Hf.
    eapply ensures_bind_mono; [apply move_cell_ok; lia|]. intros e' Hc.
    split_and!; [auto | done | done | apply cells_frame_refl]. }
  destruct (dlt _ _).
  { eapply ensures_bind_mono; [exact Hmove|]. intros m' Hf.
    eapply ensures_bind_mono; [apply move_cell_ok; lia|]. intros e' Hc.
    apply ensures_bind, ensures_rd; [lia|]. intros x _. apply ensures_bind, ensures_wr; [lia|].
    split_and!; [auto | done | done | apply cells_frame_set; lia]. }
  destruct (dlt _ _).
  2:{ split_and!; [auto | apply rows_frame_refl | apply cells_frame_refl..]. }
  apply ensures_bind, ensures_rd; [lia|]. intros e _.
  apply (ensures_bind_mono _ _ (fun '(m', e') => rows_frame [mid] m m' ∧ cells_frame [mid] est e')).
  - destruct (dlt ne e); [|split; [apply rows_frame_refl | apply cells_frame_refl]].
    eapply ensures_bind_mono; [exact Hmove|]. intros m' Hf.
    eapply ensures_bind_mono; [apply move_cell_ok; lia|]. intros e' Hc. done.
  - intros [m' e'] [Hf Hc]. split_and!; [auto | done | done | apply cells_frame_refl].
Qed.

Lemma learn2_ok rows cols m est true_ nw ne nt k :
  room m rows cols k → 1 ≤ k → length est = length m → length true_ = length m → cols ≤ length nw →
  ensures (OkNNr_learn2 rows cols m est true_ nw ne nt k) (fun '(m', est', true', lst) =>
    (length lst ≤ 1 ∧ Forall (fun x => x < rows ∨ (x = rows ∧ rows < k)) lst) ∧
    rows_frame lst m m' ∧ cells_frame lst est est' ∧ cells_frame lst true_ true').
Proof.
  intros [Hm Hroom] Hk He Ht Hnw. unfold OkNNr_learn2.
  eapply ensures_bind_mono; [by apply nearest_row_ok|]. intros [d mid] (Hl & Hd & Hmid).
  pose proof (proj1 Hm) as Hlm.
  assert (Hbest : mid < rows → ensures (learn_best_cost cols m est true_ nw ne nt mid)
    (fun '(m', est', true', lst) =>
      (length lst ≤ 1 ∧ Forall (fun x => x < rows ∨ (x = rows ∧ rows < k)) lst) ∧
      rows_frame lst m m' ∧ cells_frame lst est est' ∧ cells_frame lst true_ true')).
  { intros Hlt. eapply ensures_mono; [eapply learn_best_cost_ok; eauto; lia|].
    intros [[[m' e'] t'] lst] ([-> | ->] & H); (split; [|done]); simpl;
      (split; [lia|]); [constructor | by constructor; [left|constructor]]. }
  destruct (Nat.ltb_spec rows k) as [Hlt|Hge]; [|apply Hbest; lia]. specialize (Hroom Hlt).
  apply ensures_bind. apply (ensures_mono _ (fun near => near = true → mid < rows)).
  { destruct (Nat.eqb_spec rows 0); [done|]. cbn [negb].
    apply ensures_bind, ensures_rd; [lia|]. intros x _. simpl. lia. }
  intros [] Hnear; [apply Hbest; auto|].
  eapply ensures_bind_mono; [eapply copy_row_ok; eauto; lia|]. intros m' Hf.
  apply ensures_bind, ensures_wr; [lia|]. apply ensures_bind, ensures_wr; [lia|].
  split; [|split; [done | split; apply cells_frame_set; lia]]. split; [simpl; lia|].
  apply Forall_singleton. by right.
Qed.

(** ** Properties *)

(** [OkNNr_compute_weights] selects the nearest rows: [idx] holds the first
    [aqo_k] rows of a ranking of all rows, padded with [-1]; without NaN the
    ranking is by distance, so no row left out is closer than one selected;
    [w] holds their similarities and [w_sum] the sum of these. *)
Theorem compute_weights_nearest (distances : list double) (matrix_rows aqo_k : nat) :
  matrix_rows ≤ length distances →
  ensures (OkNNr_compute_weights distances matrix_rows aqo_k) (fun '(w, w_sum, idx) =>
    ∃ rk, rk ≡ₚ seq 0 matrix_rows ∧
      idx = map Z.of_nat (take aqo_k rk) ++ replicate (aqo_k - matrix_rows) (-1)%Z ∧
      (Forall (fun x => is_nan x = false) distances →
         ∀ i j x y a b, i < j → rk !! i = Some x → rk !! j = Some y →
           distances !! x = Some a → distances !! y = Some b → dlt b a = false) ∧
      length w = aqo_k ∧
      (∀ i x a, i < aqo_k → rk !! i = Some x → distances !! x = Some a → w !! i = Some (fs_similarity a)) ∧
      w_sum = foldl dadd d0 (take (Nat.min aqo_k matrix_rows) w)).
Proof.
  intros Hn. eapply ensures_mono; [by apply compute_weights_ok|].
  intros [[w s] idx] [Hi Hl Hw Hs]. exists (ranking distances matrix_rows).
  split; [apply ranking_perm|]. split; [by rewrite Hi; unfold enc; rewrite length_ranking|].
  split; [|done]. intros Hnan i j x y a b Hij Hx Hy Ha Hb.
  pose proof (ranking_sorted _ _ Hnan Hn) as Hsort.
  assert (Hno : no_closer distances x y).
  { clear -Hsort Hij Hx Hy. revert i j Hij Hx Hy. induction Hsort as [|z l Hs IH Hz]; intros i j Hij Hx Hy; [done|].
    destruct j as [|j]; [lia|]. destruct i as [|i]; simpl in *.
    - simplify_eq. by eapply Forall_lookup in Hz.
    - apply (IH i j); [lia | done | done]. }
  unfold no_closer, near in Hno. by rewrite Ha, Hb in Hno.
Qed.

Lemma compute_weights_nearest_witness :
  ensures (OkNNr_compute_weights [dlit 3 10; dlit 1 10; dlit 2 10] 3 2) (fun '(w, w_sum, idx) =>
    idx = [1; 2]%Z ∧ length w = 2).
Proof.
  pose proof (compute_weights_nearest [dlit 3 10; dlit 1 10; dlit 2 10] 3 2 (le_n 3)) as H.
  destruct (OkNNr_compute_weights _ 3 2) as [[[w s] idx]|e] eqn:E; [|exact H].
  destruct H as (rk & _ & _ & _ & Hl & _).
  vm_compute in E. injection E as <- <- <-. split; [reflexivity | exact Hl].
Defined.

(** [OkNNr_predict] returns without leaving an array; it refuses ([-1])
    exactly when there are no rows, and otherwise never predicts a negative
    value; [OkNNr_predict2] never returns a negative value. *)
Theorem predict_not_negative (rows cols : nat) (matrix : list (list double))
    (targets nw_features : list double) (aqo_k : nat) :
  1 ≤ aqo_k → mat_ok matrix rows cols → cols ≤ length nw_features → rows ≤ length targets →
  ensures (OkNNr_predict rows cols matrix targets nw_features aqo_k)
    (fun r => if rows =? 0 then r = d_of_Z (-1) else dlt r d0 = false) ∧
  ensures (OkNNr_predict2 rows cols matrix targets nw_features aqo_k) (fun r => dlt r d0 = false).
Proof.
  intros Hk Hm Hnw Ht. split.
  - by apply predict_ok.
  - by apply predict2_ok.
Qed.

Lemma predict_not_negative_witness :
  ensures (OkNNr_predict 2 1 [[d_of_Z 1]; [d_of_Z 3]] [d_of_Z 10; d_of_Z 20] [d_of_Z 2] 2)
    (fun r => dlt r d0 = false).
Proof.
  apply (predict_not_negative 2 1 [[d_of_Z 1]; [d_of_Z 3]] [d_of_Z 10; d_of_Z 20] [d_of_Z 2] 2);
    simpl; try lia.
  split; [simpl; lia|]. intros [|[|i]] row Hr; vm_compute in Hr; [injection Hr as <-; simpl; lia..|discriminate].
Defined.

(** [OkNNr_learn] returns without leaving an array, changes only the rows
    and targets it lists, and the matrix never grows beyond [aqo_k] rows: below
    [aqo_k] it lists one row, an existing one or the next new one; otherwise
    it lists the [aqo_k] nearest of the existing rows, each once. *)
Theorem learn_bounded (rows cols : nat) (matrix : list (list double)) (targets nw_features : list double)
    (nw_target : double) (aqo_k : nat) :
  room matrix rows cols aqo_k → length targets = length matrix → cols ≤ length nw_features →
  ensures (OkNNr_learn rows cols matrix targets nw_features nw_target aqo_k) (fun '(matrix', targets', lst) =>
    NoDup lst ∧ Forall (fun x => x < Nat.max rows aqo_k ∧ x ≤ rows) lst ∧
    (aqo_k ≤ rows → Forall (fun x => x < rows) lst ∧ length lst = aqo_k) ∧
    length matrix' = length matrix ∧ length targets' = length targets ∧
    ∀ i, i ∉ lst → matrix' !! i = matrix !! i ∧ targets' !! i = targets !! i).
Proof.
  intros Hroom Ht Hnw. eapply ensures_mono; [by apply learn_ok|].
  intros [[m' t'] lst] ((d & _ & Hlst) & [Hlm Hom _] & [Hlt Hot]).
  split; [|split; [|split; [|by auto]]]; unfold learned_rows in Hlst;
    destruct (Nat.ltb_spec rows aqo_k) as [Hlt'|Hge].
  - destruct Hlst as (x & -> & _). apply NoDup_singleton.
  - subst lst. eapply sublist_NoDup; [|apply sublist_take]. rewrite ranking_perm. apply NoDup_seq.
  - destruct Hlst as (x & -> & Hx). apply Forall_singleton. lia.
  - subst lst. apply Forall_take, Forall_forall. intros x Hx%ranking_lt. lia.
  - lia.
  - subst lst. intros _. split; [apply Forall_take, Forall_forall; intros x Hx%ranking_lt; lia|].
    rewrite length_take, length_ranking. lia.
Qed.

Lemma learn_bounded_witness :
  ensures (OkNNr_learn 2 1 [[d_of_Z 1]; [d_of_Z 3]] [d_of_Z 10; d_of_Z 20] [d_of_Z 2] (d_of_Z 12) 2)
    (fun '(m', t', lst) => Forall (fun x => x < 2) lst ∧ length lst = 2).
Proof.
  eapply ensures_mono.
  - apply (learn_bounded 2 1 [[d_of_Z 1]; [d_of_Z 3]] [d_of_Z 10; d_of_Z 20] [d_of_Z 2] (d_of_Z 12) 2);
      simpl; try lia.
    split; [split; [simpl; lia|]|simpl; lia].
    intros [|[|i]] row Hr; vm_compute in Hr; [injection Hr as <-; simpl; lia..|discriminate].
  - intros [[m' t'] lst] (_ & _ & H & _). apply H. lia.
Defined.

(** [OkNNr_learn2] records at most one row, an existing one or, below
    [aqo_k], the next new one; every other row and cost stays as it was. *)
Theorem learn2_bounded (rows cols : nat) (matrix : list (list double))
    (est true_ nw_features : list double) (nw_est nw_true : double) (aqo_k : nat) :
  room matrix rows cols aqo_k → 1 ≤ aqo_k → length est = length matrix → length true_ = length matrix →
  cols ≤ length nw_features →
  ensures (OkNNr_learn2 rows cols matrix est true_ nw_features nw_est nw_true aqo_k)
    (fun '(matrix', est', true', lst) =>
      length lst ≤ 1 ∧ Forall (fun x => x < rows ∨ (x = rows ∧ rows < aqo_k)) lst ∧
      length matrix' = length matrix ∧
      ∀ i, i ∉ lst → matrix' !! i = matrix !! i ∧ est' !! i = est !! i ∧ true' !! i = true_ !! i).
Proof.
  intros Hroom Hk He Ht Hnw. eapply ensures_mono; [by apply learn2_ok|].
  intros [[[m' e'] t'] lst] ((Hl & HF) & [Hlm Hom _] & [_ Hoe] & [_ Hot]). split_and!; auto.
Qed.

Lemma learn2_bounded_witness :
  ensures (OkNNr_learn2 1 1 [[d_of_Z 1]; [d0]] [d_of_Z 10; d0] [d_of_Z 30; d0] [d_of_Z 5]
             (d_of_Z 7) (d_of_Z 9) 2)
    (fun '(m', e', t', lst) => lst = [1] ∧ m' !! 0 = Some [d_of_Z 1]).
Proof.
  assert (Hroom : room [[d_of_Z 1]; [d0]] 1 1 2).
  { split; [split; [simpl; lia|]|simpl; lia].
    intros [|[|i]] row Hr; vm_compute in Hr; [injection Hr as <-; simpl; lia..|discriminate]. }
  pose proof (learn2_bounded 1 1 [[d_of_Z 1]; [d0]] [d_of_Z 10; d0] [d_of_Z 30; d0] [d_of_Z 5]
             (d_of_Z 7) (d_of_Z 9) 2 Hroom ltac:(lia) eq_refl eq_refl ltac:(simpl; lia)) as H.
  destruct (OkNNr_learn2 _ _ _ _ _ _ _ _ _) as [[[[m' e'] t'] lst]|] eqn:E; [|exact H].
  destruct H as (_ & _ & _ & Hrest).
  assert (lst = [1]) as -> by (vm_compute in E; injection E as <- <- <- <-; reflexivity).
  split; [reflexivity|]. rewrite (proj1 (Hrest 0 ltac:(clear; set_solver))). reflexivity.
Defined.
