(* ===== verification/PgArray.v ===== *)
(** * PgArray: float8 arrays in tuples, and the C arrays they come from and go to

    [form_matrix], [form_vector], [deform_matrix] and [deform_vector] of
    contrib/aqo/storage.c, with the round trips between them.  An [ArrayType]
    of float8 values is the list of its dimensions and the list of its
    elements; [construct_md_array] of src/backend/utils/adt/arrayfuncs.c makes
    an array without elements into the one without dimensions. *)
From S2P Require Import Prelude Float64.

Record ArrayType : Type := mkArray { ARR_DIMS : list nat; arr_elems : list double }.

Definition construct_md_array (elems : list double) (dims : list nat) : ArrayType :=
  if foldr Nat.mul 1 dims =? 0 then mkArray [] [] else mkArray dims elems.

(** [elems0] is the uninitialised block of [nrows * ncols] elements. *)
Definition form_matrix (elems0 : list double) (matrix : list (list double)) (nrows ncols : nat)
  : res ArrayType :=
  elems ← for_range 0 nrows (fun i elems =>
    for_range 0 ncols (fun j elems =>
      row ← rd matrix i;
      x ← rd row j;
      wr elems (i * ncols + j) x) elems) elems0;
  Ok (construct_md_array elems [nrows; ncols]).

Definition form_vector (elems0 vector : list double) (nrows : nat) : res ArrayType :=
  elems ← for_range 0 nrows (fun i elems => x ← rd vector i; wr elems i x) elems0;
  Ok (construct_md_array elems [nrows]).

(** What [palloc] gives for [n] elements: any block of that size would do. *)
Definition uninit (n : nat) : list double := replicate n d0.

Definition mform (matrix : list (list double)) (nrows ncols : nat) : res ArrayType :=
  form_matrix (uninit (nrows * ncols)) matrix nrows ncols.

Definition vform (vector : list double) (nrows : nat) : res ArrayType :=
  form_vector (uninit nrows) vector nrows.

Definition deform_matrix (array : ArrayType) (matrix : list (list double)) : res (list (list double)) :=
  let values := arr_elems array in
  if negb (length values =? 0) then
    rows ← rd (ARR_DIMS array) 0;
    cols ← rd (ARR_DIMS array) 1;
    for_range 0 rows (fun i matrix =>
      for_range 0 cols (fun j matrix =>
        row ← rd matrix i;
        x ← rd values (i * cols + j);
        row ← wr row j x;
        wr matrix i row) matrix) matrix
  else Ok matrix.

(** Returns the vector and its number of elements. *)
Definition deform_vector (array : ArrayType) (vector : list double) : res (list double * nat) :=
  let values := arr_elems array in
  let nelems := length values in
  vector ← for_range 0 nelems (fun i vector => x ← rd values i; wr vector i x) vector;
  Ok (vector, nelems).

(** ** Copies *)

(** Copying cell by cell between two arrays. *)
Lemma copy_loop_ok {A} (src dst : list A) n :
  n ≤ length src → n ≤ length dst →
  for_range 0 n (fun i d => x ← rd src i; wr d i x) dst = Ok (take n src ++ drop n dst).
Proof.
  intros Hs Hd.
  assert (H : ensures (for_range 0 n (fun i d => x ← rd src i; wr d i x) dst)
                (fun d => d = take n src ++ drop n dst)).
  { apply (ensures_for (fun i d => d = take i src ++ drop i dst)); [lia | done|].
    intros i d Hi ->. destruct (lookup_lt_is_Some_2 src i) as [x Hx]; [lia|].
    rewrite (rd_some _ _ _ Hx). cbn [mbind res_bind].
    assert (Hl : length (take i src) = i) by (rewrite length_take; lia).
    apply ensures_wr; [rewrite length_app, length_drop; lia|].
    rewrite insert_app_r_alt, Hl, Nat.sub_diag by lia.
    destruct (lookup_lt_is_Some_2 dst i) as [y Hy]; [lia|].
    rewrite (drop_S dst y i) by done. simpl. by rewrite (take_S_r src i x), <- (assoc_L (++)). }
  by apply ensures_inv in H as (a & -> & ->).
Qed.

Lemma form_vector_ok e0 v n :
  n ≤ length v → length e0 = n →
  form_vector e0 v n = Ok (if n =? 0 then mkArray [] [] else mkArray [n] (take n v)).
Proof.
  intros Hv He. unfold form_vector. rewrite copy_loop_ok by lia. cbn [mbind res_bind].
  rewrite (drop_ge e0) by lia. rewrite app_nil_r. unfold construct_md_array. simpl.
  by rewrite Nat.mul_1_r.
Qed.

Lemma deform_vector_ok a v :
  length (arr_elems a) ≤ length v →
  deform_vector a v = Ok (arr_elems a ++ drop (length (arr_elems a)) v, length (arr_elems a)).
Proof.
  intros Hv. unfold deform_vector. rewrite copy_loop_ok by lia. cbn [mbind res_bind].
  by rewrite firstn_all.
Qed.

(** The element at row [i] and column [j]. *)
Definition cell (m : list (list double)) (i j : nat) : option double := row ← m !! i; row !! j.

Definition shape (m : list (list double)) (r c : nat) : Prop :=
  r ≤ length m ∧ ∀ i row, i < r → m !! i = Some row → c ≤ length row.

Lemma shape_cell m r c i j : shape m r c → i < r → j < c → ∃ row x, m !! i = Some row ∧ row !! j = Some x.
Proof.
  intros [Hr Hc] Hi Hj. destruct (lookup_lt_is_Some_2 m i) as [row Hrow]; [lia|].
  destruct (lookup_lt_is_Some_2 row j) as [x Hx]; [specialize (Hc i row Hi Hrow); lia|]. eauto.
Qed.

Lemma grid_lt r c i j : i < r → j < c → i * c + j < r * c.
Proof. intros. nia. Qed.

Lemma grid_inj c i j i' j' : j < c → j' < c → i * c + j = i' * c + j' → i = i' ∧ j = j'.
Proof. intros. assert (i = i') by nia. subst. lia. Qed.

Lemma form_matrix_elems e0 m r c :
  shape m r c → length e0 = r * c →
  ensures (form_matrix e0 m r c) (fun a =>
    if r * c =? 0 then a = mkArray [] [] else
    ARR_DIMS a = [r; c] ∧ length (arr_elems a) = r * c ∧
    ∀ i j, i < r → j < c → arr_elems a !! (i * c + j) = cell m i j).
Proof.
  intros Hm He. unfold form_matrix. eapply ensures_bind_mono.
  - apply (ensures_for (fun i e => length e = r * c ∧
      ∀ a b, a < i → b < c → e !! (a * c + b) = cell m a b)); [lia | split; [done | lia] |].
    intros i e Hi [Hl IH]. eapply ensures_mono.
    + apply (ensures_for (fun j e => length e = r * c ∧
        ∀ a b, (a < i ∧ b < c) ∨ (a = i ∧ b < j) → e !! (a * c + b) = cell m a b)); [lia| |].
      * split; [done|]. intros a b [[? ?]|[? ?]]; [by apply IH | lia].
      * intros j e' Hj [Hl' IH']. destruct (shape_cell m r c i j Hm ltac:(lia) ltac:(lia)) as (row & x & Hrow & Hx).
        rewrite (rd_some _ _ _ Hrow). cbn [mbind res_bind]. rewrite (rd_some _ _ _ Hx). cbn [mbind res_bind].
        pose proof (grid_lt r c i j ltac:(lia) ltac:(lia)).
        apply ensures_wr; [lia|]. split; [by rewrite length_insert|]. intros a b Hab.
        destruct (decide (a * c + b = i * c + j)) as [E|E].
        -- apply grid_inj in E as [-> ->]; [|lia..]. rewrite list_lookup_insert_eq by lia.
           unfold cell. rewrite Hrow. simpl. by rewrite Hx.
        -- rewrite list_lookup_insert_ne by done. apply IH'. destruct Hab as [?|[-> ?]]; [auto|].
           right. split; [done|]. assert (b ≠ j) by (intros ->; done). lia.
    + intros e' [Hl' IH']. split; [done|]. intros a b Ha Hb. apply IH'. lia.
  - intros e [Hl IH]. simpl. unfold construct_md_array. simpl. rewrite Nat.mul_1_r.
    destruct (r * c =? 0); done.
Qed.

(** The matrix overwritten by the elements of the array. *)
Lemma deform_matrix_ok a m r c :
  ARR_DIMS a = [r; c] → length (arr_elems a) = r * c → r * c ≠ 0 → shape m r c →
  ensures (deform_matrix a m) (fun m' => length m' = length m ∧
    (∀ i row row', m !! i = Some row → m' !! i = Some row' → length row' = length row) ∧
    (∀ i j, i < r → j < c → cell m' i j = arr_elems a !! (i * c + j)) ∧
    (∀ i j, ¬ (i < r ∧ j < c) → cell m' i j = cell m i j)).
Proof.
  intros Hd Hl Hz Hm. unfold deform_matrix. rewrite Hd.
  destruct (Nat.eqb_spec (length (arr_elems a)) 0); [lia|]. cbn [negb]. simpl rd. cbn [mbind res_bind rd lookup list_lookup].
  set (P := fun (dn : nat → nat → Prop) (m' : list (list double)) => length m' = length m ∧
    (∀ i row row', m !! i = Some row → m' !! i = Some row' → length row' = length row) ∧
    (∀ i j, dn i j → cell m' i j = arr_elems a !! (i * c + j)) ∧
    (∀ i j, ¬ dn i j → cell m' i j = cell m i j)).
  assert (Hext : ∀ dn dn' m', (∀ i j, dn i j ↔ dn' i j) → P dn m' → P dn' m').
  { intros dn dn' m' E (H1 & H2 & H3 & H4). split_and!; auto; intros; [apply H3 | apply H4]; by rewrite E. }
  apply (ensures_mono _ (P (fun i j => i < r ∧ j < c))).
  2:{ intros m' (H1 & H2 & H3 & H4). split_and!; auto. }
  apply (ensures_for (fun i m' => P (fun x y => x < i ∧ y < c) m')); [lia| |].
  { split_and!; auto; [intros; congruence | lia]. }
  intros i m1 Hi HP1.
  apply (ensures_mono _ (P (fun x y => (x < i ∧ y < c) ∨ (x = i ∧ y < c)))).
  2:{ intros m'. apply Hext. lia. }
  apply (ensures_for (fun j m' => P (fun x y => (x < i ∧ y < c) ∨ (x = i ∧ y < j)) m')); [lia| |].
  { eapply Hext; [|exact HP1]. simpl. lia. }
  intros j m2 Hj (H1 & H2 & H3 & H4).
  destruct (lookup_lt_is_Some_2 m i) as [row0 Hrow0]; [destruct Hm; lia|].
  destruct (lookup_lt_is_Some_2 m2 i) as [row Hrow]; [destruct Hm; lia|].
  pose proof (H2 _ _ _ Hrow0 Hrow) as Hlr. pose proof (proj2 Hm i row0 ltac:(lia) Hrow0) as Hc0.
  rewrite (rd_some _ _ _ Hrow). cbn [mbind res_bind].
  pose proof (grid_lt r c i j ltac:(lia) ltac:(lia)).
  apply ensures_bind, ensures_rd; [lia|]. intros x Hx.
  apply ensures_bind, ensures_wr; [lia|]. apply ensures_wr; [by eapply lookup_lt_Some|].
  assert (Hcell : ∀ p q, cell (<[i:=<[j:=x]> row]> m2) p q = if decide (p = i ∧ q = j) then Some x else cell m2 p q).
  { intros p q. unfold cell. destruct (decide (p = i)) as [->|Hp].
    - rewrite list_lookup_insert_eq by (by eapply lookup_lt_Some). rewrite Hrow. simpl.
      destruct (decide (q = j)) as [->|Hq].
      + rewrite decide_True by done. apply list_lookup_insert_eq. lia.
      + rewrite decide_False by naive_solver. by apply list_lookup_insert_ne.
    - rewrite decide_False by naive_solver. by rewrite list_lookup_insert_ne. }
  split_and!.
  - by rewrite length_insert.
  - intros p rp rp' Hp Hp'. destruct (decide (p = i)) as [->|Hne].
    + rewrite list_lookup_insert_eq in Hp' by (by eapply lookup_lt_Some). simplify_eq.
      rewrite length_insert. done.
    + rewrite list_lookup_insert_ne in Hp' by done. by eapply H2.
  - intros p q Hpq. rewrite Hcell. case_decide as E; [destruct E as [-> ->]; done|].
    apply H3. destruct Hpq as [?|[-> ?]]; [auto|]. right. split; [done|]. assert (q ≠ j) by naive_solver. lia.
  - intros p q Hpq. rewrite Hcell, decide_False by (intros [-> ->]; apply Hpq; lia). apply H4. lia.
Qed.

(** ** Round trips *)

(** A vector written to a tuple and read back into a block with room for
    it is the vector: [deform_vector] after [form_vector] gives its number of
    elements, those elements, and leaves the rest of the block as it was. *)
Theorem vector_roundtrip e0 v n v' :
  n ≤ length v → length e0 = n → n ≤ length v' →
  (a ← form_vector e0 v n; deform_vector a v') = Ok (take n v ++ drop n v', n).
Proof.
  intros Hv He Hv'. rewrite form_vector_ok by done. cbn [mbind res_bind].
  destruct (Nat.eqb_spec n 0) as [->|Hn]; rewrite deform_vector_ok; simpl; try done.
  all: rewrite ?length_take, ?Nat.min_l by lia; try done; try lia.
Qed.

Lemma vector_roundtrip_witness :
  (a ← form_vector (uninit 2) [d_of_Z 4; d_of_Z 5; d_of_Z 6] 2; deform_vector a (uninit 3))
  = Ok ([d_of_Z 4; d_of_Z 5; d0], 2).
Proof. rewrite (vector_roundtrip (uninit 2) _ 2 (uninit 3)); simpl; [done | lia | done | lia]. Defined.

(** A matrix written to a tuple and read back into a matrix with room for
    it: the cells inside the stored dimensions are the ones written, the other
    cells are untouched; no access leaves its block, also when a dimension is
    zero and the stored array has no dimensions at all. *)
Theorem matrix_roundtrip e0 m r c m' :
  shape m r c → length e0 = r * c → shape m' r c →
  ensures (a ← form_matrix e0 m r c; deform_matrix a m') (fun m'' =>
    length m'' = length m' ∧
    ∀ i j, cell m'' i j = if decide (i < r ∧ j < c) then cell m i j else cell m' i j).
Proof.
  intros Hm He Hm'. eapply ensures_bind_mono; [by apply form_matrix_elems|]. simpl. intros a Ha.
  destruct (Nat.eqb_spec (r * c) 0) as [Hz|Hz].
  - subst a. simpl. split; [done|]. intros i j. rewrite decide_False; [done|]. nia.
  - destruct Ha as (Hd & Hl & He'). eapply ensures_mono; [by eapply deform_matrix_ok|].
    intros m'' (H1 & _ & H3 & H4). split; [done|]. intros i j. case_decide as E.
    + destruct E as [Hi Hj]. rewrite H3 by done. by apply He'.
    + by apply H4.
Qed.

Lemma matrix_roundtrip_witness :
  ensures (a ← form_matrix (uninit 2) [[d_of_Z 4; d_of_Z 5]; [d_of_Z 6]] 2 1;
           deform_matrix a [[d0; d0]; [d0; d0]]) (fun m'' =>
    length m'' = 2 ∧ ∀ i j, cell m'' i j = if decide (i < 2 ∧ j < 1)
      then cell [[d_of_Z 4; d_of_Z 5]; [d_of_Z 6]] i j else cell [[d0; d0]; [d0; d0]] i j).
Proof.
  apply (matrix_roundtrip (uninit 2) [[d_of_Z 4; d_of_Z 5]; [d_of_Z 6]] 2 1 [[d0; d0]; [d0; d0]]);
    [| done |]; (split; [simpl; lia|]; intros i row Hi Hrow; destruct i as [|[|i]]; simplify_eq/=; lia).
Defined.
