(* ===== verification/LwprModel.v ===== *)
(** * LwprModel: the LWPR model, its memory and its receptive fields

    The structures of contrib/aqo/aqo.h (LWPR_Workspace, LWPR_ReceptiveField,
    LWPR_Model) and the allocation and initialisation code of
    contrib/aqo/machine_learning_lwpr.c.  Each structure is one [palloc0]'ed
    block of doubles carved into arrays by pointer arithmetic: [carve] is that
    carving, and faults where a slice would leave the block. *)
From S2P Require Import Prelude Float64.

(** ** Parameters (aqo.c) *)
Definition num_history_data_compute_probability_rf : nat := 10.
Definition rate_between_explore_value : double := dlit 6 10.
Definition num_pred_error_history : nat := 2.
Definition num_history_data_compute_probability_fs : nat := 3.
Definition num_query_pattern : nat := 7.

(** ** Data *)

(** The arrays of a receptive field: those in [fixStorage], then those in
    [varStorage]. *)
Module RFA.
Inductive rfarr : Type :=
| alpha | D | M | h | b | c | mean_x | slope | var_x
| SXresYres | SSXres | U | P | beta | SSs2 | SSYres | H | r | sum_w | sum_e_cv2
| n_data | lambda | s | prob_rf | pred_error_history.

#[global] Instance rfarr_eq_dec : EqDecision rfarr.
Proof. solve_decision. Defined.
End RFA.
Import RFA.

Record LWPR_ReceptiveField : Type := mkRF {
  nReg : nat;
  nRegStore : nat;
  trustworthy : Z;
  slopeReady : Z;
  rf_w : double;
  sum_e2 : double;
  beta0 : double;
  SSp : double;
  conf_rf : double;
  pred_error_num : double;
  arr : rfarr → list double
}.

(** What [memset(RF, 0, sizeof)] leaves: no storage. *)
Definition zero_rf : LWPR_ReceptiveField := mkRF 0 0 0 0 d0 d0 d0 d0 d0 d0 (fun _ => []).

(** Assignments to one member. *)
Definition set_arr (RF : LWPR_ReceptiveField) (a : rfarr) (l : list double) : LWPR_ReceptiveField :=
  let '(mkRF n ns t sr w e b0 p cf pn f) := RF in
  mkRF n ns t sr w e b0 p cf pn (fun x => if decide (x = a) then l else f x).

Definition set_nReg (RF : LWPR_ReceptiveField) (x : nat) : LWPR_ReceptiveField :=
  let '(mkRF _ ns t sr w e b0 p cf pn f) := RF in mkRF x ns t sr w e b0 p cf pn f.
Definition set_trustworthy (RF : LWPR_ReceptiveField) (x : Z) : LWPR_ReceptiveField :=
  let '(mkRF n ns _ sr w e b0 p cf pn f) := RF in mkRF n ns x sr w e b0 p cf pn f.
Definition set_slopeReady (RF : LWPR_ReceptiveField) (x : Z) : LWPR_ReceptiveField :=
  let '(mkRF n ns t _ w e b0 p cf pn f) := RF in mkRF n ns t x w e b0 p cf pn f.
Definition set_w (RF : LWPR_ReceptiveField) (x : double) : LWPR_ReceptiveField :=
  let '(mkRF n ns t sr _ e b0 p cf pn f) := RF in mkRF n ns t sr x e b0 p cf pn f.
Definition set_sum_e2 (RF : LWPR_ReceptiveField) (x : double) : LWPR_ReceptiveField :=
  let '(mkRF n ns t sr w _ b0 p cf pn f) := RF in mkRF n ns t sr w x b0 p cf pn f.
Definition set_beta0 (RF : LWPR_ReceptiveField) (x : double) : LWPR_ReceptiveField :=
  let '(mkRF n ns t sr w e _ p cf pn f) := RF in mkRF n ns t sr w e x p cf pn f.
Definition set_SSp (RF : LWPR_ReceptiveField) (x : double) : LWPR_ReceptiveField :=
  let '(mkRF n ns t sr w e b0 _ cf pn f) := RF in mkRF n ns t sr w e b0 x cf pn f.
Definition set_conf_rf (RF : LWPR_ReceptiveField) (x : double) : LWPR_ReceptiveField :=
  let '(mkRF n ns t sr w e b0 p _ pn f) := RF in mkRF n ns t sr w e b0 p x pn f.
Definition set_pred_error_num (RF : LWPR_ReceptiveField) (x : double) : LWPR_ReceptiveField :=
  let '(mkRF n ns t sr w e b0 p cf _ f) := RF in mkRF n ns t sr w e b0 p cf x f.

(** [RF->a[i]] and [RF->a[i] = x]. *)
Definition getr (RF : LWPR_ReceptiveField) (a : rfarr) (i : nat) : res double := rd (arr RF a) i.
Definition setr (RF : LWPR_ReceptiveField) (a : rfarr) (i : nat) (x : double) : res LWPR_ReceptiveField :=
  l ← wr (arr RF a) i x; Ok (set_arr RF a l).

(** [memcpy(dst, src, n * sizeof(double))] between two arrays. *)
Definition memcpy (dst src : list double) (n : nat) : res (list double) :=
  if (n <=? length src) && (n <=? length dst) then Ok (take n src ++ drop n dst) else Err Fault_bounds.

Definition memcpy_to (RF : LWPR_ReceptiveField) (a : rfarr) (src : list double) (n : nat)
  : res LWPR_ReceptiveField :=
  l ← memcpy (arr RF a) src n; Ok (set_arr RF a l).

(** The arrays of a workspace, in the order of its storage. *)
Module WSA.
Inductive wsarr : Type :=
| dwdM | dJ2dM | ddwdMdM | ddJ2dMdM | xres | dx | xu | xc | xmz
| dsdx | Dx | sum_dwdx | sum_ydwdx_wdydx | sum_ddwdxdx | sum_ddRdxdx
| e_cv | Ps | Pse | ytarget | yres | ws_s.

#[global] Instance wsarr_eq_dec : EqDecision wsarr.
Proof. solve_decision. Defined.
End WSA.
Import WSA.

Record LWPR_Workspace : Type := mkWS { derivOk : list Z; wsa : wsarr → list double }.

Definition set_wsa (WS : LWPR_Workspace) (a : wsarr) (l : list double) : LWPR_Workspace :=
  mkWS (derivOk WS) (fun x => if decide (x = a) then l else wsa WS x).
Definition set_derivOk (WS : LWPR_Workspace) (l : list Z) : LWPR_Workspace := mkWS l (wsa WS).

Definition getw (WS : LWPR_Workspace) (a : wsarr) (i : nat) : res double := rd (wsa WS a) i.
Definition setw (WS : LWPR_Workspace) (a : wsarr) (i : nat) (x : double) : res LWPR_Workspace :=
  l ← wr (wsa WS a) i x; Ok (set_wsa WS a l).

Inductive LWPR_Kernel : Type := LWPR_GAUSSIAN_KERNEL | LWPR_BISQUARE_KERNEL.

Record Explore_Value : Type := mkEV { ev_rows : double; est_uncof : double; est_future : double; rate : double }.

(** The members of LWPR_Model that no operation changes once it is initialised. *)
Record LWPR_Config : Type := mkConfig {
  nIn : nat;
  nInStore : nat;
  norm_in : list double;
  norm_out : double;
  diag_only : bool;
  penalty : double;
  init_D : list double;
  init_M : list double;
  init_alpha : list double;
  w_gen : double;
  w_prune : double;
  init_lambda : double;
  final_lambda : double;
  tau_lambda : double;
  init_S2 : double;
  add_threshold : double;
  kernel : LWPR_Kernel;
  update_D : bool
}.

(** [numRFS] is the length of [rf]; [numPointers] the capacity of its array. *)
Record LWPR_Model : Type := mkModel {
  cfg : LWPR_Config;
  m_n_data : Z;
  numPointers : nat;
  n_pruned : Z;
  rf : list LWPR_ReceptiveField;
  ws : LWPR_Workspace;
  xn : list double;
  yn : double;
  fss_hash : Z;
  explore_values : Explore_Value;
  history_data_matrix : list (list double);
  num_history_data : list double
}.

Definition numRFS (m : LWPR_Model) : nat := length (rf m).

Definition set_rf (m : LWPR_Model) (l : list LWPR_ReceptiveField) : LWPR_Model :=
  let '(mkModel cf nd np pr _ w x y f ev hm nh) := m in mkModel cf nd np pr l w x y f ev hm nh.
Definition set_ws (m : LWPR_Model) (w : LWPR_Workspace) : LWPR_Model :=
  let '(mkModel cf nd np pr l _ x y f ev hm nh) := m in mkModel cf nd np pr l w x y f ev hm nh.
Definition set_numPointers (m : LWPR_Model) (n : nat) : LWPR_Model :=
  let '(mkModel cf nd _ pr l w x y f ev hm nh) := m in mkModel cf nd n pr l w x y f ev hm nh.
Definition set_n_pruned (m : LWPR_Model) (n : Z) : LWPR_Model :=
  let '(mkModel cf nd np _ l w x y f ev hm nh) := m in mkModel cf nd np n l w x y f ev hm nh.
Definition set_n_data (m : LWPR_Model) (n : Z) : LWPR_Model :=
  let '(mkModel cf _ np pr l w x y f ev hm nh) := m in mkModel cf n np pr l w x y f ev hm nh.
Definition set_xy (m : LWPR_Model) (x : list double) (y : double) : LWPR_Model :=
  let '(mkModel cf nd np pr l w _ _ f ev hm nh) := m in mkModel cf nd np pr l w x y f ev hm nh.
Definition set_fss_hash (m : LWPR_Model) (f : Z) : LWPR_Model :=
  let '(mkModel cf nd np pr l w x y _ ev hm nh) := m in mkModel cf nd np pr l w x y f ev hm nh.
Definition set_explore_values (m : LWPR_Model) (ev : Explore_Value) : LWPR_Model :=
  let '(mkModel cf nd np pr l w x y f _ hm nh) := m in mkModel cf nd np pr l w x y f ev hm nh.
Definition set_history (m : LWPR_Model) (hm : list (list double)) (nh : list double) : LWPR_Model :=
  let '(mkModel cf nd np pr l w x y f ev _ _) := m in mkModel cf nd np pr l w x y f ev hm nh.

(** ** Allocation *)

(** What [palloc] returns: whether a block is 16-byte aligned, and what an
    uninitialised member holds. *)
Class Palloc : Type := { palloc_mis : nat → bool * bool; palloc_junk : double }.

(** [p = storage; storage += n;] for every member of the layout in turn. *)
Fixpoint carve {A} `{EqDecision A} (storage : list double) (layout : list (A * nat)) : res (A → list double) :=
  match layout with
  | [] => Ok (fun _ => [])
  | (a, n) :: layout =>
      if n <=? length storage then
        f ← carve (drop n storage) layout;
        Ok (fun x => if decide (x = a) then take n storage else f x)
      else Err Fault_bounds
  end.

(** [if (((intptr_t) storage) & 8) storage++;] *)
Definition align16 (misaligned : bool) (storage : list double) : list double :=
  if misaligned then drop 1 storage else storage.

Definition palloc0 (n : nat) : list double := replicate n d0.

Definition nInS_of (n : nat) : nat := if Nat.odd n then n + 1 else n.

Definition ws_layout (nIn nInS : nat) : list (wsarr * nat) :=
  [(dwdM, nInS * nIn); (dJ2dM, nInS * nIn); (ddwdMdM, nInS * nIn); (ddJ2dMdM, nInS * nIn);
   (xres, nInS * nIn); (dx, nInS); (xu, nInS); (xc, nInS); (xmz, nInS);
   (dsdx, nInS * nIn); (Dx, nInS); (sum_dwdx, nInS); (sum_ydwdx_wdydx, nInS);
   (sum_ddwdxdx, nInS * nIn); (sum_ddRdxdx, nInS * nIn);
   (e_cv, nIn); (Ps, nIn); (Pse, nIn); (ytarget, nIn); (yres, nIn); (ws_s, nIn)].

(** [mis] says whether [palloc0] returned a block that is not 16-byte aligned. *)
Definition lwpr_mem_alloc_ws (mis : bool) (nIn : nat) : res LWPR_Workspace :=
  let nInS := nInS_of nIn in
  let storage := align16 mis (palloc0 (1 + 8 * nInS * nIn + 7 * nInS + 6 * nIn)) in
  f ← carve storage (ws_layout nIn nInS);
  Ok (mkWS (replicate nIn 0%Z) f).

Definition rf_fix_layout (nIn nInS : nat) : list (rfarr * nat) :=
  [(alpha, nInS * nIn); (D, nInS * nIn); (M, nInS * nIn); (h, nInS * nIn); (b, nInS * nIn);
   (c, nInS); (mean_x, nInS); (slope, nInS); (var_x, nInS)].

Definition rf_var_layout (nInS nRegStore : nat) : list (rfarr * nat) :=
  [(SXresYres, nInS * nRegStore); (SSXres, nInS * nRegStore); (U, nInS * nRegStore); (P, nInS * nRegStore);
   (beta, nRegStore); (SSs2, nRegStore); (SSYres, nRegStore); (H, nRegStore); (r, nRegStore);
   (sum_w, nRegStore); (sum_e_cv2, nRegStore); (n_data, nRegStore); (lambda, nRegStore); (s, nRegStore);
   (prob_rf, num_query_pattern); (pred_error_history, num_pred_error_history)].

Definition in_fix (a : rfarr) : bool :=
  match a with alpha | D | M | h | b | c | mean_x | slope | var_x => true | _ => false end.

(** [SSp0] is the value of [RF->SSp] before the call, which is left alone. *)
Definition lwpr_mem_alloc_rf (mis_fix mis_var : bool) (SSp0 : double) (nIn nInS nReg nRegStore : nat)
  : res LWPR_ReceptiveField :=
  let nRegStore := if nRegStore <? nReg then nReg else nRegStore in
  f ← carve (align16 mis_fix (palloc0 (1 + nInS * (5 * nIn + 4)))) (rf_fix_layout nIn nInS);
  g ← carve (align16 mis_var (palloc0 (1 + nRegStore * (4 * nInS + 10)
                                       + num_pred_error_history + num_query_pattern)))
            (rf_var_layout nInS nRegStore);
  Ok (mkRF nReg nRegStore 0 0 d0 d0 d0 SSp0 d0 d0 (fun a => if in_fix a then f a else g a)).

(** [memcpy] into the fresh block, pointer by pointer. *)
Definition lwpr_mem_realloc_rf (mis : bool) (RF : LWPR_ReceptiveField) (newStore nInS : nat)
  : res LWPR_ReceptiveField :=
  let n := nReg RF in
  let mats := [SXresYres; SSXres; U; P] in
  let vecs := [beta; SSs2; SSYres; H; r; sum_w; sum_e_cv2; n_data; lambda; s] in
  f ← carve (align16 mis (palloc0 (1 + newStore * (4 * nInS + 11))))
            (map (fun a => (a, nInS * newStore)) mats ++ map (fun a => (a, newStore)) vecs);
  RF' ← foreach mats (fun a RF' => l ← memcpy (f a) (arr RF a) (nInS * n); Ok (set_arr RF' a l)) RF;
  RF' ← foreach vecs (fun a RF' => l ← memcpy (f a) (arr RF a) n; Ok (set_arr RF' a l)) RF';
  let '(mkRF k _ t sr w e b0 p cf pn g) := RF' in
  Ok (mkRF k newStore t sr w e b0 p cf pn g).

Definition lwpr_men_alloc_ev : Explore_Value := mkEV d0 d0 d0 rate_between_explore_value.

Inductive modelarr : Type := m_init_D | m_init_M | m_init_alpha | m_norm_in | m_xn | m_num_history_data.

#[export] Instance modelarr_eq_dec : EqDecision modelarr.
Proof. solve_decision. Defined.

Definition model_layout (nIn nInS : nat) : list (modelarr * nat) :=
  [(m_init_D, nInS * nIn); (m_init_M, nInS * nIn); (m_init_alpha, nInS * nIn); (m_norm_in, nInS);
   (m_xn, nInS); (m_num_history_data, num_query_pattern)].

(** The hyperparameters are set by [lwpr_init_model]; [other] is what the
    structure held in their place. *)
Definition lwpr_mem_alloc_model (mis mis_ws : bool) (other : LWPR_Config) (nIn storeRFS : nat)
  : res LWPR_Model :=
  let nInS := nInS_of nIn in
  w ← lwpr_mem_alloc_ws mis_ws nIn;
  f ← carve (align16 mis (palloc0 (1 + nInS * (3 * nIn + 2) + num_query_pattern))) (model_layout nIn nInS);
  hist ← for_range 0 num_query_pattern (fun i hist =>
      row ← wr (palloc0 (num_history_data_compute_probability_rf * nIn + 1)) 0 (d_of_Z (Z.of_nat i + 1));
      Ok (hist ++ [row])) [];
  let '(mkConfig _ _ _ _ dg pe _ _ _ wg wp il fl tl iS at_ k uD) := other in
  Ok (mkModel (mkConfig nIn nInS (f m_norm_in) (d_of_Z 1) dg pe (f m_init_D) (f m_init_M) (f m_init_alpha)
                        wg wp il fl tl iS at_ k uD)
        0 storeRFS 0 [] w (f m_xn) (d_of_Z 1) 0 lwpr_men_alloc_ev hist (f m_num_history_data)).

(** ** Initialisation *)
Definition set_diag (n nInS : nat) (x : double) (a : list double) : res (list double) :=
  for_range 0 n (fun i a => wr a (i + i * nInS) x) a.

Definition lwpr_init_model (mis mis_ws : bool) (other : LWPR_Config) (nIn : nat) : res LWPR_Model :=
  m ← lwpr_mem_alloc_model mis mis_ws other nIn 64;
  let cf := cfg m in
  let nInS := nInStore cf in
  norm ← for_range 0 nIn (fun i a => wr a i (d_of_Z 1)) (norm_in cf);
  iD ← set_diag nIn nInS (d_of_Z 25) (init_D cf);
  iM ← set_diag nIn nInS (d_of_Z 5) (init_M cf);
  ia ← set_diag nIn nInS (dlit 5 100) (init_alpha cf);
  Ok (mkModel (mkConfig nIn nInS norm (d_of_Z 1) true (dlit 1 1000000) iD iM ia
                 (dlit 1 10) (dlit 9 10) (d_of_Z 1) (d_of_Z 1) (d_of_Z 1) (dlit 1 10000000000) (dlit 5 10)
                 LWPR_GAUSSIAN_KERNEL true)
        0 (numPointers m) (n_pruned m) (rf m) (ws m) (xn m) (yn m) 0
        (explore_values m) (history_data_matrix m) (num_history_data m)).

(** [while (numRFS >= numPointers) numPointers += 16], then the new field at
    the end of [rf].  Without directions ([nReg = 0]) the field has no storage
    yet. *)
Definition lwpr_aux_add_rf (mis_fix mis_var : bool) (SSp0 : double) (m : LWPR_Model) (nReg : nat)
  : res (LWPR_Model * LWPR_ReceptiveField) :=
  m ← while_fuel (S (numRFS m)) (fun m => Ok (numPointers m <=? numRFS m))
        (fun m => Ok (set_numPointers m (numPointers m + 16))) m;
  RF ← (if 0 <? nReg then
          lwpr_mem_alloc_rf mis_fix mis_var SSp0 (nIn (cfg m)) (nInStore (cfg m)) nReg (nIn (cfg m))
        else Ok zero_rf);
  if numRFS m <? numPointers m then Ok (set_rf m (rf m ++ [RF]), RF) else Err Fault_bounds.

(** The fields of a new receptive field: the first part of [lwpr_aux_init_rf],
    before its datum goes to the data house.  [RFT] is the field it is modelled
    on, if any. *)
Definition init_rf_fields `{Libm} (mis_fix mis_var : bool) (SSp0 : double) (m : LWPR_Model)
    (RFT : option LWPR_ReceptiveField) (x : list double) (y : double) : res LWPR_ReceptiveField :=
  let cf := cfg m in
  let n := nIn cf in
  let nInS := nInStore cf in
  let '(nR, nRS) := match RFT with
                    | None => (if 1 <? n then 2 else 1, n)
                    | Some T => (nReg T, nRegStore T)
                    end in
  RF ← lwpr_mem_alloc_rf mis_fix mis_var SSp0 n nInS nR nRS;
  let '(tD, tM, ta, tb) := match RFT with
                           | None => (init_D cf, init_M cf, init_alpha cf, y)
                           | Some T => (arr T D, arr T M, arr T alpha, beta0 T)
                           end in
  RF ← memcpy_to RF D tD (nInS * n);
  RF ← memcpy_to RF M tM (nInS * n);
  RF ← memcpy_to RF alpha ta (nInS * n);
  let RF := set_beta0 RF tb in
  RF ← memcpy_to RF c x n;
  RF ← for_range 0 num_pred_error_history (fun k RF => setr RF pred_error_history k d0) RF;
  RF ← for_range 0 num_query_pattern (fun k RF => setr RF prob_rf k d0) RF;
  let RF := set_SSp (set_sum_e2 (set_w (set_trustworthy RF 0) d0) d0) d0 in
  RF ← for_range 0 nR (fun i RF =>
      RF ← setr RF SSs2 i (init_S2 cf);
      RF ← setr RF U (i + i * nInS) (d_of_Z 1);
      RF ← setr RF P (i + i * nInS) (d_of_Z 1);
      RF ← setr RF sum_w i (dlit 1 10000000000);
      RF ← setr RF n_data i (dlit 1 10000000000);
      setr RF lambda i (init_lambda cf)) RF;
  for_range 0 n (fun j RF =>
    for_range 0 (S j) (fun i RF =>
      a ← getr RF alpha (i + j * nInS);
      setr RF b (i + j * nInS) (c_log (a + dlit 1 10000000000)%D)) RF) RF.

(** ** Invariants *)

(** The size of each array of a receptive field. *)
Definition rf_size (n nInS nRS : nat) (a : rfarr) : nat :=
  match a with
  | alpha | D | M | h | b => nInS * n
  | c | mean_x | slope | var_x => nInS
  | SXresYres | SSXres | U | P => nInS * nRS
  | prob_rf => num_query_pattern
  | pred_error_history => num_pred_error_history
  | _ => nRS
  end.

Definition ws_size (n nInS : nat) (a : wsarr) : nat :=
  match a with
  | dwdM | dJ2dM | ddwdMdM | ddJ2dMdM | xres | dsdx | sum_ddwdxdx | sum_ddRdxdx => nInS * n
  | e_cv | Ps | Pse | ytarget | yres | ws_s => n
  | _ => nInS
  end.

(** A small count kept in a [double]. *)
Definition count_le (k : nat) (x : double) : Prop := ∃ j, j ≤ k ∧ x = d_of_Z (Z.of_nat j).

Record rf_ok (n nInS : nat) (RF : LWPR_ReceptiveField) : Prop := {
  rf_reg : Nat.min 2 n ≤ nReg RF ≤ n;
  rf_store : n ≤ nRegStore RF;
  rf_sizes : ∀ a, length (arr RF a) = rf_size n nInS (nRegStore RF) a;
  rf_errors : count_le num_pred_error_history (pred_error_num RF)
}.

Record ws_ok (n nInS : nat) (WS : LWPR_Workspace) : Prop := {
  ws_deriv : length (derivOk WS) = n;
  ws_sizes : ∀ a, length (wsa WS a) = ws_size n nInS a
}.

Record cfg_ok (cf : LWPR_Config) : Prop := {
  cfg_nIn : 1 ≤ nIn cf;
  cfg_nInS : nInStore cf = nInS_of (nIn cf);
  cfg_norm : length (norm_in cf) = nInStore cf;
  cfg_D : length (init_D cf) = nInStore cf * nIn cf;
  cfg_M : length (init_M cf) = nInStore cf * nIn cf;
  cfg_alpha : length (init_alpha cf) = nInStore cf * nIn cf
}.

Record model_ok (m : LWPR_Model) : Prop := {
  m_cfg : cfg_ok (cfg m);
  m_ws : ws_ok (nIn (cfg m)) (nInStore (cfg m)) (ws m);
  m_rf : Forall (rf_ok (nIn (cfg m)) (nInStore (cfg m))) (rf m);
  m_cap : numRFS m ≤ numPointers m;
  m_len_xn : length (xn m) = nInStore (cfg m);
  m_hist : length (history_data_matrix m) = num_query_pattern;
  m_hist_rows : Forall (fun row => length row = num_history_data_compute_probability_rf * nIn (cfg m) + 1)
                  (history_data_matrix m);
  m_counts : length (num_history_data m) = num_query_pattern;
  m_counts_le : Forall (count_le num_history_data_compute_probability_rf) (num_history_data m)
}.

Lemma nInS_le n : n ≤ nInS_of n.
Proof. unfold nInS_of. destruct (Nat.odd n); lia. Qed.

(** ** The memory *)
Lemma carve_zero {A} `{EqDecision A} (layout : list (A * nat)) k :
  sum_list_with snd layout ≤ k →
  ensures (carve (palloc0 k) layout) (fun f =>
    NoDup layout.*1 → ∀ a n, (a, n) ∈ layout → f a = palloc0 n).
Proof.
  revert k. unfold palloc0. induction layout as [|[a n] layout IH]; intros k Hk; simpl in *; [set_solver|].
  destruct (Nat.leb_spec n (length (replicate k d0))) as [Hn|Hn]; rewrite length_replicate in Hn; [|lia].
  rewrite drop_replicate. eapply ensures_bind_mono; [apply IH; lia|]. intros f Hf. simpl.
  intros Hnd x m. apply NoDup_cons in Hnd as [Hni Hnd]. rewrite elem_of_cons. intros [E|Hin].
  - simplify_eq. rewrite decide_True by done. rewrite take_replicate. f_equal. lia.
  - rewrite decide_False; [by apply Hf|]. intros ->. apply Hni. apply list_elem_of_fmap. by exists (a, m).
Qed.

Lemma align16_palloc0 mis k : align16 mis (palloc0 (1 + k)) = palloc0 (if mis then k else 1 + k).
Proof. by destruct mis. Qed.

(** Every array of a carved block is the zero block of its size. *)
Lemma carve_block {A} `{EqDecision A} (layout : list (A * nat)) mis k (size : A → nat) :
  sum_list_with snd layout ≤ k → bool_decide (NoDup layout.*1) = true →
  ensures (carve (align16 mis (palloc0 (1 + k))) layout) (fun f =>
    ∀ a, (a, size a) ∈ layout → f a = palloc0 (size a)).
Proof.
  intros Hk Hnd. rewrite align16_palloc0. apply bool_decide_eq_true_1 in Hnd.
  eapply ensures_mono; [apply carve_zero; destruct mis; lia|]. naive_solver.
Qed.

Lemma alloc_ws_ok mis n :
  ensures (lwpr_mem_alloc_ws mis n) (fun WS => ws_ok n (nInS_of n) WS ∧ ∀ a, wsa WS a = palloc0 (ws_size n (nInS_of n) a)).
Proof.
  unfold lwpr_mem_alloc_ws. cbv zeta.
  replace (1 + 8 * nInS_of n * n + 7 * nInS_of n + 6 * n)
    with (1 + (8 * nInS_of n * n + 7 * nInS_of n + 6 * n)) by lia. eapply ensures_bind_mono.
  - apply (carve_block (ws_layout n (nInS_of n)) mis _ (ws_size n (nInS_of n))); [|done].
    generalize (nInS_of n). intros k. cbn [ws_layout sum_list_with snd]. nia.
  - intros f Hf. simpl.
    assert (Hf' : ∀ a, f a = palloc0 (ws_size n (nInS_of n) a)).
    { intros a. apply Hf. destruct a; simpl; set_solver. }
    split; [|done]. split; simpl; [by rewrite length_replicate|].
    intros a. rewrite Hf'. apply length_replicate.
Qed.

Lemma alloc_rf_ok mis1 mis2 SSp0 n nInS nR nRS :
  ensures (lwpr_mem_alloc_rf mis1 mis2 SSp0 n nInS nR nRS) (fun RF =>
    nReg RF = nR ∧ nRegStore RF = Nat.max nR nRS ∧ pred_error_num RF = d0 ∧ trustworthy RF = 0%Z ∧
    slopeReady RF = 0%Z ∧ SSp RF = SSp0 ∧
    ∀ a, arr RF a = palloc0 (rf_size n nInS (Nat.max nR nRS) a)).
Proof.
  unfold lwpr_mem_alloc_rf.
  replace (if nRS <? nR then nR else nRS) with (Nat.max nR nRS) by (destruct (Nat.ltb_spec nRS nR); lia).
  set (st := Nat.max nR nRS). eapply ensures_bind_mono.
  { apply (carve_block (rf_fix_layout n nInS) mis1 _ (rf_size n nInS st)); [|done].
    cbn [rf_fix_layout sum_list_with snd]. nia. }
  intros f Hf. replace (1 + st * (4 * nInS + 10) + num_pred_error_history + num_query_pattern)
    with (1 + (st * (4 * nInS + 10) + num_pred_error_history + num_query_pattern)) by lia.
  eapply ensures_bind_mono.
  { apply (carve_block (rf_var_layout nInS st) mis2 _ (rf_size n nInS st)); [|done].
    cbn [rf_var_layout sum_list_with snd]. nia. }
  intros g Hg. simpl. split_and!; try done. intros a.
  destruct (in_fix a) eqn:E; destruct a; try discriminate E; (first [apply Hf | apply Hg]); simpl; set_solver.
Qed.

Lemma alloc_model_ok mis mis_ws other n :
  ensures (lwpr_mem_alloc_model mis mis_ws other n 64) (fun m =>
    nIn (cfg m) = n ∧ nInStore (cfg m) = nInS_of n ∧ ws_ok n (nInS_of n) (ws m) ∧ rf m = [] ∧ numPointers m = 64 ∧
    norm_in (cfg m) = palloc0 (nInS_of n) ∧ init_D (cfg m) = palloc0 (nInS_of n * n) ∧
    init_M (cfg m) = palloc0 (nInS_of n * n) ∧ init_alpha (cfg m) = palloc0 (nInS_of n * n) ∧
    xn m = palloc0 (nInS_of n) ∧ num_history_data m = palloc0 num_query_pattern ∧
    explore_values m = lwpr_men_alloc_ev ∧
    history_data_matrix m =
      map (fun i => d_of_Z (Z.of_nat i + 1) :: palloc0 (num_history_data_compute_probability_rf * n))
        (seq 0 num_query_pattern)).
Proof.
  unfold lwpr_mem_alloc_model. cbv zeta. eapply ensures_bind_mono; [apply alloc_ws_ok|]. intros w [Hw _].
  replace (1 + nInS_of n * (3 * n + 2) + num_query_pattern)
    with (1 + (nInS_of n * (3 * n + 2) + num_query_pattern)) by lia.
  set (nS := nInS_of n) in *.
  eapply ensures_bind_mono.
  { apply (carve_block (model_layout n nS) mis _ (fun a => match a with
      | m_init_D | m_init_M | m_init_alpha => nS * n | m_norm_in | m_xn => nS
      | m_num_history_data => num_query_pattern end)); [|done].
    cbn [model_layout sum_list_with snd]. nia. }
  intros f Hf. rewrite (Nat.add_comm _ 1). change (palloc0 (1 + ?k)) with (d0 :: palloc0 k).
  apply ensures_bind. set (row := palloc0 (num_history_data_compute_probability_rf * n)).
  cbn [for_range for_from num_query_pattern Nat.sub wr lookup list_lookup mbind res_bind app insert list_insert ensures].
  destruct other. simpl. split_and!; try done; apply Hf; simpl; set_solver.
Qed.

Lemma set_diag_ok n nInS x a :
  n ≤ nInS → length a = nInS * n →
  ensures (set_diag n nInS x a) (fun a' => length a' = nInS * n ∧
    (∀ i, i < n → a' !! (i + i * nInS) = Some x) ∧
    (∀ k, (∀ i, i < n → k ≠ i + i * nInS) → a' !! k = a !! k)).
Proof.
  intros Hn Hl. unfold set_diag.
  apply (ensures_for (fun j a' => length a' = nInS * n ∧
    (∀ i, i < j → a' !! (i + i * nInS) = Some x) ∧
    (∀ k, (∀ i, i < j → k ≠ i + i * nInS) → a' !! k = a !! k))); [lia | split_and!; [done | lia | done] |].
  intros j a' Hj (Hl' & H1 & H2). assert (j + j * nInS < nInS * n) by nia.
  apply ensures_wr; [lia|]. split_and!; [by rewrite length_insert | |].
  - intros i Hi. destruct (decide (i = j)) as [->|Hij]; [apply list_lookup_insert_eq; lia|].
    rewrite list_lookup_insert_ne by nia. apply H1. lia.
  - intros k Hk. rewrite list_lookup_insert_ne by (intros <-; by apply (Hk j); [lia|]).
    apply H2. intros i Hi. apply Hk. lia.
Qed.

Lemma init_model_ok mis mis_ws other n :
  1 ≤ n →
  ensures (lwpr_init_model mis mis_ws other n) (fun m =>
    model_ok m ∧ nIn (cfg m) = n ∧ rf m = [] ∧ fss_hash m = 0%Z ∧
    (∀ i j, i < n → j < n →
      init_D (cfg m) !! (i + j * nInS_of n) = Some (if decide (i = j) then d_of_Z 25 else d0)) ∧
    (∀ i, i < n → init_M (cfg m) !! (i + i * nInS_of n) = Some (d_of_Z 5)) ∧
    w_gen (cfg m) = dlit 1 10 ∧ w_prune (cfg m) = dlit 9 10 ∧ diag_only (cfg m) = true).
Proof.
  intros Hn. pose proof (nInS_le n) as Hle. unfold lwpr_init_model.
  eapply ensures_bind_mono; [apply alloc_model_ok|].
  intros m (E1 & E2 & Hws & Erf & Enp & En & ED & EM & Ea & Ex & Eh & Eev & Ehm).
  cbv zeta. rewrite E2, En, ED, EM, Ea. set (nS := nInS_of n) in *.
  eapply ensures_bind_mono.
  { apply (ensures_for (fun _ a => length a = nS)); [lia | apply length_replicate|].
    intros i a Hi Hl. apply ensures_wr; [lia|]. by rewrite length_insert. }
  intros norm Hnorm.
  eapply ensures_bind_mono; [apply set_diag_ok; [done | apply length_replicate]|]. intros iD (HD & HD' & HD0).
  eapply ensures_bind_mono; [apply set_diag_ok; [done | apply length_replicate]|]. intros iM (HM & HM' & _).
  eapply ensures_bind_mono; [apply set_diag_ok; [done | apply length_replicate]|]. intros ia [Ha _].
  cbn [ensures cfg init_D init_M w_gen w_prune diag_only rf fss_hash nIn]. split_and!; try done.
  - split; simpl; try done.
    + by rewrite Erf.
    + unfold numRFS. simpl. rewrite Erf. simpl. lia.
    + rewrite Ex. apply length_replicate.
    + by rewrite Ehm.
    + rewrite Ehm. apply Forall_fmap, Forall_forall. intros i _. simpl. unfold palloc0. rewrite length_replicate. lia.
    + by rewrite Eh.
    + rewrite Eh. apply Forall_replicate. exists 0. split; [lia | done].
  - intros i j Hi Hj. destruct (decide (i = j)) as [->|Hij]; [by apply HD'|].
    rewrite HD0; [apply lookup_replicate_2; nia|].
    intros k Hk E. apply Hij. assert (j = k) by nia. subst. lia.
Qed.

(** ** Frames: what an update of a receptive field leaves alone *)
Record rf_frame (S : list rfarr) (RF RF' : LWPR_ReceptiveField) : Prop := {
  fr_reg : nReg RF' = nReg RF;
  fr_store : nRegStore RF' = nRegStore RF;
  fr_num : pred_error_num RF' = pred_error_num RF;
  fr_trust : trustworthy RF' = trustworthy RF;
  fr_slope : slopeReady RF = 0%Z → slopeReady RF' = 0%Z;
  fr_len : ∀ a, length (arr RF' a) = length (arr RF a);
  fr_arr : ∀ a, a ∉ S → arr RF' a = arr RF a
}.

Lemma rf_frame_refl S RF : rf_frame S RF RF.
Proof. done. Qed.

Lemma rf_frame_trans S RF RF' RF'' : rf_frame S RF RF' → rf_frame S RF' RF'' → rf_frame S RF RF''.
Proof.
  intros [H1 H2 H3 H0 Hz H4 H5] [G1 G2 G3 G0 Gz G4 G5].
  split; [congruence.. | auto | intros a; by rewrite G4, H4 | intros a Ha; by rewrite G5, H5].
Qed.

Lemma rf_frame_mono S S' RF RF' : S ⊆ S' → rf_frame S RF RF' → rf_frame S' RF RF'.
Proof. intros Hs []. split; auto. Qed.

Lemma rf_frame_ok S n nInS RF RF' : rf_frame S RF RF' → rf_ok n nInS RF → rf_ok n nInS RF'.
Proof. intros [H1 H2 H3 _ _ H4 _] []. split; rewrite ?H1, ?H2, ?H3; try done. intros a. by rewrite H4. Qed.

Lemma arr_set_arr RF a l x : arr (set_arr RF a l) x = if decide (x = a) then l else arr RF x.
Proof. by destruct RF. Qed.

Lemma set_arr_frame RF a l : length l = length (arr RF a) → rf_frame [a] RF (set_arr RF a l).
Proof.
  intros Hl. split; try (by destruct RF).
  - intros x. rewrite arr_set_arr. by destruct (decide (x = a)) as [->|].
  - intros x Hx. rewrite arr_set_arr, decide_False; [done | set_solver].
Qed.

Lemma ensures_setr RF a i x (Q : LWPR_ReceptiveField → Prop) :
  i < length (arr RF a) → (∀ RF', RF' = set_arr RF a (<[i := x]> (arr RF a)) → rf_frame [a] RF RF' → Q RF') →
  ensures (setr RF a i x) Q.
Proof.
  intros Hi HQ. unfold setr. rewrite wr_lt by done. cbn. apply HQ; [done|].
  apply set_arr_frame, length_insert.
Qed.

Lemma ensures_getr RF a i (Q : double → Prop) :
  i < length (arr RF a) → (∀ x, arr RF a !! i = Some x → Q x) → ensures (getr RF a i) Q.
Proof. apply ensures_rd. Qed.

Lemma ensures_memcpy_to RF a src k (Q : LWPR_ReceptiveField → Prop) :
  k ≤ length src → k ≤ length (arr RF a) →
  (∀ RF', RF' = set_arr RF a (take k src ++ drop k (arr RF a)) → rf_frame [a] RF RF' → Q RF') →
  ensures (memcpy_to RF a src k) Q.
Proof.
  intros H1 H2 HQ. unfold memcpy_to, memcpy. rewrite !(proj2 (Nat.leb_le _ _)) by done. cbn. apply HQ; [done|].
  apply set_arr_frame. rewrite length_app, length_take, length_drop. lia.
Qed.

(** A [for] loop that keeps within the frame [S]. *)
Lemma ensures_for_frame S lo hi body RF :
  lo ≤ hi →
  (∀ j RF', lo ≤ j < hi → rf_frame S RF RF' → ensures (body j RF') (rf_frame S RF')) →
  ensures (for_range lo hi body RF) (rf_frame S RF).
Proof.
  intros Hle Hb. apply (ensures_for (fun _ => rf_frame S RF)); [done | apply rf_frame_refl|].
  intros j RF' Hj Hf. eapply ensures_mono; [by apply Hb|]. intros RF''. by apply rf_frame_trans.
Qed.

Create HintDb rfframe.
#[export] Hint Resolve rf_frame_refl : rfframe.

(** The scalar members are in no array. *)
Lemma set_beta0_frame S RF x : rf_frame S RF (set_beta0 RF x).
Proof. by destruct RF. Qed.
Lemma set_SSp_frame S RF x : rf_frame S RF (set_SSp RF x).
Proof. by destruct RF. Qed.
Lemma set_sum_e2_frame S RF x : rf_frame S RF (set_sum_e2 RF x).
Proof. by destruct RF. Qed.
Lemma set_w_frame S RF x : rf_frame S RF (set_w RF x).
Proof. by destruct RF. Qed.
Lemma set_slopeReady_frame S RF : rf_frame S RF (set_slopeReady RF 0).
Proof. by destruct RF. Qed.
Lemma set_conf_rf_frame S RF x : rf_frame S RF (set_conf_rf RF x).
Proof. by destruct RF. Qed.
#[export] Hint Resolve set_beta0_frame set_SSp_frame set_sum_e2_frame set_w_frame
  set_slopeReady_frame set_conf_rf_frame : rfframe.

(** The index bounds of the matrices. *)
Lemma rf_mat_lt n nInS k i j : n ≤ nInS → i < n → j < k → i + j * nInS < nInS * k.
Proof. intros. nia. Qed.

(** One step of a chain of [setr]: the lengths go through the frames. *)
Ltac rf_len :=
  repeat match goal with
  | Hf : rf_frame _ ?A ?B |- context [length (arr ?B ?a)] => rewrite (fr_len _ _ _ Hf a)
  end.

(** Extends the frame known for the start of a chain. *)
Ltac rf_chain := eapply rf_frame_trans; [eassumption|]; eapply rf_frame_mono; [|eassumption]; set_solver.

Ltac rf_step tac :=
  match goal with
  | |- ensures (_ ≫= _) _ => apply ensures_bind
  | |- ensures (setr _ _ _ _) _ => apply ensures_setr; [tac|]; intros ? _ ?
  | |- ensures (getr _ _ _) _ => apply ensures_getr; [tac|]; intros ? _
  end.

Section init_rf.
Context `{Libm}.

Lemma init_rf_loops cf nR RF nInS :
  nInS = nInStore cf → nIn cf ≤ nInS → nR ≤ nRegStore RF → nR ≤ nInS →
  (∀ a, length (arr RF a) = rf_size (nIn cf) nInS (nRegStore RF) a) →
  ensures (RF' ← for_range 0 nR (fun i RF =>
      RF ← setr RF SSs2 i (init_S2 cf);
      RF ← setr RF U (i + i * nInS) (d_of_Z 1);
      RF ← setr RF P (i + i * nInS) (d_of_Z 1);
      RF ← setr RF sum_w i (dlit 1 10000000000);
      RF ← setr RF n_data i (dlit 1 10000000000);
      setr RF lambda i (init_lambda cf)) RF;
    for_range 0 (nIn cf) (fun j RF =>
      for_range 0 (Datatypes.S j) (fun i RF =>
        a ← getr RF alpha (i + j * nInS);
        setr RF b (i + j * nInS) (c_log (a + dlit 1 10000000000)%D)) RF) RF')
    (rf_frame [SSs2; U; P; sum_w; n_data; lambda; b] RF).
Proof.
  intros Hs Hle HnR HnS Hsz. eapply ensures_bind_mono.
  - apply (ensures_for_frame [SSs2; U; P; sum_w; n_data; lambda; b]); [lia|]. intros i RF0 Hi Hf0.
    assert (Hmat : i + i * nInS < nInS * nRegStore RF) by (apply (rf_mat_lt nInS); lia).
    repeat rf_step ltac:(rf_len; rewrite Hsz; simpl; lia).
    repeat (eapply rf_frame_trans; [eapply rf_frame_mono; [|eassumption]; set_solver|]). apply rf_frame_refl.
  - intros RF1 Hf1.
    apply (ensures_mono _ (rf_frame [SSs2; U; P; sum_w; n_data; lambda; b] RF1));
      [|intros ?; by apply rf_frame_trans].
    apply ensures_for_frame; [lia|]. intros j RF2 Hj Hf2. apply ensures_for_frame; [lia|]. intros i RF3 Hi Hf3.
    assert (Hmat : i + j * nInS < nInS * nIn cf) by (apply (rf_mat_lt (nIn cf)); lia).
    apply ensures_bind, ensures_getr; [rf_len; rewrite Hsz; simpl; lia|]. intros x _.
    apply ensures_setr; [rf_len; rewrite Hsz; simpl; lia|]. intros RF4 _ Hf4. eapply rf_frame_mono; [|done]. set_solver.
Qed.

Lemma memcpy_full (src dst : list double) k : length src = k → length dst = k → take k src ++ drop k dst = src.
Proof. intros Hs Hd. rewrite take_ge, drop_ge by lia. apply app_nil_r. Qed.

(** What the fields of the template are: those of [RFT], or the initial ones. *)
Definition template (m : LWPR_Model) (RFT : option LWPR_ReceptiveField) (a : rfarr) : list double :=
  match RFT, a with
  | Some T, _ => arr T a
  | None, D => init_D (cfg m)
  | None, M => init_M (cfg m)
  | None, alpha => init_alpha (cfg m)
  | None, _ => []
  end.

Lemma init_rf_ok mis1 mis2 SSp0 m RFT x y :
  cfg_ok (cfg m) → (∀ T, RFT = Some T → rf_ok (nIn (cfg m)) (nInStore (cfg m)) T) → nIn (cfg m) ≤ length x →
  ensures (init_rf_fields mis1 mis2 SSp0 m RFT x y) (fun RF =>
    rf_ok (nIn (cfg m)) (nInStore (cfg m)) RF ∧ trustworthy RF = 0%Z ∧ slopeReady RF = 0%Z ∧
    nReg RF = match RFT with Some T => nReg T | None => Nat.min 2 (nIn (cfg m)) end ∧
    arr RF D = template m RFT D ∧ arr RF M = template m RFT M ∧ arr RF alpha = template m RFT alpha ∧
    take (nIn (cfg m)) (arr RF c) = take (nIn (cfg m)) x).
Proof.
  intros Hc HT Hx. pose proof (cfg_nIn _ Hc) as Hn. pose proof (cfg_nInS _ Hc) as HnS.
  pose proof (nInS_le (nIn (cfg m))) as Hle. rewrite <- HnS in Hle.
  unfold init_rf_fields. cbv zeta. set (n := nIn (cfg m)) in *. set (nS := nInStore (cfg m)) in *.
  set (tr := match RFT with None => _ | Some T => (nReg T, nRegStore T) end).
  assert (Htr : Nat.min 2 n ≤ tr.1 ≤ n ∧ n ≤ tr.2 ∧
    tr.1 = match RFT with Some T => nReg T | None => Nat.min 2 n end).
  { subst tr. destruct RFT as [T|]; cbn [fst snd].
    - destruct (HT T eq_refl). done.
    - destruct (Nat.ltb_spec 1 n); lia. }
  destruct tr as [nR nRS]. cbn [fst snd] in Htr. destruct Htr as (HnR & HnRS & HnR').
  set (tp := match RFT with None => _ | Some T => (arr T D, arr T M, arr T alpha, beta0 T) end).
  assert (Htp : tp.1 = (template m RFT D, template m RFT M, template m RFT alpha)).
  { subst tp. by destruct RFT. }
  assert (Htl : length (template m RFT D) = nS * n ∧ length (template m RFT M) = nS * n ∧
    length (template m RFT alpha) = nS * n).
  { destruct RFT as [T|]; simpl; [|by destruct Hc]. pose proof (rf_sizes _ _ _ (HT T eq_refl)) as Hs.
    by rewrite !Hs. }
  destruct tp as [[[tD tM] ta] tb]. simpl in Htp. injection Htp as -> -> ->. destruct Htl as (HlD & HlM & Hla).
  eapply ensures_bind_mono; [apply alloc_rf_ok|].
  intros RF0 (E1 & E2 & E3 & E4 & Esl & _ & Ha). rewrite Nat.max_r in E2, Ha by lia.
  assert (Hsz0 : ∀ a, length (arr RF0 a) = rf_size n nS nRS a) by (intros a; rewrite Ha; apply length_replicate).
  apply ensures_bind, ensures_memcpy_to; [lia | by rewrite Hsz0|]. intros RF1 -> F1.
  apply ensures_bind, ensures_memcpy_to; [lia | by rf_len; rewrite Hsz0|]. intros RF2 -> F2.
  apply ensures_bind, ensures_memcpy_to; [lia | by rf_len; rewrite Hsz0|]. intros RF3 -> F3.
  apply ensures_bind, ensures_memcpy_to; [lia | |].
  { rewrite (fr_len _ _ _ (set_beta0_frame [] _ tb)). rf_len. rewrite Hsz0. simpl. lia. }
  intros RF4 E4' F4.
  assert (F04 : rf_frame [D; M; alpha; c] RF0 RF4).
  { repeat (eapply rf_frame_trans; [eapply rf_frame_mono; [|eassumption]; set_solver|]).
    eapply rf_frame_trans; [apply set_beta0_frame|]. eapply rf_frame_mono; [|eassumption]. set_solver. }
  assert (HD4 : arr RF4 D = template m RFT D ∧ arr RF4 M = template m RFT M ∧
    arr RF4 alpha = template m RFT alpha ∧ take n (arr RF4 c) = take n x).
  { rewrite E4'. unfold set_beta0. destruct RF0. cbn -[take drop decide].
    repeat (case_decide; [try discriminate | try (by exfalso)]).
    simpl in Hsz0. rewrite !memcpy_full by (first [done | by rewrite Hsz0]).
    split_and!; [done..|]. rewrite take_app_le by (rewrite length_take; lia). by rewrite take_take, Nat.min_id. }
  assert (T4 : trustworthy RF4 = 0%Z) by (rewrite E4'; destruct RF0; done).
  clear E4' F1 F2 F3 F4.
  eapply ensures_bind_mono.
  { apply (ensures_for_frame [pred_error_history]); [lia|]. intros k RF' Hk Hf.
    apply ensures_setr; [rf_len; rewrite Hsz0; cbn [rf_size]; lia|]. auto. }
  intros RF5 F5. eapply ensures_bind_mono.
  { apply (ensures_for_frame [prob_rf]); [lia|]. intros k RF' Hk Hf.
    apply ensures_setr; [rf_len; rewrite Hsz0; cbn [rf_size]; lia|]. auto. }
  intros RF6 F6. set (RF7 := set_SSp _ _).
  assert (T6 : trustworthy RF6 = 0%Z).
  { by rewrite (fr_trust _ _ _ F6), (fr_trust _ _ _ F5). }
  assert (F67 : rf_frame [] RF6 RF7) by (subst RF7; destruct RF6; simpl in T6; subst; done).
  assert (T7 : trustworthy RF7 = 0%Z) by (by destruct RF6).
  assert (F07 : rf_frame [D; M; alpha; c; pred_error_history; prob_rf] RF4 RF7).
  { repeat (eapply rf_frame_trans; [eapply rf_frame_mono; [|eassumption]; set_solver|]). apply rf_frame_refl. }
  assert (Hsz7 : ∀ a, length (arr RF7 a) = rf_size n nS (nRegStore RF7) a).
  { intros a. rewrite (fr_store _ _ _ F07), (fr_store _ _ _ F04), E2. rf_len. apply Hsz0. }
  eapply ensures_mono; [apply (init_rf_loops (cfg m) nR RF7 nS); try done; try lia|].
  { rewrite (fr_store _ _ _ F07), (fr_store _ _ _ F04). lia. }
  intros RF8 F8.
  assert (Hkeep : ∀ a, a ∈ [D; M; alpha; c] → arr RF8 a = arr RF4 a).
  { intros a Hin. rewrite (fr_arr _ _ _ F8), (fr_arr _ _ _ F67), (fr_arr _ _ _ F6), (fr_arr _ _ _ F5);
      [done | set_solver..]. }
  split_and!.
  - apply (rf_frame_ok _ _ _ _ _ F8). split.
    + rewrite (fr_reg _ _ _ F07), (fr_reg _ _ _ F04). lia.
    + rewrite (fr_store _ _ _ F07), (fr_store _ _ _ F04). lia.
    + done.
    + rewrite (fr_num _ _ _ F07), (fr_num _ _ _ F04), E3. exists 0. split; [lia | done].
  - by rewrite (fr_trust _ _ _ F8).
  - by apply F8, F07, F04.
  - rewrite (fr_reg _ _ _ F8), (fr_reg _ _ _ F07), (fr_reg _ _ _ F04), E1. done.
  - rewrite Hkeep by set_solver. apply HD4.
  - rewrite Hkeep by set_solver. apply HD4.
  - rewrite Hkeep by set_solver. apply HD4.
  - rewrite Hkeep by set_solver. apply HD4.
Qed.
End init_rf.

(** The capacity grows in steps of 16 until there is room. *)
Lemma grow_ok m :
  ensures (while_fuel (S (numRFS m)) (fun m => Ok (numPointers m <=? numRFS m))
             (fun m => Ok (set_numPointers m (numPointers m + 16))) m)
    (fun m' => ∃ k, numPointers m ≤ k ∧ numRFS m < k ∧ m' = set_numPointers m k).
Proof.
  eapply ensures_mono.
  - apply (ensures_while (fun m' => ∃ k, numPointers m ≤ k ∧ m' = set_numPointers m k)
      (fun m' => numRFS m' + 1 - numPointers m')).
    + exists (numPointers m). split; [done|]. by destruct m.
    + lia.
    + intros t (k & Hk & ->). destruct m. simpl in *. rewrite Nat.leb_le. intros Hle.
      unfold numRFS in *. simpl in *. split; [|lia]. exists (k + 16). split; [lia | done].
  - intros m' ((k & Hk & ->) & Hc). exists k. destruct m. unfold numRFS in *. simpl in *.
    injection Hc as Hc. apply Nat.leb_gt in Hc. done.
Qed.

Lemma add_rf_ok mis1 mis2 SSp0 m nR :
  ensures (lwpr_aux_add_rf mis1 mis2 SSp0 m nR) (fun '(m', RF) =>
    (∃ k, m' = set_rf (set_numPointers m k) (rf m ++ [RF]) ∧ numRFS m < k ∧ numPointers m ≤ k) ∧
    (nR = 0 → RF = zero_rf) ∧
    (0 < nR → nReg RF = nR ∧ nRegStore RF = Nat.max nR (nIn (cfg m)) ∧ pred_error_num RF = d0 ∧
       slopeReady RF = 0%Z ∧
       ∀ a, arr RF a = palloc0 (rf_size (nIn (cfg m)) (nInStore (cfg m)) (nRegStore RF) a))).
Proof.
  unfold lwpr_aux_add_rf. eapply ensures_bind_mono; [apply grow_ok|].
  intros m' (k & Hk & Hr & ->).
  assert (Hcf : cfg (set_numPointers m k) = cfg m) by (by destruct m). rewrite Hcf.
  assert (Hrf : rf (set_numPointers m k) = rf m) by (by destruct m). unfold numRFS in *. rewrite Hrf.
  assert (Hnp : numPointers (set_numPointers m k) = k) by (by destruct m). rewrite Hnp.
  rewrite (proj2 (Nat.ltb_lt _ _) Hr).
  destruct (Nat.ltb_spec 0 nR) as [Hpos|Hz].
  - eapply ensures_bind_mono; [apply alloc_rf_ok|]. intros RF (E1 & E2 & E3 & _ & E5 & _ & Ha). simpl.
    split; [|split; [lia|]]; [by exists k|]. intros _. rewrite E2. done.
  - simpl. split; [|split; [done | lia]]. by exists k.
Qed.

(** ** Properties *)


(** [lwpr_init_model] establishes the invariant of a model: no receptive
    field yet, every block of its size, no history, and the initial distance
    metric is 25 on the diagonal and 0 elsewhere. *)
Theorem init_model_invariant mis mis_ws other (n : nat) :
  1 ≤ n →
  ensures (lwpr_init_model mis mis_ws other n) (fun m =>
    model_ok m ∧ nIn (cfg m) = n ∧ rf m = [] ∧
    ∀ i j, i < n → j < n →
      init_D (cfg m) !! (i + j * nInS_of n) = Some (if decide (i = j) then d_of_Z 25 else d0)).
Proof.
  intros Hn. eapply ensures_mono; [by apply init_model_ok|]. intros m (H1 & H2 & H3 & _ & H4 & _). done.
Qed.

(** An LWPR_Config whose members are all zero. *)
Definition zero_config : LWPR_Config :=
  mkConfig 0 0 [] d0 false d0 [] [] [] d0 d0 d0 d0 d0 d0 d0 LWPR_GAUSSIAN_KERNEL false.

Lemma init_model_invariant_witness :
  ensures (lwpr_init_model true false zero_config 3) (fun m =>
    model_ok m ∧ nIn (cfg m) = 3 ∧ rf m = [] ∧
    ∀ i j, i < 3 → j < 3 → init_D (cfg m) !! (i + j * nInS_of 3) = Some (if decide (i = j) then d_of_Z 25 else d0)).
Proof. apply (init_model_invariant true false zero_config 3). lia. Defined.

(** [lwpr_aux_init_rf] makes a well-formed receptive field centred on the
    input, with the distance metric, its factor and the learning rates of the
    field it is modelled on or of the model, and with at most [nIn] and at
    least [min 2 nIn] directions. *)
Theorem init_rf_invariant `{Libm} mis1 mis2 SSp0 m RFT x y :
  cfg_ok (cfg m) → (∀ T, RFT = Some T → rf_ok (nIn (cfg m)) (nInStore (cfg m)) T) → nIn (cfg m) ≤ length x →
  ensures (init_rf_fields mis1 mis2 SSp0 m RFT x y) (fun RF =>
    rf_ok (nIn (cfg m)) (nInStore (cfg m)) RF ∧
    arr RF D = template m RFT D ∧ arr RF M = template m RFT M ∧ arr RF alpha = template m RFT alpha ∧
    take (nIn (cfg m)) (arr RF c) = take (nIn (cfg m)) x).
Proof. intros H1 H2 H3. eapply ensures_mono; [by apply init_rf_ok|]. naive_solver. Qed.

Definition sample_palloc : Palloc := {| palloc_mis := fun i => (Nat.even i, Nat.odd i); palloc_junk := d_of_Z 77 |}.

Definition sample_config : LWPR_Config :=
  mkConfig 1 2 (palloc0 2) d0 true d0 (palloc0 2) (palloc0 2) (palloc0 2) d0 d0 d0 d0 d0 d0 d0
    LWPR_GAUSSIAN_KERNEL true.

Definition sample_model : LWPR_Model :=
  mkModel sample_config 0 64 0 [] (mkWS [] (fun _ => [])) (palloc0 2) d0 7 lwpr_men_alloc_ev [] [].

Lemma init_rf_invariant_witness :
  ensures (@init_rf_fields sample_libm true true d0 sample_model None [d_of_Z (-3)] (d_of_Z 2)) (fun RF =>
    rf_ok 1 2 RF ∧ arr RF D = palloc0 2 ∧ arr RF M = palloc0 2 ∧ arr RF alpha = palloc0 2 ∧
    take 1 (arr RF c) = [d_of_Z (-3)]).
Proof. apply (@init_rf_invariant sample_libm true true d0 sample_model None [d_of_Z (-3)]); [by split | done | done]. Defined.
