(* ===== verification/LwprMath.v ===== *)
(** * LwprMath: the vector kernels of machine_learning_lwpr.c

    The unrolled loops [lwpr_math_dot_product], [lwpr_math_add_scalar_vector],
    [lwpr_math_scalar_vector] and [lwpr_math_scale_add_scalar_vector], with the
    small numerical helpers [lwpr_math_avg_vector], [integral] and
    [norm_ditribution_function].  A pointer argument is an array and an offset
    into it.  Each unrolled loop is shown equal to the loop its comment gives. *)
From S2P Require Import Prelude Float64.

(** ** Definitions *)

(** [dp += y[i] * x[i];] *)
Definition dp_step (x : list double) (ox : nat) (y : list double) (oy : nat) (i : nat) (dp : double)
  : res double :=
  yi ← rd y (oy + i); xi ← rd x (ox + i); Ok (dp + yi * xi)%D.

(** The state of the loop is [dp], the remaining [n] and the two pointers. *)
Definition lwpr_math_dot_product (x : list double) (ox : nat) (y : list double) (oy : nat) (n : nat)
  : res double :=
  '(dp, n, ox, oy) ← while_fuel n (fun '(dp, n, ox, oy) => Ok (4 <=? n)) (fun '(dp, n, ox, oy) =>
      dp ← dp_step x ox y oy 0 dp;
      dp ← dp_step x ox y oy 1 dp;
      dp ← dp_step x ox y oy 2 dp;
      dp ← dp_step x ox y oy 3 dp;
      Ok (dp, n - 4, ox + 4, oy + 4)) (d0, n, ox, oy);
  dp ← (if n =? 3 then dp_step x ox y oy 2 dp else Ok dp);
  dp ← (if (n =? 3) || (n =? 2) then dp_step x ox y oy 1 dp else Ok dp);
  if (n =? 3) || (n =? 2) || (n =? 1) then dp_step x ox y oy 0 dp else Ok dp.

(** The three updates [y[i] = f(y[i], x[i])] share their unrolling by 8. *)
Section vec8.
Context (f : double → double → double) (x : list double).

Definition v_step (ox oy i : nat) (y : list double) : res (list double) :=
  yi ← rd y (oy + i); xi ← rd x (ox + i); wr y (oy + i) (f yi xi).

(** [case k: step(k-1); case k-1: ...; case 1: step(0);] *)
Fixpoint v_cases (ox oy k : nat) (y : list double) : res (list double) :=
  match k with
  | O => Ok y
  | S k' => y ← v_step ox oy k' y; v_cases ox oy k' y
  end.

Definition vec8 (y : list double) (oy ox n : nat) : res (list double) :=
  '(y, n, ox, oy) ← while_fuel n (fun '(y, n, ox, oy) => Ok (8 <=? n)) (fun '(y, n, ox, oy) =>
      y ← v_step ox oy 0 y;
      y ← v_step ox oy 1 y;
      y ← v_step ox oy 2 y;
      y ← v_step ox oy 3 y;
      y ← v_step ox oy 4 y;
      y ← v_step ox oy 5 y;
      y ← v_step ox oy 6 y;
      y ← v_step ox oy 7 y;
      Ok (y, n - 8, ox + 8, oy + 8)) (y, n, ox, oy);
  v_cases ox oy n y.
End vec8.

Definition lwpr_math_add_scalar_vector (y : list double) (oy : nat) (a : double) (x : list double) (ox n : nat) :=
  vec8 (fun yi xi => yi + a * xi)%D x y oy ox n.

Definition lwpr_math_scalar_vector (y : list double) (oy : nat) (a : double) (x : list double) (ox n : nat) :=
  vec8 (fun _ xi => a * xi)%D x y oy ox n.

Definition lwpr_math_scale_add_scalar_vector (b : double) (y : list double) (oy : nat) (a : double)
    (x : list double) (ox n : nat) :=
  vec8 (fun yi xi => b * yi + a * xi)%D x y oy ox n.

Definition lwpr_math_avg_vector (x : list double) (n : nat) : res double :=
  avg ← for_range 0 n (fun i avg => xi ← rd x i; Ok (avg + xi)%D) d0;
  Ok (avg / d_of_Z (Z.of_nat n))%D.

Definition integral (p : double → double → double → double) (a b : double) (n : nat) (a1 b1 : double)
  : res double :=
  let h := ((b - a) / d_of_Z (Z.of_nat n))%D in
  '(x, s) ← for_range 0 (S n) (fun _ '(x, s) => let x := (x + h)%D in Ok (x, (s + p a1 b1 x * h)%D)) (a, d0);
  Ok s.

Definition norm_ditribution_function `{Libm} (a b x : double) : double :=
  let r1 := (d_of_Z 1 / c_sqrt (d_of_Z 2 * dlit 3141592 1000000 * b))%D in
  let r2 := c_exp (d_of_Z (-1) * (x - a) * (x - a) / (d_of_Z 2 * b))%D in
  (r1 * r2)%D.

(** ** The dot product *)

(** The order in which the indices are added: blocks of four going up, then
    the rest going down. *)
Definition dot_order (n : nat) : list nat :=
  seq 0 (4 * (n / 4)) ++ reverse (seq (4 * (n / 4)) (n mod 4)).

Lemma dot_order_perm n : dot_order n ≡ₚ seq 0 n.
Proof.
  unfold dot_order. rewrite reverse_Permutation, <- seq_app. f_equiv. f_equal.
  pose proof (Nat.div_mod_eq n 4). lia.
Qed.

(** The terms [y[i] * x[i]] added in a given order. *)
Definition dot_sum (x : list double) (ox : nat) (y : list double) (oy : nat) (l : list nat) (dp : double) : double :=
  foldl (fun dp i => match y !! (oy + i), x !! (ox + i) with
                     | Some yi, Some xi => (dp + yi * xi)%D | _, _ => dp end) dp l.

Lemma dp_step_ok x ox y oy i dp :
  ox + i < length x → oy + i < length y → dp_step x ox y oy i dp = Ok (dot_sum x ox y oy [i] dp).
Proof.
  intros Hx Hy. unfold dp_step, dot_sum. simpl.
  destruct (rd_lt x _ Hx) as (xi & -> & ->), (rd_lt y _ Hy) as (yi & -> & ->). done.
Qed.

Lemma dot_sum_app x ox y oy l l' dp :
  dot_sum x ox y oy (l ++ l') dp = dot_sum x ox y oy l' (dot_sum x ox y oy l dp).
Proof. apply foldl_app. Qed.

(** Moving both pointers forward is adding to the indices. *)
Lemma dot_sum_shift x ox y oy k l dp :
  dot_sum x (ox + k) y (oy + k) l dp = dot_sum x ox y oy (map (Nat.add k) l) dp.
Proof.
  revert dp. induction l as [|i l IH]; intros dp; [done|]. simpl. unfold dot_sum in *. simpl.
  rewrite IH. by rewrite !Nat.add_assoc.
Qed.

Lemma dot_order_plus4 n : dot_order (4 + n) = [0; 1; 2; 3] ++ map (Nat.add 4) (dot_order n).
Proof.
  unfold dot_order. replace ((4 + n) / 4) with (S (n / 4)).
  2:{ change (4 + n) with (1 * 4 + n). by rewrite Nat.div_add_l. }
  replace ((4 + n) mod 4) with (n mod 4).
  2:{ rewrite Nat.add_comm. change 4 with (1 * 4) at 2. by rewrite Nat.Div0.mod_add. }
  replace (4 * S (n / 4)) with (4 + 4 * (n / 4)) by lia.
  rewrite seq_app, map_app. simpl (seq 0 4).
  rewrite <- (assoc_L (++)). f_equal. change (map (Nat.add 4)) with (fmap (M := list) (Nat.add 4)).
  rewrite fmap_reverse, !fmap_add_seq. done.
Qed.

Ltac dp_go := rewrite dp_step_ok by lia; cbn [mbind res_bind].

Lemma dot_product_ok x ox y oy n :
  ox + n ≤ length x → oy + n ≤ length y →
  lwpr_math_dot_product x ox y oy n = Ok (dot_sum x ox y oy (dot_order n) d0).
Proof.
  unfold lwpr_math_dot_product.
  cut (∀ fuel dp m ox oy, m ≤ fuel → ox + m ≤ length x → oy + m ≤ length y →
    (while_fuel fuel (fun '(dp, n, ox, oy) => Ok (4 <=? n)) (fun '(dp, n, ox, oy) =>
      dp ← dp_step x ox y oy 0 dp; dp ← dp_step x ox y oy 1 dp;
      dp ← dp_step x ox y oy 2 dp; dp ← dp_step x ox y oy 3 dp;
      Ok (dp, n - 4, ox + 4, oy + 4)) (dp, m, ox, oy) ≫= (fun '(dp, n, ox, oy) =>
      dp ← (if n =? 3 then dp_step x ox y oy 2 dp else Ok dp);
      dp ← (if (n =? 3) || (n =? 2) then dp_step x ox y oy 1 dp else Ok dp);
      if (n =? 3) || (n =? 2) || (n =? 1) then dp_step x ox y oy 0 dp else Ok dp))
    = Ok (dot_sum x ox y oy (dot_order m) dp)).
  { intros Hgen Hx Hy. by apply Hgen. }
  induction fuel as [|fuel IH]; intros dp m ox' oy' Hm Hx Hy; cbn [while_fuel mbind res_bind].
  { replace m with 0 by lia. done. }
  destruct (Nat.leb_spec 4 m) as [H4|H4].
  - cbn [mbind res_bind]. do 4 dp_go. rewrite IH by lia.
    replace m with (4 + (m - 4)) at 2 by lia. rewrite dot_order_plus4, dot_sum_app. f_equal.
    by rewrite dot_sum_shift.
  - do 4 (destruct m as [|m]; [cbn [Nat.eqb orb mbind res_bind]; repeat dp_go; done|]). lia.
Qed.

(** The second operand may be copied elsewhere. *)
Lemma dot_sum_ext x ox y oy y' oy' l dp :
  (∀ i, i ∈ l → y !! (oy + i) = y' !! (oy' + i)) → dot_sum x ox y oy l dp = dot_sum x ox y' oy' l dp.
Proof.
  intros He. unfold dot_sum. revert dp. induction l as [|i l IH]; intros dp; simpl; [done|].
  rewrite (He i) by set_solver. apply IH. set_solver.
Qed.

(** ** The vector updates *)

(** Cells [oy .. oy+n-1] of [y] become [f y x], the others stay. *)
Definition zip_cells (f : double → double → double) (x : list double) (ox : nat) (y : list double) (oy n : nat)
    (y' : list double) : Prop :=
  length y' = length y ∧
  (∀ i a b, i < n → y !! (oy + i) = Some a → x !! (ox + i) = Some b → y' !! (oy + i) = Some (f a b)) ∧
  (∀ k, k < oy ∨ oy + n ≤ k → y' !! k = y !! k).

(** The indices in [l] are done, the others are as before. *)
Definition zip_done (f : double → double → double) (x : list double) (ox : nat) (y : list double) (oy : nat)
    (dn : nat → Prop) (y' : list double) : Prop :=
  length y' = length y ∧
  (∀ i a b, dn i → y !! (oy + i) = Some a → x !! (ox + i) = Some b → y' !! (oy + i) = Some (f a b)) ∧
  (∀ k, (∀ i, dn i → k ≠ oy + i) → y' !! k = y !! k).

Section vec8_ok.
Context (f : double → double → double) (x y : list double) (ox oy n : nat).
Context (Hx : ox + n ≤ length x) (Hy : oy + n ≤ length y).

Lemma v_step_ok (dn : nat → Prop) i y' ox' oy' k :
  ox' = ox + k → oy' = oy + k → k + i < n → ¬ dn (k + i) → zip_done f x ox y oy dn y' →
  ensures (v_step f x ox' oy' i y') (zip_done f x ox y oy (fun j => j = k + i ∨ dn j)).
Proof.
  intros -> -> Hi Hnd (Hl & H1 & H2). unfold v_step.
  rewrite <- !Nat.add_assoc.
  destruct (rd_lt x (ox + (k + i))) as (xi & Hxi & ->); [lia|].
  destruct (rd_lt y' (oy + (k + i))) as (yi & Hyi & ->); [lia|]. cbn [mbind res_bind].
  apply ensures_wr; [lia|]. split_and!.
  - by rewrite length_insert.
  - intros j a' b' [->|Hj] Ha Hb.
    + rewrite list_lookup_insert_eq by lia. rewrite H2 in Hyi by (intros j Hj ?; apply Hnd; by replace (k + i) with j by lia).
      naive_solver.
    + rewrite list_lookup_insert_ne; [by apply H1|]. intros E. apply Hnd. by replace (k + i) with j by lia.
  - intros p Hp. rewrite list_lookup_insert_ne by (intros <-; apply (Hp (k + i)); [by left | done]).
    apply H2. intros j Hj. apply Hp. by right.
Qed.

Lemma zip_done_ext (dn dn' : nat → Prop) y' :
  (∀ i, dn i ↔ dn' i) → zip_done f x ox y oy dn y' → zip_done f x ox y oy dn' y'.
Proof.
  intros E (Hl & H1 & H2). split_and!; [done | |].
  - intros i a b' Hi. apply H1, E, Hi.
  - intros p Hp. apply H2. intros i Hi. apply Hp, E, Hi.
Qed.

Lemma v_cases_ok k m y' :
  k + m = n → zip_done f x ox y oy (fun j => j < k) y' →
  ensures (v_cases f x (ox + k) (oy + k) m y') (zip_done f x ox y oy (fun j => j < n)).
Proof.
  intros Hk H. apply (ensures_mono _ (zip_done f x ox y oy (fun j => j < k ∨ k ≤ j < k + m))).
  2:{ intros y''. apply zip_done_ext. lia. }
  cut (∀ dn, zip_done f x ox y oy dn y' → (∀ j, k ≤ j < k + m → ¬ dn j) →
    ensures (v_cases f x (ox + k) (oy + k) m y') (zip_done f x ox y oy (fun j => dn j ∨ k ≤ j < k + m))).
  { intros Hg. apply Hg; [done | lia]. }
  clear H. assert (Hm : k + m ≤ n) by lia. clear Hk. revert y'.
  induction m as [|m IH]; intros y' dn Hd Hnd; simpl.
  - eapply zip_done_ext; [|exact Hd]. intros j. simpl. intuition lia.
  - eapply ensures_bind_mono; [apply (v_step_ok dn m y' _ _ k); [done | done | lia | apply Hnd; lia | done]|].
    intros y'' Hd'. eapply ensures_mono; [apply (IH ltac:(lia) _ _ Hd')|].
    + intros j Hj [->|Hdn]; [lia|]. apply (Hnd j); [lia | done].
    + intros y3. apply zip_done_ext. intros j. simpl. intuition lia.
Qed.
End vec8_ok.

Lemma vec8_loop f x y ox oy n :
  ox + n ≤ length x → oy + n ≤ length y →
  ∀ fuel k m y', m ≤ fuel → k + m = n → zip_done f x ox y oy (fun j => j < k) y' →
  ensures (while_fuel fuel (fun '(y, n, ox, oy) => Ok (8 <=? n)) (fun '(y, n, ox, oy) =>
      y ← v_step f x ox oy 0 y; y ← v_step f x ox oy 1 y; y ← v_step f x ox oy 2 y;
      y ← v_step f x ox oy 3 y; y ← v_step f x ox oy 4 y; y ← v_step f x ox oy 5 y;
      y ← v_step f x ox oy 6 y; y ← v_step f x ox oy 7 y;
      Ok (y, n - 8, ox + 8, oy + 8)) (y', m, ox + k, oy + k) ≫= (fun '(y, n, ox, oy) => v_cases f x ox oy n y))
    (zip_done f x ox y oy (fun j => j < n)).
Proof.
  intros Hx Hy. induction fuel as [|fuel IH]; intros k m y' Hm Hk Hd; cbn [while_fuel mbind res_bind].
  { replace m with 0 by lia. cbn. by replace n with k by lia. }
  destruct (Nat.leb_spec 8 m) as [H8|H8]; [|cbn [mbind res_bind]; by apply (v_cases_ok f x y ox oy n Hx Hy)].
  cbn [mbind res_bind].
  assert (Hs : ∀ i y1, i < 8 → zip_done f x ox y oy (fun j => j < k + i) y1 →
    ensures (v_step f x (ox + k) (oy + k) i y1) (zip_done f x ox y oy (fun j => j < k + S i))).
  { intros i y1 Hi H1. eapply ensures_mono; [apply (v_step_ok f x y ox oy n Hx Hy (fun j => j < k + i) i y1 _ _ k); [done | done | lia | lia | done]|].
    intros y2. apply zip_done_ext. intros j. lia. }
  assert (H0 : zip_done f x ox y oy (fun j => j < k + 0) y') by (eapply zip_done_ext; [|exact Hd]; simpl; lia).
  destruct (ensures_inv _ _ (Hs 0 _ ltac:(lia) H0)) as (y1 & -> & H1). cbn [mbind res_bind].
  destruct (ensures_inv _ _ (Hs 1 _ ltac:(lia) H1)) as (y2 & -> & H2). cbn [mbind res_bind].
  destruct (ensures_inv _ _ (Hs 2 _ ltac:(lia) H2)) as (y3 & -> & H3). cbn [mbind res_bind].
  destruct (ensures_inv _ _ (Hs 3 _ ltac:(lia) H3)) as (y4 & -> & H4). cbn [mbind res_bind].
  destruct (ensures_inv _ _ (Hs 4 _ ltac:(lia) H4)) as (y5 & -> & H5). cbn [mbind res_bind].
  destruct (ensures_inv _ _ (Hs 5 _ ltac:(lia) H5)) as (y6 & -> & H6). cbn [mbind res_bind].
  destruct (ensures_inv _ _ (Hs 6 _ ltac:(lia) H6)) as (y7 & -> & H7). cbn [mbind res_bind].
  destruct (ensures_inv _ _ (Hs 7 _ ltac:(lia) H7)) as (y8 & -> & H9). cbn [mbind res_bind].
  replace (ox + k + 8) with (ox + (k + 8)) by lia. replace (oy + k + 8) with (oy + (k + 8)) by lia.
  apply IH; [lia | lia | done].
Qed.

Lemma vec8_ok f x y ox oy n :
  ox + n ≤ length x → oy + n ≤ length y → ensures (vec8 f x y oy ox n) (zip_cells f x ox y oy n).
Proof.
  intros Hx Hy. unfold vec8. eapply ensures_mono.
  - pose proof (vec8_loop f x y ox oy n Hx Hy n 0 n y ltac:(lia) ltac:(lia)) as Hl.
    rewrite !Nat.add_0_r in Hl. apply Hl. split_and!; [done | lia | done].
  - intros y' (Hl & H1 & H2). split_and!; [done | auto |]. intros k Hk. apply H2. lia.
Qed.

(** ** Properties *)

(** The unrolled [lwpr_math_dot_product] adds the product of each index
    below [n] exactly once, in the order [dot_order n], a permutation of
    [0 .. n-1], and reads nothing outside the two ranges. *)
Theorem dot_product_once x ox y oy n :
  ox + n ≤ length x → oy + n ≤ length y →
  dot_order n ≡ₚ seq 0 n ∧
  lwpr_math_dot_product x ox y oy n = Ok (dot_sum x ox y oy (dot_order n) d0).
Proof. intros Hx Hy. split; [apply dot_order_perm | by apply dot_product_ok]. Qed.

Lemma dot_product_once_witness :
  lwpr_math_dot_product (map d_of_Z [1; 2; 3; 4; 5; 6; 7]%Z) 1 (map d_of_Z [1; 1; 1; 1; 1; 2]%Z) 0 6
  = Ok (d_of_Z 34).
Proof.
  destruct (dot_product_once (map d_of_Z [1; 2; 3; 4; 5; 6; 7]%Z) 1 (map d_of_Z [1; 1; 1; 1; 1; 2]%Z) 0 6)
    as [_ ->]; [simpl; lia.. | reflexivity].
Defined.

(** The kernels unrolled by eight are the loops their comments give: with
    [y] and [x] in different blocks, exactly the [n] cells of [y] are updated,
    each once, by [y[i] + a*x[i]], [a*x[i]] and [b*y[i] + a*x[i]]. *)
Theorem vector_kernels x y ox oy n a b :
  ox + n ≤ length x → oy + n ≤ length y →
  ensures (lwpr_math_add_scalar_vector y oy a x ox n) (zip_cells (fun yi xi => yi + a * xi)%D x ox y oy n) ∧
  ensures (lwpr_math_scalar_vector y oy a x ox n) (zip_cells (fun _ xi => a * xi)%D x ox y oy n) ∧
  ensures (lwpr_math_scale_add_scalar_vector b y oy a x ox n)
    (zip_cells (fun yi xi => b * yi + a * xi)%D x ox y oy n).
Proof. intros Hx Hy. split_and!; by apply vec8_ok. Qed.

Lemma vector_kernels_witness :
  ensures (lwpr_math_scalar_vector (replicate 11 d0) 1 (d_of_Z 2) (replicate 10 (d_of_Z 3)) 0 9)
    (fun y' => y' !! 0 = Some d0 ∧ y' !! 9 = Some (d_of_Z 6)).
Proof.
  destruct (vector_kernels (replicate 10 (d_of_Z 3)) (replicate 11 d0) 0 1 9 (d_of_Z 2) d0)
    as (_ & H & _); [simpl; lia.. |].
  eapply ensures_mono; [exact H|]. intros y' (_ & H1 & H2). split; [apply H2; lia|].
  exact (H1 8 d0 (d_of_Z 3) ltac:(lia) eq_refl eq_refl).
Defined.
