(* ===== verification/LwprReg.v ===== *)
(** * LwprReg: the learning step of one receptive field

    The numerical routines of contrib/aqo/machine_learning_lwpr.c that
    [lwpr_aux_update_one_T] applies to a receptive field: the projections, the
    means, the partial least squares regression, the distance metric and the
    test for another direction.  A pointer into an array of the field or of
    the workspace is the array with an offset; a subscript such as [nReg-2] that
    could be negative is an integer. *)
From S2P Require Import Prelude Float64 LwprModel LwprMath.
Import RFA.
Import WSA.

Local Open Scope Z_scope.
Local Open Scope nat_scope.

(** ** Projections *)
Definition lwpr_aux_compute_projection (n nInS nReg : nat) (sv x U P xv : list double)
  : res (list double * list double) :=
  xv ← for_range 0 n (fun i xv => xi ← rd x i; wr xv i xi) xv;
  '(sv, xv) ← for_range 0 (nReg - 1) (fun j '(sv, xv) =>
      sj ← lwpr_math_dot_product U (j * nInS) xv 0 n;
      sv ← wr sv j sj;
      xv ← lwpr_math_add_scalar_vector xv 0 (- sj)%D P (j * nInS) n;
      Ok (sv, xv)) (sv, xv);
  sl ← lwpr_math_dot_product U ((nReg - 1) * nInS) xv 0 n;
  sv ← wrz sv (Z.of_nat nReg - 1) sl;
  Ok (sv, xv).

(** The same projections, keeping every residual in [xres]. *)
Definition lwpr_aux_compute_projection_r (n nInS nReg : nat) (sv xr x U P : list double)
  : res (list double * list double) :=
  xr ← for_range 0 n (fun i xr => xi ← rd x i; wr xr i xi) xr;
  '(sv, xr) ← for_range 0 (nReg - 1) (fun j '(sv, xr) =>
      sj ← lwpr_math_dot_product U (j * nInS) xr (j * nInS) n;
      sv ← wr sv j sj;
      xr ← for_range 0 n (fun i xr =>
          xi ← rd xr (i + j * nInS);
          p ← rd P (i + j * nInS);
          wr xr (i + (j + 1) * nInS) (xi - p * sj)%D) xr;
      Ok (sv, xr)) (sv, xr);
  sl ← lwpr_math_dot_product U ((nReg - 1) * nInS) xr ((nReg - 1) * nInS) n;
  sv ← wrz sv (Z.of_nat nReg - 1) sl;
  Ok (sv, xr).

(** ** Means *)

(** Returns the field, [xmz] and [ymz]. *)
Definition lwpr_aux_update_means (n : nat) (RF : LWPR_ReceptiveField) (x : list double) (y w : double)
    (xz : list double) : res (LWPR_ReceptiveField * list double * double) :=
  sw ← getr RF sum_w 0;
  l ← getr RF lambda 0;
  let swl := (sw * l)%D in
  let invFac := (d_of_Z 1 / (swl + w))%D in
  '(RF, xz) ← for_range 0 n (fun i '(RF, xz) =>
      mx ← getr RF mean_x i;
      xi ← rd x i;
      let mx := ((swl * mx + w * xi) * invFac)%D in
      RF ← setr RF mean_x i mx;
      let mx := (xi - mx)%D in
      xz ← wr xz i mx;
      v ← getr RF var_x i;
      RF ← setr RF var_x i ((swl * v + w * mx * mx) * invFac)%D;
      Ok (RF, xz)) (RF, xz);
  let RF := set_beta0 RF ((swl * beta0 RF + w * y) * invFac)%D in
  Ok (RF, xz, (y - beta0 RF)%D).

(** ** Regression *)

(** [yres], [e_cv] and [ytarget], from the projections in [RF->s]. *)
Definition reg_residuals (RF : LWPR_ReceptiveField) (WS : LWPR_Workspace) (y w : double)
  : res (LWPR_ReceptiveField * LWPR_Workspace) :=
  let nR := nReg RF in
  WS ← (b ← getr RF beta 0; s0 ← getr RF s 0; setw WS yres 0 (b * s0)%D);
  WS ← for_range 1 nR (fun i WS =>
      b ← getr RF beta i; si ← getr RF s i; p ← getw WS yres (i - 1); setw WS yres i (b * si + p)%D) WS;
  '(RF, WS) ← for_range 0 nR (fun i '(RF, WS) =>
      sw ← getr RF sum_w i; l ← getr RF lambda i;
      RF ← setr RF sum_w i (sw * l + w)%D;
      yr ← getw WS yres i;
      WS ← setw WS e_cv i (y - yr)%D;
      Ok (RF, WS)) (RF, WS);
  WS ← setw WS ytarget 0 y;
  WS ← for_range 0 (nR - 1) (fun i WS => e ← getw WS e_cv i; setw WS ytarget (i + 1) e) WS;
  Ok (RF, WS).

(** The update of direction [j]; the second component accumulates [ws2_SSs2]. *)
Definition reg_direction (n nInS : nat) (WS : LWPR_Workspace) (w : double) (j : nat)
    (st : LWPR_ReceptiveField * double) : res (LWPR_ReceptiveField * double) :=
  let '(RF, ws2) := st in
  let jN := j * nInS in
  l ← getr RF lambda j;
  let lambda_slow := (dlit 9 10 + dlit 1 10 * l)%D in
  yt ← getw WS ytarget j;
  sj ← getr RF s j;
  let wytar := (w * yt)%D in
  let wsj := (w * sj)%D in
  '(RF, Unorm) ← for_range 0 n (fun i '(RF, Unorm) =>
      sxy ← getr RF SXresYres (i + jN);
      xr ← getw WS xres (i + jN);
      let help := (sxy * lambda_slow + wytar * xr)%D in
      RF ← setr RF SXresYres (i + jN) help;
      Ok (RF, (Unorm + help * help)%D)) (RF, d0);
  RF ← (if (Unorm >? dlit 1 1000000000000000000000000)%D then
          let Unorm := (d_of_Z 1 / c_sqrt Unorm)%D in
          u ← lwpr_math_scalar_vector (arr RF U) jN Unorm (arr RF SXresYres) jN n;
          Ok (set_arr RF U u)
        else Ok RF);
  l ← getr RF lambda j;
  ss2 ← getr RF SSs2 j;
  RF ← setr RF SSs2 j (l * ss2 + sj * wsj)%D;
  ssy ← getr RF SSYres j;
  RF ← setr RF SSYres j (l * ssy + yt * wsj)%D;
  sx ← lwpr_math_scale_add_scalar_vector l (arr RF SSXres) jN wsj (wsa WS xres) jN n;
  let RF := set_arr RF SSXres sx in
  ss2 ← getr RF SSs2 j;
  let inv_SSs2j := (d_of_Z 1 / ss2)%D in
  ssy ← getr RF SSYres j;
  RF ← setr RF beta j (ssy * inv_SSs2j)%D;
  p ← lwpr_math_scalar_vector (arr RF P) jN inv_SSs2j (arr RF SSXres) jN n;
  Ok (set_arr RF P p, (ws2 + wsj * wsj * inv_SSs2j)%D).

(** [for (j=0;j<k;j++) ypred += RF->beta[j] * RF->s[j];] *)
Definition reg_predict (RF : LWPR_ReceptiveField) (k : nat) : res double :=
  for_range 0 k (fun j yp => b ← getr RF beta j; sj ← getr RF s j; Ok (yp + b * sj)%D) d0.

(** The prediction and the cross-validation error: the last direction counts
    only once it has seen enough data. *)
Definition reg_errors (n : nat) (RF : LWPR_ReceptiveField) (WS : LWPR_Workspace) : res (double * double) :=
  let nR := nReg RF in
  if nR =? 1 then
    ec ← getw WS e_cv 0; b ← getr RF beta 0; s0 ← getr RF s 0; Ok ((d0 + b * s0)%D, ec)
  else
    nd ← rdz (arr RF n_data) (Z.of_nat nR - 1);
    if (nd >? d_of_Z 2 * d_of_Z (Z.of_nat n))%D then
      yp ← reg_predict RF nR; ec ← rdz (wsa WS e_cv) (Z.of_nat nR - 1); Ok (yp, ec)
    else
      yp ← reg_predict RF (nR - 1); ec ← rdz (wsa WS e_cv) (Z.of_nat nR - 2); Ok (yp, ec).

(** [lwpr_aux_update_regression] up to the question whether the field is ready;
    the result is the field, the workspace, [yp], [e_cv_R] and [e]. *)
Definition update_regression_fit (n nInS : nat) (RF : LWPR_ReceptiveField) (x : list double) (y w : double)
    (WS : LWPR_Workspace) : res (LWPR_ReceptiveField * LWPR_Workspace * double * double * double) :=
  let nR := nReg RF in
  '(s', xr) ← lwpr_aux_compute_projection_r n nInS nR (arr RF s) (wsa WS xres) x (arr RF U) (arr RF P);
  let RF := set_arr RF s s' in
  let WS := set_wsa WS xres xr in
  '(RF, WS) ← reg_residuals RF WS y w;
  '(RF, ws2) ← for_range 0 nR (reg_direction n nInS WS w) (RF, d0);
  l ← rdz (arr RF lambda) (Z.of_nat nR - 1);
  let RF := set_SSp RF (l * SSp RF + ws2)%D in
  '(s', xu') ← lwpr_aux_compute_projection n nInS nR (arr RF s) x (arr RF U) (arr RF P) (wsa WS xu);
  let RF := set_arr RF s s' in
  let WS := set_wsa WS xu xu' in
  '(ypred, e_cv_R) ← reg_errors n RF WS;
  let e := (y - ypred)%D in
  l ← rdz (arr RF lambda) (Z.of_nat nR - 1);
  let RF := set_sum_e2 RF (sum_e2 RF * l + w * e * e)%D in
  RF ← for_range 0 nR (fun i RF =>
      sc ← getr RF sum_e_cv2 i; l ← getr RF lambda i; ec ← getw WS e_cv i;
      setr RF sum_e_cv2 i (sc * l + w * ec * ec)%D) RF;
  Ok (set_slopeReady RF 0, WS, (ypred + beta0 RF)%D, e_cv_R, e).

(** ** The distance metric *)
Definition lwpr_aux_dist_derivatives (n nInS : nat) (dw dJ : list double) (w dwdq : double)
    (RF_D RF_M dx : list double) (diag : bool) (penalty : double) : res (list double * list double) :=
  let penalty := (penalty + penalty)%D in
  if diag then
    for_range 0 n (fun k '(dw, dJ) =>
      let n_n := k + k * nInS in
      m ← rd RF_M n_n;
      let aux := (d_of_Z 2 * m)%D in
      dxk ← rd dx k;
      dw ← wr dw n_n (dxk * dxk * aux * dwdq)%D;
      dd ← rd RF_D n_n;
      dJ ← wr dJ n_n (penalty * dd * aux)%D;
      Ok (dw, dJ)) (dw, dJ)
  else
    for_range 0 n (fun k '(dw, dJ) =>
      for_range k n (fun m '(dw, dJ) =>
        '(sum_aux, dqdM) ← for_range k n (fun i '(sum_aux, dqdM) =>
            M_ni ← rd RF_M (k + i * nInS);
            dxi ← rd dx i;
            dd ← rd RF_D (i + m * nInS);
            Ok ((sum_aux + dd * M_ni)%D, (dqdM + dxi * M_ni)%D)) (d0, d0);
        dxm ← rd dx m;
        dw ← wr dw (k + m * nInS) (d_of_Z 2 * dxm * dqdM * dwdq)%D;
        dJ ← wr dJ (k + m * nInS) (d_of_Z 2 * penalty * sum_aux)%D;
        Ok (dw, dJ)) (dw, dJ)) (dw, dJ).

(** The diagonal case: the step on [M], and [D] from it. *)
Definition metric_diag (n nInS : nat) (RF : LWPR_ReceptiveField) (WS : LWPR_Workspace) (transMul wW dJ1dw : double)
  : res (LWPR_ReceptiveField * LWPR_Workspace) :=
  maxM ← for_range 0 n (fun j maxM =>
      m ← getr RF M (j + j * nInS); let m := c_fabs m in Ok (if (m >? maxM)%D then m else maxM)) d0;
  WS ← for_range 0 n (fun j WS =>
      let off := j + j * nInS in
      dJ ← getw WS dJ2dM off; dw ← getw WS dwdM off;
      setw WS dJ2dM off (wW * dJ + dw * dJ1dw)%D) WS;
  RF ← for_range 0 n (fun j RF =>
      let off := j + j * nInS in
      a ← getr RF alpha off; dJ ← getw WS dJ2dM off;
      let delta := (a * transMul * dJ)%D in
      if (delta >? dlit 1 10 * maxM)%D then setr RF alpha off (a * dlit 5 10)%D
      else m ← getr RF M off; setr RF M off (m - delta)%D) RF;
  RF ← for_range 0 n (fun j RF => m ← getr RF M (j + j * nInS); setr RF D (j + j * nInS) (m * m)%D) RF;
  Ok (RF, WS).

(** The full case: the upper triangle of [M], and [D = M' * M]. *)
Definition metric_full (n nInS : nat) (RF : LWPR_ReceptiveField) (WS : LWPR_Workspace) (transMul wW dJ1dw : double)
  : res (LWPR_ReceptiveField * LWPR_Workspace) :=
  maxM ← for_range 0 n (fun j maxM => for_range 0 (j + 1) (fun i maxM =>
      m ← getr RF M (i + j * nInS); let m := c_fabs m in Ok (if (m >? maxM)%D then m else maxM)) maxM) d0;
  WS ← for_range 0 n (fun j WS =>
      l ← lwpr_math_scale_add_scalar_vector wW (wsa WS dJ2dM) (j * nInS) dJ1dw (wsa WS dwdM) (j * nInS) (j + 1);
      Ok (set_wsa WS dJ2dM l)) WS;
  RF ← for_range 0 n (fun j RF => for_range 0 (j + 1) (fun i RF =>
      let off := i + j * nInS in
      a ← getr RF alpha off; dJ ← getw WS dJ2dM off;
      let delta := (a * transMul * dJ)%D in
      if (delta >? dlit 1 10 * maxM)%D then setr RF alpha off (a * dlit 5 10)%D
      else m ← getr RF M off; setr RF M off (m - delta)%D) RF) RF;
  RF ← for_range 0 n (fun j RF =>
      RF ← for_range 0 j (fun i RF => x ← getr RF D (j + i * nInS); setr RF D (i + j * nInS) x) RF;
      for_range j n (fun i RF =>
        x ← lwpr_math_dot_product (arr RF M) (i * nInS) (arr RF M) (j * nInS) (j + 1);
        setr RF D (i + j * nInS) x) RF) RF;
  Ok (RF, WS).

(** [E]: the cross-validation error of the last direction that counts. *)
Definition metric_E (n : nat) (RF : LWPR_ReceptiveField) : res double :=
  let nR := nReg RF in
  if nR =? 1 then getr RF sum_e_cv2 0
  else
    nd ← rdz (arr RF n_data) (Z.of_nat nR - 1);
    if (nd >? d_of_Z (2 * Z.of_nat n))%D then rdz (arr RF sum_e_cv2) (Z.of_nat nR - 1)
    else rdz (arr RF sum_e_cv2) (Z.of_nat nR - 2).

(** [derivOk] is set to 1 everywhere, so every direction takes part. *)
Definition lwpr_aux_update_distance_metric (cf : LWPR_Config) (RF : LWPR_ReceptiveField) (w dwdq ecv e : double)
    (x : list double) (WS : LWPR_Workspace) : res (LWPR_ReceptiveField * LWPR_Workspace * double) :=
  let n := nIn cf in
  let nInS := nInStore cf in
  let nR := nReg RF in
  let pen := (penalty cf / d_of_Z (Z.of_nat n))%D in
  dok ← for_range 0 nR (fun i l => wr l i 1%Z) (derivOk WS);
  let WS := set_derivOk WS dok in
  ok0 ← rd (derivOk WS) 0;
  if (ok0 =? 0)%Z then Ok (RF, WS, d0)
  else
    let e_cv2 := (ecv * ecv)%D in
    hh ← for_range 0 nR (fun i hh =>
        ok ← rd (derivOk WS) i;
        if (ok =? 0)%Z then Ok hh
        else si ← getr RF s i; ss ← getr RF SSs2 i; Ok (hh + si * si / ss)%D) d0;
    let hh := (hh * w)%D in
    W ← getr RF sum_w 0;
    E ← metric_E n RF;
    let t := (sum_e2 RF / (E + dlit 1 10000000000))%D in
    let t := (t * t)%D in
    let t := (t * t)%D in
    let transMul := if (t >? d_of_Z 1)%D then d_of_Z 1 else t in
    let dJ1dw := (- E / W + e_cv2)%D in
    '(WS, dJ1dw) ← for_range 0 nR (fun i '(WS, dJ1dw) =>
        ok ← rd (derivOk WS) i;
        if (ok =? 0)%Z then WS ← setw WS Ps i d0; WS ← setw WS Pse i d0; Ok (WS, dJ1dw)
        else
          si ← getr RF s i; ss ← getr RF SSs2 i;
          let ps := (si / ss)%D in
          WS ← setw WS Ps i ps;
          let pse := (e * ps)%D in
          WS ← setw WS Pse i pse;
          hi ← getr RF H i; ri ← getr RF r i;
          Ok (WS, (dJ1dw - (d_of_Z 2 * pse * hi + d_of_Z 2 * ps * ps * ri))%D)) (WS, dJ1dw);
    let dJ1dw := (dJ1dw / W)%D in
    let wW := (w / W)%D in
    WS ← for_range 0 n (fun i WS => xi ← rd x i; ci ← getr RF c i; setw WS dx i (xi - ci)%D) WS;
    '(dw, dJ) ← lwpr_aux_dist_derivatives n nInS (wsa WS dwdM) (wsa WS dJ2dM) w dwdq
                  (arr RF D) (arr RF M) (wsa WS dx) (diag_only cf) pen;
    let WS := set_wsa (set_wsa WS dwdM dw) dJ2dM dJ in
    '(RF, WS) ← (if diag_only cf then metric_diag else metric_full) n nInS RF WS transMul wW dJ1dw;
    RF ← for_range 0 nR (fun i RF =>
        ok ← rd (derivOk WS) i;
        if (ok =? 0)%Z then Ok RF
        else
          l ← getr RF lambda i; hi ← getr RF H i; si ← getr RF s i;
          RF ← setr RF H i (l * hi + w / (d_of_Z 1 - hh) * si * ecv * transMul)%D;
          ri ← getr RF r i;
          setr RF r i (l * ri + w * w * e_cv2 / (d_of_Z 1 - hh) * si * si * transMul)%D) RF;
    Ok (RF, WS, transMul).

(** ** Another direction *)

(** A field at its storage limit is enlarged first; returns the field and the
    result of the function. *)
Definition lwpr_aux_check_add_projection (mis : bool) (cf : LWPR_Config) (RF : LWPR_ReceptiveField)
  : res (LWPR_ReceptiveField * Z) :=
  let nR := nReg RF in
  let nInS := nInStore cf in
  if nIn cf <=? nR then Ok (RF, 0%Z)
  else
    e1 ← rdz (arr RF sum_e_cv2) (Z.of_nat nR - 1); w1 ← rdz (arr RF sum_w) (Z.of_nat nR - 1);
    let mse_n_reg := (e1 / w1 + dlit 1 10000000000)%D in
    e2 ← rdz (arr RF sum_e_cv2) (Z.of_nat nR - 2); w2 ← rdz (arr RF sum_w) (Z.of_nat nR - 2);
    let mse_n_reg_1 := (e2 / w2 + dlit 1 10000000000)%D in
    nd ← rdz (arr RF n_data) (Z.of_nat nR - 1);
    nd0 ← getr RF n_data 0;
    if (mse_n_reg <? add_threshold cf * mse_n_reg_1)%D && (nd >? dlit 99 100 * nd0)%D then
      RF ← (if nR =? nRegStore RF then lwpr_mem_realloc_rf mis RF (nR + 2) nInS else Ok RF);
      RF ← setr RF SSs2 nR (init_S2 cf);
      RF ← setr RF U (nR + nR * nInS) (d_of_Z 1);
      RF ← setr RF P (nR + nR * nInS) (d_of_Z 1);
      RF ← setr RF sum_w nR (dlit 1 10000000000);
      RF ← setr RF lambda nR (init_lambda cf);
      Ok (set_SSp (set_nReg RF (nR + 1)) d0, 1%Z)
    else Ok (RF, 0%Z).

(** ** Sizes *)
Lemma vec8_len f x y ox oy k :
  ox + k ≤ length x → oy + k ≤ length y → ensures (vec8 f x y oy ox k) (fun y' => length y' = length y).
Proof. intros Hx Hy. eapply ensures_mono; [by apply vec8_ok|]. by intros y' [Hl _]. Qed.

Lemma dot_total x ox y oy k :
  ox + k ≤ length x → oy + k ≤ length y → ensures (lwpr_math_dot_product x ox y oy k) (fun _ => True).
Proof. intros Hx Hy. by rewrite dot_product_ok. Qed.

Section sizes.
Context (n nInS : nat).

(** The arrays of a field, and of a workspace, have their sizes. *)
Definition rsz (RS : nat) (RF : LWPR_ReceptiveField) : Prop := ∀ a, length (arr RF a) = rf_size n nInS RS a.
Definition wsz (WS : LWPR_Workspace) : Prop := ws_ok n nInS WS.

Lemma frame_rsz S RS RF RF' : rf_frame S RF RF' → rsz RS RF → rsz RS RF'.
Proof. intros Hf Hs a. by rewrite (fr_len _ _ _ Hf). Qed.

Lemma set_wsa_wsz WS a l : wsz WS → length l = ws_size n nInS a → wsz (set_wsa WS a l).
Proof. intros [H1 H2] Hl. split; [done|]. intros x. simpl. by destruct (decide (x = a)) as [->|]. Qed.

Lemma set_arr_sized S RS RF a l :
  rsz RS RF → length l = rf_size n nInS RS a → a ∈ S → rsz RS (set_arr RF a l) ∧ rf_frame S RF (set_arr RF a l).
Proof.
  intros Hs Hl Ha. assert (Hf : rf_frame [a] RF (set_arr RF a l)) by (apply set_arr_frame; by rewrite Hs).
  split; [by eapply frame_rsz|]. eapply rf_frame_mono; [|done]. set_solver.
Qed.

Lemma st_getr RS RF a i (Q : double → Prop) :
  rsz RS RF → i < rf_size n nInS RS a → (∀ x, arr RF a !! i = Some x → Q x) → ensures (getr RF a i) Q.
Proof. intros Hs Hi. apply ensures_getr. by rewrite Hs. Qed.

Lemma st_setr RS RF a i x (Q : LWPR_ReceptiveField → Prop) :
  rsz RS RF → i < rf_size n nInS RS a →
  (∀ RF', RF' = set_arr RF a (<[i := x]> (arr RF a)) → rsz RS RF' → rf_frame [a] RF RF' → Q RF') →
  ensures (setr RF a i x) Q.
Proof.
  intros Hs Hi HQ. apply ensures_setr; [by rewrite Hs|]. intros RF' E Hf. apply HQ; [done | by eapply frame_rsz | done].
Qed.

Lemma st_vec RS f RF a off x ox k (Q : list double → Prop) :
  rsz RS RF → off + k ≤ rf_size n nInS RS a → ox + k ≤ length x →
  (∀ l, rsz RS (set_arr RF a l) → rf_frame [a] RF (set_arr RF a l) → Q l) → ensures (vec8 f x (arr RF a) off ox k) Q.
Proof.
  intros Hs Ho Hx HQ. eapply ensures_mono; [by apply vec8_len; [|rewrite Hs]|]. intros l Hl.
  destruct (set_arr_sized [a] RS RF a l); [done | by rewrite Hl, Hs | set_solver | by apply HQ].
Qed.

Lemma st_wvec f WS a off x ox k (Q : list double → Prop) :
  wsz WS → off + k ≤ ws_size n nInS a → ox + k ≤ length x →
  (∀ l, wsz (set_wsa WS a l) → Q l) → ensures (vec8 f x (wsa WS a) off ox k) Q.
Proof.
  intros Hs Ho Hx HQ. eapply ensures_mono; [by apply vec8_len; [|rewrite (ws_sizes _ _ _ Hs)]|]. intros l Hl.
  apply HQ, set_wsa_wsz; [done|]. by rewrite Hl, (ws_sizes _ _ _ Hs).
Qed.

Lemma st_getw WS a i (Q : double → Prop) :
  wsz WS → i < ws_size n nInS a → (∀ x, wsa WS a !! i = Some x → Q x) → ensures (getw WS a i) Q.
Proof. intros [_ Hs] Hi. apply ensures_rd. by rewrite Hs. Qed.

Lemma st_setw WS a i x (Q : LWPR_Workspace → Prop) :
  wsz WS → i < ws_size n nInS a →
  (∀ WS', WS' = set_wsa WS a (<[i := x]> (wsa WS a)) → wsz WS' → derivOk WS' = derivOk WS → Q WS') →
  ensures (setw WS a i x) Q.
Proof.
  intros Hw Hi HQ. unfold setw. rewrite wr_lt by (by rewrite (ws_sizes _ _ _ Hw)). cbn [mbind res_bind ensures].
  apply HQ; [done| |done]. apply set_wsa_wsz; [done|]. by rewrite length_insert, (ws_sizes _ _ _ Hw).
Qed.
End sizes.

Lemma ensures_rdz {A} (l : list A) (i : Z) (Q : A → Prop) :
  (0 ≤ i < Z.of_nat (length l))%Z → (∀ x, l !! Z.to_nat i = Some x → Q x) → ensures (rdz l i) Q.
Proof. intros Hi HQ. unfold rdz. rewrite (proj2 (Z.leb_le _ _)) by lia. apply ensures_rd; [lia | done]. Qed.

Lemma ensures_wrz {A} (l : list A) (i : Z) x (Q : list A → Prop) :
  (0 ≤ i < Z.of_nat (length l))%Z → Q (<[Z.to_nat i := x]> l) → ensures (wrz l i x) Q.
Proof. intros Hi HQ. unfold wrz. rewrite (proj2 (Z.leb_le _ _)) by lia. apply ensures_wr; [lia | done]. Qed.

(** Composition of frames, from the last step backwards. *)
Lemma frame_step S S' RF RF' RF'' : rf_frame S' RF' RF'' → S' ⊆ S → rf_frame S RF RF' → rf_frame S RF RF''.
Proof. intros H1 H2 H3. eapply rf_frame_trans; [done|]. by eapply rf_frame_mono. Qed.

(** Membership and inclusion in a list written out. *)
Ltac mem := first [ apply list_elem_of_here | apply list_elem_of_further; mem ].
Ltac incl_list :=
  let x := fresh in let Hx := fresh in
  intros x Hx; repeat (apply elem_of_cons in Hx as [->|Hx]; [mem|]); by apply elem_of_nil in Hx.

Ltac sizes :=
  repeat match goal with
  | Hr : rsz _ _ _ ?R |- context [length (arr ?R ?a)] => rewrite (Hr a)
  | Hr : wsz _ _ ?W |- context [length (wsa ?W ?a)] => rewrite (ws_sizes _ _ _ Hr a)
  | Hr : wsz _ _ ?W |- context [length (derivOk ?W)] => rewrite (ws_deriv _ _ _ Hr)
  end.

(** Bounds of subscripts. *)
Ltac idx :=
  sizes; cbn [rf_size ws_size num_pred_error_history num_query_pattern];
  first [ lia | (apply (rf_mat_lt _); lia) | nia ].

Ltac frames :=
  first [ assumption | apply rf_frame_refl
        | eapply frame_step; [eassumption | incl_list |]; frames ].

(** One step in an [ensures] goal. *)
Ltac lstep :=
  match goal with
  | |- ensures (_ ≫= _) _ => apply ensures_bind
  | |- ensures (Ok _) _ => apply ensures_ok
  | |- ensures (getr _ _ _) _ => eapply st_getr; [eassumption | idx | intros ? _]
  | |- ensures (setr _ _ _ _) _ => eapply st_setr; [eassumption | idx | intros ? _ ? ?]
  | |- ensures (getw _ _ _) _ => eapply st_getw; [eassumption | idx | intros ? _]
  | |- ensures (setw _ _ _ _) _ => eapply st_setw; [eassumption | idx | intros ? _ ? ?]
  | |- ensures (rdz _ _) _ => apply ensures_rdz; [idx | intros ? _]
  | |- ensures (rd _ _) _ => apply ensures_rd; [idx | intros ? _]
  | |- ensures (lwpr_math_dot_product _ _ _ _ _) _ =>
      eapply ensures_mono; [apply dot_total; idx | intros ? _]
  | |- ensures (lwpr_math_scalar_vector (arr _ _) _ _ _ _ _) _ => eapply st_vec; [eassumption | idx | idx | intros ? ? ?]
  | |- ensures (lwpr_math_scale_add_scalar_vector _ (arr _ _) _ _ _ _ _) _ =>
      eapply st_vec; [eassumption | idx | idx | intros ? ? ?]
  | |- ensures (lwpr_math_scale_add_scalar_vector _ (wsa _ _) _ _ _ _ _) _ =>
      eapply st_wvec; [eassumption | idx | idx | intros ? ?]
  | |- ensures (let '(_, _) := ?p in _) _ => is_var p; destruct p
  end.

(** ** The projections *)
Section proj.
Context (n nInS nR : nat) (U P x : list double).
Context (HnR : 1 ≤ nR) (HnS : n ≤ nInS) (Hx : n ≤ length x).
Context (HU : nInS * nR ≤ length U) (HP : nInS * nR ≤ length P).

Lemma copy_in y : n ≤ length y →
  ∃ y', for_range 0 n (fun i y => xi ← rd x i; wr y i xi) y = Ok y' ∧ length y' = length y ∧
    (∀ i, i < n → y' !! i = x !! i).
Proof.
  intros Hy. apply ensures_inv.
  eapply ensures_mono; [apply (ensures_for (fun k y' => length y' = length y ∧ ∀ i, i < k → y' !! i = x !! i)); [lia | split; [done | lia]|]|].
  - intros j y' Hj [Hl He]. apply ensures_bind, ensures_rd; [lia|]. intros xi Hxi.
    apply ensures_wr; [lia|]. split; [by rewrite length_insert|]. intros i Hi.
    destruct (decide (i = j)) as [->|]; [rewrite list_lookup_insert_eq by lia; done|].
    rewrite list_lookup_insert_ne by done. apply He. lia.
  - auto.
Qed.

(** The residual of direction [j+1] from the one of direction [j]. *)
Lemma residual_ok j sj xres :
  S j < nR → nInS * nR ≤ length xres →
  ∃ xr, for_range 0 n (fun i xr => xi ← rd xr (i + j * nInS); p ← rd P (i + j * nInS);
          wr xr (i + (j + 1) * nInS) (xi - p * sj)%D) xres = Ok xr ∧ length xr = length xres ∧
    ∀ i, i < n → ∃ a p, xres !! (j * nInS + i) = Some a ∧ P !! (j * nInS + i) = Some p ∧
      xr !! (S j * nInS + i) = Some (a + (- sj) * p)%D.
Proof.
  intros Hj Hl. apply ensures_inv.
  eapply ensures_mono; [apply (ensures_for (fun k xr => length xr = length xres ∧
    (∀ i, i < k → ∃ a p, xres !! (j * nInS + i) = Some a ∧ P !! (j * nInS + i) = Some p ∧
      xr !! (S j * nInS + i) = Some (a + (- sj) * p)%D) ∧
    (∀ i, i < n → xr !! (j * nInS + i) = xres !! (j * nInS + i)))); [lia | split_and!; [done | lia | done]|]|].
  - intros k xr Hk (Hlx & He & Hsame).
    assert (B1 : j * nInS + k < nInS * nR) by nia. assert (B2 : S j * nInS + k < nInS * nR) by nia.
    replace (k + j * nInS) with (j * nInS + k) by lia. replace (k + (j + 1) * nInS) with (S j * nInS + k) by lia.
    apply ensures_bind, ensures_rd; [lia|]. intros a Ha.
    apply ensures_bind, ensures_rd; [lia|]. intros p Hp.
    apply ensures_wr; [lia|]. split_and!; [by rewrite length_insert| |].
    + intros i Hi. destruct (decide (i = k)) as [->|Hne].
      * exists a, p. split_and!; [by rewrite <- (Hsame k) by lia | done|]. rewrite list_lookup_insert_eq by lia. by rewrite dsub_mul.
      * rewrite list_lookup_insert_ne by lia. apply He. lia.
    + intros i Hi. rewrite list_lookup_insert_ne by nia. by apply Hsame.
  - intros xr (H1 & H2 & _). auto.
Qed.

(** The two routines compute the same projections. *)
Lemma projections_agree s xu xres :
  nR ≤ length s → n ≤ length xu → nInS * nR ≤ length xres →
  ∃ s' xu' xres',
    lwpr_aux_compute_projection n nInS nR s x U P xu = Ok (s', xu') ∧
    lwpr_aux_compute_projection_r n nInS nR s xres x U P = Ok (s', xres') ∧
    length s' = length s ∧ length xu' = length xu ∧ length xres' = length xres.
Proof.
  intros Hs Hxu Hxr. unfold lwpr_aux_compute_projection, lwpr_aux_compute_projection_r.
  destruct (copy_in xu Hxu) as (xu0 & -> & Hl0 & He0).
  destruct (copy_in xres ltac:(nia)) as (xr0 & -> & Hl1 & He1). cbn [mbind res_bind].
  destruct (for_rel (fun j '(s1, xu1) '(s2, xr1) => s1 = s2 ∧ length s1 = length s ∧ length xu1 = length xu ∧
      length xr1 = length xres ∧ ∀ i, i < n → xu1 !! i = xr1 !! (j * nInS + i)) 0 (nR - 1)
    (fun j '(sv, xv) =>
      sj ← lwpr_math_dot_product U (j * nInS) xv 0 n;
      sv ← wr sv j sj;
      xv ← lwpr_math_add_scalar_vector xv 0 (- sj)%D P (j * nInS) n;
      Ok (sv, xv))
    (fun j '(sv, xr) =>
      sj ← lwpr_math_dot_product U (j * nInS) xr (j * nInS) n;
      sv ← wr sv j sj;
      xr ← for_range 0 n (fun i xr =>
          xi ← rd xr (i + j * nInS);
          p ← rd P (i + j * nInS);
          wr xr (i + (j + 1) * nInS) (xi - p * sj)%D) xr;
      Ok (sv, xr)) (s, xu0) (s, xr0)) as ([s1 xu1] & [s2 xr1] & -> & -> & <- & Hls & Hlu & Hlr & He); [lia| | |].
  - split_and!; try done; try lia. intros i Hi. simpl. by rewrite He0, He1.
  - intros j [s1 xu1] [s2 xr1] Hj (<- & Hls & Hlu & Hlr & He).
    assert (j * nInS + n ≤ nInS * nR) by nia.
    rewrite !dot_product_ok by lia. rewrite (dot_sum_ext _ _ xr1 _ xu1 0).
    2:{ intros i Hi. symmetry. apply He. rewrite dot_order_perm in Hi. apply elem_of_seq in Hi. lia. }
    set (sj := dot_sum _ _ _ _ _ _). cbn [mbind res_bind].
    destruct (residual_ok j sj xr1) as (xr2 & -> & Hlr2 & He2); [lia | lia|].
    destruct (ensures_inv _ _ (vec8_ok (fun yi xi => yi + (- sj) * xi)%D P xu1 (j * nInS) 0 n ltac:(lia) ltac:(lia)))
      as (xu2 & Exu & Hlu2 & Hu2 & _).
    rewrite wr_lt by lia. cbn [mbind res_bind]. unfold lwpr_math_add_scalar_vector. rewrite Exu.
    do 2 eexists. split; [reflexivity|]. split; [reflexivity|].
    split_and!; [done | by rewrite length_insert | lia | lia|].
    intros i Hi. destruct (He2 i Hi) as (a & p & Ha & Hp & ->). apply (Hu2 i a p); [done | by rewrite He | done].
  - cbn [mbind res_bind]. assert ((nR - 1) * nInS + n ≤ nInS * nR) by nia.
    rewrite !dot_product_ok by lia. rewrite (dot_sum_ext _ _ xr1 _ xu1 0).
    2:{ intros i Hi. symmetry. apply He. rewrite dot_order_perm in Hi. apply elem_of_seq in Hi. lia. }
    cbn [mbind res_bind]. replace (Z.of_nat nR - 1)%Z with (Z.of_nat (nR - 1)) by lia. rewrite wrz_nat, wr_lt by lia.
    cbn [mbind res_bind]. do 3 eexists. split; [reflexivity|]. split; [reflexivity|].
    split_and!; [by rewrite length_insert | done | done].
Qed.
End proj.

(** ** The routines stay in their arrays *)
Section reg.
Context (n nInS RS : nat) (Hn : 1 ≤ n) (HnS : n ≤ nInS) (HRS : n ≤ RS).
Notation rsz := (rsz n nInS RS).
Notation wsz := (wsz n nInS).

Lemma update_means_ok RF x y w xz :
  rsz RF → n ≤ length x → length xz = nInS →
  ensures (lwpr_aux_update_means n RF x y w xz) (fun '(RF', xz', _) =>
    rsz RF' ∧ rf_frame [mean_x; var_x] RF RF' ∧ length xz' = nInS).
Proof.
  intros Hs Hx Hz. unfold lwpr_aux_update_means. repeat lstep. eapply ensures_mono.
  - apply (ensures_for (fun _ '(RF', xz') => rsz RF' ∧ rf_frame [mean_x; var_x] RF RF' ∧ length xz' = nInS));
      [lia | by auto with rfframe|].
    intros i [RF1 xz1] Hi (Hs1 & Hf1 & Hz1). repeat lstep.
    apply ensures_wr; [lia|]. repeat lstep.
    simpl. split_and!; [done | frames | by rewrite length_insert].
  - intros [RF1 xz1] (Hs1 & Hf1 & Hz1). cbv zeta. simpl.
    pose proof (set_beta0_frame [mean_x; var_x] RF1 ((x0 * x1 * beta0 RF1 + w * y) * (d_of_Z 1 / (x0 * x1 + w)))%D) as Hb.
    split_and!; [by eapply frame_rsz | by eapply rf_frame_trans | done].
Qed.

Lemma reg_residuals_ok RF WS y w :
  rsz RF → wsz WS → 1 ≤ nReg RF ≤ n →
  ensures (reg_residuals RF WS y w) (fun '(RF', WS') => rsz RF' ∧ rf_frame [sum_w] RF RF' ∧ wsz WS').
Proof.
  intros Hs Hw Hr. unfold reg_residuals. cbv zeta. repeat lstep. eapply ensures_mono.
  { apply (ensures_for (fun _ WS' => wsz WS')); [lia | done|]. intros i WS1 Hi Hw1. by repeat lstep. }
  intros WS1 Hw1. repeat lstep. eapply ensures_mono.
  { apply (ensures_for (fun _ '(RF', WS') => rsz RF' ∧ rf_frame [sum_w] RF RF' ∧ wsz WS'));
      [lia | by auto with rfframe|].
    intros i [RF2 WS2] Hi (Hs2 & Hf2 & Hw2). repeat lstep. simpl. split_and!; [done | frames | done]. }
  intros [RF2 WS2] (Hs2 & Hf2 & Hw2). repeat lstep. eapply ensures_mono.
  { apply (ensures_for (fun _ WS' => wsz WS')); [lia | done|]. intros i WS3 Hi Hw3. by repeat lstep. }
  intros WS3 Hw3. simpl. auto.
Qed.

Lemma reg_direction_ok WS w j RF ws2 :
  rsz RF → wsz WS → j < n →
  ensures (reg_direction n nInS WS w j (RF, ws2)) (fun '(RF', _) =>
    rsz RF' ∧ rf_frame [SXresYres; U; SSs2; SSYres; SSXres; beta; P] RF RF').
Proof.
  intros Hs Hw Hj. set (S := [SXresYres; U; SSs2; SSYres; SSXres; beta; P]).
  assert (Hrow : j * nInS + n ≤ nInS * RS) by nia. assert (Hrow' : j * nInS + n ≤ nInS * n) by nia.
  unfold reg_direction. cbv zeta. repeat lstep. eapply ensures_mono.
  { apply (ensures_for (fun _ '(RF', _) => rsz RF' ∧ rf_frame S RF RF')); [lia | by auto with rfframe|].
    intros i [RF1 un] Hi (Hs1 & Hf1). repeat lstep. simpl. split; [done | frames]. }
  intros [RF1 un] (Hs1 & Hf1).
  repeat lstep. apply (ensures_mono _ (fun RF' => rsz RF' ∧ rf_frame S RF RF')).
  { destruct (dlt _ _); repeat lstep; [|done]. split; [done | frames]. }
  intros RF2 (Hs2 & Hf2). repeat lstep. split; [done | frames].
Qed.

Lemma reg_predict_ok RF k : rsz RF → k ≤ RS → ensures (reg_predict RF k) (fun _ => True).
Proof.
  intros Hs Hk. apply (ensures_for (fun _ _ => True)); [lia | done|]. intros j y Hj _. by repeat lstep.
Qed.

Lemma reg_errors_ok RF WS : rsz RF → wsz WS → 1 ≤ nReg RF ≤ n → ensures (reg_errors n RF WS) (fun _ => True).
Proof.
  intros Hs Hw Hr. unfold reg_errors. cbv zeta. destruct (Nat.eqb_spec (nReg RF) 1); [by repeat lstep|].
  repeat lstep. destruct (dlt _ _); (eapply ensures_bind_mono; [apply reg_predict_ok; [done | lia]|]); intros yp _; by repeat lstep.
Qed.

Lemma update_regression_fit_ok RF x y w WS :
  rsz RF → wsz WS → 1 ≤ nReg RF ≤ n → n ≤ length x →
  ensures (update_regression_fit n nInS RF x y w WS) (fun '(RF', WS', _, _, _) =>
    rsz RF' ∧ wsz WS' ∧
    rf_frame [s; sum_w; SXresYres; U; SSs2; SSYres; SSXres; beta; P; sum_e_cv2] RF RF').
Proof.
  intros Hs Hw Hr Hx. set (S := [s; sum_w; SXresYres; U; SSs2; SSYres; SSXres; beta; P; sum_e_cv2]).
  assert (Hmat : nInS * nReg RF ≤ nInS * RS) by nia.
  unfold update_regression_fit. cbv zeta.
  destruct (projections_agree n nInS (nReg RF) (arr RF U) (arr RF P) x ltac:(lia) HnS Hx ltac:(by sizes) ltac:(by sizes)
    (arr RF s) (wsa WS xu) (wsa WS xres)) as (s1 & _ & xr1 & _ & E1 & Hl1 & _ & Hlx); [idx | idx | idx |].
  rewrite E1. cbn [mbind res_bind].
  destruct (set_arr_sized n nInS S RS RF s s1) as [Hs1 Hf1]; [done | by rewrite Hl1, Hs | mem |].
  assert (Hw1 : wsz (set_wsa WS xres xr1)) by (apply set_wsa_wsz; [done | by rewrite Hlx, (ws_sizes _ _ _ Hw)]).
  assert (Hr1 : nReg (set_arr RF s s1) = nReg RF) by apply Hf1.
  eapply ensures_bind_mono; [apply reg_residuals_ok; [done | done | lia]|]. intros [RF2 WS2] (Hs2 & Hf2 & Hw2).
  eapply ensures_bind_mono.
  { apply (ensures_for (fun _ '(RF', _) => rsz RF' ∧ rf_frame S RF2 RF')); [lia | by auto with rfframe|].
    intros j [RF3 a3] Hj (Hs3 & Hf3). eapply ensures_mono; [apply reg_direction_ok; [done | done | lia]|].
    intros [RF4 a4] [Hs4 Hf4]. split; [done | frames]. }
  intros [RF3 ws2] (Hs3 & Hf3). repeat lstep. rename x0 into l3.
  set (RF4 := set_SSp RF3 _). assert (Hf4 : rf_frame [] RF3 RF4) by apply set_SSp_frame.
  assert (Hs4 : rsz RF4) by (by eapply frame_rsz).
  assert (F04 : rf_frame S RF RF4) by frames.
  destruct (projections_agree n nInS (nReg RF) (arr RF4 U) (arr RF4 P) x ltac:(lia) HnS Hx ltac:(by sizes) ltac:(by sizes)
    (arr RF4 s) (wsa WS2 xu) (wsa WS2 xres)) as (s5 & xu5 & _ & E5 & _ & Hl5 & Hlx5 & _); [idx | idx | idx |].
  rewrite E5. cbn [ensures].
  destruct (set_arr_sized n nInS S RS RF4 s s5) as [Hs5 Hf5]; [done | by rewrite Hl5, Hs4 | mem |].
  assert (Hw5 : wsz (set_wsa WS2 xu xu5)) by (apply set_wsa_wsz; [done | by rewrite Hlx5, (ws_sizes _ _ _ Hw2)]).
  assert (F05 : rf_frame S RF (set_arr RF4 s s5)) by frames.
  assert (Hr5 : nReg (set_arr RF4 s s5) = nReg RF) by apply F05.
  eapply ensures_bind_mono; [apply reg_errors_ok; [done | done | lia]|]. intros [yp ec] _. repeat lstep.
  set (RF6 := set_sum_e2 _ _). assert (Hf6 : rf_frame [] (set_arr RF4 s s5) RF6) by apply set_sum_e2_frame.
  assert (Hs6 : rsz RF6) by (by eapply frame_rsz).
  eapply ensures_mono.
  { apply (ensures_for (fun _ RF' => rsz RF' ∧ rf_frame S RF6 RF')); [lia | by auto with rfframe|].
    intros i RF7 Hi (Hs7 & Hf7). repeat lstep. split; [done | frames]. }
  intros RF7 (Hs7 & Hf7). simpl. pose proof (set_slopeReady_frame [] RF7) as Hf8.
  split_and!; [by eapply frame_rsz | done | frames].
Qed.
End reg.

(** ** The metric stays diagonal *)

(** The metric is diagonal, and the square of its factor. *)
Definition diag_metric (n nInS : nat) (RF : LWPR_ReceptiveField) : Prop :=
  ∀ i j, i < n → j < n → arr RF D !! (i + j * nInS) =
    if decide (i = j) then (fun m => m * m)%D <$> arr RF M !! (i + j * nInS) else Some d0.

Section metric.
Context (n nInS RS : nat) (Hn : 1 ≤ n) (HnS : n ≤ nInS) (HRS : n ≤ RS).
Notation rsz := (rsz n nInS RS).
Notation wsz := (wsz n nInS).

Lemma dist_derivatives_ok dw dJ w dwdq RD RM x diag pen :
  length dw = nInS * n → length dJ = nInS * n → length RD = nInS * n → length RM = nInS * n → n ≤ length x →
  ensures (lwpr_aux_dist_derivatives n nInS dw dJ w dwdq RD RM x diag pen) (fun '(dw', dJ') =>
    length dw' = nInS * n ∧ length dJ' = nInS * n).
Proof.
  intros H1 H2 H3 H4 Hx. set (Q := fun '(dw', dJ') => length (dw' : list double) = nInS * n ∧ length (dJ' : list double) = nInS * n).
  assert (Hset : ∀ dw dJ i j (a b : double), Q (dw, dJ) → i < n → j < n →
    ensures (dw ← wr dw (i + j * nInS) a; dJ ← wr dJ (i + j * nInS) b; Ok (dw, dJ)) Q).
  { intros u v i j a b [Hu Hv] Hi Hj. assert (i + j * nInS < nInS * n) by (apply (rf_mat_lt n); lia).
    apply ensures_bind, ensures_wr; [lia|]. apply ensures_bind, ensures_wr; [lia|]. simpl. by rewrite !length_insert. }
  unfold lwpr_aux_dist_derivatives. cbv zeta. destruct diag.
  - apply (ensures_for (fun _ => Q)); [lia | done|]. intros k [u v] Hk HQ.
    assert (k + k * nInS < nInS * n) by (apply (rf_mat_lt n); lia).
    do 2 (apply ensures_bind, ensures_rd; [lia|]; intros ? _).
    destruct HQ as [Hu Hv]. apply ensures_bind, ensures_wr; [lia|]. apply ensures_bind, ensures_rd; [lia|]. intros ? _.
    apply ensures_bind, ensures_wr; [lia|]. simpl. by rewrite !length_insert.
  - apply (ensures_for (fun _ => Q)); [lia | done|]. intros k [u v] Hk HQ.
    apply (ensures_for (fun _ => Q)); [lia | done|]. intros m [u1 v1] Hm HQ1.
    eapply ensures_bind_mono.
    { apply (ensures_for (fun _ _ => True)); [lia | done|]. intros i [a b] Hi _.
      assert (k + i * nInS < nInS * n) by (apply (rf_mat_lt n); lia).
      assert (i + m * nInS < nInS * n) by (apply (rf_mat_lt n); lia).
      do 3 (apply ensures_bind, ensures_rd; [lia|]; intros ? _). done. }
    intros [sa dq] _. apply ensures_bind, ensures_rd; [lia|]. intros dm _. apply Hset; [done | lia | lia].
Qed.

Lemma metric_diag_ok RF WS tm wW dJ :
  rsz RF → wsz WS →
  ensures (metric_diag n nInS RF WS tm wW dJ) (fun '(RF', WS') =>
    rsz RF' ∧ wsz WS' ∧ derivOk WS' = derivOk WS ∧ rf_frame [alpha; M; D] RF RF' ∧
    (diag_metric n nInS RF → diag_metric n nInS RF')).
Proof.
  intros Hs Hw. unfold metric_diag.
  assert (Hd : ∀ j, j < n → j + j * nInS < nInS * n) by (intros; apply (rf_mat_lt n); lia).
  eapply ensures_bind_mono; [apply (ensures_for (fun _ _ => True)); [lia | done|]; intros j mm Hj _;
    specialize (Hd j ltac:(lia)); by repeat lstep|].
  intros maxM _. eapply ensures_bind_mono.
  { apply (ensures_for (fun _ WS' => wsz WS' ∧ derivOk WS' = derivOk WS)); [lia | done|]. intros j WS1 Hj [Hw1 Ed1]. specialize (Hd j ltac:(lia)).
    repeat lstep. split; [done | congruence]. }
  intros WS1 [Hw1 Ed1]. eapply ensures_bind_mono.
  { apply (ensures_for (fun _ RF' => rsz RF' ∧ rf_frame [alpha; M; D] RF RF' ∧ arr RF' D = arr RF D)); [lia | by auto with rfframe|].
    intros j RF1 Hj (Hs1 & Hf1 & ED). specialize (Hd j ltac:(lia)). repeat lstep. destruct (dlt _ _); repeat lstep;
      (split_and!; [done | frames |]; match goal with Hf : rf_frame [_] RF1 _ |- _ => rewrite (fr_arr _ _ _ Hf) end; [done | set_solver]). }
  intros RF1 (Hs1 & Hf1 & ED). eapply ensures_bind_mono.
  { apply (ensures_for (fun k RF' => rsz RF' ∧ rf_frame [D] RF1 RF' ∧
      (∀ i, i < k → arr RF' D !! (i + i * nInS) = (fun m => m * m)%D <$> arr RF1 M !! (i + i * nInS)) ∧
      (∀ i j, i < n → j < n → i ≠ j → arr RF' D !! (i + j * nInS) = arr RF1 D !! (i + j * nInS)))).
    { lia. } { split_and!; [done | apply rf_frame_refl | lia | done]. }
    intros j RF2 Hj (Hs2 & Hf2 & Hdg & Hoff). pose proof (Hd j ltac:(lia)) as Hdj.
    apply ensures_bind. eapply st_getr; [eassumption | idx | intros m Hm].
    eapply st_setr; [eassumption | idx | intros RF3 E3 Hs3 Hf3]. split_and!; [done | frames | |].
    - intros i Hi. rewrite E3, arr_set_arr, decide_True by done. destruct (decide (i = j)) as [->|Hij].
      + rewrite list_lookup_insert_eq by idx. rewrite <- (fr_arr _ _ _ Hf2) by set_solver. by rewrite Hm.
      + rewrite list_lookup_insert_ne by nia. apply Hdg. lia.
    - intros i k Hi Hk Hik. rewrite E3, arr_set_arr, decide_True by done. rewrite list_lookup_insert_ne; [by apply Hoff|].
      intros E. apply Hik. assert (j = k) by nia. nia. }
  intros RF2 (Hs2 & Hf2 & Hdg & Hoff). simpl. split_and!; [done | done | done | frames|].
  intros Hm i j Hi Hj. case_decide as Eij.
  - subst j. rewrite Hdg by done. by rewrite (fr_arr _ _ _ Hf2) by set_solver.
  - rewrite Hoff by done. rewrite ED, Hm by done. by rewrite decide_False.
Qed.

Lemma metric_full_ok RF WS tm wW dJ :
  rsz RF → wsz WS →
  ensures (metric_full n nInS RF WS tm wW dJ) (fun '(RF', WS') =>
    rsz RF' ∧ wsz WS' ∧ derivOk WS' = derivOk WS ∧ rf_frame [alpha; M; D] RF RF').
Proof.
  intros Hs Hw. unfold metric_full.
  assert (Hd : ∀ i j, i < n → j < n → i + j * nInS < nInS * n) by (intros; apply (rf_mat_lt n); lia).
  eapply ensures_bind_mono.
  { apply (ensures_for (fun _ _ => True)); [lia | done|]. intros j mm Hj _.
    apply (ensures_for (fun _ _ => True)); [lia | done|]. intros i mm' Hi _.
    specialize (Hd i j ltac:(lia) ltac:(lia)). by repeat lstep. }
  intros maxM _. eapply ensures_bind_mono.
  { apply (ensures_for (fun _ WS' => wsz WS' ∧ derivOk WS' = derivOk WS)); [lia | done|]. intros j WS1 Hj [Hw1 Ed1].
    assert (j * nInS + (j + 1) ≤ nInS * n) by nia. repeat lstep. done. }
  intros WS1 [Hw1 Ed1]. set (S := [alpha; M; D]). eapply ensures_bind_mono.
  { apply (ensures_for (fun _ RF' => rsz RF' ∧ rf_frame S RF RF')); [lia | by auto with rfframe|].
    intros j RF0 Hj HRF0. apply (ensures_for (fun _ RF' => rsz RF' ∧ rf_frame S RF RF')); [lia | done|].
    intros i RF1 Hi [Hs1 Hf1]. specialize (Hd i j ltac:(lia) ltac:(lia)).
    repeat lstep. destruct (dlt _ _); repeat lstep; (split; [done | frames]). }
  intros RF1 [Hs1 Hf1]. eapply ensures_bind_mono.
  { apply (ensures_for (fun _ RF' => rsz RF' ∧ rf_frame S RF RF')); [lia | done|].
    intros j RF2 Hj HRF2. eapply ensures_bind_mono.
    - apply (ensures_for (fun _ RF' => rsz RF' ∧ rf_frame S RF RF')); [lia | done|].
      intros i RF3 Hi [Hs3 Hf3]. pose proof (Hd i j ltac:(lia) ltac:(lia)). specialize (Hd j i ltac:(lia) ltac:(lia)).
      repeat lstep. split; [done | frames].
    - intros RF3 HRF3. apply (ensures_for (fun _ RF' => rsz RF' ∧ rf_frame S RF RF')); [lia | done|].
      intros i RF4 Hi [Hs4 Hf4]. specialize (Hd i j ltac:(lia) ltac:(lia)).
      assert (i * nInS + (j + 1) ≤ nInS * n ∧ j * nInS + (j + 1) ≤ nInS * n) by nia.
      repeat lstep. split; [done | frames]. }
  intros RF2 [Hs2 Hf2]. simpl. auto.
Qed.

Lemma metric_E_ok RF : rsz RF → 1 ≤ nReg RF ≤ n → ensures (metric_E n RF) (fun _ => True).
Proof.
  intros Hs Hr. unfold metric_E. cbv zeta. destruct (Nat.eqb_spec (nReg RF) 1); [by repeat lstep|].
  repeat lstep. destruct (dlt _ _); by repeat lstep.
Qed.

Lemma update_distance_metric_ok cf RF w dwdq ecv e x WS :
  nIn cf = n → nInStore cf = nInS → rsz RF → wsz WS → 1 ≤ nReg RF ≤ n → n ≤ length x →
  ensures (lwpr_aux_update_distance_metric cf RF w dwdq ecv e x WS) (fun '(RF', WS', _) =>
    rsz RF' ∧ wsz WS' ∧ rf_frame [alpha; M; D; H; r] RF RF' ∧
    (diag_only cf = true → diag_metric n nInS RF → diag_metric n nInS RF')).
Proof.
  intros E1 E2 Hs Hw Hr Hx. set (S := [alpha; M; D; H; r]).
  unfold lwpr_aux_update_distance_metric. rewrite E1, E2. cbv zeta.
  eapply ensures_bind_mono.
  { apply (ensures_for (fun k l => length l = n ∧ ∀ i, i < k → l !! i = Some 1%Z)); [lia | split; [apply Hw | lia]|].
    intros i l Hi [Hl Hone]. apply ensures_wr; [lia|]. split; [by rewrite length_insert|]. intros k Hk.
    destruct (decide (k = i)) as [->|]; [apply list_lookup_insert_eq; lia|].
    rewrite list_lookup_insert_ne by done. apply Hone. lia. }
  intros dok [Hld Hone]. set (WS1 := set_derivOk WS dok).
  assert (Hw1 : wsz WS1) by (split; [done | apply Hw]).
  assert (Hdok : ∀ i, i < nReg RF → rd (derivOk WS1) i = Ok 1%Z) by (intros i Hi; apply rd_some; by apply Hone).
  rewrite (Hdok 0) by lia. cbn [mbind res_bind Z.eqb].
  eapply ensures_bind_mono.
  { apply (ensures_for (fun _ _ => True)); [lia | done|]. intros i hh Hi _. rewrite (Hdok i) by lia.
    cbn [mbind res_bind Z.eqb]. by repeat lstep. }
  intros hh _. repeat lstep. eapply ensures_mono; [by apply metric_E_ok|]. intros E _.
  eapply ensures_bind_mono.
  { apply (ensures_for (fun _ '(WS', _) => wsz WS' ∧ derivOk WS' = derivOk WS1)); [lia | done|].
    intros i [WS2 dj] Hi [Hw2 Ed]. rewrite Ed, (Hdok i) by lia. cbn [mbind res_bind Z.eqb]. repeat lstep. split; [done | congruence]. }
  intros [WS2 dJ1] [Hw2 Ed2]. eapply ensures_bind_mono.
  { apply (ensures_for (fun _ WS' => wsz WS' ∧ derivOk WS' = derivOk WS1)); [lia | done|].
    intros i WS3 Hi [Hw3 Ed3]. repeat lstep. split; [done | congruence]. }
  intros WS3 [Hw3 Ed3]. eapply ensures_bind_mono.
  { apply dist_derivatives_ok; idx. }
  intros [dw dj] [Hdw Hdj]. set (WS4 := set_wsa (set_wsa WS3 dwdM dw) dJ2dM dj).
  assert (Hw4 : wsz WS4) by (apply set_wsa_wsz; [apply set_wsa_wsz|]; done).
  assert (Ed4 : derivOk WS4 = derivOk WS1) by done.
  apply ensures_bind. apply (ensures_mono _ (fun '(RF', WS') => rsz RF' ∧ wsz WS' ∧ derivOk WS' = derivOk WS1 ∧
    rf_frame S RF RF' ∧ (diag_only cf = true → diag_metric n nInS RF → diag_metric n nInS RF'))).
  { destruct (diag_only cf).
    - eapply ensures_mono; [by apply metric_diag_ok|]. intros [RF' WS'] (? & ? & Ed & ? & Hm).
      split_and!; [done | done | by rewrite Ed | frames | done].
    - eapply ensures_mono; [by apply metric_full_ok|]. intros [RF' WS'] (? & ? & Ed & ?).
      split_and!; [done | done | by rewrite Ed | frames | done]. }
  intros [RF5 WS5] (Hs5 & Hw5 & Ed5 & Hf5 & Hm5). rewrite Ed5.
  assert (Hr5 : nReg RF5 = nReg RF) by apply Hf5. eapply ensures_bind_mono.
  { apply (ensures_for (fun _ RF' => rsz RF' ∧ rf_frame [H; r] RF5 RF')); [lia | by auto with rfframe|].
    intros i RF6 Hi [Hs6 Hf6]. rewrite (Hdok i) by lia. cbn [mbind res_bind Z.eqb]. repeat lstep. split; [done | frames]. }
  intros RF6 [Hs6 Hf6]. simpl. split_and!; [done | done | frames|].
  intros Hdiag Hm i j Hi Hj. rewrite !(fr_arr _ _ _ Hf6) by set_solver. by apply Hm5.
Qed.

(** Another direction is added only below [nIn], so the storage suffices. *)
Lemma check_add_projection_ok mis cf RF :
  nIn cf = n → nInStore cf = nInS → rsz RF → nRegStore RF = RS → Nat.min 2 n ≤ nReg RF ≤ n →
  ensures (lwpr_aux_check_add_projection mis cf RF) (fun '(RF', _) => rsz RF' ∧
    (RF' = RF ∨ nReg RF < n ∧ ∃ RF1, rf_frame [SSs2; U; P; sum_w; lambda] RF RF1 ∧ RF' = set_nReg RF1 (nReg RF + 1))).
Proof.
  intros E1 E2 Hs HS Hr. unfold lwpr_aux_check_add_projection. rewrite E1, E2. cbv zeta.
  destruct (Nat.leb_spec n (nReg RF)) as [Hge|Hlt]; [simpl; auto|]. repeat lstep.
  destruct (_ && _); [|simpl; auto].
  destruct (Nat.eqb_spec (nReg RF) (nRegStore RF)); [lia|]. cbn [mbind res_bind].
  assert (nReg RF + nReg RF * nInS < nInS * RS) by nia. repeat lstep.
  match goal with |- context [set_nReg ?R _] => set (RF5 := R) in * end.
  assert (Hf : rf_frame [SSs2; U; P; sum_w; lambda] RF RF5) by frames.
  pose proof (set_SSp_frame [SSs2; U; P; sum_w; lambda] RF5 d0) as HfS. split.
  - intros a. rewrite <- (frame_rsz _ _ _ _ _ _ HfS ltac:(done) a). by destruct RF5.
  - right. split; [done|]. exists (set_SSp RF5 d0). split; [frames|]. by destruct RF5.
Qed.
End metric.

(** ** Properties *)

(** C36. The projections used for prediction and the ones used for learning are
    the same numbers: [lwpr_aux_compute_projection], which overwrites its
    residual with an unrolled kernel, and [lwpr_aux_compute_projection_r], which
    keeps every residual, write the same [s], bit for bit, and both stay inside
    their arrays. *)
Theorem projection_routines_agree (n nInS nR : nat) (U P x sv xv xr : list double) :
  1 ≤ nR → n ≤ nInS → n ≤ length x → nInS * nR ≤ length U → nInS * nR ≤ length P →
  nR ≤ length sv → n ≤ length xv → nInS * nR ≤ length xr →
  ∃ s' xu' xres',
    lwpr_aux_compute_projection n nInS nR sv x U P xv = Ok (s', xu') ∧
    lwpr_aux_compute_projection_r n nInS nR sv xr x U P = Ok (s', xres') ∧ length s' = length sv.
Proof.
  intros H1 H2 H3 H4 H5 H6 H7 H8.
  destruct (projections_agree n nInS nR U P x H1 H2 H3 H4 H5 sv xv xr H6 H7 H8) as (s' & xu' & xres' & E1 & E2 & Hl & _).
  by exists s', xu', xres'.
Qed.

Lemma projection_routines_agree_witness :
  ∃ s' xu' xres',
    lwpr_aux_compute_projection 1 2 2 [d0; d0] [d_of_Z 3] (map d_of_Z [2; 0; 5; 0]%Z) (map d_of_Z [1; 0; 0; 0]%Z) [d0] = Ok (s', xu') ∧
    lwpr_aux_compute_projection_r 1 2 2 [d0; d0] (palloc0 4) [d_of_Z 3] (map d_of_Z [2; 0; 5; 0]%Z) (map d_of_Z [1; 0; 0; 0]%Z)
      = Ok (s', xres') ∧ length s' = 2.
Proof.
  apply (projection_routines_agree 1 2 2 (map d_of_Z [2; 0; 5; 0]%Z) (map d_of_Z [1; 0; 0; 0]%Z) [d_of_Z 3] [d0; d0] [d0] (palloc0 4));
    simpl; lia.
Defined.
