(* ===== verification/PgState.v ===== *)
(** * PgState: the session state and the relation layer under storage.c

    The state a backend keeps for AQO ([query_context] of aqo.h, the set of
    deactivated queries) together with the tables of aqo--1.1.sql.  A table is
    the list of its tuples visible to [SnapshotSelf]; its index covers its
    leading columns.  The heap and index routines storage.c calls are modelled
    by what they do to these tuples: a scan finds the first tuple with the key,
    an insertion adds one, [heap_update] replaces one unless another session
    got there first, and a unique index raises an error on a second live entry
    for a key.  Locks, WAL and buffers are not modelled. *)
From S2P Require Import Prelude Float64 Nodes PgArray LwprModel.
From stdpp Require Import strings.

(** ** Query context *)

(** A time of the monotonic clock. *)
Record instr_time : Type := mkTime { tv_sec : Z; tv_nsec : Z }.

Record QueryContextData : Type := mkContext {
  query_hash : Z;
  learn_aqo : bool;
  use_aqo : bool;
  fspace_hash : Z;
  auto_tuning : bool;
  collect_stat : bool;
  adding_query : bool;
  explain_only : bool;
  explain_aqo : bool;
  query_starttime : instr_time;
  query_planning_time : double;
  current_query_hash : Z;
  query_distribution : list double;
  ctx_nfeatures : nat;
  current_query_features : list double;
  best_est_cost : double;
  best_pred_cost : double
}.

Definition set_distribution (q : QueryContextData) (l : list double) : QueryContextData :=
  let '(mkContext qh la ua fh at_ cs aq eo ea ts pt cq _ nf cf be bp) := q in
  mkContext qh la ua fh at_ cs aq eo ea ts pt cq l nf cf be bp.

(** ** Relations *)
Inductive relname : Type :=
| aqo_queries | aqo_query_texts | aqo_query_stat | aqo_data | aqo_data_lwpr | aqo_data_house_lwpr
| aqo_markov_table | aqo_best_two_costs_table.

#[export] Instance relname_eq_dec : EqDecision relname.
Proof. solve_decision. Defined.

Inductive Datum : Type :=
| Int32GetDatum (z : Z)
| BoolGetDatum (b : bool)
| Int64GetDatum (z : Z)
| PointerGetDatum (a : ArrayType)
| CStringGetTextDatum (t : cstring).

(** What [heap_deform_tuple] stores for a null column. *)
Definition null_value : Datum := Int32GetDatum 0.

Definition DatumGetInt32 (d : Datum) : res Z :=
  match d with Int32GetDatum z => Ok z | _ => Err Fault_conv end.
Definition DatumGetInt64 (d : Datum) : res Z :=
  match d with Int64GetDatum z => Ok z | _ => Err Fault_conv end.
Definition DatumGetBool (d : Datum) : res bool :=
  match d with BoolGetDatum b => Ok b | _ => Err Fault_conv end.
(** Detoasting what is not a pointer to an array is an invalid access. *)
Definition DatumGetArray (d : Datum) : res ArrayType :=
  match d with PointerGetDatum a => Ok a | _ => Err Fault_bounds end.

(** A stored tuple; [None] is NULL. *)
Definition tuple : Type := list (option Datum).

Definition natts (r : relname) : nat :=
  match r with
  | aqo_queries => 10 | aqo_query_texts => 2 | aqo_query_stat => 9 | aqo_data => 5
  | aqo_data_lwpr => 35 | aqo_data_house_lwpr => 5 | aqo_markov_table => 3 | aqo_best_two_costs_table => 5
  end.

(** The number of leading columns in the index of the relation. *)
Definition indnatts (r : relname) : nat :=
  match r with aqo_data | aqo_data_lwpr => 2 | aqo_data_house_lwpr => 3 | _ => 1 end.

Inductive HTSU_Result : Type :=
| HeapTupleMayBeUpdated | HeapTupleInvisible | HeapTupleSelfUpdated | HeapTupleUpdated | HeapTupleBeingUpdated.

Inductive IndexUniqueCheck : Type := UNIQUE_CHECK_NO | UNIQUE_CHECK_YES.

(** What the session cannot decide: which relations and indexes exist, and how
    each [heap_update] ends, by the command it is part of: its result and
    whether the new version is heap-only (HOT), without index entry of its own. *)
Class Cluster : Type := {
  OidIsValid : relname → bool;
  relation_exists : relname → bool;
  heap_update_result : nat → HTSU_Result;
  heap_update_hot : nat → bool
}.

Record pgstate : Type := mkState {
  rows : relname → list tuple;
  ctx : QueryContextData;
  cid : nat;
  opened : Z;
  deactivated_queries : option (gset Z)
}.

Definition set_rows (st : pgstate) (r : relname) (l : list tuple) : pgstate :=
  mkState (fun x => if decide (x = r) then l else rows st x) (ctx st) (cid st) (opened st) (deactivated_queries st).
Definition set_ctx (st : pgstate) (q : QueryContextData) : pgstate :=
  mkState (rows st) q (cid st) (opened st) (deactivated_queries st).
Definition set_cid (st : pgstate) (n : nat) : pgstate :=
  mkState (rows st) (ctx st) n (opened st) (deactivated_queries st).
Definition set_opened (st : pgstate) (n : Z) : pgstate :=
  mkState (rows st) (ctx st) (cid st) n (deactivated_queries st).
Definition set_deactivated (st : pgstate) (d : option (gset Z)) : pgstate :=
  mkState (rows st) (ctx st) (cid st) (opened st) d.

(** ** The monad: an error keeps the state it happened in *)
Definition PG (A : Type) : Type := pgstate → res A * pgstate.

#[export] Instance PG_ret : MRet PG := fun A a st => (Ok a, st).
#[export] Instance PG_bind : MBind PG := fun A B f m st =>
  match m st with (Ok a, st') => f a st' | (Err e, st') => (Err e, st') end.

Definition pg_lift {A} (m : res A) : PG A := fun st => (m, st).
Definition pg_throw {A} (e : fault) : PG A := fun st => (Err e, st).
Definition pg_get {A} (f : pgstate → A) : PG A := fun st => (Ok (f st), st).
Definition pg_modify (f : pgstate → pgstate) : PG unit := fun st => (Ok tt, f st).

(** [PG_TRY() body PG_CATCH() handler; PG_RE_THROW() PG_END_TRY()]. *)
Definition pg_try {A} (body : PG A) (handler : PG unit) : PG A := fun st =>
  match body st with
  | (Ok a, st') => (Ok a, st')
  | (Err e, st') => match handler st' with
                    | (Ok _, st'') => (Err e, st'')
                    | (Err e', st'') => (Err e', st'')
                    end
  end.

(** [m] returns from [st] with a result and a state that satisfy [Q]. *)
Definition pg_ensures {A} (m : PG A) (st : pgstate) (Q : A → pgstate → Prop) : Prop :=
  match m st with (Ok a, st') => Q a st' | (Err _, _) => False end.

(** ** Tuples and arrays of values *)

(** [heap_deform_tuple] writes all attributes into the caller's arrays. *)
Definition heap_deform_tuple (t : tuple) (values : list Datum) (isnull : list bool)
  : res (list Datum * list bool) :=
  for_range 0 (length t) (fun i '(values, isnull) =>
    d ← rd t i;
    values ← wr values i (default null_value d);
    isnull ← wr isnull i (bool_decide (d = None));
    Ok (values, isnull)) (values, isnull).

Definition heap_form_tuple (n : nat) (values : list Datum) (isnull : list bool) : res tuple :=
  for_range 0 n (fun i t =>
    v ← rd values i;
    b ← rd isnull i;
    Ok (t ++ [if (b : bool) then None else Some v])) [].

Definition heap_modify_tuple (t : tuple) (values : list Datum) (isnull doReplace : list bool) : res tuple :=
  for_range 0 (length t) (fun i t' =>
    rep ← rd doReplace i;
    if (rep : bool) then
      v ← rd values i;
      b ← rd isnull i;
      Ok (t' ++ [if (b : bool) then None else Some v])
    else d ← rd t i; Ok (t' ++ [d])) [].

(** Does a tuple have these integers in its leading columns? *)
Fixpoint has_key (keys : list Z) (t : tuple) : bool :=
  match keys, t with
  | [], _ => true
  | k :: keys, Some (Int32GetDatum z) :: t => (k =? z)%Z && has_key keys t
  | _, _ => false
  end.

(** The key columns of an array of values. *)
Fixpoint values_key (n : nat) (values : list Datum) : res (list Z) :=
  match n, values with
  | O, _ => Ok []
  | S n, v :: values => z ← DatumGetInt32 v; l ← values_key n values; Ok (z :: l)
  | _, _ => Err Fault_bounds
  end.

(** ** Heap and index access *)
Section access.
Context `{Cluster}.

Definition RelnameGetRelid (r : relname) : PG bool := mret (OidIsValid r).

Definition heap_openrv (r : relname) : PG unit :=
  if relation_exists r then pg_modify (fun st => set_opened st (opened st + 1))
  else pg_throw (Fault_elog "relation does not exist"%string).

Definition index_open (r : relname) : PG unit := pg_modify (fun st => set_opened st (opened st + 1)).
Definition index_beginscan (r : relname) : PG unit := pg_modify (fun st => set_opened st (opened st + 1)).
Definition index_endscan (r : relname) : PG unit := pg_modify (fun st => set_opened st (opened st - 1)).
Definition index_close (r : relname) : PG unit := pg_modify (fun st => set_opened st (opened st - 1)).
Definition heap_close (r : relname) : PG unit := pg_modify (fun st => set_opened st (opened st - 1)).
Definition CommandCounterIncrement : PG unit := pg_modify (fun st => set_cid st (S (cid st))).

(** [index_rescan] and the first [index_getnext]: the place of the tuple
    stands for its item pointer. *)
Definition index_getnext (r : relname) (keys : list Z) : PG (option (nat * tuple)) :=
  pg_get (fun st => list_find (fun t => has_key keys t = true) (rows st r)).

Definition simple_heap_insert (r : relname) (t : tuple) : PG nat := fun st =>
  (Ok (length (rows st r)), set_rows st r (rows st r ++ [t])).

Definition simple_heap_delete (r : relname) (tid : nat) : PG unit :=
  pg_modify (fun st => set_rows st r (delete tid (rows st r))).

Definition disable_aqo_for_query : PG unit := pg_modify (fun st =>
  let '(mkContext qh _ _ fh _ _ _ eo ea ts pt cq di nf cf be bp) := ctx st in
  set_ctx st (mkContext qh false false fh false false false eo ea ts pt cq di nf cf be bp)).

(** Returns whether the tuple was updated; when it was, its new version is in
    its place. *)
Definition my_simple_heap_update (r : relname) (tid : nat) (t : tuple) : PG bool := fun st =>
  match heap_update_result (cid st) with
  | HeapTupleSelfUpdated => (Err (Fault_elog "tuple already updated by self"%string), st)
  | HeapTupleMayBeUpdated => (Ok true, set_rows st r (<[tid := t]> (rows st r)))
  | HeapTupleUpdated | HeapTupleBeingUpdated => (Ok false, st)
  | HeapTupleInvisible => (Err (Fault_elog "unrecognized heap_update status"%string), st)
  end.

(** [_bt_check_unique]: another live tuple with the key, or the key's own entry
    leading by its HOT chain to the tuple being inserted, is a conflict. *)
Definition my_index_insert (r : relname) (values : list Datum) (tid : nat) (heap_only : bool)
    (checkUnique : IndexUniqueCheck) : PG bool :=
  keys ← pg_lift (values_key (indnatts r) values);
  dup ← pg_get (fun st => existsb (fun '(i, t) => negb (i =? tid) && has_key keys t)
                            (zip (seq 0 (length (rows st r))) (rows st r)));
  match checkUnique with
  | UNIQUE_CHECK_NO => mret true
  | UNIQUE_CHECK_YES =>
      if (dup : bool) || heap_only
      then pg_throw (Fault_elog "duplicate key value violates unique constraint"%string)
      else mret true
  end.

(** The insertion of a tuple with its index entry, undone on an error. *)
Definition try_insert (r : relname) (t : tuple) (values : list Datum) (checkUnique : IndexUniqueCheck) : PG unit :=
  tid ← simple_heap_insert r t;
  pg_try (my_index_insert r values tid false checkUnique ≫= fun _ => mret tt)
    (CommandCounterIncrement ≫= fun _ => simple_heap_delete r tid).

(** [my_simple_heap_update] and, when it succeeded, the index entry. *)
Definition try_update (r : relname) (tid : nat) (t : tuple) (values : list Datum)
    (checkUnique : IndexUniqueCheck) : PG unit :=
  hot ← pg_get (fun st => heap_update_hot (cid st));
  ok ← my_simple_heap_update r tid t;
  if (ok : bool) then my_index_insert r values tid hot checkUnique ≫= fun _ => mret tt else mret tt.

(** The opening and closing of an index scan on a relation. *)
Definition open_scan (r : relname) (keys : list Z) : PG (option (nat * tuple)) :=
  heap_openrv r ≫= fun _ => index_open r ≫= fun _ => index_beginscan r ≫= fun _ => index_getnext r keys.

Definition close_scan (r : relname) : PG unit :=
  index_endscan r ≫= fun _ => index_close r ≫= fun _ => heap_close r.
End access.

(** ** Rules of the monad *)
Lemma pg_ensures_bind {A B} (m : PG A) (f : A → PG B) st Q :
  pg_ensures m st (fun a st' => pg_ensures (f a) st' Q) → pg_ensures (m ≫= f) st Q.
Proof. unfold pg_ensures, mbind, PG_bind. by destruct (m st) as [[]]. Qed.

Lemma pg_ensures_mono {A} (m : PG A) st (P Q : A → pgstate → Prop) :
  pg_ensures m st P → (∀ a st', P a st' → Q a st') → pg_ensures m st Q.
Proof. unfold pg_ensures. destruct (m st) as [[] ?]; auto. Qed.

Lemma pg_ensures_bind_mono {A B} (m : PG A) (f : A → PG B) st (P : A → pgstate → Prop) Q :
  pg_ensures m st P → (∀ a st', P a st' → pg_ensures (f a) st' Q) → pg_ensures (m ≫= f) st Q.
Proof. intros Hm Hf. apply pg_ensures_bind. by eapply pg_ensures_mono. Qed.

Lemma pg_ensures_inv {A} (m : PG A) st Q : pg_ensures m st Q → ∃ a st', m st = (Ok a, st') ∧ Q a st'.
Proof. unfold pg_ensures. destruct (m st) as [[] ?]; naive_solver. Qed.

Lemma pg_bind_ok {A B} (m : PG A) (f : A → PG B) st a st' : m st = (Ok a, st') → (m ≫= f) st = f a st'.
Proof. unfold mbind, PG_bind. by intros ->. Qed.

Lemma pg_bind_ext {A B} (m m' : PG A) (f : A → PG B) st : m st = m' st → (m ≫= f) st = (m' ≫= f) st.
Proof. unfold mbind, PG_bind. by intros ->. Qed.

Lemma pg_lift_ok {A B} (m : res A) (f : A → PG B) st a : m = Ok a → (pg_lift m ≫= f) st = f a st.
Proof. by intros ->. Qed.

Lemma pg_ret_bind {A B} (a : A) (f : A → PG B) st : (mret a ≫= f) st = f a st.
Proof. done. Qed.

Lemma pg_get_bind {A B} (g : pgstate → A) (f : A → PG B) st : (pg_get g ≫= f) st = f (g st) st.
Proof. done. Qed.

Lemma pg_ensures_lift {A} (m : res A) st (Q : A → pgstate → Prop) :
  ensures m (fun a => Q a st) → pg_ensures (pg_lift m) st Q.
Proof. unfold pg_ensures, pg_lift. by destruct m. Qed.

Lemma pg_ensures_intro {A} (m : PG A) st a st' (Q : A → pgstate → Prop) :
  m st = (Ok a, st') → Q a st' → pg_ensures m st Q.
Proof. unfold pg_ensures. by intros ->. Qed.

(** [for] loops whose body uses the session. *)
Fixpoint pg_for_from {S : Type} (i n : nat) (body : nat → S → PG S) (s : S) : PG S :=
  match n with
  | O => mret s
  | Datatypes.S n' => s' ← body i s; pg_for_from (Datatypes.S i) n' body s'
  end.

Definition pg_for {S : Type} (lo hi : nat) (body : nat → S → PG S) (s : S) : PG S :=
  pg_for_from lo (hi - lo) body s.

Lemma pg_ensures_for {S} (I : nat → S → pgstate → Prop) lo hi (body : nat → S → PG S) s st :
  lo ≤ hi → I lo s st →
  (∀ j t st, lo ≤ j < hi → I j t st → pg_ensures (body j t) st (I (Datatypes.S j))) →
  pg_ensures (pg_for lo hi body s) st (I hi).
Proof.
  intros Hle HI Hb. unfold pg_for. remember (hi - lo) as k eqn:Ek. revert lo s st Hle HI Hb Ek.
  induction k as [|k IH]; intros lo s st Hle HI Hb Ek; simpl.
  - by replace hi with lo by lia.
  - eapply pg_ensures_bind_mono; [apply Hb; [lia | done]|]. intros t st' Ht. apply IH; [lia | done | | lia].
    intros j u st1 Hj. apply Hb. lia.
Qed.

(** ** Tuples *)
Lemma for_build {A} n (body : nat → list A → res (list A)) (l : list A) :
  length l = n → (∀ i x acc, l !! i = Some x → body i acc = Ok (acc ++ [x])) →
  for_range 0 n body [] = Ok l.
Proof.
  intros Hl Hb.
  assert (E : ensures (for_range 0 n body []) (fun acc => acc = take n l)).
  { apply (ensures_for (fun i acc => acc = take i l)); [lia | done|]. intros i acc Hi ->.
    destruct (lookup_lt_is_Some_2 l i) as [x Hx]; [lia|]. rewrite (Hb i x) by done.
    simpl. by rewrite (take_S_r l i x). }
  apply ensures_inv in E as (acc & -> & ->). by rewrite take_ge by lia.
Qed.

Lemma heap_form_ok n values :
  length values = n → heap_form_tuple n values (replicate n false) = Ok (Some <$> values).
Proof.
  intros Hl. apply for_build; [by rewrite length_fmap|]. intros i x acc Hx.
  apply list_lookup_fmap_Some in Hx as (v & -> & Hv). pose proof (lookup_lt_Some _ _ _ Hv).
  rewrite (rd_some _ _ _ Hv). cbn [mbind res_bind].
  by rewrite (rd_some _ i false) by (apply lookup_replicate_2; lia).
Qed.

Lemma heap_deform_ok (ds : list Datum) n (values0 : list Datum) :
  length ds = n → length values0 = n →
  heap_deform_tuple (Some <$> ds) values0 (replicate n false) = Ok (ds, replicate n false).
Proof.
  intros Hl Hv. unfold heap_deform_tuple. rewrite length_fmap, Hl.
  assert (E : ensures (for_range 0 n (fun i '(values, isnull) =>
    d ← rd (Some <$> ds) i; values ← wr values i (default null_value d);
    isnull ← wr isnull i (bool_decide (d = None)); Ok (values, isnull)) (values0, replicate n false))
    (fun '(vs, ns) => vs = take n ds ++ drop n values0 ∧ ns = replicate n false)).
  { apply (ensures_for (fun i '(vs, ns) => vs = take i ds ++ drop i values0 ∧ ns = replicate n false)); [lia | done|].
    intros i [vs ns] Hi [-> ->]. destruct (lookup_lt_is_Some_2 ds i) as [x Hx]; [lia|].
    rewrite (rd_some _ i (Some x)) by (by rewrite list_lookup_fmap, Hx). cbn [mbind res_bind default].
    assert (Hlt : length (take i ds) = i) by (rewrite length_take; lia).
    apply ensures_bind, ensures_wr; [rewrite length_app, length_drop; lia|].
    apply ensures_bind, ensures_wr; [rewrite length_replicate; lia|]. split.
    - rewrite insert_app_r_alt, Hlt, Nat.sub_diag by lia.
      destruct (lookup_lt_is_Some_2 values0 i) as [y Hy]; [lia|].
      rewrite (drop_S values0 y i) by done. simpl. by rewrite (take_S_r ds i x), <- (assoc_L (++)).
    - apply list_insert_id. rewrite bool_decide_false by done. apply lookup_replicate_2. lia. }
  apply ensures_inv in E as ([vs ns] & -> & -> & ->). rewrite take_ge, drop_ge by lia. by rewrite app_nil_r.
Qed.

(** The columns marked come from [new], the others from [old]. *)
Definition pick (rep : list bool) (new old : list Datum) : list Datum :=
  zip_with (fun (x : bool) '(a, b) => if x then a else b) rep (zip new old).

Lemma heap_modify_ok (ds values : list Datum) n rep :
  length ds = n → length values = n → length rep = n →
  heap_modify_tuple (Some <$> ds) values (replicate n false) rep = Ok (Some <$> pick rep values ds).
Proof.
  intros Hd Hv Hr. unfold heap_modify_tuple. rewrite length_fmap, Hd.
  apply for_build; [unfold pick; rewrite length_fmap, length_zip_with, length_zip_with; lia|].
  intros i x acc Hx. apply list_lookup_fmap_Some in Hx as (v & -> & Hp). unfold pick in Hp.
  apply lookup_zip_with_Some in Hp as (bx & [a b] & -> & Hbx & Hz).
  apply lookup_zip_with_Some in Hz as (a' & b' & E & Ha & Hb). injection E as <- <-.
  pose proof (lookup_lt_Some _ _ _ Ha).
  rewrite (rd_some _ _ _ Hbx). cbn [mbind res_bind]. destruct bx.
  - rewrite (rd_some _ _ _ Ha). cbn [mbind res_bind].
    by rewrite (rd_some _ i false) by (apply lookup_replicate_2; lia).
  - by rewrite (rd_some _ i (Some b)) by (by rewrite list_lookup_fmap, Hb).
Qed.

(** A tuple with more columns than the arrays have cells: the write is out of
    bounds. *)
Lemma heap_deform_overflow (t : tuple) (values : list Datum) (isnull : list bool) :
  length values < length t → heap_deform_tuple t values isnull = Err Fault_bounds.
Proof.
  intros Hl. unfold heap_deform_tuple, for_range. rewrite Nat.sub_0_r.
  match goal with |- for_from _ _ ?f _ = _ => set (body := f) end.
  cut (∀ n i vs ns, i + n = length t → length vs = length values → n > 0 → i ≤ length values →
    for_from i n body (vs, ns) = Err Fault_bounds).
  { intros Hc. apply Hc; lia. }
  induction n as [|n IH]; intros i vs ns Hi Hvs Hn Hle; [lia|]. cbn [for_from]. unfold body. cbv beta iota.
  destruct (rd_lt t i) as (d & _ & ->); [lia|]. cbn [mbind res_bind].
  destruct (decide (i < length vs)) as [Hlt|Hge].
  - rewrite (wr_lt vs) by done. cbn [mbind res_bind].
    destruct (decide (i < length ns)) as [Hlt'|Hge'].
    + rewrite (wr_lt ns) by done. cbn [mbind res_bind]. apply IH; [lia | by rewrite length_insert | lia | lia].
    + assert (E : ns !! i = None) by (apply lookup_ge_None_2; lia). unfold wr. by rewrite E.
  - assert (E : vs !! i = None) by (apply lookup_ge_None_2; lia). unfold wr. by rewrite E.
Qed.

(** ** Rows by key *)
Definition find_row (st : pgstate) (r : relname) (keys : list Z) : option (nat * tuple) :=
  list_find (fun t => has_key keys t = true) (rows st r).

(** At most one row for each key. *)
Definition keys_unique (l : list tuple) (n : nat) : Prop :=
  ∀ i j t t' keys, length keys = n → l !! i = Some t → l !! j = Some t' →
    has_key keys t = true → has_key keys t' = true → i = j.

Lemma has_key_inj keys keys' t :
  length keys = length keys' → has_key keys t = true → has_key keys' t = true → keys = keys'.
Proof.
  revert keys' t. induction keys as [|k keys IH]; intros [|k' keys'] t; simpl; try done.
  intros Hl. destruct t as [|[[]|] t]; try done. rewrite !andb_true_iff, !Z.eqb_eq. intros [-> H] [-> H'].
  f_equal. apply (IH _ t); [lia | done | done].
Qed.

Lemma values_key_has n values keys :
  values_key n values = Ok keys → length keys = n ∧ has_key keys (Some <$> values) = true.
Proof.
  revert values keys. induction n as [|n IH]; intros values keys; simpl.
  - intros [= <-]. by destruct values.
  - destruct values as [|v values]; [done|]. intros E. apply res_bind_ok in E as (z & Ez & E).
    apply res_bind_ok in E as (l & El & [= <-]). destruct v; try done. injection Ez as ->.
    destruct (IH _ _ El) as [<- Hk]. simpl. by rewrite Z.eqb_refl.
Qed.

Lemma existsb_dup (l : list tuple) tid keys :
  existsb (fun '(i, t) => negb (i =? tid) && has_key keys t) (zip (seq 0 (length l)) l) = true →
  ∃ i t, i ≠ tid ∧ l !! i = Some t ∧ has_key keys t = true.
Proof.
  rewrite existsb_exists. intros ([i t] & Hin & Hp). apply andb_true_iff in Hp as [Hi Hk].
  apply list_elem_of_In, list_elem_of_lookup in Hin as (j & Hj). apply lookup_zip_with_Some in Hj as (x & y & [= -> ->] & Hx & Hy).
  apply lookup_seq in Hx as [-> _]. simpl in *. exists j, y. split_and!; [|done | done].
  intros ->. by rewrite Nat.eqb_refl in Hi.
Qed.

Lemma existsb_row (l : list tuple) tid keys i t :
  i ≠ tid → l !! i = Some t → has_key keys t = true → existsb (fun '(i, t) => negb (i =? tid) && has_key keys t) (zip (seq 0 (length l)) l) = true.
Proof.
  intros Hi Ht Hk. apply existsb_exists. exists (i, t). split.
  - apply list_elem_of_In, list_elem_of_lookup. exists i. apply lookup_zip_with_Some. exists i, t. split_and!; [done | | done].
    apply lookup_seq. split; [done|]. by eapply lookup_lt_Some.
  - rewrite Hk. by destruct (Nat.eqb_spec i tid).
Qed.

Lemma existsb_unique (l : list tuple) n tid t keys :
  keys_unique l n → length keys = n → l !! tid = Some t → has_key keys t = true →
  existsb (fun '(i, t) => negb (i =? tid) && has_key keys t) (zip (seq 0 (length l)) l) = false.
Proof.
  intros Hu Hn Ht Hk. apply not_true_iff_false. intros E. apply existsb_dup in E as (i & t' & Hi & Ht' & Hk').
  by apply Hi, (Hu i tid t' t keys).
Qed.

Lemma find_row_lookup st r keys i t :
  find_row st r keys = Some (i, t) → rows st r !! i = Some t ∧ has_key keys t = true.
Proof. unfold find_row. rewrite list_find_Some. naive_solver. Qed.

Lemma find_row_None st r keys i t :
  find_row st r keys = None → rows st r !! i = Some t → has_key keys t = false.
Proof.
  unfold find_row. rewrite list_find_None, Forall_lookup. intros Hf Ht. specialize (Hf i t Ht).
  by destruct (has_key keys t).
Qed.

Lemma rows_set_rows st r l r' : rows (set_rows st r l) r' = if decide (r' = r) then l else rows st r'.
Proof. done. Qed.

Lemma find_row_insert st r keys t :
  find_row st r keys = None → has_key keys t = true →
  find_row (set_rows st r (rows st r ++ [t])) r keys = Some (length (rows st r), t).
Proof.
  intros Hn Hk. unfold find_row. rewrite rows_set_rows, decide_True by done.
  apply list_find_Some. split_and!; [|done|].
  - rewrite lookup_app_r by lia. by rewrite Nat.sub_diag.
  - intros j y Hy Hj. rewrite lookup_app_l in Hy by done. rewrite (find_row_None _ _ _ _ _ Hn Hy). done.
Qed.

Lemma find_row_update st r keys i t t' :
  find_row st r keys = Some (i, t) → has_key keys t' = true →
  find_row (set_rows st r (<[i := t']> (rows st r))) r keys = Some (i, t').
Proof.
  intros Hf Hk. unfold find_row in *. rewrite rows_set_rows, decide_True by done.
  apply list_find_Some in Hf as (Ht & _ & Hb). pose proof (lookup_lt_Some _ _ _ Ht).
  apply list_find_Some. split_and!; [by apply list_lookup_insert_eq | done|].
  intros j y Hy Hj. rewrite list_lookup_insert_ne in Hy by lia. by apply (Hb j).
Qed.

(** Other keys do not see the change. *)
Lemma find_row_insert_ne st r keys keys' t :
  length keys = length keys' → keys ≠ keys' → has_key keys t = true →
  find_row (set_rows st r (rows st r ++ [t])) r keys' = find_row st r keys'.
Proof.
  intros Hl Hne Hk. unfold find_row. rewrite rows_set_rows, decide_True by done.
  assert (Hk' : has_key keys' t = true → False) by (intros Hk'; by apply Hne, (has_key_inj _ _ t)).
  destruct (list_find _ (rows st r)) as [[i y]|] eqn:E.
  - by apply list_find_app_l.
  - rewrite list_find_app_r by done. simpl. by rewrite decide_False.
Qed.

Lemma find_row_update_ne st r keys keys' i t t' :
  find_row st r keys = Some (i, t) → length keys = length keys' → keys ≠ keys' → has_key keys t' = true →
  find_row (set_rows st r (<[i := t']> (rows st r))) r keys' = find_row st r keys'.
Proof.
  intros Hf Hl Hne Hk. apply find_row_lookup in Hf as [Ht Hkt].
  assert (H1 : ¬ has_key keys' t' = true) by (intros Hk'; by apply Hne, (has_key_inj _ _ t')).
  assert (H2 : ¬ has_key keys' t = true) by (intros Hk'; by apply Hne, (has_key_inj _ _ t)).
  unfold find_row. rewrite rows_set_rows, decide_True by done.
  pose proof (lookup_lt_Some _ _ _ Ht). apply option_eq. intros [j y]. rewrite !list_find_Some.
  assert (Hlook : ∀ k z, has_key keys' z = true →
    <[i:=t']> (rows st r) !! k = Some z ↔ rows st r !! k = Some z).
  { intros k z Hz. destruct (decide (k = i)) as [->|Hki]; [|by rewrite list_lookup_insert_ne].
    rewrite list_lookup_insert_eq by done. split; [by intros [= <-]|]. rewrite Ht. by intros [= <-]. }
  split; intros (Hy & Hky & Hb); (split_and!; [by apply Hlook | done|]); intros k z Hz Hkj Hkz;
    apply (Hb k z); try done; by apply Hlook.
Qed.

Lemma keys_unique_insert l n keys t :
  keys_unique l n → length keys = n → has_key keys t = true →
  (∀ i t', l !! i = Some t' → has_key keys t' = false) → keys_unique (l ++ [t]) n.
Proof.
  intros Hu Hn Hk Hnone i j t1 t2 ks Hks H1 H2 K1 K2.
  assert (Hlast : ∀ i t', (l ++ [t]) !! i = Some t' → has_key ks t' = true →
    l !! i = Some t' ∨ (i = length l ∧ t' = t)).
  { intros k t' Hk' _. apply lookup_app_Some in Hk' as [?|[? Hk']]; [by left|].
    apply list_lookup_singleton_Some in Hk' as [? <-]. right. split; [lia | done]. }
  destruct (Hlast _ _ H1 K1) as [?|[-> ->]], (Hlast _ _ H2 K2) as [?|[-> ->]]; [by eapply Hu| | |done].
  - assert (ks = keys) as -> by (by apply (has_key_inj _ _ t); [congruence|..]). by erewrite Hnone in K1.
  - assert (ks = keys) as -> by (by apply (has_key_inj _ _ t); [congruence|..]). by erewrite Hnone in K2.
Qed.

Lemma keys_unique_update l n keys i t t' :
  keys_unique l n → length keys = n → l !! i = Some t → has_key keys t = true → has_key keys t' = true →
  keys_unique (<[i := t']> l) n.
Proof.
  intros Hu Hn Ht Hk Hk' a b' t1 t2 ks Hks H1 H2 K1 K2.
  assert (Hback : ∀ j y, <[i := t']> l !! j = Some y → has_key ks y = true → ∃ y', l !! j = Some y' ∧ has_key ks y' = true).
  { intros j y Hj Hy. destruct (decide (j = i)) as [->|Hne].
    - rewrite list_lookup_insert_eq in Hj by (by eapply lookup_lt_Some). injection Hj as <-.
      exists t. split; [done|]. assert (ks = keys) as -> by (by apply (has_key_inj _ _ t'); [congruence|..]). done.
    - rewrite list_lookup_insert_ne in Hj by done. eauto. }
  destruct (Hback _ _ H1 K1) as (y1 & ? & ?), (Hback _ _ H2 K2) as (y2 & ? & ?). by eapply Hu.
Qed.

(** ** What the access routines do *)
Definition row_data (st : pgstate) (r : relname) (keys : list Z) : option tuple := snd <$> find_row st r keys.

(** The row of a key is [t], and nothing else changed in the tables. *)
Record row_put (r : relname) (keys : list Z) (t : tuple) (st st' : pgstate) : Prop := {
  put_found : row_data st' r keys = Some t;
  put_other : ∀ keys', length keys' = length keys → keys' ≠ keys → row_data st' r keys' = row_data st r keys';
  put_rel : ∀ r', r' ≠ r → rows st' r' = rows st r';
  put_unique : keys_unique (rows st' r) (indnatts r);
  put_ctx : ctx st' = ctx st;
  put_deact : deactivated_queries st' = deactivated_queries st
}.

Lemma delete_last {A} (l : list A) x : delete (length l) (l ++ [x]) = l.
Proof. induction l as [|y l IH]; simpl; [done|]. by f_equal. Qed.

Section specs.
Context `{Cluster}.

Lemma open_scan_ok r keys st :
  relation_exists r = true →
  open_scan r keys st = (Ok (find_row st r keys), set_opened st (opened st + 3)).
Proof.
  intros E. unfold open_scan, heap_openrv. rewrite E.
  transitivity (Ok (A := option (nat * tuple)) (find_row st r keys), set_opened st (opened st + 1 + 1 + 1)%Z); [done|].
  do 2 f_equal. lia.
Qed.

Lemma close_scan_ok r st : close_scan r st = (Ok tt, set_opened st (opened st - 3)).
Proof.
  transitivity (Ok (A := unit) tt, set_opened st (opened st - 1 - 1 - 1)%Z); [done|]. do 2 f_equal. lia.
Qed.

Lemma index_insert_ok r values keys tid t chk st :
  values_key (indnatts r) values = Ok keys → keys_unique (rows st r) (indnatts r) →
  rows st r !! tid = Some t → has_key keys t = true →
  ∀ hot, chk = UNIQUE_CHECK_NO ∨ hot = false →
  my_index_insert r values tid hot chk st = (Ok true, st).
Proof.
  intros Hv Hu Ht Hk hot Hc. unfold my_index_insert. rewrite (pg_lift_ok _ _ _ _ Hv).
  destruct (values_key_has _ _ _ Hv) as [Hl _]. rewrite (pg_bind_ok _ _ _ false st).
  2:{ unfold pg_get. by rewrite (existsb_unique _ _ _ _ _ Hu Hl Ht Hk). }
  destruct chk; [done|]. destruct Hc as [?| ->]; done.
Qed.

Lemma try_insert_ok r t values chk keys st :
  find_row st r keys = None → keys_unique (rows st r) (indnatts r) →
  values_key (indnatts r) values = Ok keys → has_key keys t = true →
  try_insert r t values chk st = (Ok tt, set_rows st r (rows st r ++ [t])) ∧
  row_put r keys t st (set_rows st r (rows st r ++ [t])).
Proof.
  intros Hf Hu Hv Hk. destruct (values_key_has _ _ _ Hv) as [Hl _].
  assert (Hu' : keys_unique (rows st r ++ [t]) (indnatts r)).
  { apply (keys_unique_insert _ _ keys); try done. intros i t' Ht'. by eapply find_row_None. }
  assert (Hrow : rows (set_rows st r (rows st r ++ [t])) r = rows st r ++ [t]) by (by rewrite rows_set_rows, decide_True).
  split.
  - unfold try_insert, simple_heap_insert. unfold mbind at 1, PG_bind at 1. unfold pg_try.
    rewrite (pg_bind_ok _ _ _ true (set_rows st r (rows st r ++ [t]))); [done|].
    apply (index_insert_ok r values keys _ t); [done | by rewrite Hrow | | done | by right].
    rewrite Hrow. rewrite lookup_app_r by lia. by rewrite Nat.sub_diag.
  - split; try done.
    + unfold row_data. by rewrite find_row_insert.
    + intros keys' Hl' Hne. unfold row_data. by rewrite (find_row_insert_ne _ _ keys) by congruence.
    + intros r' Hr'. by rewrite rows_set_rows, decide_False.
    + by rewrite Hrow.
Qed.

Lemma try_insert_dup r t values keys i t0 st :
  rows st r !! i = Some t0 → has_key keys t0 = true → values_key (indnatts r) values = Ok keys →
  ∃ st', try_insert r t values UNIQUE_CHECK_YES st =
           (Err (Fault_elog "duplicate key value violates unique constraint"%string), st') ∧
         (∀ r', rows st' r' = rows st r') ∧ ctx st' = ctx st.
Proof.
  intros Hi Hk Hv. pose proof (lookup_lt_Some _ _ _ Hi).
  set (st1 := set_rows st r (rows st r ++ [t])).
  assert (Hdup : my_index_insert r values (length (rows st r)) false UNIQUE_CHECK_YES st1 =
    (Err (Fault_elog "duplicate key value violates unique constraint"%string), st1)).
  { unfold my_index_insert. rewrite (pg_lift_ok _ _ _ _ Hv). rewrite (pg_bind_ok _ _ _ true st1); [done|].
    unfold pg_get. f_equal. f_equal. assert (Hrow : rows st1 r = rows st r ++ [t]) by (subst st1; by rewrite rows_set_rows, decide_True).
    rewrite Hrow. apply (existsb_row _ _ _ i t0); [lia | by rewrite lookup_app_l | done]. }
  eexists. split; [|split].
  - unfold try_insert. rewrite (pg_bind_ok _ _ _ (length (rows st r)) st1) by done.
    unfold pg_try. unfold mbind at 1, PG_bind at 1. rewrite Hdup. reflexivity.
  - intros r'. subst st1. simpl. destruct (decide (r' = r)) as [->|]; [|done].
    rewrite decide_True by done. by rewrite delete_last.
  - done.
Qed.

Lemma try_update_ok r tid t0 t values chk keys st :
  find_row st r keys = Some (tid, t0) → keys_unique (rows st r) (indnatts r) →
  values_key (indnatts r) values = Ok keys → has_key keys t = true →
  heap_update_result (cid st) = HeapTupleMayBeUpdated →
  chk = UNIQUE_CHECK_NO ∨ heap_update_hot (cid st) = false →
  try_update r tid t values chk st = (Ok tt, set_rows st r (<[tid := t]> (rows st r))) ∧
  row_put r keys t st (set_rows st r (<[tid := t]> (rows st r))).
Proof.
  intros Hf Hu Hv Hk Hres Hhot. destruct (values_key_has _ _ _ Hv) as [Hl _].
  destruct (find_row_lookup _ _ _ _ _ Hf) as [Ht0 Hk0]. pose proof (lookup_lt_Some _ _ _ Ht0).
  assert (Hu' : keys_unique (<[tid := t]> (rows st r)) (indnatts r)) by (by eapply keys_unique_update).
  assert (Hrow : rows (set_rows st r (<[tid := t]> (rows st r))) r = <[tid := t]> (rows st r))
    by (by rewrite rows_set_rows, decide_True).
  split.
  - unfold try_update. rewrite (pg_bind_ok _ _ _ (heap_update_hot (cid st)) st) by done.
    rewrite (pg_bind_ok _ _ _ true (set_rows st r (<[tid := t]> (rows st r)))).
    2:{ unfold my_simple_heap_update. by rewrite Hres. }
    rewrite (pg_bind_ok _ _ _ true (set_rows st r (<[tid := t]> (rows st r)))); [done|].
    apply (index_insert_ok r values keys tid t); [done | by rewrite Hrow | | done | done].
    rewrite Hrow. by apply list_lookup_insert_eq.
  - split; try done.
    + unfold row_data. by erewrite find_row_update.
    + intros keys' Hl' Hne. unfold row_data. by erewrite find_row_update_ne.
    + intros r' Hr'. by rewrite rows_set_rows, decide_False.
    + by rewrite Hrow.
Qed.

(** A concurrent update by another session: ours is dropped. *)
Lemma try_update_lost r tid t values chk st :
  heap_update_result (cid st) = HeapTupleUpdated ∨ heap_update_result (cid st) = HeapTupleBeingUpdated →
  try_update r tid t values chk st = (Ok tt, st).
Proof.
  intros Hr. unfold try_update. rewrite (pg_bind_ok _ _ _ (heap_update_hot (cid st)) st) by done.
  rewrite (pg_bind_ok _ _ _ false st); [done|]. unfold my_simple_heap_update. by destruct Hr as [-> | ->].
Qed.

Lemma try_update_hot r tid t values keys st :
  heap_update_result (cid st) = HeapTupleMayBeUpdated → heap_update_hot (cid st) = true →
  values_key (indnatts r) values = Ok keys →
  ∃ st', try_update r tid t values UNIQUE_CHECK_YES st =
           (Err (Fault_elog "duplicate key value violates unique constraint"%string), st').
Proof.
  intros Hr Hh Hv. unfold try_update. rewrite (pg_bind_ok _ _ _ true st) by (unfold pg_get; by rewrite Hh).
  rewrite (pg_bind_ok _ _ _ true (set_rows st r (<[tid := t]> (rows st r)))).
  2:{ unfold my_simple_heap_update. by rewrite Hr. }
  unfold my_index_insert. set (st1 := set_rows _ _ _).
  unfold mbind at 1, PG_bind at 1. rewrite (pg_lift_ok _ _ _ _ Hv). unfold pg_get.
  unfold mbind at 1, PG_bind at 1. rewrite orb_true_r. by eexists.
Qed.
End specs.
