(* ===== verification/Storage.v ===== *)
(** * Storage: the operations of contrib/aqo/storage.c

    Each operation is the C function of that name in the monad [PG] of
    PgState: the arrays of values and null flags are lists of the declared
    size, so a tuple with more columns than the array has cells is a fault.
    A C array argument that a function fills in is returned beside its
    result. *)
From S2P Require Import Prelude Float64 Nodes Utils PgArray LwprModel PgState.
From stdpp Require Import strings.

Definition aqo_stat_size : nat := 20.

(** [Datum values[n];]: every cell that is read is written before. *)
Definition datums (n : nat) : list Datum := replicate n null_value.
Definition falses (n : nat) : list bool := replicate n false.

Definition mk_vector (v : list double) (n : nat) : PG Datum := a ← pg_lift (vform v n); mret (PointerGetDatum a).
Definition mk_matrix (m : list (list double)) (r c : nat) : PG Datum :=
  a ← pg_lift (mform m r c); mret (PointerGetDatum a).
Definition get_vector (d : Datum) (v : list double) : res (list double * nat) :=
  a ← DatumGetArray d; deform_vector a v.
Definition get_matrix (d : Datum) (m : list (list double)) : res (list (list double)) :=
  a ← DatumGetArray d; deform_matrix a m.

(** The tuple a null pointer would be dereferenced for. *)
Definition tuple_ptr {A} (t : option A) : PG A :=
  match t with Some x => mret x | None => pg_throw Fault_bounds end.

Section storage.
Context `{Cluster}.

(** ** aqo_queries *)
Definition find_query (qh : Z) (search_values : list Datum) (search_nulls : list bool)
  : PG (bool * (list Datum * list bool)) :=
  valid ← RelnameGetRelid aqo_queries;
  if negb valid then disable_aqo_for_query;; mret (false, (search_values, search_nulls))
  else
    t ← open_scan aqo_queries [qh];
    out ← match t with
          | Some (_, t) => pg_lift (heap_deform_tuple t search_values search_nulls)
          | None => mret (search_values, search_nulls)
          end;
    close_scan aqo_queries;;
    mret (bool_decide (is_Some t), out).

Definition add_query (qh : Z) (learn use : bool) (fspace : Z) (tuning : bool) (query_history : list double)
    (num_history total_num : Z) (current_query : list double) (num_feature : Z) : PG bool :=
  hist ← mk_vector query_history num_history_data_compute_probability_fs;
  cur ← mk_vector current_query 2;
  let values := [Int32GetDatum qh; BoolGetDatum learn; BoolGetDatum use; Int32GetDatum fspace;
                 BoolGetDatum tuning; hist; Int32GetDatum num_history; Int32GetDatum total_num;
                 cur; Int32GetDatum num_feature] in
  let nulls := falses 10 in
  valid ← RelnameGetRelid aqo_queries;
  if negb valid then disable_aqo_for_query;; mret false
  else
    index_open aqo_queries;;
    heap_openrv aqo_queries;;
    t ← pg_lift (heap_form_tuple (natts aqo_queries) values nulls);
    try_insert aqo_queries t values UNIQUE_CHECK_YES;;
    index_close aqo_queries;;
    heap_close aqo_queries;;
    CommandCounterIncrement;;
    mret true.

Definition update_query (qh : Z) (learn use : bool) (fspace : Z) (tuning : bool) : PG bool :=
  let replace := [false; true; true; true; true] in
  valid ← RelnameGetRelid aqo_queries;
  if negb valid then disable_aqo_for_query;; mret false
  else
    found ← open_scan aqo_queries [qh];
    '(tid, t) ← tuple_ptr found;
    '(values, isnull) ← pg_lift (heap_deform_tuple t (datums 5) (falses 5));
    values ← pg_lift (wr values 1 (BoolGetDatum learn));
    values ← pg_lift (wr values 2 (BoolGetDatum use));
    values ← pg_lift (wr values 3 (Int32GetDatum fspace));
    values ← pg_lift (wr values 4 (BoolGetDatum tuning));
    nw ← pg_lift (heap_modify_tuple t values isnull replace);
    try_update aqo_queries tid nw values UNIQUE_CHECK_YES;;
    close_scan aqo_queries;;
    CommandCounterIncrement;;
    mret true.

Definition update_query2 (qh : Z) (learn use : bool) (fspace : Z) (tuning : bool)
    (query_history : list double) (num_history total_num : Z) : PG bool :=
  let replace := [false; true; true; true; true; true; true; true; false; false] in
  valid ← RelnameGetRelid aqo_queries;
  if negb valid then disable_aqo_for_query;; mret false
  else
    found ← open_scan aqo_queries [qh];
    '(tid, t) ← tuple_ptr found;
    '(values, isnull) ← pg_lift (heap_deform_tuple t (datums 10) (falses 10));
    values ← pg_lift (wr values 1 (BoolGetDatum learn));
    values ← pg_lift (wr values 2 (BoolGetDatum use));
    values ← pg_lift (wr values 3 (Int32GetDatum fspace));
    values ← pg_lift (wr values 4 (BoolGetDatum tuning));
    hist ← mk_vector query_history num_history_data_compute_probability_fs;
    values ← pg_lift (wr values 5 hist);
    values ← pg_lift (wr values 6 (Int32GetDatum num_history));
    values ← pg_lift (wr values 7 (Int32GetDatum total_num));
    nw ← pg_lift (heap_modify_tuple t values isnull replace);
    try_update aqo_queries tid nw values UNIQUE_CHECK_YES;;
    close_scan aqo_queries;;
    CommandCounterIncrement;;
    mret true.

Definition add_query_text (qh : Z) (query_text : cstring) : PG bool :=
  let values := [Int32GetDatum qh; CStringGetTextDatum query_text] in
  valid ← RelnameGetRelid aqo_query_texts;
  if negb valid then disable_aqo_for_query;; mret false
  else
    index_open aqo_query_texts;;
    heap_openrv aqo_query_texts;;
    t ← pg_lift (heap_form_tuple (natts aqo_query_texts) values (falses 2));
    try_insert aqo_query_texts t values UNIQUE_CHECK_YES;;
    index_close aqo_query_texts;;
    heap_close aqo_query_texts;;
    CommandCounterIncrement;;
    mret true.

(** ** Feature subspaces: aqo_data *)

(** Returns success, the matrix, the targets and the number of rows; the
    number of rows is only set on success. *)
Definition load_fss (fss ncols : Z) (matrix : list (list double)) (targets : list double)
  : PG (bool * (list (list double) * list double * option nat)) :=
  valid ← RelnameGetRelid aqo_data;
  if negb valid then disable_aqo_for_query;; mret (false, (matrix, targets, None))
  else
    fspace ← pg_get (fun st => fspace_hash (ctx st));
    found ← open_scan aqo_data [fspace; fss];
    out ← match found with
          | Some (_, t) => pg_lift (
              '(values, _) ← heap_deform_tuple t (datums 5) (falses 5);
              n ← (d ← rd values 2; DatumGetInt32 d);
              if (n =? ncols)%Z then
                matrix ← (d ← rd values 3; get_matrix d matrix);
                '(targets, n) ← (d ← rd values 4; get_vector d targets);
                Ok (true, (matrix, targets, Some n))
              else Ok (false, (matrix, targets, None)))
          | None => mret (false, (matrix, targets, None))
          end;
    close_scan aqo_data;;
    mret out.

Definition update_fss (fss : Z) (nrows ncols : nat) (matrix : list (list double)) (targets : list double)
  : PG bool :=
  let replace := [false; false; false; true; true] in
  valid ← RelnameGetRelid aqo_data;
  if negb valid then disable_aqo_for_query;; mret false
  else
    fspace ← pg_get (fun st => fspace_hash (ctx st));
    found ← open_scan aqo_data [fspace; fss];
    match found with
    | None =>
        m ← mk_matrix matrix nrows ncols;
        v ← mk_vector targets nrows;
        let values := [Int32GetDatum fspace; Int32GetDatum fss; Int32GetDatum (Z.of_nat ncols); m; v] in
        t ← pg_lift (heap_form_tuple (natts aqo_data) values (falses 5));
        try_insert aqo_data t values UNIQUE_CHECK_YES
    | Some (tid, t) =>
        '(values, isnull) ← pg_lift (heap_deform_tuple t (datums 5) (falses 5));
        m ← mk_matrix matrix nrows ncols;
        values ← pg_lift (wr values 3 m);
        v ← mk_vector targets nrows;
        values ← pg_lift (wr values 4 v);
        nw ← pg_lift (heap_modify_tuple t values isnull replace);
        try_update aqo_data tid nw values UNIQUE_CHECK_YES
    end;;
    close_scan aqo_data;;
    CommandCounterIncrement;;
    mret true.

(** ** The data houses of the receptive fields *)
Definition load_rf_datahouse (fss rf_hash : Z) (matrix : list (list double)) (targets : list double)
  : PG (bool * (list (list double) * list double * option nat)) :=
  valid ← RelnameGetRelid aqo_data_house_lwpr;
  if negb valid then disable_aqo_for_query;; mret (false, (matrix, targets, None))
  else
    fspace ← pg_get (fun st => fspace_hash (ctx st));
    found ← open_scan aqo_data_house_lwpr [fspace; fss; rf_hash];
    out ← match found with
          | Some (_, t) => pg_lift (
              '(values, _) ← heap_deform_tuple t (datums 5) (falses 5);
              matrix ← (d ← rd values 3; get_matrix d matrix);
              '(targets, n) ← (d ← rd values 4; get_vector d targets);
              Ok (true, (matrix, targets, Some n)))
          | None => mret (false, (matrix, targets, None))
          end;
    close_scan aqo_data_house_lwpr;;
    mret out.

Definition update_rf_datahouse (fss rf_hash : Z) (ncols nrows : nat) (matrix : list (list double))
    (targets : list double) : PG bool :=
  let replace := [false; false; false; true; true] in
  valid ← RelnameGetRelid aqo_data_house_lwpr;
  if negb valid then disable_aqo_for_query;; mret false
  else
    fspace ← pg_get (fun st => fspace_hash (ctx st));
    found ← open_scan aqo_data_house_lwpr [fspace; fss; rf_hash];
    match found with
    | None =>
        m ← mk_matrix matrix nrows ncols;
        v ← mk_vector targets nrows;
        let values := [Int32GetDatum fspace; Int32GetDatum fss; Int32GetDatum rf_hash; m; v] in
        t ← pg_lift (heap_form_tuple (natts aqo_data_house_lwpr) values (falses 5));
        try_insert aqo_data_house_lwpr t values UNIQUE_CHECK_YES
    | Some (tid, t) =>
        '(values, isnull) ← pg_lift (heap_deform_tuple t (datums 5) (falses 5));
        m ← mk_matrix matrix nrows ncols;
        values ← pg_lift (wr values 3 m);
        v ← mk_vector targets nrows;
        values ← pg_lift (wr values 4 v);
        nw ← pg_lift (heap_modify_tuple t values isnull replace);
        try_update aqo_data_house_lwpr tid nw values UNIQUE_CHECK_YES
    end;;
    close_scan aqo_data_house_lwpr;;
    CommandCounterIncrement;;
    mret true.

(** ** The best two costs of a query pattern *)
Definition load_best_two_costs (query_pattern : Z) (matrix : list (list double)) (est_cost true_cost : list double)
    (nfeatures : Z) : PG (bool * (list (list double) * list double * list double * option nat)) :=
  valid ← RelnameGetRelid aqo_best_two_costs_table;
  if negb valid then disable_aqo_for_query;; mret (false, (matrix, est_cost, true_cost, None))
  else
    found ← open_scan aqo_best_two_costs_table [query_pattern];
    out ← match found with
          | Some (_, t) => pg_lift (
              '(values, _) ← heap_deform_tuple t (datums 5) (falses 5);
              n ← (d ← rd values 1; DatumGetInt32 d);
              if (n =? nfeatures)%Z then
                matrix ← (d ← rd values 2; get_matrix d matrix);
                '(est_cost, _) ← (d ← rd values 3; get_vector d est_cost);
                '(true_cost, n) ← (d ← rd values 4; get_vector d true_cost);
                Ok (true, (matrix, est_cost, true_cost, Some n))
              else Ok (false, (matrix, est_cost, true_cost, None)))
          | None => mret (false, (matrix, est_cost, true_cost, None))
          end;
    close_scan aqo_best_two_costs_table;;
    mret out.

Definition update_best_two_costs (query_pattern : Z) (ncols nrows : nat) (matrix : list (list double))
    (est_cost true_cost : list double) : PG bool :=
  let replace := [false; false; true; true; true] in
  valid ← RelnameGetRelid aqo_best_two_costs_table;
  if negb valid then disable_aqo_for_query;; mret false
  else
    found ← open_scan aqo_best_two_costs_table [query_pattern];
    match found with
    | None =>
        m ← mk_matrix matrix nrows ncols;
        e ← mk_vector est_cost nrows;
        t ← mk_vector true_cost nrows;
        let values := [Int32GetDatum query_pattern; Int32GetDatum (Z.of_nat ncols); m; e; t] in
        t ← pg_lift (heap_form_tuple (natts aqo_best_two_costs_table) values (falses 5));
        try_insert aqo_best_two_costs_table t values UNIQUE_CHECK_YES
    | Some (tid, t) =>
        '(values, isnull) ← pg_lift (heap_deform_tuple t (datums 5) (falses 5));
        m ← mk_matrix matrix nrows ncols;
        values ← pg_lift (wr values 2 m);
        e ← mk_vector est_cost nrows;
        values ← pg_lift (wr values 3 e);
        v ← mk_vector true_cost nrows;
        values ← pg_lift (wr values 4 v);
        nw ← pg_lift (heap_modify_tuple t values isnull replace);
        try_update aqo_best_two_costs_table tid nw values UNIQUE_CHECK_YES
    end;;
    close_scan aqo_best_two_costs_table;;
    CommandCounterIncrement;;
    mret true.

(** ** The distribution of the next query *)
Definition set_query_distribution (l : list double) : PG unit :=
  pg_modify (fun st => set_ctx st (set_distribution (ctx st) l)).

Definition uniform_distribution : list double :=
  replicate num_query_pattern (d_of_Z 1 / d_of_Z (Z.of_nat num_query_pattern))%D.

(** The scan key is the feature space of the query context: the parameter
    [query_history_hash] is not used. *)
Definition load_query_distribution (num_history_data : nat) (query_history_hash : Z) : PG bool :=
  if num_history_data <? num_history_data_compute_probability_fs then
    set_query_distribution uniform_distribution;; mret true
  else
    valid ← RelnameGetRelid aqo_markov_table;
    if negb valid then disable_aqo_for_query;; mret false
    else
      fspace ← pg_get (fun st => fspace_hash (ctx st));
      found ← open_scan aqo_markov_table [fspace];
      success ← match found with
                | Some (_, t) =>
                    '(values, _) ← pg_lift (heap_deform_tuple t (datums 3) (falses 3));
                    '(dist, _) ← pg_lift (d ← rd values 1; get_vector d (palloc0 num_query_pattern));
                    set_query_distribution dist;; mret true
                | None => set_query_distribution uniform_distribution;; mret false
                end;
      close_scan aqo_markov_table;;
      mret success.

Definition load_query_distribution2 (qh : Z) : PG bool :=
  dist ← pg_lift (wrz (palloc0 num_query_pattern) (qh - 1) (d_of_Z 1));
  set_query_distribution dist;;
  mret true.

(** ** Query statistics *)
Definition load_series (values : list Datum) (i : nat) : res (list double) :=
  '(v, n) ← (d ← rd values i; get_vector d (palloc0 aqo_stat_size));
  Ok (take n v).

(** [None] is the null pointer. *)
Definition get_aqo_stat (qh : Z) : PG (option QueryStat) :=
  valid ← RelnameGetRelid aqo_query_stat;
  if negb valid then disable_aqo_for_query;; mret None
  else
    found ← open_scan aqo_query_stat [qh];
    stat ← match found with
           | Some (_, t) => pg_lift (
               '(values, _) ← heap_deform_tuple t (datums 9) (falses 9);
               ew ← load_series values 1;
               eo ← load_series values 2;
               pw ← load_series values 3;
               po ← load_series values 4;
               cw ← load_series values 5;
               co ← load_series values 6;
               nw ← (d ← rd values 7; DatumGetInt64 d);
               no ← (d ← rd values 8; DatumGetInt64 d);
               Ok (mkQueryStat ew eo pw po cw co nw no))
           | None => mret palloc_query_stat
           end;
    close_scan aqo_query_stat;;
    mret (Some stat).

Definition store_series (v : list double) : PG Datum := mk_vector v (length v).

Definition update_aqo_stat (qh : Z) (stat : QueryStat) : PG unit :=
  let replace := false :: replicate 8 true in
  valid ← RelnameGetRelid aqo_query_stat;
  if negb valid then disable_aqo_for_query
  else
    found ← open_scan aqo_query_stat [qh];
    '(key, null0) ← match found with
                   | None => mret (Int32GetDatum qh, false)
                   | Some (_, t) => k ← pg_lift (rd t 0); mret (default null_value k, bool_decide (k = None))
                   end;
    ew ← store_series (execution_time_with_aqo stat);
    eo ← store_series (execution_time_without_aqo stat);
    pw ← store_series (planning_time_with_aqo stat);
    po ← store_series (planning_time_without_aqo stat);
    cw ← store_series (cardinality_error_with_aqo stat);
    co ← store_series (cardinality_error_without_aqo stat);
    let values := [key; ew; eo; pw; po; cw; co; Int64GetDatum (executions_with_aqo stat);
                   Int64GetDatum (executions_without_aqo stat)] in
    let isnull := null0 :: falses 8 in
    match found with
    | None =>
        t ← pg_lift (heap_form_tuple (natts aqo_query_stat) values isnull);
        try_insert aqo_query_stat t values UNIQUE_CHECK_YES
    | Some (tid, t) =>
        nw ← pg_lift (heap_modify_tuple t values isnull replace);
        try_update aqo_query_stat tid nw values UNIQUE_CHECK_YES
    end;;
    close_scan aqo_query_stat;;
    CommandCounterIncrement.

(** ** Deactivated queries *)
Definition init_deactivated_queries_storage : PG unit := pg_modify (fun st => set_deactivated st (Some ∅)).
Definition fini_deactivated_queries_storage : PG unit := pg_modify (fun st => set_deactivated st None).

(** The hash table, which must have been created. *)
Definition deactivated_table : PG (gset Z) :=
  d ← pg_get deactivated_queries;
  match d with Some tbl => mret tbl | None => pg_throw Fault_bounds end.

Definition query_is_deactivated (qh : Z) : PG bool := s ← deactivated_table; mret (bool_decide (qh ∈ s)).
Definition add_deactivated_query (qh : Z) : PG unit :=
  s ← deactivated_table; pg_modify (fun st => set_deactivated st (Some ({[qh]} ∪ s))).
End storage.

(** ** Well-formed tables and writes *)

(** Every tuple has all its columns, none of them null. *)
Definition table_ok (st : pgstate) (r : relname) : Prop :=
  keys_unique (rows st r) (indnatts r) ∧
  ∀ i t, rows st r !! i = Some t → ∃ ds, t = Some <$> ds ∧ length ds = natts r.

Lemma table_ok_rows st st' r : rows st' r = rows st r → table_ok st r → table_ok st' r.
Proof. unfold table_ok. by intros ->. Qed.

Lemma row_data_rows st st' r keys : rows st' r = rows st r → row_data st' r keys = row_data st r keys.
Proof. unfold row_data, find_row. by intros ->. Qed.

(** The index and the relation are there. *)
Definition available `{Cluster} (r : relname) : Prop := OidIsValid r = true ∧ relation_exists r = true.

(** A write goes through: there is no row yet, or the update of the row is
    neither lost to another session nor heap-only under a uniqueness check. *)
Definition write_ok `{Cluster} (st : pgstate) (r : relname) (keys : list Z) (chk : IndexUniqueCheck) : Prop :=
  find_row st r keys = None ∨
  (heap_update_result (cid st) = HeapTupleMayBeUpdated ∧
   (chk = UNIQUE_CHECK_NO ∨ heap_update_hot (cid st) = false)).

(** The outcome of an operation that writes one row and closes its scan. *)
Definition wrote (r : relname) (keys : list Z) (ds : list Datum) (st st' : pgstate) : Prop :=
  row_put r keys (Some <$> ds) st st' ∧ table_ok st' r ∧ opened st' = opened st ∧ cid st' = S (cid st).

Lemma has_key_take keys ds :
  has_key keys (Some <$> ds) = true → take (length keys) ds = Int32GetDatum <$> keys.
Proof.
  revert ds. induction keys as [|k keys IH]; intros [|[] ds]; simpl; try done.
  rewrite andb_true_iff, Z.eqb_eq. intros [-> Hk]. f_equal. by apply IH.
Qed.

Lemma values_key_ints keys (l : list Datum) : values_key (length keys) ((Int32GetDatum <$> keys) ++ l) = Ok keys.
Proof. induction keys as [|k keys IH]; [done|]. cbn. cbn in IH. by rewrite IH. Qed.

Lemma has_key_ints keys l : has_key keys (Some <$> ((Int32GetDatum <$> keys) ++ l)) = true.
Proof. induction keys as [|k keys IH]; simpl; [done|]. by rewrite Z.eqb_refl. Qed.

Section upsert.
Context `{Cluster}.

(** The common shape of the writing operations: a new row of the values, or
    the old row with the columns after the first [k] replaced. *)
Definition upsert (r : relname) (found : option (nat * tuple)) (k : nat) (values cols : list Datum)
    (chk : IndexUniqueCheck) : PG unit :=
  match found with
  | None =>
      t ← pg_lift (heap_form_tuple (natts r) values (falses (natts r)));
      try_insert r t values chk
  | Some (tid, t) =>
      '(vs, isnull) ← pg_lift (heap_deform_tuple t (datums (natts r)) (falses (natts r)));
      let vs := take k vs ++ cols in
      nw ← pg_lift (heap_modify_tuple t vs isnull (falses k ++ replicate (natts r - k) true));
      try_update r tid nw vs chk
  end.

Lemma pick_tail k (cols ds : list Datum) :
  length ds = k + length cols →
  pick (falses k ++ replicate (length cols) true) (take k ds ++ cols) ds = take k ds ++ cols.
Proof.
  intros Hl. unfold pick, falses.
  assert (H1 : length (take k ds) = k) by (rewrite length_take; lia).
  assert (H2 : length (drop k ds) = length cols) by (rewrite length_drop; lia).
  rewrite <- (take_drop k ds) at 2. rewrite zip_with_app by lia.
  rewrite zip_with_app by (rewrite length_replicate, length_zip_with; lia). f_equal.
  - clear H2. revert H1. generalize (take k ds). clear. intros l <-.
    induction l; simpl; f_equal; done.
  - clear H1. revert H2. generalize (drop k ds). clear. induction cols; intros [|]; simpl; try done.
    intros [=]. f_equal. eauto.
Qed.

Lemma upsert_ok r keys extra cols k chk st :
  table_ok st r → length keys = indnatts r → k = length keys + length extra →
  natts r = k + length cols →
  (∀ tid ds, find_row st r keys = Some (tid, Some <$> ds) → take (length extra) (drop (length keys) ds) = extra) →
  write_ok st r keys chk →
  ∃ st', upsert r (find_row st r keys) k ((Int32GetDatum <$> keys) ++ extra ++ cols) cols chk st = (Ok tt, st') ∧
    row_put r keys (Some <$> ((Int32GetDatum <$> keys) ++ extra ++ cols)) st st' ∧ table_ok st' r ∧
    opened st' = opened st ∧ cid st' = cid st.
Proof.
  intros [Hu Hrows] Hlk Hk Hn Hextra Hw. set (ds := (Int32GetDatum <$> keys) ++ extra ++ cols).
  assert (Hlds : length ds = natts r) by (subst ds; rewrite !length_app, length_fmap; lia).
  assert (Hkey : values_key (indnatts r) ds = Ok keys) by (rewrite <- Hlk; apply values_key_ints).
  assert (Hhas : has_key keys (Some <$> ds) = true) by apply has_key_ints.
  unfold upsert. destruct (find_row st r keys) as [[tid t]|] eqn:Ef.
  - destruct Hw as [Hw|[Hres Hhot]]; [by rewrite Ef in Hw|].
    destruct (find_row_lookup _ _ _ _ _ Ef) as [Ht Hkt]. destruct (Hrows _ _ Ht) as (old & -> & Hlo).
    rewrite (pg_lift_ok _ _ _ (old, falses (natts r))) by (apply heap_deform_ok; [done | apply length_replicate]).
    assert (Etake : take k old ++ cols = ds).
    { subst ds. rewrite (assoc_L (++)). f_equal. subst k.
      rewrite <- (take_drop (length keys) old) at 1.
      pose proof (has_key_take _ _ Hkt) as Htk. rewrite Htk.
      rewrite take_app, length_fmap, take_ge by (rewrite length_fmap; lia).
      replace (length keys + length extra - length keys) with (length extra) by lia.
      by rewrite (Hextra _ _ eq_refl). }
    cbv zeta. rewrite Etake.
    rewrite (pg_lift_ok _ _ _ (Some <$> ds)).
    2:{ change (falses (natts r)) with (replicate (natts r) false). rewrite heap_modify_ok; [|done|done|unfold falses; rewrite length_app, !length_replicate; lia].
        do 2 f_equal. replace (natts r - k) with (length cols) by lia. rewrite <- Etake at 1.
        rewrite pick_tail by lia. done. }
    destruct (try_update_ok r tid (Some <$> old) (Some <$> ds) ds chk keys st) as [E Hput]; try done.
    eexists. split; [exact E|]. split_and!; try done. split; [apply (put_unique _ _ _ _ _ Hput)|].
    intros i t. rewrite rows_set_rows, decide_True by done. intros Hi.
    apply list_lookup_insert_Some in Hi as [(-> & <- & _)|(_ & Hi)]; [by exists ds | by eapply Hrows].
  - rewrite (pg_lift_ok _ _ _ (Some <$> ds)) by (by apply heap_form_ok).
    destruct (try_insert_ok r (Some <$> ds) ds chk keys st) as [E Hput]; try done.
    eexists. split; [exact E|]. split_and!; try done. split; [apply (put_unique _ _ _ _ _ Hput)|].
    intros i t. rewrite rows_set_rows, decide_True by done. intros Hi.
    apply lookup_app_Some in Hi as [Hi|[_ Hi]]; [by eapply Hrows|].
    apply list_lookup_singleton_Some in Hi as [_ <-]. by exists ds.
Qed.
End upsert.

(** ** The operations as writes and reads of one row *)

(** The common prologue: the index is there, and the scan finds the row. *)
Ltac pg_prologue Hv Hr :=
  unfold RelnameGetRelid; rewrite Hv, pg_ret_bind; cbn [negb]; rewrite ?pg_get_bind;
  rewrite (pg_bind_ok _ _ _ _ _ (open_scan_ok _ _ _ Hr)).

Section ops.
Context `{Cluster}.

Lemma write_finish r (body : PG unit) keys ds st (st1 : pgstate) :
  body (set_opened st (opened st + 3)) = (Ok tt, st1) →
  row_put r keys (Some <$> ds) (set_opened st (opened st + 3)) st1 → table_ok st1 r →
  opened st1 = (opened st + 3)%Z → cid st1 = cid st →
  ∃ st', (body;; close_scan r;; CommandCounterIncrement;; mret true) (set_opened st (opened st + 3)) = (Ok true, st') ∧
    wrote r keys ds st st'.
Proof.
  intros Hb Hput Ht Ho Hc. rewrite (pg_bind_ok _ _ _ _ _ Hb), (pg_bind_ok _ _ _ _ _ (close_scan_ok r st1)).
  eexists. split; [reflexivity|]. split_and!; [|done | simpl; lia | simpl; by rewrite Hc].
  destruct Hput. by split.
Qed.

Lemma write_finish_void r (body : PG unit) keys ds st (st1 : pgstate) :
  body (set_opened st (opened st + 3)) = (Ok tt, st1) →
  row_put r keys (Some <$> ds) (set_opened st (opened st + 3)) st1 → table_ok st1 r →
  opened st1 = (opened st + 3)%Z → cid st1 = cid st →
  ∃ st', (body;; close_scan r;; CommandCounterIncrement) (set_opened st (opened st + 3)) = (Ok tt, st') ∧
    wrote r keys ds st st'.
Proof.
  intros Hb Hput Ht Ho Hc. rewrite (pg_bind_ok _ _ _ _ _ Hb), (pg_bind_ok _ _ _ _ _ (close_scan_ok r st1)).
  eexists. split; [reflexivity|]. split_and!; [|done | simpl; lia | simpl; by rewrite Hc].
  destruct Hput. by split.
Qed.

Lemma five_columns st r tid t :
  table_ok st r → natts r = 5 → rows st r !! tid = Some t →
  ∃ a b c d e, t = Some <$> [a; b; c; d; e].
Proof.
  intros [_ Hrows] Hn Ht. destruct (Hrows _ _ Ht) as (ds & -> & Hl). rewrite Hn in Hl.
  do 5 (destruct ds as [|? ds]; [done|]). destruct ds; [|done]. eauto 6.
Qed.

Lemma update_rf_datahouse_ok fss rfh ncols nrows m t am av st :
  let keys := [fspace_hash (ctx st); fss; rfh] in
  available aqo_data_house_lwpr → mform m nrows ncols = Ok am → vform t nrows = Ok av →
  table_ok st aqo_data_house_lwpr → write_ok st aqo_data_house_lwpr keys UNIQUE_CHECK_YES →
  ∃ st', update_rf_datahouse fss rfh ncols nrows m t st = (Ok true, st') ∧
    wrote aqo_data_house_lwpr keys ((Int32GetDatum <$> keys) ++ [PointerGetDatum am; PointerGetDatum av]) st st'.
Proof.
  intros keys [Hv Hr] Em Ev Ht Hw. unfold update_rf_datahouse. pg_prologue Hv Hr. fold keys.
  set (st1 := set_opened st (opened st + 3)).
  destruct (upsert_ok aqo_data_house_lwpr keys [] [PointerGetDatum am; PointerGetDatum av] 3 UNIQUE_CHECK_YES st1)
    as (st2 & E & Hput & Ht2 & Ho & Hc); try done.
  eapply write_finish; [|exact Hput | done | done | done]. rewrite <- E. clear E.
  change (find_row st1) with (find_row st). destruct (find_row st aqo_data_house_lwpr keys) as [[tid t0]|] eqn:Ef.
  - apply find_row_lookup in Ef as [Ef _]. destruct (five_columns _ _ _ _ Ht eq_refl Ef) as (x1 & x2 & x3 & x4 & x5 & ->).
    unfold upsert, mk_matrix, mk_vector. rewrite Em, Ev. reflexivity.
  - unfold upsert, mk_matrix, mk_vector. rewrite Em, Ev. reflexivity.
Qed.

Lemma update_fss_ok fss ncols nrows m t am av st :
  let keys := [fspace_hash (ctx st); fss] in
  available aqo_data → mform m nrows ncols = Ok am → vform t nrows = Ok av →
  table_ok st aqo_data → write_ok st aqo_data keys UNIQUE_CHECK_YES →
  (∀ t0, row_data st aqo_data keys = Some t0 → t0 !! 2 = Some (Some (Int32GetDatum (Z.of_nat ncols)))) →
  ∃ st', update_fss fss nrows ncols m t st = (Ok true, st') ∧
    wrote aqo_data keys ((Int32GetDatum <$> keys) ++ [Int32GetDatum (Z.of_nat ncols)] ++
                         [PointerGetDatum am; PointerGetDatum av]) st st'.
Proof.
  intros keys [Hv Hr] Em Ev Ht Hw Hcol. unfold update_fss. pg_prologue Hv Hr. fold keys.
  set (st1 := set_opened st (opened st + 3)).
  destruct (upsert_ok aqo_data keys [Int32GetDatum (Z.of_nat ncols)]
              [PointerGetDatum am; PointerGetDatum av] 3 UNIQUE_CHECK_YES st1)
    as (st2 & E & Hput & Ht2 & Ho & Hc); try done.
  { intros tid ds Hf. specialize (Hcol (Some <$> ds)). change (find_row st1) with (find_row st) in Hf.
    unfold row_data in Hcol. rewrite Hf in Hcol. specialize (Hcol eq_refl).
    destruct ds as [|? [|? [|x ds]]]; try done. simpl in Hcol. by injection Hcol as ->. }
  eapply write_finish; [|exact Hput | done | done | done]. rewrite <- E. clear E.
  change (find_row st1) with (find_row st). destruct (find_row st aqo_data keys) as [[tid t0]|] eqn:Ef.
  - apply find_row_lookup in Ef as [Ef _]. destruct (five_columns _ _ _ _ Ht eq_refl Ef) as (x1 & x2 & x3 & x4 & x5 & ->).
    unfold upsert, mk_matrix, mk_vector. rewrite Em, Ev. reflexivity.
  - unfold upsert, mk_matrix, mk_vector. rewrite Em, Ev. reflexivity.
Qed.

Lemma update_best_two_costs_ok pat ncols nrows m e t am ae av st :
  let keys := [pat] in
  available aqo_best_two_costs_table → mform m nrows ncols = Ok am → vform e nrows = Ok ae → vform t nrows = Ok av →
  table_ok st aqo_best_two_costs_table → write_ok st aqo_best_two_costs_table keys UNIQUE_CHECK_YES →
  (∀ t0, row_data st aqo_best_two_costs_table keys = Some t0 → t0 !! 1 = Some (Some (Int32GetDatum (Z.of_nat ncols)))) →
  ∃ st', update_best_two_costs pat ncols nrows m e t st = (Ok true, st') ∧
    wrote aqo_best_two_costs_table keys ((Int32GetDatum <$> keys) ++ [Int32GetDatum (Z.of_nat ncols)] ++
                         [PointerGetDatum am; PointerGetDatum ae; PointerGetDatum av]) st st'.
Proof.
  intros keys [Hv Hr] Em Ee Ev Ht Hw Hcol. unfold update_best_two_costs. pg_prologue Hv Hr. fold keys.
  set (st1 := set_opened st (opened st + 3)).
  destruct (upsert_ok aqo_best_two_costs_table keys [Int32GetDatum (Z.of_nat ncols)]
              [PointerGetDatum am; PointerGetDatum ae; PointerGetDatum av] 2 UNIQUE_CHECK_YES st1)
    as (st2 & E & Hput & Ht2 & Ho & Hc); try done.
  { intros tid ds Hf. specialize (Hcol (Some <$> ds)). change (find_row st1) with (find_row st) in Hf.
    unfold row_data in Hcol. rewrite Hf in Hcol. specialize (Hcol eq_refl).
    destruct ds as [|? [|x ds]]; try done. simpl in Hcol. by injection Hcol as ->. }
  eapply write_finish; [|exact Hput | done | done | done]. rewrite <- E. clear E.
  change (find_row st1) with (find_row st). destruct (find_row st aqo_best_two_costs_table keys) as [[tid t0]|] eqn:Ef.
  - apply find_row_lookup in Ef as [Ef _]. destruct (five_columns _ _ _ _ Ht eq_refl Ef) as (x1 & x2 & x3 & x4 & x5 & ->).
    unfold upsert, mk_matrix, mk_vector. rewrite Em, Ee, Ev. reflexivity.
  - unfold upsert, mk_matrix, mk_vector. rewrite Em, Ee, Ev. reflexivity.
Qed.
End ops.

(** ** Reading back *)
Section reading.
Context `{Cluster}.

Lemma set_opened_back st k : set_opened (set_opened st (opened st + k)) (opened (set_opened st (opened st + k)) - k) = st.
Proof. destruct st. unfold set_opened. simpl. f_equal. lia. Qed.

(** A read of one row leaves the state as it was. *)
Lemma read_finish {A} r (body : PG A) (a : A) st :
  body (set_opened st (opened st + 3)) = (Ok a, set_opened st (opened st + 3)) →
  (x ← body; close_scan r;; mret x) (set_opened st (opened st + 3)) = (Ok a, st).
Proof.
  intros Hb. rewrite (pg_bind_ok _ _ _ _ _ Hb), (pg_bind_ok _ _ _ _ _ (close_scan_ok r _)).
  by rewrite set_opened_back.
Qed.

Lemma row_data_found st r keys t : row_data st r keys = Some t → ∃ i, find_row st r keys = Some (i, t).
Proof. unfold row_data. destruct (find_row st r keys) as [[i t']|]; naive_solver. Qed.

Lemma load_rf_datahouse_ok fss rfh m t m' t' n x1 x2 x3 am av st :
  available aqo_data_house_lwpr →
  row_data st aqo_data_house_lwpr [fspace_hash (ctx st); fss; rfh] =
    Some (Some <$> [x1; x2; x3; PointerGetDatum am; PointerGetDatum av]) →
  deform_matrix am m = Ok m' → deform_vector av t = Ok (t', n) →
  load_rf_datahouse fss rfh m t st = (Ok (true, (m', t', Some n)), st).
Proof.
  intros [Hv Hr] Hrow Em Ev. unfold load_rf_datahouse. pg_prologue Hv Hr.
  apply row_data_found in Hrow as (i & ->). apply (read_finish aqo_data_house_lwpr). unfold pg_lift. f_equal.
  rewrite (heap_deform_ok _ 5 (datums 5)) by done. cbn [mbind res_bind rd lookup list_lookup get_matrix get_vector DatumGetArray].
  rewrite Em. cbn [mbind res_bind]. by rewrite Ev.
Qed.

Lemma load_fss_ok fss ncols m t m' t' n x1 x2 am av st :
  available aqo_data →
  row_data st aqo_data [fspace_hash (ctx st); fss] =
    Some (Some <$> [x1; x2; Int32GetDatum ncols; PointerGetDatum am; PointerGetDatum av]) →
  deform_matrix am m = Ok m' → deform_vector av t = Ok (t', n) →
  load_fss fss ncols m t st = (Ok (true, (m', t', Some n)), st).
Proof.
  intros [Hv Hr] Hrow Em Ev. unfold load_fss. pg_prologue Hv Hr.
  apply row_data_found in Hrow as (i & ->). apply (read_finish aqo_data). unfold pg_lift. f_equal.
  rewrite (heap_deform_ok _ 5 (datums 5)) by done. cbn [mbind res_bind rd lookup list_lookup get_matrix get_vector DatumGetArray DatumGetInt32].
  rewrite Z.eqb_refl, Em. cbn [mbind res_bind]. by rewrite Ev.
Qed.

Lemma load_best_two_costs_ok pat ncols m e t m' e' k t' n x1 am ae av st :
  available aqo_best_two_costs_table →
  row_data st aqo_best_two_costs_table [pat] =
    Some (Some <$> [x1; Int32GetDatum ncols; PointerGetDatum am; PointerGetDatum ae; PointerGetDatum av]) →
  deform_matrix am m = Ok m' → deform_vector ae e = Ok (e', k) → deform_vector av t = Ok (t', n) →
  load_best_two_costs pat m e t ncols st = (Ok (true, (m', e', t', Some n)), st).
Proof.
  intros [Hv Hr] Hrow Em Ee Ev. unfold load_best_two_costs. pg_prologue Hv Hr.
  apply row_data_found in Hrow as (i & ->). apply (read_finish aqo_best_two_costs_table). unfold pg_lift. f_equal.
  rewrite (heap_deform_ok _ 5 (datums 5)) by done. cbn [mbind res_bind rd lookup list_lookup get_matrix get_vector DatumGetArray DatumGetInt32].
  rewrite Z.eqb_refl, Em. cbn [mbind res_bind]. rewrite Ee. cbn [mbind res_bind]. by rewrite Ev.
Qed.

(** What a stored matrix and vector read back as. *)
Definition read_back (m : list (list double)) (r c : nat) (m0 m' : list (list double)) : Prop :=
  length m' = length m0 ∧ ∀ i j, cell m' i j = if decide (i < r ∧ j < c) then cell m i j else cell m0 i j.

Lemma stored_matrix m r c : shape m r c → ∃ am, mform m r c = Ok am ∧
  ∀ m0, shape m0 r c → ∃ m', deform_matrix am m0 = Ok m' ∧ read_back m r c m0 m'.
Proof.
  intros Hm. destruct (ensures_inv _ _ (form_matrix_elems (uninit (r * c)) m r c Hm (length_replicate _ _)))
    as (am & E & Ha). exists am. split; [done|]. intros m0 Hm0.
  destruct (Nat.eqb_spec (r * c) 0) as [Hz|Hz].
  - subst am. exists m0. split; [done|]. split; [done|]. intros i j. rewrite decide_False; [done|]. nia.
  - destruct Ha as (Hd & Hl & He).
    destruct (ensures_inv _ _ (deform_matrix_ok am m0 r c Hd Hl Hz Hm0)) as (m' & E' & H1 & _ & H3 & H4).
    exists m'. split; [done|]. split; [done|]. intros i j. case_decide as Eij; [|by apply H4].
    destruct Eij as [Hi Hj]. rewrite H3 by done. by apply He.
Qed.

Lemma stored_vector v n : n ≤ length v → ∃ av, vform v n = Ok av ∧
  ∀ v0, n ≤ length v0 → deform_vector av v0 = Ok (take n v ++ drop n v0, n).
Proof.
  intros Hv. eexists. split; [apply form_vector_ok; [done | apply length_replicate]|]. intros v0 Hv0.
  destruct (Nat.eqb_spec n 0) as [->|Hn]; rewrite deform_vector_ok; simpl; rewrite ?length_take, ?Nat.min_l by lia;
    try done; try lia.
Qed.

(** An update that another session got ahead of. *)
Lemma update_rf_datahouse_lost fss rf_hash ncols nrows m t tid old st :
  let keys := [fspace_hash (ctx st); fss; rf_hash] in
  available aqo_data_house_lwpr → table_ok st aqo_data_house_lwpr →
  find_row st aqo_data_house_lwpr keys = Some (tid, old) →
  heap_update_result (cid st) = HeapTupleUpdated ∨ heap_update_result (cid st) = HeapTupleBeingUpdated →
  shape m nrows ncols → nrows ≤ length t →
  update_rf_datahouse fss rf_hash ncols nrows m t st = (Ok true, set_cid st (S (cid st))).
Proof.
  intros keys [Hv Hr] Ht Hf Hres Hm Hlt.
  destruct (stored_matrix m nrows ncols Hm) as (am & Em & _). destruct (stored_vector t nrows Hlt) as (av & Ev & _).
  unfold update_rf_datahouse. pg_prologue Hv Hr. fold keys. rewrite Hf. set (st1 := set_opened st (opened st + 3)).
  apply find_row_lookup in Hf as [Hf _]. destruct (five_columns _ _ _ _ Ht eq_refl Hf) as (x1 & x2 & x3 & x4 & x5 & ->).
  rewrite (pg_bind_ok _ _ _ tt st1).
  - rewrite (pg_bind_ok _ _ _ _ _ (close_scan_ok _ _)). subst st1. by rewrite set_opened_back.
  - unfold mk_matrix, mk_vector. rewrite Em, Ev.
    transitivity (try_update aqo_data_house_lwpr tid (Some <$> [x1; x2; x3; PointerGetDatum am; PointerGetDatum av])
      [x1; x2; x3; PointerGetDatum am; PointerGetDatum av] UNIQUE_CHECK_YES st1); [reflexivity|].
    by apply try_update_lost.
Qed.

End reading.

(** ** Query statistics *)
Section stat.
Context `{Cluster}.

Lemma store_series_ok v : length v ≤ aqo_stat_size → ∃ av, vform v (length v) = Ok av ∧
  (∀ st, store_series v st = (Ok (PointerGetDatum av), st)) ∧
  get_vector (PointerGetDatum av) (palloc0 aqo_stat_size) = Ok (v ++ drop (length v) (palloc0 aqo_stat_size), length v).
Proof.
  intros Hl. destruct (stored_vector v (length v) ltac:(lia)) as (av & E & Hback). exists av. split; [done|].
  split; [intros st; unfold store_series, mk_vector; by rewrite E|]. unfold get_vector. cbn [mbind res_bind DatumGetArray].
  rewrite Hback by (unfold palloc0; by rewrite length_replicate). by rewrite firstn_all.
Qed.

Lemma load_series_ok values i av v :
  values !! i = Some (PointerGetDatum av) →
  get_vector (PointerGetDatum av) (palloc0 aqo_stat_size) = Ok (v ++ drop (length v) (palloc0 aqo_stat_size), length v) →
  load_series values i = Ok v.
Proof.
  intros Hi Hv. unfold load_series. rewrite (rd_some _ _ _ Hi). cbn [mbind res_bind]. rewrite Hv. cbn [mbind res_bind].
  by rewrite take_app_length.
Qed.

(** The columns of a QueryStat, given its stored series. *)
Definition stat_cols (series : list ArrayType) (stat : QueryStat) : list Datum :=
  (PointerGetDatum <$> series) ++ [Int64GetDatum (executions_with_aqo stat); Int64GetDatum (executions_without_aqo stat)].

Definition stat_series (stat : QueryStat) : list (list double) :=
  [execution_time_with_aqo stat; execution_time_without_aqo stat; planning_time_with_aqo stat;
   planning_time_without_aqo stat; cardinality_error_with_aqo stat; cardinality_error_without_aqo stat].

Lemma update_aqo_stat_ok qh stat a1 a2 a3 a4 a5 a6 st :
  available aqo_query_stat → table_ok st aqo_query_stat → write_ok st aqo_query_stat [qh] UNIQUE_CHECK_YES →
  (∀ st, store_series (execution_time_with_aqo stat) st = (Ok (PointerGetDatum a1), st)) →
  (∀ st, store_series (execution_time_without_aqo stat) st = (Ok (PointerGetDatum a2), st)) →
  (∀ st, store_series (planning_time_with_aqo stat) st = (Ok (PointerGetDatum a3), st)) →
  (∀ st, store_series (planning_time_without_aqo stat) st = (Ok (PointerGetDatum a4), st)) →
  (∀ st, store_series (cardinality_error_with_aqo stat) st = (Ok (PointerGetDatum a5), st)) →
  (∀ st, store_series (cardinality_error_without_aqo stat) st = (Ok (PointerGetDatum a6), st)) →
  ∃ st', update_aqo_stat qh stat st = (Ok tt, st') ∧
    wrote aqo_query_stat [qh] (Int32GetDatum qh :: stat_cols [a1; a2; a3; a4; a5; a6] stat) st st'.
Proof.
  intros [Hv Hr] Ht Hw E1 E2 E3 E4 E5 E6. unfold update_aqo_stat. pg_prologue Hv Hr.
  set (st1 := set_opened st (opened st + 3)).
  destruct (upsert_ok aqo_query_stat [qh] [] (stat_cols [a1; a2; a3; a4; a5; a6] stat) 1 UNIQUE_CHECK_YES st1)
    as (st2 & E & Hput & Ht2 & Ho & Hc); try done.
  assert (Hkey : ∀ tid t, find_row st aqo_query_stat [qh] = Some (tid, t) →
    ∃ x2 x3 x4 x5 x6 x7 x8 x9, t = Some <$> [Int32GetDatum qh; x2; x3; x4; x5; x6; x7; x8; x9]).
  { intros tid t Hf. apply find_row_lookup in Hf as [Hf Hk]. destruct (proj2 Ht _ _ Hf) as (ds & -> & Hl).
    apply has_key_take in Hk. simpl in Hl. do 9 (destruct ds as [|? ds]; [done|]). destruct ds; [|done].
    injection Hk as ->. eauto 10. }
  rewrite (pg_bind_ok _ _ _ (Int32GetDatum qh, false) st1).
  2:{ destruct (find_row st aqo_query_stat [qh]) as [[tid t]|]; [|done].
      by destruct (Hkey _ _ eq_refl) as (x2 & x3 & x4 & x5 & x6 & x7 & x8 & x9 & ->). }
  rewrite (pg_bind_ok _ _ _ _ _ (E1 _)), (pg_bind_ok _ _ _ _ _ (E2 _)), (pg_bind_ok _ _ _ _ _ (E3 _)),
    (pg_bind_ok _ _ _ _ _ (E4 _)), (pg_bind_ok _ _ _ _ _ (E5 _)), (pg_bind_ok _ _ _ _ _ (E6 _)). cbv zeta.
  eapply write_finish_void; [|exact Hput | done | done | done]. rewrite <- E.
  change (find_row st1) with (find_row st). destruct (find_row st aqo_query_stat [qh]) as [[tid t]|].
  - by destruct (Hkey _ _ eq_refl) as (x2 & x3 & x4 & x5 & x6 & x7 & x8 & x9 & ->).
  - reflexivity.
Qed.
End stat.

(** ** Properties *)
Section properties.
Context `{Cluster}.

(** The data house of a receptive field: what [update_rf_datahouse] stores
    is what [load_rf_datahouse] reads back, whether the row is new or replaced;
    rows of other keys and other tables keep their contents, each key still has
    one row, and every relation opened is closed again. *)
Theorem rf_datahouse_roundtrip fss rf_hash ncols nrows m t m0 t0 st :
  let keys := [fspace_hash (ctx st); fss; rf_hash] in
  available aqo_data_house_lwpr → table_ok st aqo_data_house_lwpr →
  write_ok st aqo_data_house_lwpr keys UNIQUE_CHECK_YES →
  shape m nrows ncols → nrows ≤ length t → shape m0 nrows ncols → nrows ≤ length t0 →
  pg_ensures (update_rf_datahouse fss rf_hash ncols nrows m t ≫= fun ok => out ← load_rf_datahouse fss rf_hash m0 t0; mret (ok, out))
    st (fun '(ok, (found, (m', t', n))) st' =>
      ok = true ∧ found = true ∧ n = Some nrows ∧ read_back m nrows ncols m0 m' ∧ t' = take nrows t ++ drop nrows t0 ∧
      table_ok st' aqo_data_house_lwpr ∧ opened st' = opened st ∧
      (∀ keys', length keys' = 3 → keys' ≠ keys →
         row_data st' aqo_data_house_lwpr keys' = row_data st aqo_data_house_lwpr keys') ∧
      ∀ r, r ≠ aqo_data_house_lwpr → rows st' r = rows st r).
Proof.
  intros keys Hav Ht Hw Hm Hlt Hm0 Hlt0.
  destruct (stored_matrix m nrows ncols Hm) as (am & Em & Hback). destruct (Hback m0 Hm0) as (m' & Em' & Hrb).
  destruct (stored_vector t nrows Hlt) as (av & Ev & Hvec).
  destruct (update_rf_datahouse_ok fss rf_hash ncols nrows m t am av st Hav Em Ev Ht Hw) as (st' & E & Hput & Ht' & Ho & _).
  unfold pg_ensures. rewrite (pg_bind_ok _ _ _ _ _ E).
  assert (Eload : load_rf_datahouse fss rf_hash m0 t0 st' = (Ok (true, (m', take nrows t ++ drop nrows t0, Some nrows)), st')).
  { eapply load_rf_datahouse_ok; [done | | done | by apply Hvec].
    rewrite (put_ctx _ _ _ _ _ Hput). apply (put_found _ _ _ _ _ Hput). }
  rewrite (pg_bind_ok _ _ _ _ _ Eload). cbn. split_and!; try done.
  - intros keys' Hl Hne. by apply (put_other _ _ _ _ _ Hput).
  - intros r Hr. by apply (put_rel _ _ _ _ _ Hput).
Qed.

(** The statistics of a query survive the table: [get_aqo_stat] after
    [update_aqo_stat] returns the QueryStat that was saved, as long as no series
    is longer than [aqo_stat_size]; what is stored for other queries and in the
    other tables stays. *)
Theorem aqo_stat_roundtrip qh stat st :
  available aqo_query_stat → table_ok st aqo_query_stat → write_ok st aqo_query_stat [qh] UNIQUE_CHECK_YES →
  Forall (fun v => length v ≤ aqo_stat_size) (stat_series stat) →
  pg_ensures (update_aqo_stat qh stat;; get_aqo_stat qh) st (fun out st' =>
    out = Some stat ∧ table_ok st' aqo_query_stat ∧ opened st' = opened st ∧
    (∀ qh', qh' ≠ qh → row_data st' aqo_query_stat [qh'] = row_data st aqo_query_stat [qh']) ∧
    ∀ r, r ≠ aqo_query_stat → rows st' r = rows st r).
Proof.
  intros Hav Ht Hw Hl. unfold stat_series in Hl. rewrite !Forall_cons in Hl. destruct Hl as (H1 & H2 & H3 & H4 & H5 & H6 & _).
  destruct (store_series_ok _ H1) as (a1 & _ & E1 & G1), (store_series_ok _ H2) as (a2 & _ & E2 & G2),
    (store_series_ok _ H3) as (a3 & _ & E3 & G3), (store_series_ok _ H4) as (a4 & _ & E4 & G4),
    (store_series_ok _ H5) as (a5 & _ & E5 & G5), (store_series_ok _ H6) as (a6 & _ & E6 & G6).
  destruct (update_aqo_stat_ok qh stat a1 a2 a3 a4 a5 a6 st Hav Ht Hw E1 E2 E3 E4 E5 E6) as (st' & E & Hput & Ht' & Ho & _).
  unfold pg_ensures. rewrite (pg_bind_ok _ _ _ _ _ E).
  assert (Eget : get_aqo_stat qh st' = (Ok (Some stat), st')).
  { destruct Hav as [Hv Hr]. unfold get_aqo_stat. pg_prologue Hv Hr.
    destruct (row_data_found _ _ _ _ (put_found _ _ _ _ _ Hput)) as (i & ->).
    set (st1 := set_opened st' (opened st' + 3)).
    rewrite (pg_bind_ok _ _ _ stat st1).
    2:{ unfold pg_lift. f_equal. rewrite (heap_deform_ok _ 9 (datums 9)) by done. cbn [mbind res_bind].
        set (vals := Int32GetDatum qh :: stat_cols [a1; a2; a3; a4; a5; a6] stat).
        rewrite (load_series_ok vals 1 a1 _ eq_refl G1), (load_series_ok vals 2 a2 _ eq_refl G2),
          (load_series_ok vals 3 a3 _ eq_refl G3), (load_series_ok vals 4 a4 _ eq_refl G4),
          (load_series_ok vals 5 a5 _ eq_refl G5), (load_series_ok vals 6 a6 _ eq_refl G6). by destruct stat. }
    rewrite (pg_bind_ok _ _ _ _ _ (close_scan_ok _ _)). subst st1. by rewrite set_opened_back. }
  rewrite Eget. split_and!; try done.
  - intros qh' Hne. apply (put_other _ _ _ _ _ Hput); [done|]. by intros [= ->].
  - intros r Hr. by apply (put_rel _ _ _ _ _ Hput).
Qed.

(** The best two costs of a query pattern are read back as they were
    stored, under the number of features they were stored with. *)
Theorem best_two_costs_roundtrip pat ncols nrows m e t m0 e0 t0 st :
  available aqo_best_two_costs_table → table_ok st aqo_best_two_costs_table →
  write_ok st aqo_best_two_costs_table [pat] UNIQUE_CHECK_YES →
  (∀ old, row_data st aqo_best_two_costs_table [pat] = Some old → old !! 1 = Some (Some (Int32GetDatum (Z.of_nat ncols)))) →
  shape m nrows ncols → nrows ≤ length e → nrows ≤ length t →
  shape m0 nrows ncols → nrows ≤ length e0 → nrows ≤ length t0 →
  pg_ensures (update_best_two_costs pat ncols nrows m e t;; load_best_two_costs pat m0 e0 t0 (Z.of_nat ncols))
    st (fun '(found, (m', e', t', n)) st' =>
      found = true ∧ n = Some nrows ∧ read_back m nrows ncols m0 m' ∧
      e' = take nrows e ++ drop nrows e0 ∧ t' = take nrows t ++ drop nrows t0 ∧ opened st' = opened st).
Proof.
  intros Hav Ht Hw Hold Hm He Hlt Hm0 He0 Hlt0.
  destruct (stored_matrix m nrows ncols Hm) as (am & Em & Hback). destruct (Hback m0 Hm0) as (m' & Em' & Hrb).
  destruct (stored_vector e nrows He) as (ae & Ee & Hvece). destruct (stored_vector t nrows Hlt) as (av & Ev & Hvec).
  destruct (update_best_two_costs_ok pat ncols nrows m e t am ae av st Hav Em Ee Ev Ht Hw Hold) as (st' & E & Hput & _ & Ho & _).
  unfold pg_ensures. rewrite (pg_bind_ok _ _ _ _ _ E).
  erewrite load_best_two_costs_ok; [|done | apply (put_found _ _ _ _ _ Hput) | done | by apply Hvece | by apply Hvec]. done.
Qed.

(** An update that loses to a concurrent one of another session is dropped
    in silence: the operation still reports success and every table is as it
    was. *)
Theorem lost_update_dropped fss rf_hash ncols nrows m t tid old st :
  let keys := [fspace_hash (ctx st); fss; rf_hash] in
  available aqo_data_house_lwpr → table_ok st aqo_data_house_lwpr →
  find_row st aqo_data_house_lwpr keys = Some (tid, old) →
  heap_update_result (cid st) = HeapTupleUpdated ∨ heap_update_result (cid st) = HeapTupleBeingUpdated →
  shape m nrows ncols → nrows ≤ length t →
  update_rf_datahouse fss rf_hash ncols nrows m t st = (Ok true, set_cid st (S (cid st))).
Proof. apply update_rf_datahouse_lost. Qed.


(** The columns [add_query] stores. *)
Definition query_columns (qh : Z) (learn use : bool) (fspace : Z) (tuning : bool) (hist : ArrayType)
    (num_history total_num : Z) (cur : ArrayType) (num_feature : Z) : list Datum :=
  [Int32GetDatum qh; BoolGetDatum learn; BoolGetDatum use; Int32GetDatum fspace; BoolGetDatum tuning;
   PointerGetDatum hist; Int32GetDatum num_history; Int32GetDatum total_num; PointerGetDatum cur;
   Int32GetDatum num_feature].

Lemma add_query_run qh learn use fspace tuning query_history nh tn current_query nf hist cur st :
  available aqo_queries →
  vform query_history num_history_data_compute_probability_fs = Ok hist → vform current_query 2 = Ok cur →
  add_query qh learn use fspace tuning query_history nh tn current_query nf st =
  (try_insert aqo_queries (Some <$> query_columns qh learn use fspace tuning hist nh tn cur nf)
     (query_columns qh learn use fspace tuning hist nh tn cur nf) UNIQUE_CHECK_YES;;
   index_close aqo_queries;; heap_close aqo_queries;; CommandCounterIncrement;; mret true)
    (set_opened (set_opened st (opened st + 1)) (opened st + 1 + 1)).
Proof.
  intros [Hv Hr] E1 E2. unfold add_query, mk_vector. rewrite E1, E2. unfold RelnameGetRelid, heap_openrv.
  rewrite Hv, Hr. reflexivity.
Qed.

(** A query added to aqo_queries is found again with the settings it was
    added with, and nothing stays open. *)
Theorem add_query_found qh learn use fspace tuning query_history nh tn current_query nf st :
  available aqo_queries → keys_unique (rows st aqo_queries) 1 → row_data st aqo_queries [qh] = None →
  num_history_data_compute_probability_fs ≤ length query_history → 2 ≤ length current_query →
  pg_ensures (add_query qh learn use fspace tuning query_history nh tn current_query nf;;
              find_query qh (datums 10) (falses 10)) st
    (fun '(found, (values, nulls)) st' =>
      found = true ∧ nulls = falses 10 ∧ opened st' = opened st ∧
      take 5 values = [Int32GetDatum qh; BoolGetDatum learn; BoolGetDatum use; Int32GetDatum fspace; BoolGetDatum tuning] ∧
      values !! 6 = Some (Int32GetDatum nh) ∧ values !! 7 = Some (Int32GetDatum tn) ∧ values !! 9 = Some (Int32GetDatum nf) ∧
      ∀ qh', qh' ≠ qh → row_data st' aqo_queries [qh'] = row_data st aqo_queries [qh']).
Proof.
  intros Hav Hu Hnone Hl1 Hl2.
  destruct (stored_vector query_history num_history_data_compute_probability_fs Hl1) as (hist & E1 & _).
  destruct (stored_vector current_query 2 Hl2) as (cur & E2 & _).
  set (cols := query_columns qh learn use fspace tuning hist nh tn cur nf).
  set (st1 := set_opened (set_opened st (opened st + 1)) (opened st + 1 + 1)).
  assert (Hf : find_row st1 aqo_queries [qh] = None).
  { change (find_row st1) with (find_row st). unfold row_data in Hnone. by destruct (find_row st aqo_queries [qh]). }
  destruct (try_insert_ok aqo_queries (Some <$> cols) cols UNIQUE_CHECK_YES [qh] st1) as [E Hput]; try done.
  { subst cols. simpl. by rewrite Z.eqb_refl. }
  set (st2 := set_rows st1 aqo_queries _) in *.
  set (st3 := set_cid (set_opened (set_opened st2 (opened st2 - 1)) (opened st2 - 1 - 1)) (S (cid st2))).
  assert (E3 : add_query qh learn use fspace tuning query_history nh tn current_query nf st = (Ok true, st3)).
  { rewrite (add_query_run _ _ _ _ _ _ _ _ _ _ hist cur) by done. by rewrite (pg_bind_ok _ _ _ _ _ E). }
  unfold pg_ensures. rewrite (pg_bind_ok _ _ _ _ _ E3).
  assert (Ho : opened st3 = opened st) by (simpl; lia).
  destruct Hav as [Hv Hr]. unfold find_query. pg_prologue Hv Hr.
  change (find_row st3) with (find_row st2). destruct (row_data_found _ _ _ _ (put_found _ _ _ _ _ Hput)) as (i & ->).
  rewrite (pg_lift_ok _ _ _ (cols, falses 10)) by (by apply heap_deform_ok).
  rewrite (pg_bind_ok _ _ _ _ _ (close_scan_ok _ _)), set_opened_back. cbn -[row_data]. split_and!; try done.
  intros qh' Hne. transitivity (row_data st2 aqo_queries [qh']); [done|].
  rewrite (put_other _ _ _ _ _ Hput); [done | done |]. by intros [= ->].
Qed.

(** Adding a query that is already in aqo_queries raises the duplicate-key
    error after the heap tuple has been taken back: every table is as it was. *)
Theorem add_query_duplicate qh learn use fspace tuning query_history nh tn current_query nf old st :
  available aqo_queries → row_data st aqo_queries [qh] = Some old →
  num_history_data_compute_probability_fs ≤ length query_history → 2 ≤ length current_query →
  ∃ st', add_query qh learn use fspace tuning query_history nh tn current_query nf st =
      (Err (Fault_elog "duplicate key value violates unique constraint"%string), st') ∧
    ∀ r, rows st' r = rows st r.
Proof.
  intros Hav Hold Hl1 Hl2.
  destruct (stored_vector query_history num_history_data_compute_probability_fs Hl1) as (hist & E1 & _).
  destruct (stored_vector current_query 2 Hl2) as (cur & E2 & _).
  rewrite (add_query_run _ _ _ _ _ _ _ _ _ _ hist cur) by done.
  set (cols := query_columns qh learn use fspace tuning hist nh tn cur nf).
  set (st1 := set_opened (set_opened st (opened st + 1)) (opened st + 1 + 1)).
  apply row_data_found in Hold as (i & Hf). apply find_row_lookup in Hf as [Hf Hk].
  destruct (try_insert_dup aqo_queries (Some <$> cols) cols [qh] i old st1) as (st' & E & Hrows & _); try done.
  exists st'. split; [|done]. unfold mbind at 1, PG_bind at 1. by rewrite E.
Qed.

(** [update_query] cannot be executed on a stored query: its arrays have
    five cells and the rows of aqo_queries ten columns, so [heap_deform_tuple]
    writes past the end of the arrays. *)
Lemma update_query_overflows qh learn use fspace tuning t st :
  available aqo_queries → row_data st aqo_queries [qh] = Some t → length t = natts aqo_queries →
  (update_query qh learn use fspace tuning st).1 = Err Fault_bounds.
Proof.
  intros [Hv Hr] Ht Hl. unfold update_query. pg_prologue Hv Hr. apply row_data_found in Ht as (i & ->).
  unfold tuple_ptr. rewrite pg_ret_bind. unfold pg_lift at 1, mbind at 1, PG_bind at 1.
  by rewrite heap_deform_overflow by (rewrite Hl; simpl; lia).
Qed.

(** AQO turned off for the current query. *)
Definition disabled (q : QueryContextData) : QueryContextData :=
  let '(mkContext qh _ _ fh _ _ _ eo ea ts pt cq di nf cf be bp) := q in
  mkContext qh false false fh false false false eo ea ts pt cq di nf cf be bp.

(** When the index of its table is missing, every operation of this file
    on the table turns AQO off for the current query, reports failure and does
    nothing else. *)
Theorem missing_index_disables r st :
  OidIsValid r = false →
  let st' := set_ctx st (disabled (ctx st)) in
  match r with
  | aqo_queries => ∀ qh l u f a h n t vs ns,
      find_query qh vs ns st = (Ok (false, (vs, ns)), st') ∧ update_query qh l u f a st = (Ok false, st') ∧
      update_query2 qh l u f a h n t st = (Ok false, st')
  | aqo_query_texts => ∀ qh txt, add_query_text qh txt st = (Ok false, st')
  | aqo_query_stat => ∀ qh stat, get_aqo_stat qh st = (Ok None, st') ∧ update_aqo_stat qh stat st = (Ok tt, st')
  | aqo_data => ∀ fss nc nr ncn m t,
      load_fss fss nc m t st = (Ok (false, (m, t, None)), st') ∧ update_fss fss nr ncn m t st = (Ok false, st')
  | aqo_data_house_lwpr => ∀ fss rfh nc nr m t,
      load_rf_datahouse fss rfh m t st = (Ok (false, (m, t, None)), st') ∧
      update_rf_datahouse fss rfh nc nr m t st = (Ok false, st')
  | aqo_best_two_costs_table => ∀ p nf nc nr m e t,
      load_best_two_costs p m e t nf st = (Ok (false, (m, e, t, None)), st') ∧
      update_best_two_costs p nc nr m e t st = (Ok false, st')
  | aqo_markov_table => ∀ n h, num_history_data_compute_probability_fs ≤ n →
      load_query_distribution n h st = (Ok false, st')
  | aqo_data_lwpr => True
  end.
Proof.
  intros Hv st'. assert (Hd : disable_aqo_for_query st = (Ok tt, st')).
  { subst st'. unfold disable_aqo_for_query, pg_modify. by destruct (ctx st). }
  assert (Hret : ∀ A (a : A), (disable_aqo_for_query;; mret a) st = (Ok a, st')).
  { intros A a. by rewrite (pg_bind_ok _ _ _ _ _ Hd). }
  destruct r; intros; try done; try (split_and!);
    unfold find_query, update_query, update_query2, add_query_text, get_aqo_stat, update_aqo_stat, load_fss, update_fss,
      load_rf_datahouse, update_rf_datahouse, load_best_two_costs, update_best_two_costs, load_query_distribution;
    unfold RelnameGetRelid; try (rewrite Hv, pg_ret_bind; cbn [negb]; first [apply Hret | apply Hd]).
  rewrite (proj2 (Nat.ltb_ge _ _)) by done. rewrite Hv, pg_ret_bind. cbn [negb]. apply Hret.
Qed.
End properties.

(** ** Concrete inputs *)

(** Everything is there and no update meets another session; [res], [hot] say
    how the updates end. *)
Definition sample_cluster (there : bool) (result : HTSU_Result) (hot : bool) : Cluster :=
  {| OidIsValid := fun _ => there; relation_exists := fun _ => true;
     heap_update_result := fun _ => result; heap_update_hot := fun _ => hot |}.
Definition good_cluster : Cluster := sample_cluster true HeapTupleMayBeUpdated false.

Definition sample_ctx : QueryContextData :=
  mkContext 1 true true 1 true true false false false (mkTime 0 0) d0 1 [] 0 [] d0 d0.

(** A session with one row in one table. *)
Definition sample_state (r : relname) (l : list (list Datum)) : pgstate :=
  mkState (fun x => if decide (x = r) then map (fun ds => Some <$> ds) l else []) sample_ctx 0 0 (Some ∅).

Definition house_row : list Datum :=
  [Int32GetDatum 1; Int32GetDatum 5; Int32GetDatum 9; PointerGetDatum (mkArray [1; 1] [d0]); PointerGetDatum (mkArray [1] [d0])].

Lemma sample_table r ds : length ds = natts r → table_ok (sample_state r [ds]) r.
Proof.
  intros Hl. split; unfold sample_state; simpl; rewrite decide_True by done.
  - intros i j t t' keys _ Hi Hj _ _. apply list_lookup_singleton_Some in Hi as [-> _], Hj as [-> _]. done.
  - intros i t Hi. apply list_lookup_singleton_Some in Hi as [_ <-]. by exists ds.
Qed.

Lemma sample_shape (x : double) : shape [[x]] 1 1.
Proof. split; [simpl; lia|]. intros [|i] row Hi Hr; simplify_eq/=; lia. Qed.

Lemma rf_datahouse_roundtrip_witness :
  pg_ensures (@update_rf_datahouse good_cluster 5 9 1 1 [[d_of_Z 3]] [d_of_Z 4] ≫= fun ok =>
                out ← @load_rf_datahouse good_cluster 5 9 [[d0]] [d0]; mret (ok, out))
    (sample_state aqo_data_house_lwpr [house_row])
    (fun '(ok, (found, (m', t', n))) st' => found = true ∧ n = Some 1 ∧ cell m' 0 0 = Some (d_of_Z 3) ∧ t' = [d_of_Z 4]).
Proof.
  eapply pg_ensures_mono.
  - apply (@rf_datahouse_roundtrip good_cluster 5 9 1 1 [[d_of_Z 3]] [d_of_Z 4] [[d0]] [d0]);
      [done | by apply sample_table | by right; split; [|right] | apply sample_shape | done | apply sample_shape | done].
  - intros [ok [found [[m' t'] n]]] st' (_ & -> & -> & [_ Hc] & -> & _). split_and!; [done | done | | done].
    by rewrite Hc, decide_True by lia.
Defined.

Lemma aqo_stat_roundtrip_witness :
  pg_ensures (@update_aqo_stat good_cluster 7 (mkQueryStat [d_of_Z 2] [] [] [] [] [d_of_Z 3] 1 2);;
              @get_aqo_stat good_cluster 7) (sample_state aqo_data [])
    (fun out st' => out = Some (mkQueryStat [d_of_Z 2] [] [] [] [] [d_of_Z 3] 1 2)).
Proof.
  eapply pg_ensures_mono.
  - apply (@aqo_stat_roundtrip good_cluster 7 (mkQueryStat [d_of_Z 2] [] [] [] [] [d_of_Z 3] 1 2) (sample_state aqo_data []));
      [done | split; [intros [] | intros []]; done | by left | repeat constructor].
  - by intros out st' [-> _].
Defined.

Lemma best_two_costs_roundtrip_witness :
  pg_ensures (@update_best_two_costs good_cluster 2 1 1 [[d_of_Z 3]] [d_of_Z 4] [d_of_Z 5];;
              @load_best_two_costs good_cluster 2 [[d0]] [d0] [d0] 1) (sample_state aqo_data [])
    (fun '(found, (m', e', t', n)) st' => found = true ∧ e' = [d_of_Z 4] ∧ t' = [d_of_Z 5]).
Proof.
  eapply pg_ensures_mono.
  - apply (@best_two_costs_roundtrip good_cluster 2 1 1 [[d_of_Z 3]] [d_of_Z 4] [d_of_Z 5] [[d0]] [d0] [d0] (sample_state aqo_data []));
      [done | split; [intros [] | intros []]; done | by left | done | apply sample_shape | done | done
       | apply sample_shape | done | done].
  - by intros [found [[[m' e'] t'] n]] st' (-> & _ & _ & -> & -> & _).
Defined.

Lemma lost_update_dropped_witness :
  @update_rf_datahouse (sample_cluster true HeapTupleUpdated false) 5 9 1 1 [[d_of_Z 3]] [d_of_Z 4]
    (sample_state aqo_data_house_lwpr [house_row]) =
  (Ok true, set_cid (sample_state aqo_data_house_lwpr [house_row]) 1).
Proof.
  apply (@lost_update_dropped (sample_cluster true HeapTupleUpdated false) 5 9 1 1 [[d_of_Z 3]] [d_of_Z 4] 0
           (Some <$> house_row) (sample_state aqo_data_house_lwpr [house_row]));
    [done | by apply sample_table | reflexivity | by left | apply sample_shape | done].
Defined.


Lemma add_query_found_witness :
  pg_ensures (@add_query good_cluster 3 true false 3 true (palloc0 3) 0 1 (palloc0 2) 4;;
              @find_query good_cluster 3 (datums 10) (falses 10)) (sample_state aqo_data [])
    (fun '(found, (values, nulls)) st' => found = true ∧ values !! 9 = Some (Int32GetDatum 4)).
Proof.
  eapply pg_ensures_mono.
  - apply (@add_query_found good_cluster 3 true false 3 true (palloc0 3) 0 1 (palloc0 2) 4 (sample_state aqo_data []));
      [done | intros []; done | done | apply Nat.leb_le; reflexivity | apply Nat.leb_le; reflexivity].
  - by intros [found [values nulls]] st' (-> & _ & _ & _ & _ & _ & -> & _).
Defined.

Definition query_row : list Datum := Int32GetDatum 3 :: replicate 9 (BoolGetDatum true).

Lemma add_query_duplicate_witness :
  ∃ st', @add_query good_cluster 3 true false 3 true (palloc0 3) 0 1 (palloc0 2) 4 (sample_state aqo_queries [query_row]) =
      (Err (Fault_elog "duplicate key value violates unique constraint"%string), st') ∧
    ∀ r, rows st' r = rows (sample_state aqo_queries [query_row]) r.
Proof.
  apply (@add_query_duplicate good_cluster 3 true false 3 true (palloc0 3) 0 1 (palloc0 2) 4 (Some <$> query_row));
    [done | reflexivity | apply Nat.leb_le; reflexivity | apply Nat.leb_le; reflexivity].
Defined.

Lemma missing_index_disables_witness :
  @get_aqo_stat (sample_cluster false HeapTupleUpdated false) 3 (sample_state aqo_data []) =
  (Ok None, set_ctx (sample_state aqo_data []) (disabled sample_ctx)).
Proof.
  destruct (@missing_index_disables (sample_cluster false HeapTupleUpdated false) aqo_query_stat (sample_state aqo_data [])
              eq_refl 3%Z palloc_query_stat) as [E _]. exact E.
Defined.
