(* ===== verification/StorageLwpr.v ===== *)
(** * StorageLwpr: storing LWPR models

    [load_fss_rfwr], [update_fss_rfwr] and [update_fss_rfwr2] of
    contrib/aqo/storage.c: a model is a row of aqo_data_lwpr with one matrix
    per array of its receptive fields, a row of the matrix per field. *)
From S2P Require Import Prelude Float64 PgArray LwprModel PgState Storage.
Import RFA.

(** The arrays stored in columns 9 to 29, in this order. *)
Definition rfwr_arrays : list rfarr :=
  [D; M; alpha; beta; c; SXresYres; SSs2; SSYres; SSXres; U; P; H; r; sum_w; sum_e_cv2; n_data; lambda;
   mean_x; var_x; s; slope].

(** The number of cells stored of each. *)
Definition col_size (nInS ncols : nat) (a : rfarr) : nat :=
  match a with
  | D | M | alpha | SXresYres | SSXres | U | P => nInS * ncols
  | _ => ncols
  end.

Definition hist_cols (ncols : nat) : nat := 1 + ncols * num_history_data_compute_probability_rf.

(** ** Loading *)

(** The blocks of [palloc0]'ed rows, one matrix per array. *)
Definition rfwr_blocks (num_rf nInS ncols : nat) : list (rfarr * list (list double)) :=
  map (fun a => (a, replicate num_rf (palloc0 (col_size nInS ncols a)))) rfwr_arrays.

(** [deform_matrix(values[9], D); ...; deform_matrix(values[29], slope);] *)
Definition rfwr_deform (values : list Datum) (blocks : list (rfarr * list (list double)))
  : res (list (rfarr * list (list double))) :=
  for_range 0 (length blocks) (fun i mats =>
    '(a, block) ← rd blocks i;
    d ← rd values (9 + i);
    m ← get_matrix d block;
    Ok (mats ++ [(a, m)])) [].

Definition replace_last (m : LWPR_Model) (RF : LWPR_ReceptiveField) : LWPR_Model :=
  set_rf m (<[numRFS m - 1 := RF]> (rf m)).

(** What is known of the fields of a loaded model. *)
Record rfwr_vectors : Type := mkVectors {
  v_nReg : list double; v_trust : list double; v_slope : list double; v_sum_e2 : list double;
  v_beta0 : list double; v_ssp : list double; v_errnum : list double; v_errs : list (list double)
}.

(** One turn of the loop that makes the receptive fields. *)
Definition load_rf `{Palloc} (v : rfwr_vectors) (mats : list (rfarr * list (list double))) (nInS ncols i : nat)
    (m : LWPR_Model) : res LWPR_Model :=
  dim ← (x ← rd (v_nReg v) i; d_to_int x);
  '(m, RF) ← lwpr_aux_add_rf (palloc_mis i).1 (palloc_mis i).2 palloc_junk m (Z.to_nat dim);
  let RF := set_nReg RF (Z.to_nat dim) in
  t ← (x ← rd (v_trust v) i; d_to_int x);
  sr ← (x ← rd (v_slope v) i; d_to_int x);
  e2 ← rd (v_sum_e2 v) i;
  b0 ← rd (v_beta0 v) i;
  p ← rd (v_ssp v) i;
  let RF := set_SSp (set_beta0 (set_sum_e2 (set_slopeReady (set_trustworthy RF t) sr) e2) b0) p in
  RF ← foreach mats (fun '(a, mat) RF => row ← rd mat i; memcpy_to RF a row (col_size nInS ncols a)) RF;
  errs ← rd (v_errs v) i;
  RF ← memcpy_to RF pred_error_history errs num_pred_error_history;
  en ← rd (v_errnum v) i;
  Ok (replace_last m (set_pred_error_num RF en)).

(** The row of a model read into [m]: [num_rf] is set by every
    [deform_vector], the last of them for column 34. *)
Definition rfwr_read `{Palloc} (values : list Datum) (fss : Z) (ncols : nat) (m : LWPR_Model) : res LWPR_Model :=
  let nInS := nInStore (cfg m) in
  num_rf ← (d ← rd values 3; DatumGetInt32 d);
  let n := Z.to_nat num_rf in
  let blocks := rfwr_blocks n nInS ncols in
  '(v4, _) ← (d ← rd values 4; get_vector d (palloc0 n));
  '(v5, _) ← (d ← rd values 5; get_vector d (palloc0 n));
  '(v6, _) ← (d ← rd values 6; get_vector d (palloc0 n));
  '(v7, _) ← (d ← rd values 7; get_vector d (palloc0 n));
  '(v8, _) ← (d ← rd values 8; get_vector d (palloc0 n));
  mats ← rfwr_deform values blocks;
  hist ← (d ← rd values 30; get_matrix d (replicate num_query_pattern (palloc0 (hist_cols ncols))));
  '(nh, _) ← (d ← rd values 31; get_vector d (palloc0 num_query_pattern));
  '(v32, _) ← (d ← rd values 32; get_vector d (palloc0 n));
  errs ← (d ← rd values 33; get_matrix d (replicate n (palloc0 num_pred_error_history)));
  '(v34, num_rf) ← (d ← rd values 34; get_vector d (palloc0 n));
  m ← for_range 0 num_rf (load_rf (mkVectors v4 v5 v6 v7 v8 v32 v34 errs) mats nInS ncols) m;
  nh' ← memcpy (num_history_data m) nh num_query_pattern;
  hm ← for_range 0 num_query_pattern (fun i hm =>
      src ← rd hist i; dst ← rd hm i; row ← memcpy dst src (hist_cols ncols); wr hm i row)
      (history_data_matrix m);
  Ok (set_history (set_fss_hash m fss) hm nh').

Section storage_lwpr.
Context `{Cluster}.

Definition load_fss_rfwr `{Palloc} (fss : Z) (ncols : nat) (m : LWPR_Model) : PG (bool * LWPR_Model) :=
  valid ← RelnameGetRelid aqo_data_lwpr;
  if negb valid then disable_aqo_for_query;; mret (false, m)
  else
    fspace ← pg_get (fun st => fspace_hash (ctx st));
    found ← open_scan aqo_data_lwpr [fspace; fss];
    out ← match found with
          | Some (_, t) => pg_lift (
              '(values, _) ← heap_deform_tuple t (datums 35) (falses 35);
              n ← (d ← rd values 2; DatumGetInt32 d);
              if (n =? Z.of_nat ncols)%Z then m ← rfwr_read values fss ncols m; Ok (true, m)
              else Ok (false, m))
          | None => mret (false, set_fss_hash m fss)
          end;
    close_scan aqo_data_lwpr;;
    mret out.

(** ** Saving *)

(** The rows of one array of all receptive fields. *)
Definition rfwr_rows (m : LWPR_Model) (size : nat) (a : rfarr) : res (list (list double)) :=
  for_range 0 (numRFS m) (fun i rows =>
    RF ← rd (rf m) i;
    row ← memcpy (palloc0 size) (arr RF a) size;
    Ok (rows ++ [row])) [].

(** The value of one member of all receptive fields. *)
Definition rfwr_vec (m : LWPR_Model) (f : LWPR_ReceptiveField → double) : list double := map f (rf m).

(** The history, copied into fresh blocks. *)
Definition rfwr_history (m : LWPR_Model) (ncols : nat) : res (list (list double) * list double) :=
  nh ← memcpy (palloc0 num_query_pattern) (num_history_data m) num_query_pattern;
  hist ← for_range 0 num_query_pattern (fun i rows =>
      src ← rd (history_data_matrix m) i;
      row ← memcpy (palloc0 (hist_cols ncols)) src (hist_cols ncols);
      Ok (rows ++ [row])) [];
  Ok (hist, nh).

Definition vec_datum (v : list double) (n : nat) : res Datum := a ← vform v n; Ok (PointerGetDatum a).
Definition mat_datum (m : list (list double)) (r c : nat) : res Datum := a ← mform m r c; Ok (PointerGetDatum a).

Definition dbl_of_nat (n : nat) : double := d_of_Z (Z.of_nat n).

(** Columns 3 to 34. *)
Definition rfwr_columns (m : LWPR_Model) (ncols : nat) : res (list Datum) :=
  let nInS := nInStore (cfg m) in
  let n := numRFS m in
  c4 ← vec_datum (rfwr_vec m (fun RF => dbl_of_nat (nReg RF))) n;
  c5 ← vec_datum (rfwr_vec m (fun RF => d_of_Z (trustworthy RF))) n;
  c6 ← vec_datum (rfwr_vec m (fun RF => d_of_Z (slopeReady RF))) n;
  c7 ← vec_datum (rfwr_vec m sum_e2) n;
  c8 ← vec_datum (rfwr_vec m beta0) n;
  mats ← for_range 0 (length rfwr_arrays) (fun i cols =>
      a ← rd rfwr_arrays i;
      rows ← rfwr_rows m (col_size nInS ncols a) a;
      d ← mat_datum rows n (col_size nInS ncols a);
      Ok (cols ++ [d])) [];
  '(hist, nh) ← rfwr_history m ncols;
  c30 ← mat_datum hist num_query_pattern (hist_cols ncols);
  c31 ← vec_datum nh num_query_pattern;
  c32 ← vec_datum (rfwr_vec m SSp) n;
  errs ← rfwr_rows m num_pred_error_history pred_error_history;
  c33 ← mat_datum errs n num_pred_error_history;
  c34 ← vec_datum (rfwr_vec m pred_error_num) n;
  Ok ([Int32GetDatum (Z.of_nat n); c4; c5; c6; c7; c8] ++ mats ++ [c30; c31; c32; c33; c34]).

(** The columns are formed from the model before anything else; in C the
    datums are formed after the scan, which changes none of what they hold. *)
Definition update_fss_rfwr (fss : Z) (ncols : nat) (m : LWPR_Model) : PG bool :=
  let replace := falses 3 ++ replicate 32 true in
  cols ← pg_lift (rfwr_columns m ncols);
  valid ← RelnameGetRelid aqo_data_lwpr;
  if negb valid then disable_aqo_for_query;; mret false
  else
    fspace ← pg_get (fun st => fspace_hash (ctx st));
    found ← open_scan aqo_data_lwpr [fspace; fss];
    match found with
    | None =>
        let values := [Int32GetDatum fspace; Int32GetDatum fss; Int32GetDatum (Z.of_nat ncols)] ++ cols in
        t ← pg_lift (heap_form_tuple (natts aqo_data_lwpr) values (falses 35));
        try_insert aqo_data_lwpr t values UNIQUE_CHECK_YES
    | Some (tid, t) =>
        '(values, isnull) ← pg_lift (heap_deform_tuple t (datums 35) (falses 35));
        let values := take 3 values ++ cols in
        nw ← pg_lift (heap_modify_tuple t values isnull replace);
        try_update aqo_data_lwpr tid nw values UNIQUE_CHECK_NO
    end;;
    close_scan aqo_data_lwpr;;
    CommandCounterIncrement;;
    mret true.

(** Without a row the function returns with the relations still open. *)
Definition update_fss_rfwr2 (fss : Z) (ncols : nat) (m : LWPR_Model) : PG bool :=
  let replace := falses 3 ++ replicate 32 true in
  '(hist, nh) ← pg_lift (rfwr_history m ncols);
  valid ← RelnameGetRelid aqo_data_lwpr;
  if negb valid then disable_aqo_for_query;; mret false
  else
    fspace ← pg_get (fun st => fspace_hash (ctx st));
    found ← open_scan aqo_data_lwpr [fspace; fss];
    match found with
    | None => mret false
    | Some (tid, t) =>
        '(values, isnull) ← pg_lift (heap_deform_tuple t (datums 35) (falses 35));
        c30 ← pg_lift (mat_datum hist num_query_pattern (hist_cols ncols));
        values ← pg_lift (wr values 30 c30);
        c31 ← pg_lift (vec_datum nh num_query_pattern);
        values ← pg_lift (wr values 31 c31);
        nw ← pg_lift (heap_modify_tuple t values isnull replace);
        try_update aqo_data_lwpr tid nw values UNIQUE_CHECK_NO;;
        close_scan aqo_data_lwpr;;
        CommandCounterIncrement;;
        mret true
    end.
End storage_lwpr.

(** ** What is stored of a model *)
Definition col_rows (m : LWPR_Model) (size : nat) (a : rfarr) : list (list double) :=
  map (fun RF => take size (arr RF a)) (rf m).

Lemma rfwr_rows_ok m size a :
  Forall (fun RF => size ≤ length (arr RF a)) (rf m) → rfwr_rows m size a = Ok (col_rows m size a).
Proof.
  intros Hs. apply for_build; [apply length_map|]. intros i x acc Hx. unfold col_rows in Hx.
  rewrite list_lookup_fmap in Hx. destruct (rf m !! i) as [RF|] eqn:E; [|done]. simplify_eq/=.
  rewrite (rd_some _ _ _ E). cbn [mbind res_bind]. pose proof (Forall_lookup_1 _ _ _ _ Hs E) as Hl. simpl in Hl.
  unfold memcpy. rewrite (proj2 (Nat.leb_le _ _) Hl). unfold palloc0. rewrite length_replicate, Nat.leb_refl.
  cbn [andb mbind res_bind]. rewrite drop_ge by (rewrite length_replicate; lia). by rewrite app_nil_r.
Qed.

(** A matrix with rows of the stored size is read back as it is. *)
Lemma matrix_exact (l : list (list double)) n k :
  length l = n → Forall (fun row => length row = k) l →
  ∃ am, mform l n k = Ok am ∧ deform_matrix am (replicate n (palloc0 k)) = Ok l.
Proof.
  intros Hl Hrows. set (m0 := replicate n (palloc0 k)).
  assert (Hshape : shape l n k).
  { split; [lia|]. intros i row _ Hi. pose proof (Forall_lookup_1 _ _ _ _ Hrows Hi). simpl in *. lia. }
  assert (Hshape0 : shape m0 n k).
  { split; [unfold m0; by rewrite length_replicate|]. intros i row _ Hi. apply replicate_lookup_inv in Hi as [-> _].
    unfold palloc0. by rewrite length_replicate. }
  destruct (ensures_inv _ _ (form_matrix_elems (uninit (n * k)) l n k Hshape (length_replicate _ _))) as (am & E & Ha).
  exists am. split; [done|]. destruct (Nat.eqb_spec (n * k) 0) as [Hz|Hz].
  - subst am. cbn. f_equal. apply list_eq. intros i. unfold m0. destruct (decide (i < n)) as [Hi|Hi].
    + rewrite lookup_replicate_2 by done. destruct (lookup_lt_is_Some_2 l i) as [row Hrow]; [lia|].
      rewrite Hrow. pose proof (Forall_lookup_1 _ _ _ _ Hrows Hrow) as Hk. simpl in Hk. assert (k = 0) as -> by nia.
      by destruct row.
    + rewrite !lookup_ge_None_2; [done | lia | rewrite length_replicate; lia].
  - destruct Ha as (Hd & Hlen & He).
    destruct (ensures_inv _ _ (deform_matrix_ok am m0 n k Hd Hlen Hz Hshape0)) as (m' & E' & H1 & H2 & H3 & _).
    rewrite E'. f_equal. apply list_eq. intros i. unfold m0 in H1. rewrite length_replicate in H1.
    destruct (decide (i < n)) as [Hi|Hi]; [|by rewrite !lookup_ge_None_2 by lia].
    destruct (lookup_lt_is_Some_2 l i) as [row Hrow]; [lia|]. destruct (lookup_lt_is_Some_2 m' i) as [row' Hrow']; [lia|].
    rewrite Hrow, Hrow'. f_equal. pose proof (Forall_lookup_1 _ _ _ _ Hrows Hrow) as Hk. simpl in Hk.
    assert (Hk' : length row' = k).
    { rewrite (H2 i (palloc0 k) row'); [apply length_replicate | by apply lookup_replicate_2 | done]. }
    apply list_eq. intros j. destruct (decide (j < k)) as [Hj|Hj]; [|by rewrite !lookup_ge_None_2 by lia].
    specialize (H3 i j Hi Hj). rewrite He in H3 by done. unfold cell in H3. rewrite Hrow, Hrow' in H3. exact H3.
Qed.

Lemma vector_exact (v : list double) n :
  length v = n → ∃ av, vform v n = Ok av ∧ deform_vector av (palloc0 n) = Ok (v, n).
Proof.
  intros Hl. destruct (stored_vector v n ltac:(lia)) as (av & E & Hback). exists av. split; [done|].
  unfold palloc0. rewrite Hback by (by rewrite length_replicate).
  rewrite take_ge, drop_ge, app_nil_r; [done | rewrite length_replicate; lia | lia].
Qed.

(** A computation that does not fail, and its result. *)
Definition the (x : res Datum) : Datum := match x with Ok d => d | Err _ => null_value end.

Lemma mat_datum_ok l n k :
  length l = n → Forall (fun row => length row = k) l →
  mat_datum l n k = Ok (the (mat_datum l n k)) ∧
  get_matrix (the (mat_datum l n k)) (replicate n (palloc0 k)) = Ok l.
Proof.
  intros Hl Hr. destruct (matrix_exact l n k Hl Hr) as (am & E & E'). unfold mat_datum. rewrite E. done.
Qed.

Lemma vec_datum_ok v n :
  length v = n → vec_datum v n = Ok (the (vec_datum v n)) ∧ get_vector (the (vec_datum v n)) (palloc0 n) = Ok (v, n).
Proof.
  intros Hl. destruct (vector_exact v n Hl) as (av & E & E'). unfold vec_datum. rewrite E. done.
Qed.

Section saved.
Context (m : LWPR_Model) (Hm : model_ok m).

Lemma col_size_le a RF :
  rf_ok (nIn (cfg m)) (nInStore (cfg m)) RF → a ∈ rfwr_arrays →
  col_size (nInStore (cfg m)) (nIn (cfg m)) a ≤ length (arr RF a).
Proof.
  intros [_ Hst Hsz _] Ha. rewrite Hsz. pose proof (nInS_le (nIn (cfg m))) as Hle.
  rewrite <- (cfg_nInS _ (m_cfg _ Hm)) in Hle.
  assert (nInStore (cfg m) * nIn (cfg m) ≤ nInStore (cfg m) * nRegStore RF) by (apply Nat.mul_le_mono_l; lia).
  destruct a; cbn [col_size rf_size]; try lia; exfalso; revert Ha; unfold rfwr_arrays; set_solver.
Qed.

Lemma col_rows_len size a :
  Forall (fun RF => size ≤ length (arr RF a)) (rf m) →
  length (col_rows m size a) = numRFS m ∧ Forall (fun row => length row = size) (col_rows m size a).
Proof.
  intros Hs. split; [apply length_map|]. unfold col_rows. apply Forall_fmap. eapply Forall_impl; [exact Hs|].
  intros RF Hl. cbn [compose]. rewrite length_take. simpl in Hl. lia.
Qed.

Lemma saved_array a : a ∈ rfwr_arrays →
  Forall (fun RF => col_size (nInStore (cfg m)) (nIn (cfg m)) a ≤ length (arr RF a)) (rf m).
Proof. intros Ha. eapply Forall_impl; [apply (m_rf _ Hm)|]. intros RF HRF. by apply col_size_le. Qed.

Lemma saved_errors : Forall (fun RF => num_pred_error_history ≤ length (arr RF pred_error_history)) (rf m).
Proof. eapply Forall_impl; [apply (m_rf _ Hm)|]. intros RF [_ _ Hsz _]. by rewrite Hsz. Qed.

Definition array_datum (a : rfarr) : Datum :=
  let size := col_size (nInStore (cfg m)) (nIn (cfg m)) a in
  the (mat_datum (col_rows m size a) (numRFS m) size).

Definition vec_col (f : LWPR_ReceptiveField → double) : Datum := the (vec_datum (rfwr_vec m f) (numRFS m)).

(** Columns 3 to 34 of the row of the model. *)
Definition saved : list Datum :=
  [Int32GetDatum (Z.of_nat (numRFS m));
   vec_col (fun RF => dbl_of_nat (nReg RF)); vec_col (fun RF => d_of_Z (trustworthy RF));
   vec_col (fun RF => d_of_Z (slopeReady RF)); vec_col sum_e2; vec_col beta0] ++
  map array_datum rfwr_arrays ++
  [the (mat_datum (history_data_matrix m) num_query_pattern (hist_cols (nIn (cfg m))));
   the (vec_datum (num_history_data m) num_query_pattern); vec_col SSp;
   the (mat_datum (col_rows m num_pred_error_history pred_error_history) (numRFS m) num_pred_error_history);
   vec_col pred_error_num].

Lemma memcpy_whole (dst src : list double) n : length src = n → length dst = n → memcpy dst src n = Ok src.
Proof.
  intros Hs Hd. unfold memcpy. rewrite Hs, Hd, Nat.leb_refl. cbn [andb]. f_equal. by apply memcpy_full.
Qed.

Lemma memcpy_fresh (src : list double) n : length src = n → memcpy (palloc0 n) src n = Ok src.
Proof. intros Hl. apply memcpy_whole; [done | apply length_replicate]. Qed.

Lemma history_rows : Forall (fun row => length row = hist_cols (nIn (cfg m))) (history_data_matrix m).
Proof.
  eapply Forall_impl; [apply (m_hist_rows _ Hm)|]. intros row Hr. unfold hist_cols, num_history_data_compute_probability_rf in *. lia.
Qed.

Lemma rfwr_history_ok : rfwr_history m (nIn (cfg m)) = Ok (history_data_matrix m, num_history_data m).
Proof.
  unfold rfwr_history. rewrite memcpy_fresh by apply (m_counts _ Hm). cbn [mbind res_bind].
  erewrite for_build; [done | apply (m_hist _ Hm)|]. intros i row acc Hi. rewrite (rd_some _ _ _ Hi). cbn [mbind res_bind].
  rewrite memcpy_fresh; [done|]. exact (Forall_lookup_1 _ _ _ _ history_rows Hi).
Qed.

Lemma vec_col_ok f : vec_datum (rfwr_vec m f) (numRFS m) = Ok (vec_col f) ∧
  get_vector (vec_col f) (palloc0 (numRFS m)) = Ok (rfwr_vec m f, numRFS m).
Proof. apply vec_datum_ok. apply length_map. Qed.

Lemma array_datum_ok a : a ∈ rfwr_arrays →
  let size := col_size (nInStore (cfg m)) (nIn (cfg m)) a in
  mat_datum (col_rows m size a) (numRFS m) size = Ok (array_datum a) ∧
  get_matrix (array_datum a) (replicate (numRFS m) (palloc0 size)) = Ok (col_rows m size a).
Proof.
  intros Ha size. destruct (col_rows_len size a (saved_array a Ha)) as [H1 H2]. by apply mat_datum_ok.
Qed.

Lemma rfwr_columns_ok : rfwr_columns m (nIn (cfg m)) = Ok saved.
Proof.
  unfold rfwr_columns.
  do 5 (rewrite (proj1 (vec_col_ok _)); cbn [mbind res_bind]).
  rewrite (for_build _ _ (map array_datum rfwr_arrays)); [|apply length_map|].
  2:{ intros i d acc Hd. rewrite list_lookup_fmap in Hd. destruct (rfwr_arrays !! i) as [a|] eqn:Ea; [|done].
      simplify_eq/=. rewrite (rd_some _ _ _ Ea). cbn [mbind res_bind]. apply list_elem_of_lookup_2 in Ea.
      rewrite rfwr_rows_ok by (by apply saved_array). cbn [mbind res_bind].
      by rewrite (proj1 (array_datum_ok a Ea)). }
  cbn [mbind res_bind]. rewrite rfwr_history_ok. cbn [mbind res_bind].
  rewrite (proj1 (mat_datum_ok _ _ _ (m_hist _ Hm) history_rows)). cbn [mbind res_bind].
  rewrite (proj1 (vec_datum_ok _ _ (m_counts _ Hm))). cbn [mbind res_bind].
  rewrite (proj1 (vec_col_ok _)). cbn [mbind res_bind].
  rewrite rfwr_rows_ok by apply saved_errors. cbn [mbind res_bind].
  destruct (col_rows_len _ _ saved_errors) as [H1 H2]. rewrite (proj1 (mat_datum_ok _ _ _ H1 H2)). cbn [mbind res_bind].
  by rewrite (proj1 (vec_col_ok _)).
Qed.
End saved.

(** ** Reading a model back *)

(** A C [int]. *)
Definition is_int (z : Z) : Prop := (- 2 ^ 31 ≤ z < 2 ^ 31)%Z.

(** The flags and the direction count are C [int]s. *)
Definition ints_ok (RF : LWPR_ReceptiveField) : Prop :=
  is_int (trustworthy RF) ∧ is_int (slopeReady RF) ∧ is_int (Z.of_nat (nReg RF)).

(** Two receptive fields agree on everything that is stored. *)
Record same_rf (n nInS : nat) (RF RF' : LWPR_ReceptiveField) : Prop := {
  same_nReg : nReg RF' = nReg RF;
  same_trust : trustworthy RF' = trustworthy RF;
  same_slopeReady : slopeReady RF' = slopeReady RF;
  same_sum_e2 : sum_e2 RF' = sum_e2 RF;
  same_beta0 : beta0 RF' = beta0 RF;
  same_SSp : SSp RF' = SSp RF;
  same_errnum : pred_error_num RF' = pred_error_num RF;
  same_errors : arr RF' pred_error_history = arr RF pred_error_history;
  same_arrays : ∀ a, a ∈ rfwr_arrays →
    take (col_size nInS n a) (arr RF' a) = take (col_size nInS n a) (arr RF a)
}.

(** The scalars that no [memcpy] touches. *)
Definition scalars (RF : LWPR_ReceptiveField) :=
  (nReg RF, nRegStore RF, trustworthy RF, slopeReady RF, sum_e2 RF, beta0 RF, SSp RF, pred_error_num RF).

Lemma scalars_set_arr RF a l : scalars (set_arr RF a l) = scalars RF.
Proof. by destruct RF. Qed.

(** The [memcpy]s into a fresh receptive field. *)
Lemma load_arrays_ok (f : rfarr → list double) (size : rfarr → nat) i (mats : list (rfarr * list (list double))) RF :
  NoDup mats.*1 →
  (∀ a mat, (a, mat) ∈ mats → mat !! i = Some (f a) ∧ length (f a) = size a ∧ size a ≤ length (arr RF a)) →
  ensures (foreach mats (fun '(a, mat) RF => rw ← rd mat i; memcpy_to RF a rw (size a)) RF) (fun RF' =>
    scalars RF' = scalars RF ∧ (∀ a, length (arr RF' a) = length (arr RF a)) ∧
    (∀ a, a ∉ mats.*1 → arr RF' a = arr RF a) ∧
    ∀ a, a ∈ mats.*1 → take (size a) (arr RF' a) = f a).
Proof.
  intros Hnd Hin. eapply (ensures_foreach_prefix (fun pre RF' =>
    scalars RF' = scalars RF ∧ (∀ a, length (arr RF' a) = length (arr RF a)) ∧
    (∀ a, a ∉ pre.*1 → arr RF' a = arr RF a) ∧ ∀ a, a ∈ pre.*1 → take (size a) (arr RF' a) = f a)).
  { split_and!; set_solver. }
  intros pre [a mat] rest RF1 E (Hsc & Hlen & Hkeep & Hdone).
  destruct (Hin a mat) as (Hrow & Hfl & Hsz); [subst mats; set_solver|].
  rewrite (rd_some _ _ _ Hrow). cbn [mbind res_bind].
  apply ensures_memcpy_to; [lia | rewrite Hlen; lia|]. intros RF2 -> Hf.
  assert (Ha : a ∉ pre.*1).
  { rewrite E, fmap_app in Hnd. apply NoDup_app in Hnd as (_ & Hd & _). intros Hpre. apply (Hd a Hpre). set_solver. }
  split_and!.
  - by rewrite scalars_set_arr.
  - intros x. rewrite (fr_len _ _ _ Hf). apply Hlen.
  - intros x Hx. rewrite fmap_app in Hx. rewrite arr_set_arr, decide_False by set_solver. apply Hkeep. set_solver.
  - intros x Hx. rewrite fmap_app, elem_of_app in Hx. rewrite arr_set_arr. case_decide as Ex.
    + subst x. rewrite take_app_le by (rewrite length_take; lia). rewrite take_take, Nat.min_id. by apply take_ge; lia.
    + apply Hdone. set_solver.
Qed.

Lemma replace_last_ok m np l RF RF' :
  replace_last (set_rf (set_numPointers m np) (l ++ [RF])) RF' = set_rf (set_numPointers m np) (l ++ [RF']).
Proof.
  destruct m. unfold replace_last, numRFS. simpl. f_equal. rewrite length_app. simpl.
  rewrite insert_app_r_alt by lia. replace (length l + 1 - 1 - length l) with 0 by lia. done.
Qed.

Section load.
Context `{Palloc} (m : LWPR_Model) (Hm : model_ok m).
Let n := nIn (cfg m).
Let nInS := nInStore (cfg m).

Definition saved_vectors : rfwr_vectors :=
  mkVectors (rfwr_vec m (fun RF => dbl_of_nat (nReg RF))) (rfwr_vec m (fun RF => d_of_Z (trustworthy RF)))
    (rfwr_vec m (fun RF => d_of_Z (slopeReady RF))) (rfwr_vec m sum_e2) (rfwr_vec m beta0) (rfwr_vec m SSp)
    (rfwr_vec m pred_error_num) (col_rows m num_pred_error_history pred_error_history).

Definition saved_mats : list (rfarr * list (list double)) :=
  map (fun a => (a, col_rows m (col_size nInS n a) a)) rfwr_arrays.

Lemma rd_vec f i RF : rf m !! i = Some RF → rd (rfwr_vec m f) i = Ok (f RF).
Proof. intros E. apply rd_some. unfold rfwr_vec. by rewrite list_lookup_fmap, E. Qed.

Lemma load_rf_ok i RF m0 :
  rf m !! i = Some RF → ints_ok RF → nIn (cfg m0) = n → nInStore (cfg m0) = nInS →
  ensures (load_rf saved_vectors saved_mats nInS n i m0) (fun m' => ∃ RF' np,
    m' = set_rf (set_numPointers m0 np) (rf m0 ++ [RF']) ∧ numRFS m0 < np ∧
    same_rf n nInS RF RF' ∧ rf_ok n nInS RF').
Proof.
  intros Hi (Ht & Hs & Hn) E1 E2. unfold load_rf, saved_vectors. cbn [v_nReg v_trust v_slope v_sum_e2 v_beta0 v_ssp v_errnum v_errs].
  pose proof (Forall_lookup_1 _ _ _ _ (m_rf _ Hm) Hi) as HRF. fold n nInS in HRF.
  pose proof (cfg_nIn _ (m_cfg _ Hm)) as Hn1. fold n in Hn1.
  rewrite !(rd_vec _ _ _ Hi). cbn [mbind res_bind]. unfold dbl_of_nat. rewrite (d_to_int_of_Z _ Hn). cbn [mbind res_bind].
  rewrite Nat2Z.id. eapply ensures_bind_mono; [apply add_rf_ok|].
  intros [m1 RF0] ((np & -> & Hnp & _) & _ & Hnew). destruct (rf_reg _ _ _ HRF) as [Hr1 Hr2].
  destruct Hnew as (N1 & N2 & N3 & N4 & Harr); [lia|]. rewrite E1, E2 in *. rewrite Nat.max_r in N2 by lia.
  cbn [mbind res_bind]. rewrite (d_to_int_of_Z _ Ht), (d_to_int_of_Z _ Hs). cbn [mbind res_bind].
  set (RF1 := set_SSp _ _).
  assert (Hlen1 : ∀ a, length (arr RF1 a) = rf_size n nInS n a).
  { intros a. transitivity (length (arr RF0 a)); [by destruct RF0|]. rewrite Harr, N2. apply length_replicate. }
  eapply ensures_bind_mono.
  { apply (load_arrays_ok (fun a => take (col_size nInS n a) (arr RF a)) (col_size nInS n)).
    - by apply (bool_decide_eq_true_1 (NoDup rfwr_arrays)).
    - intros a mat Hin. unfold saved_mats in Hin. apply list_elem_of_fmap in Hin as (x & [= -> ->] & Hx).
      pose proof (col_size_le m Hm x RF HRF Hx) as Hle. fold n nInS in Hle. split_and!.
      + unfold col_rows. by rewrite list_lookup_fmap, Hi.
      + rewrite length_take. lia.
      + rewrite Hlen1. destruct x; cbn [col_size rf_size]; try lia;
          try (pose proof (nInS_le n); pose proof (cfg_nInS _ (m_cfg _ Hm)) as Hc; fold n nInS in Hc; lia);
          exfalso; revert Hx; unfold rfwr_arrays; set_solver. }
  intros RF2 (Hsc & Hlen2 & Hkeep & Hdone).
  assert (Erow : rd (col_rows m num_pred_error_history pred_error_history) i = Ok (arr RF pred_error_history)).
  { apply rd_some. unfold col_rows. rewrite list_lookup_fmap, Hi. simpl. f_equal. apply take_ge.
    rewrite (rf_sizes _ _ _ HRF). done. }
  rewrite Erow. cbn [mbind res_bind].
  apply ensures_bind, ensures_memcpy_to; [by rewrite (rf_sizes _ _ _ HRF) | by rewrite Hlen2, Hlen1|].
  intros RF3 E3 Hf3. cbn [ensures].
  assert (Hsc1 : scalars RF1 = (nReg RF, n, trustworthy RF, slopeReady RF, sum_e2 RF, beta0 RF, SSp RF, d0)).
  { subst RF1. destruct RF0. simpl in *. by subst. }
  assert (Hsc3 : scalars RF3 = scalars RF1) by (rewrite E3, scalars_set_arr; done).
  rewrite Hsc1 in Hsc3. exists (set_pred_error_num RF3 (pred_error_num RF)), np.
  rewrite replace_last_ok.
  assert (Harr3 : ∀ a, arr (set_pred_error_num RF3 (pred_error_num RF)) a = arr RF3 a) by (by destruct RF3).
  assert (Herr : arr RF3 pred_error_history = arr RF pred_error_history).
  { rewrite E3, arr_set_arr, decide_True by done. apply memcpy_full; [by rewrite (rf_sizes _ _ _ HRF) | by rewrite Hlen2, Hlen1]. }
  split_and!; [done | done | |].
  - destruct RF3. simpl in *. injection Hsc3 as -> -> -> -> -> -> -> ->. split; simpl; try done.
    intros a Ha. rewrite <- (Hdone a Ha).
    by rewrite (fr_arr _ _ _ Hf3) by (revert Ha; unfold rfwr_arrays; set_solver).
  - split.
    + destruct RF3. simpl in *. by injection Hsc3 as -> -> -> -> -> -> -> ->.
    + destruct RF3. simpl in *. injection Hsc3 as -> -> -> -> -> -> -> ->. done.
    + intros a. rewrite Harr3, (fr_len _ _ _ Hf3), Hlen2, Hlen1. f_equal. destruct RF3. simpl in *.
      by injection Hsc3 as -> -> -> -> -> -> -> ->.
    + destruct RF3. simpl. apply (rf_errors _ _ _ HRF).
Qed.
End load.

(** Two models agree on everything that is stored. *)
Definition same_model (m m' : LWPR_Model) : Prop :=
  Forall2 (same_rf (nIn (cfg m)) (nInStore (cfg m))) (rf m) (rf m') ∧
  history_data_matrix m' = history_data_matrix m ∧ num_history_data m' = num_history_data m.

Section read.
Context `{Palloc} (m m0 : LWPR_Model) (Hm : model_ok m) (Hm0 : model_ok m0).
Context (Hints : Forall ints_ok (rf m)) (Hcf : nIn (cfg m0) = nIn (cfg m)) (Hempty : rf m0 = []).
Let n := nIn (cfg m).
Let nInS := nInStore (cfg m).

Lemma same_store : nInStore (cfg m0) = nInStore (cfg m).
Proof. by rewrite (cfg_nInS _ (m_cfg _ Hm0)), (cfg_nInS _ (m_cfg _ Hm)), Hcf. Qed.

Lemma load_loop_ok :
  ensures (for_range 0 (numRFS m) (load_rf (saved_vectors m) (saved_mats m) nInS n) m0) (fun m' => ∃ l np,
    m' = set_rf (set_numPointers m0 np) l ∧ length l ≤ np ∧
    Forall2 (same_rf n nInS) (rf m) l ∧ Forall (rf_ok n nInS) l).
Proof.
  eapply ensures_mono.
  - apply (ensures_for (fun i m' => ∃ l np, m' = set_rf (set_numPointers m0 np) l ∧ length l ≤ np ∧
      Forall2 (same_rf n nInS) (take i (rf m)) l ∧ Forall (rf_ok n nInS) l)); [lia| |].
    + exists [], (numPointers m0). split_and!; [|simpl; lia | constructor | constructor].
      clear -Hempty. destruct m0. simpl in *. by subst.
    + intros i m' Hi (l & np & -> & Hnp & Hsame & Hok). unfold numRFS in Hi.
      destruct (lookup_lt_is_Some_2 (rf m) i) as [RF HRF]; [lia|].
      eapply ensures_mono; [apply (load_rf_ok m Hm i RF)|].
      * done.
      * exact (Forall_lookup_1 _ _ _ _ Hints HRF).
      * clear -Hcf. by destruct m0.
      * pose proof same_store as HS. clear -HS. by destruct m0.
      * intros m'' (RF' & np' & -> & Hnp' & HRF' & Hok'). exists (l ++ [RF']), np'. split_and!.
        -- clear. by destruct m0.
        -- assert (E : numRFS (set_rf (set_numPointers m0 np) l) = length l) by (clear; by destruct m0).
           rewrite E in Hnp'. rewrite length_app. simpl. lia.
        -- rewrite (take_S_r _ _ RF) by done. apply Forall2_app; [done|]. by constructor.
        -- apply Forall_app. split; [done|]. by constructor.
  - intros m' (l & np & H'). unfold numRFS in H'. rewrite firstn_all in H'. eauto.
Qed.

Lemma rfwr_deform_ok (vs : list Datum) :
  length vs = 6 → ∀ x0 x1 x2 tl,
  rfwr_deform ([x0; x1; x2] ++ vs ++ map (array_datum m) rfwr_arrays ++ tl) (rfwr_blocks (numRFS m) nInS n) = Ok (saved_mats m).
Proof.
  intros Hl x0 x1 x2 tl. apply for_build; [unfold saved_mats, rfwr_blocks; by rewrite !length_map|].
  intros i [a rows] acc Hi. unfold saved_mats in Hi. rewrite list_lookup_fmap in Hi.
  destruct (rfwr_arrays !! i) as [a'|] eqn:Ea; [|done]. simpl in Hi. injection Hi as -> <-.
  unfold rfwr_blocks. rewrite (rd_some _ i (a, replicate (numRFS m) (palloc0 (col_size nInS n a)))).
  2:{ by rewrite list_lookup_fmap, Ea. }
  cbn [mbind res_bind]. rewrite (rd_some _ (9 + i) (array_datum m a)).
  2:{ change (([x0; x1; x2] ++ vs ++ map (array_datum m) rfwr_arrays ++ tl) !! (9 + i))
        with ((vs ++ map (array_datum m) rfwr_arrays ++ tl) !! (6 + i)).
      rewrite lookup_app_r by lia. replace (6 + i - length vs) with i by lia.
      pose proof (lookup_lt_Some _ _ _ Ea). rewrite lookup_app_l by (by rewrite length_map).
      by rewrite list_lookup_fmap, Ea. }
  cbn [mbind res_bind]. apply list_elem_of_lookup_2 in Ea. destruct (array_datum_ok m Hm a Ea) as [_ E].
  fold n nInS in E. by rewrite E.
Qed.

Lemma rfwr_read_ok x0 x1 x2 fss :
  ensures (rfwr_read ([x0; x1; x2] ++ saved m) fss n m0) (fun m' =>
    same_model m m' ∧ fss_hash m' = fss ∧ model_ok m' ∧ cfg m' = cfg m0).
Proof.
  set (vs := [x0; x1; x2] ++ saved m).
  assert (R3 : rd vs 3 = Ok (Int32GetDatum (Z.of_nat (numRFS m)))) by reflexivity.
  assert (R4 : rd vs 4 = Ok (vec_col m (fun RF => dbl_of_nat (nReg RF)))) by reflexivity.
  assert (R5 : rd vs 5 = Ok (vec_col m (fun RF => d_of_Z (trustworthy RF)))) by reflexivity.
  assert (R6 : rd vs 6 = Ok (vec_col m (fun RF => d_of_Z (slopeReady RF)))) by reflexivity.
  assert (R7 : rd vs 7 = Ok (vec_col m sum_e2)) by reflexivity.
  assert (R8 : rd vs 8 = Ok (vec_col m beta0)) by reflexivity.
  assert (R30 : rd vs 30 = Ok (the (mat_datum (history_data_matrix m) num_query_pattern (hist_cols n)))) by reflexivity.
  assert (R31 : rd vs 31 = Ok (the (vec_datum (num_history_data m) num_query_pattern))) by reflexivity.
  assert (R32 : rd vs 32 = Ok (vec_col m SSp)) by reflexivity.
  assert (R33 : rd vs 33 = Ok (the (mat_datum (col_rows m num_pred_error_history pred_error_history) (numRFS m)
    num_pred_error_history))) by reflexivity.
  assert (R34 : rd vs 34 = Ok (vec_col m pred_error_num)) by reflexivity.
  assert (Rmats : rfwr_deform vs (rfwr_blocks (numRFS m) nInS n) = Ok (saved_mats m)) by (by apply rfwr_deform_ok).
  clearbody vs. destruct (col_rows_len m _ _ (saved_errors m Hm)) as [He1 He2].
  unfold rfwr_read. rewrite same_store. fold nInS. cbv zeta.
  rewrite R3. cbn [mbind res_bind DatumGetInt32]. rewrite Nat2Z.id.
  rewrite R4. cbn [mbind res_bind]. rewrite (proj2 (vec_col_ok m _)). cbn [mbind res_bind].
  rewrite R5. cbn [mbind res_bind]. rewrite (proj2 (vec_col_ok m _)). cbn [mbind res_bind].
  rewrite R6. cbn [mbind res_bind]. rewrite (proj2 (vec_col_ok m _)). cbn [mbind res_bind].
  rewrite R7. cbn [mbind res_bind]. rewrite (proj2 (vec_col_ok m _)). cbn [mbind res_bind].
  rewrite R8. cbn [mbind res_bind]. rewrite (proj2 (vec_col_ok m _)). cbn [mbind res_bind].
  rewrite Rmats. cbn [mbind res_bind].
  pose proof (proj2 (mat_datum_ok _ _ _ (m_hist _ Hm) (history_rows m Hm))) as Hh. fold n in Hh.
  rewrite R30. cbn [mbind res_bind]. rewrite Hh. cbn [mbind res_bind].
  rewrite R31. cbn [mbind res_bind]. rewrite (proj2 (vec_datum_ok _ _ (m_counts _ Hm))). cbn [mbind res_bind].
  rewrite R32. cbn [mbind res_bind]. rewrite (proj2 (vec_col_ok m _)). cbn [mbind res_bind].
  rewrite R33. cbn [mbind res_bind]. rewrite (proj2 (mat_datum_ok _ _ _ He1 He2)). cbn [mbind res_bind].
  rewrite R34. cbn [mbind res_bind]. rewrite (proj2 (vec_col_ok m _)). cbn [mbind res_bind].
  eapply ensures_bind_mono; [apply load_loop_ok|]. intros m1 (l & np & -> & Hnp & Hsame & Hok).
  assert (F1 : num_history_data (set_rf (set_numPointers m0 np) l) = num_history_data m0) by (clear; by destruct m0).
  assert (F2 : history_data_matrix (set_rf (set_numPointers m0 np) l) = history_data_matrix m0) by (clear; by destruct m0).
  rewrite F1, F2. rewrite (memcpy_whole (num_history_data m0) (num_history_data m)) by (apply m_counts; done).
  cbn [mbind res_bind].
  eapply ensures_bind_mono.
  { apply (ensures_for (fun i hm => hm = take i (history_data_matrix m) ++ drop i (history_data_matrix m0))); [lia | done|].
    intros i hm Hi ->. destruct (lookup_lt_is_Some_2 (history_data_matrix m) i) as [src Hsrc]; [rewrite (m_hist _ Hm); lia|].
    destruct (lookup_lt_is_Some_2 (history_data_matrix m0) i) as [dst Hdst]; [rewrite (m_hist _ Hm0); lia|].
    pose proof (Forall_lookup_1 _ _ _ _ (history_rows m Hm) Hsrc) as Hls.
    pose proof (Forall_lookup_1 _ _ _ _ (history_rows m0 Hm0) Hdst) as Hld. rewrite Hcf in Hld. fold n in Hls, Hld. cbv beta in Hls, Hld.
    assert (Hlt : length (take i (history_data_matrix m)) = i) by (rewrite length_take, (m_hist _ Hm); lia).
    rewrite (rd_some _ _ _ Hsrc). cbn [mbind res_bind]. rewrite (rd_some _ i dst).
    2:{ rewrite lookup_app_r by lia. rewrite Hlt, Nat.sub_diag, lookup_drop. by rewrite Nat.add_0_r. }
    cbn [mbind res_bind]. rewrite memcpy_whole by done. cbn [mbind res_bind].
    apply ensures_wr; [rewrite length_app, length_drop, (m_hist _ Hm0); lia|].
    rewrite insert_app_r_alt, Hlt, Nat.sub_diag by lia. rewrite (drop_S _ dst i) by done. simpl.
    by rewrite (take_S_r _ i src), <- (assoc_L (++)). }
  intros hm ->. rewrite take_ge, drop_ge, app_nil_r by (rewrite ?(m_hist _ Hm), ?(m_hist _ Hm0); lia).
  cbn [ensures]. set (m' := set_history _ _ _).
  assert (C : cfg m' = cfg m0 ∧ rf m' = l ∧ history_data_matrix m' = history_data_matrix m ∧
    num_history_data m' = num_history_data m ∧ fss_hash m' = fss ∧ numPointers m' = np ∧ ws m' = ws m0 ∧ xn m' = xn m0).
  { subst m'. clear. by destruct m0. }
  destruct C as (C1 & C2 & C3 & C4 & C5 & C6 & C7 & C8). clearbody m'.
  split_and!; [|done| |done].
  - split_and!; [by rewrite C2 | done | done].
  - split; rewrite ?C1, ?C3, ?C4, ?C7, ?C8, ?same_store, ?Hcf.
    + apply (m_cfg _ Hm0).
    + pose proof (m_ws _ Hm0) as Hw. by rewrite same_store, Hcf in Hw.
    + by rewrite C2.
    + unfold numRFS. by rewrite C2, C6.
    + pose proof (m_len_xn _ Hm0) as Hx. by rewrite same_store in Hx.
    + apply (m_hist _ Hm).
    + apply (m_hist_rows _ Hm).
    + apply (m_counts _ Hm).
    + apply (m_counts_le _ Hm).
Qed.
End read.

Section persist.
Context `{Cluster}.

Lemma update_fss_rfwr_ok fss m st :
  let keys := [fspace_hash (ctx st); fss] in
  let extra := [Int32GetDatum (Z.of_nat (nIn (cfg m)))] in
  model_ok m → available aqo_data_lwpr → table_ok st aqo_data_lwpr → write_ok st aqo_data_lwpr keys UNIQUE_CHECK_NO →
  (∀ t0, row_data st aqo_data_lwpr keys = Some t0 → t0 !! 2 = Some (Some (Int32GetDatum (Z.of_nat (nIn (cfg m)))))) →
  ∃ st', update_fss_rfwr fss (nIn (cfg m)) m st = (Ok true, st') ∧
    wrote aqo_data_lwpr keys ((Int32GetDatum <$> keys) ++ extra ++ saved m) st st'.
Proof.
  intros keys extra Hm [Hv Hr] Ht Hw Hcol. unfold update_fss_rfwr.
  rewrite (pg_lift_ok _ _ _ _ (rfwr_columns_ok m Hm)). pg_prologue Hv Hr. fold keys.
  set (st1 := set_opened st (opened st + 3)).
  set (chk := match find_row st aqo_data_lwpr keys with None => UNIQUE_CHECK_YES | Some _ => UNIQUE_CHECK_NO end).
  destruct (upsert_ok aqo_data_lwpr keys extra (saved m) 3 chk st1) as (st2 & E & Hput & Ht2 & Ho & Hc); try done.
  { intros tid ds Hf. specialize (Hcol (Some <$> ds)). change (find_row st1) with (find_row st) in Hf.
    unfold row_data in Hcol. rewrite Hf in Hcol. specialize (Hcol eq_refl).
    destruct ds as [|? [|? [|x ds]]]; try done. simpl in Hcol. by injection Hcol as ->. }
  { subst chk. unfold write_ok in *. change (find_row st1) with (find_row st). change (cid st1) with (cid st).
    destruct (find_row st aqo_data_lwpr keys); [|by left]. destruct Hw as [?|[? _]]; [done|]. right. auto. }
  eapply write_finish; [|exact Hput | done | done | done]. rewrite <- E. clear E. subst chk.
  change (find_row st1) with (find_row st). by destruct (find_row st aqo_data_lwpr keys) as [[tid t0]|].
Qed.

(** The row of a model: its key, the number of features, the model. *)
Definition model_row (fspace fss : Z) (m : LWPR_Model) : list Datum :=
  (Int32GetDatum <$> [fspace; fss]) ++ [Int32GetDatum (Z.of_nat (nIn (cfg m)))] ++ saved m.

Lemma load_stored `{Palloc} fspace fss m m0 st :
  model_ok m → Forall ints_ok (rf m) → model_ok m0 → nIn (cfg m0) = nIn (cfg m) → rf m0 = [] → available aqo_data_lwpr →
  row_data st aqo_data_lwpr [fspace_hash (ctx st); fss] = Some (Some <$> model_row fspace fss m) →
  ∃ m', load_fss_rfwr fss (nIn (cfg m)) m0 st = (Ok (true, m'), st) ∧
    same_model m m' ∧ fss_hash m' = fss ∧ model_ok m' ∧ cfg m' = cfg m0.
Proof.
  intros Hm Hints Hm0 Hcf Hempty [Hv Hr] Hrow.
  destruct (ensures_inv _ _ (rfwr_read_ok m m0 Hm Hm0 Hints Hcf Hempty (Int32GetDatum fspace)
    (Int32GetDatum fss) (Int32GetDatum (Z.of_nat (nIn (cfg m)))) fss)) as (m' & Eread & Hspec).
  exists m'. split; [|done]. unfold load_fss_rfwr. pg_prologue Hv Hr.
  destruct (row_data_found _ _ _ _ Hrow) as (i & ->).
  apply (read_finish aqo_data_lwpr). unfold pg_lift. f_equal.
  rewrite (heap_deform_ok _ 35 (datums 35)) by done. unfold model_row.
  cbn [mbind res_bind rd lookup list_lookup app fmap list_fmap DatumGetInt32]. rewrite Z.eqb_refl.
  change (Int32GetDatum fspace :: Int32GetDatum fss :: Int32GetDatum (Z.of_nat (nIn (cfg m))) :: saved m)
    with ([Int32GetDatum fspace; Int32GetDatum fss; Int32GetDatum (Z.of_nat (nIn (cfg m)))] ++ saved m).
  by rewrite Eread.
Qed.

Lemma load_absent `{Palloc} fss n m0 st :
  available aqo_data_lwpr → row_data st aqo_data_lwpr [fspace_hash (ctx st); fss] = None →
  load_fss_rfwr fss n m0 st = (Ok (false, set_fss_hash m0 fss), st).
Proof.
  intros [Hv Hr] Hrow. unfold load_fss_rfwr. pg_prologue Hv Hr. unfold row_data in Hrow.
  destruct (find_row _ _ _); [done|]. by apply (read_finish aqo_data_lwpr).
Qed.

(** A row that another session has just updated is left to it. *)
Lemma upsert_lost r keys k cols values chk tid t st :
  table_ok st r → find_row st r keys = Some (tid, t) → natts r = k + length cols →
  heap_update_result (cid st) = HeapTupleUpdated ∨ heap_update_result (cid st) = HeapTupleBeingUpdated →
  upsert r (find_row st r keys) k values cols chk st = (Ok tt, st).
Proof.
  intros [_ Hrows] Hf Hn Hlost. rewrite Hf. unfold upsert. apply find_row_lookup in Hf as [Ht _].
  destruct (Hrows _ _ Ht) as (old & -> & Hlo).
  rewrite (pg_lift_ok _ _ _ (old, falses (natts r))) by (apply heap_deform_ok; [done | apply length_replicate]). cbv zeta.
  change (falses (natts r)) with (replicate (natts r) false).
  erewrite (pg_lift_ok (heap_modify_tuple _ _ _ _)); [by apply try_update_lost|].
  apply heap_modify_ok; [done | rewrite length_app, length_take; lia | unfold falses; rewrite length_app, !length_replicate; lia].
Qed.

Lemma lost_finish r (body : PG unit) st :
  body (set_opened st (opened st + 3)) = (Ok tt, set_opened st (opened st + 3)) →
  (body;; close_scan r;; CommandCounterIncrement;; mret true) (set_opened st (opened st + 3)) = (Ok true, set_cid st (S (cid st))).
Proof.
  intros Hb. rewrite (pg_bind_ok _ _ _ _ _ Hb), (pg_bind_ok _ _ _ _ _ (close_scan_ok r _)). by rewrite set_opened_back.
Qed.

Lemma update_fss_rfwr_lost fss m tid t st :
  model_ok m → available aqo_data_lwpr → table_ok st aqo_data_lwpr →
  find_row st aqo_data_lwpr [fspace_hash (ctx st); fss] = Some (tid, t) →
  heap_update_result (cid st) = HeapTupleUpdated ∨ heap_update_result (cid st) = HeapTupleBeingUpdated →
  update_fss_rfwr fss (nIn (cfg m)) m st = (Ok true, set_cid st (S (cid st))).
Proof.
  intros Hm [Hv Hr] Ht Hf Hlost. unfold update_fss_rfwr.
  rewrite (pg_lift_ok _ _ _ _ (rfwr_columns_ok m Hm)). pg_prologue Hv Hr. apply lost_finish.
  set (st1 := set_opened st (opened st + 3)).
  pose proof (upsert_lost aqo_data_lwpr [fspace_hash (ctx st); fss] 3 (saved m) [] UNIQUE_CHECK_NO tid t st1 Ht Hf eq_refl Hlost) as E.
  rewrite <- E. change (find_row st1) with (find_row st). by rewrite Hf.
Qed.

(** The same row with another history. *)
Lemma saved_set_history m hist counts :
  saved (set_history m hist counts) =
  <[28 := the (vec_datum counts num_query_pattern)]> (<[27 := the (mat_datum hist num_query_pattern (hist_cols (nIn (cfg m))))]> (saved m)).
Proof. by destruct m. Qed.

Lemma update_fss_rfwr2_ok fss m m2 st :
  let keys := [fspace_hash (ctx st); fss] in
  let m' := set_history m (history_data_matrix m2) (num_history_data m2) in
  model_ok m2 → nIn (cfg m2) = nIn (cfg m) → available aqo_data_lwpr → table_ok st aqo_data_lwpr →
  row_data st aqo_data_lwpr keys = Some (Some <$> model_row (fspace_hash (ctx st)) fss m) →
  (heap_update_result (cid st) = HeapTupleMayBeUpdated →
   ∃ st', update_fss_rfwr2 fss (nIn (cfg m)) m2 st = (Ok true, st') ∧
     wrote aqo_data_lwpr keys (model_row (fspace_hash (ctx st)) fss m') st st') ∧
  (heap_update_result (cid st) = HeapTupleUpdated ∨ heap_update_result (cid st) = HeapTupleBeingUpdated →
   update_fss_rfwr2 fss (nIn (cfg m)) m2 st = (Ok true, set_cid st (S (cid st)))).
Proof.
  intros keys m' Hm2 En Hav Ht Hrow. pose proof Hav as [Hv Hr]. destruct (row_data_found _ _ _ _ Hrow) as (tid & Hf).
  set (st1 := set_opened st (opened st + 3)).
  assert (Ebody : update_fss_rfwr2 fss (nIn (cfg m)) m2 st =
    (upsert aqo_data_lwpr (find_row st1 aqo_data_lwpr keys) 3 (model_row (fspace_hash (ctx st)) fss m') (saved m') UNIQUE_CHECK_NO;;
     close_scan aqo_data_lwpr;; CommandCounterIncrement;; mret true) st1).
  { unfold update_fss_rfwr2. pose proof (rfwr_history_ok m2 Hm2) as Eh. rewrite En in Eh.
    rewrite (pg_lift_ok _ _ _ _ Eh). pg_prologue Hv Hr. fold keys st1. change (find_row st1) with (find_row st). rewrite Hf.
    pose proof (history_rows m2 Hm2) as Hrows. rewrite En in Hrows. set (row := model_row (fspace_hash (ctx st)) fss m) in *.
    set (c30 := the (mat_datum (history_data_matrix m2) num_query_pattern (hist_cols (nIn (cfg m))))).
    set (c31 := the (vec_datum (num_history_data m2) num_query_pattern)).
    set (vals := <[31 := c31]> (<[30 := c30]> row)).
    assert (Edef : heap_deform_tuple (Some <$> row) (datums 35) (falses 35) = Ok (row, falses 35)) by (by apply heap_deform_ok).
    assert (Emod : heap_modify_tuple (Some <$> row) vals (falses 35) (falses 3 ++ replicate 32 true) =
      Ok (Some <$> pick (falses 3 ++ replicate 32 true) vals row)) by (by apply heap_modify_ok).
    assert (Hlen : length row = 35) by reflexivity.
    assert (W30 : wr row 30 c30 = Ok (<[30 := c30]> row)) by (apply wr_lt; lia).
    assert (W31 : wr (<[30 := c30]> row) 31 c31 = Ok vals) by (apply wr_lt; rewrite length_insert; lia).
    assert (Evals : take 3 row ++ saved m' = vals) by (unfold m'; rewrite saved_set_history; reflexivity).
    rewrite (pg_lift_ok _ _ _ _ Edef). rewrite (pg_lift_ok _ _ _ _ (proj1 (mat_datum_ok _ _ _ (m_hist _ Hm2) Hrows))). fold c30.
    rewrite (pg_lift_ok _ _ _ _ W30).
    rewrite (pg_lift_ok _ _ _ _ (proj1 (vec_datum_ok _ _ (m_counts _ Hm2)))). fold c31.
    rewrite (pg_lift_ok _ _ _ _ W31), (pg_lift_ok _ _ _ _ Emod).
    assert (Eup : upsert aqo_data_lwpr (Some (tid, Some <$> row)) 3 (model_row (fspace_hash (ctx st)) fss m') (saved m') UNIQUE_CHECK_NO st1 =
      try_update aqo_data_lwpr tid (Some <$> pick (falses 3 ++ replicate 32 true) vals row) vals UNIQUE_CHECK_NO st1).
    { unfold upsert. change (natts aqo_data_lwpr) with 35. rewrite (pg_lift_ok _ _ _ _ Edef). cbv zeta. rewrite Evals.
      change (35 - 3) with 32. by rewrite (pg_lift_ok _ _ _ _ Emod). }
    apply pg_bind_ext. symmetry. exact Eup. }
  rewrite Ebody. split.
  - intros Hres. destruct (upsert_ok aqo_data_lwpr keys [Int32GetDatum (Z.of_nat (nIn (cfg m')))] (saved m') 3 UNIQUE_CHECK_NO st1)
      as (st2 & E & Hput & Ht2 & Ho & Hc); [done | done | done | done | | right; auto |].
    { intros tid' ds Hf'. change (find_row st1) with (find_row st) in Hf'. rewrite Hf in Hf'.
      assert (Eds : Some <$> ds = Some <$> model_row (fspace_hash (ctx st)) fss m) by congruence.
      apply (inj (fmap Some)) in Eds as ->. unfold m'. by destruct m. }
    eapply write_finish; [exact E | exact Hput | done | done | done].
  - intros Hlost. apply lost_finish. by apply (upsert_lost aqo_data_lwpr keys 3 (saved m') _ UNIQUE_CHECK_NO tid _ st1 Ht Hf).
Qed.

(** C27. LWPR models survive the database: a model stored by [update_fss_rfwr]
    and loaded by [load_fss_rfwr] into a fresh model has the same receptive
    fields in the same order, with the same directions, flags, error history and
    the same contents of all 21 stored arrays, and the same query history; the
    loaded model satisfies the model invariant, and all relations are closed. *)
Theorem model_roundtrip `{Palloc} fss m m0 st :
  let keys := [fspace_hash (ctx st); fss] in
  model_ok m → Forall ints_ok (rf m) → model_ok m0 → nIn (cfg m0) = nIn (cfg m) → rf m0 = [] →
  available aqo_data_lwpr → table_ok st aqo_data_lwpr → write_ok st aqo_data_lwpr keys UNIQUE_CHECK_NO →
  (∀ t0, row_data st aqo_data_lwpr keys = Some t0 → t0 !! 2 = Some (Some (Int32GetDatum (Z.of_nat (nIn (cfg m)))))) →
  pg_ensures (update_fss_rfwr fss (nIn (cfg m)) m;; load_fss_rfwr fss (nIn (cfg m)) m0) st (fun '(found, m') st' =>
    found = true ∧ same_model m m' ∧ fss_hash m' = fss ∧ model_ok m' ∧
    table_ok st' aqo_data_lwpr ∧ opened st' = opened st).
Proof.
  intros keys Hm Hints Hm0 Hcf Hempty Hav Ht Hw Hcol.
  destruct (update_fss_rfwr_ok fss m st Hm Hav Ht Hw Hcol) as (st' & E & Hput & Ht' & Ho & _).
  unfold pg_ensures. rewrite (pg_bind_ok _ _ _ _ _ E).
  destruct (load_stored (fspace_hash (ctx st)) fss m m0 st' Hm Hints Hm0 Hcf Hempty Hav) as (m' & Eload & ? & ? & ? & _).
  { rewrite (put_ctx _ _ _ _ _ Hput). exact (put_found _ _ _ _ _ Hput). }
  by rewrite Eload.
Qed.

(** [update_fss_rfwr2] with no row to update reports failure and leaves the
    heap, the index and the scan open. *)
Theorem update_fss_rfwr2_leak fss m st :
  model_ok m → available aqo_data_lwpr → row_data st aqo_data_lwpr [fspace_hash (ctx st); fss] = None →
  update_fss_rfwr2 fss (nIn (cfg m)) m st = (Ok false, set_opened st (opened st + 3)).
Proof.
  intros Hm [Hv Hr] Hrow. unfold update_fss_rfwr2. rewrite (pg_lift_ok _ _ _ _ (rfwr_history_ok m Hm)). pg_prologue Hv Hr.
  unfold row_data in Hrow. by destruct (find_row st aqo_data_lwpr _).
Qed.
End persist.

(** ** Concrete inputs *)

(** A model of one input, as [lwpr_init_model] makes it, without and with a
    receptive field. *)
Definition sample_fresh : LWPR_Model :=
  match lwpr_init_model false true zero_config 1 with Ok m => m | Err _ => sample_model end.

Definition sample_rf : LWPR_ReceptiveField :=
  match @init_rf_fields sample_libm true false d0 sample_fresh None [d_of_Z (-2)] (d_of_Z 3) with
  | Ok RF => RF | Err _ => zero_rf end.

Definition sample_trained : LWPR_Model := set_rf sample_fresh [sample_rf].

Lemma sample_fresh_ok : model_ok sample_fresh ∧ nIn (cfg sample_fresh) = 1 ∧ rf sample_fresh = [].
Proof.
  pose proof (init_model_ok false true zero_config 1 ltac:(lia)) as Hi. unfold sample_fresh.
  destruct (lwpr_init_model false true zero_config 1); [|done]. destruct Hi as (? & ? & ? & _). done.
Qed.

Lemma sample_rf_ok : rf_ok (nIn (cfg sample_fresh)) (nInStore (cfg sample_fresh)) sample_rf ∧ ints_ok sample_rf.
Proof.
  destruct sample_fresh_ok as (Hm & Hn & _).
  assert (Hx : nIn (cfg sample_fresh) ≤ length [d_of_Z (-2)]) by (rewrite Hn; simpl; lia).
  assert (HT : ∀ T, None = Some T → rf_ok (nIn (cfg sample_fresh)) (nInStore (cfg sample_fresh)) T) by done.
  pose proof (@init_rf_ok sample_libm true false d0 sample_fresh None [d_of_Z (-2)] (d_of_Z 3) (m_cfg _ Hm) HT Hx) as Hi.
  split; [|vm_compute; repeat split; discriminate]. unfold sample_rf. destruct (init_rf_fields _ _ _ _ _ _ _); [apply Hi | done].
Qed.

Lemma sample_trained_ok : model_ok sample_trained ∧ cfg sample_trained = cfg sample_fresh ∧ rf sample_trained = [sample_rf].
Proof.
  destruct sample_fresh_ok as (Hm & _ & He). destruct sample_rf_ok as [HRF _].
  assert (Hp : 1 ≤ numPointers sample_fresh) by (apply Nat.leb_le; vm_compute; reflexivity).
  unfold sample_trained. revert Hm He HRF Hp. generalize sample_fresh, sample_rf.
  intros m RF [H1 H2 H3 H4 H5 H6 H7 H8 H9] He HRF Hp.
  destruct m. simpl in *. split; [|done]. split; simpl; try done. by constructor.
Qed.

Lemma model_roundtrip_witness :
  pg_ensures (@update_fss_rfwr good_cluster 5 (nIn (cfg sample_trained)) sample_trained;;
              @load_fss_rfwr good_cluster sample_palloc 5 (nIn (cfg sample_trained)) sample_fresh)
    (sample_state aqo_data []) (fun '(found, m') st' => found = true ∧ same_model sample_trained m' ∧ model_ok m').
Proof.
  destruct sample_trained_ok as (Hm & Hc & Hr), sample_fresh_ok as (Hm0 & _ & He), sample_rf_ok as [_ Hi].
  eapply pg_ensures_mono.
  - apply (@model_roundtrip good_cluster sample_palloc 5 sample_trained sample_fresh (sample_state aqo_data []));
      [exact Hm | rewrite Hr; constructor; [exact Hi | constructor] | exact Hm0 | rewrite Hc; reflexivity | exact He
      | split; reflexivity | split; intros []; discriminate | left; reflexivity | discriminate].
  - intros [found m'] st' (Hf & Hs & _ & Hok & _). exact (conj Hf (conj Hs Hok)).
Defined.

Lemma update_fss_rfwr2_leak_witness :
  @update_fss_rfwr2 good_cluster 5 (nIn (cfg sample_trained)) sample_trained (sample_state aqo_data []) =
  (Ok false, set_opened (sample_state aqo_data []) 3).
Proof.
  destruct sample_trained_ok as (Hm & _ & _).
  apply (@update_fss_rfwr2_leak good_cluster 5 sample_trained (sample_state aqo_data []));
    [exact Hm | split; reflexivity | reflexivity].
Defined.
