(* ===== verification/LwprUpdate.v ===== *)
(** * LwprUpdate: training an LWPR model

    [lwpr_update] of contrib/aqo/machine_learning_lwpr.c with everything it
    calls: every receptive field near the input learns from the datum, a new
    field is added when none is near, and one of two overlapping fields is
    pruned.  A field that is not trustworthy yet also keeps its data in the
    table aqo_data_house_lwpr, so the training runs in the monad of PgState. *)
From S2P Require Import Prelude Float64 HashText Knn PgArray LwprModel LwprMath LwprReg PgState Storage.
Import RFA.
Import WSA.

(** The part of LWPR_ThreadData that the update fills in. *)
Record LWPR_ThreadData : Type := mkTD {
  td_w_max : double;
  td_ind_max : Z;
  td_w_sec : double;
  td_ind_sec : Z;
  td_yp : double;
  td_sum_w : double
}.

(** [switch (kernel)]: the activation [w] at a distance, and its derivative. *)
Definition kernel_weight `{Libm} (k : LWPR_Kernel) (dist : double) : double * double :=
  match k with
  | LWPR_GAUSSIAN_KERNEL => let w := c_exp (- dlit 5 10 * dist)%D in (w, (- dlit 5 10 * w)%D)
  | LWPR_BISQUARE_KERNEL =>
      let dwdq := (d_of_Z 1 - dlit 25 100 * dist)%D in
      if (dwdq <? d0)%D then (d0, d0) else ((dwdq * dwdq)%D, (- dlit 5 10 * dwdq)%D)
  end.

(** [xc = xn - RF->c] and the distance [xc' * D * xc]. *)
Definition rf_distance (n nInS : nat) (RF : LWPR_ReceptiveField) (x : list double) (WS : LWPR_Workspace)
  : res (LWPR_Workspace * double) :=
  WS ← for_range 0 n (fun i WS => xi ← rd x i; ci ← getr RF c i; setw WS xc i (xi - ci)%D) WS;
  dist ← for_range 0 n (fun j dist =>
      xj ← getw WS xc j;
      d ← lwpr_math_dot_product (arr RF D) (j * nInS) (wsa WS xc) 0 n;
      Ok (dist + xj * d)%D) d0;
  Ok (WS, dist).

(** The largest and the second largest activation with their indexes. *)
Definition track_max (w : double) (k : nat) (TD : LWPR_ThreadData) : LWPR_ThreadData :=
  let '(mkTD wm im ws_ is_ yp sw) := TD in
  if (w >? ws_)%D then
    if (w >? wm)%D then mkTD w (Z.of_nat k) wm im yp sw
    else mkTD wm im w (Z.of_nat k) yp sw
  else TD.

(** The last [num_pred_error_history] relative errors of a field. *)
Definition push_error (RF : LWPR_ReceptiveField) (e y : double) : res LWPR_ReceptiveField :=
  num ← d_to_int (pred_error_num RF);
  let err := c_fabs (e / (y + dlit 1 1000))%D in
  if (num <? Z.of_nat num_pred_error_history)%Z then
    l ← wrz (arr RF pred_error_history) num err;
    Ok (set_pred_error_num (set_arr RF pred_error_history l) (d_of_Z (num + 1)))
  else
    RF ← for_range 1 num_pred_error_history (fun j RF =>
        x ← getr RF pred_error_history j; setr RF pred_error_history (j - 1) x) RF;
    RF ← setr RF pred_error_history (num_pred_error_history - 1) err;
    Ok (set_pred_error_num RF (d_of_Z num)).

(** The last [num_history_data_compute_probability_rf] inputs of the query
    pattern [qh], which a new model records; pattern 0 is none. *)
Definition push_history (qh : Z) (n : nat) (x : list double) (hist : list (list double)) (counts : list double)
  : res (list (list double) * list double) :=
  if (qh =? 0)%Z then Ok (hist, counts)
  else
    let i := (qh - 1)%Z in
    num ← (d ← rdz counts i; d_to_int d);
    row ← rdz hist i;
    if (num <? Z.of_nat num_history_data_compute_probability_rf)%Z then
      row ← for_range 0 n (fun k row => xk ← rd x k; wrz row (num * Z.of_nat n + 1 + Z.of_nat k) xk) row;
      hist ← wrz hist i row;
      counts ← wrz counts i (d_of_Z (num + 1));
      Ok (hist, counts)
    else
      row ← for_range 1 num_history_data_compute_probability_rf (fun k row =>
          for_range 0 n (fun j row => v ← rd row (k * n + 1 + j); wr row ((k - 1) * n + 1 + j) v) row) row;
      row ← for_range 0 n (fun k row =>
          xk ← rd x k; wr row ((num_history_data_compute_probability_rf - 1) * n + 1 + k) xk) row;
      hist ← wrz hist i row;
      Ok (hist, counts).

Section update.
Context `{Cluster} `{Libm} `{Palloc}.

(** ** The data house of a field *)

(** The matrix of [2*nIn + 1] rows is loaded, learns the datum, and is stored;
    the hash of the centre names it. *)
Definition learn_datahouse (fss : Z) (centre : list double) (n : nat) (features : list double) (result : double)
  : PG unit :=
  let cap := 2 * n + 1 in
  rf_hash ← pg_lift (if n <=? length centre then Ok (get_int_array_hash2 (take n centre)) else Err Fault_bounds);
  '(found, (matrix, targets, stored)) ← load_rf_datahouse fss rf_hash (replicate cap (palloc0 n)) (palloc0 cap);
  let rows := if (found : bool) then default 0 stored else 0 in
  '(matrix, targets, changed_lines) ← pg_lift (OkNNr_learn rows n matrix targets features result cap);
  let new_matrix_rows := foldl (fun k l => if k <=? l then l + 1 else k) rows changed_lines in
  _ ← update_rf_datahouse fss rf_hash n new_matrix_rows matrix targets;
  mret tt.

Definition lwpr_aux_init_rf (k : nat) (m : LWPR_Model) (RFT : option LWPR_ReceptiveField) (x : list double)
    (y : double) : PG LWPR_ReceptiveField :=
  RF ← pg_lift (init_rf_fields (palloc_mis k).1 (palloc_mis k).2 d0 m RFT x y);
  learn_datahouse (fss_hash m) x (nIn (cfg m)) x y;;
  mret RF.

(** ** One field *)

(** The field becomes trustworthy once its first direction has seen more than
    [2*nIn] data; until then the datum goes to its data house. *)
Definition lwpr_aux_update_regression (m : LWPR_Model) (RF : LWPR_ReceptiveField) (x : list double) (y w : double)
    (WS : LWPR_Workspace) : PG (LWPR_ReceptiveField * LWPR_Workspace * double * double * double) :=
  let n := nIn (cfg m) in
  '(RF, WS, yp, ecv, e) ← pg_lift (update_regression_fit n (nInStore (cfg m)) RF x y w WS);
  nd ← pg_lift (getr RF n_data 0);
  if (nd >? d_of_Z 2 * d_of_Z (Z.of_nat n))%D then mret (set_trustworthy RF 1, WS, yp, ecv, e)
  else
    learn_datahouse (fss_hash m) (arr RF c) n (xn m) (yn m);;
    mret (RF, WS, yp, ecv, e).

(** The counters of the directions at the end of the step. *)
Definition forget_data (cf : LWPR_Config) (RF : LWPR_ReceptiveField) : res LWPR_ReceptiveField :=
  for_range 0 (nReg RF) (fun i RF =>
    nd ← getr RF n_data i; l ← getr RF lambda i;
    RF ← setr RF n_data i (nd * l + d_of_Z 1)%D;
    setr RF lambda i (tau_lambda cf * l + final_lambda cf * (d_of_Z 1 - tau_lambda cf))%D) RF.

(** A field that is activated enough learns. *)
Definition rf_learn (m : LWPR_Model) (k : nat) (w dwdq : double)
    (st : LWPR_ReceptiveField * LWPR_Workspace * LWPR_ThreadData)
  : PG (LWPR_ReceptiveField * LWPR_Workspace * LWPR_ThreadData) :=
  let '(RF, WS, TD) := st in
  let cf := cfg m in
  let RF := set_w RF w in
  '(RF, xz, ymz) ← pg_lift (lwpr_aux_update_means (nIn cf) RF (xn m) (yn m) w (wsa WS xmz));
  let WS := set_wsa WS xmz xz in
  '(RF, WS, yp_n, ecv, e) ← lwpr_aux_update_regression m RF (wsa WS xmz) ymz w WS;
  RF ← pg_lift (push_error RF e (yn m));
  let TD := if (trustworthy RF =? 0)%Z then TD
            else mkTD (td_w_max TD) (td_ind_max TD) (td_w_sec TD) (td_ind_sec TD)
                   (td_yp TD + w * yp_n)%D (td_sum_w TD + w)%D in
  '(RF, WS) ← (if update_D cf then
                 '(RF, WS, _) ← pg_lift (lwpr_aux_update_distance_metric cf RF w dwdq ecv e (xn m) WS);
                 mret (RF, WS)
               else mret (RF, WS));
  '(RF, _) ← pg_lift (lwpr_aux_check_add_projection (palloc_mis k).1 cf RF);
  RF ← pg_lift (forget_data cf RF);
  mret (RF, WS, TD).

(** One turn of the loop over the fields. *)
Definition update_rf (k : nat) (st : LWPR_Model * LWPR_ThreadData) : PG (LWPR_Model * LWPR_ThreadData) :=
  let '(m, TD) := st in
  let cf := cfg m in
  RF ← pg_lift (rd (rf m) k);
  '(WS, dist) ← pg_lift (rf_distance (nIn cf) (nInStore cf) RF (xn m) (ws m));
  let '(w, dwdq) := kernel_weight (kernel cf) dist in
  let TD := track_max w k TD in
  '(RF, WS, TD) ← (if (w >? dlit 1 1000)%D then rf_learn m k w dwdq (RF, WS, TD)
                   else mret (set_w RF d0, WS, TD));
  mret (set_rf (set_ws m WS) (<[k := RF]> (rf m)), TD).

(** ** The model *)
Definition lwpr_aux_update_one_T (m : LWPR_Model) : PG (LWPR_Model * LWPR_ThreadData) :=
  let TD := mkTD d0 (-1) d0 (-1) d0 d0 in
  if numRFS m =? 0 then
    qh ← pg_get (fun st => current_query_hash (ctx st));
    '(hist, counts) ← pg_lift (push_history qh (nIn (cfg m)) (xn m) (history_data_matrix m) (num_history_data m));
    mret (set_history m hist counts, TD)
  else pg_for 0 (numRFS m) update_rf (m, TD).

(** [RF->D[0+0*nInS] + RF->D[1+1*nInS] + ...] *)
Definition trace_D (n nInS : nat) (RF : LWPR_ReceptiveField) : res double :=
  for_range 0 n (fun i t => d ← getr RF D (i + i * nInS); Ok (t + d)%D) d0.

Definition lwpr_aux_update_one_add_prune (m : LWPR_Model) (TD : LWPR_ThreadData) (x : list double) (y : double)
  : PG (LWPR_Model * Z) :=
  let cf := cfg m in
  if (td_w_max TD <=? w_gen cf)%D then
    '(m, _) ← pg_lift (lwpr_aux_add_rf (palloc_mis (numRFS m)).1 (palloc_mis (numRFS m)).2 d0 m 0);
    RFT ← pg_lift (if (td_w_max TD >? dlit 1 10 * w_gen cf)%D then
                     T ← rdz (rf m) (td_ind_max TD);
                     Ok (if (trustworthy T =? 0)%Z then None else Some T)
                   else Ok None);
    RF ← lwpr_aux_init_rf (numRFS m) m RFT x y;
    mret (set_rf m (<[numRFS m - 1 := RF]> (rf m)), 1%Z)
  else if (td_w_sec TD >? w_prune cf)%D then
    RFmax ← pg_lift (rdz (rf m) (td_ind_max TD));
    RFsec ← pg_lift (rdz (rf m) (td_ind_sec TD));
    tr_max ← pg_lift (trace_D (nIn cf) (nInStore cf) RFmax);
    tr_sec ← pg_lift (trace_D (nIn cf) (nInStore cf) RFsec);
    let prune := if (tr_max <? tr_sec)%D then td_ind_max TD else td_ind_sec TD in
    last_rf ← pg_lift (rd (rf m) (numRFS m - 1));
    fields ← pg_lift (if (prune <? Z.of_nat (numRFS m) - 1)%Z then wrz (rf m) prune last_rf else Ok (rf m));
    mret (set_n_pruned (set_rf m (take (numRFS m - 1) fields)) (n_pruned m + 1), 1%Z)
  else mret (m, 1%Z).

Definition lwpr_aux_update_one (m : LWPR_Model) (x : list double) (y : double) : PG (LWPR_Model * Z) :=
  '(m, TD) ← lwpr_aux_update_one_T m;
  lwpr_aux_update_one_add_prune m TD x y.

Definition lwpr_update (m : LWPR_Model) (x : list double) (y : double) : PG (LWPR_Model * Z) :=
  let m := set_n_data m (m_n_data m + 1) in
  xs ← pg_lift (for_range 0 (nIn (cfg m)) (fun i xs =>
      xi ← rd x i; ni ← rd (norm_in (cfg m)) i; wr xs i (xi / ni)%D) (xn m));
  let m := set_xy m xs (y / norm_out (cfg m))%D in
  lwpr_aux_update_one m (xn m) (yn m).
End update.

(** ** The data house keeps its shape *)

(** A row with a matrix of at most [2*nIn + 1] rows of [nIn] features, and as
    many targets. *)
Definition stored_house (n : nat) (t : tuple) : Prop :=
  ∃ x1 x2 x3 mat v r am av, t = Some <$> [x1; x2; x3; PointerGetDatum am; PointerGetDatum av] ∧
    r ≤ 2 * n + 1 ∧ shape mat r n ∧ mform mat r n = Ok am ∧ r ≤ length v ∧ vform v r = Ok av.

Record house_ok (n : nat) (fss : Z) (st : pgstate) : Prop := {
  house_table : table_ok st aqo_data_house_lwpr;
  house_rows : ∀ rfh t, row_data st aqo_data_house_lwpr [fspace_hash (ctx st); fss; rfh] = Some t → stored_house n t
}.

(** What training a model of [fss] may change of the session: rows of its data
    house, and whether AQO is still in use. *)
Record db_frame (fss : Z) (st st' : pgstate) : Prop := {
  db_opened : opened st' = opened st;
  db_rows : ∀ r, r ≠ aqo_data_house_lwpr → rows st' r = rows st r;
  db_fspace : fspace_hash (ctx st') = fspace_hash (ctx st);
  db_query : current_query_hash (ctx st') = current_query_hash (ctx st);
  db_dist : query_distribution (ctx st') = query_distribution (ctx st);
  db_table : table_ok st aqo_data_house_lwpr → table_ok st' aqo_data_house_lwpr;
  db_house : ∀ fss' rfh, fss' ≠ fss →
    row_data st' aqo_data_house_lwpr [fspace_hash (ctx st); fss'; rfh] =
    row_data st aqo_data_house_lwpr [fspace_hash (ctx st); fss'; rfh];
  db_ctx : ctx st' = ctx st ∨ ctx st' = disabled (ctx st)
}.

Lemma db_frame_trans fss st1 st2 st3 : db_frame fss st1 st2 → db_frame fss st2 st3 → db_frame fss st1 st3.
Proof.
  intros [A1 A2 A3 A4 A5 A6 A7 A8] [B1 B2 B3 B4 B5 B6 B7 B8].
  split; [congruence | intros r' Hr; by rewrite B2, A2 | congruence | congruence | congruence | auto | |].
  - intros fss' rfh Hne. rewrite A3 in B7. by rewrite B7, A7.
  - destruct B8 as [-> | ->], A8 as [-> | ->]; auto. right. by destruct (ctx st1).
Qed.

Lemma db_frame_refl fss st : db_frame fss st st.
Proof. split; auto. Qed.

#[export] Hint Resolve db_frame_refl : core.

(** A step that only reads: nothing changes, except that AQO may be turned off
    for the query. *)
Definition read_only (st st' : pgstate) : Prop := st' = st ∨ st' = set_ctx st (disabled (ctx st)).

Lemma read_only_trans st1 st2 st3 : read_only st1 st2 → read_only st2 st3 → read_only st1 st3.
Proof. intros [->| ->] [->| ->]; unfold read_only; auto. right. destruct st1 as [? [] ? ? ?]. done. Qed.

(** Other sessions may win a race for a row, but no update is heap-only and no
    command updates a tuple twice; where the index exists so does the table. *)
Record calm `{Cluster} : Prop := {
  calm_index : OidIsValid aqo_data_house_lwpr = true → relation_exists aqo_data_house_lwpr = true;
  calm_result : ∀ i, heap_update_result i = HeapTupleMayBeUpdated ∨ heap_update_result i = HeapTupleUpdated ∨
                     heap_update_result i = HeapTupleBeingUpdated;
  calm_hot : ∀ i, heap_update_hot i = false
}.

Lemma grown_le k (l : list nat) K : k ≤ K → Forall (fun x => x < K) l → foldl (fun k x => if k <=? x then x + 1 else k) k l ≤ K.
Proof.
  revert k. induction l as [|x l IH]; intros k Hk Hl; simpl; [done|]. inversion Hl; subst.
  apply IH; [|done]. destruct (Nat.leb_spec k x); lia.
Qed.

Section house.
Context `{Cluster} (n : nat) (fss : Z) (Hn : 1 ≤ n) (Hcalm : calm).

Lemma disabled_frame st : db_frame fss st (set_ctx st (disabled (ctx st))) ∧
  (house_ok n fss st → house_ok n fss (set_ctx st (disabled (ctx st)))).
Proof.
  assert (E : fspace_hash (disabled (ctx st)) = fspace_hash (ctx st)) by (by destruct (ctx st)).
  split; [split; auto; by destruct (ctx st)|]. intros [Ht Hr]. split; [done|]. intros rfh t. simpl. rewrite E. apply Hr.
Qed.

Lemma disable_ok st : disable_aqo_for_query st = (Ok tt, set_ctx st (disabled (ctx st))).
Proof. unfold disable_aqo_for_query, pg_modify. by destruct (ctx st). Qed.

Lemma read_only_frame st st' : read_only st st' → db_frame fss st st' ∧ (house_ok n fss st → house_ok n fss st').
Proof. intros [->| ->]; [split; [apply db_frame_refl | done] | apply disabled_frame]. Qed.

(** Loading leaves room for the data. *)
Lemma load_house_ok rfh st :
  house_ok n fss st →
  pg_ensures (load_rf_datahouse fss rfh (replicate (2 * n + 1) (palloc0 n)) (palloc0 (2 * n + 1))) st
    (fun '(found, (mat, v, k)) st' => read_only st st' ∧
      length mat = 2 * n + 1 ∧ length v = 2 * n + 1 ∧ (if found then default 0 k else 0) ≤ 2 * n + 1 ∧
      ∀ i row, mat !! i = Some row → n ≤ length row).
Proof.
  intros Hh. set (cap := 2 * n + 1). set (m0 := replicate cap (palloc0 n)).
  assert (Hm0 : ∀ i row, m0 !! i = Some row → n ≤ length row).
  { intros i row Hi. apply replicate_lookup_inv in Hi as [-> _]. unfold palloc0. by rewrite length_replicate. }
  assert (Hlm : length m0 = cap) by apply length_replicate.
  assert (Hlv : length (palloc0 cap) = cap) by apply length_replicate.
  destruct (OidIsValid aqo_data_house_lwpr) eqn:Hv.
  - pose proof (calm_index Hcalm Hv) as Hr.
    destruct (row_data st aqo_data_house_lwpr [fspace_hash (ctx st); fss; rfh]) as [t|] eqn:Erow.
    + destruct (house_rows _ _ _ Hh _ _ Erow) as (x1 & x2 & x3 & mat & v & r & am & av & -> & Hle & Hsh & Em & Hlv' & Ev).
      destruct (stored_matrix mat r n Hsh) as (am' & Em' & Hback). rewrite Em in Em'. injection Em' as <-.
      destruct (Hback m0) as (m' & Ed & Hl & Hc).
      { split; [lia|]. intros i row _. apply Hm0. }
      destruct (stored_vector v r Hlv') as (av' & Ev' & Hvec). rewrite Ev in Ev'. injection Ev' as <-.
      eapply pg_ensures_intro; [eapply load_rf_datahouse_ok; [done | done | exact Ed | apply Hvec; lia]|].
      split_and!; [by left | lia | rewrite length_app, length_take, length_drop; lia | simpl; lia |].
      intros i row Hi. destruct (decide (n ≤ length row)) as [|Hlt]; [done|exfalso].
      specialize (Hc i (n - 1)). unfold cell in Hc at 1. rewrite Hi in Hc. simpl in Hc.
      rewrite (lookup_ge_None_2 row) in Hc by lia. pose proof (lookup_lt_Some _ _ _ Hi).
      case_decide as Hd.
      * destruct (shape_cell mat r n i (n - 1) Hsh) as (row' & y & Hrow' & Hy); [lia | lia|]. unfold cell in Hc.
        rewrite Hrow' in Hc. simpl in Hc. congruence.
      * unfold cell in Hc. destruct (lookup_lt_is_Some_2 m0 i) as [row0 Hr0]; [lia|]. rewrite Hr0 in Hc. simpl in Hc.
        pose proof (Hm0 _ _ Hr0). symmetry in Hc. apply lookup_ge_None_1 in Hc. lia.
    + eapply (pg_ensures_intro _ _ (false, (m0, palloc0 cap, None)) st); [|split_and!; [by left | done..|lia|done]].
      unfold load_rf_datahouse, RelnameGetRelid. rewrite Hv, pg_ret_bind. cbn [negb]. rewrite pg_get_bind.
      rewrite (pg_bind_ok _ _ _ _ _ (open_scan_ok _ _ _ Hr)). unfold row_data in Erow.
      destruct (find_row _ _ _); [done|]. by apply (read_finish aqo_data_house_lwpr).
  - eapply (pg_ensures_intro _ _ (false, (m0, palloc0 cap, None)) (set_ctx st (disabled (ctx st)))).
    + unfold load_rf_datahouse, RelnameGetRelid. rewrite Hv, pg_ret_bind. cbn [negb].
      by rewrite (pg_bind_ok _ _ _ _ _ (disable_ok st)).
    + split_and!; [by right | done..|lia|done].
Qed.

(** Storing keeps the shape, whether the row is new, replaced, or lost to
    another session. *)
Lemma store_house_ok rfh nrows mat v st :
  house_ok n fss st → shape mat nrows n → nrows ≤ length v → nrows ≤ 2 * n + 1 →
  pg_ensures (update_rf_datahouse fss rfh n nrows mat v) st (fun _ st' => house_ok n fss st' ∧ db_frame fss st st').
Proof.
  intros Hh Hsh Hlv Hle. destruct (OidIsValid aqo_data_house_lwpr) eqn:Hv.
  - pose proof (conj Hv (calm_index Hcalm Hv)) as Hav. set (keys := [fspace_hash (ctx st); fss; rfh]).
    destruct (stored_matrix mat nrows n Hsh) as (am & Em & _). destruct (stored_vector v nrows Hlv) as (av & Ev & _).
    assert (Hdone : write_ok st aqo_data_house_lwpr keys UNIQUE_CHECK_YES →
      pg_ensures (update_rf_datahouse fss rfh n nrows mat v) st (fun _ st' => house_ok n fss st' ∧ db_frame fss st st')).
    { intros Hw. destruct (update_rf_datahouse_ok fss rfh n nrows mat v am av st Hav Em Ev (house_table _ _ _ Hh) Hw)
        as (st' & E & Hput & Ht' & Ho & _). eapply pg_ensures_intro; [exact E|].
      split; [split; [done|]|split; [done | apply Hput | by rewrite (put_ctx _ _ _ _ _ Hput) | by rewrite (put_ctx _ _ _ _ _ Hput) | by rewrite (put_ctx _ _ _ _ _ Hput) | done | | by left; apply (put_ctx _ _ _ _ _ Hput)]].
      2:{ intros fss' rfh' Hne. apply (put_other _ _ _ _ _ Hput); [done | naive_solver]. }
      intros rfh' t. rewrite (put_ctx _ _ _ _ _ Hput). destruct (decide (rfh' = rfh)) as [->|Hne].
      - rewrite (put_found _ _ _ _ _ Hput). intros [= <-]. unfold keys, stored_house. simpl. eauto 20.
      - rewrite (put_other _ _ _ _ _ Hput) by (done || naive_solver). apply Hh. }
    destruct (find_row st aqo_data_house_lwpr keys) as [[tid old]|] eqn:Ef; [|by apply Hdone; left].
    destruct (calm_result Hcalm (cid st)) as [Hres|Hres].
    + apply Hdone. right. split; [done|]. right. apply (calm_hot Hcalm).
    + eapply pg_ensures_intro; [eapply update_rf_datahouse_lost; [done | apply Hh | exact Ef | done | done | done]|].
      split; [destruct Hh; by split | split; auto].
  - eapply (pg_ensures_intro _ _ false (set_ctx st (disabled (ctx st)))).
    + unfold update_rf_datahouse, RelnameGetRelid. rewrite Hv, pg_ret_bind. cbn [negb].
      by rewrite (pg_bind_ok _ _ _ _ _ (disable_ok st)).
    + destruct (disabled_frame st) as [Hf Hok]. split; [by apply Hok | done].
Qed.

Lemma learn_datahouse_ok centre features y st :
  house_ok n fss st → n ≤ length centre → n ≤ length features →
  pg_ensures (learn_datahouse fss centre n features y) st (fun _ st' => house_ok n fss st' ∧ db_frame fss st st').
Proof.
  intros Hh Hc Hf. unfold learn_datahouse. cbv zeta. rewrite (proj2 (Nat.leb_le _ _) Hc).
  set (rfh := get_int_array_hash2 _). apply pg_ensures_bind, pg_ensures_lift. cbn [ensures].
  eapply pg_ensures_bind_mono; [by apply load_house_ok|].
  intros [found [[mat v] k]] st1 ([Hf1 Hh1]%read_only_frame & Hlm & Hlv & Hk & Hrow). cbv zeta beta iota.
  set (rows := if found then default 0 k else 0) in *.
  apply pg_ensures_bind, pg_ensures_lift. eapply ensures_mono.
  { apply (learn_ok rows n mat v features y (2 * n + 1)); [split; [split; [lia | done] | lia] | lia | done]. }
  intros [[mat' v'] lst] ((d & _ & Hlst) & [Hlm' _ Hrows'] & [Hlv' _]). cbv beta iota.
  assert (Hnew : Forall (fun x => x < 2 * n + 1) lst).
  { unfold learned_rows in Hlst. destruct (Nat.ltb_spec rows (2 * n + 1)).
    - destruct Hlst as (x & -> & Hx). apply Forall_singleton. lia.
    - subst lst. apply Forall_take, Forall_forall. intros x Hx%ranking_lt. lia. }
  pose proof (grown_le rows lst (2 * n + 1) Hk Hnew) as Hle.
  eapply pg_ensures_bind_mono.
  { apply store_house_ok; [by apply Hh1 | split; [lia|] | lia | done].
    intros i row _ Hi. destruct (lookup_lt_is_Some_2 mat i) as [row0 Hr0].
    { rewrite <- Hlm'. by eapply lookup_lt_Some. }
    rewrite (Hrows' _ _ _ Hr0 Hi). by eapply Hrow. }
  intros _ st2 [Hh2 Hf2]. split; [done | by eapply db_frame_trans].
Qed.
End house.

(** ** Windows of the last errors and inputs *)
Lemma count_int k x : (Z.of_nat k < 2 ^ 31)%Z → count_le k x → ∃ j, j ≤ k ∧ x = d_of_Z (Z.of_nat j) ∧ d_to_int x = Ok (Z.of_nat j).
Proof. intros Hk (j & Hj & ->). exists j. split_and!; [done | done|]. apply d_to_int_of_Z. lia. Qed.

Lemma wrz_of_nat {A} (l : list A) (i : nat) x : i < length l → wrz l (Z.of_nat i) x = Ok (<[i := x]> l).
Proof. intros Hi. by rewrite wrz_nat, wr_lt. Qed.

Lemma push_error_ok n nInS RS RF e y :
  rsz n nInS RS RF → count_le num_pred_error_history (pred_error_num RF) →
  ensures (push_error RF e y) (fun RF' => ∃ RF1 x, RF' = set_pred_error_num RF1 x ∧
    rf_frame [pred_error_history] RF RF1 ∧ count_le num_pred_error_history x).
Proof.
  intros Hs Hc. pose proof (eq_refl : num_pred_error_history = 2) as H2. destruct (count_int num_pred_error_history (pred_error_num RF) eq_refl Hc) as (j & Hj & _ & E). unfold push_error. rewrite E.
  cbn [mbind res_bind]. destruct (Z.ltb_spec (Z.of_nat j) (Z.of_nat num_pred_error_history)) as [Hlt|Hge].
  - assert (Hl : j < length (arr RF pred_error_history)) by (rewrite Hs; cbn [rf_size]; lia).
    rewrite wrz_of_nat by done. cbn [mbind res_bind ensures]. do 2 eexists. split; [done|]. split.
    + apply set_arr_frame, length_insert.
    + exists (j + 1). split; [lia|]. f_equal. lia.
  - eapply ensures_bind_mono.
    { apply (ensures_for (fun _ RF' => rsz n nInS RS RF' ∧ rf_frame [pred_error_history] RF RF'));
        [unfold num_pred_error_history; lia | by auto with rfframe|].
      intros i RF1 Hi [Hs1 Hf1]. repeat lstep. split; [done | frames]. }
    intros RF1 [Hs1 Hf1]. repeat lstep. do 2 eexists. split; [done|]. split; [frames|]. exists j. split; [lia | done].
Qed.

Lemma row_loop n x (base : nat) (row : list double) (body : nat → list double → res (list double)) :
  n ≤ length x → base + n ≤ length row →
  (∀ k row' xk, k < n → x !! k = Some xk → body k row' = wr row' (base + k) xk) →
  ensures (for_range 0 n body row) (fun row' => length row' = length row).
Proof.
  intros Hx Hr Hb. apply (ensures_for (fun _ row' => length row' = length row)); [lia | done|].
  intros k row' Hk Hl. destruct (lookup_lt_is_Some_2 x k) as [xk Hxk]; [lia|]. rewrite (Hb k row' xk) by (done || lia).
  apply ensures_wr; [lia|]. by rewrite length_insert.
Qed.

Lemma push_history_ok qh n x hist counts :
  (0 ≤ qh ≤ Z.of_nat num_query_pattern)%Z → n ≤ length x → length hist = num_query_pattern →
  Forall (fun row => length row = num_history_data_compute_probability_rf * n + 1) hist →
  length counts = num_query_pattern → Forall (count_le num_history_data_compute_probability_rf) counts →
  ensures (push_history qh n x hist counts) (fun '(hist', counts') => length hist' = num_query_pattern ∧
    Forall (fun row => length row = num_history_data_compute_probability_rf * n + 1) hist' ∧
    length counts' = num_query_pattern ∧ Forall (count_le num_history_data_compute_probability_rf) counts').
Proof.
  intros Hq Hx Hh Hrows Hc Hcounts. unfold push_history.
  set (W := num_history_data_compute_probability_rf) in *. assert (HW : W = 10) by done. clearbody W.
  assert (HWz : (Z.of_nat W < 2 ^ 31)%Z) by (rewrite HW; reflexivity).
  destruct (Z.eqb_spec qh 0) as [|Hq0]; [done|].
  assert (Ei : (qh - 1)%Z = Z.of_nat (Z.to_nat (qh - 1))) by lia. rewrite Ei. set (i := Z.to_nat (qh - 1)) in *.
  assert (Hi : i < num_query_pattern) by lia.
  rewrite !rdz_nat. destruct (rd_lt counts i ltac:(lia)) as (d & Hd & ->). destruct (rd_lt hist i ltac:(lia)) as (row & Hrow & ->).
  pose proof (Forall_lookup_1 _ _ _ _ Hcounts Hd) as Hcd. pose proof (Forall_lookup_1 _ _ _ _ Hrows Hrow) as Hlr.
  cbn [mbind res_bind]. destruct (count_int W d HWz Hcd) as (num & Hnum & Ed & ->). cbn [mbind res_bind].
  assert (Hput : ∀ row', length row' = W * n + 1 → ensures (wrz hist (Z.of_nat i) row') (fun hist' =>
    length hist' = num_query_pattern ∧ Forall (fun row => length row = W * n + 1) hist')).
  { intros row' Hl. rewrite wrz_of_nat by lia. simpl. split; [by rewrite length_insert|]. by apply Forall_insert. }
  destruct (Z.ltb_spec (Z.of_nat num) (Z.of_nat W)) as [Hlt|Hge].
  - eapply ensures_bind_mono.
    { apply (row_loop n x (num * n + 1)); [done | rewrite Hlr; nia|]. intros k row' xk Hk Hxk. rewrite (rd_some _ _ _ Hxk).
      cbn [mbind res_bind]. replace (Z.of_nat num * Z.of_nat n + 1 + Z.of_nat k)%Z with (Z.of_nat (num * n + 1 + k)) by lia.
      apply wrz_nat. }
    intros row' Hl'. eapply ensures_bind_mono; [apply Hput; by rewrite Hl'|]. intros hist' [H1 H2].
    rewrite wrz_of_nat by lia. cbn [mbind res_bind ensures]. split_and!; [done | done | by rewrite length_insert |].
    apply Forall_insert; [done|]. exists (num + 1). split; [lia|]. f_equal. lia.
  - eapply ensures_bind_mono.
    { apply (ensures_for (fun _ row' => length row' = W * n + 1)); [lia | done|]. intros k row1 Hk Hl1.
      apply (ensures_for (fun _ row' => length row' = W * n + 1)); [lia | done|]. intros j row2 Hj Hl2.
      assert (k * n + 1 + j < W * n + 1) by nia. assert ((k - 1) * n + 1 + j < W * n + 1) by nia.
      apply ensures_bind, ensures_rd; [lia|]. intros v _. apply ensures_wr; [lia|]. by rewrite length_insert. }
    intros row1 Hl1. eapply ensures_bind_mono.
    { apply (row_loop n x ((W - 1) * n + 1)); [done | rewrite Hl1; nia|]. intros k row' xk Hk Hxk. by rewrite (rd_some _ _ _ Hxk). }
    intros row2 Hl2. eapply ensures_bind_mono; [apply Hput; by rewrite Hl2|]. intros hist' [H1 H2]. done.
Qed.

(** ** What a field keeps *)

(** The flags of a field: [slopeReady] is never set. *)
Definition flags_ok (RF : LWPR_ReceptiveField) : Prop :=
  (trustworthy RF = 0 ∨ trustworthy RF = 1)%Z ∧ slopeReady RF = 0%Z.

(** What learning keeps of a field: its centre stays, directions are only
    added, trust is not lost, and a diagonal metric stays one. *)
Record rf_step (n nInS : nat) (diag : bool) (RF RF' : LWPR_ReceptiveField) : Prop := {
  step_centre : arr RF' c = arr RF c;
  step_reg : nReg RF ≤ nReg RF';
  step_trust : trustworthy RF ≠ 0%Z → trustworthy RF' ≠ 0%Z;
  step_flags : flags_ok RF → flags_ok RF';
  step_diag : diag = true → diag_metric n nInS RF → diag_metric n nInS RF'
}.

Lemma rf_step_refl n nInS diag RF : rf_step n nInS diag RF RF.
Proof. done. Qed.

Lemma rf_step_trans n nInS diag RF RF' RF'' :
  rf_step n nInS diag RF RF' → rf_step n nInS diag RF' RF'' → rf_step n nInS diag RF RF''.
Proof. intros [A1 A2 A3 A4 A5] [B1 B2 B3 B4 B5]. split; [congruence | lia | auto | auto | auto]. Qed.

Lemma frame_rf_step n nInS diag S RF RF' :
  rf_frame S RF RF' → c ∉ S → D ∉ S → M ∉ S → rf_step n nInS diag RF RF'.
Proof.
  intros Hf Hc HD HM. split.
  - by apply Hf.
  - by rewrite (fr_reg _ _ _ Hf).
  - by rewrite (fr_trust _ _ _ Hf).
  - intros [H1 H2]. split; [by rewrite (fr_trust _ _ _ Hf) | by apply Hf].
  - intros _ Hm i j Hi Hj. rewrite !(fr_arr _ _ _ Hf) by done. by apply Hm.
Qed.

Lemma arrs_rf_step n nInS diag RF RF' :
  (∀ a, arr RF' a = arr RF a) → nReg RF ≤ nReg RF' → (trustworthy RF ≠ 0%Z → trustworthy RF' ≠ 0%Z) → (flags_ok RF → flags_ok RF') →
  rf_step n nInS diag RF RF'.
Proof. intros Ha Hr Ht Hfl. split; [done | done | done | done|]. intros _ Hm i j Hi Hj. rewrite !Ha. by apply Hm. Qed.

(** The activations seen so far belong to fields. *)
Definition td_ok (N : nat) (TD : LWPR_ThreadData) : Prop :=
  (td_ind_max TD = -1 ∧ td_w_max TD = d0 ∨ 0 ≤ td_ind_max TD < Z.of_nat N)%Z ∧
  (td_ind_sec TD = -1 ∧ td_w_sec TD = d0 ∨ 0 ≤ td_ind_sec TD < Z.of_nat N)%Z ∧
  (td_ind_max TD = -1 → td_ind_sec TD = -1)%Z.

Lemma track_max_ok N w k TD : td_ok N TD → k < N → td_ok N (track_max w k TD).
Proof.
  intros (H1 & H2 & H3) Hk. destruct TD as [wm im w2 i2 yp sw]. unfold track_max, td_ok in *. simpl in *.
  destruct (dlt w2 w) eqn:E2; [|done]. destruct (dlt wm w) eqn:E1; simpl.
  - split_and!; [right; lia | done | lia].
  - split_and!; [done | right; lia |]. intros Him. exfalso. destruct H1 as [[_ ->]|?]; [|lia].
    destruct H2 as [[_ ->]|?]; [congruence | lia].
Qed.

Lemma rf_distance_sizes n nInS RF x WS :
  1 ≤ n → n ≤ nInS → n ≤ length x → rf_ok n nInS RF → wsz n nInS WS →
  ensures (rf_distance n nInS RF x WS) (fun '(WS', _) => wsz n nInS WS').
Proof.
  intros Hn HnS Hx [_ _ Hs _] Hw.
  assert (Hs' : rsz n nInS (nRegStore RF) RF) by exact Hs. unfold rf_distance. eapply ensures_bind_mono.
  { apply (ensures_for (fun _ WS' => wsz n nInS WS')); [lia | done|]. intros i WS1 Hi Hw1. by repeat lstep. }
  intros WS1 Hw1. cbv beta in Hw1. eapply ensures_bind_mono.
  { apply (ensures_for (fun _ _ => True)); [lia | done|]. intros j d Hj _. assert (j * nInS + n ≤ nInS * n) by nia.
    by repeat lstep. }
  intros d _. done.
Qed.

Section field.
Context `{Cluster} `{Libm} `{Palloc} (m : LWPR_Model) (Hm : model_ok m) (Hcalm : calm).
Let n := nIn (cfg m).
Let nInS := nInStore (cfg m).
Notation step := (rf_step n nInS (diag_only (cfg m))).
Notation house := (house_ok n (fss_hash m)).

Lemma field_sizes : 1 ≤ n ∧ n ≤ nInS ∧ length (xn m) = nInS.
Proof.
  pose proof (m_cfg _ Hm) as Hc. pose proof (nInS_le n) as Hle. unfold n, nInS in *.
  rewrite <- (cfg_nInS _ Hc) in Hle. split_and!; [apply Hc | done | apply Hm].
Qed.

Lemma rf_distance_ok RF WS :
  rf_ok n nInS RF → wsz n nInS WS →
  ensures (rf_distance n nInS RF (xn m) WS) (fun '(WS', _) => wsz n nInS WS').
Proof. destruct field_sizes as (Hn & HnS & Hx). apply rf_distance_sizes; [done | done | lia]. Qed.

Lemma update_regression_ok RF x y w WS st :
  rf_ok n nInS RF → wsz n nInS WS → n ≤ length x → house st →
  pg_ensures (lwpr_aux_update_regression m RF x y w WS) st (fun '(RF', WS', _, _, _) st' =>
    rf_ok n nInS RF' ∧ nRegStore RF' = nRegStore RF ∧ nReg RF' = nReg RF ∧ wsz n nInS WS' ∧ step RF RF' ∧ house st' ∧ db_frame (fss_hash m) st st').
Proof.
  intros [Hr HRS Hs Hc] Hw Hx Hh. destruct field_sizes as (Hn & HnS & Hxn).
  unfold lwpr_aux_update_regression. cbv zeta. fold n nInS. apply pg_ensures_bind, pg_ensures_lift. eapply ensures_mono.
  { apply (update_regression_fit_ok n nInS (nRegStore RF)); [done | done | done | exact Hs | done | lia | done]. }
  intros [[[[RF1 WS1] yp] ec] e] (Hs1 & Hw1 & Hf1). cbv beta iota.
  assert (Hok1 : rf_ok n nInS RF1) by (eapply rf_frame_ok; [done | by split]).
  assert (Hst1 : step RF RF1) by (eapply frame_rf_step; [done | set_solver..]).
  apply pg_ensures_bind, pg_ensures_lift. eapply st_getr; [done | idx |]. intros nd _.
  destruct (dlt _ nd).
  - unfold pg_ensures. simpl. split_and!; [| destruct RF1; apply Hf1 | destruct RF1; apply Hf1 | done | | done | done].
    + destruct Hok1. by destruct RF1.
    + eapply rf_step_trans; [done|]. apply arrs_rf_step; destruct RF1; try done. intros [_ ?]. split; simpl in *; auto.
  - eapply pg_ensures_bind_mono; [apply learn_datahouse_ok; [done | done | done | rewrite Hs1; cbn; lia | lia]|].
    intros _ st' [Hh' Hf']. unfold pg_ensures. simpl. split_and!; try done; apply Hf1.
Qed.

Lemma forget_data_ok RF :
  rf_ok n nInS RF → ensures (forget_data (cfg m) RF) (fun RF' => rf_ok n nInS RF' ∧ step RF RF').
Proof.
  intros Hok. destruct Hok as [Hr HRS Hs Hc]. assert (Hs' : rsz n nInS (nRegStore RF) RF) by exact Hs.
  eapply ensures_mono.
  { apply (ensures_for (fun _ RF' => rsz n nInS (nRegStore RF) RF' ∧ rf_frame [n_data; lambda] RF RF')); [lia | by auto with rfframe|].
    intros i RF1 Hi [Hs1 Hf1]. repeat lstep. split; [done | frames]. }
  intros RF1 [Hs1 Hf1]. split; [eapply rf_frame_ok; [done | by split]|]. eapply frame_rf_step; [done | set_solver..].
Qed.

Definition td_same (TD TD' : LWPR_ThreadData) : Prop :=
  td_w_max TD' = td_w_max TD ∧ td_ind_max TD' = td_ind_max TD ∧ td_w_sec TD' = td_w_sec TD ∧ td_ind_sec TD' = td_ind_sec TD.

Lemma rf_learn_ok k w dwdq RF WS TD st :
  rf_ok n nInS RF → wsz n nInS WS → house st →
  pg_ensures (rf_learn m k w dwdq (RF, WS, TD)) st (fun '(RF', WS', TD') st' =>
    rf_ok n nInS RF' ∧ wsz n nInS WS' ∧ td_same TD TD' ∧ step RF RF' ∧ house st' ∧ db_frame (fss_hash m) st st').
Proof.
  intros Hok Hw Hh. destruct field_sizes as (Hn & HnS & Hxn). unfold rf_learn. cbv zeta.
  pose proof (set_w_frame [] RF w) as Hf0. set (RF0 := set_w RF w) in *.
  pose proof (rf_frame_ok _ _ _ _ _ Hf0 Hok) as Hok0. pose proof Hok0 as [Hr0 HRS0 Hs0 Hc0].
  assert (S0 : step RF RF0) by (eapply frame_rf_step; [done | set_solver..]).
  apply pg_ensures_bind, pg_ensures_lift. fold n. eapply ensures_mono.
  { apply (update_means_ok n nInS (nRegStore RF0)); [done | done | done | exact Hs0 | lia | apply (ws_sizes _ _ _ Hw)]. }
  intros [[RF1 xz] ymz] (Hs1 & Hf1 & Hlz). cbv beta iota.
  assert (Hok1 : rf_ok n nInS RF1) by (by eapply rf_frame_ok).
  assert (S1 : step RF RF1) by (eapply rf_step_trans; [done|]; eapply frame_rf_step; [done | set_solver..]).
  assert (Hw1 : wsz n nInS (set_wsa WS xmz xz)) by (apply set_wsa_wsz; done).
  eapply pg_ensures_bind_mono.
  { apply update_regression_ok; [done | done | rewrite (ws_sizes _ _ _ Hw1); cbn; lia | done]. }
  intros [[[[RF2 WS2] yp] ec] e] st2 (Hok2 & _ & _ & Hw2 & S2 & Hh2 & F2). cbv beta iota.
  apply pg_ensures_bind, pg_ensures_lift. eapply ensures_mono; [apply (push_error_ok n nInS (nRegStore RF2)); [exact (rf_sizes _ _ _ Hok2) | apply Hok2]|].
  intros RF3 (RF3' & x & -> & Hf3 & Hx). set (RF3 := set_pred_error_num RF3' x).
  assert (Hok3 : rf_ok n nInS RF3).
  { pose proof (rf_frame_ok _ _ _ _ _ Hf3 Hok2) as [Ha Hb Hc Hd]. subst RF3. destruct RF3'. by split. }
  assert (S3 : step RF RF3).
  { eapply rf_step_trans; [exact S1|]. eapply rf_step_trans; [exact S2|].
    eapply rf_step_trans; [eapply frame_rf_step; [exact Hf3 | set_solver..]|]. by apply arrs_rf_step; subst RF3; destruct RF3'. }
  set (TD' := if (trustworthy RF3 =? 0)%Z then TD else _).
  assert (HTD : td_same TD TD') by (subst TD'; by destruct (trustworthy RF3 =? 0)%Z).
  apply pg_ensures_bind. apply (pg_ensures_mono _ _ (fun '(RF', WS') st' => st' = st2 ∧ rf_ok n nInS RF' ∧ wsz n nInS WS' ∧ step RF RF')).
  { destruct (update_D (cfg m)); [|done]. apply pg_ensures_bind, pg_ensures_lift. pose proof Hok3 as [Hr3 HRS3 Hs3 Hc3].
    eapply ensures_mono.
    { apply (update_distance_metric_ok n nInS (nRegStore RF3)); [done | done | done | done | done | exact Hs3 | done | lia | lia]. }
    intros [[RF4 WS4] tm] (Hs4 & Hw4 & Hf4 & Hm4). unfold pg_ensures. simpl.
    split_and!; [done | by eapply rf_frame_ok | done|]. eapply rf_step_trans; [exact S3|]. split.
    - apply (fr_arr _ _ _ Hf4). set_solver.
    - by rewrite (fr_reg _ _ _ Hf4).
    - by rewrite (fr_trust _ _ _ Hf4).
    - intros [H1' H2']. split; [by rewrite (fr_trust _ _ _ Hf4) | by apply Hf4].
    - done. }
  intros [RF4 WS4] st4 (-> & Hok4 & Hw4 & S4). cbv beta iota. pose proof Hok4 as [Hr4 HRS4 Hs4 Hc4].
  apply pg_ensures_bind, pg_ensures_lift. eapply ensures_mono.
  { apply (check_add_projection_ok n nInS (nRegStore RF4)); [done | done | done | done | done | exact Hs4 | done | done]. }
  intros [RF5 code] [Hs5 H5]. cbv beta iota.
  assert (H5' : rf_ok n nInS RF5 ∧ step RF RF5).
  { destruct H5 as [->|(Hlt & RF5' & Hf5 & ->)]; [done|].
    pose proof (rf_frame_ok _ _ _ _ _ Hf5 Hok4) as [Ha Hb Hc Hd]. split.
    - destruct RF5'. split; simpl in *; try done. lia.
    - eapply rf_step_trans; [exact S4|]. eapply rf_step_trans; [eapply frame_rf_step; [exact Hf5 | set_solver..]|].
      apply arrs_rf_step; [by destruct RF5' | | by destruct RF5'..]. pose proof (fr_reg _ _ _ Hf5). destruct RF5'. simpl in *. lia. }
  destruct H5' as [Hok5 S5]. apply pg_ensures_bind, pg_ensures_lift. eapply ensures_mono; [by apply forget_data_ok|].
  intros RF6 [Hok6 S6]. unfold pg_ensures. simpl. split_and!; try done. by eapply rf_step_trans.
Qed.
End field.

(** ** The whole model *)
Lemma model_ok_fields m l WS np :
  model_ok m → Forall (rf_ok (nIn (cfg m)) (nInStore (cfg m))) l → length l ≤ np → wsz (nIn (cfg m)) (nInStore (cfg m)) WS →
  model_ok (set_rf (set_ws (set_numPointers m np) WS) l).
Proof. intros [H1 H2 H3 H4 H5 H6 H7 H8 H9] Hl Hn Hw. destruct m. by split. Qed.

(** The activation thresholds are not negative, as [lwpr_init_model] sets them. *)
Definition thresholds_ok (cf : LWPR_Config) : Prop :=
  dlt (dlit 1 10 * w_gen cf)%D d0 = false ∧ dlt (w_prune cf) d0 = false.

(** What the members of a model other than its fields are. *)
Definition same_rest (m m' : LWPR_Model) : Prop :=
  cfg m' = cfg m ∧ xn m' = xn m ∧ yn m' = yn m ∧ fss_hash m' = fss_hash m ∧ m_n_data m' = m_n_data m.

(** How the fields of a model change after they have learned. *)
Definition fields_change (n : nat) (x : list double) (learned fields : list LWPR_ReceptiveField) : Prop :=
  fields = learned ∨
  (∃ RF, fields = learned ++ [RF] ∧ take n (arr RF c) = take n x) ∨
  (∃ gone, learned ≡ₚ gone :: fields).

Lemma prune_perm {A} (l : list A) i last x :
  l !! i = Some x → l !! (length l - 1) = Some last →
  l ≡ₚ x :: take (length l - 1) (if i <? length l - 1 then <[i := last]> l else l).
Proof.
  intros Hi Hlast. pose proof (lookup_lt_Some _ _ _ Hi) as Hlt.
  assert (E : l = take (length l - 1) l ++ [last]).
  { rewrite <- (take_drop (length l - 1) l) at 1. f_equal. rewrite (drop_S _ last) by done.
    replace (S (length l - 1)) with (length l) by lia. by rewrite drop_ge. }
  set (k := length l - 1) in *. destruct (Nat.ltb_spec i k) as [Hik|Hik].
  - rewrite take_insert_lt by done. set (l0 := take k l) in *.
    assert (Hi0 : l0 !! i = Some x) by (subst l0; by rewrite lookup_take_lt).
    rewrite E at 1. rewrite (Permutation_app_comm l0 [last]). simpl.
    rewrite <- (take_drop_middle l0 i x Hi0) at 1. rewrite insert_take_drop by (by eapply lookup_lt_Some).
    rewrite <- !Permutation_middle. apply Permutation_swap.
  - assert (i = k) as -> by lia. rewrite Hlast in Hi. injection Hi as ->. rewrite E at 1. by rewrite Permutation_app_comm.
Qed.

Section model.
Context `{Cluster} `{Libm} `{Palloc} (Hcalm : calm).

Lemma update_rf_ok k m TD st :
  model_ok m → house_ok (nIn (cfg m)) (fss_hash m) st → td_ok (numRFS m) TD → k < numRFS m →
  pg_ensures (update_rf k (m, TD)) st (fun '(m', TD') st' =>
    model_ok m' ∧ same_rest m m' ∧ house_ok (nIn (cfg m)) (fss_hash m) st' ∧ db_frame (fss_hash m) st st' ∧ td_ok (numRFS m') TD' ∧
    Forall2 (rf_step (nIn (cfg m)) (nInStore (cfg m)) (diag_only (cfg m))) (rf m) (rf m')).
Proof.
  intros Hm Hh HTD Hk. unfold update_rf. cbv zeta.
  destruct (rd_lt (rf m) k Hk) as (RF & HRF & ->). pose proof (Forall_lookup_1 _ _ _ _ (m_rf _ Hm) HRF) as Hok.
  apply pg_ensures_bind, pg_ensures_lift. cbn [ensures].
  apply pg_ensures_bind, pg_ensures_lift. eapply ensures_mono; [apply rf_distance_ok; [done | done | apply Hm]|].
  intros [WS dist] Hw. cbv beta iota in Hw |- *. destruct (kernel_weight _ dist) as [w dwdq].
  pose proof (track_max_ok _ w k _ HTD Hk) as HTD1.
  apply pg_ensures_bind. apply (pg_ensures_mono _ _ (fun '(RF', WS', TD') st' =>
    rf_ok (nIn (cfg m)) (nInStore (cfg m)) RF' ∧ wsz (nIn (cfg m)) (nInStore (cfg m)) WS' ∧ td_same (track_max w k TD) TD' ∧
    rf_step (nIn (cfg m)) (nInStore (cfg m)) (diag_only (cfg m)) RF RF' ∧
    house_ok (nIn (cfg m)) (fss_hash m) st' ∧ db_frame (fss_hash m) st st')).
  { destruct (dlt _ w); [by apply rf_learn_ok|]. unfold pg_ensures. simpl. pose proof (set_w_frame [] RF d0) as Hf.
    split_and!; try done; [by eapply rf_frame_ok|]. eapply frame_rf_step; [done | set_solver..]. }
  intros [[RF' WS'] TD'] st' (Hok' & Hw' & Hsame & Hst & Hh' & Hf'). unfold pg_ensures. simpl.
  assert (Hlen : length (<[k := RF']> (rf m)) = numRFS m) by apply length_insert.
  assert (Hm' : model_ok (set_rf (set_ws m WS') (<[k := RF']> (rf m)))).
  { pose proof (model_ok_fields m (<[k := RF']> (rf m)) WS' (numPointers m) Hm) as Hmk.
    replace (set_numPointers m (numPointers m)) with m in Hmk by (by destruct m). apply Hmk; [|rewrite Hlen; apply Hm | done].
    apply Forall_insert; [apply Hm | done]. }
  split_and!; try done.
  - by destruct m.
  - unfold numRFS. destruct m. simpl in *. rewrite length_insert. destruct Hsame as (E1 & E2 & E3 & E4).
    unfold td_ok. by rewrite E1, E2, E3, E4.
  - destruct m. simpl in *. apply Forall2_same_length_lookup. split; [by rewrite length_insert|].
    intros i x y Hx Hy. destruct (decide (i = k)) as [->|Hne].
    + rewrite list_lookup_insert_eq in Hy by done. by simplify_eq.
    + rewrite list_lookup_insert_ne in Hy by done. simplify_eq. apply rf_step_refl.
Qed.

Lemma same_rest_trans m1 m2 m3 : same_rest m1 m2 → same_rest m2 m3 → same_rest m1 m3.
Proof. unfold same_rest. naive_solver congruence. Qed.

Lemma steps_trans n nInS diag l1 l2 l3 :
  Forall2 (rf_step n nInS diag) l1 l2 → Forall2 (rf_step n nInS diag) l2 l3 → Forall2 (rf_step n nInS diag) l1 l3.
Proof.
  intros H12. revert l3. induction H12 as [|x y l1 l2 Hxy _ IH]; intros l3 H23; inversion H23; subst; constructor;
    [by eapply rf_step_trans | by apply IH].
Qed.

Lemma update_one_T_ok m st :
  model_ok m → house_ok (nIn (cfg m)) (fss_hash m) st →
  (0 ≤ current_query_hash (ctx st) ≤ Z.of_nat num_query_pattern)%Z →
  pg_ensures (lwpr_aux_update_one_T m) st (fun '(m', TD') st' =>
    model_ok m' ∧ same_rest m m' ∧ house_ok (nIn (cfg m)) (fss_hash m) st' ∧ db_frame (fss_hash m) st st' ∧ td_ok (numRFS m') TD' ∧
    Forall2 (rf_step (nIn (cfg m)) (nInStore (cfg m)) (diag_only (cfg m))) (rf m) (rf m')).
Proof.
  intros Hm Hh Hq. unfold lwpr_aux_update_one_T. cbv zeta. pose proof (field_sizes m Hm) as (Hn & HnS & Hx).
  assert (HTD0 : td_ok (numRFS m) (mkTD d0 (-1) d0 (-1) d0 d0)) by (unfold td_ok; simpl; split_and!; try lia; by left).
  assert (Hrefl : Forall2 (rf_step (nIn (cfg m)) (nInStore (cfg m)) (diag_only (cfg m))) (rf m) (rf m)).
  { apply Forall2_same_length_lookup. split; [done|]. intros. simplify_eq. apply rf_step_refl. }
  destruct (Nat.eqb_spec (numRFS m) 0) as [Hz|Hz].
  - unfold pg_ensures. rewrite pg_get_bind. change (pg_ensures (pg_lift (push_history (current_query_hash (ctx st)) (nIn (cfg m)) (xn m)
      (history_data_matrix m) (num_history_data m)) ≫= fun '(hist, counts) => mret (set_history m hist counts, mkTD d0 (-1) d0 (-1) d0 d0)) st
      (fun '(m', TD') st' => model_ok m' ∧ same_rest m m' ∧ house_ok (nIn (cfg m)) (fss_hash m) st' ∧ db_frame (fss_hash m) st st' ∧ td_ok (numRFS m') TD' ∧
      Forall2 (rf_step (nIn (cfg m)) (nInStore (cfg m)) (diag_only (cfg m))) (rf m) (rf m'))).
    apply pg_ensures_bind, pg_ensures_lift. eapply ensures_mono.
    { apply push_history_ok; [done | lia | apply Hm..]. }
    intros [hist counts] (H1' & H2' & H3' & H4'). unfold pg_ensures. cbn [mret PG_ret].
    assert (Hm' : model_ok (set_history m hist counts)) by (destruct Hm; destruct m; by split).
    destruct m. simpl in *. by split_and!.
  - eapply pg_ensures_mono; [apply (pg_ensures_for (fun _ '(m', TD') st' =>
      model_ok m' ∧ same_rest m m' ∧ house_ok (nIn (cfg m)) (fss_hash m) st' ∧ db_frame (fss_hash m) st st' ∧ td_ok (numRFS m') TD' ∧
      Forall2 (rf_step (nIn (cfg m)) (nInStore (cfg m)) (diag_only (cfg m))) (rf m) (rf m'))); [lia | done|] | done].
    intros j [m1 TD1] st1 Hj (Hm1 & Hsame1 & Hh1 & Hf1 & HTD1 & Hst1).
    pose proof Hsame1 as (Ec & _ & _ & Ef & _).
    assert (Hl1 : numRFS m1 = numRFS m) by (symmetry; by eapply Forall2_length).
    eapply pg_ensures_mono; [apply update_rf_ok; [done | by rewrite Ec, Ef | done | lia]|].
    intros [m2 TD2] st2 (Hm2 & Hsame2 & Hh2 & Hf2 & HTD2 & Hst2). rewrite Ec in Hh2, Hst2. rewrite Ef in Hh2, Hf2.
    split_and!; [done | by eapply same_rest_trans | done | by eapply db_frame_trans | done | by eapply steps_trans].
Qed.

Lemma trace_D_ok n nInS RF : n ≤ nInS → rf_ok n nInS RF → ensures (trace_D n nInS RF) (fun _ => True).
Proof.
  intros Hle [_ _ Hs _]. assert (Hs' : rsz n nInS (nRegStore RF) RF) by exact Hs.
  apply (ensures_for (fun _ _ => True)); [lia | done|]. intros i t Hi _.
  assert (i + i * nInS < nInS * n) by (apply (rf_mat_lt n); lia). by repeat lstep.
Qed.

(** The metric a new field starts with. *)
Definition diag_config (cf : LWPR_Config) : Prop :=
  ∀ i j, i < nIn cf → j < nIn cf → init_D cf !! (i + j * nInStore cf) =
    if decide (i = j) then (fun x => x * x)%D <$> init_M cf !! (i + j * nInStore cf) else Some d0.

Lemma add_prune_ok m TD x y st :
  model_ok m → thresholds_ok (cfg m) → td_ok (numRFS m) TD → house_ok (nIn (cfg m)) (fss_hash m) st →
  nIn (cfg m) ≤ length x →
  pg_ensures (lwpr_aux_update_one_add_prune m TD x y) st (fun '(m', code) st' =>
    model_ok m' ∧ code = 1%Z ∧ same_rest m m' ∧ house_ok (nIn (cfg m)) (fss_hash m) st' ∧ db_frame (fss_hash m) st st' ∧
    fields_change (nIn (cfg m)) x (rf m) (rf m') ∧
    (diag_config (cfg m) → Forall (diag_metric (nIn (cfg m)) (nInStore (cfg m))) (rf m) →
     Forall (diag_metric (nIn (cfg m)) (nInStore (cfg m))) (rf m')) ∧
    (Forall flags_ok (rf m) → Forall flags_ok (rf m'))).
Proof.
  intros Hm [Hg Hp] (Hmax & Hsec & Hms) Hh Hx. pose proof (field_sizes m Hm) as (Hn & HnS & Hxn).
  unfold lwpr_aux_update_one_add_prune. cbv zeta. destruct (dle _ _).
  - apply pg_ensures_bind, pg_ensures_lift. eapply ensures_mono; [apply add_rf_ok|].
    intros [m1 RF0] ((k & -> & Hk & Hk') & _ & _). cbv beta iota.
    set (m1 := set_rf (set_numPointers m k) (rf m ++ [RF0])).
    assert (E : cfg m1 = cfg m ∧ rf m1 = rf m ++ [RF0] ∧ fss_hash m1 = fss_hash m) by (by destruct m).
    destruct E as (Ec & Er & Ef).
    apply pg_ensures_bind, pg_ensures_lift. apply (ensures_mono _ (fun RFT => ∀ T, RFT = Some T → T ∈ rf m)).
    { destruct (dlt _ (td_w_max TD)) eqn:Ew; [|done].
      assert (Hi : (0 ≤ td_ind_max TD < Z.of_nat (numRFS m))%Z).
      { destruct Hmax as [[_ E0]|?]; [|done]. rewrite E0, Hg in Ew. done. }
      apply ensures_bind. apply ensures_rdz; [rewrite Er, length_app; unfold numRFS in *; lia|]. intros T HT. simpl.
      rewrite Er, lookup_app_l in HT by (unfold numRFS in *; lia).
      destruct (_ =? 0)%Z; [done|]. intros T' [= <-]. by eapply list_elem_of_lookup_2. }
    intros RFT HRFT. unfold lwpr_aux_init_rf.
    apply pg_ensures_bind, pg_ensures_bind, pg_ensures_lift. eapply ensures_mono.
    { apply init_rf_ok; rewrite Ec; [apply Hm | | done]. intros T HT. exact (proj1 (Forall_forall _ _) (m_rf _ Hm) T (HRFT T HT)). }
    intros RF (Hok & Etr & Esl & _ & ED & EM & _ & Ecen). rewrite Ec in Hok, Ecen.
    eapply pg_ensures_bind_mono; [apply learn_datahouse_ok; rewrite ?Ec, ?Ef; done|].
    intros _ st1 [Hh1 Hf1]. unfold pg_ensures. cbn [mret PG_ret]. rewrite Ec, Ef in Hh1. rewrite Ef in Hf1.
    assert (Erf : <[numRFS m1 - 1 := RF]> (rf m1) = rf m ++ [RF]).
    { unfold numRFS. rewrite Er, length_app, Nat.add_sub. by rewrite insert_app_r_alt, Nat.sub_diag by lia. }
    rewrite Erf.
    assert (Em2 : set_rf m1 (rf m ++ [RF]) = set_rf (set_ws (set_numPointers m k) (ws m)) (rf m ++ [RF])) by (by destruct m).
    rewrite Em2. assert (Erf2 : ∀ np l, rf (set_rf (set_ws (set_numPointers m np) (ws m)) l) = l) by (by destruct m).
    rewrite Erf2. split_and!; try done.
    + apply model_ok_fields; [done | | rewrite length_app; unfold numRFS in *; simpl; lia | apply Hm].
      apply Forall_app. split; [apply Hm | by apply Forall_singleton].
    + by destruct m.
    + right. left. by exists RF.
    + intros Hcf Hall. apply Forall_app. split; [done|]. apply Forall_singleton. intros i j Hi Hj.
      rewrite ED, EM. destruct RFT as [T|]; simpl; [|rewrite Ec; by apply Hcf].
      exact (proj1 (Forall_forall _ _) Hall T (HRFT T eq_refl) i j Hi Hj).
    + intros Hall. apply Forall_app. split; [done|]. apply Forall_singleton. split; auto.
  - destruct (dlt _ (td_w_sec TD)) eqn:Ew.
    2:{ unfold pg_ensures. simpl. split_and!; try done. by left. }
    assert (Hi2 : (0 ≤ td_ind_sec TD < Z.of_nat (numRFS m))%Z).
    { destruct Hsec as [[_ E0]|?]; [|done]. rewrite E0, Hp in Ew. done. }
    assert (Hi1 : (0 ≤ td_ind_max TD < Z.of_nat (numRFS m))%Z) by lia. clear Hmax Hsec Hms.
    destruct (lookup_lt_is_Some_2 (rf m) (Z.to_nat (td_ind_max TD))) as [R1 HR1]; [unfold numRFS in *; lia|].
    destruct (lookup_lt_is_Some_2 (rf m) (Z.to_nat (td_ind_sec TD))) as [R2 HR2]; [unfold numRFS in *; lia|].
    destruct (rd_lt (rf m) (numRFS m - 1)) as (RL & HRL & EL); [unfold numRFS in *; lia|].
    pose proof (Forall_lookup_1 _ _ _ _ (m_rf _ Hm) HR1) as Hok1. pose proof (Forall_lookup_1 _ _ _ _ (m_rf _ Hm) HR2) as Hok2.
    apply pg_ensures_bind, pg_ensures_lift, ensures_rdz; [unfold numRFS in *; lia|]. rewrite HR1. intros _ [= <-].
    apply pg_ensures_bind, pg_ensures_lift, ensures_rdz; [unfold numRFS in *; lia|]. rewrite HR2. intros _ [= <-].
    apply pg_ensures_bind, pg_ensures_lift. eapply ensures_mono; [by apply trace_D_ok|]. intros t1 _.
    apply pg_ensures_bind, pg_ensures_lift. eapply ensures_mono; [by apply trace_D_ok|]. intros t2 _.
    set (prune := if dlt t1 t2 then _ else _).
    assert (Hpr : (0 ≤ prune < Z.of_nat (numRFS m))%Z) by (subst prune; by destruct (dlt t1 t2)).
    clearbody prune. apply pg_ensures_bind, pg_ensures_lift. rewrite EL. cbn [ensures].
    set (i := Z.to_nat prune). assert (Ei : prune = Z.of_nat i) by lia.
    set (fields := if i <? numRFS m - 1 then <[i := RL]> (rf m) else rf m).
    assert (Efields : (if (prune <? Z.of_nat (numRFS m) - 1)%Z then wrz (rf m) prune RL else Ok (rf m)) = Ok fields).
    { subst fields. destruct (Z.ltb_spec prune (Z.of_nat (numRFS m) - 1)), (Nat.ltb_spec i (numRFS m - 1)); try lia; [|done].
      rewrite Ei. apply wrz_of_nat. unfold numRFS in *. lia. }
    rewrite Efields. apply pg_ensures_bind, pg_ensures_lift. cbn [ensures]. unfold pg_ensures. cbn [mret PG_ret].
    destruct (lookup_lt_is_Some_2 (rf m) i) as [gone Hgone]; [unfold numRFS in *; lia|].
    pose proof (prune_perm (rf m) i RL gone Hgone HRL) as Hperm. fold fields in Hperm. unfold numRFS in *.
    set (fl := take (length (rf m) - 1) fields) in *.
    assert (Hsub : ∀ P : LWPR_ReceptiveField → Prop, Forall P (rf m) → Forall P fl).
    { intros Q HQ. rewrite Hperm in HQ. by inversion HQ. }
    assert (Hrf : rf (set_n_pruned (set_rf m fl) (n_pruned m + 1)) = fl) by (by destruct m). rewrite Hrf.
    split_and!; try done.
    + pose proof (model_ok_fields m fl (ws m) (numPointers m) Hm (Hsub _ (m_rf _ Hm))) as Hmk.
      assert (Hlen : length fl ≤ numPointers m).
      { pose proof (m_cap _ Hm). apply Permutation_length in Hperm.
        assert (Hone : length (rf m) = S (length fl)) by exact Hperm. unfold numRFS in *. lia. }
      specialize (Hmk Hlen (m_ws _ Hm)). destruct Hmk. destruct m. by split.
    + by destruct m.
    + right. right. by exists gone.
    + intros _. apply Hsub.
    + apply Hsub.
Qed.
End model.

(** ** Properties *)
Section properties.
Context `{Cluster} `{Libm} `{Palloc}.

Definition normalised (cf : LWPR_Config) (x : list double) : list double := zip_with ddiv x (norm_in cf).

Lemma normalise_ok cf x xs :
  nIn cf ≤ length x → nIn cf ≤ length (norm_in cf) → nIn cf ≤ length xs →
  ensures (for_range 0 (nIn cf) (fun i xs => xi ← rd x i; ni ← rd (norm_in cf) i; wr xs i (xi / ni)%D) xs)
    (fun xs' => length xs' = length xs ∧ take (nIn cf) xs' = take (nIn cf) (normalised cf x)).
Proof.
  intros Hx Hn Hs. eapply ensures_mono.
  - apply (ensures_for (fun k xs' => length xs' = length xs ∧ ∀ i, i < k → xs' !! i = normalised cf x !! i)); [lia | split; [done | lia]|].
    intros k xs' Hk [Hl He]. apply ensures_bind, ensures_rd; [lia|]. intros xi Hxi.
    apply ensures_bind, ensures_rd; [lia|]. intros ni Hni. apply ensures_wr; [lia|]. split; [by rewrite length_insert|].
    intros i Hi. destruct (decide (i = k)) as [->|Hne].
    + rewrite list_lookup_insert_eq by lia. unfold normalised. symmetry. apply lookup_zip_with_Some. eauto 6.
    + rewrite list_lookup_insert_ne by done. apply He. lia.
  - intros xs' [Hl He]. split; [done|]. apply list_eq. intros i. destruct (decide (i < nIn cf)).
    + rewrite !lookup_take_lt by done. by apply He.
    + rewrite !lookup_take_ge by lia. done.
Qed.

Lemma update_ok m x y st :
  calm → model_ok m → thresholds_ok (cfg m) → house_ok (nIn (cfg m)) (fss_hash m) st →
  (0 ≤ current_query_hash (ctx st) ≤ Z.of_nat num_query_pattern)%Z → nIn (cfg m) ≤ length x →
  pg_ensures (lwpr_update m x y) st (fun '(m', code) st' =>
    code = 1%Z ∧ model_ok m' ∧ cfg m' = cfg m ∧ fss_hash m' = fss_hash m ∧ m_n_data m' = (m_n_data m + 1)%Z ∧
    house_ok (nIn (cfg m)) (fss_hash m) st' ∧ db_frame (fss_hash m) st st' ∧
    (∃ learned, Forall2 (rf_step (nIn (cfg m)) (nInStore (cfg m)) (diag_only (cfg m))) (rf m) learned ∧
       fields_change (nIn (cfg m)) (normalised (cfg m) x) learned (rf m')) ∧
    (diag_only (cfg m) = true → diag_config (cfg m) →
     Forall (diag_metric (nIn (cfg m)) (nInStore (cfg m))) (rf m) → Forall (diag_metric (nIn (cfg m)) (nInStore (cfg m))) (rf m')) ∧
    (Forall flags_ok (rf m) → Forall flags_ok (rf m'))).
Proof.
  intros Hcalm Hm Hth Hh Hq Hx. pose proof (field_sizes m Hm) as (Hn & HnS & Hxn). unfold lwpr_update. cbv zeta.
  set (m0 := set_n_data m (m_n_data m + 1)). assert (E0 : cfg m0 = cfg m ∧ xn m0 = xn m) by (by destruct m).
  destruct E0 as [Ec0 Ex0]. rewrite !Ec0, Ex0. apply pg_ensures_bind, pg_ensures_lift. eapply ensures_mono.
  { apply normalise_ok; [done | rewrite (cfg_norm _ (m_cfg _ Hm)); lia | lia]. }
  intros xs [Hlx Ex]. set (m1 := set_xy m0 xs _).
  assert (E1 : cfg m1 = cfg m ∧ xn m1 = xs ∧ fss_hash m1 = fss_hash m ∧ rf m1 = rf m ∧ m_n_data m1 = (m_n_data m + 1)%Z) by (by destruct m).
  destruct E1 as (Ec & Exn & Ef & Er & Ed).
  assert (Hm1 : model_ok m1) by (destruct Hm; destruct m; split; simpl in *; congruence || done).
  clearbody m1. unfold lwpr_aux_update_one.
  eapply pg_ensures_bind_mono; [apply (update_one_T_ok Hcalm); [done | by rewrite Ec, Ef | done]|].
  intros [m2 TD] st2 (Hm2 & (Ec2 & _ & _ & Ef2 & Ed2) & Hh2 & Hf2 & HTD & Hst). rewrite Ec in Hst, Ec2, Hh2. rewrite Ef in Hh2, Ef2, Hf2.
  eapply pg_ensures_mono; [apply (add_prune_ok Hcalm); [done | by rewrite Ec2 | done | by rewrite Ec2, Ef2 | rewrite Ec2, Exn; lia]|].
  intros [m3 code] st3 (Hm3 & -> & (Ec3 & _ & _ & Ef3 & Ed3) & Hh3 & Hf3 & Hch & Hdg & Hfl). rewrite Ec2 in *. rewrite Ef2 in *.
  split_and!; [done | done | congruence | congruence | congruence | done | by eapply db_frame_trans | | |].
  - exists (rf m2). split; [by rewrite <- Er|]. unfold fields_change in *.
    destruct Hch as [?|[(RF & ? & Hc)|?]]; [by left | | by right; right]. right. left. exists RF. split; [done|].
    by rewrite Hc, Exn, Ex.
  - intros Hd Hcf Hall. apply Hdg; [done|]. rewrite <- Er in Hall. clear -Hst Hall Hd.
    induction Hst as [|RF RF' l l' Hs _ IH]; [constructor|]. inversion Hall; subst. constructor; [by apply Hs | by apply IH].
  - intros Hall. apply Hfl. rewrite <- Er in Hall. clear -Hst Hall.
    induction Hst as [|RF RF' l l' Hs _ IH]; [constructor|]. inversion Hall; subst. constructor; [by apply Hs | by apply IH].
Qed.


(** The models a session can reach: a new model for a feature subspace, then
    any number of training steps. *)
Inductive trained : LWPR_Model → pgstate → Prop :=
| trained_new mis mis_ws other n fss m st :
    1 ≤ n → lwpr_init_model mis mis_ws other n = Ok m → house_ok n fss st →
    trained (set_fss_hash m fss) st
| trained_step m st x y m' code st' :
    trained m st → nIn (cfg m) ≤ length x →
    (0 ≤ current_query_hash (ctx st) ≤ Z.of_nat num_query_pattern)%Z →
    lwpr_update m x y st = (Ok (m', code), st') → trained m' st'.

Lemma init_diag mis mis_ws other n m :
  1 ≤ n → lwpr_init_model mis mis_ws other n = Ok m →
  model_ok m ∧ nIn (cfg m) = n ∧ rf m = [] ∧ thresholds_ok (cfg m) ∧ diag_only (cfg m) = true ∧ diag_config (cfg m).
Proof.
  intros Hn E. pose proof (init_model_ok mis mis_ws other n Hn) as Hi. rewrite E in Hi.
  destruct Hi as (Hm & En & Er & _ & HD & HM & Eg & Ep & Ed). split_and!; try done.
  - unfold thresholds_ok. rewrite Eg, Ep. by vm_compute.
  - intros i j. rewrite En, (cfg_nInS _ (m_cfg _ Hm)), En. intros Hi Hj. rewrite HD by done.
    case_decide as Eij; [|done]. subst j. by rewrite HM.
Qed.

Lemma trained_inv m st :
  calm → trained m st → model_ok m ∧ thresholds_ok (cfg m) ∧ house_ok (nIn (cfg m)) (fss_hash m) st ∧
    diag_only (cfg m) = true ∧ diag_config (cfg m) ∧ Forall (diag_metric (nIn (cfg m)) (nInStore (cfg m))) (rf m).
Proof.
  intros Hcalm. induction 1 as [mis mis_ws other n fss m st Hn E Hh | m st x y m' code st' _ IH Hx Hq E].
  - destruct (init_diag _ _ _ _ _ Hn E) as (Hm & En & Er & Hth & Hd & Hcf). destruct m. simpl in *. subst.
    split_and!; try done. destruct Hm. by split.
  - destruct IH as (Hm & Hth & Hh & Hd & Hcf & Hall).
    pose proof (update_ok m x y st Hcalm Hm Hth Hh Hq Hx) as Hu. unfold pg_ensures in Hu. rewrite E in Hu.
    destruct Hu as (_ & Hm' & Ec & Ef & _ & Hh' & _ & _ & Hdg & _). rewrite Ec, Ef. split_and!; try done. by apply Hdg.
Qed.

End properties.

(** ** Witnesses *)
Definition sample_init : LWPR_Model :=
  match lwpr_init_model true false zero_config 1 with Ok m => m | Err _ => sample_model end.

Lemma good_calm : @calm good_cluster.
Proof. by split; auto. Qed.

Lemma empty_house n fss : house_ok n fss (sample_state aqo_data []).
Proof. split; [split; [intros [] | intros []]; done | done]. Qed.


