(* ===== verification/LwprPredict.v ===== *)
(** * LwprPredict: predicting with an LWPR model

    [lwpr_predict] and [lwpr_predict_explore] of
    contrib/aqo/machine_learning_lwpr.c with everything they call: the weighted
    mean of the predictions of the receptive fields near the input, and the
    explore values (how uncertain the prediction is, and how much it would help
    future queries to learn here).  A field that is not trustworthy predicts
    with the rows of its data house, so the prediction reads the database. *)
From S2P Require Import Prelude Float64 HashText Knn PgArray LwprModel LwprMath LwprReg PgState Storage LwprUpdate.
Import RFA.
Import WSA.

(** Parameters of the prediction (aqo.c). *)
Definition confidence_bound_percentile : double := dlit 1 100.
Definition use_aqo_threshold : double := dlit 1 100000.
Definition avg_error_threshold : double := d_of_Z 1.
Definition outer_future_value : double := d_of_Z 1.

(** [switch (kernel)] of the prediction: the activation of a field. *)
Definition predict_weight `{Libm} (k : LWPR_Kernel) (dist : double) : double :=
  match k with
  | LWPR_GAUSSIAN_KERNEL => c_exp (- dlit 5 10 * dist)%D
  | LWPR_BISQUARE_KERNEL =>
      let w := (d_of_Z 1 - dlit 25 100 * dist)%D in
      if (w <? d0)%D then d0 else (w * w)%D
  end.

(** [xc = xn - RF->mean_x] *)
Definition centre_on_mean (n : nat) (RF : LWPR_ReceptiveField) (x : list double) (WS : LWPR_Workspace)
  : res LWPR_Workspace :=
  for_range 0 n (fun i WS => xi ← rd x i; mi ← getr RF mean_x i; setw WS xc i (xi - mi)%D) WS.

(** [lwpr_aux_compute_projection] on the arrays of the workspace. *)
Definition project (n nInS nR : nat) (RF : LWPR_ReceptiveField) (WS : LWPR_Workspace) : res LWPR_Workspace :=
  '(sv, xv) ← lwpr_aux_compute_projection n nInS nR (wsa WS ws_s) (wsa WS xc) (arr RF U) (arr RF P) (wsa WS xu);
  Ok (set_wsa (set_wsa WS ws_s sv) xu xv).

(** The regression of a trustworthy field at the difference [xc]; its last
    direction is left out while it has seen too few data. *)
Definition pls_value (n nInS : nat) (RF : LWPR_ReceptiveField) (WS : LWPR_Workspace) : res (LWPR_Workspace * double) :=
  nd ← rdz (arr RF n_data) (Z.of_nat (nReg RF) - 1);
  let nR := if (nd <=? d_of_Z (2 * Z.of_nat n))%D then nReg RF - 1 else nReg RF in
  WS ← project n nInS nR RF WS;
  y ← for_range 0 nR (fun i y => si ← getw WS ws_s i; b ← getr RF beta i; Ok (y + si * b)%D) (beta0 RF);
  Ok (WS, y).

Section predict.
Context `{Cluster} `{Libm}.

(** The prediction of a young field from its data house; [yp] stays as it was
    when there is none. *)
Definition knn_value (fss : Z) (centre : list double) (n : nat) (features : list double) (yp : double) : PG double :=
  let cap := 2 * n + 1 in
  rf_hash ← pg_lift (if n <=? length centre then Ok (get_int_array_hash2 (take n centre)) else Err Fault_bounds);
  '(found, (matrix, targets, stored)) ← load_rf_datahouse fss rf_hash (replicate cap (palloc0 n)) (palloc0 cap);
  if (found : bool) then pg_lift (OkNNr_predict (default 0 stored) n matrix targets features 2) else mret yp.

(** What [lwpr_aux_predict_one_T] keeps between two fields. *)
Record pred_state : Type := mkPred {
  p_ws : LWPR_Workspace;
  p_w_max : double;
  p_idx_max : nat;
  p_yp : double;
  p_sum_w : double
}.

(** One field of the loop of [lwpr_aux_predict_one_T]. *)
Definition predict_field (m : LWPR_Model) (cutoff : double) (k : nat) (p : pred_state) : PG pred_state :=
  let '(mkPred WS w_max idx_max yp total_w) := p in
  let n := nIn (cfg m) in
  let nInS := nInStore (cfg m) in
  RF ← pg_lift (rd (rf m) k);
  '(WS, dist) ← pg_lift (rf_distance n nInS RF (xn m) WS);
  let w := predict_weight (kernel (cfg m)) dist in
  let '(w_max, idx_max) := if (w >? w_max)%D then (w, k) else (w_max, idx_max) in
  if (w >? cutoff)%D then
    WS ← pg_lift (centre_on_mean n RF (xn m) WS);
    '(WS, yp_n) ←
      (if negb (slopeReady RF =? 0)%Z then
         d ← pg_lift (lwpr_math_dot_product (wsa WS xc) 0 (arr RF slope) 0 n);
         mret (WS, (beta0 RF + d)%D)
       else if negb (trustworthy RF =? 0)%Z then pg_lift (pls_value n nInS RF WS)
       else y ← knn_value (fss_hash m) (arr RF c) n (xn m) (beta0 RF); mret (WS, y));
    mret (mkPred WS w_max idx_max (yp + w * yp_n)%D (total_w + w)%D)
  else mret (mkPred WS w_max idx_max yp total_w).

(** The last resort: the nearest field alone.  The difference [xc] is the one
    the last field left in the workspace. *)
Definition nearest_field (m : LWPR_Model) (idx_max : nat) (WS : LWPR_Workspace) (yp : double)
  : PG (LWPR_Workspace * double) :=
  let n := nIn (cfg m) in
  RF ← pg_lift (rd (rf m) idx_max);
  if negb (trustworthy RF =? 0)%Z then pg_lift (pls_value n (nInStore (cfg m)) RF WS)
  else y ← knn_value (fss_hash m) (arr RF c) n (xn m) yp; mret (WS, y).

Definition lwpr_aux_predict_one_T (m : LWPR_Model) (cutoff : double) : PG (LWPR_Workspace * double) :=
  p ← pg_for 0 (numRFS m) (predict_field m cutoff) (mkPred (ws m) d0 0 d0 d0);
  if (p_sum_w p >? d0)%D then mret (p_ws p, (p_yp p / p_sum_w p)%D)
  else nearest_field m (p_idx_max p) (p_ws p) (p_yp p).

(** [xn = x / norm_in] *)
Definition normalise (m : LWPR_Model) (x : list double) : res LWPR_Model :=
  xs ← for_range 0 (nIn (cfg m)) (fun i xs =>
      xi ← rd x i; ni ← rd (norm_in (cfg m)) i; wr xs i (xi / ni)%D) (xn m);
  Ok (set_xy m xs (yn m)).

Definition lwpr_predict (m : LWPR_Model) (x : list double) (cutoff : double) : PG (LWPR_Model * double) :=
  m ← pg_lift (normalise m x);
  '(WS, y) ← lwpr_aux_predict_one_T m cutoff;
  mret (set_ws m WS, (y * norm_out (cfg m))%D).

(** *** How often past queries fell near a field *)

(** [for (k = 0; k < num_history_data[m]; k++)] over the data of one query
    pattern; the fuel is the length of the row, which the reads cannot pass. *)
Fixpoint happen_points (fuel k : nat) (num : double) (row : list double) (n nInS : nat) (kern : LWPR_Kernel)
    (cutoff : double) (RF : LWPR_ReceptiveField) (WS : LWPR_Workspace) (prob : double)
  : res (LWPR_Workspace * double) :=
  if (d_of_Z (Z.of_nat k) <? num)%D then
    match fuel with
    | O => Err Fault_fuel
    | S fuel =>
        current_xn ← for_range 0 n (fun k2 xs => v ← rd row (k * n + 1 + k2); wr xs k2 v) (palloc0 n);
        '(WS, dist) ← rf_distance n nInS RF current_xn WS;
        let w := predict_weight kern dist in
        let prob := (prob + (if w >? cutoff then w else d0))%D in
        happen_points fuel (S k) num row n nInS kern cutoff RF WS prob
    end
  else Ok (WS, prob).

(** One field and one query pattern. *)
Definition happen_pattern (m : LWPR_Model) (cutoff : double) (dist : list double) (q : nat)
    (st : LWPR_ReceptiveField * LWPR_Workspace * list double)
  : res (LWPR_ReceptiveField * LWPR_Workspace * list double) :=
  let '(RF, WS, total) := st in
  d ← rd dist q;
  if deq d d0 then
    RF ← setr RF prob_rf q d0;
    total ← wr total q d0;
    Ok (RF, WS, total)
  else
    RF ← setr RF prob_rf q d0;
    num ← rd (num_history_data m) q;
    row ← rd (history_data_matrix m) q;
    '(WS, prob) ← happen_points (length row) 0 num row (nIn (cfg m)) (nInStore (cfg m)) (kernel (cfg m)) cutoff RF WS d0;
    RF ← setr RF prob_rf q prob;
    t ← rd total q;
    total ← wr total q (t + prob)%D;
    Ok (RF, WS, total).

(** [prob_rf] of every field and [total_happen_freq]. *)
Definition happen_freq (m : LWPR_Model) (cutoff : double) (dist : list double)
  : res (list LWPR_ReceptiveField * LWPR_Workspace * list double) :=
  for_range 0 (numRFS m) (fun k '(fields, WS, total) =>
    RF ← rd fields k;
    '(RF, WS, total) ← for_range 0 num_query_pattern (happen_pattern m cutoff dist) (RF, WS, total);
    Ok (<[k := RF]> fields, WS, total)) (rf m, ws m, palloc0 num_query_pattern).

(** *** Confidence of one field *)

(** The average of the kept errors, and the least average so far. *)
Definition field_error (RF : LWPR_ReceptiveField) (min_error : double) : res (Z * double * double) :=
  num ← d_to_int (pred_error_num RF);
  if (num >? 0)%Z then
    avg ← lwpr_math_avg_vector (arr RF pred_error_history) (Z.to_nat num);
    Ok (num, avg, if (avg <? min_error)%D then avg else min_error)
  else Ok (num, d0, min_error).

(** The prediction of a field and its variance. *)
Definition field_variance (n nInS : nat) (RF : LWPR_ReceptiveField) (x : list double) (w : double)
    (WS : LWPR_Workspace) : res (LWPR_Workspace * double * double) :=
  nd ← rdz (arr RF n_data) (Z.of_nat (nReg RF) - 1);
  let nR := if (nd <=? d_of_Z (2 * Z.of_nat n))%D && (1 <? n) then nReg RF - 1 else nReg RF in
  WS ← centre_on_mean n RF x WS;
  WS ← project n nInS nR RF WS;
  '(yp_n, sigma2) ← for_range 0 nR (fun i '(y, sg) =>
      si ← getw WS ws_s i; b ← getr RF beta i; s2 ← getr RF SSs2 i;
      Ok ((y + si * b)%D, (sg + si * si / s2)%D)) (beta0 RF, d0);
  e ← rdz (arr RF sum_e_cv2) (Z.of_nat nR - 1);
  sw ← rdz (arr RF sum_w) (Z.of_nat nR - 1);
  Ok (WS, yp_n, (e / (sw - SSp RF) * (d_of_Z 1 + w * sigma2))%D).

(** The probability that the value is within the percentile of its estimate. *)
Definition normal_mass (y variance : double) : res double :=
  integral norm_ditribution_function (y - y * confidence_bound_percentile)%D
    (y * confidence_bound_percentile + y)%D 1000 y variance.

(** [if (alpha > 1) alpha = 1; ... = 1 - alpha] *)
Definition unconfidence (alpha : double) : double :=
  let alpha := if (alpha >? d_of_Z 1)%D then d_of_Z 1 else alpha in (d_of_Z 1 - alpha)%D.

Definition field_alpha (w sigma2 yp_n : double) (num_error : Z) : res double :=
  if deq sigma2 d0 && (num_error =? 0)%Z then Ok w
  else if (sigma2 <? dlit 1 1000000)%D then Ok (d_of_Z 1)
  else normal_mass yp_n sigma2.

(** The share of the field in the future value of each query pattern. *)
Definition future_share (total : list double) (l : nat) (st : LWPR_ReceptiveField * list double)
  : res (LWPR_ReceptiveField * list double) :=
  let '(RF, future) := st in
  p ← getr RF prob_rf l;
  if negb (deq p d0) then
    t ← rd total l;
    RF ← setr RF prob_rf l (p / t)%D;
    f ← rd future l;
    future ← wr future l (f + p / t * conf_rf RF)%D;
    Ok (RF, future)
  else Ok (RF, future).

(** What [lwpr_aux_predict_conf_one_T] keeps between two fields; [sum_all],
    which nothing reads, is left out. *)
Record conf_state : Type := mkConf {
  cs_rf : list LWPR_ReceptiveField;
  cs_ws : LWPR_Workspace;
  cs_future : list double;
  cs_w_max : double;
  cs_idx_max : nat;
  cs_min_error : double;
  cs_exact : option double;
  cs_yn : double;
  cs_sum_w : double;
  cs_sum_wyy : double;
  cs_sum_conf : double;
  cs_yp : double;
  cs_sum_w2 : double;
  cs_count : nat
}.

(** The end of the loop body: the weight and the prediction that count. *)
Definition add_prediction (m : LWPR_Model) (RF : LWPR_ReceptiveField) (w avg_error yp_n sigma2 : double)
    (st : conf_state) : PG conf_state :=
  let '(mkConf fields WS future w_max idx me ex yn sw swyy sconf yp sw2 count) := st in
  '(w', yp_n') ←
    (if negb (trustworthy RF =? 0)%Z then
       mret (if (avg_error >? avg_error_threshold)%D then (d0, d0) else (w, yp_n))
     else y ← knn_value (fss_hash m) (arr RF c) (nIn (cfg m)) (xn m) yp_n; mret (w, y));
  let '(yp, sw2, count) :=
    if (w' >? d0)%D then ((yp + w' * yp_n')%D, (sw2 + w')%D, count + 1) else (yp, sw2, count) in
  mret (mkConf fields WS future w_max idx me ex (yn + w * yp_n)%D (sw + w)%D (swyy + w * yp_n * yp_n)%D
          (sconf + w * sigma2)%D yp sw2 count).

(** One field of the main loop. *)
Definition conf_field (m : LWPR_Model) (cutoff : double) (total : list double) (k : nat) (st : conf_state)
  : PG conf_state :=
  let '(mkConf fields WS future w_max idx me ex yn sw swyy sconf yp sw2 count) := st in
  let n := nIn (cfg m) in
  let nInS := nInStore (cfg m) in
  RF ← pg_lift (rd fields k);
  '(WS, dist) ← pg_lift (rf_distance n nInS RF (xn m) WS);
  let w := predict_weight (kernel (cfg m)) dist in
  let '(w_max, idx) := if (w >? w_max)%D then (w, k) else (w_max, idx) in
  if (w >? cutoff)%D then
    '(num_error, avg_error, me) ← pg_lift (field_error RF me);
    '(WS, yp_n, sigma2) ← pg_lift (field_variance n nInS RF (xn m) w WS);
    alpha ← pg_lift (field_alpha w sigma2 yp_n num_error);
    '(RF, future) ← pg_lift (for_range 0 num_query_pattern (future_share total)
                               (set_conf_rf RF (unconfidence alpha), future));
    let fields := <[k := RF]> fields in
    if (w >? dlit 999 1000)%D && (avg_error <? avg_error_threshold)%D then
      mret (mkConf fields WS future w_max idx me (Some yp_n) yn sw swyy sconf yp sw2 count)
    else add_prediction m RF w avg_error yp_n sigma2
           (mkConf fields WS future w_max idx me ex yn sw swyy sconf yp sw2 count)
  else mret (mkConf fields WS future w_max idx me ex yn sw swyy sconf yp sw2 count).

(** *** Explore values *)

Definition est_future_of (dist counts : list double) (st : conf_state) : res double :=
  match cs_exact st with
  | None =>
      if cs_count st =? 0 then
        for_range 0 num_query_pattern (fun i f =>
          num ← rd counts i;
          if (num >? d0)%D then d ← rd dist i; Ok (f + d * outer_future_value)%D else Ok f) (est_future lwpr_men_alloc_ev)
      else for_range 0 num_query_pattern (fun l f =>
             d ← rd dist l; v ← rd (cs_future st) l; Ok (f + d * v)%D) (est_future lwpr_men_alloc_ev)
  | Some _ => for_range 0 num_query_pattern (fun l f =>
                d ← rd dist l; v ← rd (cs_future st) l; Ok (f + d * v)%D) (est_future lwpr_men_alloc_ev)
  end.

Definition est_uncof_of (st : conf_state) : res double :=
  match cs_exact st with
  | Some _ => Ok d0
  | None =>
      if (cs_sum_w2 st >? d0)%D then
        let sum_wy := cs_yn st in
        let yn := (cs_yn st / cs_sum_w st)%D in
        let w_sec := ((cs_sum_conf st + c_fabs (cs_sum_wyy st + sum_wy * sum_wy * (cs_sum_w st - d_of_Z 2)))
                      / (cs_sum_w st * cs_sum_w st))%D in
        alpha ← (if (w_sec <? dlit 1 1000000)%D then Ok (d_of_Z 1) else normal_mass yn w_sec);
        Ok (unconfidence alpha)
      else Ok (d_of_Z 1)
  end.

Definition conf_value (m : LWPR_Model) (st : conf_state) : PG (LWPR_Workspace * double) :=
  match cs_exact st with
  | Some y => mret (cs_ws st, y)
  | None =>
      if (cs_sum_w2 st >? d0)%D then mret (cs_ws st, (cs_yp st / cs_sum_w2 st)%D)
      else if ((cs_w_max st <? use_aqo_threshold)%D && (cs_count st =? 0))
           || ((cs_w_max st >? use_aqo_threshold)%D && (cs_min_error st >? avg_error_threshold)%D)
      then mret (cs_ws st, d_of_Z (-9999))
      else nearest_field m (cs_idx_max st) (cs_ws st) (cs_yp st)
  end.

(** The whole of [lwpr_aux_predict_conf_one_T]; the history of the model takes
    the input in between the two loops. *)
Definition lwpr_aux_predict_conf_one_T (m : LWPR_Model) (cutoff : double) : PG (LWPR_Model * double) :=
  dist ← pg_get (fun st => query_distribution (ctx st));
  '(fields, WS, total) ← pg_lift (happen_freq m cutoff dist);
  qh ← pg_get (fun st => current_query_hash (ctx st));
  '(hist, counts) ← pg_lift (push_history qh (nIn (cfg m)) (xn m) (history_data_matrix m) (num_history_data m));
  st ← pg_for 0 (numRFS m) (conf_field m cutoff total)
         (mkConf fields WS (palloc0 num_query_pattern) d0 0 (d_of_Z 9999) None d0 d0 d0 d0 d0 d0 0);
  fut ← pg_lift (est_future_of dist counts st);
  unc ← pg_lift (est_uncof_of st);
  '(WS, y) ← conf_value (set_rf m (cs_rf st)) st;
  let ev := mkEV (ev_rows lwpr_men_alloc_ev) unc fut (rate lwpr_men_alloc_ev) in
  mret (set_explore_values (set_history (set_ws (set_rf m (cs_rf st)) WS) hist counts) ev, y).

Definition lwpr_predict_explore (m : LWPR_Model) (x : list double) (cutoff : double)
  : PG (LWPR_Model * Explore_Value) :=
  m ← pg_lift (normalise m x);
  '(m, y) ← lwpr_aux_predict_conf_one_T m cutoff;
  let ev := explore_values m in
  mret (m, mkEV (y * norm_out (cfg m))%D (est_uncof ev) (est_future ev) (rate ev)).
End predict.

(** ** Prediction stays in its arrays *)

(** A trusted field of a one-dimensional model has outgrown its threshold; with
    more features there is always a direction left. *)
Definition settled (n : nat) (RF : LWPR_ReceptiveField) : Prop :=
  2 ≤ n ∨ trustworthy RF = 0%Z ∨
  ∃ x, arr RF n_data !! 0 = Some x ∧ dle x (d_of_Z (2 * Z.of_nat n)) = false.

(** What an explore prediction may write in a field. *)
Record scored (RF RF' : LWPR_ReceptiveField) : Prop := {
  sc_counts : (nReg RF', nRegStore RF', trustworthy RF', slopeReady RF') = (nReg RF, nRegStore RF, trustworthy RF, slopeReady RF);
  sc_values : (rf_w RF', sum_e2 RF', beta0 RF', SSp RF', pred_error_num RF') = (rf_w RF, sum_e2 RF, beta0 RF, SSp RF, pred_error_num RF);
  sc_len : ∀ a, length (arr RF' a) = length (arr RF a);
  sc_arr : ∀ a, a ≠ prob_rf → arr RF' a = arr RF a
}.

Lemma scored_refl RF : scored RF RF.
Proof. by split. Qed.

Lemma scored_trans RF1 RF2 RF3 : scored RF1 RF2 → scored RF2 RF3 → scored RF1 RF3.
Proof.
  intros [A1 A2 A3 A4] [B1 B2 B3 B4]. split; [congruence | congruence | intros a; by rewrite B3 | intros a Ha; by rewrite B4, A4].
Qed.

Lemma scored_ok n nInS RF RF' : scored RF RF' → rf_ok n nInS RF → rf_ok n nInS RF'.
Proof.
  intros [A1 A2 A3 A4] [B1 B2 B3 B4]. simplify_eq. split; rewrite ?A3; try congruence.
Qed.

Lemma scored_settled n RF RF' : scored RF RF' → settled n RF → settled n RF'.
Proof.
  intros [A1 _ _ A4] [?|[?|(x & Hx & Hd)]]; [by left | right; left; congruence | right; right; exists x].
  by rewrite A4.
Qed.

Lemma scored_prob RF l : length l = length (arr RF prob_rf) → scored RF (set_arr RF prob_rf l).
Proof.
  intros Hl. split; try (by destruct RF); intros a; rewrite arr_set_arr; [by destruct (decide _) as [->|]|].
  intros Ha. by rewrite decide_False.
Qed.

Lemma scored_conf RF x : scored RF (set_conf_rf RF x).
Proof. by destruct RF. Qed.

Lemma kernel_weight_predict `{Libm} k dist : predict_weight k dist = (kernel_weight k dist).1.
Proof. unfold predict_weight, kernel_weight. destruct k; [done|]. cbv zeta. by destruct (dlt _ _). Qed.

Lemma integral_total p a b k a1 b1 : ensures (integral p a b k a1 b1) (fun _ => True).
Proof.
  unfold integral. apply (ensures_bind_mono _ _ (fun _ => True)); [|by intros [? ?]].
  apply (ensures_for (fun _ _ => True)); [lia | done|]. by intros i [? ?].
Qed.

Lemma field_alpha_ok `{Libm} w s2 y num : ensures (field_alpha w s2 y num) (fun _ => True).
Proof. unfold field_alpha, normal_mass. destruct (_ && _); [done|]. destruct (dlt _ _); [done | apply integral_total]. Qed.

Section predict_sizes.
Context (n nInS : nat) (Hn : 1 ≤ n) (HnS : n ≤ nInS).

Lemma centre_ok RF x WS :
  rf_ok n nInS RF → wsz n nInS WS → n ≤ length x → ensures (centre_on_mean n RF x WS) (wsz n nInS).
Proof.
  intros [_ _ Hs _] Hw Hx. assert (Hs' : rsz n nInS (nRegStore RF) RF) by exact Hs.
  apply (ensures_for (fun _ WS' => wsz n nInS WS')); [lia | done|]. intros i WS1 Hi Hw1. by repeat lstep.
Qed.

Lemma project_ok nR RF WS :
  rf_ok n nInS RF → wsz n nInS WS → 1 ≤ nR ≤ n → ensures (project n nInS nR RF WS) (wsz n nInS).
Proof.
  intros [Hr HRS Hs _] Hw HnR. unfold project.
  destruct (projections_agree n nInS nR (arr RF U) (arr RF P) (wsa WS xc) ltac:(lia) HnS) with
    (s := wsa WS ws_s) (xu := wsa WS xu) (xres := wsa WS xres) as (s' & xu' & xr' & -> & _ & Hls & Hlu & _);
    rewrite ?Hs, ?(ws_sizes _ _ _ Hw); cbn [rf_size ws_size]; try nia.
  cbn. apply set_wsa_wsz; [apply set_wsa_wsz; [done|] |]; rewrite ?Hls, ?Hlu; apply Hw.
Qed.

(** The number of directions that take part. *)
Lemma pls_value_ok RF WS :
  rf_ok n nInS RF → settled n RF → trustworthy RF ≠ 0%Z → wsz n nInS WS →
  ensures (pls_value n nInS RF WS) (fun '(WS', _) => wsz n nInS WS').
Proof.
  intros Hok Hset Ht Hw. pose proof Hok as [Hr HRS Hs _]. assert (Hs' : rsz n nInS (nRegStore RF) RF) by exact Hs.
  unfold pls_value. replace (Z.of_nat (nReg RF) - 1)%Z with (Z.of_nat (nReg RF - 1)) by lia. rewrite rdz_nat.
  apply ensures_bind, ensures_rd; [idx|]. intros nd Hnd.
  set (nR := if dle nd _ then nReg RF - 1 else nReg RF). assert (HnR : 1 ≤ nR ≤ n).
  { subst nR. destruct Hset as [?|[?|(x & Hx & Hd)]]; [destruct (dle nd _); lia | done |].
    destruct (decide (nReg RF = 1)) as [E|]; [|destruct (dle nd _); lia].
    rewrite E in Hnd. simpl in Hnd. simplify_eq. rewrite Hd. lia. }
  clearbody nR. cbv zeta. eapply ensures_bind_mono; [by apply project_ok|]. intros WS1 Hw1. cbv beta in Hw1.
  eapply ensures_bind_mono; [|intros y _; exact Hw1].
  apply (ensures_for (fun _ _ => True)); [lia | done|]. intros i y Hi _. by repeat lstep.
Qed.

Lemma field_error_ok RF me : rf_ok n nInS RF → ensures (field_error RF me) (fun _ => True).
Proof.
  intros [_ _ Hs Hc]. unfold field_error. destruct (count_int num_pred_error_history _ ltac:(reflexivity) Hc) as (k & Hk & _ & ->).
  cbn [mbind res_bind]. destruct (Z.gtb _ _); [|done]. apply (ensures_bind_mono _ _ (fun _ => True)); [|done].
  unfold lwpr_math_avg_vector. apply (ensures_bind_mono _ _ (fun _ => True)); [|done].
  apply (ensures_for (fun _ _ => True)); [lia | done|]. intros i y Hi _. apply ensures_bind, ensures_rd; [|done].
  rewrite Hs. cbn. lia.
Qed.

Lemma field_variance_ok RF x w WS :
  rf_ok n nInS RF → wsz n nInS WS → n ≤ length x →
  ensures (field_variance n nInS RF x w WS) (fun '(WS', _, _) => wsz n nInS WS').
Proof.
  intros Hok Hw Hx. pose proof Hok as [Hr HRS Hs _]. assert (Hs' : rsz n nInS (nRegStore RF) RF) by exact Hs.
  unfold field_variance. apply ensures_bind, ensures_rdz; [idx|]. intros nd _. cbv zeta.
  set (nR := if dle nd _ && _ then _ else _). assert (HnR : 1 ≤ nR ≤ n).
  { subst nR. destruct (dle nd _), (Nat.ltb_spec 1 n); simpl; lia. }
  clearbody nR. eapply ensures_bind_mono; [by apply centre_ok|]. intros WS1 Hw1.
  eapply ensures_bind_mono; [by apply project_ok|]. intros WS2 Hw2. cbv beta in Hw2. eapply ensures_bind_mono.
  { apply (ensures_for (fun _ _ => True)); [lia | done|]. intros i [y sg] Hi _. by repeat lstep. }
  intros [y sg] _. by repeat lstep.
Qed.

Lemma future_share_ok total RF future :
  rf_ok n nInS RF → num_query_pattern ≤ length total → length future = num_query_pattern →
  ensures (for_range 0 num_query_pattern (future_share total) (RF, future))
    (fun '(RF', future') => scored RF RF' ∧ length future' = num_query_pattern).
Proof.
  intros [_ _ Hs _] Ht Hf. eapply ensures_mono.
  { apply (ensures_for (fun _ st => scored RF st.1 ∧ length st.2 = num_query_pattern)); [lia | by split|].
    intros l [RF1 f1] Hl [Hsc Hf1]. simpl in *. assert (Hlp : length (arr RF1 prob_rf) = num_query_pattern) by (rewrite (sc_len _ _ Hsc), Hs; done).
    apply ensures_bind, ensures_getr; [lia|]. intros p _. destruct (negb _); [|done].
    apply ensures_bind, ensures_rd; [lia|]. intros t _. apply ensures_bind.
    apply ensures_setr; [lia|]. intros RF2 -> _. apply ensures_bind, ensures_rd; [lia|]. intros f _.
    apply ensures_bind, ensures_wr; [lia|]. simpl. split; [|by rewrite length_insert].
    eapply scored_trans; [done | apply scored_prob, length_insert]. }
  by intros [RF' f'].
Qed.
End predict_sizes.

(** *** The activation of a field as a number *)

Definition difference (n : nat) (RF : LWPR_ReceptiveField) (x : list double) : list double :=
  zip_with dsub (take n x) (take n (arr RF c)).

(** [(x - c)' * D * (x - c)] in the order of the unrolled products. *)
Definition distance_of (n nInS : nat) (RF : LWPR_ReceptiveField) (x : list double) : double :=
  let v := difference n RF x in
  foldl (fun d j => match v !! j with
                    | Some vj => (d + vj * dot_sum (arr RF D) (j * nInS) v 0 (dot_order n) d0)%D
                    | None => d
                    end) d0 (seq 0 n).

Definition activation `{Libm} (cf : LWPR_Config) (RF : LWPR_ReceptiveField) (x : list double) : double :=
  predict_weight (kernel cf) (distance_of (nIn cf) (nInStore cf) RF x).

Lemma wsa_set_wsa WS a l x : wsa (set_wsa WS a l) x = if decide (x = a) then l else wsa WS x.
Proof. by destruct WS. Qed.

Lemma rf_distance_value n nInS RF x WS :
  1 ≤ n → n ≤ nInS → n ≤ length x → rf_ok n nInS RF → wsz n nInS WS →
  ensures (rf_distance n nInS RF x WS) (fun '(WS', d) => wsz n nInS WS' ∧ d = distance_of n nInS RF x).
Proof.
  intros Hn HnS Hx [_ _ Hs _] Hw. assert (Hs' : rsz n nInS (nRegStore RF) RF) by exact Hs. unfold rf_distance.
  set (v := difference n RF x). assert (Hv : length v = n).
  { unfold v, difference. rewrite length_zip_with, !length_take, Hs. cbn. lia. }
  eapply ensures_bind_mono.
  { apply (ensures_for (fun k WS' => wsz n nInS WS' ∧ ∀ i, i < k → wsa WS' xc !! i = v !! i)); [lia | split; [done | lia]|].
    intros i WS1 Hi [Hw1 Hv1]. apply ensures_bind, ensures_rd; [lia|]. intros xi Hxi. apply ensures_bind.
    apply ensures_getr; [rewrite Hs; cbn; lia|]. intros ci Hci. unfold setw. rewrite wr_lt by (rewrite (ws_sizes _ _ _ Hw1); cbn; lia).
    cbn [mbind res_bind ensures]. split; [apply set_wsa_wsz; [done | rewrite length_insert; apply Hw1]|].
    intros j Hj. rewrite wsa_set_wsa, decide_True by done. destruct (decide (j = i)) as [->|Hne].
    - rewrite list_lookup_insert_eq by (rewrite (ws_sizes _ _ _ Hw1); cbn; lia). symmetry. unfold v, difference.
      apply lookup_zip_with_Some. exists xi, ci. by rewrite !lookup_take_lt by lia.
    - rewrite list_lookup_insert_ne by done. apply Hv1. lia. }
  intros WS1 [Hw1 Hv1]. eapply ensures_bind_mono; [|intros d Hd; split; [exact Hw1 | exact Hd]].
  eapply ensures_mono.
  { apply (ensures_for (fun k d => d = foldl (fun d j => match v !! j with
      | Some vj => (d + vj * dot_sum (arr RF D) (j * nInS) v 0 (dot_order n) d0)%D | None => d end) d0 (seq 0 k))); [lia | done|].
    intros j d Hj ->. rewrite seq_S, foldl_app. cbn [foldl]. destruct (lookup_lt_is_Some_2 v (0 + j)) as [vj Hvj]; [lia|]. simpl in Hvj.
    unfold getw. rewrite (rd_some _ _ vj) by (rewrite Hv1 by lia; done). cbn [mbind res_bind]. simpl. rewrite Hvj.
    assert (j * nInS + n ≤ nInS * n) by nia.
    rewrite dot_product_ok by (rewrite ?Hs, ?(ws_sizes _ _ _ Hw1); cbn; lia). cbn [mbind res_bind ensures].
    do 2 f_equal. apply dot_sum_ext. intros i Hi. rewrite dot_order_perm in Hi. apply elem_of_seq in Hi. simpl. apply Hv1. lia. }
  intros d ->. done.
Qed.

Lemma scored_distance n nInS RF RF' x : scored RF RF' → distance_of n nInS RF' x = distance_of n nInS RF x.
Proof. intros [_ _ _ Ha]. unfold distance_of, difference. by rewrite !Ha. Qed.

Section predict_model.
Context `{Cluster} `{Libm} (m : LWPR_Model) (Hm : model_ok m) (Hcalm : calm).
Let n := nIn (cfg m).
Let nInS := nInStore (cfg m).
Notation house := (house_ok n (fss_hash m)).

Lemma knn_value_ok centre yp st :
  house st → n ≤ length centre →
  pg_ensures (knn_value (fss_hash m) centre n (xn m) yp) st (fun _ st' => read_only st st').
Proof.
  intros Hh Hc. destruct (field_sizes m Hm) as (Hn & HnS & Hx). fold n nInS in Hn, HnS, Hx.
  unfold knn_value. cbv zeta. rewrite (proj2 (Nat.leb_le _ _) Hc).
  apply pg_ensures_bind, pg_ensures_lift. cbn [ensures].
  eapply pg_ensures_bind_mono; [by apply load_house_ok|].
  intros [found [[mat v] k]] st1 (Hro & Hlm & Hlv & Hk & Hrow). cbv beta iota. destruct found; [|done].
  apply pg_ensures_lift. eapply ensures_mono; [apply predict_ok; [lia | split; [lia | done] | lia | lia]|]. done.
Qed.

Lemma read_only_house st st' : read_only st st' → house st → house st'.
Proof. intros Hro. by apply read_only_frame. Qed.

Lemma nearest_field_ok fields k WS yp st :
  Forall (rf_ok n nInS) fields → Forall (settled n) fields → k < length fields → wsz n nInS WS → house st →
  pg_ensures (nearest_field (set_rf m fields) k WS yp) st (fun '(WS', _) st' => wsz n nInS WS' ∧ read_only st st').
Proof.
  intros Hok Hset Hk Hw Hh. destruct (field_sizes m Hm) as (Hn & HnS & _). fold n nInS in Hn, HnS.
  assert (Em : rf (set_rf m fields) = fields ∧ cfg (set_rf m fields) = cfg m ∧ fss_hash (set_rf m fields) = fss_hash m ∧
    xn (set_rf m fields) = xn m) by (by destruct m). destruct Em as (E1 & E2 & E3 & E4).
  unfold nearest_field. rewrite E1, E2, E3, E4. fold n nInS. destruct (rd_lt fields k Hk) as (RF & HRF & ->).
  pose proof (Forall_lookup_1 _ _ _ _ Hok HRF) as Ho. pose proof (Forall_lookup_1 _ _ _ _ Hset HRF) as Hs.
  apply pg_ensures_bind, pg_ensures_lift. cbn [ensures].
  destruct (Z.eqb_spec (trustworthy RF) 0) as [|Ht]; cbn [negb].
  - eapply pg_ensures_bind_mono; [apply knn_value_ok; [done | rewrite (rf_sizes _ _ _ Ho); cbn; lia]|]. done.
  - apply pg_ensures_lift. eapply ensures_mono; [by apply pls_value_ok|]. intros [WS' y] Hw'. split; [done | by left].
Qed.

Definition pred_ok (p : pred_state) : Prop := wsz n nInS (p_ws p) ∧ p_idx_max p < numRFS m.

Lemma predict_field_ok cutoff k p st :
  Forall (settled n) (rf m) → k < numRFS m → pred_ok p → house st →
  pg_ensures (predict_field m cutoff k p) st (fun p' st' => pred_ok p' ∧ read_only st st').
Proof.
  intros Hset Hk [Hw Hi] Hh. destruct (field_sizes m Hm) as (Hn & HnS & Hx). fold n nInS in Hn, HnS, Hx.
  destruct p as [WS w_max idx yp sw]. simpl in Hw, Hi. unfold predict_field. fold n nInS.
  destruct (rd_lt (rf m) k Hk) as (RF & HRF & ->).
  pose proof (Forall_lookup_1 _ _ _ _ (m_rf _ Hm) HRF) as Ho. pose proof (Forall_lookup_1 _ _ _ _ Hset HRF) as Hs. fold n nInS in Ho.
  assert (Hsz : rsz n nInS (nRegStore RF) RF) by exact (rf_sizes _ _ _ Ho).
  apply pg_ensures_bind, pg_ensures_lift. cbn [ensures].
  apply pg_ensures_bind, pg_ensures_lift. eapply ensures_mono; [apply rf_distance_sizes; [done | done | lia | done | done]|].
  intros [WS1 dist] Hw1. cbv beta iota zeta in Hw1 |- *.
  assert (Hidx : (if dlt w_max (predict_weight (kernel (cfg m)) dist) then (predict_weight (kernel (cfg m)) dist, k) else (w_max, idx)).2 < numRFS m)
    by (by destruct (dlt _ _)).
  destruct (if dlt w_max _ then _ else _) as [w_max' idx']. simpl in Hidx.
  destruct (dlt cutoff _); [|split; [done | by left]].
  apply pg_ensures_bind, pg_ensures_lift. eapply ensures_mono; [apply (centre_ok n nInS Hn HnS); [done | done | lia]|].
  intros WS2 Hw2. apply pg_ensures_bind.
  apply (pg_ensures_mono _ _ (fun '(WS', _) st' => wsz n nInS WS' ∧ read_only st st')); [|by intros [WS' y] st' [??]].
  destruct (negb (slopeReady RF =? 0)%Z).
  - apply pg_ensures_bind, pg_ensures_lift. repeat lstep. split; [done | by left].
  - destruct (Z.eqb_spec (trustworthy RF) 0) as [|Ht]; cbn [negb].
    + eapply pg_ensures_bind_mono; [apply knn_value_ok; [done | rewrite (rf_sizes _ _ _ Ho); cbn; lia]|]. done.
    + apply pg_ensures_lift. eapply ensures_mono; [by apply pls_value_ok|]. intros [WS' y] Hw'. split; [done | by left].
Qed.

Lemma predict_one_ok cutoff st :
  Forall (settled n) (rf m) → 1 ≤ numRFS m → house st →
  pg_ensures (lwpr_aux_predict_one_T m cutoff) st (fun '(WS', _) st' => wsz n nInS WS' ∧ read_only st st').
Proof.
  intros Hset Hpos Hh. unfold lwpr_aux_predict_one_T. eapply pg_ensures_bind_mono.
  { apply (pg_ensures_for (fun _ p st' => pred_ok p ∧ read_only st st')); [lia | split; [split; [apply Hm | simpl; lia] | by left]|].
    intros k p st1 Hk [Hp Hro]. eapply pg_ensures_mono; [apply predict_field_ok; [done | lia | done | by eapply read_only_house]|].
    intros p' st2 [Hp' Hro']. split; [done | by eapply read_only_trans]. }
  intros p st1 [[Hw Hi] Hro]. cbv beta. destruct (dlt _ _); [done|].
  replace m with (set_rf m (rf m)) at 1 by (by destruct m).
  eapply pg_ensures_mono; [apply nearest_field_ok; [apply Hm | done | done | done | by eapply read_only_house]|].
  intros [WS' y] st2 [Hw' Hro']. split; [done | by eapply read_only_trans].
Qed.
End predict_model.

(** ** The explore prediction *)

(** Comparing two small counts held in doubles. *)
Lemma count_lt i j : i ≤ 10 → j ≤ 10 → dlt (d_of_Z (Z.of_nat i)) (d_of_Z (Z.of_nat j)) = (i <? j).
Proof.
  intros Hi Hj. assert (Hall : forallb (fun i => forallb (fun j =>
    Bool.eqb (dlt (d_of_Z (Z.of_nat i)) (d_of_Z (Z.of_nat j))) (i <? j)) (seq 0 11)) (seq 0 11) = true) by (by vm_compute).
  assert (Hin : ∀ k, k ≤ 10 → In k (seq 0 11)) by (intros k Hk; apply in_seq; lia).
  pose proof (proj1 (forallb_forall _ _) Hall i (Hin i Hi)) as Hrow. cbv beta in Hrow.
  by apply Bool.eqb_prop, (proj1 (forallb_forall _ _) Hrow j (Hin j Hj)).
Qed.

Section happen.
Context `{Libm} (n nInS : nat) (Hn : 1 ≤ n) (HnS : n ≤ nInS).

Lemma happen_points_ok kern cutoff RF (row : list double) j : rf_ok n nInS RF → j ≤ 10 → length row = 10 * n + 1 →
  ∀ fuel k WS prob, k ≤ j → j - k ≤ fuel → wsz n nInS WS →
  ensures (happen_points fuel k (d_of_Z (Z.of_nat j)) row n nInS kern cutoff RF WS prob) (fun '(WS', _) => wsz n nInS WS').
Proof.
  intros Ho Hj Hrow. induction fuel as [|fuel IH]; intros k WS prob Hk Hf Hw; cbn [happen_points]; rewrite count_lt by lia;
    destruct (Nat.ltb_spec k j); try done; [lia|].
  apply ensures_bind. eapply ensures_mono.
  { apply (ensures_for (fun _ xs => length xs = n)); [lia | apply length_replicate|]. intros k2 xs Hk2 Hl.
    assert (k * n + 1 + k2 < 10 * n + 1) by nia. apply ensures_bind, ensures_rd; [lia|]. intros v _.
    apply ensures_wr; [lia|]. by rewrite length_insert. }
  intros xs Hl. cbv beta in Hl. apply ensures_bind.
  eapply ensures_mono; [apply rf_distance_sizes; [done | done | lia | done | done]|].
  intros [WS1 dist] Hw1. cbv zeta. apply IH; [lia | lia | done].
Qed.
End happen.

(** The input all but coincides with the centre of a field that has predicted well. *)
Definition exact_field `{Libm} (cf : LWPR_Config) (x : list double) (cutoff : double) (RF : LWPR_ReceptiveField) : Prop :=
  dlt cutoff (activation cf RF x) = true ∧ dlt (dlit 999 1000) (activation cf RF x) = true ∧
  ∃ num avg me, field_error RF (d_of_Z 9999) = Ok (num, avg, me) ∧ dlt avg avg_error_threshold = true.

Lemma activation_take `{Libm} cf RF x y : take (nIn cf) x = take (nIn cf) y → activation cf RF x = activation cf RF y.
Proof. intros E. unfold activation, distance_of, difference. by rewrite E. Qed.

Section explore.
Context `{Cluster} `{Libm} (m : LWPR_Model) (Hm : model_ok m) (Hcalm : calm).
Let n := nIn (cfg m).
Let nInS := nInStore (cfg m).
Notation house := (house_ok n (fss_hash m)).

Lemma happen_pattern_ok cutoff dist q RF WS total :
  rf_ok n nInS RF → wsz n nInS WS → length total = num_query_pattern → num_query_pattern ≤ length dist →
  q < num_query_pattern →
  ensures (happen_pattern m cutoff dist q (RF, WS, total)) (fun '(RF', WS', total') =>
    scored RF RF' ∧ wsz n nInS WS' ∧ length total' = num_query_pattern).
Proof.
  intros Ho Hw Ht Hd Hq. destruct (field_sizes m Hm) as (Hn & HnS & _). fold n nInS in Hn, HnS.
  assert (Hp : ∀ RF', scored RF RF' → q < length (arr RF' prob_rf)).
  { intros RF' Hs. by rewrite (sc_len _ _ Hs), (rf_sizes _ _ _ Ho). }
  unfold happen_pattern. apply ensures_bind, ensures_rd; [lia|]. intros d _. destruct (deq d d0).
  - apply ensures_bind, ensures_setr; [by apply Hp, scored_refl|]. intros RF1 -> _. apply ensures_bind, ensures_wr; [lia|].
    simpl. split_and!; [apply scored_prob, length_insert | done | by rewrite length_insert].
  - apply ensures_bind, ensures_setr; [by apply Hp, scored_refl|]. intros RF1 -> _.
    assert (Hs1 : scored RF (set_arr RF prob_rf (<[q := d0]> (arr RF prob_rf)))) by apply scored_prob, length_insert.
    set (RF1 := set_arr RF prob_rf _) in *. clearbody RF1.
    apply ensures_bind, ensures_rd; [rewrite (m_counts _ Hm); lia|]. intros num Hnum.
    apply ensures_bind, ensures_rd; [rewrite (m_hist _ Hm); lia|]. intros row Hrow.
    destruct (Forall_lookup_1 _ _ _ _ (m_counts_le _ Hm) Hnum) as (j & Hj & ->).
    pose proof (Forall_lookup_1 _ _ _ _ (m_hist_rows _ Hm) Hrow) as Hlr. cbv beta in Hlr. fold n in Hlr.
    change num_history_data_compute_probability_rf with 10 in *. apply ensures_bind. eapply ensures_mono.
    { apply happen_points_ok; [done | done | by eapply scored_ok | done | done | lia | lia | done]. }
    intros [WS1 prob] Hw1. apply ensures_bind, ensures_setr; [by apply Hp|]. intros RF2 -> _.
    apply ensures_bind, ensures_rd; [lia|]. intros t _. apply ensures_bind, ensures_wr; [lia|]. simpl.
    split_and!; [|done | by rewrite length_insert]. eapply scored_trans; [done | apply scored_prob, length_insert].
Qed.

Definition scored_fields (fields : list LWPR_ReceptiveField) : Prop := Forall2 scored (rf m) fields.

Lemma scored_fields_ok fields : scored_fields fields → Forall (rf_ok n nInS) fields.
Proof.
  intros Hs. pose proof (m_rf _ Hm) as Ho. unfold scored_fields in Hs. fold n nInS in Ho.
  induction Hs; [constructor|]. inversion Ho; subst. constructor; [by eapply scored_ok | auto].
Qed.

Lemma scored_fields_settled fields : scored_fields fields → Forall (settled n) (rf m) → Forall (settled n) fields.
Proof.
  intros Hs Ho. unfold scored_fields in Hs. induction Hs; [constructor|]. inversion Ho; subst.
  constructor; [by eapply scored_settled | auto].
Qed.

Lemma scored_fields_set fields k RF RF' :
  scored_fields fields → fields !! k = Some RF → scored RF RF' → scored_fields (<[k := RF']> fields).
Proof.
  intros Hs Hk Hsc. destruct (Forall2_lookup_r _ _ _ _ _ Hs Hk) as (RF0 & HRF0 & Hsc0).
  replace (rf m) with (<[k := RF0]> (rf m)) by (by apply list_insert_id). unfold scored_fields.
  rewrite <- (list_insert_id (rf m) k RF0) by done. apply Forall2_insert; [done | by eapply scored_trans].
Qed.

Lemma scored_fields_refl : scored_fields (rf m).
Proof. unfold scored_fields. induction (rf m); constructor; [apply scored_refl | done]. Qed.

Lemma happen_freq_ok cutoff dist :
  num_query_pattern ≤ length dist →
  ensures (happen_freq m cutoff dist) (fun '(fields, WS, total) =>
    scored_fields fields ∧ wsz n nInS WS ∧ length total = num_query_pattern).
Proof.
  intros Hd. eapply ensures_mono; [apply (ensures_for (fun _ st => scored_fields st.1.1 ∧ wsz n nInS st.1.2 ∧ length st.2 = num_query_pattern))
    | by intros [[??]?]]; [lia | split_and!; [apply scored_fields_refl | apply Hm | done]|].
  intros k [[fields WS] total] Hk (Hf & Hw & Ht). simpl in *.
  assert (Hlen : length fields = numRFS m) by (symmetry; by eapply Forall2_length).
  apply ensures_bind, ensures_rd; [lia|]. intros RF HRF. pose proof (Forall_lookup_1 _ _ _ _ (scored_fields_ok _ Hf) HRF) as Ho.
  apply ensures_bind. eapply ensures_mono.
  { apply (ensures_for (fun _ st => scored RF st.1.1 ∧ wsz n nInS st.1.2 ∧ length st.2 = num_query_pattern));
      [lia | split_and!; [apply scored_refl | done | done]|].
    intros q [[RF1 WS1] total1] Hq (Hs1 & Hw1 & Ht1). simpl in *.
    eapply ensures_mono; [apply happen_pattern_ok; [by eapply scored_ok | done | done | done | lia]|].
    intros [[RF2 WS2] total2] (Hs2 & Hw2 & Ht2). split_and!; [by eapply scored_trans | done | done]. }
  intros [[RF1 WS1] total1] (Hs1 & Hw1 & Ht1). simpl in *. split_and!; [by eapply scored_fields_set | done | done].
Qed.

Record conf_ok (st : conf_state) : Prop := {
  co_fields : scored_fields (cs_rf st);
  co_ws : wsz n nInS (cs_ws st);
  co_future : length (cs_future st) = num_query_pattern;
  co_idx : cs_idx_max st < numRFS m
}.

Notation act RF := (activation (cfg m) RF (xn m)).

(** What one field contributes: nothing but its weight when it is not active,
    and certainty when the input is at its centre. *)
Record conf_step (cutoff : double) (RF : LWPR_ReceptiveField) (cs cs' : conf_state) : Prop := {
  step_quiet : dlt cutoff (act RF) = false →
    cs_exact cs' = cs_exact cs ∧ cs_count cs' = cs_count cs ∧ cs_sum_w2 cs' = cs_sum_w2 cs ∧
    cs_min_error cs' = cs_min_error cs ∧ cs_w_max cs' = (if dlt (cs_w_max cs) (act RF) then act RF else cs_w_max cs);
  step_exact : is_Some (cs_exact cs) ∨ exact_field (cfg m) (xn m) cutoff RF → is_Some (cs_exact cs')
}.

Lemma scored_error RF RF' me : scored RF RF' → field_error RF' me = field_error RF me.
Proof. intros [_ E _ Ha]. unfold field_error. simplify_eq. rewrite Ha by done. by replace (pred_error_num RF') with (pred_error_num RF) by congruence. Qed.

Lemma field_error_avg RF me me' num avg x :
  field_error RF me = Ok (num, avg, x) → ∃ x', field_error RF me' = Ok (num, avg, x').
Proof.
  unfold field_error. destruct (d_to_int _) as [k|]; [|done]. cbn [mbind res_bind]. destruct (Z.gtb _ _); [|intros; simplify_eq; eauto].
  destruct (lwpr_math_avg_vector _ _); [|done]. cbn [mbind res_bind]. intros; simplify_eq; eauto.
Qed.

Lemma add_prediction_ok RF w avg yp_n s2 cs st :
  rf_ok n nInS RF → conf_ok cs → house st →
  pg_ensures (add_prediction m RF w avg yp_n s2 cs) st (fun cs' st' =>
    conf_ok cs' ∧ read_only st st' ∧ cs_exact cs' = cs_exact cs).
Proof.
  intros Ho Hc Hh. destruct (field_sizes m Hm) as (Hn & HnS & _). fold n nInS in Hn, HnS.
  destruct cs as [fields WS future w_max idx me ex yn sw swyy sconf yp sw2 count]. unfold add_prediction.
  apply pg_ensures_bind. apply (pg_ensures_mono _ _ (fun _ st' => read_only st st')).
  - destruct (negb _); [by left|]. eapply pg_ensures_bind_mono; [apply knn_value_ok; [done | done | done | rewrite (rf_sizes _ _ _ Ho); cbn; lia]|].
    done.
  - intros [w' y'] st' Hro. cbv beta iota zeta. destruct (if dlt d0 w' then _ else _) as [[yp1 sw21] count1]. split; [|done].
    destruct Hc. by split.
Qed.

Lemma conf_field_ok cutoff total k RF0 cs st :
  num_query_pattern ≤ length total → rf m !! k = Some RF0 → conf_ok cs → house st →
  pg_ensures (conf_field m cutoff total k cs) st (fun cs' st' =>
    conf_ok cs' ∧ read_only st st' ∧ conf_step cutoff RF0 cs cs').
Proof.
  intros Htot Hk Hc Hh. destruct (field_sizes m Hm) as (Hn & HnS & Hx). fold n nInS in Hn, HnS, Hx.
  destruct cs as [fields WS future w_max idx me ex yn sw swyy sconf yp sw2 count].
  destruct Hc as [Hf Hw Hfu Hi]. simpl in Hf, Hw, Hfu, Hi. unfold conf_field. fold n nInS.
  destruct (Forall2_lookup_l _ _ _ _ _ Hf Hk) as (RF & HRF & Hsc0). rewrite (rd_some _ _ _ HRF).
  pose proof (Forall_lookup_1 _ _ _ _ (scored_fields_ok _ Hf) HRF) as Ho. apply lookup_lt_Some in Hk.
  apply pg_ensures_bind, pg_ensures_lift. cbn [ensures].
  apply pg_ensures_bind, pg_ensures_lift. eapply ensures_mono; [apply rf_distance_value; [done | done | lia | done | done]|].
  intros [WS1 dist] [Hw1 ->]. cbv beta iota zeta. rewrite (scored_distance _ _ _ _ _ Hsc0).
  change (predict_weight (kernel (cfg m)) (distance_of n nInS RF0 (xn m))) with (activation (cfg m) RF0 (xn m)).
  assert (Hidx : (if dlt w_max (act RF0) then (act RF0, k) else (w_max, idx)).2 < numRFS m ∧
    (if dlt w_max (act RF0) then (act RF0, k) else (w_max, idx)).1 = (if dlt w_max (act RF0) then act RF0 else w_max))
    by (by destruct (dlt _ _)).
  destruct (if dlt w_max (act RF0) then _ else _) as [w_max' idx']. simpl in Hidx. destruct Hidx as [Hidx Hmax].
  destruct (dlt cutoff (act RF0)) eqn:Ecut.
  2:{ split; [by split|]. split; [by left|]. split; [done|]. intros [?|(E & _)]; [done|]. by rewrite E in Ecut. }
  destruct (ensures_inv _ _ (field_error_ok n nInS Hn HnS RF me Ho)) as ([[num avg] me'] & Eerr & _).
  rewrite Eerr. rewrite (scored_error _ _ _ Hsc0) in Eerr. apply pg_ensures_bind, pg_ensures_lift. cbn [ensures].
  apply pg_ensures_bind, pg_ensures_lift. eapply ensures_mono; [apply (field_variance_ok n nInS); [done | done | done | done | lia]|].
  intros [[WS2 yp_n] s2] Hw2. cbv beta iota in Hw2 |- *.
  apply pg_ensures_bind, pg_ensures_lift. eapply ensures_mono; [apply field_alpha_ok|]. intros alpha _.
  apply pg_ensures_bind, pg_ensures_lift. eapply ensures_mono.
  { apply (future_share_ok n nInS Hn HnS); [eapply scored_ok; [apply scored_conf | done] | done | done]. }
  intros [RF1 fu1] [Hs1 Hl1]. cbv beta iota zeta.
  assert (Hsc : scored RF RF1) by (eapply scored_trans; [apply scored_conf | done]).
  assert (Hf1 : scored_fields (<[k := RF1]> fields)) by (by eapply scored_fields_set).
  destruct (dlt (dlit 999 1000) (act RF0) && dlt avg avg_error_threshold) eqn:Eex.
  - split; [by split|]. split; [by left|]. split; [by rewrite Ecut | by eexists].
  - eapply pg_ensures_mono; [apply add_prediction_ok; [by eapply scored_ok | by split | done]|].
    intros cs' st' (Hc' & Hro & Hex). split_and!; [done | done|]. split; [by rewrite Ecut|].
    simpl in Hex. rewrite Hex. intros [?|(_ & E1 & num1 & avg1 & me1 & E2 & E3)]; [done|].
    destruct (field_error_avg _ _ me _ _ _ E2) as (x' & E4). rewrite Eerr in E4. simplify_eq. by rewrite E1, E3 in Eex.
Qed.
Lemma est_future_ok dist counts cs :
  num_query_pattern ≤ length dist → length counts = num_query_pattern → length (cs_future cs) = num_query_pattern →
  ensures (est_future_of dist counts cs) (fun _ => True).
Proof.
  intros Hd Hc Hf.
  assert (Hsum : ensures (for_range 0 num_query_pattern (fun l f =>
     d ← rd dist l; v ← rd (cs_future cs) l; Ok (f + d * v)%D) (est_future lwpr_men_alloc_ev)) (fun _ => True)).
  { apply (ensures_for (fun _ _ => True)); [lia | done|]. intros l f Hl _.
    apply ensures_bind, ensures_rd; [lia|]. intros d _. apply ensures_bind, ensures_rd; [lia|]. done. }
  unfold est_future_of. destruct (cs_exact cs); [done|]. destruct (_ =? 0); [|done].
  apply (ensures_for (fun _ _ => True)); [lia | done|]. intros i f Hi _. apply ensures_bind, ensures_rd; [lia|].
  intros num _. destruct (dlt _ _); [|done]. apply ensures_bind, ensures_rd; [lia|]. done.
Qed.

Lemma est_uncof_ok cs : ensures (est_uncof_of cs) (fun _ => True).
Proof.
  unfold est_uncof_of. destruct (cs_exact cs); [done|]. destruct (dlt _ _); [|done]. cbv zeta.
  apply (ensures_bind_mono _ _ (fun _ => True)); [|done]. destruct (dlt _ _); [done|]. unfold normal_mass. apply integral_total.
Qed.

Lemma conf_value_ok fields cs st :
  Forall (rf_ok n nInS) fields → Forall (settled n) fields → cs_idx_max cs < length fields → wsz n nInS (cs_ws cs) → house st →
  pg_ensures (conf_value (set_rf m fields) cs) st (fun '(WS', _) st' => wsz n nInS WS' ∧ read_only st st').
Proof.
  intros Ho Hs Hi Hw Hh. unfold conf_value. destruct (cs_exact cs); [split; [done | by left]|].
  destruct (dlt _ _); [split; [done | by left]|]. destruct (_ || _); [split; [done | by left]|].
  by apply nearest_field_ok.
Qed.

(** Everything but the scores of the fields, the history and the scratch space. *)
Definition same_model (m' : LWPR_Model) : Prop :=
  cfg m' = cfg m ∧ fss_hash m' = fss_hash m ∧ m_n_data m' = m_n_data m ∧ n_pruned m' = n_pruned m ∧ numPointers m' = numPointers m.

Lemma conf_result fields WS hist counts ev :
  scored_fields fields → wsz n nInS WS → length hist = num_query_pattern →
  Forall (fun row => length row = num_history_data_compute_probability_rf * n + 1) hist →
  length counts = num_query_pattern → Forall (count_le num_history_data_compute_probability_rf) counts →
  let m' := set_explore_values (set_history (set_ws (set_rf m fields) WS) hist counts) ev in
  model_ok m' ∧ same_model m' ∧ rf m' = fields ∧ explore_values m' = ev ∧ num_history_data m' = counts.
Proof.
  intros Hf Hw H1' H2' H3' H4'. pose proof (scored_fields_ok _ Hf) as Ho. pose proof (Forall2_length _ _ _ Hf) as Hl.
  unfold same_model, scored_fields in *. destruct Hm as [A1 A2 A3 A4 A5 A6 A7 A8 A9]. unfold n, nInS, numRFS in *. destruct m. simpl in *. split; [|by repeat split].
  split; try done. unfold numRFS in *. simpl in *. lia.
Qed.

(** The future value of an input no field covers: the probability of the query
    patterns that use this model. *)
Definition outlier_future (dist counts : list double) : double :=
  foldl (fun f i => match counts !! i, dist !! i with
                    | Some num, Some d => if dlt d0 num then (f + d * outer_future_value)%D else f
                    | _, _ => f end) d0 (seq 0 num_query_pattern).

Lemma est_future_outlier dist counts cs :
  num_query_pattern ≤ length dist → length counts = num_query_pattern → cs_exact cs = None → cs_count cs = 0 →
  est_future_of dist counts cs = Ok (outlier_future dist counts).
Proof.
  intros Hd Hc E1 E2. unfold est_future_of. rewrite E1, E2. cbn [Nat.eqb].
  match goal with |- ?x = _ => assert (Hx : ensures x (fun f => f = outlier_future dist counts)) end.
  { apply (ensures_for (fun k f => f = foldl (fun f i => match counts !! i, dist !! i with
      | Some num, Some d => if dlt d0 num then (f + d * outer_future_value)%D else f | _, _ => f end) d0 (seq 0 k))); [lia | done|].
    intros i f Hi ->. rewrite seq_S, foldl_app. cbn [foldl Nat.add].
    destruct (rd_lt counts i ltac:(lia)) as (num & -> & ->), (rd_lt dist i ltac:(lia)) as (d & -> & ->).
    cbn [mbind res_bind]. by destruct (dlt d0 num). }
  apply ensures_inv in Hx as (f & -> & ->). done.
Qed.

(** What the first [k] fields leave behind. *)
Record conf_upto (cutoff : double) (k : nat) (cs : conf_state) : Prop := {
  upto_quiet : (∀ i RF, i < k → rf m !! i = Some RF → dlt cutoff (act RF) = false) →
    cs_exact cs = None ∧ cs_count cs = 0 ∧ cs_sum_w2 cs = d0 ∧ cs_min_error cs = d_of_Z 9999 ∧
    (cs_w_max cs = d0 ∨ ∃ RF, RF ∈ rf m ∧ cs_w_max cs = act RF ∧ is_nan (act RF) = false);
  upto_exact : ∀ i RF, i < k → rf m !! i = Some RF → exact_field (cfg m) (xn m) cutoff RF → is_Some (cs_exact cs)
}.

Lemma conf_upto_step cutoff k RF cs cs' :
  rf m !! k = Some RF → conf_step cutoff RF cs cs' → conf_upto cutoff k cs → conf_upto cutoff (S k) cs'.
Proof.
  intros HRF [Sq Se] [Uq Ue]. split.
  - intros Hall. destruct Uq as (E1 & E2 & E3 & E4 & E5); [intros i RF' Hi HRF'; apply (Hall i); [lia | done]|].
    destruct Sq as (F1 & F2 & F3 & F4 & F5); [apply (Hall k); [lia | done]|].
    split_and!; [congruence..|]. rewrite F5. destruct (dlt (cs_w_max cs) (act RF)) eqn:E; [|done].
    right. exists RF. apply dlt_key in E. split_and!; [by eapply list_elem_of_lookup_2 | done | apply E].
  - intros i RF' Hi HRF' Hex. apply Se. destruct (decide (i = k)) as [->|Hne].
    + right. by simplify_eq.
    + left. eapply Ue; [|done..]. lia.
Qed.

(** The certainty of an explore prediction at its two ends. *)
Definition conf_ends (cutoff : double) (dist : list double) (m' : LWPR_Model) (y : double) : Prop :=
  (Forall (fun RF => dlt cutoff (act RF) = false) (rf m) →
   est_uncof (explore_values m') = d_of_Z 1 ∧
   est_future (explore_values m') = outlier_future dist (num_history_data m') ∧
   (Forall (fun RF => deq (act RF) use_aqo_threshold = false) (rf m) → y = d_of_Z (-9999))) ∧
  (Exists (exact_field (cfg m) (xn m) cutoff) (rf m) → est_uncof (explore_values m') = d0).

Lemma outlier_value cs st :
  cs_exact cs = None → cs_count cs = 0 → cs_sum_w2 cs = d0 → cs_min_error cs = d_of_Z 9999 →
  (cs_w_max cs = d0 ∨ ∃ RF, RF ∈ rf m ∧ cs_w_max cs = act RF ∧ is_nan (act RF) = false) →
  Forall (fun RF => deq (act RF) use_aqo_threshold = false) (rf m) →
  conf_value (set_rf m (cs_rf cs)) cs st = (Ok (cs_ws cs, d_of_Z (-9999)), st).
Proof.
  intros E1 E2 E3 E4 E5 Hne. unfold conf_value. rewrite E1, E2, E3, E4. change (dlt d0 d0) with false. cbv iota.
  change (dlt avg_error_threshold (d_of_Z 9999)) with true. cbn [Nat.eqb]. rewrite !andb_true_r.
  destruct E5 as [->|(RF & HRF & -> & Hnan)]; [done|].
  pose proof (proj1 (Forall_forall _ _) Hne RF HRF) as Hd. cbv beta in Hd.
  destruct (dlt (act RF) use_aqo_threshold) eqn:F1; [done|]. destruct (dlt use_aqo_threshold (act RF)) eqn:F2; [done|].
  by rewrite (dlt_total (act RF) use_aqo_threshold Hnan eq_refl F1 F2) in Hd.
Qed.

Lemma conf_loop_ok cutoff total fields WS st :
  length total = num_query_pattern → scored_fields fields → wsz n nInS WS → house st →
  pg_ensures (pg_for 0 (numRFS m) (conf_field m cutoff total)
    (mkConf fields WS (palloc0 num_query_pattern) d0 0 (d_of_Z 9999) None d0 d0 d0 d0 d0 d0 0)) st (fun cs st' =>
    scored_fields (cs_rf cs) ∧ wsz n nInS (cs_ws cs) ∧ length (cs_future cs) = num_query_pattern ∧
    (numRFS m = 0 ∨ cs_idx_max cs < numRFS m) ∧ conf_upto cutoff (numRFS m) cs ∧ read_only st st').
Proof.
  intros Ht Hf Hw Hh. set (cs0 := mkConf _ _ _ _ _ _ _ _ _ _ _ _ _ _).
  assert (Hup : conf_upto cutoff 0 cs0) by (split; [intros _; split_and!; auto | lia]).
  destruct (decide (numRFS m = 0)) as [E|E].
  - rewrite E. unfold pg_ensures. simpl. split_and!; [done | done | done | by left | done | by left].
  - eapply pg_ensures_mono; [apply (pg_ensures_for (fun k cs st' => conf_ok cs ∧ conf_upto cutoff k cs ∧ read_only st st'))|]; [lia | | |].
    + split_and!; [|done | by left]. split; [done | done | done | simpl; lia].
    + intros k cs st1 Hk (Hc & Hu & Hro). destruct (lookup_lt_is_Some_2 (rf m) k) as [RF HRF]; [unfold numRFS in *; lia|].
      eapply pg_ensures_mono; [apply (conf_field_ok _ _ _ RF); [lia | done | done | by eapply read_only_house]|].
      intros cs' st2 (Hc' & Hro' & Hst). split_and!; [done | by eapply conf_upto_step | by eapply read_only_trans].
    + intros cs st' ([Hc1 Hc2 Hc3 Hc4] & Hu & Hro). auto 10.
Qed.

Lemma conf_value_ends cutoff cs st st1 :
  scored_fields (cs_rf cs) → wsz n nInS (cs_ws cs) → (numRFS m = 0 ∨ cs_idx_max cs < numRFS m) →
  conf_upto cutoff (numRFS m) cs → read_only st st1 → Forall (settled n) (rf m) → house st →
  pg_ensures (conf_value (set_rf m (cs_rf cs)) cs) st1 (fun '(WS', y) st' => wsz n nInS WS' ∧ read_only st st' ∧
    (Forall (fun RF => dlt cutoff (act RF) = false) (rf m) →
     Forall (fun RF => deq (act RF) use_aqo_threshold = false) (rf m) → y = d_of_Z (-9999))).
Proof.
  intros Hf Hw Hi Hup Hro Hset Hh.
  destruct (decide (Forall (fun RF => dlt cutoff (act RF) = false) (rf m) ∧
    Forall (fun RF => deq (act RF) use_aqo_threshold = false) (rf m))) as [[Hq Hne]|Hno].
  - destruct (upto_quiet _ _ _ Hup) as (E1 & E2 & E3 & E4 & E5).
    { intros i RF _ HRF. by apply (Forall_lookup_1 _ _ _ _ Hq HRF). }
    eapply pg_ensures_intro; [by apply outlier_value|]. done.
  - eapply pg_ensures_mono; [apply conf_value_ok; [by apply scored_fields_ok | by apply scored_fields_settled | | done | by eapply read_only_house]|].
    + rewrite <- (Forall2_length _ _ _ Hf). destruct Hi as [E|]; [|done]. exfalso. apply Hno.
      unfold numRFS in E. apply length_zero_iff_nil in E. by rewrite E.
    + intros [WS' y] st2 [Hw' Hro']. split_and!; [done | by eapply read_only_trans | naive_solver].
Qed.

Lemma predict_conf_ok cutoff st :
  Forall (settled n) (rf m) → house st → num_query_pattern ≤ length (query_distribution (ctx st)) →
  (0 ≤ current_query_hash (ctx st) ≤ Z.of_nat num_query_pattern)%Z →
  pg_ensures (lwpr_aux_predict_conf_one_T m cutoff) st (fun '(m', y) st' =>
    model_ok m' ∧ same_model m' ∧ scored_fields (rf m') ∧ read_only st st' ∧ rate (explore_values m') = rate_between_explore_value ∧
    conf_ends cutoff (query_distribution (ctx st)) m' y).
Proof.
  intros Hset Hh Hd Hq. destruct (field_sizes m Hm) as (Hn & HnS & Hx). fold n nInS in Hn, HnS, Hx.
  set (dist := query_distribution (ctx st)) in *.
  unfold lwpr_aux_predict_conf_one_T. apply pg_ensures_bind. unfold pg_get at 1, pg_ensures at 1. fold dist.
  apply pg_ensures_bind, pg_ensures_lift. eapply ensures_mono; [by apply happen_freq_ok|].
  intros [[fields WS] total] (Hf & Hw & Ht). apply pg_ensures_bind. unfold pg_get at 1, pg_ensures at 1.
  apply pg_ensures_bind, pg_ensures_lift. eapply ensures_mono; [apply push_history_ok; [done | fold n; lia | apply Hm..]|].
  intros [hist counts] (Hh1 & Hh2 & Hh3 & Hh4). set (cs0 := mkConf _ _ _ _ _ _ _ _ _ _ _ _ _ _).
  eapply pg_ensures_bind_mono; [by apply conf_loop_ok|].
  intros cs st1 (Hc1 & Hc2 & Hc3 & Hc4 & [Hquiet Hexact] & Hro). apply pg_ensures_bind, pg_ensures_lift.
  destruct (ensures_inv _ _ (est_future_ok dist counts cs Hd Hh3 Hc3)) as (fut & Efut & _). rewrite Efut. cbn [ensures].
  apply pg_ensures_bind, pg_ensures_lift.
  destruct (ensures_inv _ _ (est_uncof_ok cs)) as (unc & Eunc & _). rewrite Eunc. cbn [ensures].
  apply pg_ensures_bind. apply (pg_ensures_mono _ _ (fun '(WS', y) st' => wsz n nInS WS' ∧ read_only st st' ∧
    (Forall (fun RF => dlt cutoff (act RF) = false) (rf m) →
     Forall (fun RF => deq (act RF) use_aqo_threshold = false) (rf m) → y = d_of_Z (-9999)))).
  { by apply conf_value_ends. }
  intros [WS' y] st2 (Hw' & Hro' & Hy). cbv beta iota zeta.
  set (ev := mkEV _ unc fut _). destruct (conf_result (cs_rf cs) WS' hist counts ev) as (R1 & R2 & R3 & R4 & R5); try done.
  unfold pg_ensures. cbn [mret PG_ret]. set (m' := set_explore_values _ ev) in *. clearbody m'.
  rewrite R3, R4. split_and!; try done. split.
  - intros Hall. destruct Hquiet as (E1 & E2 & E3 & _ & _).
    { intros i RF _ Hi. by apply (Forall_lookup_1 _ _ _ _ Hall Hi). }
    rewrite R4, R5. split_and!.
    + unfold est_uncof_of in Eunc. rewrite E1, E3 in Eunc. by injection Eunc as <-.
    + rewrite (est_future_outlier dist counts cs) in Efut by done. by injection Efut as <-.
    + by apply Hy.
  - intros (RF & HRF & Hex)%Exists_exists. apply list_elem_of_lookup_1 in HRF as (i & Hi). rewrite R4.
    destruct (Hexact i RF (lookup_lt_Some _ _ _ Hi) Hi Hex) as (y0 & E). unfold est_uncof_of in Eunc. rewrite E in Eunc.
    by injection Eunc as <-.
Qed.
End explore.

Lemma normalise_model m x :
  model_ok m → nIn (cfg m) ≤ length x →
  ensures (normalise m x) (fun m' => model_ok m' ∧ same_model m m' ∧ rf m' = rf m ∧
    take (nIn (cfg m)) (xn m') = take (nIn (cfg m)) (normalised (cfg m) x)).
Proof.
  intros Hm Hx. destruct (field_sizes m Hm) as (Hn & HnS & Hxn). unfold normalise. eapply ensures_bind_mono.
  { apply normalise_ok; [done | rewrite (cfg_norm _ (m_cfg _ Hm)); lia | lia]. }
  intros xs [Hl He]. cbn [ensures]. destruct Hm. destruct m. simpl in *. split_and!; [|done..]. split; simpl in *; congruence || done.
Qed.

(** ** Properties *)
Section properties.
Context `{Cluster} `{Libm}.

(** The session can predict with the model: the data house has its shape, the
    distribution of the query patterns is loaded, the pattern is a known one. *)
Record can_predict (m : LWPR_Model) (st : pgstate) : Prop := {
  cp_calm : calm;
  cp_model : model_ok m;
  cp_settled : Forall (settled (nIn (cfg m))) (rf m);
  cp_house : house_ok (nIn (cfg m)) (fss_hash m) st;
  cp_dist : num_query_pattern ≤ length (query_distribution (ctx st));
  cp_query : (0 ≤ current_query_hash (ctx st) ≤ Z.of_nat num_query_pattern)%Z
}.

Lemma same_model_trans m1 m2 m3 : same_model m1 m2 → same_model m2 m3 → same_model m1 m3.
Proof. unfold same_model. naive_solver congruence. Qed.

Lemma predict_explore_ok m x cutoff st :
  can_predict m st → nIn (cfg m) ≤ length x →
  pg_ensures (lwpr_predict_explore m x cutoff) st (fun '(m', ev) st' =>
    model_ok m' ∧ same_model m m' ∧ Forall2 scored (rf m) (rf m') ∧ read_only st st' ∧ rate ev = rate_between_explore_value ∧
    (Forall (fun RF => dlt cutoff (activation (cfg m) RF (normalised (cfg m) x)) = false) (rf m) →
     est_uncof ev = d_of_Z 1 ∧ est_future ev = outlier_future (query_distribution (ctx st)) (num_history_data m') ∧
     (Forall (fun RF => deq (activation (cfg m) RF (normalised (cfg m) x)) use_aqo_threshold = false) (rf m) →
      ev_rows ev = (d_of_Z (-9999) * norm_out (cfg m))%D)) ∧
    (Exists (exact_field (cfg m) (normalised (cfg m) x) cutoff) (rf m) → est_uncof ev = d0)).
Proof.
  intros [Hcalm Hm Hset Hh Hd Hq] Hx. unfold lwpr_predict_explore. apply pg_ensures_bind, pg_ensures_lift.
  eapply ensures_mono; [by apply normalise_model|]. intros m1 (Hm1 & Hsame & Er & Ex). pose proof Hsame as (Ec & Ef & _).
  eapply pg_ensures_bind_mono; [apply predict_conf_ok; rewrite ?Ec, ?Ef, ?Er; done|].
  intros [m2 y] st' (Hm2 & Hsame2 & Hsc & Hro & Hrate & Hq1 & Hex). pose proof Hsame2 as (Ec2 & _).
  rewrite Er, Ec in Hq1, Hex. unfold scored_fields in Hsc. rewrite Er in Hsc.
  assert (Ha : ∀ RF, activation (cfg m) RF (xn m1) = activation (cfg m) RF (normalised (cfg m) x)) by (intros; by apply activation_take).
  unfold pg_ensures. cbn [mret PG_ret]. cbv zeta. cbn [est_uncof est_future ev_rows rate]. rewrite Ec2, Ec.
  split_and!; [done | by eapply same_model_trans | done | done | done | |].
  - intros Hall. destruct Hq1 as (U1 & U2 & U3); [eapply Forall_impl; [exact Hall|]; intros RF HRF; by rewrite Ha|].
    split_and!; [done | done|]. intros Hne. rewrite U3; [done|]. eapply Forall_impl; [exact Hne|]. intros RF HRF. by rewrite Ha.
  - intros Hexact. apply Hex. eapply Exists_impl; [exact Hexact|]. intros RF (A1 & A2 & A3). unfold exact_field. by rewrite Ha.
Qed.

(** C18. Predicting is safe and changes nothing that was learned: with at least
    one field [lwpr_predict] returns, inside every array, leaves every table
    and every field as it was; [lwpr_predict_explore] returns for every model,
    also one without fields, and writes only the scores of the fields, the
    history of the model and its scratch space.  Without a field [lwpr_predict]
    reads the field 0 that is not there. *)
Theorem prediction_safe m x cutoff st :
  can_predict m st → nIn (cfg m) ≤ length x →
  (1 ≤ numRFS m → pg_ensures (lwpr_predict m x cutoff) st (fun '(m', _) st' =>
     model_ok m' ∧ same_model m m' ∧ rf m' = rf m ∧ read_only st st')) ∧
  (numRFS m = 0 → lwpr_predict m x cutoff st = (Err Fault_bounds, st)) ∧
  pg_ensures (lwpr_predict_explore m x cutoff) st (fun '(m', _) st' =>
    model_ok m' ∧ same_model m m' ∧ Forall2 scored (rf m) (rf m') ∧ read_only st st').
Proof.
  intros Hcp Hx. pose proof Hcp as [Hcalm Hm Hset Hh Hd Hq].
  destruct (ensures_inv _ _ (normalise_model m x Hm Hx)) as (m1 & E1 & Hm1 & Hsame & Er & Ex). pose proof Hsame as (Ec & Ef & _).
  split_and!.
  - intros Hpos. unfold lwpr_predict. rewrite E1. apply pg_ensures_bind, pg_ensures_lift. cbn [ensures].
    eapply pg_ensures_bind_mono; [apply predict_one_ok; rewrite ?Ec, ?Ef, ?Er; try done; unfold numRFS in *; by rewrite Er|].
    intros [WS y] st' [Hw Hro]. unfold pg_ensures. cbn [mret PG_ret].
    assert (Hm2 : model_ok (set_ws m1 WS)) by (destruct Hm1; destruct m1; by split).
    destruct m1. simpl in *. by split_and!.
  - intros Hz. unfold lwpr_predict. rewrite E1. rewrite (pg_lift_ok _ _ _ m1) by done.
    unfold lwpr_aux_predict_one_T, numRFS in *. rewrite Er, Hz. destruct (rf m) as [|] eqn:Em; [|done].
    unfold nearest_field. cbn. by rewrite Er.
  - eapply pg_ensures_mono; [by apply predict_explore_ok|]. intros [m' ev] st' (? & ? & ? & ? & _). done.
Qed.

(** C19. How certain an explore prediction is, at its two ends.  When no field is
    active at the input the estimate is refused (the value that makes the
    caller fall back to the standard estimator, unless the largest activation
    is exactly the threshold), it is fully uncertain, and its future value is the
    probability of the query patterns the model has data of.  When the input
    all but coincides with the centre of a field that has predicted well, the
    estimate is fully certain. *)
Theorem explore_certainty m x cutoff st :
  can_predict m st → nIn (cfg m) ≤ length x →
  pg_ensures (lwpr_predict_explore m x cutoff) st (fun '(m', ev) _ =>
    (Forall (fun RF => dlt cutoff (activation (cfg m) RF (normalised (cfg m) x)) = false) (rf m) →
     est_uncof ev = d_of_Z 1 ∧ est_future ev = outlier_future (query_distribution (ctx st)) (num_history_data m') ∧
     (Forall (fun RF => deq (activation (cfg m) RF (normalised (cfg m) x)) use_aqo_threshold = false) (rf m) →
      ev_rows ev = (d_of_Z (-9999) * norm_out (cfg m))%D)) ∧
    (Exists (exact_field (cfg m) (normalised (cfg m) x) cutoff) (rf m) → est_uncof ev = d0)).
Proof.
  intros Hcp Hx. eapply pg_ensures_mono; [by apply predict_explore_ok|]. intros [m' ev] st' (_ & _ & _ & _ & _ & ?). done.
Qed.
End properties.

(** ** Witnesses *)

(** The model a session has after its first datum, and a later session. *)
Definition sample_trained : LWPR_Model :=
  match @lwpr_update good_cluster sample_libm sample_palloc sample_init [d_of_Z (-3)] (d_of_Z 2) (sample_state aqo_data []) with
  | (Ok (m, _), _) => m
  | _ => sample_init
  end.

Definition planning_state : pgstate :=
  set_ctx (sample_state aqo_data []) (set_distribution (ctx (sample_state aqo_data [])) (replicate num_query_pattern (dlit 1 7))).

Lemma sample_fields_ok : model_ok sample_trained ∧ nIn (cfg sample_trained) = 1.
Proof.
  destruct (init_diag true false zero_config 1 sample_init) as (Hm & En & Er & Hth & _); [lia | reflexivity|].
  pose proof (@update_ok good_cluster sample_libm sample_palloc sample_init [d_of_Z (-3)] (d_of_Z 2) (sample_state aqo_data [])
    good_calm Hm Hth (empty_house _ _) ltac:(done) ltac:(by rewrite En)) as Hu.
  unfold sample_trained. apply pg_ensures_inv in Hu as ([m' code] & st' & -> & _ & Hm' & Ec & _). by rewrite Ec.
Qed.

Lemma map_singleton_Forall {A B} (f : A → B) (b : B) (P : A → Prop) (l : list A) :
  map f l = [b] → (∀ x, f x = b → P x) → Forall P l.
Proof. destruct l as [|x [|]]; intros E HP; try discriminate. apply Forall_singleton, HP. by injection E. Qed.

Lemma planning_house n fss : house_ok n fss planning_state.
Proof. split; [split; [intros [] | intros []]; done | done]. Qed.

Lemma sample_can_predict : @can_predict good_cluster sample_trained planning_state.
Proof.
  destruct sample_fields_ok as [Hm En]. split; [exact good_calm | exact Hm | | apply planning_house | vm_compute; lia | by split].
  apply (map_singleton_Forall trustworthy 0%Z); [vm_compute; reflexivity|]. intros RF HRF. right. left. exact HRF.
Qed.

Lemma prediction_safe_witness :
  pg_ensures (@lwpr_predict good_cluster sample_libm sample_trained [d_of_Z (-3)] (dlit 1 1000)) planning_state
    (fun '(m', _) st' => rf m' = rf sample_trained ∧ read_only planning_state st').
Proof.
  assert (Hlen : nIn (cfg sample_trained) ≤ length [d_of_Z (-3)]) by (rewrite (proj2 sample_fields_ok); apply le_n).
  assert (Hpos : 1 ≤ numRFS sample_trained) by (apply Nat.leb_le; vm_compute; reflexivity).
  destruct (@prediction_safe good_cluster sample_libm sample_trained [d_of_Z (-3)] (dlit 1 1000) planning_state
    sample_can_predict Hlen) as [Hp _].
  apply (pg_ensures_mono _ _ _ _ (Hp Hpos)). intros [m' y] st' (_ & _ & Hr & Hro). exact (conj Hr Hro).
Defined.

Lemma explore_certainty_witness :
  pg_ensures (@lwpr_predict_explore good_cluster sample_libm sample_trained [d_of_Z (-3)] (d_of_Z 2)) planning_state
    (fun '(_, ev) _ => est_uncof ev = d_of_Z 1).
Proof.
  assert (Hlen : nIn (cfg sample_trained) ≤ length [d_of_Z (-3)]) by (rewrite (proj2 sample_fields_ok); apply le_n).
  apply (pg_ensures_mono _ _ _ _ (@explore_certainty good_cluster sample_libm sample_trained [d_of_Z (-3)] (d_of_Z 2)
    planning_state sample_can_predict Hlen)).
  intros [m' ev] st' [Hq _]. apply Hq.
  apply (map_singleton_Forall (fun RF => dlt (d_of_Z 2) (@activation sample_libm (cfg sample_trained) RF
    (normalised (cfg sample_trained) [d_of_Z (-3)]))) false); [vm_compute; reflexivity | intros RF HRF; exact HRF].
Defined.
