(* ===== verification/SelectivityCache.v ===== *)
(** * SelectivityCache: selectivities remembered between planning and execution

    contrib/aqo/selectivity_cache.c: the list [objects] of a session, searched
    from the front; an entry is added at the end unless one with the same clause,
    relation and global relation is there. *)
From S2P Require Import Prelude Float64.

Record Entry : Type := mkEntry {
  clause_hash : Z;
  relid : Z;
  global_relid : Z;
  selectivity : double
}.

(** [foreach(l, objects)] with the test of [cache_selectivity]. *)
Fixpoint cached (objects : list Entry) (ch r g : Z) : bool :=
  match objects with
  | [] => false
  | cur_element :: l =>
      if ((clause_hash cur_element =? ch) && (relid cur_element =? r) && (global_relid cur_element =? g))%Z
      then true else cached l ch r g
  end.

Definition cache_selectivity (ch r g : Z) (s : double) (objects : list Entry) : list Entry :=
  if cached objects ch r g then objects else objects ++ [mkEntry ch r g s].

Fixpoint selectivity_cache_find_global_relid (objects : list Entry) (ch g : Z) : option double :=
  match objects with
  | [] => None
  | cur_element :: l =>
      if ((clause_hash cur_element =? ch) && (global_relid cur_element =? g))%Z
      then Some (selectivity cur_element) else selectivity_cache_find_global_relid l ch g
  end.

Definition selectivity_cache_clear (objects : list Entry) : list Entry := [].

(** ** The abstract cache

    A finite map from a clause and a global relation to a selectivity, in which
    the first value stored for a key stays. *)
Notation acache := (gmap (Z * Z) double).

Definition acache_store (ch g : Z) (s : double) (c : acache) : acache :=
  match c !! (ch, g) with Some _ => c | None => <[(ch, g) := s]> c end.

Definition abs (objects : list Entry) : acache :=
  foldl (fun c e => acache_store (clause_hash e) (global_relid e) (selectivity e) c) ∅ objects.

(** The operations of a session on the cache. *)
Inductive cache_op : Type :=
| Op_cache (ch r g : Z) (s : double)
| Op_clear.

Definition run_op (objects : list Entry) (o : cache_op) : list Entry :=
  match o with
  | Op_cache ch r g s => cache_selectivity ch r g s objects
  | Op_clear => selectivity_cache_clear objects
  end.

Definition abstract_op (c : acache) (o : cache_op) : acache :=
  match o with Op_cache ch _ g s => acache_store ch g s c | Op_clear => ∅ end.

(** ** Lemmas *)
Definition key3 (e : Entry) : Z * Z * Z := (clause_hash e, relid e, global_relid e).

Lemma cached_spec objects ch r g : cached objects ch r g = true ↔ (ch, r, g) ∈ map key3 objects.
Proof.
  induction objects as [|e l IH]; simpl; [split; [done | intros []%elem_of_nil]|]. rewrite elem_of_cons, <- IH.
  unfold key3 at 1. destruct (Z.eqb_spec (clause_hash e) ch), (Z.eqb_spec (relid e) r), (Z.eqb_spec (global_relid e) g); simpl;
    naive_solver.
Qed.

Lemma abs_app l l' : abs (l ++ l') = foldl (fun c e => acache_store (clause_hash e) (global_relid e) (selectivity e) c) (abs l) l'.
Proof. apply foldl_app. Qed.

Lemma acache_store_lookup ch g s c ch' g' :
  acache_store ch g s c !! (ch', g') = match c !! (ch', g') with
                                      | Some x => Some x
                                      | None => if decide ((ch, g) = (ch', g')) then Some s else None
                                      end.
Proof.
  unfold acache_store. destruct (decide ((ch, g) = (ch', g'))) as [[= -> ->]|Hne].
  - destruct (c !! (ch', g')) eqn:E; [done|]. by rewrite lookup_insert_eq.
  - destruct (c !! (ch, g)) eqn:E; [by destruct (c !! (ch', g'))|]. rewrite lookup_insert_ne by done. by destruct (c !! (ch', g')).
Qed.

(** Searching the list from the front is looking up the abstract map. *)
Lemma abs_from l c ch g :
  foldl (fun c e => acache_store (clause_hash e) (global_relid e) (selectivity e) c) c l !! (ch, g) =
  match c !! (ch, g) with Some x => Some x | None => selectivity_cache_find_global_relid l ch g end.
Proof.
  revert c. induction l as [|e l IH]; intros c; simpl; [by destruct (c !! (ch, g))|]. rewrite IH, acache_store_lookup.
  destruct (c !! (ch, g)); [done|].
  destruct (Z.eqb_spec (clause_hash e) ch), (Z.eqb_spec (global_relid e) g); simpl; case_decide; naive_solver.
Qed.

Lemma find_abs l ch g : selectivity_cache_find_global_relid l ch g = abs l !! (ch, g).
Proof. unfold abs. by rewrite abs_from, lookup_empty. Qed.

Lemma cached_find l ch r g : cached l ch r g = true → is_Some (abs l !! (ch, g)).
Proof.
  rewrite <- find_abs. induction l as [|e l IH]; simpl; [done|].
  destruct (Z.eqb_spec (clause_hash e) ch), (Z.eqb_spec (global_relid e) g); simpl; rewrite ?andb_false_r; eauto.
Qed.

Lemma run_op_abs l o : abs (run_op l o) = abstract_op (abs l) o.
Proof.
  destruct o as [ch r g s|]; simpl; [|done]. unfold cache_selectivity. destruct (cached l ch r g) eqn:E.
  - unfold acache_store. by destruct (cached_find _ _ _ _ E) as [x ->].
  - by rewrite abs_app.
Qed.

Lemma run_op_nodup l o : NoDup (map key3 l) → NoDup (map key3 (run_op l o)).
Proof.
  intros Hl. destruct o as [ch r g s|]; simpl; [|constructor]. unfold cache_selectivity. destruct (cached l ch r g) eqn:E; [done|].
  rewrite map_app. apply NoDup_app. split_and!; [done | | apply NoDup_singleton].
  intros k Hk ->%list_elem_of_singleton. apply not_true_iff_false in E. apply E, cached_spec, Hk.
Qed.

Lemma run_ops_abs ops l : abs (foldl run_op l ops) = foldl abstract_op (abs l) ops.
Proof. revert l. induction ops as [|o ops IH]; intros l; simpl; [done|]. by rewrite IH, run_op_abs. Qed.

Lemma run_ops_nodup ops l : NoDup (map key3 l) → NoDup (map key3 (foldl run_op l ops)).
Proof. revert l. induction ops as [|o ops IH]; intros l Hl; simpl; [done|]. by apply IH, run_op_nodup. Qed.

(** C38. The cache refines a finite map in which the first selectivity stored for
    a clause and a global relation wins: after any sequence of operations of a
    session, a search gives what the map holds, and no clause, relation and
    global relation has two entries. *)
Theorem cache_refines (ops : list cache_op) :
  let objects := foldl run_op [] ops in
  (∀ ch g, selectivity_cache_find_global_relid objects ch g = foldl abstract_op ∅ ops !! (ch, g)) ∧
  NoDup (map key3 objects).
Proof.
  split; [|apply run_ops_nodup; constructor]. intros ch g. by rewrite find_abs, run_ops_abs.
Qed.
