(* ===== verification/Bitmapset.v ===== *)
(** * Bitmapset: sets of relation numbers

    The routines of src/backend/nodes/bitmapset.c that the planner code of this
    development uses.  A set is NULL or an array of 32-bit words; [mem] is the
    set it stands for. *)
From S2P Require Import Prelude.
From stdpp Require Import sorting.

Definition BITS_PER_BITMAPWORD : nat := 32.
Definition WORDNUM (x : nat) : nat := x / BITS_PER_BITMAPWORD.
Definition BITNUM (x : nat) : nat := x mod BITS_PER_BITMAPWORD.

Notation bitmapword := Z (only parsing).
Definition Bitmapset : Type := option (list bitmapword).

(** [~w] on a word. *)
Definition word_not (w : bitmapword) : bitmapword := wrap32 (Z.lnot w).

Inductive BMS_Comparison : Type := BMS_EQUAL | BMS_SUBSET1 | BMS_SUBSET2 | BMS_DIFFERENT.

#[export] Instance BMS_eqdec : EqDecision BMS_Comparison.
Proof. solve_decision. Defined.

Fixpoint all_zero (l : list bitmapword) : bool :=
  match l with [] => true | w :: l => if negb (w =? 0)%Z then false else all_zero l end.

Definition bms_is_empty (a : Bitmapset) : bool :=
  match a with None => true | Some ws => all_zero ws end.

Fixpoint equal_words (shorter longer : list bitmapword) : bool :=
  match shorter, longer with
  | s :: shorter, l :: longer => if negb (s =? l)%Z then false else equal_words shorter longer
  | _, longer => all_zero longer
  end.

Definition bms_equal (a b : Bitmapset) : bool :=
  match a, b with
  | None, None => true
  | None, Some _ => bms_is_empty b
  | Some _, None => bms_is_empty a
  | Some x, Some y => if length x <=? length y then equal_words x y else equal_words y x
  end.

(** [a] has a member that [b] has not. *)
Definition extra1 (result : BMS_Comparison) : BMS_Comparison :=
  match result with BMS_SUBSET1 => BMS_DIFFERENT | _ => BMS_SUBSET2 end.

Definition extra2 (result : BMS_Comparison) : BMS_Comparison :=
  match result with BMS_SUBSET2 => BMS_DIFFERENT | _ => BMS_SUBSET1 end.

(** The extra words of the longer set. *)
Fixpoint compare_tail (extra : BMS_Comparison → BMS_Comparison) (l : list bitmapword) (result : BMS_Comparison)
  : BMS_Comparison :=
  match l with
  | [] => result
  | w :: l =>
      let result := if negb (w =? 0)%Z then extra result else result in
      if decide (result = BMS_DIFFERENT) then BMS_DIFFERENT else compare_tail extra l result
  end.

(** The common words, then the extra ones. *)
Fixpoint compare_words (a b : list bitmapword) (result : BMS_Comparison) : BMS_Comparison :=
  match a, b with
  | aword :: a, bword :: b =>
      let result := if negb (Z.land aword (word_not bword) =? 0)%Z then extra1 result else result in
      if decide (result = BMS_DIFFERENT) then BMS_DIFFERENT
      else
        let result := if negb (Z.land bword (word_not aword) =? 0)%Z then extra2 result else result in
        if decide (result = BMS_DIFFERENT) then BMS_DIFFERENT else compare_words a b result
  | a, [] => compare_tail extra1 a result
  | [], b => compare_tail extra2 b result
  end.

Definition bms_subset_compare (a b : Bitmapset) : BMS_Comparison :=
  match a, b with
  | None, None => BMS_EQUAL
  | None, Some _ => if bms_is_empty b then BMS_EQUAL else BMS_SUBSET1
  | Some _, None => if bms_is_empty a then BMS_EQUAL else BMS_SUBSET2
  | Some x, Some y => compare_words x y BMS_EQUAL
  end.

(** [rightmost_one_pos[x]]: sixteen rows that differ in their first entry. *)
Definition rightmost_one_pos : list nat :=
  let row (first : nat) := [first; 0; 1; 0; 2; 0; 1; 0; 3; 0; 1; 0; 2; 0; 1; 0] in
  concat (map row [0; 4; 5; 4; 6; 4; 5; 4; 7; 4; 5; 4; 6; 4; 5; 4]).

(** [while ((w & 255) == 0) { w >>= 8; result += 8; }] and the table. *)
Fixpoint word_first (fuel : nat) (w : bitmapword) (result : nat) : res nat :=
  if (Z.land w 255 =? 0)%Z then
    match fuel with
    | O => Err Fault_fuel
    | S fuel => word_first fuel (Z.shiftr w 8) (result + 8)
    end
  else p ← rd rightmost_one_pos (Z.to_nat (Z.land w 255)); Ok (result + p).

(** The words from [wordnum] on; [-2] when they have no member. *)
Fixpoint next_from (ws : list bitmapword) (wordnum : nat) (mask : bitmapword) : res Z :=
  match ws with
  | [] => Ok (-2)%Z
  | w :: ws =>
      let w := Z.land w mask in
      if negb (w =? 0)%Z then r ← word_first 4 w (wordnum * BITS_PER_BITMAPWORD); Ok (Z.of_nat r)
      else next_from ws (S wordnum) (word_not 0%Z)
  end.

(** [prevbit] must not be below [-1]. *)
Definition bms_next_member (a : Bitmapset) (prevbit : Z) : res Z :=
  match a with
  | None => Ok (-2)%Z
  | Some ws =>
      let p := Z.to_nat (prevbit + 1) in
      let mask := wrap32 (Z.shiftl (word_not 0%Z) (Z.of_nat (BITNUM p))) in
      next_from (drop (WORDNUM p) ws) (WORDNUM p) mask
  end.

(** ** The set a bitmap stands for *)
Definition words_ok (ws : list bitmapword) : Prop := Forall (fun w => 0 ≤ w < 2 ^ 32)%Z ws.
Definition bms_ok (a : Bitmapset) : Prop := match a with None => True | Some ws => words_ok ws end.

Definition wmem (ws : list bitmapword) (x : nat) : bool :=
  match ws !! WORDNUM x with Some w => Z.testbit w (Z.of_nat (BITNUM x)) | None => false end.

Definition mem (a : Bitmapset) (x : nat) : bool := match a with None => false | Some ws => wmem ws x end.

(** [a] is a subset of [b]. *)
Definition subset (a b : Bitmapset) : Prop := ∀ x, mem a x = true → mem b x = true.

(** *** Bits of a word *)
Lemma word_bits_eq (w w' : Z) :
  (0 ≤ w < 2 ^ 32)%Z → (0 ≤ w' < 2 ^ 32)%Z → (∀ b, b < 32 → Z.testbit w (Z.of_nat b) = Z.testbit w' (Z.of_nat b)) → w = w'.
Proof.
  intros Hw Hw' H. apply Z.bits_inj'. intros i Hi. destruct (decide (i < 32)%Z).
  - specialize (H (Z.to_nat i) ltac:(lia)). by rewrite Z2Nat.id in H by lia.
  - rewrite <- (Z.mod_small w (2 ^ 32)), <- (Z.mod_small w' (2 ^ 32)) by done. by rewrite !Z.mod_pow2_bits_high by lia.
Qed.

Lemma word_zero (w : Z) : (0 ≤ w < 2 ^ 32)%Z → (w =? 0)%Z = false → ∃ b, b < 32 ∧ Z.testbit w (Z.of_nat b) = true.
Proof.
  intros Hw Hz. destruct (existsb (fun b => Z.testbit w (Z.of_nat b)) (seq 0 32)) eqn:E.
  - apply existsb_exists in E as (b & Hb & E). apply in_seq in Hb. exists b. split; [lia | done].
  - exfalso. apply Z.eqb_neq in Hz. apply Hz, word_bits_eq; [done | lia|]. intros b Hb. rewrite Z.bits_0.
    apply not_true_iff_false. intros Ht. apply not_true_iff_false in E. apply E, existsb_exists. exists b. split; [apply in_seq; lia | done].
Qed.

Lemma word_zero_bits w b : (w =? 0)%Z = true → Z.testbit w b = false.
Proof. intros ->%Z.eqb_eq. apply Z.bits_0. Qed.

Lemma testbit_wrap32 z b : b < 32 → Z.testbit (wrap32 z) (Z.of_nat b) = Z.testbit z (Z.of_nat b).
Proof. intros Hb. unfold wrap32. rewrite Z.mod_pow2_bits_low; [done | lia]. Qed.

Lemma testbit_word_not w b : b < 32 → Z.testbit (word_not w) (Z.of_nat b) = negb (Z.testbit w (Z.of_nat b)).
Proof. intros Hb. unfold word_not. rewrite testbit_wrap32 by done. apply Z.lnot_spec. lia. Qed.

Lemma land_range a b : (0 ≤ a < 2 ^ 32)%Z → (0 ≤ b)%Z → (0 ≤ Z.land a b < 2 ^ 32)%Z.
Proof.
  intros Ha Hb. split; [apply Z.land_nonneg; lia|]. destruct (decide (Z.land a b = 0)%Z) as [->|Hne]; [lia|].
  apply Z.log2_lt_pow2; [pose proof (proj2 (Z.land_nonneg a b)); lia|].
  pose proof (Z.log2_land a b ltac:(lia) Hb). destruct (decide (a = 0)%Z) as [->|]; [by rewrite Z.land_0_l in Hne|].
  pose proof (proj1 (Z.log2_lt_pow2 a 32 ltac:(lia)) ltac:(lia)). lia.
Qed.

Lemma word_not_nonneg w : (0 ≤ word_not w)%Z.
Proof. apply wrap32_range. Qed.

(** [aword & ~bword] is zero exactly when the bits of [aword] are bits of [bword]. *)
Lemma word_minus a b :
  (0 ≤ a < 2 ^ 32)%Z →
  ((Z.land a (word_not b) =? 0)%Z = true ↔ ∀ i, i < 32 → Z.testbit a (Z.of_nat i) = true → Z.testbit b (Z.of_nat i) = true).
Proof.
  intros Ha. split.
  - intros Hz i Hi Hai. pose proof (word_zero_bits _ (Z.of_nat i) Hz) as Hb. rewrite Z.land_spec, Hai, testbit_word_not in Hb by done.
    by destruct (Z.testbit b _).
  - intros H. destruct (Z.land a (word_not b) =? 0)%Z eqn:E; [done|].
    apply word_zero in E as (i & Hi & Ht); [|by apply land_range, word_not_nonneg].
    rewrite Z.land_spec, testbit_word_not in Ht by done. apply andb_prop in Ht as [H1 H2]. rewrite (H i Hi H1) in H2. done.
Qed.

(** *** Words of a set *)
Lemma word_next x : WORDNUM (x + 32) = S (WORDNUM x) ∧ BITNUM (x + 32) = BITNUM x.
Proof.
  unfold WORDNUM, BITNUM. change BITS_PER_BITMAPWORD with 32. split.
  - replace (x + 32) with (x + 1 * 32) by lia. rewrite Nat.div_add by done. lia.
  - replace (x + 32) with (x + 1 * 32) by lia. by rewrite Nat.Div0.mod_add.
Qed.

Lemma wmem_cons w ws x : wmem (w :: ws) x = if decide (x < 32) then Z.testbit w (Z.of_nat x) else wmem ws (x - 32).
Proof.
  unfold wmem. case_decide as Hx.
  - unfold WORDNUM, BITNUM. change BITS_PER_BITMAPWORD with 32. by rewrite Nat.div_small, Nat.mod_small by done.
  - destruct (word_next (x - 32)) as [E1 E2]. replace (x - 32 + 32) with x in E1, E2 by lia. by rewrite E1, E2.
Qed.

Lemma wmem_nil x : wmem [] x = false.
Proof. done. Qed.

Lemma wmem_app_high w ws x : wmem (w :: ws) (x + 32) = wmem ws x.
Proof. rewrite wmem_cons, decide_False by lia. f_equal. lia. Qed.

Definition wsubset (a b : list bitmapword) : Prop := ∀ x, wmem a x = true → wmem b x = true.

Lemma wsubset_nil b : wsubset [] b.
Proof. intros x. by rewrite wmem_nil. Qed.

Lemma wsubset_cons a b aw bw :
  wsubset (aw :: a) (bw :: b) ↔
  (∀ i, i < 32 → Z.testbit aw (Z.of_nat i) = true → Z.testbit bw (Z.of_nat i) = true) ∧ wsubset a b.
Proof.
  split.
  - intros H. split.
    + intros i Hi Ht. specialize (H i). rewrite !wmem_cons, !decide_True in H by done. auto.
    + intros x Hx. specialize (H (x + 32)). rewrite !wmem_app_high in H. auto.
  - intros [H1 H2] x. rewrite !wmem_cons. case_decide; [by apply H1 | apply H2].
Qed.

Lemma wsubset_zero a : words_ok a → (all_zero a = true ↔ wsubset a []).
Proof.
  intros Ha. induction Ha as [|w a Hw Ha IH]; [by split; [intros _; apply wsubset_nil |]|]. simpl.
  destruct (w =? 0)%Z eqn:Ew; simpl.
  - rewrite IH. split; intros H x.
    + rewrite wmem_cons. case_decide; [by rewrite (word_zero_bits _ _ Ew) | intros Hx; by apply H in Hx].
    + intros Hx. specialize (H (x + 32)). rewrite wmem_app_high in H. by apply H in Hx.
  - split; [done|]. intros H. apply word_zero in Ew as (b & Hb & Ht); [|done]. specialize (H b).
    rewrite wmem_cons, decide_True in H by done. rewrite wmem_nil in H. by apply H in Ht.
Qed.

(** *** Comparing two sets *)

(** Whether [a <= b] and [b <= a] so far. *)
Definition so_far (r : BMS_Comparison) (p q : Prop) : Prop :=
  match r with
  | BMS_EQUAL => p ∧ q
  | BMS_SUBSET1 => p ∧ ¬ q
  | BMS_SUBSET2 => ¬ p ∧ q
  | BMS_DIFFERENT => ¬ p ∧ ¬ q
  end.

Lemma so_far_iff r p q p' q' : (p ↔ p') → (q ↔ q') → so_far r p q → so_far r p' q'.
Proof. destruct r; simpl; naive_solver. Qed.

#[export] Instance so_far_proper : Proper (eq ==> iff ==> iff ==> iff) so_far.
Proof. intros r ? <- p p' Hp q q' Hq. by split; apply so_far_iff. Qed.

Lemma extra1_ok r (p q p' : Prop) : r ≠ BMS_DIFFERENT → so_far r p q → (¬ p') → so_far (extra1 r) (p ∧ p') q.
Proof. unfold extra1. destruct r; simpl; intuition congruence. Qed.

Lemma extra2_ok r (p q q' : Prop) : r ≠ BMS_DIFFERENT → so_far r p q → (¬ q') → so_far (extra2 r) p (q ∧ q').
Proof. unfold extra2. destruct r; simpl; intuition congruence. Qed.

(** [all_zero] of the rest decides the subset question for it. *)
Lemma compare_tail1 l r (p q : Prop) :
  words_ok l → r ≠ BMS_DIFFERENT → so_far r p q → so_far (compare_tail extra1 l r) (p ∧ wsubset l []) q.
Proof.
  intros Hl. revert r p. induction Hl as [|w l Hw Hl IH]; intros r p Hd Hr; simpl.
  { eapply so_far_iff; [| |exact Hr]; [|done]. pose proof (wsubset_nil []). naive_solver. }
  assert (Hw0 : (w =? 0)%Z = true ↔ wsubset [w] []).
  { assert (Hok : words_ok [w]) by (by apply Forall_singleton). pose proof (wsubset_zero [w] Hok) as Hz. simpl in Hz. destruct (w =? 0)%Z; simpl in Hz; naive_solver. }
  assert (Hsplit : wsubset (w :: l) [] ↔ wsubset [w] [] ∧ wsubset l []).
  { assert (Hok : words_ok (w :: l)) by (by constructor). rewrite <- Hw0, <- (wsubset_zero _ Hok), <- (wsubset_zero l Hl). simpl. destruct (w =? 0)%Z; simpl; naive_solver. }
  set (r' := if negb (w =? 0)%Z then extra1 r else r).
  assert (Hr' : so_far r' (p ∧ wsubset [w] []) q).
  { subst r'. destruct (w =? 0)%Z eqn:Ew; simpl.
    - eapply so_far_iff; [| |exact Hr]; naive_solver.
    - apply extra1_ok; [done | done|]. intros H. by apply Hw0 in H. }
  destruct (decide (r' = BMS_DIFFERENT)) as [E|E].
  - rewrite E in Hr'. simpl in *. naive_solver.
  - eapply so_far_iff; [| |apply (IH r' _ E Hr')]; naive_solver.
Qed.

Definition flip (r : BMS_Comparison) : BMS_Comparison :=
  match r with BMS_SUBSET1 => BMS_SUBSET2 | BMS_SUBSET2 => BMS_SUBSET1 | r => r end.

Lemma so_far_flip r p q : so_far r p q ↔ so_far (flip r) q p.
Proof. destruct r; simpl; naive_solver. Qed.

Lemma flip_different r : flip r = BMS_DIFFERENT ↔ r = BMS_DIFFERENT.
Proof. by destruct r. Qed.

Lemma extra_flip r : flip (extra2 r) = extra1 (flip r).
Proof. by destruct r. Qed.

Lemma compare_tail_flip l r : flip (compare_tail extra2 l r) = compare_tail extra1 l (flip r).
Proof.
  revert r. induction l as [|w l IH]; intros r; simpl; [done|]. set (r' := if negb (w =? 0)%Z then extra2 r else r).
  replace (if negb (w =? 0)%Z then extra1 (flip r) else flip r) with (flip r')
    by (subst r'; destruct (negb _); [by rewrite extra_flip | done]).
  destruct (decide (r' = BMS_DIFFERENT)) as [E|E]; rewrite <- flip_different in E; case_decide; try done; apply IH.
Qed.

Lemma compare_tail2 l r (p q : Prop) :
  words_ok l → r ≠ BMS_DIFFERENT → so_far r p q → so_far (compare_tail extra2 l r) p (q ∧ wsubset l []).
Proof.
  intros Hl Hd Hr. apply so_far_flip. rewrite compare_tail_flip. apply compare_tail1; [done | by rewrite flip_different|]. by apply so_far_flip in Hr.
Qed.

Lemma compare_words_ok a b r (p q : Prop) :
  words_ok a → words_ok b → r ≠ BMS_DIFFERENT → so_far r p q → so_far (compare_words a b r) (p ∧ wsubset a b) (q ∧ wsubset b a).
Proof.
  intros Ha. revert b r p q. induction Ha as [|aw a Haw Ha IH]; intros b r p q Hb Hd Hr.
  { pose proof (wsubset_nil b). destruct b as [|bw b]; cbn [compare_words].
    - eapply so_far_iff; [| |exact Hr]; naive_solver.
    - eapply so_far_iff; [| |apply compare_tail2; [exact Hb | exact Hd | exact Hr]]; naive_solver. }
  destruct Hb as [|bw b Hbw Hb].
  { pose proof (wsubset_nil (aw :: a)). cbn [compare_words].
    eapply so_far_iff; [| |apply compare_tail1; [by constructor | exact Hd | exact Hr]]; naive_solver. }
  cbn [compare_words]. rewrite !wsubset_cons.
  pose proof (word_minus aw bw Haw) as W1. pose proof (word_minus bw aw Hbw) as W2.
  set (A := ∀ i, i < 32 → _) in *. set (B := ∀ i, i < 32 → Z.testbit bw _ = true → _) in *.
  set (r1 := if negb (Z.land aw _ =? 0)%Z then extra1 r else r).
  assert (H1 : so_far r1 (p ∧ A) q).
  { subst r1. destruct (Z.land aw _ =? 0)%Z; simpl; [eapply so_far_iff; [| |exact Hr]; naive_solver|].
    apply extra1_ok; [done | done|]. intros HA. by apply W1 in HA. }
  destruct (decide (r1 = BMS_DIFFERENT)) as [E1|E1]; [rewrite E1 in H1; simpl in *; naive_solver|].
  set (r2 := if negb (Z.land bw _ =? 0)%Z then extra2 r1 else r1).
  assert (H2 : so_far r2 (p ∧ A) (q ∧ B)).
  { subst r2. destruct (Z.land bw _ =? 0)%Z; simpl; [eapply so_far_iff; [| |exact H1]; naive_solver|].
    apply extra2_ok; [done | done|]. intros HB. by apply W2 in HB. }
  destruct (decide (r2 = BMS_DIFFERENT)) as [E2|E2]; [rewrite E2 in H2; simpl in *; naive_solver|].
  eapply so_far_iff; [| |apply (IH b r2 _ _ Hb E2 H2)]; naive_solver.
Qed.

Definition set_relation (r : BMS_Comparison) (a b : Bitmapset) : Prop := so_far r (subset a b) (subset b a).

Lemma subset_compare_ok a b : bms_ok a → bms_ok b → set_relation (bms_subset_compare a b) a b.
Proof.
  assert (Hnone : ∀ c, subset None c) by (by intros c x).
  destruct a as [a|], b as [b|]; simpl; intros Ha Hb; unfold set_relation.
  - eapply so_far_iff; [| |apply (compare_words_ok a b BMS_EQUAL True True Ha Hb); [done | by split]]; naive_solver.
  - pose proof (wsubset_zero a Ha) as Hz. assert (E : subset (Some a) None ↔ wsubset a []) by (split; intros H x; apply (H x)).
    destruct (all_zero a); simpl; specialize (Hnone (Some a)); naive_solver.
  - pose proof (wsubset_zero b Hb) as Hz. assert (E : subset (Some b) None ↔ wsubset b []) by (split; intros H x; apply (H x)).
    destruct (all_zero b); simpl; specialize (Hnone (Some b)); naive_solver.
  - split; apply Hnone.
Qed.

(** *** Searching the lowest bit *)
Definition lowest (w : Z) (b : nat) : Prop :=
  Z.testbit w (Z.of_nat b) = true ∧ ∀ i, i < b → Z.testbit w (Z.of_nat i) = false.

Definition lowest_b (x : nat) (p : nat) : bool :=
  Z.testbit (Z.of_nat x) (Z.of_nat p) && forallb (fun i => negb (Z.testbit (Z.of_nat x) (Z.of_nat i))) (seq 0 p).

Lemma table_ok x : 1 ≤ x ≤ 255 → ∃ p, rightmost_one_pos !! x = Some p ∧ p < 8 ∧ lowest (Z.of_nat x) p.
Proof.
  intros Hx. assert (Hall : forallb (fun x => match rightmost_one_pos !! x with
    | Some p => (p <? 8) && lowest_b x p | None => false end) (seq 1 255) = true) by (by vm_compute).
  pose proof (proj1 (forallb_forall _ _) Hall x ltac:(apply in_seq; lia)) as Hrow. cbv beta in Hrow.
  destruct (rightmost_one_pos !! x) as [p|]; [|done]. apply andb_prop in Hrow as [H1 H2]. apply andb_prop in H2 as [H2 H3].
  exists p. apply Nat.ltb_lt in H1. split_and!; [done | done|]. split; [done|]. intros i Hi.
  pose proof (proj1 (forallb_forall _ _) H3 i ltac:(apply in_seq; lia)) as Hb. by apply negb_true_iff in Hb.
Qed.

Lemma land255 w : (Z.land w 255 = w mod 256)%Z.
Proof. change 255%Z with (Z.ones 8). apply Z.land_ones. lia. Qed.

Lemma word_first_ok fuel w r :
  (0 < w < 2 ^ (8 * Z.of_nat (S fuel)))%Z → ∃ b, word_first fuel w r = Ok (r + b) ∧ lowest w b.
Proof.
  revert w r. induction fuel as [|fuel IH]; intros w r Hw; cbn [word_first]; rewrite land255.
  - change (8 * Z.of_nat 1)%Z with 8%Z in Hw. rewrite Z.mod_small by lia. destruct (Z.eqb_spec w 0); [lia|].
    destruct (table_ok (Z.to_nat w)) as (p & Hp & _ & Hl); [lia|]. rewrite Z2Nat.id in Hl by lia.
    rewrite (rd_some _ _ _ Hp). exists p. done.
  - destruct (Z.eqb_spec (w mod 256) 0) as [Hz|Hz].
    + assert (Ew : w = (Z.shiftr w 8 * 2 ^ 8)%Z).
      { rewrite Z.shiftr_div_pow2 by lia. change (2 ^ 8)%Z with 256%Z. pose proof (Z.div_mod w 256). lia. }
      destruct (IH (Z.shiftr w 8) (r + 8)) as (b & -> & Hb & Hlow).
      { rewrite Z.shiftr_div_pow2 by lia. change (2 ^ 8)%Z with 256%Z. split; [apply Z.div_str_pos; pose proof (Z.div_mod w 256); lia|].
        apply Z.div_lt_upper_bound; [lia|]. change 256%Z with (2 ^ 8)%Z. rewrite <- Z.pow_add_r by lia.
        replace (8 + 8 * Z.of_nat (S fuel))%Z with (8 * Z.of_nat (S (S fuel)))%Z by lia. lia. }
      exists (b + 8). split; [f_equal; lia|]. rewrite Ew. split.
      * rewrite Z.mul_pow2_bits by lia. by replace (Z.of_nat (b + 8) - 8)%Z with (Z.of_nat b) by lia.
      * intros i Hi. destruct (decide (i < 8)); [rewrite Z.mul_pow2_bits_low; [done | lia]|].
        rewrite Z.mul_pow2_bits by lia. replace (Z.of_nat i - 8)%Z with (Z.of_nat (i - 8)) by lia. apply Hlow. lia.
    + destruct (table_ok (Z.to_nat (w mod 256))) as (p & Hp & Hp8 & Hb & Hlow); [pose proof (Z.mod_pos_bound w 256); lia|].
      rewrite (rd_some _ _ _ Hp). exists p. split; [done|].
      rewrite Z2Nat.id in Hb, Hlow by (pose proof (Z.mod_pos_bound w 256); lia).
      change 256%Z with (2 ^ 8)%Z in Hb, Hlow. split.
      * rewrite Z.mod_pow2_bits_low in Hb; [done | lia].
      * intros i Hi. specialize (Hlow i Hi). rewrite Z.mod_pow2_bits_low in Hlow; [done | lia].
Qed.

(** *** The next member *)

(** [r] is the least member at [lo] or above, or there is none and [r] is [-2]. *)
Definition least_from (ws : list bitmapword) (lo : nat) (r : Z) : Prop :=
  (r = (-2)%Z ∧ ∀ x, lo ≤ x → wmem ws x = false) ∨
  (∃ x, r = Z.of_nat x ∧ lo ≤ x ∧ wmem ws x = true ∧ ∀ y, lo ≤ y < x → wmem ws y = false).

Lemma mask_bit b i : b < 32 → i < 32 → Z.testbit (wrap32 (Z.shiftl (word_not 0%Z) (Z.of_nat b))) (Z.of_nat i) = bool_decide (b ≤ i).
Proof.
  intros Hb Hi. rewrite testbit_wrap32, Z.shiftl_spec by lia. destruct (decide (b ≤ i)) as [H|H].
  - rewrite bool_decide_true by done. replace (Z.of_nat i - Z.of_nat b)%Z with (Z.of_nat (i - b)) by lia.
    by rewrite testbit_word_not, Z.bits_0 by lia.
  - rewrite bool_decide_false by done. apply Z.testbit_neg_r. lia.
Qed.

Lemma next_from_ok ws k lo :
  words_ok ws → lo < 32 →
  ∃ r, next_from ws k (wrap32 (Z.shiftl (word_not 0%Z) (Z.of_nat lo))) = Ok r ∧
    ((r = (-2)%Z ∧ ∀ x, lo ≤ x → wmem ws x = false) ∨
     ∃ x, r = Z.of_nat (k * 32 + x) ∧ lo ≤ x ∧ wmem ws x = true ∧ ∀ y, lo ≤ y < x → wmem ws y = false).
Proof.
  intros Hws. revert k lo. induction Hws as [|w ws Hw Hws IH]; intros k lo Hlo; cbn [next_from].
  { exists (-2)%Z. split; [done|]. by left. }
  set (mask := wrap32 _). set (w' := Z.land w mask).
  assert (Hbit : ∀ i, i < 32 → Z.testbit w' (Z.of_nat i) = Z.testbit w (Z.of_nat i) && bool_decide (lo ≤ i)).
  { intros i Hi. unfold w', mask. by rewrite Z.land_spec, mask_bit. }
  assert (Hw' : (0 ≤ w' < 2 ^ 32)%Z) by (apply land_range; [done | apply wrap32_range]).
  destruct (w' =? 0)%Z eqn:Ez; cbn [negb].
  - assert (Hnone : ∀ i, lo ≤ i < 32 → Z.testbit w (Z.of_nat i) = false).
    { intros i Hi. pose proof (word_zero_bits _ (Z.of_nat i) Ez) as Hb. rewrite Hbit, bool_decide_true, andb_true_r in Hb by lia. done. }
    replace (word_not 0%Z) with (wrap32 (Z.shiftl (word_not 0%Z) (Z.of_nat 0))) by (by vm_compute).
    destruct (IH (S k) 0 ltac:(lia)) as (r & -> & [[-> Hall]|(x & -> & _ & Hx & Hlow)]); eexists; (split; [done|]).
    + left. split; [done|]. intros x Hx. rewrite wmem_cons. case_decide; [apply Hnone; lia | apply Hall; lia].
    + right. exists (x + 32). split_and!; [f_equal; lia | lia | by rewrite wmem_app_high |].
      intros y Hy. rewrite wmem_cons. case_decide; [apply Hnone; lia | apply Hlow; lia].
  - apply Z.eqb_neq in Ez. destruct (word_first_ok 4 w' (k * BITS_PER_BITMAPWORD)) as (b & -> & Hb & Hlow); [split; [lia|]; change (8 * Z.of_nat 5)%Z with 40%Z; lia|].
    assert (Hb32 : b < 32).
    { destruct (decide (b < 32)); [done|]. rewrite <- (Z.mod_small w' (2 ^ 32)), Z.mod_pow2_bits_high in Hb by lia. done. }
    rewrite Hbit in Hb by done. apply andb_prop in Hb as [Hb Hge%bool_decide_eq_true].
    exists (Z.of_nat (k * 32 + b)). split; [done|]. right. exists b. split_and!; [done | done | by rewrite wmem_cons, decide_True|].
    intros y Hy. rewrite wmem_cons, decide_True by lia. specialize (Hlow y ltac:(lia)).
    rewrite Hbit, bool_decide_true, andb_true_r in Hlow by lia. done.
Qed.

Lemma wmem_drop ws k x : wmem (drop k ws) x = wmem ws (k * 32 + x).
Proof.
  revert ws. induction k as [|k IH]; intros ws; [done|]. destruct ws as [|w ws]; [by rewrite drop_nil|].
  simpl (drop (S k) (w :: ws)). rewrite IH. replace (S k * 32 + x) with (k * 32 + x + 32) by lia. by rewrite wmem_app_high.
Qed.

Lemma next_member_ok ws prev :
  words_ok ws → (-1 ≤ prev)%Z → ∃ r, bms_next_member (Some ws) prev = Ok r ∧ least_from ws (Z.to_nat (prev + 1)) r.
Proof.
  intros Hws Hp. unfold bms_next_member. set (p := Z.to_nat (prev + 1)). cbv zeta.
  assert (Ep : p = WORDNUM p * 32 + BITNUM p) by (unfold WORDNUM, BITNUM, BITS_PER_BITMAPWORD; pose proof (Nat.div_mod_eq p 32); lia).
  assert (Hb : BITNUM p < 32) by (apply Nat.mod_upper_bound; done).
  destruct (next_from_ok (drop (WORDNUM p) ws) (WORDNUM p) (BITNUM p)) as (r & -> & Hr); [by apply Forall_drop | done|].
  exists r. split; [done|]. destruct Hr as [[-> Hall]|(x & -> & Hx & Hm & Hlow)].
  - left. split; [done|]. intros x Hx. specialize (Hall (x - WORDNUM p * 32) ltac:(lia)). rewrite wmem_drop in Hall.
    by replace (WORDNUM p * 32 + (x - WORDNUM p * 32)) with x in Hall by lia.
  - right. exists (WORDNUM p * 32 + x). rewrite wmem_drop in Hm. split_and!; [done | lia | done|].
    intros y Hy. specialize (Hlow (y - WORDNUM p * 32) ltac:(lia)). rewrite wmem_drop in Hlow.
    by replace (WORDNUM p * 32 + (y - WORDNUM p * 32)) with y in Hlow by lia.
Qed.

(** *** Equality *)
Lemma equal_words_ok a b :
  words_ok a → words_ok b → length a ≤ length b → (equal_words a b = true ↔ ∀ x, wmem a x = wmem b x).
Proof.
  intros Ha. revert b. induction Ha as [|aw a Haw Ha IH]; intros b Hb Hl.
  { replace (equal_words [] b) with (all_zero b) by (by destruct b). rewrite (wsubset_zero b Hb). split; intros H x.
    - specialize (H x). rewrite wmem_nil in *. destruct (wmem b x); [by rewrite H | done].
    - rewrite wmem_nil, <- H. by rewrite wmem_nil. }
  destruct Hb as [|bw b Hbw Hb]; [simpl in Hl; lia|]. cbn [equal_words]. destruct (Z.eqb_spec aw bw) as [->|Hne]; cbn [negb].
  - rewrite (IH b Hb ltac:(simpl in Hl; lia)). split; intros H x.
    + rewrite !wmem_cons. by case_decide.
    + specialize (H (x + 32)). by rewrite !wmem_app_high in H.
  - split; [done|]. intros H. exfalso. apply Hne, word_bits_eq; [done | done|]. intros i Hi. specialize (H i).
    by rewrite !wmem_cons, !decide_True in H.
Qed.

Lemma bms_equal_ok a b : bms_ok a → bms_ok b → (bms_equal a b = true ↔ ∀ x, mem a x = mem b x).
Proof.
  assert (Hzero : ∀ ws, words_ok ws → (all_zero ws = true ↔ ∀ x, wmem ws x = false)).
  { intros ws Hws. rewrite (wsubset_zero ws Hws). split; intros H x; specialize (H x); destruct (wmem ws x); naive_solver. }
  destruct a as [a|], b as [b|]; simpl; intros Ha Hb; [|by apply Hzero | rewrite (Hzero b Hb); naive_solver | done].
  destruct (Nat.leb_spec (length a) (length b)).
  - by apply equal_words_ok.
  - rewrite (equal_words_ok b a) by (done || lia). naive_solver.
Qed.

(** *** The members of a set, in order *)
Definition nbits (a : Bitmapset) : nat := match a with None => 0 | Some ws => BITS_PER_BITMAPWORD * length ws end.
Definition members (a : Bitmapset) : list nat := filter (fun x => mem a x = true) (seq 0 (nbits a)).

Lemma wmem_bound ws x : wmem ws x = true → x < BITS_PER_BITMAPWORD * length ws.
Proof.
  revert x. induction ws as [|w ws IH]; intros x; [by rewrite wmem_nil|]. rewrite wmem_cons. unfold BITS_PER_BITMAPWORD in *.
  destruct (decide (x < 32)); simpl; [lia|]. intros Hx%IH. lia.
Qed.

Lemma members_next ws p x n :
  p ≤ x → x < n → wmem ws x = true → (∀ y, p ≤ y < x → wmem ws y = false) →
  filter (fun y => wmem ws y = true) (seq p (n - p)) = x :: filter (fun y => wmem ws y = true) (seq (S x) (n - S x)).
Proof.
  intros Hp Hn Hx Hlow. replace (n - p) with ((x - p) + S (n - S x)) by lia. rewrite seq_app, filter_app.
  replace (p + (x - p)) with x by lia. cbn [seq]. rewrite filter_cons_True by done.
  rewrite (filter_none _ (seq p (x - p))); [done|]. intros y Hy%elem_of_seq. rewrite Hlow by lia. done.
Qed.

Lemma elem_of_members a x : x ∈ members a ↔ mem a x = true.
Proof.
  unfold members. rewrite list_elem_of_filter. split; [by intros [? _]|]. intros Hx. split; [done|]. apply elem_of_seq.
  split; [lia|]. destruct a as [ws|]; [|done]. by apply wmem_bound.
Qed.

Lemma filter_seq_sorted (P : nat → Prop) `{!∀ x, Decision (P x)} a n : StronglySorted lt (filter P (seq a n)).
Proof.
  revert a. induction n as [|n IH]; intros a; [constructor|]. cbn [seq]. rewrite filter_cons. case_decide; [|apply IH].
  constructor; [apply IH|]. apply Forall_forall. intros x [_ Hx%elem_of_seq]%list_elem_of_filter. lia.
Qed.

(** The comparisons of relation sets decide what they are named for, on sets
    of any two lengths and with NULL for the empty set: [bms_subset_compare]
    tells equality, proper inclusion either way or neither, and [bms_equal]
    equality of the members. *)
Theorem bitmapset_compare (a b : Bitmapset) :
  bms_ok a → bms_ok b →
  set_relation (bms_subset_compare a b) a b ∧ (bms_equal a b = true ↔ ∀ x, mem a x = mem b x).
Proof. intros Ha Hb. split; [by apply subset_compare_ok | by apply bms_equal_ok]. Qed.

Lemma bitmapset_compare_witness :
  set_relation (bms_subset_compare (Some [5; 0]%Z) (Some [7]%Z)) (Some [5; 0]%Z) (Some [7]%Z) ∧
  bms_subset_compare (Some [5; 0]%Z) (Some [7]%Z) = BMS_SUBSET1.
Proof.
  split; [|reflexivity]. apply (bitmapset_compare (Some [5; 0]%Z) (Some [7]%Z)); repeat constructor; lia.
Defined.
