(* ===== verification/BitmapOps.v ===== *)
(** * BitmapOps: the set operations of bitmapset.c

    The rest of src/backend/nodes/bitmapset.c: construction, set algebra,
    predicates, counting, destructive iteration and hashing.  The operations that
    recycle an input return the set they leave in it.  The abstract
    specification is the finite set of natural numbers [relids_of]. *)
From S2P Require Import Prelude Float64 HashAny Bitmapset.
From stdpp Require Import strings sorting.

(** ** Operations *)
Definition neg_member : fault := Fault_elog "negative bitmapset member not allowed".

(** [(signedbitmapword) x]. *)
Definition signedbitmapword (w : bitmapword) : Z := if (w <? 2 ^ 31)%Z then w else (w - 2 ^ 32)%Z.

(** [(signedbitmapword) x & -((signedbitmapword) x)] as a word; the negation wraps. *)
Definition RIGHTMOST_ONE (x : bitmapword) : bitmapword :=
  wrap32 (Z.land (signedbitmapword x) (signedbitmapword (wrap32 (- signedbitmapword x)))).

Definition HAS_MULTIPLE_ONES (x : bitmapword) : bool := negb (RIGHTMOST_ONE x =? x)%Z.

(** [number_of_ones[x]]: sixteen rows, each the first one plus a constant. *)
Definition number_of_ones : list nat :=
  let row (k : nat) := map (Nat.add k) [0; 1; 1; 2; 1; 2; 2; 3; 1; 2; 2; 3; 2; 3; 3; 4] in
  concat (map row [0; 1; 1; 2; 1; 2; 2; 3; 1; 2; 2; 3; 2; 3; 3; 4]).

(** [(bitmapword) 1 << bitnum]. *)
Definition bit_of (x : nat) : bitmapword := wrap32 (Z.shiftl 1 (Z.of_nat (BITNUM x))).

Definition bms_copy (a : Bitmapset) : Bitmapset :=
  match a with None => None | Some ws => Some ws end.

Definition bms_make_singleton (x : Z) : res Bitmapset :=
  if (x <? 0)%Z then Err neg_member
  else
    let x := Z.to_nat x in
    ws ← wr (replicate (WORDNUM x + 1) 0%Z) (WORDNUM x) (bit_of x);
    Ok (Some ws).

(** [for (i = 0; i < otherlen; i++) result->words[i] = f(result->words[i], other->words[i])],
    up to the shorter of the two. *)
Fixpoint merge_words (f : bitmapword → bitmapword → bitmapword) (result other : list bitmapword) : list bitmapword :=
  match result, other with
  | r :: result, o :: other => f r o :: merge_words f result other
  | result, _ => result
  end.

Definition word_diff (r o : bitmapword) : bitmapword := Z.land r (word_not o).

Definition bms_union (a b : Bitmapset) : Bitmapset :=
  match a, b with
  | None, b => bms_copy b
  | a, None => bms_copy a
  | Some x, Some y =>
      if length x <=? length y then Some (merge_words Z.lor y x) else Some (merge_words Z.lor x y)
  end.

Definition bms_intersect (a b : Bitmapset) : Bitmapset :=
  match a, b with
  | None, _ | _, None => None
  | Some x, Some y =>
      if length x <=? length y then Some (merge_words Z.land x y) else Some (merge_words Z.land y x)
  end.

Definition bms_difference (a b : Bitmapset) : Bitmapset :=
  match a, b with
  | None, _ => None
  | a, None => bms_copy a
  | Some x, Some y => Some (merge_words word_diff x y)
  end.

(** The common words, then the extra words of [a]. *)
Fixpoint is_subset_words (a b : list bitmapword) : bool :=
  match a, b with
  | aw :: a, bw :: b => if negb (Z.land aw (word_not bw) =? 0)%Z then false else is_subset_words a b
  | a, _ => all_zero a
  end.

Definition bms_is_subset (a b : Bitmapset) : bool :=
  match a, b with
  | None, _ => true
  | a, None => bms_is_empty a
  | Some x, Some y => is_subset_words x y
  end.

(** [wordnum < nwords && (words[wordnum] & (1 << bitnum)) != 0]. *)
Definition test_word (ws : list bitmapword) (x : nat) : bool :=
  match ws !! WORDNUM x with None => false | Some w => negb (Z.land w (bit_of x) =? 0)%Z end.

Definition bms_is_member (x : Z) (a : Bitmapset) : res bool :=
  if (x <? 0)%Z then Err neg_member
  else match a with None => Ok false | Some ws => Ok (test_word ws (Z.to_nat x)) end.

Fixpoint overlap_words (a b : list bitmapword) : bool :=
  match a, b with
  | aw :: a, bw :: b => if negb (Z.land aw bw =? 0)%Z then true else overlap_words a b
  | _, _ => false
  end.

Definition bms_overlap (a b : Bitmapset) : bool :=
  match a, b with Some x, Some y => overlap_words x y | _, _ => false end.

Fixpoint overlap_ints (ws : list bitmapword) (b : list Z) : res bool :=
  match b with
  | [] => Ok false
  | x :: b =>
      if (x <? 0)%Z then Err neg_member
      else if test_word ws (Z.to_nat x) then Ok true else overlap_ints ws b
  end.

Definition bms_overlap_list (a : Bitmapset) (b : list Z) : res bool :=
  match a, b with None, _ => Ok false | _, [] => Ok false | Some ws, b => overlap_ints ws b end.

Fixpoint nonempty_difference_words (a b : list bitmapword) : bool :=
  match a, b with
  | aw :: a, bw :: b => if negb (Z.land aw (word_not bw) =? 0)%Z then true else nonempty_difference_words a b
  | a, _ => negb (all_zero a)
  end.

Definition bms_nonempty_difference (a b : Bitmapset) : bool :=
  match a, b with
  | None, _ => false
  | a, None => negb (bms_is_empty a)
  | Some x, Some y => nonempty_difference_words x y
  end.

(** The loop of the two singleton routines: [None] when the set has several
    members, otherwise [result], [-1] when it has none. *)
Fixpoint singleton_from (ws : list bitmapword) (wordnum : nat) (result : Z) : res (option Z) :=
  match ws with
  | [] => Ok (Some result)
  | w :: ws =>
      if negb (w =? 0)%Z then
        if (0 <=? result)%Z || HAS_MULTIPLE_ONES w then Ok None
        else r ← word_first 4 w (wordnum * BITS_PER_BITMAPWORD); singleton_from ws (S wordnum) (Z.of_nat r)
      else singleton_from ws (S wordnum) result
  end.

Definition bms_singleton_member (a : Bitmapset) : res Z :=
  match a with
  | None => Err (Fault_elog "bitmapset is empty")
  | Some ws =>
      r ← singleton_from ws 0 (-1)%Z;
      match r with
      | None => Err (Fault_elog "bitmapset has multiple members")
      | Some result => if (result <? 0)%Z then Err (Fault_elog "bitmapset is empty") else Ok result
      end
  end.

(** The answer and the new [*member]. *)
Definition bms_get_singleton_member (a : Bitmapset) (member : Z) : res (bool * Z) :=
  match a with
  | None => Ok (false, member)
  | Some ws =>
      r ← singleton_from ws 0 (-1)%Z;
      match r with
      | None => Ok (false, member)
      | Some result => if (result <? 0)%Z then Ok (false, member) else Ok (true, result)
      end
  end.

(** [while (w != 0) { result += number_of_ones[w & 255]; w >>= 8; }] *)
Fixpoint count_word (fuel : nat) (w : bitmapword) (result : nat) : res nat :=
  if (w =? 0)%Z then Ok result
  else match fuel with
       | O => Err Fault_fuel
       | S fuel =>
           k ← rd number_of_ones (Z.to_nat (Z.land w 255));
           count_word fuel (Z.shiftr w 8) (result + k)
       end.

Definition bms_num_members (a : Bitmapset) : res nat :=
  match a with None => Ok 0 | Some ws => foreach ws (fun w result => count_word 4 w result) 0 end.

Inductive BMS_Membership : Type := BMS_EMPTY_SET | BMS_SINGLETON | BMS_MULTIPLE.

#[export] Instance BMS_Membership_eqdec : EqDecision BMS_Membership.
Proof. solve_decision. Defined.

Fixpoint membership_words (ws : list bitmapword) (result : BMS_Membership) : BMS_Membership :=
  match ws with
  | [] => result
  | w :: ws =>
      if negb (w =? 0)%Z then
        if bool_decide (result ≠ BMS_EMPTY_SET) || HAS_MULTIPLE_ONES w then BMS_MULTIPLE
        else membership_words ws BMS_SINGLETON
      else membership_words ws result
  end.

Definition bms_membership (a : Bitmapset) : BMS_Membership :=
  match a with None => BMS_EMPTY_SET | Some ws => membership_words ws BMS_EMPTY_SET end.

Definition bms_add_member (a : Bitmapset) (x : Z) : res Bitmapset :=
  if (x <? 0)%Z then Err neg_member
  else match a with
       | None => bms_make_singleton x
       | Some ws =>
           let x := Z.to_nat x in
           let ws := if length ws <=? WORDNUM x then ws ++ replicate (WORDNUM x + 1 - length ws) 0%Z else ws in
           w ← rd ws (WORDNUM x);
           ws ← wr ws (WORDNUM x) (Z.lor w (bit_of x));
           Ok (Some ws)
       end.

Definition bms_del_member (a : Bitmapset) (x : Z) : res Bitmapset :=
  if (x <? 0)%Z then Err neg_member
  else match a with
       | None => Ok None
       | Some ws =>
           let x := Z.to_nat x in
           if WORDNUM x <? length ws then
             w ← rd ws (WORDNUM x);
             ws ← wr ws (WORDNUM x) (Z.land w (word_not (bit_of x)));
             Ok (Some ws)
           else Ok (Some ws)
       end.

Definition bms_add_members (a b : Bitmapset) : Bitmapset :=
  match a, b with
  | None, b => bms_copy b
  | a, None => a
  | Some x, Some y =>
      if length x <? length y then Some (merge_words Z.lor y x) else Some (merge_words Z.lor x y)
  end.

(** The common words, then zeroes. *)
Fixpoint int_words (a b : list bitmapword) : list bitmapword :=
  match a, b with
  | aw :: a, bw :: b => Z.land aw bw :: int_words a b
  | a, _ => map (fun _ => 0%Z) a
  end.

Definition bms_int_members (a b : Bitmapset) : Bitmapset :=
  match a, b with
  | None, _ => None
  | _, None => None
  | Some x, Some y => Some (int_words x y)
  end.

Definition bms_del_members (a b : Bitmapset) : Bitmapset :=
  match a, b with
  | None, _ => None
  | a, None => a
  | Some x, Some y => Some (merge_words word_diff x y)
  end.

Definition bms_join (a b : Bitmapset) : Bitmapset :=
  match a, b with
  | None, b => b
  | a, None => a
  | Some x, Some y =>
      if length x <? length y then Some (merge_words Z.lor y x) else Some (merge_words Z.lor x y)
  end.

(** The member found and the words left. *)
Fixpoint first_from (ws : list bitmapword) (wordnum : nat) : res (Z * list bitmapword) :=
  match ws with
  | [] => Ok ((-1)%Z, [])
  | w :: ws =>
      if negb (w =? 0)%Z then
        let w1 := RIGHTMOST_ONE w in
        r ← word_first 4 w1 (wordnum * BITS_PER_BITMAPWORD);
        Ok (Z.of_nat r, Z.land w (word_not w1) :: ws)
      else '(r, ws) ← first_from ws (S wordnum); Ok (r, w :: ws)
  end.

Definition bms_first_member (a : Bitmapset) : res (Z * Bitmapset) :=
  match a with
  | None => Ok ((-1)%Z, None)
  | Some ws => '(r, ws) ← first_from ws 0; Ok (r, Some ws)
  end.

(** [for (lastword = nwords; --lastword >= 0;) if (words[lastword] != 0) break;]:
    one more than the last word that is not zero. *)
Fixpoint used_words (ws : list bitmapword) (n : nat) : res nat :=
  match n with
  | O => Ok 0
  | S lastword => w ← rd ws lastword; if negb (w =? 0)%Z then Ok (S lastword) else used_words ws lastword
  end.

(** The bytes of a word in memory, little-endian. *)
Definition word_bytes (w : bitmapword) : list Z :=
  [Z.land w 255; Z.land (Z.shiftr w 8) 255; Z.land (Z.shiftr w 16) 255; Z.land (Z.shiftr w 24) 255].

(** The words are word-aligned. *)
Definition bms_hash_value (a : Bitmapset) : res Z :=
  match a with
  | None => Ok 0%Z
  | Some ws =>
      n ← used_words ws (length ws);
      if n =? 0 then Ok 0%Z else Ok (hash_any true (concat (map word_bytes (take n ws))))
  end.

(** ** The set a bitmap stands for *)
Definition relids_of (a : Bitmapset) : gset nat := list_to_set (members a).

Lemma elem_of_relids a x : x ∈ relids_of a ↔ mem a x = true.
Proof. unfold relids_of. rewrite elem_of_list_to_set. apply elem_of_members. Qed.

Lemma relids_ext a (X : gset nat) : (∀ x, mem a x = true ↔ x ∈ X) → relids_of a = X.
Proof. intros H. apply set_eq. intros x. by rewrite elem_of_relids. Qed.

Lemma relids_none : relids_of None = ∅.
Proof. done. Qed.

Lemma members_nodup a : NoDup (members a).
Proof. apply NoDup_filter, NoDup_seq. Qed.

Lemma relids_size a : size (relids_of a) = length (members a).
Proof. apply size_list_to_set, members_nodup. Qed.

(** *** Words *)
Definition word_ok (w : Z) : Prop := (0 ≤ w < 2 ^ 32)%Z.

Lemma word_range w : word_ok w ↔ (0 ≤ w)%Z ∧ ∀ i, (32 ≤ i)%Z → Z.testbit w i = false.
Proof.
  unfold word_ok. split.
  - intros Hw. split; [lia|]. intros i Hi. rewrite <- (Z.mod_small w (2 ^ 32)) by done. apply Z.mod_pow2_bits_high. lia.
  - intros [H0 H]. split; [done|]. destruct (decide (w < 2 ^ 32)%Z) as [|Hge]; [done|]. exfalso.
    assert (Hlog : (32 ≤ Z.log2 w)%Z) by (apply Z.log2_le_pow2; lia).
    pose proof (Z.bit_log2 w ltac:(lia)) as Hb. by rewrite H in Hb.
Qed.

Lemma lor_ok a b : word_ok a → word_ok b → word_ok (Z.lor a b).
Proof.
  rewrite !word_range. intros [Ha0 Ha] [Hb0 Hb]. split; [by apply Z.lor_nonneg|]. intros i Hi. by rewrite Z.lor_spec, Ha, Hb.
Qed.

Lemma land_ok a b : word_ok a → word_ok b → word_ok (Z.land a b).
Proof. intros Ha [Hb _]. by apply land_range. Qed.

Lemma word_not_ok w : word_ok (word_not w).
Proof. apply wrap32_range. Qed.

Lemma word_diff_ok a b : word_ok a → word_ok b → word_ok (word_diff a b).
Proof. intros Ha _. by apply land_ok, word_not_ok. Qed.

Lemma bit_of_ok x : word_ok (bit_of x).
Proof. apply wrap32_range. Qed.

Lemma bitnum_lt x : BITNUM x < 32.
Proof. by apply Nat.mod_upper_bound. Qed.

Lemma bit_of_bit x i : i < 32 → Z.testbit (bit_of x) (Z.of_nat i) = bool_decide (i = BITNUM x).
Proof.
  intros Hi. unfold bit_of. rewrite testbit_wrap32, Z.shiftl_spec by lia. case_bool_decide as E.
  - by replace (Z.of_nat i - Z.of_nat (BITNUM x))%Z with 0%Z by lia.
  - destruct (decide (i < BITNUM x)); [apply Z.testbit_neg_r; lia|].
    replace (Z.of_nat i - Z.of_nat (BITNUM x))%Z with (Z.succ (Z.of_nat (i - BITNUM x - 1))) by lia.
    change 1%Z with (2 * 0 + 1)%Z. rewrite Z.testbit_odd_succ by lia. apply Z.bits_0.
Qed.

(** The position of a member in its word and back. *)
Lemma same_position x y : WORDNUM x = WORDNUM y → BITNUM x = BITNUM y → x = y.
Proof.
  unfold WORDNUM, BITNUM, BITS_PER_BITMAPWORD. intros. pose proof (Nat.div_mod_eq x 32). pose proof (Nat.div_mod_eq y 32). lia.
Qed.

Lemma test_word_ok ws x : words_ok ws → test_word ws x = wmem ws x.
Proof.
  intros Hws. unfold test_word, wmem. destruct (ws !! WORDNUM x) as [w|] eqn:E; [|done].
  pose proof (Forall_lookup_1 _ _ _ _ Hws E) as Hw. pose proof (bitnum_lt x) as Hb.
  destruct (Z.land w (bit_of x) =? 0)%Z eqn:Ez; cbn [negb].
  - pose proof (word_zero_bits _ (Z.of_nat (BITNUM x)) Ez) as Ht.
    rewrite Z.land_spec, bit_of_bit, bool_decide_true, andb_true_r in Ht by done. done.
  - apply word_zero in Ez as (i & Hi & Ht); [|by apply land_ok, bit_of_ok].
    rewrite Z.land_spec, bit_of_bit in Ht by done. apply andb_prop in Ht as [Ht ->%bool_decide_eq_true]. done.
Qed.

(** *** Word-by-word operations *)
Lemma merge_words_ok f r o :
  (∀ a b, word_ok a → word_ok b → word_ok (f a b)) → words_ok r → words_ok o → words_ok (merge_words f r o).
Proof.
  intros Hf Hr. revert o. induction Hr as [|w r Hw Hr IH]; intros o Ho; [destruct o; constructor|].
  destruct Ho as [|v o Hv Ho]; simpl; [by constructor|]. constructor; [by apply Hf | by apply IH].
Qed.

Lemma wmem_merge f g r o x :
  (∀ a b i, i < 32 → Z.testbit (f a b) (Z.of_nat i) = g (Z.testbit a (Z.of_nat i)) (Z.testbit b (Z.of_nat i))) →
  (x < 32 * length o → wmem (merge_words f r o) x = if decide (x < 32 * length r) then g (wmem r x) (wmem o x) else false) ∧
  (¬ x < 32 * length o → wmem (merge_words f r o) x = wmem r x).
Proof.
  intros Hf. revert o x. induction r as [|w r IH]; intros o x.
  { replace (merge_words f [] o) with (@nil bitmapword) by (by destruct o). rewrite wmem_nil. split; [|done].
    intros _. by rewrite decide_False by (simpl; lia). }
  destruct o as [|v o]; cbn [merge_words]; [split; simpl; [lia | done]|]. rewrite !wmem_cons. cbn [length].
  destruct (decide (x < 32)) as [Hx|Hx].
  - split; [|lia]. intros _. rewrite decide_True by lia. by apply Hf.
  - destruct (IH o (x - 32)) as [IH1 IH2]. split; intros H.
    + rewrite IH1 by lia. by destruct (decide (x - 32 < 32 * length r)), (decide (x < 32 * S (length r))); try lia.
    + apply IH2. lia.
Qed.

Lemma wmem_high ws x : ¬ x < 32 * length ws → wmem ws x = false.
Proof. intros H. apply not_true_iff_false. intros Hm%wmem_bound. unfold BITS_PER_BITMAPWORD in Hm. lia. Qed.

Lemma wmem_or r o x : length o ≤ length r → wmem (merge_words Z.lor r o) x = wmem r x || wmem o x.
Proof.
  intros Hl. destruct (wmem_merge Z.lor orb r o x) as [H1 H2]; [intros; apply Z.lor_spec|].
  destruct (decide (x < 32 * length o)) as [Hx|Hx].
  - rewrite H1 by done. rewrite decide_True by lia. done.
  - rewrite H2, (wmem_high o), orb_false_r by done. done.
Qed.

Lemma wmem_and r o x : length r ≤ length o → wmem (merge_words Z.land r o) x = wmem r x && wmem o x.
Proof.
  intros Hl. destruct (wmem_merge Z.land andb r o x) as [H1 H2]; [intros; apply Z.land_spec|].
  destruct (decide (x < 32 * length o)) as [Hx|Hx].
  - rewrite H1 by done. case_decide as Hr; [done|]. by rewrite (wmem_high r).
  - rewrite H2 by done. by rewrite (wmem_high r) by lia.
Qed.

Lemma wmem_diff r o x : wmem (merge_words word_diff r o) x = wmem r x && negb (wmem o x).
Proof.
  destruct (wmem_merge word_diff (fun p q => p && negb q) r o x) as [H1 H2].
  { intros. unfold word_diff. by rewrite Z.land_spec, testbit_word_not. }
  destruct (decide (x < 32 * length o)) as [Hx|Hx].
  - rewrite H1 by done. case_decide as Hr; [done|]. by rewrite (wmem_high r).
  - rewrite H2 by done. by rewrite (wmem_high o), andb_true_r.
Qed.

Lemma int_words_ok a b : words_ok a → words_ok b → words_ok (int_words a b).
Proof.
  intros Ha. revert b. assert (Hz : ∀ l : list bitmapword, words_ok (map (fun _ => 0%Z) l)).
  { intros l. unfold words_ok. rewrite Forall_map. apply Forall_true. intros. simpl. lia. }
  induction Ha as [|w a Hw Ha IH]; intros b Hb; [destruct b; constructor|]. destruct Hb; [apply (Hz (w :: a))|].
  constructor; [by apply land_ok | by apply IH].
Qed.

Lemma wmem_zeroes (l : list bitmapword) x : wmem (map (fun _ => 0%Z) l) x = false.
Proof.
  unfold wmem. change (map ?f l) with (f <$> l). rewrite list_lookup_fmap. destruct (l !! _); [apply Z.bits_0 | done].
Qed.

Lemma wmem_int a b x : wmem (int_words a b) x = wmem a x && wmem b x.
Proof.
  revert b x. induction a as [|w a IH]; intros b x; [by destruct b|]. destruct b as [|v b]; cbn [int_words].
  - by rewrite wmem_zeroes, wmem_nil, andb_false_r.
  - rewrite !wmem_cons. case_decide; [apply Z.land_spec | apply IH].
Qed.

(** *** Predicates on two sets *)
Lemma is_subset_words_ok a b : words_ok a → words_ok b → (is_subset_words a b = true ↔ wsubset a b).
Proof.
  intros Ha. revert b. induction Ha as [|w a Hw Ha IH]; intros b Hb.
  { replace (is_subset_words [] b) with true by (by destruct b). by split; [intros _; apply wsubset_nil|]. }
  destruct Hb as [|v b Hv Hb]; cbn [is_subset_words]; [by apply wsubset_zero; constructor|].
  rewrite wsubset_cons, <- word_minus, <- IH by done. destruct (Z.land w (word_not v) =? 0)%Z; simpl; naive_solver.
Qed.

Lemma nonempty_difference_negb a b : nonempty_difference_words a b = negb (is_subset_words a b).
Proof.
  revert b. induction a as [|w a IH]; intros b; [by destruct b|]. destruct b as [|v b]; [done|]. cbn.
  destruct (Z.land w (word_not v) =? 0)%Z; simpl; [apply IH | done].
Qed.

Lemma overlap_words_ok a b :
  words_ok a → words_ok b → (overlap_words a b = true ↔ ∃ x, wmem a x = true ∧ wmem b x = true).
Proof.
  intros Ha. revert b. induction Ha as [|w a Hw Ha IH]; intros b Hb.
  { replace (overlap_words [] b) with false by (by destruct b). split; [done|]. intros (x & H & _). by rewrite wmem_nil in H. }
  destruct Hb as [|v b Hv Hb]; cbn [overlap_words]; [split; [done|]; intros (x & _ & H); by rewrite wmem_nil in H|].
  destruct (Z.land w v =? 0)%Z eqn:E; cbn [negb].
  - rewrite IH by done. split; intros (x & H1 & H2); [exists (x + 32); by rewrite !wmem_app_high|].
    rewrite !wmem_cons in H1, H2. case_decide; [|by exists (x - 32)].
    pose proof (word_zero_bits _ (Z.of_nat x) E) as Hz. by rewrite Z.land_spec, H1, H2 in Hz.
  - split; [intros _|done]. apply word_zero in E as (i & Hi & Ht); [|by apply land_ok].
    rewrite Z.land_spec in Ht. apply andb_prop in Ht as [H1 H2]. exists i. by rewrite !wmem_cons, !decide_True.
Qed.

(** *** The lowest bit *)
Lemma signed_bit w i : i < 32 → Z.testbit (signedbitmapword w) (Z.of_nat i) = Z.testbit w (Z.of_nat i).
Proof.
  intros Hi. unfold signedbitmapword. destruct (w <? 2 ^ 31)%Z; [done|]. rewrite <- (testbit_wrap32 (w - 2 ^ 32)), <- (testbit_wrap32 w) by done.
  f_equal. unfold wrap32. replace (w - 2 ^ 32)%Z with (w + (-1) * 2 ^ 32)%Z by lia. apply Z_mod_plus_full.
Qed.

Lemma wrap32_neg_signed w : wrap32 (- signedbitmapword w) = wrap32 (- w).
Proof.
  unfold signedbitmapword. destruct (w <? 2 ^ 31)%Z; [done|]. unfold wrap32.
  replace (- (w - 2 ^ 32))%Z with (- w + 1 * 2 ^ 32)%Z by lia. apply Z_mod_plus_full.
Qed.

Lemma RIGHTMOST_ONE_land w : RIGHTMOST_ONE w = wrap32 (Z.land w (- w)).
Proof.
  apply word_bits_eq; try apply wrap32_range. intros i Hi. unfold RIGHTMOST_ONE.
  rewrite !testbit_wrap32, !Z.land_spec, !signed_bit, wrap32_neg_signed, testbit_wrap32 by done. done.
Qed.

Lemma land_neg_odd k : Z.land (2 * k + 1) (- (2 * k + 1)) = 1%Z.
Proof.
  replace (- (2 * k + 1))%Z with (2 * Z.lnot k + 1)%Z by (unfold Z.lnot; lia). apply Z.bits_inj'. intros i Hi. rewrite Z.land_spec.
  destruct (decide (i = 0)%Z) as [->|Hne]; [by rewrite !Z.testbit_odd_0|].
  replace i with (Z.succ (Z.pred i)) by lia. rewrite !Z.testbit_odd_succ, Z.lnot_spec, andb_negb_r by lia.
  change 1%Z with (2 * 0 + 1)%Z. by rewrite Z.testbit_odd_succ, Z.bits_0 by lia.
Qed.

Lemma lowest_factor w b : lowest w b → ∃ k, w = ((2 * k + 1) * 2 ^ Z.of_nat b)%Z.
Proof.
  intros [Hb Hlow]. exists (w / 2 ^ Z.of_nat (S b))%Z. apply Z.bits_inj'. intros i Hi.
  destruct (decide (i < Z.of_nat b)%Z) as [Hlt|Hge].
  - rewrite Z.mul_pow2_bits_low by done. specialize (Hlow (Z.to_nat i) ltac:(lia)). by rewrite Z2Nat.id in Hlow.
  - rewrite Z.mul_pow2_bits by lia. destruct (decide (i = Z.of_nat b)) as [->|Hne].
    + by rewrite Z.sub_diag, Z.testbit_odd_0.
    + replace (i - Z.of_nat b)%Z with (Z.succ (i - Z.of_nat (S b))) by lia. rewrite Z.testbit_odd_succ by lia.
      rewrite Z.div_pow2_bits by lia. f_equal. lia.
Qed.

Lemma lowest_lt w b : word_ok w → lowest w b → b < 32.
Proof. intros [_ Hw]%word_range [Hb _]. destruct (decide (b < 32)); [done|]. by rewrite Hw in Hb by lia. Qed.

Lemma RIGHTMOST_ONE_ok w b : word_ok w → lowest w b → RIGHTMOST_ONE w = (2 ^ Z.of_nat b)%Z.
Proof.
  intros Hw Hb. rewrite RIGHTMOST_ONE_land. pose proof (lowest_lt _ _ Hw Hb).
  destruct (lowest_factor _ _ Hb) as [k ->]. rewrite <- Z.mul_opp_l, <- !Z.shiftl_mul_pow2 by lia.
  rewrite <- Z.shiftl_land, land_neg_odd, Z.shiftl_1_l. unfold wrap32. apply Z.mod_small. split; [lia|]. apply Z.pow_lt_mono_r; lia.
Qed.

Lemma pow2_bit b i : Z.testbit (2 ^ Z.of_nat b) (Z.of_nat i) = bool_decide (i = b).
Proof. rewrite Z.pow2_bits_eqb by lia. case_bool_decide; [apply Z.eqb_eq; lia | apply Z.eqb_neq; lia]. Qed.

Lemma lowest_exists w : word_ok w → (w =? 0)%Z = false → ∃ b, lowest w b ∧ ∀ r, word_first 4 w r = Ok (r + b).
Proof.
  intros Hw Hz%Z.eqb_neq. assert (Hr : (0 < w < 2 ^ (8 * Z.of_nat 5))%Z) by (unfold word_ok in Hw; split; [lia|]; change (8 * Z.of_nat 5)%Z with 40%Z; lia).
  destruct (word_first_ok 4 w 0 Hr) as (b & _ & Hb). exists b. split; [done|]. intros r.
  destruct (word_first_ok 4 w r Hr) as (b' & -> & Hb'). f_equal. f_equal.
  destruct Hb as [H1 H2], Hb' as [H3 H4]. destruct (Nat.lt_trichotomy b b') as [?|[?|?]]; [|done|].
  - by rewrite H4 in H1.
  - by rewrite H2 in H3.
Qed.

(** *** The members, word by word *)
Definition bits_upto (n : nat) (w : Z) : list nat := filter (fun i => Z.testbit w (Z.of_nat i) = true) (seq 0 n).
Notation wbits := (bits_upto 32).

Lemma filter_seq_ext (P Q : nat → Prop) `{!∀ x, Decision (P x)} `{!∀ x, Decision (Q x)} a n :
  (∀ i, a ≤ i < a + n → P i ↔ Q i) → filter P (seq a n) = filter Q (seq a n).
Proof.
  revert a. induction n as [|n IH]; intros a Hiff; [done|]. cbn [seq]. rewrite !filter_cons, IH by (intros; apply Hiff; lia).
  pose proof (Hiff a ltac:(lia)). destruct (decide (P a)), (decide (Q a)); naive_solver.
Qed.

Lemma filter_shift (P Q : nat → Prop) `{!∀ x, Decision (P x)} `{!∀ x, Decision (Q x)} k n :
  (∀ i, P (k + i) ↔ Q i) → filter P (seq k n) = Nat.add k <$> filter Q (seq 0 n).
Proof.
  intros Hiff. replace (seq k n) with (Nat.add k <$> seq 0 n) by (rewrite fmap_add_seq; f_equal; lia).
  induction (seq 0 n) as [|i l IH]; [done|]. rewrite fmap_cons, !filter_cons, IH.
  destruct (decide (P (k + i))), (decide (Q i)); naive_solver.
Qed.

Lemma members_cons w ws : members (Some (w :: ws)) = wbits w ++ (Nat.add 32 <$> members (Some ws)).
Proof.
  unfold members, nbits, BITS_PER_BITMAPWORD. replace (32 * length (w :: ws)) with (32 + 32 * length ws) by (simpl; lia).
  rewrite seq_app, filter_app. apply (f_equal2 app).
  - apply filter_seq_ext. intros i Hi. unfold mem. by rewrite wmem_cons, decide_True by lia.
  - apply filter_shift. intros i. unfold mem. rewrite wmem_cons, decide_False by lia. by replace (32 + i - 32) with i by lia.
Qed.

Lemma members_nil : members (Some []) = [].
Proof. done. Qed.

Lemma wbits_zero w : (w =? 0)%Z = true → wbits w = [].
Proof. by intros ->%Z.eqb_eq. Qed.

(** A word is its lowest bit and the bits left when that one is cleared. *)
Lemma wbits_lowest w b : word_ok w → lowest w b → wbits w = b :: wbits (word_diff w (2 ^ Z.of_nat b)%Z).
Proof.
  intros Hw Hb. pose proof (lowest_lt _ _ Hw Hb) as Hlt. destruct Hb as [Hb Hlow].
  assert (Hbit : ∀ i, i < 32 → Z.testbit (word_diff w (2 ^ Z.of_nat b)%Z) (Z.of_nat i) = Z.testbit w (Z.of_nat i) && negb (bool_decide (i = b))).
  { intros i Hi. unfold word_diff. by rewrite Z.land_spec, testbit_word_not, pow2_bit. }
  unfold bits_upto. replace 32 with (b + S (31 - b)) by lia. rewrite seq_app, !filter_app. cbn [seq Nat.add].
  rewrite filter_cons_True by done. rewrite filter_cons_False.
  2: { rewrite Hbit by done. by rewrite bool_decide_true, andb_false_r. }
  rewrite !(filter_none _ (seq 0 b)).
  - simpl. f_equal. apply filter_seq_ext. intros i Hi. rewrite Hbit, bool_decide_false, andb_true_r by lia. done.
  - intros i Hi%elem_of_seq. rewrite Hbit, Hlow by lia. done.
  - intros i Hi%elem_of_seq. rewrite Hlow by lia. done.
Qed.

Lemma wbits_nonempty w : word_ok w → (w =? 0)%Z = false → wbits w ≠ [].
Proof. intros Hw Hz. destruct (lowest_exists w Hw Hz) as (b & Hb & _). by rewrite (wbits_lowest w b). Qed.

(** The word tells whether it has one bit or more. *)
Lemma wbits_multiple w b :
  word_ok w → lowest w b →
  if HAS_MULTIPLE_ONES w then ∃ c l, wbits w = b :: c :: l else wbits w = [b].
Proof.
  intros Hw Hb. rewrite (wbits_lowest w b Hw Hb). unfold HAS_MULTIPLE_ONES. rewrite (RIGHTMOST_ONE_ok w b Hw Hb).
  destruct (Z.eqb_spec (2 ^ Z.of_nat b) w) as [<-|Hne]; cbn [negb].
  - f_equal. apply wbits_zero, Z.eqb_eq. apply word_bits_eq; [by apply word_diff_ok|lia|]. intros i Hi.
    unfold word_diff. rewrite Z.land_spec, testbit_word_not, andb_negb_r, Z.bits_0 by done. done.
  - assert (Hok : word_ok (2 ^ Z.of_nat b)%Z).
    { pose proof (lowest_lt _ _ Hw Hb). split; [lia|]. apply Z.pow_lt_mono_r; lia. }
    destruct (word_diff w (2 ^ Z.of_nat b)%Z =? 0)%Z eqn:Ez.
    + exfalso. apply Hne, word_bits_eq; [done | done|]. intros i Hi. pose proof (word_zero_bits _ (Z.of_nat i) Ez) as Hz.
      unfold word_diff in Hz. rewrite Z.land_spec, testbit_word_not, pow2_bit in Hz by done. rewrite pow2_bit.
      case_bool_decide as E; [by rewrite E, (proj1 Hb)|]. by rewrite andb_true_r in Hz.
    + apply wbits_nonempty in Ez; [|by apply word_diff_ok]. destruct (wbits (word_diff _ _)) as [|c l]; [done|]. by exists c, l.
Qed.

(** What one pass over a set tells of the number of its members. *)
Definition sole (l : list nat) : option (option nat) :=
  match l with [] => Some None | [x] => Some (Some x) | _ => None end.

Lemma singleton_from_found ws k r :
  words_ok ws → (0 ≤ r)%Z →
  singleton_from ws k r = Ok (match members (Some ws) with [] => Some r | _ => None end).
Proof.
  intros Hws Hr. revert k. induction Hws as [|w ws Hw Hws IH]; intros k; [done|]. cbn [singleton_from]. rewrite members_cons.
  destruct (w =? 0)%Z eqn:Ez; cbn [negb].
  - rewrite IH, (wbits_zero w Ez). by destruct (members (Some ws)).
  - rewrite (proj2 (Z.leb_le 0 r)) by done. cbn [orb]. apply wbits_nonempty in Ez; [|done]. by destruct (wbits w).
Qed.

Lemma singleton_from_ok ws k :
  words_ok ws →
  singleton_from ws k (-1)%Z =
    Ok (match sole (members (Some ws)) with
        | None => None | Some None => Some (-1)%Z | Some (Some x) => Some (Z.of_nat (k * 32 + x)) end).
Proof.
  intros Hws. revert k. induction Hws as [|w ws Hw Hws IH]; intros k; [done|]. cbn [singleton_from]. rewrite members_cons.
  destruct (w =? 0)%Z eqn:Ez; cbn [negb].
  - rewrite IH, (wbits_zero w Ez). destruct (members (Some ws)) as [|x [|y l]]; simpl; [done | | done]. do 3 f_equal. lia.
  - destruct (lowest_exists w Hw Ez) as (b & Hb & Hf). pose proof (wbits_multiple w b Hw Hb) as Hm. cbn [Z.leb orb Z.compare].
    destruct (HAS_MULTIPLE_ONES w); [by destruct Hm as (c & l & ->)|]. rewrite Hm, Hf. cbn [mbind res_bind].
    rewrite singleton_from_found by (done || lia). destruct (members (Some ws)); [done | done].
Qed.

Lemma membership_words_ok ws result :
  words_ok ws → result ≠ BMS_MULTIPLE →
  membership_words ws result =
    match sole (members (Some ws)), result with
    | Some None, result => result
    | Some (Some _), BMS_EMPTY_SET => BMS_SINGLETON
    | _, _ => BMS_MULTIPLE
    end.
Proof.
  intros Hws. revert result. induction Hws as [|w ws Hw Hws IH]; intros result Hr; [done|]. cbn [membership_words]. rewrite members_cons.
  destruct (w =? 0)%Z eqn:Ez; cbn [negb].
  - rewrite IH, (wbits_zero w Ez) by done. by destruct (members (Some ws)) as [|x [|y l]].
  - destruct (lowest_exists w Hw Ez) as (b & Hb & _). pose proof (wbits_multiple w b Hw Hb) as Hm.
    destruct (HAS_MULTIPLE_ONES w); [rewrite orb_true_r; by destruct Hm as (c & l & ->)|]. rewrite Hm, orb_false_r.
    destruct result; [|rewrite bool_decide_true by done; by destruct (members (Some ws)) | done].
    rewrite bool_decide_false by (intros H; by apply H). rewrite IH by done. by destruct (members (Some ws)) as [|x [|y l]].
Qed.

(** *** Counting *)
Lemma ones_table x : x < 256 → number_of_ones !! x = Some (length (bits_upto 8 (Z.of_nat x))).
Proof.
  intros Hx. assert (Hall : forallb (fun x => bool_decide (number_of_ones !! x = Some (length (bits_upto 8 (Z.of_nat x))))) (seq 0 256) = true)
    by (by vm_compute).
  pose proof (proj1 (forallb_forall _ _) Hall x ltac:(apply in_seq; lia)) as H. by apply bool_decide_eq_true in H.
Qed.

Lemma bits_split n w : (0 ≤ w)%Z → length (bits_upto (8 + n) w) = length (bits_upto 8 (w mod 256)) + length (bits_upto n (Z.shiftr w 8)).
Proof.
  intros Hw. unfold bits_upto at 1. rewrite seq_app, filter_app, length_app. apply (f_equal2 Nat.add).
  - apply (f_equal length),  filter_seq_ext. intros i Hi. change 256%Z with (2 ^ 8)%Z. by rewrite Z.mod_pow2_bits_low by lia.
  - rewrite (filter_shift _ (fun i => Z.testbit (Z.shiftr w 8) (Z.of_nat i) = true)); [by rewrite length_fmap|].
    intros i. rewrite Z.shiftr_spec by lia. by replace (Z.of_nat (0 + 8 + i)) with (Z.of_nat i + 8)%Z by lia.
Qed.

Lemma count_word_ok fuel w r :
  (0 ≤ w < 2 ^ (8 * Z.of_nat fuel))%Z → count_word fuel w r = Ok (r + length (bits_upto (8 * fuel) w)).
Proof.
  revert w r. induction fuel as [|fuel IH]; intros w r Hw; cbn [count_word].
  { replace w with 0%Z by (simpl in Hw; lia). simpl. f_equal. lia. }
  destruct (Z.eqb_spec w 0) as [->|Hne].
  { unfold bits_upto. rewrite filter_none; [simpl; f_equal; lia|]. intros i _. by rewrite Z.bits_0. }
  rewrite land255. pose proof (Z.mod_pos_bound w 256 ltac:(lia)) as Hm.
  rewrite (rd_some _ _ _ (ones_table (Z.to_nat (w mod 256)) ltac:(lia))). cbn [mbind res_bind]. rewrite Z2Nat.id by lia.
  rewrite IH; [|].
  - f_equal. replace (8 * S fuel) with (8 + 8 * fuel) by lia. rewrite bits_split by lia. lia.
  - rewrite Z.shiftr_div_pow2 by lia. change (2 ^ 8)%Z with 256%Z. split; [apply Z.div_pos; lia|]. apply Z.div_lt_upper_bound; [lia|].
    change 256%Z with (2 ^ 8)%Z. rewrite <- Z.pow_add_r by lia. replace (8 + 8 * Z.of_nat fuel)%Z with (8 * Z.of_nat (S fuel))%Z by lia. apply Hw.
Qed.

Lemma count_words_ok ws r :
  words_ok ws → foreach ws (fun w result => count_word 4 w result) r = Ok (r + length (members (Some ws))).
Proof.
  intros Hws. revert r. induction Hws as [|w ws Hw Hws IH]; intros r; [simpl; f_equal; lia|]. cbn [foreach].
  rewrite count_word_ok by (change (8 * Z.of_nat 4)%Z with 32%Z; done). cbn [mbind res_bind].
  rewrite IH, members_cons, length_app, length_fmap. f_equal. change (8 * 4) with 32. lia.
Qed.

(** *** Taking members out *)
Lemma first_from_ok ws k :
  words_ok ws →
  ∃ r ws', first_from ws k = Ok (r, ws') ∧ words_ok ws' ∧
    match members (Some ws) with
    | [] => r = (-1)%Z ∧ ws' = ws
    | x :: l => r = Z.of_nat (k * 32 + x) ∧ members (Some ws') = l
    end.
Proof.
  intros Hws. revert k. induction Hws as [|w ws Hw Hws IH]; intros k.
  { exists (-1)%Z, []. split_and!; [done | constructor | done]. }
  cbn [first_from]. destruct (w =? 0)%Z eqn:Ez; cbn [negb].
  - destruct (IH (S k)) as (r & ws' & -> & Hok & Hm). exists r, (w :: ws'). split; [done|]. split; [by constructor|].
    rewrite members_cons, (wbits_zero w Ez). cbn [app]. destruct (members (Some ws)) as [|x l]; cbn [fmap list_fmap].
    + by destruct Hm as [-> ->].
    + destruct Hm as [-> Hm]. split; [f_equal; lia|]. by rewrite members_cons, (wbits_zero w Ez), Hm.
  - destruct (lowest_exists w Hw Ez) as (b & Hb & _). rewrite (RIGHTMOST_ONE_ok w b Hw Hb).
    pose proof (lowest_lt _ _ Hw Hb) as Hlt. assert (Hok : word_ok (2 ^ Z.of_nat b)%Z) by (split; [lia|]; apply Z.pow_lt_mono_r; lia).
    destruct (lowest_exists (2 ^ Z.of_nat b)%Z Hok) as (b' & [Hb' _] & Hf); [apply Z.eqb_neq; lia|].
    rewrite pow2_bit in Hb'. apply bool_decide_eq_true in Hb' as ->. rewrite Hf. cbn [mbind res_bind].
    eexists _, _. split; [done|]. split; [constructor; [by apply word_diff_ok | done]|].
    rewrite !members_cons, (wbits_lowest w b Hw Hb). done.
Qed.

(** *** Hashing *)

(** The words without the zeroes at the end. *)
Fixpoint strip (ws : list bitmapword) : list bitmapword :=
  match ws with
  | [] => []
  | w :: ws => match strip ws with [] => if (w =? 0)%Z then [] else [w] | l => w :: l end
  end.

Lemma strip_snoc ws w : strip (ws ++ [w]) = if (w =? 0)%Z then strip ws else ws ++ [w].
Proof.
  induction ws as [|v ws IH]; simpl; [by destruct (w =? 0)%Z|]. rewrite IH. destruct (w =? 0)%Z; [done|]. by destruct ws.
Qed.

Lemma used_words_ok ws n : n ≤ length ws → ∃ m, used_words ws n = Ok m ∧ take m ws = strip (take n ws) ∧ m ≤ n.
Proof.
  induction n as [|n IH]; intros Hn; [by exists 0|]. cbn [used_words]. destruct (lookup_lt_is_Some_2 ws n) as [w Hw]; [lia|].
  rewrite (rd_some _ _ _ Hw). cbn [mbind res_bind]. rewrite (take_S_r _ _ _ Hw), strip_snoc. destruct (w =? 0)%Z; cbn [negb].
  - destruct IH as (m & -> & Hm & Hle); [lia|]. exists m. split_and!; [done | done | lia].
  - exists (S n). split_and!; [done | by apply take_S_r | done].
Qed.

Lemma strip_zero ws : all_zero ws = true → strip ws = [].
Proof. induction ws as [|w ws IH]; [done|]. simpl. destruct (w =? 0)%Z eqn:E; [|done]. simpl. intros H. by rewrite IH. Qed.

Lemma strip_equal a b : length a ≤ length b → equal_words a b = true → strip a = strip b.
Proof.
  revert b. induction a as [|w a IH]; intros b Hl H.
  { simpl. rewrite strip_zero; [done|]. by destruct b. }
  destruct b as [|v b]; [simpl in Hl; lia|]. cbn [equal_words] in H. destruct (Z.eqb_spec w v) as [->|]; [|done]. simpl in *.
  rewrite (IH b); [done | lia | done].
Qed.

Lemma bms_hash_strip a :
  bms_hash_value a =
    Ok (match strip (default [] a) with [] => 0%Z | l => hash_any true (concat (map word_bytes l)) end).
Proof.
  destruct a as [ws|]; [|done]. unfold bms_hash_value, default. destruct (used_words_ok ws (length ws)) as (m & -> & Hm & Hle); [done|].
  rewrite firstn_all in Hm. unfold from_option, id. rewrite <- Hm. cbn [mbind res_bind]. destruct m as [|m]; [done|].
  destruct ws as [|w ws]; [simpl in Hle; lia|]. cbn [take Nat.eqb]. reflexivity.
Qed.

Lemma equal_strip a b : bms_equal a b = true → strip (default [] a) = strip (default [] b).
Proof.
  destruct a as [a|], b as [b|]; simpl; [| apply strip_zero | intros H; by rewrite strip_zero | done].
  destruct (Nat.leb_spec (length a) (length b)); intros H'; [by apply strip_equal|]. symmetry. apply strip_equal; [lia | done].
Qed.

(** ** Refinement of finite sets *)

(** The bitmap is well formed and stands for the set. *)
Definition refines (a : Bitmapset) (A : gset nat) : Prop := bms_ok a ∧ relids_of a = A.

Lemma refines_intro a (A : gset nat) : bms_ok a → (∀ x, mem a x = true ↔ x ∈ A) → refines a A.
Proof. intros Hok H. split; [done | by apply relids_ext]. Qed.

Lemma refines_mem a A x : refines a A → (mem a x = true ↔ x ∈ A).
Proof. intros [_ <-]. symmetry. apply elem_of_relids. Qed.

Lemma refines_mem_b a A x : refines a A → mem a x = bool_decide (x ∈ A).
Proof. intros H. apply eq_bool_prop_intro. rewrite !Is_true_true, bool_decide_eq_true. by apply refines_mem. Qed.

Lemma refines_self a : bms_ok a → refines a (relids_of a).
Proof. by split. Qed.

Lemma refines_none : refines None ∅.
Proof. by split. Qed.

Lemma refines_words ws (X : gset nat) : words_ok ws → (∀ x, wmem ws x = bool_decide (x ∈ X)) → refines (Some ws) X.
Proof. intros Hok H. apply refines_intro; [done|]. intros x. simpl. by rewrite H, bool_decide_eq_true. Qed.

Lemma refines_words_inv ws X : refines (Some ws) X → words_ok ws ∧ ∀ x, wmem ws x = bool_decide (x ∈ X).
Proof. intros H. split; [apply H|]. intros x. apply (refines_mem_b _ _ x H). Qed.

Lemma refines_empty_inv X : refines None X → X = ∅.
Proof. by intros [_ <-]. Qed.

(** The set algebra on the values of membership tests. *)
Lemma bool_union (A B : gset nat) x : bool_decide (x ∈ A) || bool_decide (x ∈ B) = bool_decide (x ∈ A ∪ B).
Proof. repeat case_bool_decide; set_solver. Qed.

Lemma bool_intersection (A B : gset nat) x : bool_decide (x ∈ A) && bool_decide (x ∈ B) = bool_decide (x ∈ A ∩ B).
Proof. repeat case_bool_decide; set_solver. Qed.

Lemma bool_difference (A B : gset nat) x : bool_decide (x ∈ A) && negb (bool_decide (x ∈ B)) = bool_decide (x ∈ A ∖ B).
Proof. repeat case_bool_decide; set_solver. Qed.

Lemma bool_add (A : gset nat) x y : bool_decide (y ∈ A) || bool_decide (y = x) = bool_decide (y ∈ A ∪ {[x]}).
Proof. repeat case_bool_decide; set_solver. Qed.

Lemma bool_del (A : gset nat) x y : bool_decide (y ∈ A) && negb (bool_decide (y = x)) = bool_decide (y ∈ A ∖ {[x]}).
Proof. repeat case_bool_decide; set_solver. Qed.

Create HintDb bms discriminated.
#[export] Hint Resolve lor_ok land_ok word_diff_ok refines_none merge_words_ok int_words_ok : bms.

Ltac bms_words :=
  repeat match goal with
  | H : refines None ?X |- _ => apply refines_empty_inv in H; subst X
  | H : refines (Some _) _ |- _ => apply refines_words_inv in H as [? ?]
  | H : ∀ x, wmem ?ws x = _ |- context [wmem ?ws _] => rewrite H
  end.

Lemma or_refines x y A B :
  length y ≤ length x → refines (Some x) A → refines (Some y) B → refines (Some (merge_words Z.lor x y)) (A ∪ B).
Proof.
  intros Hl HA HB. bms_words. apply refines_words; [by eauto with bms|]. intros z. rewrite wmem_or by done. bms_words. apply bool_union.
Qed.

Lemma bms_union_ok a b A B : refines a A → refines b B → refines (bms_union a b) (A ∪ B).
Proof.
  destruct a as [x|], b as [y|]; intros HA HB; cbn [bms_union bms_add_members bms_intersect bms_int_members bms_difference bms_copy]; bms_words; [|rewrite union_empty_r_L; by apply refines_words | rewrite union_empty_l_L; by apply refines_words | by rewrite union_empty_l_L; eauto with bms].
  assert (refines (Some x) A) by (by apply refines_words). assert (refines (Some y) B) by (by apply refines_words).
  destruct (Nat.leb_spec (length x) (length y)); [rewrite (union_comm_L A); by apply or_refines | apply or_refines; [lia | done | done]].
Qed.

Lemma bms_add_members_ok a b A B : refines a A → refines b B → refines (bms_add_members a b) (A ∪ B).
Proof.
  destruct a as [x|], b as [y|]; intros HA HB; cbn [bms_union bms_add_members bms_intersect bms_int_members bms_difference bms_copy]; bms_words; [|rewrite union_empty_r_L; by apply refines_words | rewrite union_empty_l_L; by apply refines_words | by rewrite union_empty_l_L; eauto with bms].
  assert (refines (Some x) A) by (by apply refines_words). assert (refines (Some y) B) by (by apply refines_words).
  destruct (Nat.ltb_spec (length x) (length y)); [rewrite (union_comm_L A); apply or_refines; [lia | done | done] | by apply or_refines].
Qed.

Lemma bms_join_members a b : bms_join a b = bms_add_members a b.
Proof. by destruct a, b. Qed.

Lemma bms_intersect_ok a b A B : refines a A → refines b B → refines (bms_intersect a b) (A ∩ B).
Proof.
  destruct a as [x|], b as [y|]; intros HA HB; cbn [bms_union bms_add_members bms_intersect bms_int_members bms_difference bms_copy]; bms_words; [|rewrite intersection_empty_r_L; eauto with bms | rewrite intersection_empty_l_L; eauto with bms..].
  destruct (Nat.leb_spec (length x) (length y)); (apply refines_words; [by eauto with bms|]); intros z; rewrite wmem_and by lia;
    bms_words; [|rewrite andb_comm]; apply bool_intersection.
Qed.

Lemma bms_int_members_ok a b A B : refines a A → refines b B → refines (bms_int_members a b) (A ∩ B).
Proof.
  destruct a as [x|], b as [y|]; intros HA HB; cbn [bms_union bms_add_members bms_intersect bms_int_members bms_difference bms_copy]; bms_words; [|rewrite intersection_empty_r_L; eauto with bms | rewrite intersection_empty_l_L; eauto with bms..].
  apply refines_words; [by eauto with bms|]. intros z. rewrite wmem_int. bms_words. apply bool_intersection.
Qed.

Lemma empty_minus (X : gset nat) : ∅ ∖ X = ∅.
Proof. set_solver. Qed.

Lemma bms_difference_ok a b A B : refines a A → refines b B → refines (bms_difference a b) (A ∖ B).
Proof.
  destruct a as [x|], b as [y|]; intros HA HB; cbn [bms_union bms_add_members bms_intersect bms_int_members bms_difference bms_copy]; bms_words; [|rewrite difference_empty_L; by apply refines_words | rewrite empty_minus; eauto with bms..].
  apply refines_words; [by eauto with bms|]. intros z. rewrite wmem_diff. bms_words. apply bool_difference.
Qed.

Lemma bms_del_members_difference a b : bms_del_members a b = bms_difference a b.
Proof. by destruct a, b. Qed.

(** One member set or cleared. *)
Lemma wmem_insert ws x w y :
  ws !! WORDNUM x = Some w → 
  wmem (<[WORDNUM x := Z.lor w (bit_of x)]> ws) y = wmem ws y || bool_decide (y = x) ∧
  wmem (<[WORDNUM x := Z.land w (word_not (bit_of x))]> ws) y = wmem ws y && negb (bool_decide (y = x)).
Proof.
  intros Hw. unfold wmem. destruct (decide (WORDNUM y = WORDNUM x)) as [E|E].
  - rewrite E, !list_lookup_insert_eq, Hw by (by eapply lookup_lt_Some). pose proof (bitnum_lt y).
    rewrite Z.lor_spec, Z.land_spec, testbit_word_not, bit_of_bit by done.
    assert (Hxy : BITNUM y = BITNUM x ↔ y = x) by (split; [by apply same_position | by intros ->]).
    by rewrite (bool_decide_ext _ _ Hxy).
  - rewrite !list_lookup_insert_ne by done. rewrite bool_decide_false by congruence. by rewrite orb_false_r, andb_true_r.
Qed.

Lemma words_insert ws i w : words_ok ws → word_ok w → words_ok (<[i := w]> ws).
Proof. intros. by apply Forall_insert. Qed.

Lemma wmem_pad ws n x : wmem (ws ++ replicate n 0%Z) x = wmem ws x.
Proof.
  unfold wmem. destruct (ws !! WORDNUM x) as [w|] eqn:E; [by rewrite (lookup_app_l_Some _ _ _ _ E)|].
  rewrite lookup_app_r by (by apply lookup_ge_None). destruct (replicate n 0%Z !! _) as [w|] eqn:E'; [|done].
  apply lookup_replicate in E' as [-> _]. apply Z.bits_0.
Qed.

Lemma words_pad ws n : words_ok ws → words_ok (ws ++ replicate n 0%Z).
Proof. intros. apply Forall_app. split; [done|]. apply Forall_replicate. lia. Qed.

Lemma bms_add_word ws x A :
  refines (Some ws) A → ∃ c, bms_add_member (Some ws) (Z.of_nat x) = Ok c ∧ refines c (A ∪ {[x]}).
Proof.
  intros H. bms_words. unfold bms_add_member. rewrite (proj2 (Z.ltb_ge _ _)) by lia. cbv zeta. rewrite Nat2Z.id.
  set (ws' := if length ws <=? WORDNUM x then _ else ws).
  assert (Hws' : words_ok ws' ∧ (∀ y, wmem ws' y = wmem ws y) ∧ WORDNUM x < length ws').
  { subst ws'. destruct (Nat.leb_spec (length ws) (WORDNUM x)); [|done]. split_and!; [by apply words_pad | intros; apply wmem_pad|].
    rewrite length_app, length_replicate. lia. }
  clearbody ws'. destruct Hws' as (Hok & Hmem & Hlt). destruct (lookup_lt_is_Some_2 ws' _ Hlt) as [w Hw].
  unfold wr. rewrite (rd_some _ _ _ Hw). cbn [mbind res_bind]. rewrite Hw. cbn [mbind res_bind]. eexists. split; [done|].
  apply refines_words; [apply words_insert; [done|]; apply lor_ok; [by eapply Forall_lookup_1 in Hw | apply bit_of_ok]|].
  intros y. rewrite (proj1 (wmem_insert _ _ _ y Hw)), Hmem. bms_words. apply bool_add.
Qed.

Lemma bms_singleton_ok x : ∃ c, bms_make_singleton (Z.of_nat x) = Ok c ∧ refines c {[x]}.
Proof.
  unfold bms_make_singleton. rewrite (proj2 (Z.ltb_ge _ _)) by lia. cbv zeta. rewrite Nat2Z.id.
  assert (Hw : replicate (WORDNUM x + 1) 0%Z !! WORDNUM x = Some 0%Z) by (apply lookup_replicate; split; [done | lia]).
  unfold wr. rewrite Hw. cbn [mbind res_bind]. eexists. split; [done|].
  apply refines_words; [apply words_insert; [apply (words_pad [] _); constructor | apply bit_of_ok]|].
  intros y. pose proof (proj1 (wmem_insert _ _ _ y Hw)) as E. rewrite Z.lor_0_l in E. rewrite E. pose proof (wmem_pad [] (WORDNUM x + 1) y) as Ez. cbn [app] in Ez. rewrite Ez, wmem_nil.
  cbn [orb]. apply bool_decide_ext. set_solver.
Qed.

Lemma bms_add_member_ok a x A : refines a A → ∃ c, bms_add_member a (Z.of_nat x) = Ok c ∧ refines c (A ∪ {[x]}).
Proof.
  destruct a as [ws|]; intros H; [by apply bms_add_word|]. bms_words. unfold bms_add_member.
  rewrite (proj2 (Z.ltb_ge _ _)), union_empty_l_L by lia. apply bms_singleton_ok.
Qed.

Lemma bms_del_member_ok a x A : refines a A → ∃ c, bms_del_member a (Z.of_nat x) = Ok c ∧ refines c (A ∖ {[x]}).
Proof.
  intros H. unfold bms_del_member. rewrite (proj2 (Z.ltb_ge _ _)) by lia. cbv zeta. rewrite Nat2Z.id.
  destruct a as [ws|]; bms_words.
  2: { exists None. split; [done|]. rewrite empty_minus. apply refines_none. }
  destruct (Nat.ltb_spec (WORDNUM x) (length ws)) as [Hlt|Hge].
  - destruct (lookup_lt_is_Some_2 ws _ Hlt) as [w Hw]. unfold wr. rewrite (rd_some _ _ _ Hw). cbn [mbind res_bind].
    rewrite Hw. cbn [mbind res_bind]. eexists. split; [done|].
    apply refines_words; [apply words_insert; [done|]; apply land_ok; [by eapply Forall_lookup_1 in Hw | apply word_not_ok]|].
    intros y. rewrite (proj2 (wmem_insert _ _ _ y Hw)). bms_words. apply bool_del.
  - eexists. split; [done|]. apply refines_words; [done|]. intros y. rewrite <- bool_del. bms_words.
    destruct (decide (y = x)) as [->|Hne]; [|by rewrite (bool_decide_false (y = x)), andb_true_r].
    match goal with H : ∀ x, wmem ws x = _ |- _ => rewrite <- H end. unfold wmem. by rewrite lookup_ge_None_2.
Qed.

Lemma bms_is_subset_ok a b A B : refines a A → refines b B → bms_is_subset a b = bool_decide (A ⊆ B).
Proof.
  intros HA HB. apply eq_bool_prop_intro. rewrite !Is_true_true, bool_decide_eq_true.
  assert (Hsub : subset a b ↔ A ⊆ B).
  { split; intros H x; specialize (H x); rewrite (refines_mem a A x HA), (refines_mem b B x HB) in *; done. }
  rewrite <- Hsub. destruct HA as [Ha _], HB as [Hb _]. destruct a as [a|]; [|by split; [intros _ x |]].
  destruct b as [b|]; [by apply is_subset_words_ok|]. cbn. rewrite wsubset_zero by done. split; intros H x; apply (H x).
Qed.

Lemma bms_nonempty_difference_ok a b A B : refines a A → refines b B → bms_nonempty_difference a b = negb (bool_decide (A ⊆ B)).
Proof.
  intros HA HB. rewrite <- (bms_is_subset_ok a b A B HA HB). destruct a as [a|], b as [b|]; try done. apply nonempty_difference_negb.
Qed.

Lemma bms_overlap_ok a b A B : refines a A → refines b B → bms_overlap a b = bool_decide (A ∩ B ≠ ∅).
Proof.
  intros HA HB. apply eq_bool_prop_intro. rewrite !Is_true_true, bool_decide_eq_true.
  assert (Hov : A ∩ B ≠ ∅ ↔ ∃ x, mem a x = true ∧ mem b x = true).
  { split.
    - intros [x Hx]%set_choose_L. exists x. rewrite (refines_mem a A x HA), (refines_mem b B x HB). set_solver.
    - intros (x & H1 & H2). rewrite (refines_mem a A x HA), (refines_mem b B x HB) in *. set_solver. }
  rewrite Hov. destruct HA as [Ha _], HB as [Hb _]. destruct a as [a|], b as [b|]; [by apply overlap_words_ok | | |]; naive_solver.
Qed.

Lemma bms_is_member_ok a A x : refines a A → bms_is_member (Z.of_nat x) a = Ok (bool_decide (x ∈ A)).
Proof.
  intros HA. unfold bms_is_member. rewrite (proj2 (Z.ltb_ge _ _)) by lia. rewrite <- (refines_mem_b a A x HA), Nat2Z.id.
  destruct HA as [Ha _]. destruct a as [ws|]; [|done]. by rewrite test_word_ok.
Qed.

Lemma bms_is_empty_ok a A : refines a A → bms_is_empty a = bool_decide (A = ∅).
Proof.
  intros HA. pose proof (bms_is_subset_ok a None A ∅ HA refines_none) as H.
  replace (bms_is_empty a) with (bms_is_subset a None) by (by destruct a). rewrite H. apply bool_decide_ext. set_solver.
Qed.

Lemma bms_equal_refines a b A B : refines a A → refines b B → bms_equal a b = bool_decide (A = B).
Proof.
  intros HA HB. apply eq_bool_prop_intro. rewrite !Is_true_true, bool_decide_eq_true.
  rewrite (bms_equal_ok a b (proj1 HA) (proj1 HB)). split.
  - intros H. apply set_eq. intros x. by rewrite <- (refines_mem a A x HA), <- (refines_mem b B x HB), H.
  - intros -> x. by rewrite (refines_mem_b a B x HA), (refines_mem_b b B x HB).
Qed.

Lemma bms_overlap_list_ok a A (l : list nat) :
  refines a A → bms_overlap_list a (Z.of_nat <$> l) = Ok (bool_decide (A ∩ list_to_set l ≠ ∅)).
Proof.
  intros HA. assert (Hcons : ∀ x l', bool_decide (A ∩ list_to_set (x :: l') ≠ ∅) = bool_decide (x ∈ A) || bool_decide (A ∩ list_to_set l' ≠ ∅)).
  { intros x l'. repeat case_bool_decide; set_solver. }
  destruct a as [ws|]; [|bms_words; simpl; rewrite bool_decide_false; [done | set_solver]].
  replace (bms_overlap_list (Some ws) (Z.of_nat <$> l)) with (overlap_ints ws (Z.of_nat <$> l)) by (by destruct l).
  induction l as [|x l IH]; [simpl; rewrite bool_decide_false; [done | set_solver]|]. rewrite Hcons. cbn [fmap list_fmap overlap_ints].
  rewrite (proj2 (Z.ltb_ge _ _)), Nat2Z.id, test_word_ok by (lia || apply HA).
  pose proof (refines_mem_b _ _ x HA) as Hx. cbn in Hx. rewrite Hx. by case_bool_decide.
Qed.

(** The negative numbers every member routine refuses. *)
Lemma negative_members a x l :
  (x < 0)%Z →
  bms_make_singleton x = Err neg_member ∧ bms_is_member x a = Err neg_member ∧
  bms_add_member a x = Err neg_member ∧ bms_del_member a x = Err neg_member ∧
  (a ≠ None → bms_overlap_list a (x :: l) = Err neg_member).
Proof.
  intros Hx. unfold bms_make_singleton, bms_is_member, bms_add_member, bms_del_member. rewrite (proj2 (Z.ltb_lt x 0)) by done.
  split_and!; try done. destruct a; [|done]. intros _. cbn [bms_overlap_list overlap_ints]. by rewrite (proj2 (Z.ltb_lt x 0)).
Qed.

(** C20. The set algebra of bitmapset.c refines finite sets of numbers: whatever
    the lengths of the arrays, with NULL for the empty set, on well-formed inputs
    the copying and the recycling operations give well-formed bitmaps of the union,
    intersection and difference, adding and deleting one member do that and nothing
    else, and the predicates decide inclusion, overlap, membership, emptiness and
    equality. *)
Theorem bitmapset_algebra (a b : Bitmapset) (A B : gset nat) (x : nat) (l : list nat) :
  refines a A → refines b B →
  (refines (bms_union a b) (A ∪ B) ∧ refines (bms_add_members a b) (A ∪ B) ∧ refines (bms_join a b) (A ∪ B)) ∧
  (refines (bms_intersect a b) (A ∩ B) ∧ refines (bms_int_members a b) (A ∩ B)) ∧
  (refines (bms_difference a b) (A ∖ B) ∧ refines (bms_del_members a b) (A ∖ B)) ∧
  ensures (bms_make_singleton (Z.of_nat x)) (fun c => refines c {[x]}) ∧
  ensures (bms_add_member a (Z.of_nat x)) (fun c => refines c (A ∪ {[x]})) ∧
  ensures (bms_del_member a (Z.of_nat x)) (fun c => refines c (A ∖ {[x]})) ∧
  bms_is_member (Z.of_nat x) a = Ok (bool_decide (x ∈ A)) ∧
  bms_overlap_list a (Z.of_nat <$> l) = Ok (bool_decide (A ∩ list_to_set l ≠ ∅)) ∧
  bms_is_subset a b = bool_decide (A ⊆ B) ∧ bms_nonempty_difference a b = negb (bool_decide (A ⊆ B)) ∧
  bms_overlap a b = bool_decide (A ∩ B ≠ ∅) ∧ bms_is_empty a = bool_decide (A = ∅) ∧
  bms_equal a b = bool_decide (A = B) ∧ set_relation (bms_subset_compare a b) a b.
Proof.
  intros HA HB. rewrite bms_join_members, bms_del_members_difference.
  split_and!; eauto using bms_union_ok, bms_add_members_ok, bms_intersect_ok, bms_int_members_ok, bms_difference_ok,
    bms_is_member_ok, bms_overlap_list_ok, bms_is_subset_ok, bms_nonempty_difference_ok, bms_overlap_ok, bms_is_empty_ok, bms_equal_refines.
  - destruct (bms_singleton_ok x) as (c & -> & Hc). done.
  - destruct (bms_add_member_ok a x A HA) as (c & -> & Hc). done.
  - destruct (bms_del_member_ok a x A HA) as (c & -> & Hc). done.
  - apply subset_compare_ok; [apply HA | apply HB].
Qed.

Lemma bitmapset_algebra_witness :
  bms_union (Some [5]%Z) (Some [0; 1]%Z) = Some [5; 1]%Z ∧ refines (bms_union (Some [5]%Z) (Some [0; 1]%Z)) ({[0; 2]} ∪ {[32]}).
Proof.
  split; [reflexivity|]. refine (proj1 (proj1 (bitmapset_algebra (Some [5]%Z) (Some [0; 1]%Z) {[0; 2]} {[32]} 7 [] _ _))).
  - split; [repeat constructor; lia | by vm_compute].
  - split; [repeat constructor; lia | by vm_compute].
Defined.

(** Counting and taking members of a relation set: [bms_num_members] is the
    number of members, [bms_membership] tells none, one and several apart,
    [bms_singleton_member] gives the only member and raises its two errors on the
    empty set and on several members, [bms_get_singleton_member] leaves its
    argument alone in those cases, and [bms_first_member] returns the least member
    and leaves the set without it, -1 on the empty set. *)
Theorem bitmapset_members (a : Bitmapset) (m : Z) :
  bms_ok a →
  bms_num_members a = Ok (size (relids_of a)) ∧
  match sole (members a) with
  | Some None =>
      bms_membership a = BMS_EMPTY_SET ∧ bms_singleton_member a = Err (Fault_elog "bitmapset is empty") ∧
      bms_get_singleton_member a m = Ok (false, m) ∧ bms_first_member a = Ok ((-1)%Z, a)
  | Some (Some x) =>
      bms_membership a = BMS_SINGLETON ∧ bms_singleton_member a = Ok (Z.of_nat x) ∧
      bms_get_singleton_member a m = Ok (true, Z.of_nat x)
  | None =>
      bms_membership a = BMS_MULTIPLE ∧ bms_singleton_member a = Err (Fault_elog "bitmapset has multiple members") ∧
      bms_get_singleton_member a m = Ok (false, m)
  end ∧
  (∀ x l, members a = x :: l → ∃ a', bms_first_member a = Ok (Z.of_nat x, a') ∧ bms_ok a' ∧ members a' = l).
Proof.
  rewrite relids_size. destruct a as [ws|]; [|by intros _; split_and!]. intros Hok. split; [|split].
  - cbn [bms_num_members]. rewrite count_words_ok by done. done.
  - unfold bms_membership, bms_singleton_member, bms_get_singleton_member, bms_first_member.
    rewrite singleton_from_ok, membership_words_ok by done. destruct (first_from_ok ws 0 Hok) as (r & ws' & -> & _ & Hm).
    destruct (members (Some ws)) as [|x [|y l]]; cbn [sole mbind res_bind]; [|rewrite (proj2 (Z.ltb_ge _ _)) by lia; done|done].
    by destruct Hm as [-> ->].
  - intros x l E. unfold bms_first_member. destruct (first_from_ok ws 0 Hok) as (r & ws' & -> & Hok' & Hm). rewrite E in Hm.
    destruct Hm as [-> Hm]. by exists (Some ws').
Qed.

Lemma bitmapset_members_witness : bms_num_members (Some [0; 2147483648; 6]%Z) = Ok 3.
Proof.
  rewrite (proj1 (bitmapset_members (Some [0; 2147483648; 6]%Z) 0%Z ltac:(repeat constructor; lia))). by vm_compute.
Defined.

(** Relation sets that [bms_equal] accepts have the same [bms_hash_value], and
    it always returns: trailing zero words, and NULL against an array of zeroes,
    make no difference to the hash table of join relations. *)
Theorem bms_hash_equal (a b : Bitmapset) :
  bms_equal a b = true → ∃ h, bms_hash_value a = Ok h ∧ bms_hash_value b = Ok h.
Proof. intros H%equal_strip. eexists. rewrite !bms_hash_strip, H. done. Qed.

Lemma bms_hash_equal_witness :
  ∃ h, bms_hash_value (Some [6; 1]%Z) = Ok h ∧ bms_hash_value (Some [6; 1; 0; 0]%Z) = Ok h.
Proof. exact (bms_hash_equal (Some [6; 1]%Z) (Some [6; 1; 0; 0]%Z) ltac:(reflexivity)). Defined.
