(* ===== verification/Paths.v ===== *)
(** * Paths: the competition of plans by cost and explore value

    The routines of src/backend/optimizer/util/pathnode.c and
    src/backend/optimizer/plan/planner.c that this fork adds for its explore
    values, next to the ones of PostgreSQL they are derived from: which paths of
    a relation survive ([add_path], [add_path_explore] and their prechecks),
    which of them are recorded as the best ([set_cheapest],
    [set_cheapest_explore]), and which one becomes the plan
    ([get_cheapest_fractional_path], [get_cheapest_explore_fractional_path]). *)
From S2P Require Import Prelude Float64 Bitmapset.
From stdpp Require Import strings sorting.

(** ** Data *)

(** [path_id] stands for the address of the path, the numbers of [pathkeys] for
    the addresses of the canonical sort keys. *)
Record Path : Type := mkPath {
  path_id : nat;
  param_info : option Bitmapset;
  pathkeys : list nat;
  parallel_safe : bool;
  parallel_workers : Z;
  path_rows : double;
  startup_cost : double;
  total_cost : double;
  explore_value : double
}.

Definition PATH_REQ_OUTER (p : Path) : Bitmapset := match param_info p with Some r => r | None => None end.

(** The members of RelOptInfo the routines use. *)
Record RelOptInfo : Type := mkRel {
  consider_startup : bool;
  consider_param_startup : bool;
  pathlist : list Path;
  best_cost : double;
  cheapest_startup_path : option Path;
  cheapest_total_path : option Path;
  cheapest_parameterized_paths : list Path;
  cheapest_cost_explore_pathlist : list Path
}.

Definition set_pathlist (rel : RelOptInfo) (l : list Path) (bc : double) : RelOptInfo :=
  mkRel (consider_startup rel) (consider_param_startup rel) l bc (cheapest_startup_path rel)
    (cheapest_total_path rel) (cheapest_parameterized_paths rel) (cheapest_cost_explore_pathlist rel).

Inductive PathCostComparison : Type := COSTS_EQUAL | COSTS_BETTER1 | COSTS_BETTER2 | COSTS_DIFFERENT.
Inductive PathKeysComparison : Type := PATHKEYS_EQUAL | PATHKEYS_BETTER1 | PATHKEYS_BETTER2 | PATHKEYS_DIFFERENT.
Inductive CostSelector : Type := STARTUP_COST | TOTAL_COST.

#[export] Instance cost_eqdec : EqDecision PathCostComparison.
Proof. solve_decision. Defined.
#[export] Instance keys_eqdec : EqDecision PathKeysComparison.
Proof. solve_decision. Defined.

Definition STD_FUZZ_FACTOR : double := dlit 101 100.

(** ** Comparisons *)
Definition compare_path_costs (path1 path2 : Path) (criterion : CostSelector) : Z :=
  match criterion with
  | STARTUP_COST =>
      if (startup_cost path1 <? startup_cost path2)%D then -1
      else if (startup_cost path1 >? startup_cost path2)%D then 1
      else if (total_cost path1 <? total_cost path2)%D then -1
      else if (total_cost path1 >? total_cost path2)%D then 1 else 0
  | TOTAL_COST =>
      if (total_cost path1 <? total_cost path2)%D then -1
      else if (total_cost path1 >? total_cost path2)%D then 1
      else if (startup_cost path1 <? startup_cost path2)%D then -1
      else if (startup_cost path1 >? startup_cost path2)%D then 1 else 0
  end%Z.

Definition fractional_cost (p : Path) (fraction : double) : double :=
  (startup_cost p + fraction * (total_cost p - startup_cost p))%D.

Definition compare_fractional_path_costs (path1 path2 : Path) (fraction : double) : Z :=
  if ((fraction <=? d0) || (fraction >=? d_of_Z 1))%D then compare_path_costs path1 path2 TOTAL_COST
  else
    let cost1 := fractional_cost path1 fraction in
    let cost2 := fractional_cost path2 fraction in
    if (cost1 <? cost2)%D then -1 else if (cost1 >? cost2)%D then 1 else 0%Z.

(** [CONSIDER_PATH_STARTUP_COST]; the paths compared have the same parent. *)
Definition consider_path_startup_cost (rel : RelOptInfo) (p : Path) : bool :=
  match param_info p with None => consider_startup rel | Some _ => consider_param_startup rel end.

Definition compare_path_costs_fuzzily (rel : RelOptInfo) (path1 path2 : Path) (fuzz_factor : double)
  : PathCostComparison :=
  if (total_cost path1 >? total_cost path2 * fuzz_factor)%D then
    if consider_path_startup_cost rel path1 && (startup_cost path2 >? startup_cost path1 * fuzz_factor)%D
    then COSTS_DIFFERENT else COSTS_BETTER2
  else if (total_cost path2 >? total_cost path1 * fuzz_factor)%D then
    if consider_path_startup_cost rel path2 && (startup_cost path1 >? startup_cost path2 * fuzz_factor)%D
    then COSTS_DIFFERENT else COSTS_BETTER1
  else if (startup_cost path1 >? startup_cost path2 * fuzz_factor)%D then COSTS_BETTER2
  else if (startup_cost path2 >? startup_cost path1 * fuzz_factor)%D then COSTS_BETTER1
  else COSTS_EQUAL.

Definition compare_path_explore_value_fuzzily (path1 path2 : Path) (fuzz_factor : double) : Z :=
  if (explore_value path1 >? explore_value path2 * fuzz_factor)%D then 1
  else if (explore_value path2 >? explore_value path1 * fuzz_factor)%D then -1 else 0%Z.

Fixpoint compare_pathkeys (keys1 keys2 : list nat) : PathKeysComparison :=
  match keys1, keys2 with
  | k1 :: keys1, k2 :: keys2 => if k1 =? k2 then compare_pathkeys keys1 keys2 else PATHKEYS_DIFFERENT
  | _ :: _, [] => PATHKEYS_BETTER1
  | [], _ :: _ => PATHKEYS_BETTER2
  | [], [] => PATHKEYS_EQUAL
  end.

(** Parameterized paths count as having no sort order. *)
Definition effective_pathkeys (p : Path) : list nat :=
  match param_info p with Some _ => [] | None => pathkeys p end.

(** ** Adding a path *)

(** What the comparison with one old path decides. *)
Inductive verdict : Type := KeepBoth | RemoveOld | RejectNew.

#[export] Instance verdict_eqdec : EqDecision verdict.
Proof. solve_decision. Defined.

Definition outer_le1 (o : BMS_Comparison) : bool := bool_decide (o = BMS_EQUAL) || bool_decide (o = BMS_SUBSET1).
Definition outer_le2 (o : BMS_Comparison) : bool := bool_decide (o = BMS_EQUAL) || bool_decide (o = BMS_SUBSET2).

(** [new->rows <= old->rows && new->parallel_safe >= old->parallel_safe] and the
    same with the roles exchanged. *)
Definition no_more_rows (p q : Path) : bool :=
  (path_rows p <=? path_rows q)%D && (implb (parallel_safe q) (parallel_safe p)).

Definition remove_if (b : bool) : verdict := if b then RemoveOld else KeepBoth.
Definition reject_if (b : bool) : verdict := if b then RejectNew else KeepBoth.

(** Equal sort order, outer relations and, fuzzily, costs: keep just one. *)
Definition tie_break (new old : Path) (rest : verdict) : verdict :=
  if parallel_safe new && negb (parallel_safe old) then RemoveOld
  else if negb (parallel_safe new) && parallel_safe old then RejectNew
  else if (path_rows new <? path_rows old)%D then RemoveOld
  else if (path_rows new >? path_rows old)%D then RejectNew
  else rest.

(** The equal-cost branch both routines share. *)
Definition equal_verdict (new old : Path) (keyscmp : PathKeysComparison) (outercmp : BMS_Comparison) (rest : verdict) : verdict :=
  match keyscmp with
  | PATHKEYS_BETTER1 => remove_if (outer_le1 outercmp && no_more_rows new old)
  | PATHKEYS_BETTER2 => reject_if (outer_le2 outercmp && no_more_rows old new)
  | _ =>
      match outercmp with
      | BMS_EQUAL => tie_break new old rest
      | BMS_SUBSET1 => remove_if (no_more_rows new old)
      | BMS_SUBSET2 => reject_if (no_more_rows old new)
      | BMS_DIFFERENT => KeepBoth
      end
  end.

Definition add_path_verdict (rel : RelOptInfo) (new old : Path) : verdict :=
  let costcmp := compare_path_costs_fuzzily rel new old STD_FUZZ_FACTOR in
  let keyscmp := compare_pathkeys (effective_pathkeys new) (effective_pathkeys old) in
  let outercmp := bms_subset_compare (PATH_REQ_OUTER new) (PATH_REQ_OUTER old) in
  match costcmp, keyscmp with
  | COSTS_DIFFERENT, _ | _, PATHKEYS_DIFFERENT => KeepBoth
  | COSTS_EQUAL, _ =>
      equal_verdict new old keyscmp outercmp
        (match compare_path_costs_fuzzily rel new old (dlit 10000000001 10000000000) with
         | COSTS_BETTER1 => RemoveOld | _ => RejectNew end)
  | COSTS_BETTER1, PATHKEYS_BETTER2 => KeepBoth
  | COSTS_BETTER1, _ => remove_if (outer_le1 outercmp && no_more_rows new old)
  | COSTS_BETTER2, PATHKEYS_BETTER1 => KeepBoth
  | COSTS_BETTER2, _ => reject_if (outer_le2 outercmp && no_more_rows old new)
  end.

Definition add_path_explore_verdict (rel : RelOptInfo) (new old : Path) : verdict :=
  let costcmp := compare_path_costs_fuzzily rel new old STD_FUZZ_FACTOR in
  let evcmp := compare_path_explore_value_fuzzily new old (dlit 11 10) in
  let keyscmp := compare_pathkeys (effective_pathkeys new) (effective_pathkeys old) in
  let outercmp := bms_subset_compare (PATH_REQ_OUTER new) (PATH_REQ_OUTER old) in
  match costcmp, keyscmp with
  | COSTS_DIFFERENT, _ | _, PATHKEYS_DIFFERENT => KeepBoth
  | COSTS_EQUAL, _ =>
      if (evcmp =? 0)%Z then
        equal_verdict new old keyscmp outercmp
          (match compare_path_costs_fuzzily rel new old (dlit 10000000001 10000000000) with
           | COSTS_BETTER1 => RemoveOld
           | COSTS_BETTER2 => RejectNew
           | _ => if (compare_path_explore_value_fuzzily new old (dlit 101 100) =? 1)%Z then RemoveOld else RejectNew
           end)
      else if (evcmp =? 1)%Z then
        match keyscmp with
        | PATHKEYS_BETTER2 => KeepBoth
        | _ => remove_if (outer_le1 outercmp && no_more_rows new old &&
                 negb (bool_decide (compare_path_costs_fuzzily rel new old (dlit 100009 100000) = COSTS_BETTER2)))
        end
      else
        match keyscmp with
        | PATHKEYS_BETTER1 => KeepBoth
        | _ => reject_if (outer_le2 outercmp && no_more_rows old new &&
                 negb (bool_decide (compare_path_costs_fuzzily rel new old (dlit 100009 100000) = COSTS_BETTER1)))
        end
  | COSTS_BETTER1, PATHKEYS_BETTER2 => KeepBoth
  | COSTS_BETTER1, _ => remove_if ((0 <=? evcmp)%Z && outer_le1 outercmp && no_more_rows new old)
  | COSTS_BETTER2, PATHKEYS_BETTER1 => KeepBoth
  | COSTS_BETTER2, _ => reject_if ((evcmp <=? 0)%Z && outer_le2 outercmp && no_more_rows old new)
  end.

(** The loop over the old paths: [done] are the ones kept so far, [after] is the
    number of paths in front of the place of the new one. *)
Fixpoint add_scan (decide_path : Path → verdict) (new : Path) (todo done : list Path) (after : nat)
  : bool * list Path * nat :=
  match todo with
  | [] => (true, done, after)
  | old :: todo =>
      match decide_path old with
      | RemoveOld => add_scan decide_path new todo done after
      | RejectNew => (false, done ++ old :: todo, after)
      | KeepBoth =>
          add_scan decide_path new todo (done ++ [old])
            (if (total_cost new >=? total_cost old)%D then length done + 1 else after)
      end
  end.

(** [lappend_cell(pathlist, insert_after, new)] or [lcons(new, pathlist)]. *)
Definition insert_path (l : list Path) (after : nat) (new : Path) : list Path := take after l ++ new :: drop after l.

Definition add_path (rel : RelOptInfo) (new : Path) : RelOptInfo :=
  let '(accept_new, l, after) := add_scan (add_path_verdict rel new) new (pathlist rel) [] 0 in
  set_pathlist rel (if accept_new then insert_path l after new else l) (best_cost rel).

Definition add_path_explore (rel : RelOptInfo) (new : Path) (best_pred_cost prune_rate : double) : RelOptInfo :=
  let empty := match pathlist rel with [] => true | _ => false end in
  let cheaper := (total_cost new <? best_cost rel)%D in
  let bc := if empty || cheaper then total_cost new else best_cost rel in
  let '(need_continue, accept_new) :=
    if deq best_pred_cost d0 || empty || cheaper then (true, true)
    else if (best_pred_cost >? d0)%D then
      if (total_cost new <=? best_pred_cost * prune_rate)%D then (true, true) else (false, false)
    else (false, true) in
  let '(accept_new, l, after) :=
    if need_continue : bool then add_scan (add_path_explore_verdict rel new) new (pathlist rel) [] 0
    else (accept_new, pathlist rel, 0) in
  set_pathlist rel (if accept_new : bool then insert_path l after new else l) bc.

(** *** Prechecks *)

(** The [foreach] of both prechecks; [loses] is the extra condition on explore
    values.  The list is sorted, so the search ends at the first dearer path. *)
Fixpoint precheck_scan (loses : Path → bool) (startup total : double) (keys : list nat) (required_outer : Bitmapset)
    (consider : bool) (l : list Path) : bool :=
  match l with
  | [] => true
  | old :: l =>
      if (total >? total_cost old * STD_FUZZ_FACTOR)%D then
        if ((startup >? startup_cost old * STD_FUZZ_FACTOR)%D || negb consider) && loses old &&
           match compare_pathkeys keys (effective_pathkeys old) with
           | PATHKEYS_EQUAL | PATHKEYS_BETTER2 => bms_equal required_outer (PATH_REQ_OUTER old)
           | _ => false
           end
        then false else precheck_scan loses startup total keys required_outer consider l
      else true
  end.

Definition precheck_with (loses : Path → bool) (rel : RelOptInfo) (startup total : double) (keys : list nat)
    (required_outer : Bitmapset) : bool :=
  precheck_scan loses startup total (match required_outer with Some _ => [] | None => keys end) required_outer
    (match required_outer with Some _ => consider_param_startup rel | None => consider_startup rel end) (pathlist rel).

Definition add_path_precheck (rel : RelOptInfo) (startup total : double) (keys : list nat) (required_outer : Bitmapset) : bool :=
  precheck_with (fun _ => true) rel startup total keys required_outer.

Definition add_path_precheck_explore (rel : RelOptInfo) (startup total : double) (keys : list nat)
    (required_outer : Bitmapset) (ev : double) : bool :=
  precheck_with (fun old => ev <=? explore_value old)%D rel startup total keys required_outer.

(** ** The best paths of a relation *)

(** The new best of the parameterized paths. *)
Definition better_param (path best : Path) : Path :=
  match bms_subset_compare (PATH_REQ_OUTER path) (PATH_REQ_OUTER best) with
  | BMS_EQUAL => if (compare_path_costs path best TOTAL_COST <? 0)%Z then path else best
  | BMS_SUBSET1 => path
  | BMS_SUBSET2 | BMS_DIFFERENT => best
  end.

(** The new cheapest of the others; of two equal ones the better sorted. *)
Definition cheaper_of (criterion : CostSelector) (best path : Path) : Path :=
  let cmp := compare_path_costs best path criterion in
  if (0 <? cmp)%Z || ((cmp =? 0)%Z && bool_decide (compare_pathkeys (pathkeys best) (pathkeys path) = PATHKEYS_BETTER2))
  then path else best.

(** The state of the loop over [pathlist]. *)
Record cheapest_state : Type := mkCheapest {
  c_startup : option Path;
  c_total : option Path;
  c_param : option Path;
  c_params : list Path;
  c_front : list Path
}.

(** The inner loop of [set_cheapest_explore]: [done] are the paths of the front
    that stay; the result is whether the new path joins them. *)
Fixpoint front_scan (path : Path) (todo done : list Path) : bool * list Path :=
  match todo with
  | [] => (true, done)
  | oldpath :: todo =>
      let cmp := compare_path_costs path oldpath TOTAL_COST in
      if (0 <? cmp)%Z then
        if (explore_value path <=? explore_value oldpath)%D then (false, done ++ oldpath :: todo)
        else front_scan path todo (done ++ [oldpath])
      else if (cmp =? 0)%Z then
        if (explore_value path <? explore_value oldpath)%D then (false, done ++ oldpath :: todo)
        else if (explore_value path >? explore_value oldpath)%D then front_scan path todo done
        else front_scan path todo (done ++ [oldpath])
      else
        if (explore_value path >=? explore_value oldpath)%D then front_scan path todo done
        else front_scan path todo (done ++ [oldpath])
  end.

Definition add_to_front (front : list Path) (path : Path) : list Path :=
  let '(addnew, front) := front_scan path front [] in if addnew then front ++ [path] else front.

Definition param_step (path : Path) (st : cheapest_state) : cheapest_state :=
  let '(mkCheapest s t b ps f) := st in
  mkCheapest s t (match t, b with
                  | Some _, _ => b
                  | None, None => Some path
                  | None, Some best => Some (better_param path best)
                  end) (ps ++ [path]) f.

(** One round; [explore] says which of the two routines it is. *)
Definition cheapest_step (explore : bool) (st : cheapest_state) (path : Path) : cheapest_state :=
  match param_info path with
  | Some _ => param_step path st
  | None =>
      let '(mkCheapest s t b ps f) := st in
      match s, t with
      | Some cs, Some ct =>
          mkCheapest (Some (cheaper_of STARTUP_COST cs path)) (Some (cheaper_of TOTAL_COST ct path)) b ps
            (if explore then add_to_front f path else f)
      | _, _ => mkCheapest (Some path) (Some path) b ps (if explore then f ++ [path] else f)
      end
  end.

Definition set_cheapest_with (explore : bool) (rel : RelOptInfo) : res RelOptInfo :=
  match pathlist rel with
  | [] => Err (Fault_elog "could not devise a query plan for the given query"%string)
  | l =>
      let '(mkCheapest s t b ps f) := foldl (cheapest_step explore) (mkCheapest None None None [] []) l in
      let ps := match t with Some ct => ct :: ps | None => ps end in
      let f := if explore then match f, b with [], Some bp => [bp] | _, _ => f end else cheapest_cost_explore_pathlist rel in
      Ok (mkRel (consider_startup rel) (consider_param_startup rel) (pathlist rel) (best_cost rel) s
            (match t with Some ct => Some ct | None => b end) ps f)
  end.

Definition set_cheapest (rel : RelOptInfo) : res RelOptInfo := set_cheapest_with false rel.
Definition set_cheapest_explore (rel : RelOptInfo) : res RelOptInfo := set_cheapest_with true rel.

(** ** The plan *)

(** [path == rel->cheapest_total_path || compare(best, path) <= 0]: the loop
    both routines use for the cheapest path of a fraction of the rows. *)
Definition fractional_best (total : Path) (fraction : double) (l : list Path) : Path :=
  foldl (fun best path =>
    if (path_id path =? path_id total) || (compare_fractional_path_costs best path fraction <=? 0)%Z then best else path)
    total l.

(** Convert a number of rows to a fraction. *)
Definition row_fraction (total : Path) (tuple_fraction : double) : double :=
  if ((tuple_fraction >=? d_of_Z 1)%D && (path_rows total >? d0)%D) then (tuple_fraction / path_rows total)%D
  else tuple_fraction.

Definition get_cheapest_fractional_path (rel : RelOptInfo) (tuple_fraction : double) : option Path :=
  total ← cheapest_total_path rel;
  if (tuple_fraction <=? d0)%D then Some total
  else Some (fractional_best total (row_fraction total tuple_fraction) (pathlist rel)).

(** The cheaper of two paths of the same explore value. *)
Definition cheaper_total (path best : Path) : Path :=
  if (total_cost path <? total_cost best)%D then path
  else if deq (total_cost path) (total_cost best) && (startup_cost path <? startup_cost best)%D then path else best.

Definition cheaper_fraction (fraction : double) (path best : Path) : Path :=
  let cmp := compare_fractional_path_costs path best fraction in
  if (cmp <? 0)%Z then path else if (cmp =? 0)%Z then cheaper_total path best else best.

(** One round of the search for the best explore value among the affordable paths. *)
Definition explore_step (affordable : Path → bool) (cheaper : Path → Path → Path) (best path : Path) : Path :=
  if affordable path then
    if (explore_value path >? explore_value best)%D then path
    else if deq (explore_value path) (explore_value best) then cheaper path best else best
  else best.

Definition get_cheapest_explore_fractional_path (rel : RelOptInfo) (tuple_fraction rate : double) : option Path :=
  total ← cheapest_total_path rel;
  let worth (best path : Path) := (explore_value path >=? explore_value best * (d_of_Z 1 + d_of_Z 0))%D in
  if (tuple_fraction <=? d0)%D then
    Some (foldl (explore_step (fun path => (total_cost path <=? total_cost total * (d_of_Z 1 + rate))%D && worth total path)
                   cheaper_total) total (pathlist rel))
  else
    let fraction := row_fraction total tuple_fraction in
    let best := fractional_best total fraction (pathlist rel) in
    Some (foldl (explore_step (fun path => (fractional_cost path fraction <=? fractional_cost best fraction * (d_of_Z 1 + rate))%D
                                           && worth best path)
                   (cheaper_fraction fraction)) best (pathlist rel)).

(** The two other ways of choosing the plan, with an estimate of the best cost. *)
Definition cheaper_total_only (path best : Path) : Path := if (total_cost path <? total_cost best)%D then path else best.
Definition cheaper_fraction_last (fraction : double) (path best : Path) : Path :=
  if (compare_fractional_path_costs path best fraction <=? 0)%Z then path else best.

Definition get_cheapest_explore_fractional_path2 (rel : RelOptInfo) (tuple_fraction rate1 best_estimated_cost rate2 : double)
  : option Path :=
  total ← cheapest_total_path rel;
  let estimated (path : Path) := (total_cost path <=? best_estimated_cost * (d_of_Z 1 + rate2))%D in
  if (tuple_fraction <=? d0)%D then
    Some (foldl (explore_step (fun path => (total_cost path <=? total_cost total * (d_of_Z 1 + rate1))%D && estimated path)
                   cheaper_total_only) total (cheapest_cost_explore_pathlist rel))
  else
    let fraction := row_fraction total tuple_fraction in
    let best := fractional_best total fraction (pathlist rel) in
    Some (foldl (explore_step (fun path => (fractional_cost path fraction <=? fractional_cost best fraction * (d_of_Z 1 + rate1))%D
                                           && estimated path)
                   (cheaper_fraction_last fraction)) best (pathlist rel)).

Definition get_cheapest_explore_fractional_path3 (rel : RelOptInfo) (tuple_fraction rate1 best_estimated_cost rate2 : double)
  : option Path :=
  total ← cheapest_total_path rel;
  let worth (best path : Path) := (explore_value path >=? explore_value best * (d_of_Z 1 + dlit 1 2))%D in
  if (tuple_fraction <=? d0)%D then
    let final_cost := ((total_cost total * rate2 + best_estimated_cost * (d_of_Z 1 - rate2)) * (d_of_Z 1 + rate1))%D in
    Some (foldl (explore_step (fun path => (total_cost path <=? final_cost)%D && worth total path)
                   cheaper_total_only) total (pathlist rel))
  else
    let fraction := row_fraction total tuple_fraction in
    let best := fractional_best total fraction (pathlist rel) in
    Some (foldl (explore_step (fun path => (fractional_cost path fraction <=? fractional_cost best fraction * (d_of_Z 1 + rate1))%D
                                           && worth best path)
                   (cheaper_fraction_last fraction)) best (pathlist rel)).

(** ** Orders *)

(** The costs and the explore value are numbers. *)
Record path_ok (p : Path) : Prop := {
  ok_total : is_nan (total_cost p) = false;
  ok_startup : is_nan (startup_cost p) = false;
  ok_explore : is_nan (explore_value p) = false
}.

Section doubles.
Local Notation nn x := (is_nan x = false).

Lemma dle_trans x y z : nn y → dlt y x = false → dlt z y = false → dlt z x = false.
Proof. intros Hy Hyx Hzy. by apply (dlt_false_trans z y x). Qed.

Lemma dle_lt_trans x y z : nn x → nn y → nn z → dlt y x = false → dlt y z = true → dlt x z = true.
Proof.
  intros Hx Hy Hz Hyx Hyz. destruct (dlt x z) eqn:E; [done|]. exfalso.
  pose proof (dlt_false_trans y x z Hx Hyx E). congruence.
Qed.

Lemma dlt_le_trans x y z : nn x → nn y → nn z → dlt x y = true → dlt z y = false → dlt x z = true.
Proof.
  intros Hx Hy Hz Hxy Hzy. destruct (dlt x z) eqn:E; [done|]. exfalso.
  pose proof (dlt_false_trans x z y Hz E Hzy). congruence.
Qed.
End doubles.

(** *** The order by total cost, then startup cost *)
Notation cmp p q := (compare_path_costs p q TOTAL_COST).

Definition cle (p q : Path) : Prop := (cmp p q ≤ 0)%Z.

Lemma cmp_antisym p q : cmp q p = (- cmp p q)%Z.
Proof.
  unfold compare_path_costs.
  destruct (dlt (total_cost p) (total_cost q)) eqn:E1; [by rewrite (dlt_asym _ _ E1)|].
  destruct (dlt (total_cost q) (total_cost p)) eqn:E2; [done|].
  destruct (dlt (startup_cost p) (startup_cost q)) eqn:E3; [by rewrite (dlt_asym _ _ E3)|].
  by destruct (dlt (startup_cost q) (startup_cost p)).
Qed.

Lemma cmp_range p q : cmp p q = (-1)%Z ∨ cmp p q = 0%Z ∨ cmp p q = 1%Z.
Proof. unfold compare_path_costs. repeat case_match; auto. Qed.

Lemma cle_spec p q :
  cle p q ↔ dlt (total_cost q) (total_cost p) = false ∧
            (dlt (total_cost p) (total_cost q) = true ∨ dlt (startup_cost q) (startup_cost p) = false).
Proof.
  unfold cle, compare_path_costs.
  destruct (dlt (total_cost p) (total_cost q)) eqn:E1; [rewrite (dlt_asym _ _ E1); naive_solver lia|].
  destruct (dlt (total_cost q) (total_cost p)) eqn:E2; [naive_solver lia|].
  destruct (dlt (startup_cost p) (startup_cost q)) eqn:E3; [rewrite (dlt_asym _ _ E3); naive_solver lia|].
  destruct (dlt (startup_cost q) (startup_cost p)); naive_solver lia.
Qed.

Lemma cle_refl p : cle p p.
Proof. apply cle_spec. rewrite !dlt_irrefl. auto. Qed.

Lemma cle_trans p q r : path_ok p → path_ok q → path_ok r → cle p q → cle q r → cle p r.
Proof.
  intros [P1 P2 _] [Q1 Q2 _] [R1 R2 _]. rewrite !cle_spec. intros [A1 A2] [B1 B2].
  split; [by eapply (dle_trans _ (total_cost q))|].
  destruct A2 as [A2|A2]; [left; by eapply (dlt_le_trans _ (total_cost q))|].
  destruct B2 as [B2|B2]; [left; by eapply (dle_lt_trans _ (total_cost q))|]. right. by eapply (dle_trans _ (startup_cost q)).
Qed.

Lemma cle_total p q : cle p q ∨ cle q p.
Proof. unfold cle. pose proof (cmp_antisym p q). lia. Qed.

(** *** Domination on cost and explore value *)

(** [p] is no dearer and no less explored than [q], and better in one of them. *)
Definition sdom (p q : Path) : bool :=
  if (cmp p q <? 0)%Z then (explore_value q <=? explore_value p)%D
  else if (cmp p q =? 0)%Z then (explore_value q <? explore_value p)%D else false.

Lemma sdom_spec p q :
  path_ok p → path_ok q →
  (sdom p q = true ↔ cle p q ∧ dlt (explore_value p) (explore_value q) = false ∧
                     (¬ cle q p ∨ dlt (explore_value q) (explore_value p) = true)).
Proof.
  intros [_ _ P3] [_ _ Q3]. unfold sdom, cle. rewrite (cmp_antisym p q).
  assert (Hle : dle (explore_value q) (explore_value p) = negb (dlt (explore_value p) (explore_value q))) by (by apply dle_not_lt).
  destruct (cmp_range p q) as [->|[->| ->]]; simpl.
  - rewrite Hle. destruct (dlt (explore_value p) _); simpl; naive_solver lia.
  - destruct (dlt (explore_value q) (explore_value p)) eqn:E; [rewrite (dlt_asym _ _ E)|]; naive_solver lia.
  - naive_solver lia.
Qed.

Lemma sdom_irrefl p : sdom p p = false.
Proof.
  unfold sdom. assert (E : cmp p p = 0%Z) by (pose proof (cmp_antisym p p); lia). rewrite E. simpl. apply dlt_irrefl.
Qed.

Lemma sdom_trans p q r : path_ok p → path_ok q → path_ok r → sdom p q = true → sdom q r = true → sdom p r = true.
Proof.
  intros Hp Hq Hr. rewrite !sdom_spec by done. intros (A1 & A2 & A3) (B1 & B2 & B3).
  pose proof Hp as [_ _ P3]. pose proof Hq as [_ _ Q3]. pose proof Hr as [_ _ R3]. split_and!.
  - by eapply (cle_trans p q r).
  - by eapply (dle_trans _ (explore_value q)).
  - destruct A3 as [A3|A3]; [left; intros H; apply A3; by eapply (cle_trans q r p)|].
    right. by eapply (dle_lt_trans _ (explore_value q)).
Qed.

(** *** The front of a list *)
Definition dominated_by (l : list Path) (p : Path) : bool := existsb (fun q => sdom q p) l.

(** The paths no other one dominates, in their order. *)
Definition pareto (l : list Path) : list Path := filter (fun p => dominated_by l p = false) l.

Lemma dominated_by_true l p : dominated_by l p = true ↔ ∃ q, q ∈ l ∧ sdom q p = true.
Proof.
  unfold dominated_by. rewrite existsb_exists. split; intros (q & Hq & H); exists q; (split; [|done]); by apply list_elem_of_In.
Qed.

Lemma dominated_by_false l p : dominated_by l p = false ↔ ∀ q, q ∈ l → sdom q p = false.
Proof.
  rewrite <- not_true_iff_false, dominated_by_true. split.
  - intros H q Hq. apply not_true_iff_false. intros Hs. apply H. eauto.
  - intros H (q & Hq & Hs). by rewrite (H q Hq) in Hs.
Qed.

Lemma elem_pareto l p : p ∈ pareto l ↔ p ∈ l ∧ ∀ q, q ∈ l → sdom q p = false.
Proof. unfold pareto. rewrite list_elem_of_filter, dominated_by_false. naive_solver. Qed.

(** A dominated path is dominated by one of the front. *)
Lemma pareto_dominates l p :
  Forall path_ok l → path_ok p → dominated_by l p = true → ∃ q, q ∈ pareto l ∧ sdom q p = true.
Proof.
  intros Hl Hp. induction l as [|x l IH] using rev_ind; [done|]. rewrite Forall_app, Forall_singleton in Hl. destruct Hl as [Hl Hx].
  intros (q & Hq & Hs)%dominated_by_true.
  assert (Hmax : ∀ q, q ∈ pareto l → sdom q p = true → sdom x q = false → q ∈ pareto (l ++ [x])).
  { intros q0 [H1 H2]%elem_pareto Hs0 Hx0. apply elem_pareto. split; [set_solver|]. intros r [Hr| ->%list_elem_of_singleton]%elem_of_app; auto. }
  destruct (dominated_by l p) eqn:E.
  - destruct (IH Hl eq_refl) as (q0 & Hq0 & Hs0). destruct (sdom x q0) eqn:Ex; [|by eauto].
    assert (Hq0ok : path_ok q0) by (apply elem_pareto in Hq0 as [Hq0 _]; by eapply (proj1 (Forall_forall _ _) Hl)).
    destruct (dominated_by (l ++ [x]) x) eqn:Edx.
    + apply dominated_by_true in Edx as (r & [Hr| ->%list_elem_of_singleton]%elem_of_app & Hsr); [|by rewrite sdom_irrefl in Hsr].
      apply elem_pareto in Hq0 as [Hq0 Hnd]. assert (Hrok : path_ok r) by (by eapply (proj1 (Forall_forall _ _) Hl)).
      pose proof (sdom_trans r x q0 Hrok Hx Hq0ok Hsr Ex) as Hc. by rewrite (Hnd r Hr) in Hc.
    + exists x. split; [|by eapply (sdom_trans x q0 p)]. apply elem_pareto. split; [set_solver|]. by apply dominated_by_false.
  - apply elem_of_app in Hq as [Hq| ->%list_elem_of_singleton].
    { rewrite dominated_by_false in E. by rewrite (E q Hq) in Hs. }
    exists x. split; [|done]. apply elem_pareto. split; [set_solver|].
    intros r [Hr| ->%list_elem_of_singleton]%elem_of_app; [|apply sdom_irrefl].
    apply not_true_iff_false. intros Hrx. rewrite dominated_by_false in E.
    assert (Hrok : path_ok r) by (by eapply (proj1 (Forall_forall _ _) Hl)).
    pose proof (sdom_trans r x p Hrok Hx Hp Hrx Hs) as Hc. by rewrite (E r Hr) in Hc.
Qed.

Lemma pareto_snoc l x :
  pareto (l ++ [x]) = filter (fun p => sdom x p = false) (pareto l) ++ (if dominated_by l x then [] else [x]).
Proof.
  unfold pareto. rewrite filter_app. f_equal.
  - rewrite list_filter_filter. apply filter_iff_in. intros p _. rewrite !dominated_by_false. split.
    + intros H. split; [apply H; set_solver | intros q Hq; apply H; set_solver].
    + intros [H1 H2] q [Hq| ->%list_elem_of_singleton]%elem_of_app; auto.
  - assert (E : dominated_by (l ++ [x]) x = dominated_by l x).
    { unfold dominated_by. rewrite existsb_app. cbn [existsb]. by rewrite sdom_irrefl, !orb_false_r. }
    rewrite filter_cons, filter_nil, E. by destruct (dominated_by l x).
Qed.

(** What the inner loop of [set_cheapest_explore] does with one path of the front. *)
Lemma front_scan_cons path old todo kept :
  path_ok path → path_ok old →
  front_scan path (old :: todo) kept =
    if sdom old path then (false, kept ++ old :: todo)
    else if sdom path old then front_scan path todo kept else front_scan path todo (kept ++ [old]).
Proof.
  intros [_ _ P3] [_ _ O3]. cbn [front_scan]. unfold sdom. rewrite (cmp_antisym path old).
  destruct (cmp_range path old) as [->|[->| ->]]; simpl.
  - done.
  - destruct (dlt (explore_value path) (explore_value old)) eqn:E; [done|]. by destruct (dlt (explore_value old) _).
  - by destruct (dle _ _).
Qed.

Lemma front_scan_accept path todo kept :
  path_ok path → Forall path_ok todo → dominated_by todo path = false →
  front_scan path todo kept = (true, kept ++ filter (fun p => sdom path p = false) todo).
Proof.
  intros Hp Hl. revert kept. induction Hl as [|old todo Ho Hl IH]; intros kept Hd; [by rewrite app_nil_r|].
  rewrite front_scan_cons by done. unfold dominated_by in Hd. cbn [existsb] in Hd. apply orb_false_iff in Hd as [Hd1 Hd2].
  rewrite Hd1, filter_cons. destruct (sdom path old) eqn:E; (case_decide; [try done|try done]).
  - by rewrite IH.
  - rewrite IH by done. by rewrite <- app_assoc.
Qed.

Lemma front_scan_reject path todo kept :
  path_ok path → Forall path_ok todo → dominated_by todo path = true → (∀ p, p ∈ todo → sdom path p = false) →
  front_scan path todo kept = (false, kept ++ todo).
Proof.
  intros Hp Hl. revert kept. induction Hl as [|old todo Ho Hl IH]; intros kept Hd Hn; [done|].
  rewrite front_scan_cons by done. destruct (sdom old path) eqn:E; [done|]. rewrite (Hn old) by set_solver.
  rewrite IH; [by rewrite <- app_assoc | | set_solver]. unfold dominated_by in Hd. cbn [existsb] in Hd. by rewrite E in Hd.
Qed.

Lemma add_to_front_ok l x :
  Forall path_ok l → path_ok x → add_to_front (pareto l) x = pareto (l ++ [x]).
Proof.
  intros Hl Hx. assert (Hf : Forall path_ok (pareto l)).
  { apply Forall_forall. intros p [Hp _]%elem_pareto. by eapply (proj1 (Forall_forall _ _) Hl). }
  unfold add_to_front. rewrite pareto_snoc. destruct (dominated_by l x) eqn:E.
  - destruct (pareto_dominates l x Hl Hx E) as (q & Hq & Hs).
    assert (Hnone : ∀ p, p ∈ pareto l → sdom x p = false).
    { intros p [Hp Hnd]%elem_pareto. apply not_true_iff_false. intros Hxp.
      assert (Hqok : path_ok q) by (by eapply (proj1 (Forall_forall _ _) Hf)).
      apply elem_pareto in Hq as [Hq _]. assert (Hpok : path_ok p) by (by eapply (proj1 (Forall_forall _ _) Hl)).
      pose proof (sdom_trans q x p Hqok Hx Hpok Hs Hxp) as Hc. by rewrite (Hnd q Hq) in Hc. }
    rewrite front_scan_reject; [|done | done | by apply dominated_by_true; eauto | done].
    simpl. rewrite app_nil_r. symmetry. by apply filter_all.
  - rewrite front_scan_accept; [done | done | done|]. apply dominated_by_false. intros q [Hq _]%elem_pareto.
    rewrite dominated_by_false in E. by apply E.
Qed.

(** ** The best paths of a relation *)
Definition unparam (p : Path) : bool := match param_info p with None => true | Some _ => false end.
Definition unparams (l : list Path) : list Path := filter (fun p => unparam p = true) l.

Lemma unparams_snoc l x : unparams (l ++ [x]) = unparams l ++ (if unparam x then [x] else []).
Proof. unfold unparams. rewrite filter_app, filter_cons, filter_nil. by destruct (unparam x). Qed.

(** The cheapest path seen so far. *)
Definition cheapest_of (l : list Path) (t : option Path) : Prop :=
  match t with
  | None => l = []
  | Some p => p ∈ l ∧ ∀ q, q ∈ l → cle p q
  end.

Lemma cheaper_of_total best path :
  (cheaper_of TOTAL_COST best path = best ∧ cle best path) ∨ (cheaper_of TOTAL_COST best path = path ∧ cle path best).
Proof.
  unfold cheaper_of, cle. rewrite (cmp_antisym best path). destruct (cmp_range best path) as [->|[->| ->]]; simpl; [auto with lia | | auto with lia].
  case_bool_decide; auto with lia.
Qed.

Lemma cheapest_of_step l best path :
  Forall path_ok l → path_ok path → cheapest_of l (Some best) → cheapest_of (l ++ [path]) (Some (cheaper_of TOTAL_COST best path)).
Proof.
  intros Hl Hp [Hb Hmin]. assert (Hbok : path_ok best) by (by eapply (proj1 (Forall_forall _ _) Hl)).
  destruct (cheaper_of_total best path) as [[-> Hc]|[-> Hc]]; split; [set_solver | | set_solver |];
    intros q [Hq| ->%list_elem_of_singleton]%elem_of_app; auto using cle_refl.
  eapply (cle_trans path best q); [done | done | by eapply (proj1 (Forall_forall _ _) Hl) | done | auto].
Qed.

(** The invariant of the loop: after the paths [l] the front is the one of the
    paths without parameters among them. *)
Record cheapest_inv (explore : bool) (l : list Path) (st : cheapest_state) : Prop := {
  inv_front : c_front st = if explore then pareto (unparams l) else [];
  inv_total : cheapest_of (unparams l) (c_total st);
  inv_startup : is_Some (c_startup st) ↔ is_Some (c_total st);
  inv_params : c_params st = filter (fun p => unparam p = false) l;
  inv_best : unparams l = [] → match c_param st with None => l = [] | Some p => p ∈ l end
}.

Lemma better_param_in path best : better_param path best = path ∨ better_param path best = best.
Proof. unfold better_param. repeat case_match; auto. Qed.

Lemma cheapest_step_inv explore l st path :
  Forall path_ok l → path_ok path → cheapest_inv explore l st → cheapest_inv explore (l ++ [path]) (cheapest_step explore st path).
Proof.
  intros Hl Hp [Hf Ht Hs Hps Hb]. assert (Hu : Forall path_ok (unparams l)).
  { apply Forall_forall. intros p [_ Hp']%list_elem_of_filter. by eapply (proj1 (Forall_forall _ _) Hl). }
  assert (Hpar : filter (fun p => unparam p = false) (l ++ [path]) =
    filter (fun p => unparam p = false) l ++ (if unparam path then [] else [path])).
  { rewrite filter_app, filter_cons, filter_nil. by destruct (unparam path). }
  unfold cheapest_step. destruct st as [s t b ps f]. simpl in *. destruct (param_info path) as [r|] eqn:Ep.
  - assert (Eu : unparam path = false) by (unfold unparam; by rewrite Ep). rewrite Eu in Hpar.
    split; simpl; rewrite ?unparams_snoc, ?Eu, ?app_nil_r; try done.
    + by rewrite Hps, Hpar.
    + intros Hnil. destruct t as [t|]; [destruct Ht as [Ht _]; rewrite Hnil in Ht; by apply elem_of_nil in Ht|].
      destruct b as [b|]; [|set_solver]. specialize (Hb Hnil). destruct (better_param_in path b) as [-> | ->]; set_solver.
  - assert (Eu : unparam path = true) by (unfold unparam; by rewrite Ep). rewrite Eu, app_nil_r in Hpar.
    destruct t as [ct|].
    + destruct s as [cs|]; [|by destruct (proj2 Hs ltac:(eauto))].
      split; simpl; rewrite ?unparams_snoc, ?Eu; [|by apply cheapest_of_step | by split; eauto | by rewrite Hps, Hpar | ].
      * destruct explore; [|done]. by rewrite Hf, add_to_front_ok.
      * intros [? [=]]%app_nil.
    + simpl in Ht. destruct s as [cs|]; [by destruct (proj1 Hs ltac:(eauto))|].
      split; simpl; rewrite ?unparams_snoc, ?Eu, ?Ht; [| | by split; eauto | by rewrite Hps, Hpar |].
      * destruct explore; [|done]. rewrite Hf, Ht. simpl. unfold pareto, dominated_by. simpl. rewrite filter_cons, filter_nil.
        simpl. by rewrite sdom_irrefl.
      * split; [set_solver|]. intros q ->%list_elem_of_singleton. apply cle_refl.
      * intros [=].
Qed.

Lemma cheapest_fold_inv explore l :
  Forall path_ok l → cheapest_inv explore l (foldl (cheapest_step explore) (mkCheapest None None None [] []) l).
Proof.
  induction l as [|x l IH] using rev_ind; intros Hl; [by split; destruct explore|]. rewrite Forall_app, Forall_singleton in Hl.
  destruct Hl as [Hl Hx]. rewrite foldl_app. by apply cheapest_step_inv; [| |apply IH].
Qed.

(** *** Examples *)

(** A cheap path, a dear one worth exploring, a dear one that is not. *)
Definition path_a : Path := mkPath 1 None [] true 0 (d_of_Z 10) (d_of_Z 1) (d_of_Z 100) (d_of_Z 1).
Definition path_b : Path := mkPath 2 None [7] true 0 (d_of_Z 10) (d_of_Z 1) (d_of_Z 140) (d_of_Z 3).
Definition path_c : Path := mkPath 3 None [] true 0 (d_of_Z 10) (d_of_Z 2) (d_of_Z 150) (d_of_Z 2).
Definition rel_of (l : list Path) : RelOptInfo := mkRel true true l (d_of_Z 100) None (Some path_a) [] [].

Lemma examples_ok : Forall path_ok [path_a; path_b; path_c].
Proof. repeat constructor. Qed.

Lemma examples_sorted : StronglySorted (fun p q : Path => dlt (total_cost q) (total_cost p) = false) [path_a; path_b].
Proof. repeat constructor. Qed.

(** C22. [set_cheapest_explore] records the front of a relation: when the paths
    have numbers for costs and explore values, it fails exactly on an empty path
    list; otherwise [cheapest_cost_explore_pathlist] is, in the order of the path
    list, the list of the paths without parameters that no other one beats on
    cost and explore value (or one parameterized path if there is no other), and
    [cheapest_total_path] is one of the cheapest of them. *)
Theorem explore_front (rel : RelOptInfo) :
  Forall path_ok (pathlist rel) →
  match set_cheapest_explore rel with
  | Err e => pathlist rel = [] ∧ e = Fault_elog "could not devise a query plan for the given query"%string
  | Ok rel' =>
      pathlist rel' = pathlist rel ∧
      (unparams (pathlist rel) ≠ [] →
        cheapest_cost_explore_pathlist rel' = pareto (unparams (pathlist rel)) ∧
        cheapest_of (unparams (pathlist rel)) (cheapest_total_path rel')) ∧
      (unparams (pathlist rel) = [] →
        ∃ p, p ∈ pathlist rel ∧ cheapest_cost_explore_pathlist rel' = [p] ∧ cheapest_total_path rel' = Some p)
  end.
Proof.
  intros Hl. unfold set_cheapest_explore, set_cheapest_with. destruct (pathlist rel) as [|p0 l0] eqn:El; [done|].
  set (L := p0 :: l0) in *. assert (HL : L ≠ []) by done. clearbody L.
  pose proof (cheapest_fold_inv true L Hl) as [Hf Ht _ _ Hb]. destruct (foldl _ _ _) as [s t b ps f]. simpl in *.
  assert (Hu : Forall path_ok (unparams L)).
  { apply Forall_forall. intros q [_ Hq]%list_elem_of_filter. by eapply (proj1 (Forall_forall _ _) Hl). }
  split_and!; [done | |].
  - intros Hne. subst f. destruct t as [t|]; [|done]. split; [|done]. destruct (pareto (unparams L)) eqn:Ef; [|done]. exfalso.
    destruct Ht as [Ht _]. destruct (dominated_by (unparams L) t) eqn:Ed.
    + destruct (pareto_dominates _ t Hu) as (q & Hq & _); [by eapply (proj1 (Forall_forall _ _) Hu) | done|].
      rewrite Ef in Hq. by apply elem_of_nil in Hq.
    + assert (Hin : t ∈ pareto (unparams L)) by (apply elem_pareto; split; [done | by apply dominated_by_false]).
      rewrite Ef in Hin. by apply elem_of_nil in Hin.
  - intros Hnil. rewrite Hnil in Hf, Ht. simpl in Hf. subst f. specialize (Hb Hnil).
    destruct t as [t|]; [destruct Ht as [Ht _]; by apply elem_of_nil in Ht|]. destruct b as [b|]; [|done]. by exists b.
Qed.

Lemma explore_front_witness :
  Forall path_ok (pathlist (rel_of [path_a; path_b; path_c])) ∧
  ∃ rel', set_cheapest_explore (rel_of [path_a; path_b; path_c]) = Ok rel' ∧
    cheapest_cost_explore_pathlist rel' = [path_a; path_b].
Proof.
  split; [exact examples_ok|].
  pose proof (explore_front (rel_of [path_a; path_b; path_c]) examples_ok) as H.
  destruct (set_cheapest_explore _) as [rel'|e] eqn:E; [|destruct H as [H _]; discriminate].
  exists rel'. split; [reflexivity|]. destruct H as (_ & H & _). destruct H as [-> _]; [discriminate | reflexivity].
Defined.

(** ** The list of paths *)

(** Sorted by total cost, cheaper paths at the front. *)
Notation sorted_paths := (StronglySorted (fun p q : Path => dlt (total_cost q) (total_cost p) = false)).
Notation costed := (fun p : Path => is_nan (total_cost p) = false).

Lemma sorted_app (l1 l2 : list Path) :
  sorted_paths l1 → sorted_paths l2 → (∀ p q, p ∈ l1 → q ∈ l2 → dlt (total_cost q) (total_cost p) = false) → sorted_paths (l1 ++ l2).
Proof.
  intros H1 H2 H. induction H1 as [|p l1 H1 IH Hall]; [done|]. simpl. constructor; [apply IH; set_solver|].
  apply Forall_app. split; [done|]. apply Forall_forall. intros q Hq. apply H; set_solver.
Qed.

Lemma sorted_app_inv (l1 l2 : list Path) :
  sorted_paths (l1 ++ l2) → sorted_paths l1 ∧ sorted_paths l2 ∧ ∀ p q, p ∈ l1 → q ∈ l2 → dlt (total_cost q) (total_cost p) = false.
Proof.
  induction l1 as [|p l1 IH]; simpl; intros H.
  - split_and!; [constructor | done|]. intros p q []%elem_of_nil.
  - inversion H as [|? ? Hs Hall]; subst. destruct (IH Hs) as (H1 & H2 & H3). rewrite Forall_app in Hall. destruct Hall as [Ha Hb].
    split_and!; [by constructor | done|]. intros p' q [->|Hp]%elem_of_cons Hq; [|by apply H3].
    by eapply (proj1 (Forall_forall _ _) Hb).
Qed.

(** The place of the new path among the ones kept. *)
Record place_ok (new : Path) (kept : list Path) (after : nat) : Prop := {
  place_le : after ≤ length kept;
  place_before : ∀ p, p ∈ take after kept → dlt (total_cost new) (total_cost p) = false;
  place_after : ∀ p, p ∈ drop after kept → dlt (total_cost new) (total_cost p) = true
}.

Lemma insert_path_sorted new kept after :
  sorted_paths kept → place_ok new kept after → sorted_paths (insert_path kept after new).
Proof.
  intros Hs [_ Hb Ha]. rewrite <- (take_drop after kept) in Hs. apply sorted_app_inv in Hs as (H1 & H2 & H3).
  apply sorted_app; [done | |].
  - constructor; [done|]. apply Forall_forall. intros q Hq. by apply dlt_asym, Ha.
  - intros p q Hp [->|Hq]%elem_of_cons; [by apply Hb | by apply H3].
Qed.

Lemma place_step new old kept after :
  costed new → costed old → Forall costed kept → sorted_paths (kept ++ [old]) → place_ok new kept after →
  place_ok new (kept ++ [old]) (if dle (total_cost old) (total_cost new) then length kept + 1 else after).
Proof.
  intros Hn Ho Hk Hs [Hle Hb Ha]. rewrite (dle_not_lt _ _ Ho Hn). destruct (dlt (total_cost new) (total_cost old)) eqn:E; simpl.
  - split; [rewrite length_app; simpl; lia | |].
    + intros p. rewrite take_app_le by done. apply Hb.
    + intros p. rewrite drop_app_le by done. intros [Hp| ->%list_elem_of_singleton]%elem_of_app; auto.
  - replace (length kept + 1) with (length (kept ++ [old])) by (rewrite length_app; done). split; [done | |].
    + intros p. rewrite firstn_all. intros [Hp| ->%list_elem_of_singleton]%elem_of_app; [|done].
      apply sorted_app_inv in Hs as (_ & _ & H3). specialize (H3 p old Hp ltac:(set_solver)).
      eapply (dlt_false_trans _ (total_cost old)); done.
    + intros p. rewrite drop_all. intros []%elem_of_nil.
Qed.

(** What the loop does: either it meets an old path that rejects the new one, or
    it keeps the paths that are not removed. *)
Lemma add_scan_ok (f : Path → verdict) new todo kept after :
  costed new → Forall costed (kept ++ todo) → sorted_paths (kept ++ todo) → place_ok new kept after →
  let '(acc, l, a) := add_scan f new todo kept after in
  sorted_paths l ∧
  if acc then l = kept ++ filter (fun p => f p ≠ RemoveOld) todo ∧ place_ok new l a
  else ∃ pre old post, todo = pre ++ old :: post ∧ f old = RejectNew ∧ l = kept ++ filter (fun p => f p ≠ RemoveOld) pre ++ old :: post.
Proof.
  intros Hn. revert kept after. induction todo as [|old todo IH]; intros kept after Hc Hs Hp; cbn [add_scan].
  { rewrite !app_nil_r in *. done. }
  assert (Hrest : sorted_paths (kept ++ todo)).
  { apply sorted_app_inv in Hs as (H1 & H2 & H3). inversion H2; subst. apply sorted_app; [done | done | set_solver]. }
  rewrite Forall_app, Forall_cons in Hc. destruct Hc as (Hk & Ho & Ht).
  destruct (f old) eqn:Ef.
  - assert (Hs' : sorted_paths ((kept ++ [old]) ++ todo)) by (by rewrite <- app_assoc).
    assert (Hp' : place_ok new (kept ++ [old]) (if dle (total_cost old) (total_cost new) then length kept + 1 else after)).
    { apply place_step; [done | done | done | | done]. apply sorted_app_inv in Hs' as (H & _). done. }
    assert (Hc' : Forall costed ((kept ++ [old]) ++ todo)) by (apply Forall_app; split; [apply Forall_app; auto | done]).
    specialize (IH _ _ Hc' Hs' Hp').
    destruct (add_scan _ _ _ _ _) as [[acc l] a]. destruct IH as [IH1 IH2]. split; [done|]. destruct acc.
    + destruct IH2 as [-> ?]. split; [|done]. rewrite filter_cons, decide_True, <- app_assoc by (by rewrite Ef). done.
    + destruct IH2 as (pre & o & post & -> & Hr & ->). exists (old :: pre), o, post. split_and!; [done | done|].
      rewrite filter_cons, decide_True, <- app_assoc by (by rewrite Ef). done.
  - assert (Hc' : Forall costed (kept ++ todo)) by (by apply Forall_app).
    specialize (IH kept after Hc' Hrest Hp). destruct (add_scan _ _ _ _ _) as [[acc l] a].
    destruct IH as [IH1 IH2]. split; [done|]. destruct acc.
    + destruct IH2 as [-> ?]. split; [|done]. rewrite filter_cons, decide_False; [done | naive_solver].
    + destruct IH2 as (pre & o & post & -> & Hr & ->). exists (old :: pre), o, post. split_and!; [done | done|].
      rewrite filter_cons, decide_False; [done | naive_solver].
  - split; [done|]. exists [], old, todo. done.
Qed.

(** *** When one path makes another superfluous *)

(** [x] is within the fuzz of [y], or below it by more than the fuzz. *)
Definition fuzzy_le (f x y : double) : Prop := dlt (y * f)%D x = false ∨ dlt (x * f)%D y = true.

Definition cost_le (rel : RelOptInfo) (p q : Path) : Prop :=
  fuzzy_le STD_FUZZ_FACTOR (total_cost p) (total_cost q) ∧
  (consider_path_startup_cost rel q = true → fuzzy_le STD_FUZZ_FACTOR (startup_cost p) (startup_cost q)).

(** Safer for parallel workers, or as safe with no more rows. *)
Definition rows_le (p q : Path) : Prop :=
  (parallel_safe q = true → parallel_safe p = true) ∧
  (dlt (path_rows q) (path_rows p) = false ∨ (parallel_safe p = true ∧ parallel_safe q = false)).

(** [p] does all that [q] does: it is not dearer, it delivers at least the order
    of [q], it needs no other outer relations, no more rows. *)
Definition beats (rel : RelOptInfo) (p q : Path) : Prop :=
  cost_le rel p q ∧ effective_pathkeys q `prefix_of` effective_pathkeys p ∧
  subset (PATH_REQ_OUTER p) (PATH_REQ_OUTER q) ∧ rows_le p q.

Definition dominates (rel : RelOptInfo) (p q : Path) : Prop :=
  beats rel p q ∧ fuzzy_le (dlit 11 10) (explore_value q) (explore_value p).

Lemma costs_fuzzily_spec rel p q :
  match compare_path_costs_fuzzily rel p q STD_FUZZ_FACTOR with
  | COSTS_EQUAL => cost_le rel p q ∧ cost_le rel q p
  | COSTS_BETTER1 => cost_le rel p q
  | COSTS_BETTER2 => cost_le rel q p
  | COSTS_DIFFERENT => True
  end.
Proof.
  unfold compare_path_costs_fuzzily, cost_le, fuzzy_le.
  destruct (dlt (total_cost q * _)%D (total_cost p)) eqn:E1, (dlt (total_cost p * _)%D (total_cost q)) eqn:E2,
    (consider_path_startup_cost rel p), (consider_path_startup_cost rel q),
    (dlt (startup_cost q * _)%D (startup_cost p)) eqn:E3, (dlt (startup_cost p * _)%D (startup_cost q)) eqn:E4; simpl; auto 8.
Qed.

Lemma explore_fuzzily_spec p q :
  let c := compare_path_explore_value_fuzzily p q (dlit 11 10) in
  ((0 ≤ c)%Z → fuzzy_le (dlit 11 10) (explore_value q) (explore_value p)) ∧
  ((c ≤ 0)%Z → fuzzy_le (dlit 11 10) (explore_value p) (explore_value q)).
Proof. unfold compare_path_explore_value_fuzzily, fuzzy_le. repeat case_match; split; intros; auto; lia. Qed.

Lemma compare_pathkeys_spec k1 k2 :
  match compare_pathkeys k1 k2 with
  | PATHKEYS_EQUAL => k1 = k2
  | PATHKEYS_BETTER1 => k2 `prefix_of` k1
  | PATHKEYS_BETTER2 => k1 `prefix_of` k2
  | PATHKEYS_DIFFERENT => True
  end.
Proof.
  revert k2. induction k1 as [|a k1 IH]; intros [|b k2]; simpl; [done | apply prefix_nil | apply prefix_nil|].
  destruct (a =? b) eqn:E; [|done]. apply Nat.eqb_eq in E as ->. specialize (IH k2).
  destruct (compare_pathkeys k1 k2); [by f_equal | by apply prefix_cons | by apply prefix_cons | done].
Qed.

Lemma outer_spec a b :
  bms_ok a → bms_ok b →
  (outer_le1 (bms_subset_compare a b) = true → subset a b) ∧ (outer_le2 (bms_subset_compare a b) = true → subset b a).
Proof.
  intros Ha Hb. pose proof (subset_compare_ok a b Ha Hb) as H. unfold set_relation, so_far in H.
  destruct (bms_subset_compare a b); simpl; naive_solver.
Qed.

Lemma dle_lt_false x y : dle x y = true → dlt y x = false.
Proof. intros H. apply not_true_iff_false. rewrite dlt_key. rewrite dle_key in H. naive_solver. Qed.

Lemma no_more_rows_spec p q : no_more_rows p q = true → rows_le p q.
Proof.
  unfold no_more_rows, rows_le. rewrite andb_true_iff. intros [H1 H2]. split.
  - by destruct (parallel_safe q), (parallel_safe p).
  - left. by apply dle_lt_false.
Qed.

Lemma tie_break_spec new old rest :
  (tie_break new old rest = RemoveOld → rows_le new old) ∧ (tie_break new old rest = RejectNew → rows_le old new).
Proof.
  unfold tie_break, rows_le.
  destruct (parallel_safe new), (parallel_safe old), (dlt (path_rows new) (path_rows old)) eqn:E1; simpl;
    try rewrite (dlt_asym _ _ E1); try destruct (dlt (path_rows old) (path_rows new)) eqn:E2; simpl; naive_solver.
Qed.

Section verdicts.
Context (rel : RelOptInfo) (new old : Path).
Context (Hnew : bms_ok (PATH_REQ_OUTER new)) (Hold : bms_ok (PATH_REQ_OUTER old)).

Let keyscmp := compare_pathkeys (effective_pathkeys new) (effective_pathkeys old).
Let outercmp := bms_subset_compare (PATH_REQ_OUTER new) (PATH_REQ_OUTER old).

(** What a verdict on keys, outer relations and rows says. *)
Definition sound (R1 R2 : Prop) (v : verdict) : Prop := (v = RemoveOld → R1) ∧ (v = RejectNew → R2).

Lemma sound_keep R1 R2 : sound R1 R2 KeepBoth.
Proof. by split. Qed.

Lemma sound_remove (R1 R2 : Prop) b : (b = true → R1) → sound R1 R2 (remove_if b).
Proof. intros H. destruct b; split; simpl; auto; done. Qed.

Lemma sound_reject (R1 R2 : Prop) b : (b = true → R2) → sound R1 R2 (reject_if b).
Proof. intros H. destruct b; split; simpl; auto; done. Qed.

Definition more (p q : Path) : Prop :=
  effective_pathkeys q `prefix_of` effective_pathkeys p ∧ subset (PATH_REQ_OUTER p) (PATH_REQ_OUTER q) ∧ rows_le p q.

Lemma remove_spec :
  keyscmp = PATHKEYS_EQUAL ∨ keyscmp = PATHKEYS_BETTER1 → outer_le1 outercmp && no_more_rows new old = true → more new old.
Proof.
  pose proof (compare_pathkeys_spec (effective_pathkeys new) (effective_pathkeys old)) as Hk. fold keyscmp in Hk.
  intros Hc [Ho Hr]%andb_true_iff. split_and!; [by destruct Hc as [-> | ->]; [rewrite Hk|] | | by apply no_more_rows_spec].
  by apply (outer_spec _ _ Hnew Hold).
Qed.

Lemma reject_spec :
  keyscmp = PATHKEYS_EQUAL ∨ keyscmp = PATHKEYS_BETTER2 → outer_le2 outercmp && no_more_rows old new = true → more old new.
Proof.
  pose proof (compare_pathkeys_spec (effective_pathkeys new) (effective_pathkeys old)) as Hk. fold keyscmp in Hk.
  intros Hc [Ho Hr]%andb_true_iff. split_and!; [by destruct Hc as [-> | ->]; [rewrite Hk|] | | by apply no_more_rows_spec].
  by apply (outer_spec _ _ Hnew Hold).
Qed.

Lemma equal_verdict_spec rest :
  keyscmp ≠ PATHKEYS_DIFFERENT → sound (more new old) (more old new) (equal_verdict new old keyscmp outercmp rest).
Proof.
  intros Hd. pose proof remove_spec as H1. pose proof reject_spec as H2. pose proof (tie_break_spec new old rest) as [T1 T2].
  pose proof (compare_pathkeys_spec (effective_pathkeys new) (effective_pathkeys old)) as Hk. fold keyscmp in Hk.
  pose proof (outer_spec _ _ Hnew Hold) as [O1 O2]. fold outercmp in O1, O2. unfold equal_verdict, sound, remove_if, reject_if.
  destruct keyscmp eqn:Ek; [|split; intros E; case_match; auto; done .. | done].
  destruct outercmp eqn:Eo; simpl in *; [|split; intros E; case_match; auto; done .. | done].
  split; intros E; (split_and!; [by rewrite Hk | | ]); auto.
Qed.

Lemma add_path_verdict_sound : sound (beats rel new old) (beats rel old new) (add_path_verdict rel new old).
Proof.
  unfold add_path_verdict. fold keyscmp outercmp. pose proof (costs_fuzzily_spec rel new old) as Hc.
  pose proof remove_spec as H1. pose proof reject_spec as H2. unfold beats. fold (more new old) (more old new).
  destruct (compare_path_costs_fuzzily rel new old STD_FUZZ_FACTOR); [| | |by split].
  - destruct (decide (keyscmp = PATHKEYS_DIFFERENT)) as [->|Hd]; [by split|].
    pose proof (equal_verdict_spec (match compare_path_costs_fuzzily rel new old (dlit 10000000001 10000000000) with
         | COSTS_BETTER1 => RemoveOld | _ => RejectNew end) Hd) as [V1 V2]. destruct Hc. destruct keyscmp; [split; auto.. | done].
  - destruct keyscmp; cbv iota; try exact (sound_keep _ _); refine (sound_remove _ _ _ _); auto.
  - destruct keyscmp; cbv iota; try exact (sound_keep _ _); refine (sound_reject _ _ _ _); auto.
Qed.

Lemma add_path_explore_verdict_sound :
  sound (dominates rel new old) (dominates rel old new) (add_path_explore_verdict rel new old).
Proof.
  unfold add_path_explore_verdict. fold keyscmp outercmp. pose proof (costs_fuzzily_spec rel new old) as Hc.
  pose proof (explore_fuzzily_spec new old) as [E1 E2]. set (ev := compare_path_explore_value_fuzzily new old (dlit 11 10)) in *.
  pose proof remove_spec as H1. pose proof reject_spec as H2. unfold dominates, beats. fold (more new old) (more old new).
  destruct (compare_path_costs_fuzzily rel new old STD_FUZZ_FACTOR); [| | |by split].
  - destruct (decide (keyscmp = PATHKEYS_DIFFERENT)) as [->|Hd]; [by split|]. destruct Hc as [Hc1 Hc2].
    assert (Hcase : ev = 0%Z ∨ ev = 1%Z ∨ (ev < 0)%Z).
    { unfold ev, compare_path_explore_value_fuzzily. repeat case_match; auto with lia. }
    destruct Hcase as [Hev|[Hev|Hev]].
    + rewrite Hev. simpl. match goal with |- context [equal_verdict _ _ _ _ ?r] => pose proof (equal_verdict_spec r Hd) as [V1 V2] end.
      destruct keyscmp; [split; auto with lia .. | done].
    + rewrite Hev. simpl. destruct keyscmp; cbv iota; try exact (sound_keep _ _); refine (sound_remove _ _ _ _); rewrite !andb_true_iff;
        intros [[? ?] _]; (split; [split; [done|] | auto with lia]); apply H1; rewrite ?andb_true_iff; auto.
    + destruct (ev =? 0)%Z eqn:Z0; [lia|]. destruct (ev =? 1)%Z eqn:Z1; [lia|].
      destruct keyscmp; cbv iota; try exact (sound_keep _ _); refine (sound_reject _ _ _ _); rewrite !andb_true_iff;
        intros [[? ?] _]; (split; [split; [done|] | auto with lia]); apply H2; rewrite ?andb_true_iff; auto.
  - destruct keyscmp; cbv iota; try exact (sound_keep _ _); refine (sound_remove _ _ _ _); rewrite !andb_true_iff, Z.leb_le;
      intros [[? ?] ?]; (split; [split; [done|] | auto]); apply H1; rewrite ?andb_true_iff; auto.
  - destruct keyscmp; cbv iota; try exact (sound_keep _ _); refine (sound_reject _ _ _ _); rewrite !andb_true_iff, Z.leb_le;
      intros [[? ?] ?]; (split; [split; [done|] | auto]); apply H2; rewrite ?andb_true_iff; auto.
Qed.
End verdicts.

(** *** The list after adding a path *)
Notation outer_ok := (fun p : Path => bms_ok (PATH_REQ_OUTER p)).

(** What adding [new] to [l] gives, [R p q] meaning that [p] makes [q] superfluous. *)
Record added (R : Path → Path → Prop) (new : Path) (l l' : list Path) : Prop := {
  added_sorted : sorted_paths l';
  added_from : ∀ p, p ∈ l' → p = new ∨ p ∈ l;
  added_gone : ∀ p, p ∈ l → p ∉ l' → R new p;
  added_new : new ∈ l' ∨ ∃ p, p ∈ l ∧ p ∈ l' ∧ R p new
}.

Lemma elem_insert_path l a new p : p ∈ insert_path l a new ↔ p = new ∨ p ∈ l.
Proof. unfold insert_path. rewrite <- (take_drop a l) at 3. set_solver. Qed.

Lemma add_scan_added (R : Path → Path → Prop) (f : Path → verdict) new l :
  costed new → Forall costed l → sorted_paths l →
  (∀ p, p ∈ l → (f p = RemoveOld → R new p) ∧ (f p = RejectNew → R p new)) →
  let '(acc, l', a) := add_scan f new l [] 0 in added R new l (if acc then insert_path l' a new else l').
Proof.
  intros Hn Hc Hs Hf.
  assert (Hp : place_ok new [] 0) by (split; [done | intros p []%elem_of_nil | intros p []%elem_of_nil]).
  pose proof (add_scan_ok f new l [] 0 Hn Hc Hs Hp) as H. destruct (add_scan f new l [] 0) as [[acc l'] a].
  destruct H as [Hs' H]. destruct acc.
  - destruct H as [-> Hpl]. cbn [app] in *. split.
    + by apply insert_path_sorted.
    + intros p [->|[_ Hin]%list_elem_of_filter]%elem_insert_path; auto.
    + intros p Hin Hno. apply (Hf p Hin). destruct (decide (f p = RemoveOld)); [done|]. destruct Hno.
      apply elem_insert_path. right. by apply list_elem_of_filter.
    + left. apply elem_insert_path. auto.
  - destruct H as (pre & old & post & -> & Hr & ->). cbn [app] in *. split; [done | | |].
    + intros p [[_ Hin]%list_elem_of_filter|Hin]%elem_of_app; set_solver.
    + intros p Hin Hno. apply (Hf p Hin). destruct (decide (f p = RemoveOld)); [done|]. destruct Hno.
      apply elem_of_app in Hin as [Hin|Hin]; [|set_solver]. apply elem_of_app. left. by apply list_elem_of_filter.
    + right. exists old. split_and!; [set_solver | set_solver|]. apply Hf; [set_solver | done].
Qed.

(** PostgreSQL's own routine keeps its list sorted and drops nothing that is not
    beaten. *)
Lemma add_path_added rel new :
  costed new → outer_ok new → Forall costed (pathlist rel) → Forall outer_ok (pathlist rel) → sorted_paths (pathlist rel) →
  added (beats rel) new (pathlist rel) (pathlist (add_path rel new)).
Proof.
  intros Hn Ho Hc Hb Hs. unfold add_path.
  pose proof (add_scan_added (beats rel) (add_path_verdict rel new) new (pathlist rel) Hn Hc Hs) as H.
  destruct (add_scan _ _ _ _ _) as [[acc l] a]. apply H. intros p Hp. apply add_path_verdict_sound; [done|].
  by eapply (proj1 (Forall_forall _ _) Hb).
Qed.

(** C21. [add_path_explore] keeps the path list of a relation: with costs that are
    numbers and an estimate of the best cost that is not negative, the list stays
    sorted by total cost and holds old paths and the new one only; an old path
    that disappears is dominated by the new path (fuzzily no dearer, no less worth
    exploring, at least as well sorted, with no other outer relations and no more
    rows); and the new path is in the list, or an old one that stays dominates it,
    or it was pruned because it is dearer than [prune_rate] times the estimate. *)
Theorem add_path_explore_ok (rel : RelOptInfo) (new : Path) (best_pred_cost prune_rate : double) :
  costed new → outer_ok new → Forall costed (pathlist rel) → Forall outer_ok (pathlist rel) → sorted_paths (pathlist rel) →
  is_nan best_pred_cost = false → dlt best_pred_cost d0 = false →
  let rel' := add_path_explore rel new best_pred_cost prune_rate in
  added (dominates rel) new (pathlist rel) (pathlist rel') ∨
  (rel' = rel ∧ pathlist rel ≠ [] ∧ dlt (total_cost new) (best_cost rel) = false ∧
   dle (total_cost new) (best_pred_cost * prune_rate)%D = false).
Proof.
  intros Hn Ho Hc Hb Hs Hnan Hneg. unfold add_path_explore.
  pose proof (add_scan_added (dominates rel) (add_path_explore_verdict rel new) new (pathlist rel) Hn Hc Hs) as H.
  assert (Hv : ∀ p, p ∈ pathlist rel → sound (dominates rel new p) (dominates rel p new) (add_path_explore_verdict rel new p)).
  { intros p Hp. apply add_path_explore_verdict_sound; [done|]. by eapply (proj1 (Forall_forall _ _) Hb). }
  specialize (H Hv). set (empty := match pathlist rel with [] => true | _ => false end).
  set (cheaper := dlt (total_cost new) (best_cost rel)). destruct (deq best_pred_cost d0 || empty || cheaper) eqn:Eg.
  { left. by destruct (add_scan _ _ _ _ _) as [[acc l] a]. }
  apply orb_false_iff in Eg as [[Hz He]%orb_false_iff Hch]. destruct (dlt d0 best_pred_cost) eqn:Epos.
  - destruct (dle _ _) eqn:El; [left; by destruct (add_scan _ _ _ _ _) as [[acc l] a]|]. right.
    rewrite He, Hch. split; [by destruct rel | split_and!; [intros E; unfold empty in He; by rewrite E in He | done | done]].
  - exfalso. assert (Hd : is_nan d0 = false) by done. by rewrite (dlt_total _ _ Hnan Hd Hneg Epos) in Hz.
Qed.

Lemma add_path_explore_ok_witness :
  dlt (d_of_Z 0) d0 = false ∧
  sorted_paths (pathlist (add_path_explore (rel_of [path_a; path_b]) path_c (d_of_Z 0) (d_of_Z 2))) ∧
  pathlist (add_path_explore (rel_of [path_a; path_b]) path_c (d_of_Z 0) (d_of_Z 2)) = [path_a; path_b] ∧
  pathlist (add_path_explore (rel_of [path_a; path_c]) path_b (d_of_Z 0) (d_of_Z 2)) = [path_a; path_b].
Proof.
  split; [reflexivity|]. split; [|split; vm_compute; reflexivity].
  destruct (add_path_explore_ok (rel_of [path_a; path_b]) path_c (d_of_Z 0) (d_of_Z 2)) as [[H _ _ _]|[E _]].
  1: reflexivity. 1: exact I. 1: repeat constructor. 1: repeat constructor. 1: exact examples_sorted. 1: reflexivity. 1: reflexivity.
  - exact H.
  - rewrite E. exact examples_sorted.
Defined.

(** ** The plan *)
Lemma deq_key_eq x y : deq x y = true → ∀ z, dlt x z = dlt y z ∧ dlt z x = dlt z y.
Proof.
  rewrite deq_key. intros (Hx & Hy & E) z. split; apply eq_true_iff_eq; rewrite !dlt_key, E; naive_solver.
Qed.

Lemma cheaper_total_spec path best :
  path_ok path → path_ok best →
  (cheaper_total path best = path ∧ cle path best) ∨ (cheaper_total path best = best ∧ cle best path).
Proof.
  intros [P1 P2 _] [B1 B2 _]. unfold cheaper_total. rewrite !cle_spec.
  destruct (dlt (total_cost path) (total_cost best)) eqn:E1; [left; rewrite (dlt_asym _ _ E1); auto|].
  destruct (deq (total_cost path) (total_cost best)) eqn:E2; simpl.
  - destruct (deq_key_eq _ _ E2 (total_cost best)) as [D1 D2]. rewrite dlt_irrefl in D2.
    destruct (dlt (startup_cost path) (startup_cost best)) eqn:E3; [left | right]; [|auto].
    rewrite D2, (dlt_asym _ _ E3). auto.
  - right. split; [done|]. split; [done|]. left. destruct (dlt (total_cost best) (total_cost path)) eqn:E3; [done|].
    by rewrite (dlt_total _ _ P1 B1 E1 E3) in E2.
Qed.

Lemma cheaper_fraction_in fraction path best :
  cheaper_fraction fraction path best = path ∨ cheaper_fraction fraction path best = best.
Proof. unfold cheaper_fraction, cheaper_total. repeat case_match; auto. Qed.

(** The search for the best explore value: [R] orders the paths of equal value. *)
Section search.
Context (affordable : Path → bool) (cheaper : Path → Path → Path) (R : Path → Path → Prop).
Context (R_trans : ∀ p q r, path_ok p → path_ok q → path_ok r → R p q → R q r → R p r).
Context (cheaper_spec : ∀ p q, path_ok p → path_ok q → (cheaper p q = p ∧ R p q) ∨ (cheaper p q = q ∧ R q p)).
Context (R_refl : ∀ p, R p p).

Record most_explored (start : Path) (l : list Path) (r : Path) : Prop := {
  me_from : r = start ∨ (r ∈ l ∧ affordable r = true);
  me_start : dlt (explore_value r) (explore_value start) = false;
  me_best : ∀ p, p ∈ l → affordable p = true →
    dlt (explore_value r) (explore_value p) = false ∧ (deq (explore_value p) (explore_value r) = true → R r p)
}.

Lemma explore_step_ok start l r path :
  path_ok start → Forall path_ok l → path_ok path → most_explored start l r →
  most_explored start (l ++ [path]) (explore_step affordable cheaper r path).
Proof.
  intros Hs Hl Hp [Hf Hst Hb].
  assert (Hr : path_ok r) by (destruct Hf as [->|[Hin _]]; [done | by eapply (proj1 (Forall_forall _ _) Hl)]).
  unfold explore_step. destruct (affordable path) eqn:Ea.
  2:{ split; [destruct Hf as [|[? ?]]; [auto | right; set_solver] | done|]. intros p [Hin| ->%list_elem_of_singleton]%elem_of_app Hap; [auto | congruence]. }
  destruct (dlt (explore_value r) (explore_value path)) eqn:Eg.
  - split; [right; set_solver | |].
    + eapply (dle_trans _ (explore_value r)); [by destruct Hr | done | by apply dlt_asym].
    + intros p [Hin| ->%list_elem_of_singleton]%elem_of_app Hap.
      * destruct (Hb p Hin Hap) as [H1 _]. split.
        { eapply (dle_trans _ (explore_value r)); [by destruct Hr | done | by apply dlt_asym]. }
        intros E. destruct (deq_key_eq _ _ E (explore_value r)) as [_ E2]. congruence.
      * split; [apply dlt_irrefl | auto].
  - destruct (deq (explore_value path) (explore_value r)) eqn:Ee.
    + assert (Hk : ∀ z, dlt (explore_value path) z = dlt (explore_value r) z ∧ dlt z (explore_value path) = dlt z (explore_value r)) by (by apply deq_key_eq).
      destruct (cheaper_spec path r Hp Hr) as [[-> HR]|[-> HR]].
      * split; [right; set_solver | by rewrite (proj1 (Hk _)) |]. intros p [Hin| ->%list_elem_of_singleton]%elem_of_app Hap.
        -- destruct (Hb p Hin Hap) as [H1 H2]. split; [by rewrite (proj1 (Hk _))|]. intros E.
           apply (R_trans path r p Hp Hr); [by eapply (proj1 (Forall_forall _ _) Hl) | done|]. apply H2.
           destruct Hr as [_ _ Hr]. assert (Hpp : path_ok p) by (by eapply (proj1 (Forall_forall _ _) Hl)). destruct Hpp as [_ _ Hpn].
           destruct (deq_key_eq _ _ E (explore_value r)) as [E1 E2]. rewrite (proj1 (Hk _)), dlt_irrefl in E1.
           rewrite (proj2 (Hk _)), dlt_irrefl in E2. by apply dlt_total.
        -- split; [apply dlt_irrefl | auto].
      * split; [destruct Hf as [|[? ?]]; [auto | right; set_solver] | done|].
        intros p [Hin| ->%list_elem_of_singleton]%elem_of_app Hap; auto.
    + split; [destruct Hf as [|[? ?]]; [auto | right; set_solver] | done|].
      intros p [Hin| ->%list_elem_of_singleton]%elem_of_app Hap; [auto|]. split; [done|]. congruence.
Qed.

Lemma explore_search_ok start l :
  path_ok start → Forall path_ok l → most_explored start l (foldl (explore_step affordable cheaper) start l).
Proof.
  intros Hs. induction l as [|x l IH] using rev_ind; intros Hl.
  { split; [by left | apply dlt_irrefl | intros p []%elem_of_nil]. }
  rewrite Forall_app, Forall_singleton in Hl. destruct Hl as [Hl Hx]. rewrite foldl_app. by apply explore_step_ok; [| | |apply IH].
Qed.
End search.

Lemma fractional_best_in total fraction l : fractional_best total fraction l = total ∨ fractional_best total fraction l ∈ l.
Proof.
  unfold fractional_best. induction l as [|x l IH] using rev_ind; [by left|]. rewrite foldl_app. simpl.
  case_match; [destruct IH; [auto | right; set_solver] | right; set_solver].
Qed.

(** The cost a query that fetches [tuple_fraction] rows pays for [p]. *)
Definition fetch_cost (total : Path) (tuple_fraction : double) (p : Path) : double :=
  if (tuple_fraction <=? d0)%D then total_cost p else fractional_cost p (row_fraction total tuple_fraction).

(** The path the search starts from. *)
Definition fetch_best (rel : RelOptInfo) (total : Path) (tuple_fraction : double) : Path :=
  if (tuple_fraction <=? d0)%D then total else fractional_best total (row_fraction total tuple_fraction) (pathlist rel).

(** Dearer than the cheapest by no more than [rate], and no less explored. *)
Definition affordable (rel : RelOptInfo) (total : Path) (tuple_fraction rate : double) (p : Path) : bool :=
  let best := fetch_best rel total tuple_fraction in
  (fetch_cost total tuple_fraction p <=? fetch_cost total tuple_fraction best * (d_of_Z 1 + rate))%D &&
  (explore_value p >=? explore_value best * (d_of_Z 1 + d_of_Z 0))%D.

(** C23. [get_cheapest_explore_fractional_path] spends its budget on exploration:
    it returns the path PostgreSQL would choose or an affordable one (at most
    [rate] dearer than it), whose explore value is not below the one of the
    chosen path nor of any affordable path; and when all rows are fetched, it is
    the cheapest of the affordable paths with that explore value. *)
Theorem explore_choice (rel : RelOptInfo) (total : Path) (tuple_fraction rate : double) :
  cheapest_total_path rel = Some total → path_ok total → Forall path_ok (pathlist rel) →
  let best := fetch_best rel total tuple_fraction in
  get_cheapest_fractional_path rel tuple_fraction = Some best ∧
  ∃ r, get_cheapest_explore_fractional_path rel tuple_fraction rate = Some r ∧
    (r = best ∨ (r ∈ pathlist rel ∧ affordable rel total tuple_fraction rate r = true)) ∧
    dlt (explore_value r) (explore_value best) = false ∧
    ∀ p, p ∈ pathlist rel → affordable rel total tuple_fraction rate p = true →
      dlt (explore_value r) (explore_value p) = false ∧
      ((tuple_fraction <=? d0)%D = true → deq (explore_value p) (explore_value r) = true → cle r p).
Proof.
  intros Ht Hok Hl. unfold get_cheapest_fractional_path, get_cheapest_explore_fractional_path, affordable, fetch_best, fetch_cost.
  rewrite Ht. cbn [mbind option_bind]. destruct (tuple_fraction <=? d0)%D eqn:Ef; (split; [done|]; eexists; split; [done|]).
  - match goal with |- context [foldl (explore_step ?a _) _ _] =>
      destruct (explore_search_ok a cheaper_total cle cle_trans cheaper_total_spec cle_refl total (pathlist rel) Hok Hl) as [H1 H2 H3] end.
    split_and!; [exact H1 | exact H2|]. intros p Hp Ha. destruct (H3 p Hp Ha). auto.
  - set (best := fractional_best _ _ _). assert (Hbest : path_ok best).
    { destruct (fractional_best_in total (row_fraction total tuple_fraction) (pathlist rel)) as [E|E]; unfold best; [by rewrite E|].
      by eapply (proj1 (Forall_forall _ _) Hl). }
    match goal with |- context [foldl (explore_step ?a _) _ _] =>
      destruct (explore_search_ok a (cheaper_fraction (row_fraction total tuple_fraction)) (fun _ _ => True)) with best (pathlist rel) as [H1 H2 H3] end;
      [done | intros p q _ _; destruct (cheaper_fraction_in (row_fraction total tuple_fraction) p q); auto | done | exact Hbest | exact Hl|].
    split_and!; [exact H1 | exact H2|]. intros p Hp Ha. destruct (H3 p Hp Ha). split; [done|]. intros [=].
Qed.

Lemma explore_choice_witness :
  cheapest_total_path (rel_of [path_a; path_b; path_c]) = Some path_a ∧
  ∃ r, get_cheapest_explore_fractional_path (rel_of [path_a; path_b; path_c]) d0 (dlit 1 2) = Some r ∧
    dlt (explore_value r) (explore_value path_c) = false ∧ path_id r = 2.
Proof.
  split; [reflexivity|].
  destruct (explore_choice (rel_of [path_a; path_b; path_c]) path_a d0 (dlit 1 2)) as (_ & r & Hr & _ & _ & H).
  1: reflexivity. 1: repeat constructor. 1: exact examples_ok.
  exists r. split; [exact Hr|]. split.
  - apply (H path_c); [right; right; left | vm_compute; reflexivity].
  - vm_compute in Hr. injection Hr as <-. reflexivity.
Defined.
