(* ===== verification/Costs.v ===== *)
(** * Costs: the best costs of the query patterns

    [calculate_current_best_estimate_cost] and [update_two_best_costs_record] of
    contrib/aqo/plan_generation.c: for each query pattern the table
    aqo_best_two_costs_table keeps rows of query features with the estimated and
    the true cost of the best plan seen; the first function predicts the
    estimated cost of the best plan of a query, the second one records an
    executed plan. *)
From S2P Require Import Prelude Float64 Knn PgArray LwprModel PgState Storage StorageLwpr LwprUpdate.

Definition num_two_costs_save : nat := 66.

(** The number of rows once the changed lines are in. *)
Definition new_rows (rows : nat) (changed_lines : list nat) : nat :=
  foldl (fun k l => if k <=? l then l + 1 else k) rows changed_lines.

Section costs.
Context `{Cluster}.

Definition load_costs (query_pattern : Z) (nfeatures : nat) : PG (list (list double) * list double * list double * nat) :=
  '(found, (matrix, est, tru, rows)) ←
    load_best_two_costs query_pattern (replicate num_two_costs_save (palloc0 nfeatures)) (palloc0 num_two_costs_save)
      (palloc0 num_two_costs_save) (Z.of_nat nfeatures);
  mret (matrix, est, tru, if (found : bool) then default 0 rows else 0).

Definition set_best_pred_cost (q : QueryContextData) (x : double) : QueryContextData :=
  let '(mkContext qh la ua fh at_ cs aq eo ea ts pt cq di nf cf be _) := q in
  mkContext qh la ua fh at_ cs aq eo ea ts pt cq di nf cf be x.

Definition calculate_current_best_estimate_cost (query_pattern : Z) (nfeatures : nat) (input_feature : list double) : PG unit :=
  '(matrix, est, _, rows) ← load_costs query_pattern nfeatures;
  est_best_cost ← pg_lift (OkNNr_predict2 rows nfeatures matrix est input_feature 2);
  pg_modify (fun st => set_ctx st (set_best_pred_cost (ctx st) est_best_cost)).

Definition update_two_best_costs_record (current_query_pattern : Z) (nfeatures : nat) (current_query_features : list double)
    (best_est_cost total_time : double) : PG unit :=
  '(matrix, est, tru, rows) ← load_costs current_query_pattern nfeatures;
  '(matrix, est, tru, changed_lines) ←
    pg_lift (OkNNr_learn2 rows nfeatures matrix est tru current_query_features best_est_cost total_time num_two_costs_save);
  _ ← update_best_two_costs current_query_pattern nfeatures (new_rows rows changed_lines) matrix est tru;
  mret tt.
End costs.

(** ** The invariant of the table

    The pattern [p] has [nf p] features; its row holds at most
    [num_two_costs_save] records with two costs each. *)
Definition cost_arrays_ok (n r : nat) (am ae av : ArrayType) : Prop :=
  length (arr_elems ae) = r ∧ length (arr_elems av) = r ∧
  (arr_elems am = [] ∨ (ARR_DIMS am = [r; n] ∧ length (arr_elems am) = r * n ∧ r * n ≠ 0)).

Definition cost_row_ok (n : nat) (t : tuple) : Prop :=
  ∃ x r am ae av, t = Some <$> [x; Int32GetDatum (Z.of_nat n); PointerGetDatum am; PointerGetDatum ae; PointerGetDatum av] ∧
    r ≤ num_two_costs_save ∧ cost_arrays_ok n r am ae av.

Record costs_ok (nf : Z → nat) (st : pgstate) : Prop := {
  costs_table : table_ok st aqo_best_two_costs_table;
  costs_rows : ∀ p t, row_data st aqo_best_two_costs_table [p] = Some t → cost_row_ok (nf p) t
}.

(** What reading the row of a pattern gives. *)
Definition costs_read (n : nat) (m : list (list double)) (e t : list double) (r : nat) : Prop :=
  r ≤ num_two_costs_save ∧ length m = num_two_costs_save ∧ length e = num_two_costs_save ∧
  length t = num_two_costs_save ∧ ∀ i row, m !! i = Some row → length row = n.

Lemma costs_read_room n m e t r : costs_read n m e t r → room m r n num_two_costs_save.
Proof.
  intros (Hr & Hm & _ & _ & Hrow). split; [split; [lia|] | lia]. intros i row Hi. by rewrite (Hrow _ _ Hi).
Qed.

Lemma blank_rows n i row : replicate num_two_costs_save (palloc0 n) !! i = Some row → length row = n.
Proof. intros [-> _]%lookup_replicate. apply length_replicate. Qed.

Lemma blank_costs_read n :
  costs_read n (replicate num_two_costs_save (palloc0 n)) (palloc0 num_two_costs_save) (palloc0 num_two_costs_save) 0.
Proof. split_and!; [lia | apply length_replicate.. |]. apply blank_rows. Qed.

Lemma deform_costs n r am ae av :
  r ≤ num_two_costs_save → cost_arrays_ok n r am ae av →
  ∃ m e t, deform_matrix am (replicate num_two_costs_save (palloc0 n)) = Ok m ∧
    deform_vector ae (palloc0 num_two_costs_save) = Ok (e, r) ∧ deform_vector av (palloc0 num_two_costs_save) = Ok (t, r) ∧
    costs_read n m e t r.
Proof.
  intros Hr (He & Ht & Hm).
  assert (Hvec : ∀ a, length (arr_elems a) = r → ∃ v, deform_vector a (palloc0 num_two_costs_save) = Ok (v, r) ∧
    length v = num_two_costs_save).
  { intros a Ha. rewrite deform_vector_ok by (unfold palloc0; rewrite length_replicate; lia). rewrite Ha. eexists. split; [done|].
    unfold palloc0. rewrite length_app, length_drop, length_replicate. lia. }
  destruct (Hvec _ He) as (e & Ee & Hle). destruct (Hvec _ Ht) as (t & Et & Hlt).
  assert (Hmat : ∃ m, deform_matrix am (replicate num_two_costs_save (palloc0 n)) = Ok m ∧
    length m = num_two_costs_save ∧ ∀ i row, m !! i = Some row → length row = n).
  { destruct Hm as [Hm|(Hd & Hl & Hz)].
    - unfold deform_matrix. rewrite Hm. eexists. split; [done|]. split; [apply length_replicate | apply blank_rows].
    - assert (Hs : shape (replicate num_two_costs_save (palloc0 n)) r n).
      { split; [by rewrite length_replicate|]. intros i row _ Hi. by rewrite (blank_rows _ _ _ Hi). }
      destruct (ensures_inv _ _ (deform_matrix_ok am _ r n Hd Hl Hz Hs)) as (m & E & Hlen & Hrow & _).
      rewrite length_replicate in Hlen. exists m. split_and!; [done | done|]. intros i row Hi.
      destruct (lookup_lt_is_Some_2 (replicate num_two_costs_save (palloc0 n)) i) as [row0 Hi0].
      { rewrite length_replicate, <- Hlen. by eapply lookup_lt_Some. }
      rewrite (Hrow _ _ _ Hi0 Hi). by eapply blank_rows. }
  destruct Hmat as (m & Em & Hlm & Hrow). exists m, e, t. done.
Qed.

Section costs_proofs.
Context `{Cluster} (nf : Z → nat).

Lemma load_costs_ok p st :
  available aqo_best_two_costs_table → costs_ok nf st →
  pg_ensures (load_costs p (nf p)) st (fun '(m, e, t, r) st' => st' = st ∧ costs_read (nf p) m e t r).
Proof.
  intros Hav Hok. unfold load_costs. destruct (row_data st aqo_best_two_costs_table [p]) as [t|] eqn:Er.
  - destruct (costs_rows _ _ Hok _ _ Er) as (x & r & am & ae & av & -> & Hr & Ha).
    destruct (deform_costs _ _ _ _ _ Hr Ha) as (m & e & t & Em & Ee & Et & Hread).
    unfold pg_ensures. erewrite pg_bind_ok; [|by eapply load_best_two_costs_ok]. done.
  - unfold pg_ensures. erewrite pg_bind_ok.
    2:{ destruct Hav as [Hv Hr]. unfold load_best_two_costs. pg_prologue Hv Hr. unfold row_data in Er.
        destruct (find_row st aqo_best_two_costs_table [p]) as [[]|]; [done|]. by apply (read_finish aqo_best_two_costs_table). }
    split; [done | apply blank_costs_read].
Qed.

Lemma calculate_ok p feats st :
  available aqo_best_two_costs_table → costs_ok nf st → nf p ≤ length feats →
  pg_ensures (calculate_current_best_estimate_cost p (nf p) feats) st (fun _ st' =>
    ∃ x, dlt x d0 = false ∧ st' = set_ctx st (set_best_pred_cost (ctx st) x)).
Proof.
  intros Hav Hok Hf. unfold calculate_current_best_estimate_cost.
  eapply pg_ensures_bind_mono; [by apply load_costs_ok|]. intros [[[m e] t] r] st' (-> & Hread).
  apply (pg_ensures_bind_mono _ _ _ (fun x st1 => st1 = st ∧ dlt x d0 = false)).
  { apply pg_ensures_lift. eapply ensures_mono.
    - apply (predict2_ok r (nf p) m e feats 2); [lia | by apply (costs_read_room _ _ _ _ _ Hread) | done|].
      destruct Hread as (? & _ & -> & _). lia.
    - intros x Hx. exact (conj eq_refl Hx). }
  intros x st' [-> Hx]. exists x. done.
Qed.

(** The matrix and the vectors of a record as they are stored. *)
Lemma form_costs n r m e t :
  shape m r n → r ≤ length e → r ≤ length t →
  ∃ am ae av, mform m r n = Ok am ∧ vform e r = Ok ae ∧ vform t r = Ok av ∧ cost_arrays_ok n r am ae av.
Proof.
  intros Hm He Ht.
  destruct (ensures_inv _ _ (form_matrix_elems (uninit (r * n)) m r n Hm (length_replicate _ _))) as (am & Em & Ha).
  assert (Hvec : ∀ v : list double, r ≤ length v → ∃ a, vform v r = Ok a ∧ length (arr_elems a) = r).
  { intros v Hv. unfold vform. rewrite form_vector_ok by first [exact Hv | apply length_replicate]. eexists. split; [done|].
    destruct (Nat.eqb_spec r 0); [done|]. simpl. rewrite length_take. lia. }
  destruct (Hvec e He) as (ae & Ee & Hle). destruct (Hvec t Ht) as (av & Et & Hlt).
  exists am, ae, av. do 3 (split; [done|]). do 2 (split; [done|]).
  destruct (Nat.eqb_spec (r * n) 0); [left; by rewrite Ha | right; naive_solver].
Qed.

(** The session but for the table. *)
Record costs_frame (st st' : pgstate) : Prop := {
  cf_ctx : ctx st' = ctx st;
  cf_opened : opened st' = opened st;
  cf_rows : ∀ r, r ≠ aqo_best_two_costs_table → rows st' r = rows st r
}.

Lemma update_costs_ok p r m e t st :
  available aqo_best_two_costs_table → calm → costs_ok nf st →
  r ≤ num_two_costs_save → shape m r (nf p) → r ≤ length e → r ≤ length t →
  pg_ensures (update_best_two_costs p (nf p) r m e t) st (fun _ st' => costs_ok nf st' ∧ costs_frame st st').
Proof.
  intros Hav Hcalm Hok Hr Hm He Ht. destruct (form_costs _ _ _ _ _ Hm He Ht) as (am & ae & av & Em & Ee & Et & Ha).
  assert (Hcol : ∀ t0, row_data st aqo_best_two_costs_table [p] = Some t0 → t0 !! 1 = Some (Some (Int32GetDatum (Z.of_nat (nf p))))).
  { intros t0 Ht0. destruct (costs_rows _ _ Hok _ _ Ht0) as (? & ? & ? & ? & ? & -> & _). done. }
  assert (Hwrite : write_ok st aqo_best_two_costs_table [p] UNIQUE_CHECK_YES →
    pg_ensures (update_best_two_costs p (nf p) r m e t) st (fun _ st' => costs_ok nf st' ∧ costs_frame st st')).
  { intros Hw. destruct (update_best_two_costs_ok p (nf p) r m e t am ae av st Hav Em Ee Et (costs_table _ _ Hok) Hw Hcol)
      as (st' & E & Hput & Ht' & Ho & Hc). eapply pg_ensures_intro; [exact E|]. split; split; try done.
    - intros p' t' Hrow. destruct (decide (p' = p)) as [->|Hne].
      + rewrite (put_found _ _ _ _ _ Hput) in Hrow. injection Hrow as <-. by exists (Int32GetDatum p), r, am, ae, av.
      + rewrite (put_other _ _ _ _ _ Hput) in Hrow; [by eapply costs_rows | done | congruence].
    - by apply put_ctx in Hput.
    - intros r' Hr'. by apply (put_rel _ _ _ _ _ Hput). }
  destruct (calm_result Hcalm (cid st)) as [Hres|Hres]; [apply Hwrite; right; split; [done | right; apply Hcalm]|].
  destruct (find_row st aqo_best_two_costs_table [p]) as [[tid t0]|] eqn:Ef; [|by apply Hwrite; left].
  eapply (pg_ensures_intro _ _ true (set_cid st (S (cid st)))); [|by destruct Hok; split; split].
  destruct Hav as [Hv Hrel]. unfold update_best_two_costs. pg_prologue Hv Hrel. rewrite Ef. apply lost_finish.
  set (st1 := set_opened st (opened st + 3)).
  pose proof (upsert_lost aqo_best_two_costs_table [p] 2 [PointerGetDatum am; PointerGetDatum ae; PointerGetDatum av] []
    UNIQUE_CHECK_YES tid t0 st1 (costs_table _ _ Hok) Ef eq_refl Hres) as E. rewrite <- E.
  change (find_row st1) with (find_row st). rewrite Ef. apply find_row_lookup in Ef as [Ef _].
  destruct (five_columns _ _ _ _ (costs_table _ _ Hok) eq_refl Ef) as (x1 & x2 & x3 & x4 & x5 & ->).
  unfold upsert, mk_matrix, mk_vector. rewrite Em, Ee, Et. reflexivity.
Qed.

Lemma record_ok p feats est time st :
  available aqo_best_two_costs_table → calm → costs_ok nf st → nf p ≤ length feats →
  pg_ensures (update_two_best_costs_record p (nf p) feats est time) st (fun _ st' => costs_ok nf st' ∧ costs_frame st st').
Proof.
  intros Hav Hcalm Hok Hf. unfold update_two_best_costs_record.
  eapply pg_ensures_bind_mono; [by apply load_costs_ok|]. intros [[[m e] t] r] st' (-> & Hread).
  pose proof (costs_read_room _ _ _ _ _ Hread) as Hroom. destruct Hread as (Hr & Hm & He & Ht & Hrow).
  apply (pg_ensures_bind_mono _ _ _ (fun '(m', e', t', lst) st1 => st1 = st ∧
    (length lst ≤ 1 ∧ Forall (fun x => x < r ∨ (x = r ∧ r < num_two_costs_save)) lst) ∧
    rows_frame lst m m' ∧ cells_frame lst e e' ∧ cells_frame lst t t')).
  { apply pg_ensures_lift. eapply ensures_mono.
    - apply (learn2_ok r (nf p) m e t feats est time num_two_costs_save Hroom); [unfold num_two_costs_save; lia | congruence | congruence | done].
    - by intros [[[m' e'] t'] lst]. }
  intros [[[m' e'] t'] lst] st' (-> & (_ & Hl) & [Hlm _ Hrow'] & [Hle _] & [Hlt _]).
  assert (Hnew : new_rows r lst ≤ num_two_costs_save).
  { apply grown_le; [done|]. eapply Forall_impl; [exact Hl|]. simpl. lia. }
  eapply pg_ensures_bind_mono; [apply update_costs_ok; try done; [|lia|lia] | by intros b st' Hst'].
  split; [lia|]. intros i row _ Hi. destruct (lookup_lt_is_Some_2 m i) as [row0 Hi0]; [rewrite <- Hlm; by eapply lookup_lt_Some|].
  rewrite (Hrow' _ _ _ Hi0 Hi). by rewrite (Hrow _ _ Hi0).
Qed.
End costs_proofs.
