(* ===== verification/Learning.v ===== *)
(** * Learning: from executed plans to models, from models to estimates

    The functions that put the parts together: contrib/aqo/cardinality_estimation.c
    (estimating the cardinality of a relation from its clauses) and the learning
    steps of contrib/aqo/postprocessing.c (one executed node of a plan).  Each of them
    computes the feature subspace of the clauses (Fss), loads the model of the
    subspace (StorageLwpr), applies it (LwprPredict) or trains it (LwprUpdate) and
    stores it. *)
From S2P Require Import Prelude Float64 HashText HashEclass Nodes Fss Knn PgArray LwprModel LwprMath LwprReg PgState Storage StorageLwpr LwprUpdate LwprPredict Costs.
From Stdlib Require Import SpecFloat.

Definition aqo_K : nat := 30.

Definition fabs (x : double) : double := SFabs x.

(** What uninitialised memory holds: the two blocks of [get_fss_for_object] and
    the model on the stack. *)
Class Scratch : Type := {
  scratch_idx : nat → list nat;
  scratch_hash : nat → list Z;
  stack_config : LWPR_Config;
  scratch_idx_len : ∀ n, length (scratch_idx n) = n;
  scratch_hash_len : ∀ n, length (scratch_hash n) = n
}.

Section learning.
Context `{Cluster} `{Libm} `{Palloc} `{Scratch}.

(** The feature subspace of an object: its hash and its features. *)
Definition fss_for_object (clauselist : list node) (selectivities : list double) (relidslist : list Z)
  : res (Z * list double) :=
  let n := length clauselist in
  get_fss_for_object (scratch_idx n) (scratch_hash n) clauselist selectivities relidslist.

Definition new_model (nfeatures : nat) : res LWPR_Model :=
  lwpr_init_model (palloc_mis 0).1 (palloc_mis 0).2 stack_config nfeatures.

(** ** Estimation *)
Definition predict_for_relation (restrict_clauses : list node) (selectivities : list double) (relids : list Z) : PG double :=
  '(fss, features) ← pg_lift (fss_for_object restrict_clauses selectivities relids);
  let nfeatures := length features in
  '(found, (matrix, target, rows)) ←
    load_fss fss (Z.of_nat nfeatures) (replicate aqo_K (palloc0 nfeatures)) (palloc0 aqo_K);
  result ← (if found : bool
            then pg_lift (OkNNr_predict (default 0 rows) nfeatures matrix target features 2)
            else mret (d_of_Z (-1)));
  mret (if (result <? d0)%D then d_of_Z (-1) else c_exp result).

Definition predict_for_relation_lwpr (restrict_clauses : list node) (selectivities : list double) (relids : list Z) : PG double :=
  let cutoff := dlit 1 1000 in
  '(fss, features) ← pg_lift (fss_for_object restrict_clauses selectivities relids);
  let nfeatures := length features in
  m ← pg_lift (new_model nfeatures);
  '(found, m) ← load_fss_rfwr fss nfeatures m;
  result ← (if found : bool then '(_, y) ← lwpr_predict m features cutoff; mret y else mret (d_of_Z (-1)));
  mret (if (result <? d0)%D then d_of_Z (-1) else c_exp result).

(** [result] is what the caller has allocated. *)
Definition predict_for_relation_lwpr_explore (restrict_clauses : list node) (selectivities : list double) (relids : list Z)
    (result : Explore_Value) : PG Explore_Value :=
  let cutoff := dlit 1 1000 in
  '(fss, features) ← pg_lift (fss_for_object restrict_clauses selectivities relids);
  let nfeatures := length features in
  m ← pg_lift (new_model nfeatures);
  '(found, m) ← load_fss_rfwr fss nfeatures m;
  if found : bool then
    '(m, ev) ← lwpr_predict_explore m features cutoff;
    let rows := if deq (ev_rows ev) (d_of_Z (-9999)) then d_of_Z (-1) else c_exp (ev_rows ev) in
    update_fss_rfwr2 fss nfeatures m;;
    mret (mkEV rows (est_uncof ev) (est_future ev) (rate ev))
  else mret (mkEV (d_of_Z (-1)) (est_uncof result) (est_future result) (rate result)).

(** ** Learning *)

Definition atomic_fss_learn_step (fss : Z) (matrix_cols : nat) (matrix : list (list double)) (targets features : list double)
    (target : double) : PG unit :=
  '(found, (matrix, targets, stored)) ← load_fss fss (Z.of_nat matrix_cols) matrix targets;
  let matrix_rows := if (found : bool) then default 0 stored else 0 in
  '(matrix, targets, changed_lines) ← pg_lift (OkNNr_learn matrix_rows matrix_cols matrix targets features target aqo_K);
  _ ← update_fss fss (new_rows matrix_rows changed_lines) matrix_cols matrix targets;
  mret tt.

Definition atomic_fss_learn_step_rfwr (fss : Z) (nfeatures : nat) (m : LWPR_Model) (features : list double) (target : double)
  : PG unit :=
  '(_, m) ← load_fss_rfwr fss nfeatures m;
  '(m, result) ← lwpr_update m features target;
  if (result =? 1)%Z then _ ← update_fss_rfwr fss nfeatures m; mret tt else mret tt.

(** [cardinality_sum_errors] and [cardinality_num_objects]. *)
Record learn_stats : Type := mkStats { cardinality_sum_errors : double; cardinality_num_objects : Z }.

Definition count_error (s : learn_stats) (true_cardinality predicted_cardinality : double) : learn_stats :=
  mkStats (cardinality_sum_errors s + fabs (c_log predicted_cardinality - c_log true_cardinality))%D
    (to_int32 (cardinality_num_objects s + 1)).

Definition learn_sample (clauselist : list node) (selectivities : list double) (relidslist : list Z)
    (true_cardinality predicted_cardinality : double) (s : learn_stats) : PG learn_stats :=
  let s := count_error s true_cardinality predicted_cardinality in
  let target := c_log true_cardinality in
  '(fss, features) ← pg_lift (fss_for_object clauselist selectivities relidslist);
  let matrix_cols := length features in
  if 0 <? matrix_cols then
    atomic_fss_learn_step fss matrix_cols (replicate aqo_K (palloc0 matrix_cols)) (palloc0 aqo_K) features target;;
    mret s
  else mret s.

(** The result is 1 when something was learned. *)
Definition learn_sample_rfwr (clauselist : list node) (selectivities : list double) (relidslist : list Z)
    (true_cardinality predicted_cardinality : double) (s : learn_stats) : PG (learn_stats * Z) :=
  let s := count_error s true_cardinality predicted_cardinality in
  let target := c_log true_cardinality in
  '(fss, features) ← pg_lift (fss_for_object clauselist selectivities relidslist);
  let nfeatures := length features in
  if 0 <? nfeatures then
    m ← pg_lift (new_model nfeatures);
    atomic_fss_learn_step_rfwr fss nfeatures m features target;;
    mret (s, 1%Z)
  else mret (s, 0%Z).

End learning.

(** ** The database of models *)

(** The stored row of a feature subspace with [n] features. *)
Definition stored_model (fspace fss : Z) (n : nat) (t : tuple) : Prop :=
  ∃ m, model_ok m ∧ Forall flags_ok (rf m) ∧ nIn (cfg m) = n ∧ t = Some <$> model_row fspace fss m.

(** The tables of the models and of the data houses, [dim fss] being the number
    of features of a subspace. *)
Record db_ok (dim : Z → nat) (st : pgstate) : Prop := {
  db_models_table : table_ok st aqo_data_lwpr;
  db_models : ∀ fss t, row_data st aqo_data_lwpr [fspace_hash (ctx st); fss] = Some t →
    stored_model (fspace_hash (ctx st)) fss (dim fss) t;
  db_houses : ∀ fss, house_ok (dim fss) fss st
}.

(** What planning has set in the query context. *)
Record query_ok (q : QueryContextData) : Prop := {
  query_known : (0 ≤ current_query_hash q ≤ Z.of_nat num_query_pattern)%Z;
  query_dist : num_query_pattern ≤ length (query_distribution q)
}.

(** There is a model for the subspace. *)
Definition has_model (st : pgstate) (fss : Z) : Prop :=
  is_Some (row_data st aqo_data_lwpr [fspace_hash (ctx st); fss]).

(** A step of the session: it closes what it opens, keeps the query, and no
    model is lost. *)
Record session_frame (st st' : pgstate) : Prop := {
  sf_opened : opened st' = opened st;
  sf_fspace : fspace_hash (ctx st') = fspace_hash (ctx st);
  sf_query : query_ok (ctx st) → query_ok (ctx st');
  sf_models : ∀ fss, has_model st fss → has_model st' fss;
  sf_rows : ∀ r, r ≠ aqo_data_lwpr → r ≠ aqo_data_house_lwpr → rows st' r = rows st r
}.

Lemma session_frame_refl st : session_frame st st.
Proof. done. Qed.

Lemma session_frame_trans st1 st2 st3 : session_frame st1 st2 → session_frame st2 st3 → session_frame st1 st3.
Proof.
  intros [A1 A2 A3 A4 A5] [B1 B2 B3 B4 B5]. split; [congruence | congruence | auto | auto|]. intros r H1 H2. by rewrite B5, A5.
Qed.

(** A step inside a query: its context stays, except that AQO may be turned off. *)
Record step_frame (st st' : pgstate) : Prop := {
  step_session :> session_frame st st';
  step_ctx : ctx st' = ctx st ∨ ctx st' = disabled (ctx st)
}.

Lemma step_frame_refl st : step_frame st st.
Proof. split; [apply session_frame_refl | by left]. Qed.

#[export] Hint Resolve step_frame_refl : core.

Lemma step_frame_trans st1 st2 st3 : step_frame st1 st2 → step_frame st2 st3 → step_frame st1 st3.
Proof.
  intros [A1 A2] [B1 B2]. split; [by eapply session_frame_trans|].
  destruct B2 as [-> | ->], A2 as [-> | ->]; auto. right. by destruct (ctx st1).
Qed.

Lemma house_ok_rows n fss st st' :
  rows st' aqo_data_house_lwpr = rows st aqo_data_house_lwpr → fspace_hash (ctx st') = fspace_hash (ctx st) →
  house_ok n fss st → house_ok n fss st'.
Proof.
  intros Er Ef [Ht Hh]. split; [by apply (table_ok_rows st)|]. intros rfh t. rewrite Ef, (row_data_rows _ _ _ _ Er). apply Hh.
Qed.

(** The database is where it was. *)
Lemma db_ok_rows dim st st' :
  (∀ r, rows st' r = rows st r) → fspace_hash (ctx st') = fspace_hash (ctx st) → db_ok dim st → db_ok dim st'.
Proof.
  intros Er Ef [Ht Hm Hh]. split; [by apply (table_ok_rows st) | | intros fss; by apply (house_ok_rows _ _ st)].
  intros fss t. rewrite Ef, (row_data_rows _ _ _ _ (Er _)). apply Hm.
Qed.

Lemma has_model_rows st st' fss :
  rows st' aqo_data_lwpr = rows st aqo_data_lwpr → fspace_hash (ctx st') = fspace_hash (ctx st) → has_model st fss → has_model st' fss.
Proof. unfold has_model. intros Er ->. by rewrite (row_data_rows _ _ _ _ Er). Qed.

Lemma fspace_disabled q : fspace_hash (disabled q) = fspace_hash q.
Proof. by destruct q. Qed.

Lemma read_only_session dim st st' : read_only st st' → db_ok dim st → db_ok dim st' ∧ step_frame st st'.
Proof.
  intros [->| ->] Hdb; [done|]. split.
  - apply (db_ok_rows dim st); [done | apply fspace_disabled | done].
  - split; [|by right]. split; [done | apply fspace_disabled | | intros fss; apply has_model_rows; [done | apply fspace_disabled] | done].
    intros [Hq Hd]. destruct (ctx st). by split.
Qed.

(** Training touches the data house of its own subspace only. *)
Lemma trained_db dim fss st st' :
  db_frame fss st st' → house_ok (dim fss) fss st' → db_ok dim st → db_ok dim st' ∧ step_frame st st'.
Proof.
  intros [Ho Hr Hf Hq Hd Ht Hh Hc] Hown [Hmt Hm Hhs]. split.
  - split.
    + eapply table_ok_rows; [by apply Hr | done].
    + intros fss' t. rewrite Hf, (row_data_rows _ _ _ _ (Hr aqo_data_lwpr ltac:(done))). apply Hm.
    + intros fss'. destruct (decide (fss' = fss)) as [->|Hne]; [done|]. split; [apply Ht, (Hhs fss)|].
      intros rfh t. rewrite Hf, Hh by done. apply (Hhs fss').
  - split; [|done]. split; [done | done | | intros fss'; by apply has_model_rows; [apply Hr|] | intros r _ Hne; by apply Hr].
    intros [Q1 Q2]. by split; rewrite ?Hq, ?Hd.
Qed.

(** Writing the row of one model. *)
Lemma stored_db dim fss m st st' :
  let keys := [fspace_hash (ctx st); fss] in
  model_ok m → Forall flags_ok (rf m) → nIn (cfg m) = dim fss →
  wrote aqo_data_lwpr keys (model_row (fspace_hash (ctx st)) fss m) st st' → db_ok dim st → db_ok dim st' ∧ step_frame st st'.
Proof.
  intros keys Hm Hfl Hn (Hput & Ht & Ho & _) [_ Hms Hhs]. subst keys. pose proof (put_ctx _ _ _ _ _ Hput) as Ec. split.
  - split; [done | |].
    + intros fss' t. rewrite Ec. destruct (decide (fss' = fss)) as [->|Hne].
      * rewrite (put_found _ _ _ _ _ Hput). intros [= <-]. by exists m.
      * rewrite (put_other _ _ _ _ _ Hput) by (done || naive_solver). apply Hms.
    + intros fss'. eapply house_ok_rows; [apply (put_rel _ _ _ _ _ Hput); done | by rewrite Ec | apply Hhs].
  - split; [|by left]. split; rewrite ?Ec; try done; [|intros r Hne _; by apply (put_rel _ _ _ _ _ Hput)]. intros fss'. unfold has_model. rewrite Ec. destruct (decide (fss' = fss)) as [->|Hne].
    + rewrite (put_found _ _ _ _ _ Hput). by eexists.
    + by rewrite (put_other _ _ _ _ _ Hput) by (done || naive_solver).
Qed.

Lemma lost_db dim st : db_ok dim st → db_ok dim (set_cid st (S (cid st))) ∧ step_frame st (set_cid st (S (cid st))).
Proof. intros Hdb. split; [by apply (db_ok_rows dim st) | by split; [|left]]. Qed.

Lemma flags_ints n nInS RF : (Z.of_nat n < 2 ^ 31)%Z → rf_ok n nInS RF → flags_ok RF → ints_ok RF.
Proof.
  intros Hn [[_ Hr] _ _ _] [Ht Hs]. unfold ints_ok, is_int. rewrite Hs. split_and!; [|lia..|].
  - destruct Ht as [-> | ->]; lia.
  - lia.
Qed.

Lemma same_flags n nInS l l' : Forall2 (same_rf n nInS) l l' → Forall flags_ok l → Forall flags_ok l'.
Proof.
  induction 1 as [|RF RF' l l' Hs _ IH]; [constructor|]. inversion 1; subst. constructor; [|by apply IH].
  unfold flags_ok. by rewrite (same_trust _ _ _ _ Hs), (same_slopeReady _ _ _ _ Hs).
Qed.

Section steps.
Context `{Cluster} `{Libm} `{Palloc} `{Scratch}.
Context (dim : Z → nat) (Hcalm : calm) (Hav : available aqo_data_lwpr).

Lemma new_model_ok n : 1 ≤ n →
  ensures (new_model n) (fun m => model_ok m ∧ nIn (cfg m) = n ∧ rf m = [] ∧ thresholds_ok (cfg m)).
Proof.
  intros Hn. unfold new_model. pose proof (init_model_ok (palloc_mis 0).1 (palloc_mis 0).2 stack_config n Hn) as Hi.
  apply ensures_inv in Hi as (m & E & _). rewrite E. destruct (init_diag _ _ _ _ _ Hn E) as (? & ? & ? & ? & _). done.
Qed.

(** A model without inputs can be made; nothing is ever stored for it. *)
Lemma new_model_empty : ensures (new_model 0) (fun m => nIn (cfg m) = 0).
Proof. unfold new_model. destruct (palloc_mis 0) as [[] []], stack_config; vm_compute; reflexivity. Qed.

(** Loading the model of a subspace, with the row it comes from. *)
Lemma load_db fss m0 st :
  db_ok dim st → model_ok m0 → nIn (cfg m0) = dim fss → rf m0 = [] → (Z.of_nat (dim fss) < 2 ^ 31)%Z →
  pg_ensures (load_fss_rfwr fss (dim fss) m0) st (fun '(found, m) st' =>
    st' = st ∧ model_ok m ∧ Forall flags_ok (rf m) ∧ cfg m = cfg m0 ∧ fss_hash m = fss ∧
    if found : bool
    then ∃ mr, model_ok mr ∧ Forall flags_ok (rf mr) ∧ nIn (cfg mr) = dim fss ∧
           row_data st aqo_data_lwpr [fspace_hash (ctx st); fss] = Some (Some <$> model_row (fspace_hash (ctx st)) fss mr)
    else row_data st aqo_data_lwpr [fspace_hash (ctx st); fss] = None).
Proof.
  intros Hdb Hm0 Hn Hr Hint. destruct (row_data st aqo_data_lwpr [fspace_hash (ctx st); fss]) as [t|] eqn:Erow.
  - destruct (db_models _ _ Hdb fss t Erow) as (mr & Hmr & Hfl & Hnr & ->).
    assert (Hints : Forall ints_ok (rf mr)).
    { apply Forall_forall. intros RF HRF. apply (flags_ints (nIn (cfg mr)) (nInStore (cfg mr))); [by rewrite Hnr | |].
      - exact (proj1 (Forall_forall _ _) (m_rf _ Hmr) RF HRF).
      - exact (proj1 (Forall_forall _ _) Hfl RF HRF). }
    destruct (load_stored (fspace_hash (ctx st)) fss mr m0 st Hmr Hints Hm0) as (m' & E & (Hs & _) & Hf & Hok & Hc); [congruence | done | done | done|].
    rewrite Hnr in E. eapply pg_ensures_intro; [exact E|]. split_and!; [done | done | by eapply same_flags | done | done|]. by exists mr.
  - eapply pg_ensures_intro; [by apply load_absent|]. destruct m0. simpl in *. subst. split_and!; try done. destruct Hm0. by split.
Qed.

(** Storing the model of a subspace. *)
Lemma store_db fss m st :
  db_ok dim st → model_ok m → Forall flags_ok (rf m) → nIn (cfg m) = dim fss →
  pg_ensures (update_fss_rfwr fss (dim fss) m) st (fun _ st' => db_ok dim st' ∧ step_frame st st' ∧
    has_model st' fss).
Proof.
  intros Hdb Hm Hfl Hn. set (keys := [fspace_hash (ctx st); fss]).
  assert (Hcol : ∀ t0, row_data st aqo_data_lwpr keys = Some t0 → t0 !! 2 = Some (Some (Int32GetDatum (Z.of_nat (nIn (cfg m)))))).
  { intros t0 Ht0. destruct (db_models _ _ Hdb fss t0 Ht0) as (mr & _ & _ & Hnr & ->). rewrite Hn, <- Hnr. done. }
  assert (Hwrite : write_ok st aqo_data_lwpr keys UNIQUE_CHECK_NO →
    pg_ensures (update_fss_rfwr fss (dim fss) m) st (fun _ st' => db_ok dim st' ∧ step_frame st st' ∧
      has_model st' fss)).
  { intros Hw. destruct (update_fss_rfwr_ok fss m st Hm Hav (db_models_table _ _ Hdb) Hw Hcol) as (st' & E & Hwr).
    rewrite Hn in E. eapply pg_ensures_intro; [exact E|]. destruct (stored_db dim fss m st st' Hm Hfl Hn Hwr Hdb) as [Hdb' Hsf].
    destruct Hwr as (Hput & _). split_and!; [done | done|]. unfold has_model. rewrite (put_ctx _ _ _ _ _ Hput).
    rewrite (put_found _ _ _ _ _ Hput). by eexists. }
  destruct (find_row st aqo_data_lwpr keys) as [[tid t]|] eqn:Ef; [|by apply Hwrite; left].
  destruct (calm_result Hcalm (cid st)) as [Hres|Hres]; [by apply Hwrite; right; auto|].
  pose proof (update_fss_rfwr_lost fss m tid t st Hm Hav (db_models_table _ _ Hdb) Ef Hres) as E. rewrite Hn in E.
  eapply pg_ensures_intro; [exact E|]. destruct (lost_db dim st Hdb) as [? ?]. split_and!; [done | done|].
  change (is_Some (row_data st aqo_data_lwpr keys)). unfold row_data. rewrite Ef. by eexists.
Qed.

(** One training step of a subspace. *)
Lemma learn_step_db fss m0 features target st :
  db_ok dim st → query_ok (ctx st) → model_ok m0 → nIn (cfg m0) = dim fss → rf m0 = [] → thresholds_ok (cfg m0) →
  (Z.of_nat (dim fss) < 2 ^ 31)%Z → dim fss ≤ length features →
  pg_ensures (atomic_fss_learn_step_rfwr fss (dim fss) m0 features target) st (fun _ st' => db_ok dim st' ∧ step_frame st st' ∧
    has_model st' fss).
Proof.
  intros Hdb [Hq Hd] Hm0 Hn Hr Hth Hint Hfe. unfold atomic_fss_learn_step_rfwr.
  eapply pg_ensures_bind_mono; [by apply load_db|]. intros [found m] st1 (-> & Hm & Hfl & Hc & Hf & _). cbv beta iota.
  assert (Hn1 : nIn (cfg m) = dim fss) by congruence.
  eapply pg_ensures_bind_mono.
  { apply update_ok; [done | done | by rewrite Hc | rewrite Hn1, Hf; apply Hdb | done | lia]. }
  intros [m' code] st1 (-> & Hm' & Hc' & Hf' & _ & Hh' & Hfr & _ & _ & Hfl'). cbv beta iota. cbn [Z.eqb Pos.eqb].
  rewrite Hn1, Hf in Hh'. rewrite Hf in Hfr. destruct (trained_db dim fss st st1 Hfr Hh' Hdb) as [Hdb1 Hsf1].
  eapply pg_ensures_bind_mono; [apply store_db; [done | done | by apply Hfl' | congruence]|].
  intros _ st2 (Hdb2 & Hsf2 & Hrow). split_and!; [done | by eapply step_frame_trans | done].
Qed.
End steps.

(** ** Objects *)
Section objects.
Context `{Cluster} `{Libm} `{Palloc} `{Scratch}.
Context (dim : Z → nat) (Hcalm : calm) (Hav : available aqo_data_lwpr).

(** The clauses of an executed or planned relation with their selectivities; two
    objects with the same subspace hash have the same number of features. *)
Record object_ok (cl : list node) (sels : list double) (rl : list Z) : Prop := {
  obj_clauses : Forall clause_ok cl;
  obj_sels : length sels = length cl;
  obj_int : (Z.of_nat (length cl) < 2 ^ 31)%Z;
  obj_dim : ∀ fss F, fss_for_object cl sels rl = Ok (fss, F) → F = [] ∨ length F = dim fss
}.

Lemma fss_for_object_ok cl sels rl :
  object_ok cl sels rl → ensures (fss_for_object cl sels rl) (fun '(_, F) => length F ≤ length cl).
Proof.
  intros [Hc Hs _ _]. unfold fss_for_object. eapply ensures_mono.
  { apply get_fss_ok; [done | done | apply scratch_idx_len | apply scratch_hash_len]. }
  intros [h F] (ah & eh & hs & items & rh & [_ Hh Hit _ _ _ Hf]).
  assert (Hlen : length items = length cl).
  { rewrite (Permutation_length Hit). by apply length_raw_items; [symmetry; eapply Forall2_length | |]. }
  rewrite (fo_len _ _ _ Hf), <- Hlen. apply length_filter.
Qed.

(** The object of the subspace, and that subspace with its size. *)
Lemma object_fss cl sels rl :
  object_ok cl sels rl → ∃ fss F, fss_for_object cl sels rl = Ok (fss, F) ∧ length F ≤ length cl ∧ (F = [] ∨ length F = dim fss).
Proof.
  intros Ho. destruct (ensures_inv _ _ (fss_for_object_ok _ _ _ Ho)) as ([fss F] & E & Hl). exists fss, F.
  split_and!; [done | done | by apply (obj_dim _ _ _ Ho)].
Qed.

Lemma learn_sample_db cl sels rl t p s st :
  db_ok dim st → query_ok (ctx st) → object_ok cl sels rl →
  ∃ fss F, fss_for_object cl sels rl = Ok (fss, F) ∧
  pg_ensures (learn_sample_rfwr cl sels rl t p s) st (fun '(s', flag) st' =>
    s' = count_error s t p ∧ flag = (if (0 <? length F)%nat then 1 else 0)%Z ∧ db_ok dim st' ∧ step_frame st st' ∧
    (F ≠ [] → has_model st' fss)).
Proof.
  intros Hdb Hq Ho. destruct (object_fss cl sels rl Ho) as (fss & F & E & Hl & Hd). exists fss, F. split; [done|].
  unfold learn_sample_rfwr. cbv zeta. rewrite E. apply pg_ensures_bind, pg_ensures_lift. cbn [ensures].
  destruct (Nat.ltb_spec 0 (length F)) as [Hpos|Hz].
  - destruct Hd as [->|Hd]; [simpl in Hpos; lia|]. rewrite Hd. apply pg_ensures_bind, pg_ensures_lift.
    eapply ensures_mono; [apply (new_model_ok (dim fss)); lia|]. intros m (Hm & Hn & Hr & Hth).
    eapply pg_ensures_bind_mono.
    { apply learn_step_db; try done; [|lia]. pose proof (obj_int _ _ _ Ho). lia. }
    intros _ st' (Hdb' & Hsf & Hrow). split_and!; done.
  - split_and!; [done | done | done | done|]. destruct F; [done | simpl in Hz; lia].
Qed.

(** A model of another dimension is not loaded. *)
Lemma load_mismatch fss n m0 st :
  db_ok dim st → dim fss ≠ n → has_model st fss → load_fss_rfwr fss n m0 st = (Ok (false, m0), st).
Proof.
  intros Hdb Hne [t Ht]. destruct (db_models _ _ Hdb fss t Ht) as (mr & _ & _ & Hnr & ->).
  destruct Hav as [Hv Hr]. unfold load_fss_rfwr. pg_prologue Hv Hr. destruct (row_data_found _ _ _ _ Ht) as (i & ->).
  apply (read_finish aqo_data_lwpr). unfold pg_lift. f_equal. rewrite (heap_deform_ok _ 35 (datums 35)) by done.
  unfold model_row. cbn [mbind res_bind rd lookup list_lookup app fmap list_fmap DatumGetInt32].
  destruct (Z.eqb_spec (Z.of_nat (nIn (cfg mr))) (Z.of_nat n)); [lia | done].
Qed.

(** The estimate of an object: without a model, or without features, it is
    refused. *)
Lemma estimate_db cl sels rl ev0 st :
  db_ok dim st → query_ok (ctx st) → object_ok cl sels rl →
  (∀ fss F, fss_for_object cl sels rl = Ok (fss, F) → length F ≠ 1) →
  ∃ fss F, fss_for_object cl sels rl = Ok (fss, F) ∧
  pg_ensures (predict_for_relation_lwpr_explore cl sels rl ev0) st (fun ev st' =>
    db_ok dim st' ∧ step_frame st st' ∧
    (F = [] ∨ ¬ has_model st fss → ev = mkEV (d_of_Z (-1)) (est_uncof ev0) (est_future ev0) (rate ev0) ∧ st' = st) ∧
    (F ≠ [] → has_model st fss → rate ev = rate_between_explore_value)).
Proof.
  intros Hdb Hq Ho Hone. destruct (object_fss cl sels rl Ho) as (fss & F & E & Hl & Hd). exists fss, F. split; [done|].
  pose proof (Hone fss F E) as Hne1. unfold predict_for_relation_lwpr_explore. cbv zeta. rewrite E.
  apply pg_ensures_bind, pg_ensures_lift. cbn [ensures].
  destruct F as [|f F'].
  { apply pg_ensures_bind, pg_ensures_lift. eapply ensures_mono; [apply new_model_empty|]. intros m _. 
    assert (Eload : ∃ m', load_fss_rfwr fss 0 m st = (Ok (false, m'), st)).
    { destruct (row_data st aqo_data_lwpr [fspace_hash (ctx st); fss]) eqn:Er; [|eexists; by apply load_absent].
      assert (Hhas : has_model st fss) by (unfold has_model; rewrite Er; by eexists).
      exists m. apply load_mismatch; [done | | done]. destruct Hhas as [t0 Ht0].
      destruct (db_models _ _ Hdb fss t0 Ht0) as (mr & Hmr & _ & Hnr & _). pose proof (cfg_nIn _ (m_cfg _ Hmr)). lia. }
    destruct Eload as [m' Eload]. unfold pg_ensures. cbn [length]. rewrite (pg_bind_ok _ _ _ _ _ Eload). cbv beta iota.
    split_and!; done. }
  set (F := f :: F') in *. assert (HF : F ≠ []) by done. destruct Hd as [Hd|Hd]; [done|]. assert (Hpos : 2 ≤ dim fss) by (rewrite <- Hd in *; simpl in *; lia).
  clearbody F. rewrite Hd. apply pg_ensures_bind, pg_ensures_lift.
  eapply ensures_mono; [apply (new_model_ok (dim fss)); lia|]. intros m0 (Hm0 & Hn & Hr & Hth).
  eapply pg_ensures_bind_mono; [apply load_db; try done; pose proof (obj_int _ _ _ Ho); lia|].
  intros [found m] st1 (-> & Hm & Hfl & Hc & Hf & Hrow). cbv beta iota.
  destruct found; cbv beta iota in Hrow.
  - destruct Hrow as (mr & Hmr & Hflr & Hnr & Hrow). assert (Hhas : has_model st fss) by (unfold has_model; rewrite Hrow; by eexists).
    assert (Hn1 : nIn (cfg m) = dim fss) by congruence.
    eapply pg_ensures_bind_mono.
    { apply predict_explore_ok; [|rewrite Hn1; lia]. destruct Hq as [Hq1 Hq2].
      split; [done | done | | rewrite Hn1, Hf; apply Hdb | done | done].
      apply Forall_forall. intros RF _. left. lia. }
    intros [m2 ev] st1 (Hm2 & Hsm & _ & Hro & Hrate & _). cbv beta iota. destruct (read_only_session dim st st1 Hro Hdb) as [Hdb1 Hsf1].
    assert (Erow : row_data st1 aqo_data_lwpr [fspace_hash (ctx st1); fss] = Some (Some <$> model_row (fspace_hash (ctx st1)) fss mr)).
    { rewrite (sf_fspace _ _ Hsf1). by destruct Hro as [-> | ->]. }
    assert (En2 : nIn (cfg m2) = nIn (cfg mr)) by (destruct Hsm as (-> & _); congruence).
    destruct (update_fss_rfwr2_ok fss mr m2 st1 Hm2 En2 Hav (db_models_table _ _ Hdb1) Erow) as [Hwr Hlost]. rewrite Hnr in Hwr, Hlost.
    set (mr' := set_history mr (history_data_matrix m2) (num_history_data m2)) in *.
    assert (Hmr' : model_ok mr' ∧ Forall flags_ok (rf mr') ∧ nIn (cfg mr') = dim fss).
    { subst mr'. rewrite <- Hnr. destruct Hm2 as [_ _ _ _ _ A6 A7 A8 A9]. destruct Hmr as [B1 B2 B3 B4 B5 B6 B7 B8 B9].
      rewrite En2 in A7. destruct mr. simpl in *. split_and!; [|done..]. by split. }
    destruct Hmr' as (Hmr' & Hfl' & Hn').
    destruct (calm_result Hcalm (cid st1)) as [Hres|Hres].
    + destruct (Hwr Hres) as (st2 & E2 & Hw2). destruct (stored_db dim fss mr' st1 st2 Hmr' Hfl' Hn' Hw2 Hdb1) as [Hdb2 Hsf2].
      unfold pg_ensures. rewrite (pg_bind_ok _ _ _ _ _ E2). split_and!; [done | by eapply step_frame_trans | by intros [?|?] | done].
    + destruct (lost_db dim st1 Hdb1) as [Hdb2 Hsf2]. unfold pg_ensures. rewrite (pg_bind_ok _ _ _ _ _ (Hlost Hres)).
      split_and!; [done | by eapply step_frame_trans | by intros [?|?] | done].
  - split_and!; [done | done | done|]. intros _ Hhas. unfold has_model in Hhas. rewrite Hrow in Hhas. by destruct Hhas.
Qed.
End objects.

(** ** Sessions *)

(** What happens between the start of a session and its end, as far as the
    models are concerned: an executed node is learned, a relation is estimated,
    the next query is planned. *)
Inductive session_op : Type :=
| Learn (cl : list node) (sels : list double) (rl : list Z) (true_rows plan_rows : double)
| Estimate (cl : list node) (sels : list double) (rl : list Z)
| NextQuery (q : QueryContextData).

Section session.
Context `{Cluster} `{Libm} `{Palloc} `{Scratch}.

Definition run_op (op : session_op) (s : learn_stats) : PG learn_stats :=
  match op with
  | Learn cl sels rl t p => '(s, _) ← learn_sample_rfwr cl sels rl t p s; mret s
  | Estimate cl sels rl => _ ← predict_for_relation_lwpr_explore cl sels rl lwpr_men_alloc_ev; mret s
  | NextQuery q => pg_modify (fun st => set_ctx st q);; mret (mkStats d0 0)
  end.

Fixpoint run_session (ops : list session_op) (s : learn_stats) : PG learn_stats :=
  match ops with
  | [] => mret s
  | op :: ops => s ← run_op op s; run_session ops s
  end.

(** An estimated relation does not have exactly one feature; the queries of the
    session share a feature space. *)
Definition op_ok (dim : Z → nat) (fspace : Z) (op : session_op) : Prop :=
  match op with
  | Learn cl sels rl _ _ => object_ok dim cl sels rl
  | Estimate cl sels rl => object_ok dim cl sels rl ∧ ∀ fss F, fss_for_object cl sels rl = Ok (fss, F) → length F ≠ 1
  | NextQuery q => query_ok q ∧ fspace_hash q = fspace
  end.

Lemma run_op_db dim op s st :
  calm → available aqo_data_lwpr → db_ok dim st → query_ok (ctx st) → op_ok dim (fspace_hash (ctx st)) op →
  pg_ensures (run_op op s) st (fun _ st' => db_ok dim st' ∧ session_frame st st').
Proof.
  intros Hcalm Hav Hdb Hq Hop. destruct op as [cl sels rl t p|cl sels rl|q]; simpl in *.
  - destruct (learn_sample_db dim Hcalm Hav cl sels rl t p s st Hdb Hq Hop) as (fss & F & _ & Hl).
    eapply pg_ensures_bind_mono; [exact Hl|]. intros [s' flag] st' (_ & _ & Hdb' & [Hsf _] & _). done.
  - destruct Hop as [Ho Hone]. destruct (estimate_db dim Hcalm Hav cl sels rl lwpr_men_alloc_ev st Hdb Hq Ho Hone) as (fss & F & _ & Hl).
    eapply pg_ensures_bind_mono; [exact Hl|]. intros ev st' (Hdb' & [Hsf _] & _). done.
  - destruct Hop as [Hq' Hf]. unfold pg_ensures. cbn. split; [by apply (db_ok_rows dim st)|].
    split; [done | done | done | | done]. intros fss. by apply has_model_rows.
Qed.

Lemma run_session_db dim ops s st :
  calm → available aqo_data_lwpr → db_ok dim st → query_ok (ctx st) → Forall (op_ok dim (fspace_hash (ctx st))) ops →
  pg_ensures (run_session ops s) st (fun _ st' => db_ok dim st' ∧ session_frame st st').
Proof.
  intros Hcalm Hav. revert s st. induction ops as [|op ops IH]; intros s st Hdb Hq Hops; [done|].
  apply Forall_cons in Hops as [Hop Hops]. cbn [run_session]. eapply pg_ensures_bind_mono; [by apply run_op_db|].
  intros s' st' [Hdb' Hsf]. eapply pg_ensures_mono; [apply IH; [done | by apply Hsf | by rewrite (sf_fspace _ _ Hsf)]|].
  intros s'' st'' [Hdb'' Hsf']. split; [done | by eapply session_frame_trans].
Qed.


End session.

(** ** Concrete inputs *)
Definition sample_scratch : Scratch :=
  {| scratch_idx := fun n => replicate n 7; scratch_hash := fun n => replicate n 9%Z; stack_config := zero_config;
     scratch_idx_len := fun n => length_replicate n 7; scratch_hash_len := fun n => length_replicate n 9%Z |}.

Definition sample_clauses : list node := [sample_eq (sample_int 5); sample_join].
Definition sample_sels : list double := [dlit 1 10; dlit 1 2].
Definition sample_learn : session_op := Learn sample_clauses sample_sels [3; 1]%Z (d_of_Z 40) (d_of_Z 50).
Definition sample_estimate : session_op := Estimate sample_clauses sample_sels [3; 1]%Z.

Lemma sample_object : @object_ok sample_libm sample_scratch (fun _ => 2) sample_clauses sample_sels [3; 1]%Z.
Proof.
  split; [repeat constructor; intros _; discriminate | reflexivity | simpl; lia|].
  intros fss F E. right. vm_compute in E. injection E as _ <-. reflexivity.
Qed.

Lemma sample_two fss F : @fss_for_object sample_libm sample_scratch sample_clauses sample_sels [3; 1]%Z = Ok (fss, F) → length F ≠ 1.
Proof. intros E. vm_compute in E. injection E as _ <-. discriminate. Qed.

Lemma planning_db : db_ok (fun _ => 2) planning_state.
Proof. split; [split; [intros [] | intros []]; done | intros fss t; discriminate | intros fss; apply planning_house]. Qed.

Lemma planning_query : query_ok (ctx planning_state).
Proof. split; [by split | vm_compute; lia]. Qed.

Lemma sample_ops_ok :
  Forall (@op_ok sample_libm sample_scratch (fun _ => 2) (fspace_hash (ctx planning_state))) [sample_learn; sample_estimate].
Proof. constructor; [exact sample_object|]. constructor; [exact (conj sample_object sample_two) | constructor]. Qed.


