(* ===== verification/Preprocess.v ===== *)
(** * Preprocess: what AQO does before a query is planned

    contrib/aqo/preprocessing.c: [aqo_planner] decides whether AQO works on the
    query, finds or stores its settings, moves the history of the query patterns
    on, and hands the query to the planner below.  The parts of a [Query] it
    looks at are the command, the tree that is hashed and the tree of range
    tables; the planner it calls is an argument. *)
From S2P Require Import Prelude Float64 Nodes HashText Knn PgArray LwprModel PgState Storage StorageLwpr LwprUpdate SelectivityCache Costs.
From stdpp Require Import strings.
From Stdlib Require Import Ascii.

Inductive AqoMode : Type :=
| AQO_MODE_INTELLIGENT | AQO_MODE_FORCED | AQO_MODE_CONTROLLED | AQO_MODE_LEARN | AQO_MODE_DISABLED.

#[export] Instance AqoMode_eq_dec : EqDecision AqoMode.
Proof. solve_decision. Defined.

Inductive CmdType : Type :=
| CMD_UNKNOWN | CMD_SELECT | CMD_UPDATE | CMD_INSERT | CMD_DELETE | CMD_UTILITY | CMD_NOTHING.

Inductive RTEKind : Type :=
| RTE_RELATION | RTE_SUBQUERY | RTE_JOIN | RTE_FUNCTION | RTE_TABLEFUNC | RTE_VALUES | RTE_CTE | RTE_NAMEDTUPLESTORE.

Record RangeTblEntry : Type := mkRTE { rtekind : RTEKind; rte_relid : Z }.

(** A node as the walkers see it: a [Query] with its range table, or another
    node, each with the nodes that [query_tree_walker] or
    [expression_tree_walker] hands on, in their order. *)
Inductive walked : Type :=
| WQuery (rtable : list RangeTblEntry) (subs : list walked)
| WNode (subs : list walked).

Record Query : Type := mkQuery { commandType : CmdType; parse_tree : node; query_nodes : walked }.

(** What the server knows. *)
Class Server : Type := {
  IsInParallelMode : bool;
  IsParallelWorker : bool;
  RecoveryInProgress : bool;
  relnamespace : Z → Z;
  myTempToastNamespace : Z
}.

(** ** System relations *)
Definition PG_CATALOG_NAMESPACE : Z := 11.
Definition PG_TOAST_NAMESPACE : Z := 99.
Definition FirstNormalObjectId : Z := 16384.
Definition IsSystemNamespace (namespaceId : Z) : bool := (namespaceId =? PG_CATALOG_NAMESPACE)%Z.

Section system_relations.
Context `{Server}.

Definition isTempToastNamespace (namespaceId : Z) : bool :=
  negb (myTempToastNamespace =? 0)%Z && (myTempToastNamespace =? namespaceId)%Z.

Definition IsToastNamespace (namespaceId : Z) : bool :=
  (namespaceId =? PG_TOAST_NAMESPACE)%Z || isTempToastNamespace namespaceId.

Definition IsCatalogClass (relid namespaceId : Z) : bool :=
  if negb (IsSystemNamespace namespaceId) && negb (IsToastNamespace namespaceId) then false
  else (relid <? FirstNormalObjectId)%Z.

Definition IsCatalogRelation (relid : Z) : bool := IsCatalogClass relid (relnamespace relid).

Fixpoint rtable_uses_catalog (rtable : list RangeTblEntry) : bool :=
  match rtable with
  | [] => false
  | rte :: rtable =>
      match rtekind rte with
      | RTE_RELATION => if IsCatalogRelation (rte_relid rte) then true else rtable_uses_catalog rtable
      | _ => rtable_uses_catalog rtable
      end
  end.

Fixpoint isQueryUsingSystemRelation_walker (n : walked) : bool :=
  match n with
  | WQuery rtable subs =>
      if rtable_uses_catalog rtable then true
      else (fix walk l := match l with [] => false | n :: l => if isQueryUsingSystemRelation_walker n then true else walk l end) subs
  | WNode subs =>
      (fix walk l := match l with [] => false | n :: l => if isQueryUsingSystemRelation_walker n then true else walk l end) subs
  end.

Definition isQueryUsingSystemRelation (query : Query) : bool := isQueryUsingSystemRelation_walker (query_nodes query).
End system_relations.

(** ** The query context *)
Definition q_modify (f : QueryContextData → QueryContextData) : PG unit := pg_modify (fun st => set_ctx st (f (ctx st))).
Definition q_get {A} (f : QueryContextData → A) : PG A := pg_get (fun st => f (ctx st)).

Definition set_explain_aqo (b : bool) (q : QueryContextData) : QueryContextData :=
  let '(mkContext qh la ua fh at_ cs aq eo _ ts pt cq di nf cf be bp) := q in
  mkContext qh la ua fh at_ cs aq eo b ts pt cq di nf cf be bp.
Definition set_starttime (t : instr_time) (q : QueryContextData) : QueryContextData :=
  let '(mkContext qh la ua fh at_ cs aq eo ea _ pt cq di nf cf be bp) := q in
  mkContext qh la ua fh at_ cs aq eo ea t pt cq di nf cf be bp.
Definition set_nfeatures (n : nat) (q : QueryContextData) : QueryContextData :=
  let '(mkContext qh la ua fh at_ cs aq eo ea ts pt cq di _ cf be bp) := q in
  mkContext qh la ua fh at_ cs aq eo ea ts pt cq di n cf be bp.
Definition set_query_features (l : list double) (q : QueryContextData) : QueryContextData :=
  let '(mkContext qh la ua fh at_ cs aq eo ea ts pt cq di nf _ be bp) := q in
  mkContext qh la ua fh at_ cs aq eo ea ts pt cq di nf l be bp.
Definition set_current_query_hash (h : Z) (q : QueryContextData) : QueryContextData :=
  let '(mkContext qh la ua fh at_ cs aq eo ea ts pt _ di nf cf be bp) := q in
  mkContext qh la ua fh at_ cs aq eo ea ts pt h di nf cf be bp.
Definition set_query_hash (h : Z) (q : QueryContextData) : QueryContextData :=
  let '(mkContext _ la ua fh at_ cs aq eo ea ts pt cq di nf cf be bp) := q in
  mkContext h la ua fh at_ cs aq eo ea ts pt cq di nf cf be bp.
Definition set_fspace (h : Z) (q : QueryContextData) : QueryContextData :=
  let '(mkContext qh la ua _ at_ cs aq eo ea ts pt cq di nf cf be bp) := q in
  mkContext qh la ua h at_ cs aq eo ea ts pt cq di nf cf be bp.
Definition set_auto_tuning (b : bool) (q : QueryContextData) : QueryContextData :=
  let '(mkContext qh la ua fh _ cs aq eo ea ts pt cq di nf cf be bp) := q in
  mkContext qh la ua fh b cs aq eo ea ts pt cq di nf cf be bp.

(** [adding_query], [learn_aqo], [use_aqo] and [collect_stat]. *)
Definition set_adding (b : bool) (q : QueryContextData) : QueryContextData :=
  let '(mkContext qh la ua fh at_ cs _ eo ea ts pt cq di nf cf be bp) := q in
  mkContext qh la ua fh at_ cs b eo ea ts pt cq di nf cf be bp.
Definition set_learn (b : bool) (q : QueryContextData) : QueryContextData :=
  let '(mkContext qh _ ua fh at_ cs aq eo ea ts pt cq di nf cf be bp) := q in
  mkContext qh b ua fh at_ cs aq eo ea ts pt cq di nf cf be bp.
Definition set_use (b : bool) (q : QueryContextData) : QueryContextData :=
  let '(mkContext qh la _ fh at_ cs aq eo ea ts pt cq di nf cf be bp) := q in
  mkContext qh la b fh at_ cs aq eo ea ts pt cq di nf cf be bp.
Definition set_collect (b : bool) (q : QueryContextData) : QueryContextData :=
  let '(mkContext qh la ua fh at_ _ aq eo ea ts pt cq di nf cf be bp) := q in
  mkContext qh la ua fh at_ b aq eo ea ts pt cq di nf cf be bp.

(** ** The planner hook *)
Definition dquote : cstring := ["034"%char].
Definition CREATE_EXTENSION_STARTSTRING_0 : cstring :=
  lit "-- complain if script is sourced in psql, rather than via CREATE EXTENSION".
Definition CREATE_EXTENSION_STARTSTRING_1 : cstring :=
  lit "SELECT 1 FROM ONLY " ++ dquote ++ lit "public" ++ dquote ++ lit "." ++ dquote ++ lit "aqo_queries" ++ dquote ++
  lit " x WHERE " ++ dquote ++ lit "query_hash" ++ dquote ++ lit " OPERATOR(pg_catalog.=) $1 FOR KEY SHARE OF x".

(** [strncmp(s, pre, strlen(pre)) == 0] *)
Definition starts_with (pre s : cstring) : bool := bool_decide (take (length pre) s = pre).

Definition planned_command (c : CmdType) : bool :=
  match c with CMD_SELECT | CMD_INSERT | CMD_UPDATE | CMD_DELETE => true | _ => false end.

(** The seven templates of the workload. *)
Definition query_template (h : Z) : Z :=
  if (h =? 1370653224)%Z then 1
  else if (h =? 164935887)%Z then 2
  else if (h =? -1029517898)%Z then 3
  else if (h =? 1392879147)%Z then 4
  else if (h =? -63216440)%Z then 5
  else if (h =? 933944866)%Z then 6
  else if (h =? 1409061130)%Z then 7
  else 0.

Section planner.
Context `{Cluster} `{Server} (aqo_mode : AqoMode).

(** The queries AQO leaves alone; [query_text] is the null pointer until a
    query has been parsed. *)
Definition not_for_aqo (query_text : option cstring) (parse : Query) : res bool :=
  if negb (planned_command (commandType parse)) then Ok true
  else
    match query_text with
    | None => Err Fault_bounds
    | Some text =>
        Ok (starts_with CREATE_EXTENSION_STARTSTRING_0 text || starts_with CREATE_EXTENSION_STARTSTRING_1 text ||
            IsInParallelMode || IsParallelWorker || bool_decide (aqo_mode = AQO_MODE_DISABLED) ||
            isQueryUsingSystemRelation parse)
    end.

(** The settings of a query that is not stored, by the mode. *)
Definition new_settings (q : QueryContextData) : QueryContextData :=
  match aqo_mode with
  | AQO_MODE_INTELLIGENT =>
      set_collect true (set_auto_tuning true (set_fspace (query_hash q) (set_use false (set_learn true (set_adding true q)))))
  | AQO_MODE_FORCED =>
      set_collect false (set_fspace 0 (set_auto_tuning false (set_use true (set_learn true (set_adding false q)))))
  | AQO_MODE_CONTROLLED => set_collect false (set_use false (set_learn false (set_adding false q)))
  | AQO_MODE_LEARN =>
      set_collect true (set_auto_tuning true (set_fspace (query_hash q) (set_use true (set_learn true (set_adding true q)))))
  | AQO_MODE_DISABLED => q
  end.

(** Stores a new query with its text when the mode asks for it. *)
Definition store_query (query_text : cstring) : PG unit :=
  q ← q_get id;
  if adding_query q then
    query_history ← pg_lift (wr (palloc0 num_history_data_compute_probability_fs) 0 (d_of_Z (current_query_hash q)));
    _ ← add_query (query_hash q) (learn_aqo q) (use_aqo q) (fspace_hash q) (auto_tuning q) query_history 1 1 (palloc0 2) 0;
    _ ← add_query_text (query_hash q) query_text;
    mret tt
  else mret tt.

(** Returns whether AQO stays on. *)
Definition new_query (query_text : cstring) : PG bool :=
  q_modify new_settings;;
  if RecoveryInProgress then
    if bool_decide (aqo_mode = AQO_MODE_FORCED) then
      q_modify (fun q => set_collect false (set_auto_tuning false (set_learn false (set_adding false q))));;
      store_query query_text;; mret true
    else disable_aqo_for_query;; mret false
  else store_query query_text;; mret true.

(** The pattern of the query goes into the history: into the next free cell, or
    last after the others have moved up. *)
Definition push_pattern (query_history : list double) (num_history_data pattern : Z) : res (list double * Z) :=
  if (num_history_data <? Z.of_nat num_history_data_compute_probability_fs)%Z then
    h ← wrz query_history num_history_data (d_of_Z pattern);
    Ok (h, num_history_data + 1)%Z
  else
    h ← for_range 1 (Z.to_nat num_history_data) (fun j h => x ← rd h j; wr h (j - 1) x) query_history;
    h ← wrz h (num_history_data - 1) (d_of_Z pattern);
    Ok (h, num_history_data).

Definition stored_query (query_params : list Datum) : PG unit :=
  let int_param i := pg_lift (d ← rd query_params i; DatumGetInt32 d) in
  let bool_param i := pg_lift (d ← rd query_params i; DatumGetBool d) in
  let vector_param i n := pg_lift ('(v, _) ← (d ← rd query_params i; get_vector d (palloc0 n)); Ok v) in
  learn ← bool_param 1;
  use ← bool_param 2;
  fspace ← int_param 3;
  tuning ← bool_param 4;
  num_history_data ← int_param 6;
  total_num ← int_param 7;
  q_modify (fun q => set_collect tuning (set_auto_tuning tuning (set_fspace fspace (set_use use (set_learn learn (set_adding false q))))));;
  query_history ← vector_param 5 num_history_data_compute_probability_fs;
  current_query ← vector_param 8 2;
  num_feature ← int_param 9;
  pattern ← q_get current_query_hash;
  '(query_history, num_history_data) ← pg_lift (push_pattern query_history num_history_data pattern);
  let total_num := to_int32 (total_num + 1) in
  qh ← q_get query_hash;
  _ ← update_query2 qh learn use fspace tuning query_history num_history_data total_num;
  _ ← load_query_distribution (Z.to_nat num_history_data) (get_int_array_hash2 query_history);
  if (num_feature <? 0)%Z then pg_throw (Fault_elog "invalid memory alloc request size"%string)
  else
    let n := Z.to_nat num_feature in
    calculate_current_best_estimate_cost pattern n current_query;;
    features ← pg_lift (for_range 0 n (fun i f => x ← rd current_query i; wr f i x) (palloc0 n));
    q_modify (fun q => set_query_features features (set_nfeatures n q));;
    if RecoveryInProgress then q_modify (fun q => set_collect false (set_auto_tuning false (set_learn false q))) else mret tt.

(** [call_default_planner] is the planner below, with the empty selectivity
    cache. *)
Definition aqo_planner {A} (query_text : option cstring) (now : instr_time) (parse : Query)
    (call_default_planner : list Entry → PG A) (objects : list Entry) : PG A :=
  let objects := selectivity_cache_clear objects in
  q_modify (set_explain_aqo false);;
  skip ← pg_lift (not_for_aqo query_text parse);
  if skip : bool then disable_aqo_for_query;; call_default_planner objects
  else
    q_modify (fun q => set_nfeatures 0 (set_starttime now q));;
    h ← pg_lift (get_query_hash (parse_tree parse));
    let pattern := query_template h in
    q_modify (set_current_query_hash pattern);;
    if (pattern =? 0)%Z then disable_aqo_for_query;; call_default_planner objects
    else
      q_modify (set_query_hash 1);;
      '(query_is_stored, (query_params, _)) ← find_query 1 (datums 10) (falses 10);
      on ← (if query_is_stored : bool then stored_query query_params;; mret true else new_query (default [] query_text));
      if on : bool then q_modify (fun q => set_explain_aqo (use_aqo q) q);; call_default_planner objects
      else call_default_planner objects.
End planner.

(** ** Around the planner *)

(** The text of the query being parsed is kept when there is one. *)
Definition get_query_text (pstate : option cstring) (query_text : option cstring) : option cstring :=
  match pstate with Some p_sourcetext => Some p_sourcetext | None => query_text end.

(** Returns whether the line on AQO is printed. *)
Definition print_into_explain (verbose : bool) : PG bool :=
  on ← q_get explain_aqo;
  if on : bool then q_modify (set_explain_aqo false);; mret verbose else mret false.

(** ** System relations are found wherever they are *)
Inductive mentions (r : Z) : walked → Prop :=
| mentions_here rtable subs : mkRTE RTE_RELATION r ∈ rtable → mentions r (WQuery rtable subs)
| mentions_query rtable subs n : n ∈ subs → mentions r n → mentions r (WQuery rtable subs)
| mentions_node subs n : n ∈ subs → mentions r n → mentions r (WNode subs).

Fixpoint walked_size (n : walked) : nat :=
  match n with WQuery _ subs | WNode subs => S (foldr (fun n k => walked_size n + k) 0 subs) end.

Lemma walked_sub n subs : n ∈ subs → walked_size n < S (foldr (fun n k => walked_size n + k) 0 subs).
Proof. induction 1; simpl; lia. Qed.

Section walk.
Context `{Server}.

Lemma walk_subs (f : walked → bool) subs :
  (fix walk l := match l with [] => false | n :: l => if f n then true else walk l end) subs = true ↔
  ∃ n, n ∈ subs ∧ f n = true.
Proof.
  induction subs as [|n subs IH]; [split; [done | intros (n & Hn & _); by apply elem_of_nil in Hn]|].
  destruct (f n) eqn:En; [split; [intros _; exists n; split; [left | done] | done]|].
  rewrite IH. split; intros (m & Hm & Em); exists m; (split; [|done]); [by right|].
  apply elem_of_cons in Hm as [->|Hm]; [by rewrite En in Em | done].
Qed.

Lemma rtable_uses_catalog_ok rtable :
  rtable_uses_catalog rtable = true ↔ ∃ r, mkRTE RTE_RELATION r ∈ rtable ∧ IsCatalogRelation r = true.
Proof.
  induction rtable as [|[k r0] rtable IH]; cbn [rtable_uses_catalog rtekind rte_relid].
  - split; [done | intros (r & Hr & _); by apply elem_of_nil in Hr].
  - assert (Hskip : (∃ r, mkRTE RTE_RELATION r ∈ rtable ∧ IsCatalogRelation r = true) →
                    ∃ r, mkRTE RTE_RELATION r ∈ mkRTE k r0 :: rtable ∧ IsCatalogRelation r = true).
    { intros (r & Hr & Hc). exists r. split; [by right | done]. }
    assert (Hback : (k = RTE_RELATION → IsCatalogRelation r0 = false) →
                    (∃ r, mkRTE RTE_RELATION r ∈ mkRTE k r0 :: rtable ∧ IsCatalogRelation r = true) →
                    ∃ r, mkRTE RTE_RELATION r ∈ rtable ∧ IsCatalogRelation r = true).
    { intros Hno (r & Hr & Hc). exists r. split; [|done]. apply elem_of_cons in Hr as [[= <- <-]|Hr]; [|done].
      by rewrite Hno in Hc. }
    destruct k; try (rewrite IH; split; [done | by apply Hback]).
    destruct (IsCatalogRelation r0) eqn:Ec; [split; [intros _; exists r0; split; [left | done] | done]|].
    rewrite IH. split; [done | by apply Hback].
Qed.

(** The walk finds exactly the catalog relations that some query of the tree has
    in its range table. *)
Lemma uses_system_ok n :
  isQueryUsingSystemRelation_walker n = true ↔ ∃ r, mentions r n ∧ IsCatalogRelation r = true.
Proof.
  remember (walked_size n) as k eqn:Ek. revert n Ek. induction (lt_wf k) as [k _ IH]. intros n ->.
  assert (Hsubs : ∀ subs : list walked, (∀ m, m ∈ subs → walked_size m < walked_size n) →
    (∃ m, m ∈ subs ∧ isQueryUsingSystemRelation_walker m = true) ↔
    ∃ r m, m ∈ subs ∧ mentions r m ∧ IsCatalogRelation r = true).
  { intros subs Hs. split.
    - intros (m & Hm & E). apply (IH _ (Hs _ Hm) m eq_refl) in E as (r & Hr & Hc). eauto.
    - intros (r & m & Hm & Hr & Hc). exists m. split; [done|]. apply (IH _ (Hs _ Hm) m eq_refl). eauto. }
  destruct n as [rtable subs|subs]; cbn [isQueryUsingSystemRelation_walker].
  - destruct (rtable_uses_catalog rtable) eqn:Et.
    + split; [|done]. intros _. apply rtable_uses_catalog_ok in Et as (r & Hr & Hc). exists r. split; [by constructor | done].
    + rewrite walk_subs, Hsubs by (intros m Hm; by apply walked_sub). split.
      * intros (r & m & Hm & Hr & Hc). exists r. split; [by econstructor 2 | done].
      * intros (r & Hr & Hc). inversion Hr as [? ? Hin|? ? m Hm Hrm|]; subst; [|by eauto].
        assert (rtable_uses_catalog rtable = true) by (apply rtable_uses_catalog_ok; eauto). congruence.
  - rewrite walk_subs, Hsubs by (intros m Hm; by apply walked_sub). split.
    + intros (r & m & Hm & Hr & Hc). exists r. split; [by econstructor 3 | done].
    + intros (r & Hr & Hc). inversion Hr; subst. eauto.
Qed.
End walk.

(** ** Queries that AQO leaves alone *)
Definition aqo_off (q : QueryContextData) : Prop :=
  learn_aqo q = false ∧ use_aqo q = false ∧ auto_tuning q = false ∧ collect_stat q = false ∧ adding_query q = false ∧
  explain_aqo q = false.

Lemma q_modify_bind {A} f (k : unit → PG A) st : (q_modify f ≫= k) st = k tt (set_ctx st (f (ctx st))).
Proof. done. Qed.

Lemma q_get_bind {A B} (f : QueryContextData → A) (k : A → PG B) st : (q_get f ≫= k) st = k (f (ctx st)) st.
Proof. done. Qed.

Lemma set_ctx_set_ctx st q q' : set_ctx (set_ctx st q) q' = set_ctx st q'.
Proof. done. Qed.

(** C26. AQO keeps away from a query that is not a SELECT, INSERT, UPDATE or
    DELETE, from everything in a parallel operation, from any query that mentions
    a system catalog anywhere in its tree, from all queries in the mode
    "disabled", and from a query that is none of the seven templates: all its
    flags are off, no table is read or written, and the planner below is called
    with an empty selectivity cache. *)
Theorem planner_declines `{Cluster} `{Server} {A} (aqo_mode : AqoMode) (text : cstring) (now : instr_time)
    (parse : Query) (call_default_planner : list Entry → PG A) (objects : list Entry) (st : pgstate) :
  (planned_command (commandType parse) = false ∨ IsInParallelMode = true ∨ IsParallelWorker = true ∨
   aqo_mode = AQO_MODE_DISABLED ∨ (∃ r, mentions r (query_nodes parse) ∧ IsCatalogRelation r = true) ∨
   ∀ h, get_query_hash (parse_tree parse) = Ok h → query_template h = 0%Z) →
  ∃ q, aqo_off q ∧
    aqo_planner aqo_mode (Some text) now parse call_default_planner objects st = call_default_planner [] (set_ctx st q).
Proof.
  intros Hwhy. destruct (get_query_hash_total (parse_tree parse)) as [h Eh]. unfold aqo_planner. rewrite q_modify_bind.
  assert (Hoff : ∀ q, aqo_off (disabled (set_explain_aqo false q))) by (by intros []).
  destruct (not_for_aqo aqo_mode (Some text) parse) as [skip|] eqn:Es.
  2:{ unfold not_for_aqo in Es. by destruct (negb _). }
  rewrite (pg_lift_ok _ _ _ skip eq_refl). destruct skip.
  - rewrite (pg_bind_ok _ _ _ _ _ (disable_ok _)). rewrite set_ctx_set_ctx. eexists. split; [apply Hoff | done].
  - rewrite q_modify_bind, (pg_lift_ok _ _ _ h Eh), q_modify_bind. cbv zeta. destruct Hwhy as [Hw|[Hw|[Hw|[Hw|[Hw|Hw]]]]].
    + unfold not_for_aqo in Es. by rewrite Hw in Es.
    + unfold not_for_aqo in Es. rewrite Hw, !orb_true_r in Es. by destruct (negb _).
    + unfold not_for_aqo in Es. rewrite Hw, !orb_true_r in Es. by destruct (negb _).
    + unfold not_for_aqo in Es. rewrite bool_decide_true, !orb_true_r in Es by done. by destruct (negb _).
    + apply uses_system_ok in Hw. unfold not_for_aqo, isQueryUsingSystemRelation in Es. rewrite Hw, !orb_true_r in Es.
      by destruct (negb _).
    + rewrite (Hw h Eh), Z.eqb_refl. rewrite (pg_bind_ok _ _ _ _ _ (disable_ok _)). rewrite !set_ctx_set_ctx. eexists. split; [|done].
      by destruct (ctx st).
Qed.

(** ** The history of the query patterns *)

(** The patterns of the last queries, and the cells that hold them. *)
Definition window (ts : list Z) : list Z := drop (length ts - num_history_data_compute_probability_fs) ts.
Definition cells (ts : list Z) : list double :=
  (d_of_Z <$> window ts) ++ replicate (num_history_data_compute_probability_fs - length ts) d0.

Lemma window_snoc3 ts p :
  num_history_data_compute_probability_fs ≤ length ts →
  ∃ a b c, window ts = [a; b; c] ∧ window (ts ++ [p]) = [b; c; p].
Proof.
  unfold window, num_history_data_compute_probability_fs. intros Hl. rewrite length_app. simpl.
  replace (length ts + 1 - 3) with (S (length ts - 3)) by lia.
  assert (Hd : length (drop (length ts - 3) ts) = 3) by (rewrite length_drop; lia).
  rewrite (drop_app_le ts [p]) by lia.
  replace (S (length ts - 3)) with ((length ts - 3) + 1) by lia. rewrite <- drop_drop.
  destruct (drop (length ts - 3) ts) as [|a [|b [|c [|]]]]; try done. exists a, b, c. done.
Qed.

(** The next pattern goes where the window of the longer history has it. *)
Lemma push_pattern_ok ts p :
  ts ≠ [] →
  push_pattern (cells ts) (Z.of_nat (length ts `min` 3)) p =
    Ok (cells (ts ++ [p]), Z.of_nat (length (ts ++ [p]) `min` 3)).
Proof.
  intros Hts. unfold push_pattern, num_history_data_compute_probability_fs. destruct (decide (length ts < 3)) as [Hlt|Hge].
  - destruct ts as [|a [|b [|]]]; try done; simpl in Hlt; lia.
  - rewrite length_app. simpl. rewrite (Nat.min_r (length ts)), Nat.min_r by lia. simpl.
    destruct (window_snoc3 ts p) as (a & b & c & E & E'); [unfold num_history_data_compute_probability_fs; lia|].
    unfold cells. rewrite length_app, E, E'. unfold num_history_data_compute_probability_fs.
    rewrite !(proj2 (Nat.sub_0_le _ _)) by (simpl; lia). reflexivity.
Qed.

Lemma length_cells ts : length (cells ts) = num_history_data_compute_probability_fs.
Proof.
  unfold cells, window, num_history_data_compute_probability_fs. rewrite length_app, length_fmap, length_drop, length_replicate. lia.
Qed.

Lemma to_int32_succ z : to_int32 (to_int32 z + 1) = to_int32 (z + 1).
Proof.
  assert (E : wrap32 (to_int32 z + 1) = wrap32 (z + 1)); [|unfold to_int32 at 1; by rewrite E].
  unfold to_int32, wrap32. destruct (z mod 2 ^ 32 <? 2 ^ 31)%Z; [by rewrite Zplus_mod_idemp_l|].
  replace (z mod 2 ^ 32 - 2 ^ 32 + 1)%Z with ((z mod 2 ^ 32 + 1) + (-1) * 2 ^ 32)%Z by lia.
  by rewrite Z_mod_plus_full, Zplus_mod_idemp_l.
Qed.

(** The row of the queries after the patterns [ts]. *)
Definition history_columns (use : bool) (ts : list Z) : list Datum :=
  query_columns 1 true use 1 true (mkArray [num_history_data_compute_probability_fs] (cells ts))
    (Z.of_nat (length ts `min` 3)) (to_int32 (Z.of_nat (length ts))) (mkArray [2] [d0; d0]) 0.

Definition history_is (use : bool) (ts : list Z) (st : pgstate) : Prop :=
  row_data st aqo_queries [1%Z] = Some (Some <$> history_columns use ts).

(** What the planning of a query reads: no pattern has recorded features, and a
    predicted distribution has a number for each pattern. *)
Record planning_ok (st : pgstate) : Prop := {
  plan_queries : table_ok st aqo_queries;
  plan_texts : table_ok st aqo_query_texts;
  plan_costs : costs_ok (fun _ => 0) st;
  plan_markov : ∀ t, row_data st aqo_markov_table [1%Z] = Some t →
    ∃ a dist c, t = Some <$> [a; PointerGetDatum dist; c] ∧ length (arr_elems dist) ≤ num_query_pattern
}.

(** No update is lost and none is heap-only. *)
Definition undisturbed `{Cluster} : Prop :=
  ∀ i, heap_update_result i = HeapTupleMayBeUpdated ∧ heap_update_hot i = false.

Lemma history_vform v : length v = num_history_data_compute_probability_fs →
  vform v num_history_data_compute_probability_fs = Ok (mkArray [num_history_data_compute_probability_fs] v).
Proof.
  intros Hv. unfold vform. rewrite form_vector_ok by (first [lia | apply length_replicate]).
  simpl. by rewrite firstn_all2 by (rewrite Hv; unfold num_history_data_compute_probability_fs; lia).
Qed.

Section storing.
Context `{Cluster}.

Lemma update_query2_ok l u f a h n tn cur nf l' u' f' a' v n' tn' qh st :
  available aqo_queries → undisturbed → table_ok st aqo_queries →
  row_data st aqo_queries [qh] = Some (Some <$> query_columns qh l u f a h n tn cur nf) →
  length v = num_history_data_compute_probability_fs →
  ∃ st', update_query2 qh l' u' f' a' v n' tn' st = (Ok true, st') ∧
    wrote aqo_queries [qh] (query_columns qh l' u' f' a' (mkArray [num_history_data_compute_probability_fs] v) n' tn' cur nf) st st'.
Proof.
  intros [Hv Hr] Hund Ht Hrow Hlen. pose proof (history_vform v Hlen) as Ev.
  destruct (row_data_found _ _ _ _ Hrow) as (tid & Hf). unfold update_query2. pg_prologue Hv Hr. rewrite Hf.
  set (cols := query_columns qh l' u' f' a' (mkArray [num_history_data_compute_probability_fs] v) n' tn' cur nf).
  set (st1 := set_opened st (opened st + 3)).
  destruct (upsert_ok aqo_queries [qh] [] (drop 1 cols) 1 UNIQUE_CHECK_YES st1) as (st2 & E & Hput & Ht2 & Ho & Hc); try done.
  { right. destruct (Hund (cid st)). split; [done | by right]. }
  change (find_row st1) with (find_row st) in E. rewrite Hf in E. unfold mk_vector. rewrite Ev.
  change (∃ st', (try_update aqo_queries tid (Some <$> cols) cols UNIQUE_CHECK_YES;; close_scan aqo_queries;;
    CommandCounterIncrement;; mret true) st1 = (Ok true, st') ∧ wrote aqo_queries [qh] cols st st').
  by eapply write_finish.
Qed.
End storing.

Section rows.
Context `{Cluster}.

(** The insertion of a row with a one-column key that is not there yet. *)
Lemma insert_put r key cols st :
  available r → table_ok st r → indnatts r = 1 → natts r = S (length cols) → find_row st r [key] = None →
  ∃ st', (index_open r;; heap_openrv r;; t ← pg_lift (heap_form_tuple (natts r) (Int32GetDatum key :: cols) (falses (natts r)));
          try_insert r t (Int32GetDatum key :: cols) UNIQUE_CHECK_YES;;
          index_close r;; heap_close r;; CommandCounterIncrement;; mret true) st = (Ok true, st') ∧
    wrote r [key] (Int32GetDatum key :: cols) st st'.
Proof.
  intros [Hv Hr] Ht Hi Hn Hf. set (st1 := set_opened (set_opened st (opened st + 1)) (opened st + 1 + 1)).
  destruct (upsert_ok r [key] [] cols 1 UNIQUE_CHECK_YES st1) as (st2 & E & Hput & Ht2 & Ho & Hc); try done.
  { by left. }
  change (find_row st1) with (find_row st) in E. rewrite Hf in E.
  rewrite (pg_bind_ok (index_open r) _ st tt (set_opened st (opened st + 1))) by done.
  rewrite (pg_bind_ok (heap_openrv r) _ _ tt st1) by (unfold heap_openrv; by rewrite Hr).
  assert (Hform : heap_form_tuple (natts r) (Int32GetDatum key :: cols) (falses (natts r)) = Ok (Some <$> (Int32GetDatum key :: cols))).
  { apply heap_form_ok. simpl. lia. }
  unfold upsert in E. rewrite (pg_lift_ok _ _ _ _ Hform) in E.
  rewrite (pg_lift_ok _ _ _ _ Hform), (pg_bind_ok _ _ _ _ _ E). eexists. split; [reflexivity|].
  split_and!; [destruct Hput; by split | done | simpl; simpl in Ho; lia | simpl; by rewrite Hc].
Qed.

Lemma add_query_ok qh learn use fspace tuning hist nh tn nf st :
  available aqo_queries → table_ok st aqo_queries → find_row st aqo_queries [qh] = None →
  length hist = num_history_data_compute_probability_fs →
  ∃ st', add_query qh learn use fspace tuning hist nh tn (palloc0 2) nf st = (Ok true, st') ∧
    wrote aqo_queries [qh] (query_columns qh learn use fspace tuning (mkArray [num_history_data_compute_probability_fs] hist)
      nh tn (mkArray [2] [d0; d0]) nf) st st'.
Proof.
  intros [Hv Hr] Ht Hf Hh. unfold add_query, mk_vector. rewrite (history_vform _ Hh).
  unfold RelnameGetRelid. rewrite Hv. by apply insert_put.
Qed.

Lemma add_query_text_ok qh text st :
  available aqo_query_texts → table_ok st aqo_query_texts → find_row st aqo_query_texts [qh] = None →
  ∃ st', add_query_text qh text st = (Ok true, st') ∧
    wrote aqo_query_texts [qh] [Int32GetDatum qh; CStringGetTextDatum text] st st'.
Proof.
  intros [Hv Hr] Ht Hf. unfold add_query_text, RelnameGetRelid. rewrite Hv. by apply insert_put.
Qed.

Lemma find_query_ok qh st :
  available aqo_queries →
  match row_data st aqo_queries [qh] with
  | Some t => ∀ ds, t = Some <$> ds → length ds = 10 → find_query qh (datums 10) (falses 10) st = (Ok (true, (ds, falses 10)), st)
  | None => find_query qh (datums 10) (falses 10) st = (Ok (false, (datums 10, falses 10)), st)
  end.
Proof.
  intros [Hv Hr]. unfold row_data, find_query. pg_prologue Hv Hr. destruct (find_row st aqo_queries [qh]) as [[i t]|]; simpl.
  - intros ds -> Hl. rewrite (pg_lift_ok _ _ _ (ds, falses 10)) by (by apply heap_deform_ok).
    rewrite (pg_bind_ok _ _ _ _ _ (close_scan_ok _ _)). by rewrite set_opened_back.
  - rewrite pg_ret_bind, (pg_bind_ok _ _ _ _ _ (close_scan_ok _ _)). by rewrite set_opened_back.
Qed.

(** The distribution of the next pattern is set, from the table or the uniform
    one. *)
Lemma load_distribution_ok n h st :
  available aqo_markov_table → fspace_hash (ctx st) = 1%Z →
  (∀ t, row_data st aqo_markov_table [1%Z] = Some t →
    ∃ a dist c, t = Some <$> [a; PointerGetDatum dist; c] ∧ length (arr_elems dist) ≤ num_query_pattern) →
  pg_ensures (load_query_distribution n h) st (fun _ st' =>
    ∃ dist, length dist = num_query_pattern ∧ st' = set_ctx st (set_distribution (ctx st) dist)).
Proof.
  intros [Hv Hr] Hfs Hrow. unfold load_query_distribution. destruct (n <? _).
  { exists uniform_distribution. split; [apply length_replicate | done]. }
  unfold pg_ensures. pg_prologue Hv Hr. rewrite Hfs. unfold row_data in Hrow.
  destruct (find_row st aqo_markov_table [1%Z]) as [[i t]|]; simpl.
  - destruct (Hrow t eq_refl) as (a & dist & c & -> & Hlen).
    assert (Hd : deform_vector dist (palloc0 num_query_pattern) =
      Ok (arr_elems dist ++ drop (length (arr_elems dist)) (palloc0 num_query_pattern), length (arr_elems dist))).
    { apply deform_vector_ok. by unfold palloc0; rewrite length_replicate. }
    rewrite (pg_bind_ok _ _ _ true (set_opened (set_ctx st (set_distribution (ctx st)
      (arr_elems dist ++ drop (length (arr_elems dist)) (palloc0 num_query_pattern)))) (opened st + 3))).
    2:{ rewrite (pg_lift_ok _ _ _ ([a; PointerGetDatum dist; c], falses 3)) by (by apply (heap_deform_ok [a; PointerGetDatum dist; c])).
        by rewrite (pg_lift_ok _ _ _ _ Hd). }
    rewrite (pg_bind_ok _ _ _ _ _ (close_scan_ok _ _)).
    eexists. split; [|unfold set_opened, set_ctx; simpl; f_equal; lia].
    unfold palloc0. rewrite length_app, length_drop, length_replicate. lia.
  - cbn. eexists. split; [apply length_replicate|]. unfold set_opened, set_ctx; simpl; f_equal; lia.
Qed.
End rows.

(** ** One query after the other *)
Definition plan_frame (st st' : pgstate) : Prop :=
  opened st' = opened st ∧ ∀ r, r ≠ aqo_queries → r ≠ aqo_query_texts → rows st' r = rows st r.

(** The settings a query is planned with. *)
Definition planned_with (use : bool) (p : Z) (q : QueryContextData) : Prop :=
  learn_aqo q = true ∧ use_aqo q = use ∧ fspace_hash q = 1%Z ∧ auto_tuning q = true ∧ collect_stat q = true ∧
  query_hash q = 1%Z ∧ current_query_hash q = p ∧ explain_aqo q = use.

Lemma planning_ok_frame st st' :
  plan_frame st st' → table_ok st' aqo_queries → table_ok st' aqo_query_texts → planning_ok st → planning_ok st'.
Proof.
  intros [_ Hrows] Hq Ht [_ _ [Hc Hcr] Hm]. split; [done | done | |].
  - split; [eapply table_ok_rows; [|exact Hc]; by apply Hrows|]. intros p t. rewrite (row_data_rows st) by (by apply Hrows). apply Hcr.
  - intros t. rewrite (row_data_rows st) by (by apply Hrows). apply Hm.
Qed.

Section steps.
Context `{Cluster} `{Server} (aqo_mode : AqoMode).
Context (Hq : available aqo_queries) (Htx : available aqo_query_texts) (Hmk : available aqo_markov_table)
  (Hbc : available aqo_best_two_costs_table) (Hund : undisturbed) (Hrec : RecoveryInProgress = false)
  (Hmode : aqo_mode = AQO_MODE_LEARN ∨ aqo_mode = AQO_MODE_INTELLIGENT).

Definition uses : bool := bool_decide (aqo_mode = AQO_MODE_LEARN).

(** A query of the template [p]. *)
Definition handled (text : cstring) (parse : Query) (p : Z) : Prop :=
  not_for_aqo aqo_mode (Some text) parse = Ok false ∧ p ≠ 0%Z ∧
  ∃ h, get_query_hash (parse_tree parse) = Ok h ∧ query_template h = p.

(** The context when the stored query is looked up. *)
Definition looked_up (now : instr_time) (p : Z) (q : QueryContextData) : QueryContextData :=
  set_query_hash 1 (set_current_query_hash p (set_nfeatures 0 (set_starttime now (set_explain_aqo false q)))).

Lemma planner_lookup {A} text now parse p (k : list Entry → PG A) objects st :
  handled text parse p →
  aqo_planner aqo_mode (Some text) now parse k objects st =
  ('(stored, (params, _)) ← find_query 1 (datums 10) (falses 10);
   on ← (if stored : bool then stored_query params;; mret true else new_query aqo_mode text);
   if on : bool then q_modify (fun q => set_explain_aqo (use_aqo q) q);; k [] else k []) (set_ctx st (looked_up now p (ctx st))).
Proof.
  intros (Es & Hp & h & Eh & Et). unfold aqo_planner. rewrite q_modify_bind, (pg_lift_ok _ _ _ false Es), q_modify_bind.
  rewrite (pg_lift_ok _ _ _ h Eh), q_modify_bind, Et. destruct (Z.eqb_spec p 0) as [|_]; [done|]. by rewrite q_modify_bind.
Qed.

Definition new_context (now : instr_time) (p : Z) (q : QueryContextData) : QueryContextData :=
  new_settings aqo_mode (looked_up now p q).

Lemma new_context_ok now p q :
  let q' := new_context now p q in
  adding_query q' = true ∧ learn_aqo q' = true ∧ use_aqo q' = uses ∧ fspace_hash q' = 1%Z ∧ auto_tuning q' = true ∧
  collect_stat q' = true ∧ query_hash q' = 1%Z ∧ current_query_hash q' = p.
Proof. unfold new_context, new_settings, uses. destruct q, Hmode as [-> | ->]; done. Qed.

(** The first query of the workload is stored. *)
Lemma plan_first {A} text now parse p (k : list Entry → PG A) objects st :
  handled text parse p → planning_ok st → row_data st aqo_queries [1%Z] = None → row_data st aqo_query_texts [1%Z] = None →
  ∃ st', aqo_planner aqo_mode (Some text) now parse k objects st = k [] st' ∧
    planning_ok st' ∧ history_is uses [p] st' ∧ planned_with uses p (ctx st') ∧ plan_frame st st'.
Proof.
  intros Hh Hok Hn1 Hn2. rewrite (planner_lookup _ _ _ p) by done. set (st0 := set_ctx st (looked_up now p (ctx st))).
  pose proof (find_query_ok 1 st0 Hq) as Hf. change (row_data st0) with (row_data st) in Hf. rewrite Hn1 in Hf.
  rewrite (pg_bind_ok _ _ _ _ _ Hf). unfold new_query.
  set (q := new_context now p (ctx st)). set (st1 := set_ctx st q).
  pose proof (new_context_ok now p (ctx st)) as Hctx. fold q in Hctx. destruct Hctx as (Ha & Hl & Hu & Hfs & Hat & Hcs & Hqh & Hcq).
  destruct (add_query_ok 1 true uses 1 true (cells [p]) 1 1 0 st1) as (st2 & E2 & Hput2 & Ht2 & Ho2 & Hc2); try done.
  { by apply plan_queries in Hok. }
  { unfold row_data in Hn1. change (find_row st1) with (find_row st). by destruct (find_row st aqo_queries [1%Z]). }
  assert (Hrt : rows st2 aqo_query_texts = rows st aqo_query_texts) by (by apply (put_rel _ _ _ _ _ Hput2)).
  destruct (add_query_text_ok 1 text st2) as (st3 & E3 & Hput3 & Ht3 & Ho3 & Hc3); try done.
  { eapply table_ok_rows; [exact Hrt | by apply plan_texts]. }
  { unfold row_data in Hn2. unfold find_row in *. rewrite Hrt. by destruct (list_find _ _). }
  assert (Estore : store_query text st1 = (Ok tt, st3)).
  { unfold store_query. rewrite q_get_bind. change (id (ctx st1)) with q. rewrite Ha, Hl, Hu, Hfs, Hat, Hqh, Hcq.
    rewrite (pg_lift_ok _ _ _ (cells [p]) eq_refl), (pg_bind_ok _ _ _ _ _ E2), (pg_bind_ok _ _ _ _ _ E3). done. }
  assert (Enew : (q_modify (new_settings aqo_mode);; (if RecoveryInProgress then
      if bool_decide (aqo_mode = AQO_MODE_FORCED) then q_modify (fun q => set_collect false (set_auto_tuning false (set_learn false (set_adding false q))));;
        store_query text;; mret true else disable_aqo_for_query;; mret false
      else store_query text;; mret true)) st0 = (Ok true, st3)).
  { rewrite q_modify_bind. change (set_ctx st0 _) with st1. by rewrite Hrec, (pg_bind_ok _ _ _ _ _ Estore). }
  rewrite (pg_bind_ok _ _ _ _ _ Enew), q_modify_bind. eexists. split; [reflexivity|].
  assert (Ectx : ctx st3 = q) by (rewrite (put_ctx _ _ _ _ _ Hput3), (put_ctx _ _ _ _ _ Hput2); done).
  assert (Hrq : rows st3 aqo_queries = rows st2 aqo_queries) by (by apply (put_rel _ _ _ _ _ Hput3)).
  assert (Hfr : plan_frame st st3).
  { split; [by rewrite Ho3, Ho2|]. intros r Hr1 Hr2. rewrite (put_rel _ _ _ _ _ Hput3) by done. by apply (put_rel _ _ _ _ _ Hput2). }
  split_and!.
  - apply (planning_ok_frame st); [exact Hfr | by eapply table_ok_rows | done | done].
  - unfold history_is. change (row_data (set_ctx st3 _)) with (row_data st3). rewrite (row_data_rows st2) by done. apply (put_found _ _ _ _ _ Hput2).
  - rewrite Ectx. clear -Hl Hu Hfs Hat Hcs Hqh Hcq. unfold planned_with. by destruct q.
  - exact Hfr.
Qed.

(** The context when the settings of the stored query are in. *)
Definition stored_context (now : instr_time) (p : Z) (q : QueryContextData) : QueryContextData :=
  set_collect true (set_auto_tuning true (set_fspace 1 (set_use uses (set_learn true (set_adding false (looked_up now p q)))))).

Lemma stored_query_ok now p ts st :
  planning_ok st → history_is uses ts st → ts ≠ [] →
  ∃ st', stored_query (history_columns uses ts) (set_ctx st (looked_up now p (ctx st))) = (Ok tt, st') ∧
    planning_ok st' ∧ history_is uses (ts ++ [p]) st' ∧ plan_frame st st' ∧
    ∃ dist x, ctx st' = set_query_features [] (set_nfeatures 0 (set_best_pred_cost (set_distribution (stored_context now p (ctx st)) dist) x)).
Proof.
  intros Hok Hh Hts. set (st1 := set_ctx st (stored_context now p (ctx st))).
  assert (Ectx : query_hash (ctx st1) = 1%Z ∧ current_query_hash (ctx st1) = p ∧ fspace_hash (ctx st1) = 1%Z)
    by (subst st1; simpl; by destruct (ctx st)).
  destruct Ectx as (Eqh & Ecq & Efs).
  destruct (update_query2_ok true uses 1 true (mkArray [num_history_data_compute_probability_fs] (cells ts))
    (Z.of_nat (length ts `min` 3)) (to_int32 (Z.of_nat (length ts))) (mkArray [2] [d0; d0]) 0
    true uses 1 true (cells (ts ++ [p])) (Z.of_nat (length (ts ++ [p]) `min` 3)) (to_int32 (Z.of_nat (length (ts ++ [p])))) 1 st1)
    as (st2 & E2 & Hput & Ht2 & Ho2 & Hc2); [done | done | by apply plan_queries in Hok | exact Hh | apply length_cells|].
  assert (Hfr : plan_frame st st2).
  { split; [done|]. intros r Hr _. by apply (put_rel _ _ _ _ _ Hput). }
  assert (Hok2 : planning_ok st2).
  { apply (planning_ok_frame st); [done | done | | done]. eapply table_ok_rows; [by apply (put_rel _ _ _ _ _ Hput)|]. by apply plan_texts in Hok. }
  pose proof (put_ctx _ _ _ _ _ Hput) as Ec2.
  destruct (pg_ensures_inv _ _ _ (load_distribution_ok (Z.to_nat (Z.of_nat (length (ts ++ [p]) `min` 3)))
    (get_int_array_hash2 (cells (ts ++ [p]))) st2 Hmk (eq_trans (f_equal fspace_hash Ec2) Efs) (plan_markov _ Hok2)))
    as (b & st3 & E3 & dist & _ & ->).
  set (st3 := set_ctx st2 (set_distribution (ctx st2) dist)) in *.
  assert (Hok3 : planning_ok st3) by (by apply (planning_ok_frame st2); [split | apply Hok2 | apply Hok2 |]).
  destruct (pg_ensures_inv _ _ _ (calculate_ok (fun _ => 0) p (palloc0 2) st3 Hbc (plan_costs _ Hok3) (Nat.le_0_l _)))
    as (u & st4 & E4 & x & _ & ->). destruct u.
  eexists. split.
  { unfold stored_query. unfold history_columns at 1 2 3 4 5 6 7 8 9. unfold query_columns.
    cbn [rd lookup list_lookup mbind res_bind DatumGetBool DatumGetInt32 get_vector DatumGetArray].
    rewrite !(pg_lift_ok (Ok _) _ _ _ eq_refl), q_modify_bind. change (set_ctx (set_ctx st _) _) with st1.
    rewrite (deform_vector_ok (mkArray _ (cells ts))) by (cbn [arr_elems]; unfold palloc0; rewrite length_replicate, length_cells; done).
    rewrite deform_vector_ok by done. cbn [mbind res_bind arr_elems]. rewrite !(pg_lift_ok (Ok _) _ _ _ eq_refl).
    rewrite q_get_bind, Ecq. rewrite length_cells, (drop_ge (palloc0 num_history_data_compute_probability_fs)), app_nil_r by (unfold palloc0; by rewrite length_replicate).
    rewrite ?app_nil_r. rewrite (pg_lift_ok _ _ _ _ (push_pattern_ok ts p Hts)), q_get_bind, Eqh. cbv zeta.
    rewrite to_int32_succ. replace (Z.of_nat (length ts) + 1)%Z with (Z.of_nat (length (ts ++ [p]))) by (rewrite length_app; simpl; lia).
    rewrite (pg_bind_ok _ _ _ _ _ E2), (pg_bind_ok _ _ _ _ _ E3). cbn [Z.ltb Z.compare Z.to_nat].
    rewrite Hrec, (pg_bind_ok _ _ _ _ _ E4). reflexivity. }
  split_and!.
  - by apply (planning_ok_frame st2); [split | apply Hok2 | apply Hok2 |].
  - apply (put_found _ _ _ _ _ Hput).
  - exact Hfr.
  - exists dist, x. simpl. by rewrite Ec2.
Qed.

(** Every later query moves the history on. *)
Lemma plan_next {A} text now parse p ts (k : list Entry → PG A) objects st :
  handled text parse p → planning_ok st → history_is uses ts st → ts ≠ [] →
  ∃ st', aqo_planner aqo_mode (Some text) now parse k objects st = k [] st' ∧
    planning_ok st' ∧ history_is uses (ts ++ [p]) st' ∧ planned_with uses p (ctx st') ∧ plan_frame st st'.
Proof.
  intros Hh Hok Hrow Hts. rewrite (planner_lookup _ _ _ p) by done. set (st0 := set_ctx st (looked_up now p (ctx st))).
  pose proof (find_query_ok 1 st0 Hq) as Hf. change (row_data st0) with (row_data st) in Hf. rewrite Hrow in Hf.
  rewrite (pg_bind_ok _ _ _ _ _ (Hf _ eq_refl eq_refl)).
  destruct (stored_query_ok now p ts st Hok Hrow Hts) as (st1 & E1 & Hok1 & Hrow1 & Hfr & dist & x & Ec).
  erewrite (pg_bind_ok _ _ st0 true st1) by (by rewrite (pg_bind_ok _ _ _ _ _ E1)).
  rewrite q_modify_bind. eexists. split; [reflexivity|]. split_and!; [|done| |done].
  - by apply (planning_ok_frame st1); [split | apply Hok1 | apply Hok1 |].
  - simpl. rewrite Ec. unfold stored_context, looked_up, planned_with. by destruct (ctx st).
Qed.
End steps.

(** The planner below, as far as the tables of the planning hook go. *)
Definition keeps_planning (st st' : pgstate) : Prop :=
  opened st' = opened st ∧
  ∀ r, r ∈ [aqo_queries; aqo_query_texts; aqo_markov_table; aqo_best_two_costs_table] → rows st' r = rows st r.

Lemma keeps_planning_ok st st' : keeps_planning st st' → planning_ok st → planning_ok st'.
Proof.
  intros [_ Hr] [Hq Ht [Hc Hcr] Hm].
  assert (Hrows : ∀ r, r ∈ [aqo_queries; aqo_query_texts; aqo_markov_table; aqo_best_two_costs_table] → table_ok st r → table_ok st' r).
  { intros r Hin. apply table_ok_rows. by apply Hr. }
  split; [apply Hrows; [set_solver | done] | apply Hrows; [set_solver | done] | split; [apply Hrows; [set_solver | done]|] |].
  - intros p t. rewrite (row_data_rows st) by (apply Hr; set_solver). apply Hcr.
  - intros t. rewrite (row_data_rows st) by (apply Hr; set_solver). apply Hm.
Qed.

Section workload.
Context `{Cluster} `{Server} (aqo_mode : AqoMode).

(** A workload: each query comes with its text and its starting time. *)
Fixpoint plan_all (below : list Entry → PG unit) (qs : list (cstring * instr_time * Query)) : PG unit :=
  match qs with
  | [] => mret tt
  | (text, now, parse) :: qs => aqo_planner aqo_mode (Some text) now parse below [];; plan_all below qs
  end.

Lemma plan_rest (below : list Entry → PG unit) qs ps ts st :
  available aqo_queries → available aqo_query_texts → available aqo_markov_table → available aqo_best_two_costs_table →
  undisturbed → RecoveryInProgress = false → aqo_mode = AQO_MODE_LEARN ∨ aqo_mode = AQO_MODE_INTELLIGENT →
  (∀ st, pg_ensures (below []) st (fun _ => keeps_planning st)) →
  Forall2 (fun '(text, _, parse) p => handled aqo_mode text parse p) qs ps →
  planning_ok st → history_is (uses aqo_mode) ts st → ts ≠ [] →
  pg_ensures (plan_all below qs) st (fun _ st' =>
    planning_ok st' ∧ history_is (uses aqo_mode) (ts ++ ps) st' ∧ opened st' = opened st).
Proof.
  intros Hq Htx Hmk Hbc Hund Hrec Hmode Hbelow Hqs. revert ts st.
  induction Hqs as [|[[text now] parse] p qs ps Hh Hqs IH]; intros ts st Hok Hrow Hts.
  - rewrite app_nil_r. done.
  - cbn [plan_all].
    destruct (plan_next aqo_mode Hq Hmk Hbc Hund Hrec text now parse p ts below [] st Hh Hok Hrow Hts)
      as (st1 & E1 & Hok1 & Hrow1 & _ & Ho1 & _).
    eapply pg_ensures_bind_mono.
    { unfold pg_ensures. rewrite E1. apply Hbelow. }
    intros [] st2 Hk. eapply pg_ensures_mono.
    { apply (IH (ts ++ [p]) st2); [by eapply keeps_planning_ok | | by destruct ts].
      unfold history_is. rewrite (row_data_rows st1); [done|]. apply Hk. set_solver. }
    intros [] st3 (Hok3 & Hrow3 & Ho3). rewrite <- (assoc_L (++)) in Hrow3. split_and!; [done | done|].
    rewrite Ho3, (proj1 Hk). exact Ho1.
Qed.

End workload.

(** ** Concrete inputs *)
Definition sample_server : Server :=
  {| IsInParallelMode := false; IsParallelWorker := false; RecoveryInProgress := false;
     relnamespace := fun r => if (r <? 16384)%Z then 11%Z else 2200%Z; myTempToastNamespace := 0 |}.

(** Queries of the templates 1, 2 and 3. *)
Definition sample_query (tag : string) : Query :=
  mkQuery CMD_SELECT (OtherNode [TextNode (lit "QUERY :tag "); TextNode (lit tag)]) (WQuery [mkRTE RTE_RELATION 20000] [WNode []]).
Definition sample_workload : list (cstring * instr_time * Query) :=
  [(lit "SELECT 1", mkTime 1 0, sample_query "lJZ|~uYkoCBa"); (lit "SELECT 2", mkTime 2 0, sample_query "i9P~KhzIkB48");
   (lit "SELECT 3", mkTime 3 0, sample_query "BhCTb#BB<5!l"); (lit "SELECT 1", mkTime 4 0, sample_query "lJZ|~uYkoCBa")].
Definition catalog_query : Query :=
  mkQuery CMD_SELECT (OtherNode [TextNode (lit "QUERY")]) (WQuery [] [WNode [WQuery [mkRTE RTE_RELATION 1259] []]]).

Definition empty_tables : pgstate := mkState (fun _ => []) sample_ctx 0 0 (Some ∅).

Lemma empty_planning : planning_ok empty_tables.
Proof.
  assert (Ht : ∀ r, table_ok empty_tables r) by (intros r; split; [intros i j t t' k _ Hi | intros i t Hi]; done).
  split; [apply Ht | apply Ht | split; [apply Ht | done] | done].
Qed.

Lemma sample_handled :
  Forall2 (fun '(text, _, parse) p => @handled sample_server AQO_MODE_LEARN text parse p) sample_workload [1; 2; 3; 1]%Z.
Proof. repeat constructor; try done; eexists; (split; [vm_compute; reflexivity | reflexivity]). Qed.

Lemma idle_planner st : pg_ensures (mret tt : PG unit) st (fun _ => keeps_planning st).
Proof. by split. Qed.

Lemma planner_declines_witness : ∃ q, aqo_off q ∧
  @aqo_planner good_cluster sample_server AQO_MODE_LEARN unit (Some (lit "SELECT relname FROM pg_class")) (mkTime 0 0)
    catalog_query (fun _ => mret tt) [mkEntry 1 2 3 d0] empty_tables = (Ok tt, set_ctx empty_tables q).
Proof.
  destruct (@planner_declines good_cluster sample_server unit AQO_MODE_LEARN (lit "SELECT relname FROM pg_class") (mkTime 0 0)
    catalog_query (fun _ => mret tt) [mkEntry 1 2 3 d0] empty_tables) as (q & Hq & E); [|exists q; exact (conj Hq E)].
  right; right; right; right; left. exists 1259%Z. split; [|reflexivity].
  apply (mentions_query _ _ _ (WNode [WQuery [mkRTE RTE_RELATION 1259] []])); [left|].
  apply (mentions_node _ _ (WQuery [mkRTE RTE_RELATION 1259] [])); [left|]. constructor. left.
Defined.

