(* ===== verification/PathUtils.v ===== *)
(** * PathUtils: clauses, selectivities and relations of a path

    contrib/aqo/path_utils.c.  A path is seen as the tree of its subpaths with
    what the code reads of each: the clauses of a join, the clauses of a base
    relation and of its parameters.  [clause_selectivity] of the planner depends on
    the statistics of the database and is a field of the class [Statistics]. *)
From S2P Require Import Prelude Float64 Nodes Bitmapset Preprocess.
From stdpp Require Import sorting.

Inductive JoinType : Type :=
| JOIN_INNER | JOIN_LEFT | JOIN_FULL | JOIN_RIGHT | JOIN_SEMI | JOIN_ANTI | JOIN_UNIQUE_OUTER | JOIN_UNIQUE_INNER.

#[export] Instance JoinType_eq_dec : EqDecision JoinType.
Proof. solve_decision. Defined.

Record RestrictInfo : Type := mkRestrictInfo {
  clause : node;
  left_relids : Bitmapset;
  right_relids : Bitmapset;
  norm_selec : double;
  outer_selec : double
}.

Record SpecialJoinInfo : Type := mkSJ {
  min_lefthand : Bitmapset;
  min_righthand : Bitmapset;
  syn_lefthand : Bitmapset;
  syn_righthand : Bitmapset;
  sj_jointype : JoinType;
  lhs_strict : bool;
  delay_upper_joins : bool;
  semi_can_btree : bool;
  semi_can_hash : bool;
  semi_operators : list Z;
  semi_rhs_exprs : list node
}.

Class Statistics : Type := {
  clause_selectivity : RestrictInfo → Z → JoinType → option SpecialJoinInfo → double
}.

(** ** Relations *)

(** The two forms of the range table a planner has. *)
Record PlannerInfo : Type := mkPlannerInfo {
  simple_rte_array : option (list (option RangeTblEntry));
  parse_rtable : list RangeTblEntry
}.

(** [list_nth] and the array end in a crash outside their range. *)
Definition planner_rt_fetch (rti : nat) (root : PlannerInfo) : res RangeTblEntry :=
  match simple_rte_array root with
  | Some arr => e ← rd arr rti; match e with Some rte => Ok rte | None => Err Fault_bounds end
  | None => rdz (parse_rtable root) (Z.of_nat rti - 1)
  end.

(** [while ((i = bms_next_member(relids, i)) >= 0)], with a turn for every bit of
    the set at most. *)
Fixpoint relids_from (fuel : nat) (root : PlannerInfo) (relids : Bitmapset) (i : Z) (l : list Z) : res (list Z) :=
  match fuel with
  | O => Err Fault_fuel
  | S fuel =>
      i ← bms_next_member relids i;
      if (0 <=? i)%Z then
        entry ← planner_rt_fetch (Z.to_nat i) root;
        relids_from fuel root relids i (l ++ [rte_relid entry])
      else Ok l
  end.

Definition get_list_of_relids (root : PlannerInfo) (relids : Bitmapset) : res (list Z) :=
  match relids with
  | None => Ok []
  | Some ws => relids_from (S (BITS_PER_BITMAPWORD * length ws)) root relids (-1) []
  end.

(** ** Selectivities *)
Section selectivities.
Context `{Statistics}.

Definition get_selectivities (clauses : list RestrictInfo) (varRelids : Z) (jointype : JoinType)
    (sjinfo : option SpecialJoinInfo) : list double :=
  map (fun c => clause_selectivity c varRelids jointype sjinfo) clauses.

(** A clause between two sides is estimated as an inner join of the sides; the
    parameters [varRelids] and [sjinfo] are not used. *)
Definition selectivity2 (jointype : JoinType) (rest : RestrictInfo) : double :=
  match left_relids rest, right_relids rest with
  | Some l, Some r =>
      let sjinfo := mkSJ (Some l) (Some r) (Some l) (Some r) JOIN_INNER false false false false [] [] in
      clause_selectivity rest 0 JOIN_INNER (Some sjinfo)
  | _, _ => clause_selectivity rest 0 jointype None
  end.

Definition get_selectivities2 (clauses : list RestrictInfo) (varRelids : Z) (jointype : JoinType)
    (sjinfo : option SpecialJoinInfo) : list double :=
  map (selectivity2 jointype) clauses.
End selectivities.

(** ** Paths *)
Inductive JoinKind : Type := T_NestPath | T_MergePath | T_HashPath.
Inductive WrapKind : Type :=
| T_UniquePath | T_GatherPath | T_MaterialPath | T_ProjectionPath | T_SortPath | T_GroupPath | T_UpperUniquePath
| T_AggPath | T_GroupingSetsPath | T_WindowAggPath | T_SetOpPath | T_LockRowsPath | T_LimitPath.

(** What every path has: of its relation the relids and the restriction clauses,
    the clauses of its parameters, and the number of parallel workers. *)
Record PathHead : Type := mkHead {
  parent_relids : Bitmapset;
  baserestrictinfo : list RestrictInfo;
  param_info : option (list RestrictInfo);
  parallel_workers : Z
}.

Inductive PathNode : Type :=
| JoinPath (type : JoinKind) (head : PathHead) (jointype : JoinType) (joinrestrictinfo : list RestrictInfo)
    (outerjoinpath innerjoinpath : option PathNode)
| WrapPath (type : WrapKind) (head : PathHead) (subpath : option PathNode)
| OtherPath (head : PathHead).

Section path_clauses.
Context `{Statistics}.

(** The clauses and their selectivities. *)
Fixpoint path_clauses_of (path : PathNode) : list RestrictInfo * list double :=
  match path with
  | JoinPath _ _ jointype cur outerp innerp =>
      let cur_sel := get_selectivities cur 0 jointype None in
      let '(outer, outer_sel) := match outerp with Some p => path_clauses_of p | None => ([], []) end in
      let '(inner, inner_sel) := match innerp with Some p => path_clauses_of p | None => ([], []) end in
      (cur ++ (outer ++ inner), cur_sel ++ (outer_sel ++ inner_sel))
  | WrapPath _ _ subpath => match subpath with Some p => path_clauses_of p | None => ([], []) end
  | OtherPath head =>
      let cur := baserestrictinfo head ++ default [] (param_info head) in
      match param_info head with
      | Some _ => (cur, get_selectivities2 cur 0 JOIN_INNER None)
      | None => (cur, get_selectivities cur 0 JOIN_INNER None)
      end
  end.

(** A null path has no clauses. *)
Definition get_path_clauses (path : option PathNode) : list RestrictInfo * list double :=
  match path with Some p => path_clauses_of p | None => ([], []) end.
End path_clauses.

(** ** The list of relation ids *)
Lemma relids_from_ok root ws (f : nat → Z) fuel i l :
  words_ok ws →
  (∀ x, wmem ws x = true → ∃ rte, planner_rt_fetch x root = Ok rte ∧ rte_relid rte = f x) →
  (-1 ≤ i)%Z → BITS_PER_BITMAPWORD * length ws - Z.to_nat (i + 1) < fuel →
  relids_from fuel root (Some ws) i l =
    Ok (l ++ (f <$> filter (fun x => wmem ws x = true) (seq (Z.to_nat (i + 1)) (BITS_PER_BITMAPWORD * length ws - Z.to_nat (i + 1))))).
Proof.
  intros Hws Hrt. revert i l. induction fuel as [|fuel IH]; intros i l Hi Hf; [lia|]. cbn [relids_from].
  destruct (next_member_ok ws i Hws Hi) as (r & -> & Hr). cbn [mbind res_bind].
  destruct Hr as [[-> Hnone]|(x & -> & Hx & Hm & Hlow)].
  - cbn. rewrite filter_none; [by rewrite app_nil_r|]. intros y Hy%elem_of_seq.
    rewrite Hnone by lia. done.
  - rewrite (proj2 (Z.leb_le _ _)) by lia. rewrite Nat2Z.id. destruct (Hrt x Hm) as (rte & -> & Ef). cbn [mbind res_bind]. rewrite Ef.
    pose proof (wmem_bound _ _ Hm) as Hb. rewrite IH by lia. rewrite (members_next ws _ x _ Hx Hb Hm Hlow).
    replace (Z.to_nat (Z.of_nat x + 1)) with (S x) by lia. by rewrite fmap_cons, <- (assoc_L (++)).
Qed.

Lemma get_list_of_relids_ok root relids (f : nat → Z) :
  bms_ok relids →
  (∀ x, mem relids x = true → ∃ rte, planner_rt_fetch x root = Ok rte ∧ rte_relid rte = f x) →
  get_list_of_relids root relids = Ok (f <$> members relids).
Proof.
  destruct relids as [ws|]; intros Hok Hrt; [|done]. unfold get_list_of_relids.
  rewrite (relids_from_ok root ws f); [by rewrite Nat.sub_0_r | done | done | lia|]. simpl. lia.
Qed.

(** [get_list_of_relids] terminates on every set: it returns the absolute
    relation ids of exactly the members of the set, each once, in the order of
    their numbers, whichever form of the range table the planner has. *)
Theorem list_of_relids (root : PlannerInfo) (relids : Bitmapset) (f : nat → Z) :
  bms_ok relids →
  (∀ x, mem relids x = true → ∃ rte, planner_rt_fetch x root = Ok rte ∧ rte_relid rte = f x) →
  ∃ xs, get_list_of_relids root relids = Ok (f <$> xs) ∧ StronglySorted lt xs ∧ ∀ x, x ∈ xs ↔ mem relids x = true.
Proof.
  intros Hok Hrt. exists (members relids). split; [by apply get_list_of_relids_ok|]. split; [|apply elem_of_members].
  apply filter_seq_sorted.
Qed.

Lemma list_of_relids_witness :
  let root := mkPlannerInfo None [mkRTE RTE_RELATION 500; mkRTE RTE_SUBQUERY 0; mkRTE RTE_RELATION 700] in
  let relids := Some [10%Z; 0%Z] in
  get_list_of_relids root relids = Ok [500%Z; 700%Z] ∧
  ∃ xs, get_list_of_relids root relids = Ok ((fun x => if (x =? 1)%nat then 500%Z else 700%Z) <$> xs) ∧ StronglySorted lt xs ∧
    ∀ x, x ∈ xs ↔ mem relids x = true.
Proof.
  split; [vm_compute; reflexivity|].
  apply list_of_relids; [constructor; [lia | constructor; [lia | constructor]]|].
  intros x Hx. apply wmem_bound in Hx as Hb. simpl in Hb.
  do 64 (destruct x as [|x]; [first [vm_compute in Hx; discriminate Hx | eexists; split; reflexivity]|]). lia.
Defined.

(** ** Clauses and selectivities belong together *)
Section path_ind.
Context (P : PathNode → Prop).
Context (HJoin : ∀ t h jt c o i, (∀ p, o = Some p → P p) → (∀ p, i = Some p → P p) → P (JoinPath t h jt c o i)).
Context (HWrap : ∀ t h s, (∀ p, s = Some p → P p) → P (WrapPath t h s)).
Context (HOther : ∀ h, P (OtherPath h)).

Fixpoint path_ind' (p : PathNode) : P p :=
  let sub (o : option PathNode) : ∀ p, o = Some p → P p :=
    match o with Some q => fun p E => eq_rect q P (path_ind' q) p (f_equal (default q) E) | None => fun p E => match E with end end in
  match p with
  | JoinPath t h jt c o i => HJoin t h jt c o i (sub o) (sub i)
  | WrapPath t h s => HWrap t h s (sub s)
  | OtherPath h => HOther h
  end.
End path_ind.

Section aligned.
Context `{Statistics}.

(** [s] is an estimate of the selectivity of the clause [c]. *)
Definition estimates (c : RestrictInfo) (s : double) : Prop := ∃ jt sj, s = clause_selectivity c 0 jt sj.

Lemma get_selectivities_aligned clauses jt sj : Forall2 estimates clauses (get_selectivities clauses 0 jt sj).
Proof. induction clauses; constructor; [by exists jt, sj | done]. Qed.

Lemma get_selectivities2_aligned clauses v jt sj : Forall2 estimates clauses (get_selectivities2 clauses v jt sj).
Proof.
  induction clauses as [|c clauses IH]; constructor; [|done]. unfold selectivity2.
  destruct (left_relids c), (right_relids c); by do 2 eexists.
Qed.

(** The lists of a path go together: each selectivity is one of the clause at its
    place. *)
Lemma path_clauses_aligned p : Forall2 estimates (path_clauses_of p).1 (path_clauses_of p).2.
Proof.
  assert (Hsub : ∀ o : option PathNode, (∀ p, o = Some p → Forall2 estimates (path_clauses_of p).1 (path_clauses_of p).2) →
    Forall2 estimates (match o with Some p => path_clauses_of p | None => ([], []) end).1
      (match o with Some p => path_clauses_of p | None => ([], []) end).2).
  { intros [q|] Ho; [by apply Ho | constructor]. }
  induction p as [t h jt c o i Ho Hi|t h s Hs|h] using path_ind'; cbn [path_clauses_of].
  - specialize (Hsub o Ho) as Ao. specialize (Hsub i Hi) as Ai.
    destruct (match o with Some p => path_clauses_of p | None => ([], []) end) as [oc os].
    destruct (match i with Some p => path_clauses_of p | None => ([], []) end) as [ic is_].
    apply Forall2_app; [apply get_selectivities_aligned | by apply Forall2_app].
  - by apply Hsub.
  - destruct (param_info h); [apply get_selectivities2_aligned | apply get_selectivities_aligned].
Qed.

Lemma get_path_clauses_aligned path : Forall2 estimates (get_path_clauses path).1 (get_path_clauses path).2.
Proof. destruct path; [apply path_clauses_aligned | constructor]. Qed.
End aligned.
