(* ===== verification/JoinRels.v ===== *)
(** * JoinRels: which relations are joined

    The dynamic programming of the planner: src/backend/optimizer/path/joinrels.c,
    the join relations of src/backend/optimizer/util/relnode.c,
    have_relevant_joinclause of joininfo.c, the tests on equivalence classes of
    equivclass.c, and the driver aqo_join_search of contrib/aqo/plan_generation.c.

    Relations are shared records; a pointer is a position of [rels].  What the
    search never looks into, the paths of the relations, is a state of its own
    behind the interface [JoinPaths]. *)
From S2P Require Import Prelude Float64 HashAny Nodes Bitmapset BitmapOps Paths PathUtils.
From stdpp Require Import strings.

(** ** Data *)

(** The members of RestrictInfo that joins use; [jc_ptr] stands for its address. *)
Record JoinClause : Type := mkJoinClause {
  jc_ptr : nat;
  rinfo : RestrictInfo;
  required_relids : Bitmapset;
  is_pushed_down : bool;
  can_join : bool;
  mergeopfamilies : list Z;
  hashjoinoperator : Z
}.

(** The members of RelOptInfo the search uses. *)
Record JoinRel : Type := mkJoinRel {
  relids : Bitmapset;
  joininfo : list JoinClause;
  has_eclass_joins : bool;
  direct_lateral_relids : Bitmapset;
  lateral_relids : Bitmapset;
  lateral_referencers : Bitmapset
}.

Record PlaceHolderInfo : Type := mkPlaceHolder {
  ph_eval_at : Bitmapset;
  ph_lateral : Bitmapset;
  ph_needed : Bitmapset
}.

(** An equivalence class: the length of [ec_members], and [ec_relids]. *)
Record EClass : Type := mkEClass { ec_nmembers : nat; ec_relids : Bitmapset }.

(** The members of PlannerInfo that do not change during the search. *)
Record JoinProblem : Type := mkJoinProblem {
  join_info_list : list SpecialJoinInfo;
  placeholder_list : list PlaceHolderInfo;
  eq_classes : list EClass;
  hasLateralRTEs : bool;
  initial_rels : list nat
}.

(** An entry of the hash table of join relations: the hash of the key, the key,
    the relation. *)
Record JoinHashEntry : Type := mkEntry { hashvalue : Z; join_relids : Bitmapset; join_rel : nat }.

(** The members that do change; [paths] is the state of the paths. *)
Record Planner (P : Type) : Type := mkPlanner {
  rels : list JoinRel;
  join_rel_list : list nat;
  join_rel_hash : option (list JoinHashEntry);
  join_rel_level : option (list (list nat));
  join_cur_level : nat;
  paths : P
}.
Arguments mkPlanner {P} _ _ _ _ _ _.
Arguments rels {P} _.
Arguments join_rel_list {P} _.
Arguments join_rel_hash {P} _.
Arguments join_rel_level {P} _.
Arguments join_cur_level {P} _.
Arguments paths {P} _.

(** ** Computations on the planner's state *)
Definition JS (P A : Type) : Type := Planner P → res (A * Planner P).

#[export] Instance JS_ret {P} : MRet (JS P) := fun A a st => Ok (a, st).
#[export] Instance JS_bind {P} : MBind (JS P) := fun A B f m st =>
  match m st with Ok (a, st) => f a st | Err e => Err e end.

Section planner_ops.
Context {P : Type}.

Definition js_fail {A} (f : fault) : JS P A := fun _ => Err f.
Definition js_get : JS P (Planner P) := fun st => Ok (st, st).
Definition js_put (st : Planner P) : JS P () := fun _ => Ok ((), st).
Definition js_lift {A} (m : res A) : JS P A := fun st => match m with Ok a => Ok (a, st) | Err e => Err e end.
Definition get_rel (i : nat) : JS P JoinRel := fun st => match rd (rels st) i with Ok r => Ok (r, st) | Err e => Err e end.

(** An operation on the paths. *)
Definition on_paths {A} (f : list JoinRel → P → res (A * P)) : JS P A := fun st =>
  match f (rels st) (paths st) with
  | Ok (a, p) => Ok (a, mkPlanner (rels st) (join_rel_list st) (join_rel_hash st) (join_rel_level st) (join_cur_level st) p)
  | Err e => Err e
  end.

Fixpoint js_foreach {A} (l : list A) (body : A → JS P ()) : JS P () :=
  match l with [] => mret () | x :: l => _ ← body x; js_foreach l body end.

(** [foreach(r, l)] whose body also uses the cells after [r]. *)
Fixpoint js_cells {A} (l : list A) (body : A → list A → JS P ()) : JS P () :=
  match l with [] => mret () | x :: l => _ ← body x l; js_cells l body end.
End planner_ops.

(** ** What the search needs of the paths

    [jp_dummy] is [is_dummy_rel], [jp_mark_dummy] [mark_dummy_rel], [jp_nopaths] the
    test [pathlist == NIL], [jp_unique] whether [create_unique_path] of the cheapest
    path gives a path, [jp_implied] [generate_join_implied_equalities], [jp_new]
    the size estimates and flags of a new join relation with its inputs,
    [jp_add] [add_paths_to_joinrel], [jp_finish] the gather paths and the best
    paths of a finished relation in the planner's mode, [jp_begin] the predicted best cost. *)
Class JoinPaths (P : Type) : Type := {
  jp_begin : double → P → P;
  jp_dummy : P → nat → bool;
  jp_nopaths : P → nat → bool;
  jp_mark_dummy : list JoinRel → P → nat → res P;
  jp_unique : list JoinRel → P → nat → SpecialJoinInfo → res (bool * P);
  jp_implied : list JoinRel → P → Bitmapset → Bitmapset → nat → res (list JoinClause * P);
  jp_new : list JoinRel → P → nat → nat → nat → SpecialJoinInfo → list JoinClause → res P;
  jp_add : list JoinRel → P → nat → nat → nat → JoinType → SpecialJoinInfo → list JoinClause → res P;
  jp_finish : list JoinRel → P → nat → res P
}.

(** ** Join clauses and restrictions *)
Definition eclass_links (ec : EClass) (a b : Bitmapset) : bool :=
  negb (ec_nmembers ec <=? 1) && bms_overlap a (ec_relids ec) && bms_overlap b (ec_relids ec).

Definition have_relevant_eclass_joinclause (q : JoinProblem) (rel1 rel2 : JoinRel) : bool :=
  existsb (fun ec => eclass_links ec (relids rel1) (relids rel2)) (eq_classes q).

Definition has_relevant_eclass_joinclause (q : JoinProblem) (rel1 : Bitmapset) : bool :=
  existsb (fun ec => negb (ec_nmembers ec <=? 1) && bms_overlap rel1 (ec_relids ec) && negb (bms_is_subset (ec_relids ec) rel1))
    (eq_classes q).

Definition have_relevant_joinclause (q : JoinProblem) (rel1 rel2 : JoinRel) : bool :=
  let '(info, other) :=
    if length (joininfo rel1) <=? length (joininfo rel2) then (joininfo rel1, relids rel2) else (joininfo rel2, relids rel1) in
  let result := existsb (fun c => bms_overlap other (required_relids c)) info in
  if negb result && has_eclass_joins rel1 && has_eclass_joins rel2 then have_relevant_eclass_joinclause q rel1 rel2 else result.

Definition has_join_restriction (q : JoinProblem) (rel : JoinRel) : bool :=
  match lateral_relids rel, lateral_referencers rel with
  | None, None =>
      if existsb (fun ph => bms_is_subset (relids rel) (ph_eval_at ph) && negb (bms_equal (relids rel) (ph_eval_at ph))) (placeholder_list q)
      then true
      else existsb (fun sj =>
        if decide (sj_jointype sj = JOIN_FULL) then false
        else if bms_is_subset (min_lefthand sj) (relids rel) && bms_is_subset (min_righthand sj) (relids rel) then false
        else bms_overlap (min_lefthand sj) (relids rel) || bms_overlap (min_righthand sj) (relids rel)) (join_info_list q)
  | _, _ => true
  end.

(** A placeholder that the inner relation needs and that the outer one has in part. *)
Definition have_dangerous_phv (q : JoinProblem) (outer_relids inner_params : Bitmapset) : bool :=
  existsb (fun ph =>
    if negb (bms_is_subset (ph_eval_at ph) inner_params) then false
    else if negb (bms_overlap (ph_eval_at ph) outer_relids) then false
    else if bms_is_subset (ph_eval_at ph) outer_relids then false else true) (placeholder_list q).

(** [rinfo->clause] is a constant that is null or false; a Boolean datum is its low byte. *)
Definition clause_is_false (c : JoinClause) : bool :=
  match clause (rinfo c) with
  | Const con => constisnull con || (nth 0 (constvalue con) 0%Z =? 0)%Z
  | _ => false
  end.

Definition restriction_is_constant_false (restrictlist : list JoinClause) (only_pushed_down : bool) : bool :=
  existsb (fun c => if only_pushed_down && negb (is_pushed_down c) then false else clause_is_false c) restrictlist.

(** [bms_del_members], with NULL for the empty result. *)
Definition null_if_empty (a : Bitmapset) : Bitmapset := if bms_is_empty a then None else a.

Definition min_join_parameterization (joinrelids : Bitmapset) (outer_rel inner_rel : JoinRel) : Bitmapset :=
  null_if_empty (bms_del_members (bms_union (lateral_relids outer_rel) (lateral_relids inner_rel)) joinrelids).

(** ** Legality *)

(** One pass of the [do] loop over the special joins: the set and [more]. *)
Definition rhs_step (acc : Bitmapset * bool) (sj : SpecialJoinInfo) : Bitmapset * bool :=
  let '(set, more) := acc in
  let '(set, more) :=
    if bms_overlap (min_lefthand sj) set && negb (bms_is_subset (min_righthand sj) set)
    then (bms_add_members set (min_righthand sj), true) else (set, more) in
  if bool_decide (sj_jointype sj = JOIN_FULL) && bms_overlap (min_righthand sj) set && negb (bms_is_subset (min_lefthand sj) set)
  then (bms_add_members set (min_lefthand sj), true) else (set, more).

Fixpoint rhs_closure (fuel : nat) (sjs : list SpecialJoinInfo) (set : Bitmapset) : res Bitmapset :=
  match fuel with
  | O => Err Fault_fuel
  | S fuel =>
      let '(set, more) := foldl rhs_step (set, false) sjs in
      if more : bool then rhs_closure fuel sjs set else Ok set
  end.

(** The variables of the scan of the special joins. *)
Record LegalState : Type := mkLegal {
  match_sjinfo : option SpecialJoinInfo;
  reversed : bool;
  unique_ified : bool;
  must_be_leftjoin : bool
}.

(** A second match makes the join invalid. *)
Definition match_sj (l : LegalState) (sj : SpecialJoinInfo) (rev uniq : bool) : option LegalState :=
  match match_sjinfo l with
  | Some _ => None
  | None => Some (mkLegal (Some sj) rev (unique_ified l || uniq) (must_be_leftjoin l))
  end.

(** The special join has no say on this join. *)
Definition sj_irrelevant (sj : SpecialJoinInfo) (r1 r2 joinrelids : Bitmapset) : bool :=
  negb (bms_overlap (min_righthand sj) joinrelids) ||
  bms_is_subset joinrelids (min_righthand sj) ||
  (bms_is_subset (min_lefthand sj) r1 && bms_is_subset (min_righthand sj) r1) ||
  (bms_is_subset (min_lefthand sj) r2 && bms_is_subset (min_righthand sj) r2) ||
  (bool_decide (sj_jointype sj = JOIN_SEMI) &&
     ((bms_is_subset (syn_righthand sj) r1 && negb (bms_equal (syn_righthand sj) r1)) ||
      (bms_is_subset (syn_righthand sj) r2 && negb (bms_equal (syn_righthand sj) r2)))).

(** The special joins that are not irrelevant and that the join does not perform. *)
Definition sj_violated (l : LegalState) (sj : SpecialJoinInfo) (r1 r2 joinrelids : Bitmapset) : option LegalState :=
  if bms_overlap r1 (min_righthand sj) && bms_overlap r2 (min_righthand sj) then Some l
  else if bool_decide (sj_jointype sj ≠ JOIN_LEFT) || bms_overlap joinrelids (min_lefthand sj) then None
  else Some (mkLegal (match_sjinfo l) (reversed l) (unique_ified l) true).

Definition lateral_ok (q : JoinProblem) (rel1 rel2 : JoinRel) (joinrelids : Bitmapset) (l : LegalState) : res bool :=
  let full := match match_sjinfo l with Some sj => bool_decide (sj_jointype sj = JOIN_FULL) | None => false end in
  let matched := match match_sjinfo l with Some _ => true | None => false end in
  let lateral_fwd := bms_overlap (relids rel1) (lateral_relids rel2) in
  let lateral_rev := bms_overlap (relids rel2) (lateral_relids rel1) in
  if lateral_fwd && lateral_rev then Ok false
  else if lateral_fwd &&
          ((matched && (reversed l || unique_ified l || full)) ||
           negb (bms_overlap (relids rel1) (direct_lateral_relids rel2)) ||
           have_dangerous_phv q (relids rel1) (lateral_relids rel2)) then Ok false
  else if negb lateral_fwd && lateral_rev &&
          ((matched && (negb (reversed l) || unique_ified l || full)) ||
           negb (bms_overlap (relids rel2) (direct_lateral_relids rel1)) ||
           have_dangerous_phv q (relids rel2) (lateral_relids rel1)) then Ok false
  else match min_join_parameterization joinrelids rel1 rel2 with
       | None => Ok true
       | Some _ as join_lateral_rels =>
           join_plus_rhs ← rhs_closure (S (2 * length (join_info_list q))) (join_info_list q) (bms_copy joinrelids);
           Ok (negb (bms_overlap join_plus_rhs join_lateral_rels))
       end.

Section search.
Context {P : Type} `{JP : !JoinPaths P}.
Variable q : JoinProblem.

Fixpoint legal_scan (sjs : list SpecialJoinInfo) (rel1 rel2 : nat) (r1 r2 joinrelids : Bitmapset) (l : LegalState)
  : JS P (option LegalState) :=
  match sjs with
  | [] => mret (Some l)
  | sj :: sjs =>
      let continue (l' : option LegalState) : JS P (option LegalState) :=
        match l' with None => mret None | Some l => legal_scan sjs rel1 rel2 r1 r2 joinrelids l end in
      let semi := bool_decide (sj_jointype sj = JOIN_SEMI) in
      let unique (rel : nat) (r : Bitmapset) : JS P bool :=
        if semi && bms_equal (syn_righthand sj) r then on_paths (fun rs p => jp_unique rs p rel sj) else mret false in
      if sj_irrelevant sj r1 r2 joinrelids then continue (Some l)
      else if bms_is_subset (min_lefthand sj) r1 && bms_is_subset (min_righthand sj) r2 then continue (match_sj l sj false false)
      else if bms_is_subset (min_lefthand sj) r2 && bms_is_subset (min_righthand sj) r1 then continue (match_sj l sj true false)
      else
        u2 ← unique rel2 r2;
        if u2 : bool then continue (match_sj l sj false true)
        else
          u1 ← unique rel1 r1;
          if u1 : bool then continue (match_sj l sj true true) else continue (sj_violated l sj r1 r2 joinrelids)
  end.

(** [None]: the join is not legal; otherwise the special join it performs, and
    whether the relations have to be swapped. *)
Definition join_is_legal (rel1 rel2 : nat) (joinrelids : Bitmapset) : JS P (option (option SpecialJoinInfo * bool)) :=
  jr1 ← get_rel rel1;
  jr2 ← get_rel rel2;
  l ← legal_scan (join_info_list q) rel1 rel2 (relids jr1) (relids jr2) joinrelids (mkLegal None false false false);
  match l with
  | None => mret None
  | Some l =>
      let wrong := match match_sjinfo l with
                   | None => true
                   | Some sj => bool_decide (sj_jointype sj ≠ JOIN_LEFT) || negb (lhs_strict sj)
                   end in
      if must_be_leftjoin l && wrong then mret None
      else if hasLateralRTEs q then
        ok ← js_lift (lateral_ok q jr1 jr2 joinrelids l);
        mret (if ok : bool then Some (match_sjinfo l, reversed l) else None)
      else mret (Some (match_sjinfo l, reversed l))
  end.

Fixpoint legal_joinclause_scan (rel : nat) (jr : JoinRel) (l : list nat) : JS P bool :=
  match l with
  | [] => mret false
  | rel2 :: l =>
      jr2 ← get_rel rel2;
      if bms_overlap (relids jr) (relids jr2) then legal_joinclause_scan rel jr l
      else if have_relevant_joinclause q jr jr2 then
        legal ← join_is_legal rel rel2 (bms_union (relids jr) (relids jr2));
        match legal with Some _ => mret true | None => legal_joinclause_scan rel jr l end
      else legal_joinclause_scan rel jr l
  end.

Definition has_legal_joinclause (rel : nat) : JS P bool :=
  jr ← get_rel rel; legal_joinclause_scan rel jr (initial_rels q).

(** The special join asks for the join of the two. *)
Definition sj_wants (r1 r2 : Bitmapset) (sj : SpecialJoinInfo) : bool :=
  if decide (sj_jointype sj = JOIN_FULL) then false
  else (bms_is_subset (min_lefthand sj) r1 && bms_is_subset (min_righthand sj) r2) ||
       (bms_is_subset (min_lefthand sj) r2 && bms_is_subset (min_righthand sj) r1) ||
       (bms_overlap (min_righthand sj) r1 && bms_overlap (min_righthand sj) r2) ||
       (bms_overlap (min_lefthand sj) r1 && bms_overlap (min_lefthand sj) r2).

Definition have_join_order_restriction (rel1 rel2 : nat) : JS P bool :=
  jr1 ← get_rel rel1;
  jr2 ← get_rel rel2;
  if bms_overlap (relids jr1) (direct_lateral_relids jr2) || bms_overlap (relids jr2) (direct_lateral_relids jr1) then mret true
  else if existsb (fun ph => bms_is_subset (relids jr1) (ph_eval_at ph) && bms_is_subset (relids jr2) (ph_eval_at ph)) (placeholder_list q)
  then mret true
  else if existsb (sj_wants (relids jr1) (relids jr2)) (join_info_list q) then
    l1 ← has_legal_joinclause rel1;
    if l1 : bool then mret false else l2 ← has_legal_joinclause rel2; mret (negb l2)
  else mret false.

(** ** The relations already built *)

(** [hash_search(join_rel_hash, key, HASH_FIND)] with [bitmap_hash] and [bitmap_match]. *)
Definition bitmap_hash (key : Bitmapset) : res Z := bms_hash_value key.
Definition bitmap_match (key1 key2 : Bitmapset) : bool := bms_equal key1 key2.

Fixpoint hash_find (tab : list JoinHashEntry) (h : Z) (key : Bitmapset) : option nat :=
  match tab with
  | [] => None
  | e :: tab => if (hashvalue e =? h)%Z && bitmap_match key (join_relids e) then Some (join_rel e) else hash_find tab h key
  end.

(** [HASH_ENTER] of a key that is not there. *)
Definition hash_enter (tab : list JoinHashEntry) (key : Bitmapset) (rel : nat) : res (list JoinHashEntry) :=
  h ← bitmap_hash key; Ok (mkEntry h key rel :: tab).

Fixpoint build_join_rel_hash (rs : list JoinRel) (l : list nat) (tab : list JoinHashEntry) : res (list JoinHashEntry) :=
  match l with
  | [] => Ok tab
  | rel :: l => r ← rd rs rel; tab ← hash_enter tab (relids r) rel; build_join_rel_hash rs l tab
  end.

Fixpoint linear_find (rs : list JoinRel) (l : list nat) (key : Bitmapset) : res (option nat) :=
  match l with
  | [] => Ok None
  | rel :: l => r ← rd rs rel; if bms_equal (relids r) key then Ok (Some rel) else linear_find rs l key
  end.

Definition with_hash (st : Planner P) (h : option (list JoinHashEntry)) : Planner P :=
  mkPlanner (rels st) (join_rel_list st) h (join_rel_level st) (join_cur_level st) (paths st).

Definition find_join_rel (key : Bitmapset) : JS P (option nat) :=
  st ← js_get;
  h ← js_lift (match join_rel_hash st with
               | None => if 32 <? length (join_rel_list st) then tab ← build_join_rel_hash (rels st) (join_rel_list st) []; Ok (Some tab) else Ok None
               | Some tab => Ok (Some tab)
               end);
  _ ← js_put (with_hash st h);
  match h with
  | Some tab => k ← js_lift (bitmap_hash key); mret (hash_find tab k key)
  | None => js_lift (linear_find (rels st) (join_rel_list st) key)
  end.

Definition add_join_rel (rel : nat) : JS P () :=
  st ← js_get;
  r ← get_rel rel;
  h ← js_lift (match join_rel_hash st with None => Ok None | Some tab => tab ← hash_enter tab (relids r) rel; Ok (Some tab) end);
  js_put (mkPlanner (rels st) (join_rel_list st ++ [rel]) h (join_rel_level st) (join_cur_level st) (paths st)).

(** ** Building a join relation *)

(** [list_append_unique_ptr]. *)
Definition append_unique (l : list JoinClause) (c : JoinClause) : list JoinClause :=
  if existsb (fun c' => jc_ptr c' =? jc_ptr c) l then l else l ++ [c].

Definition subbuild_joinrel_restrictlist (joinrelids : Bitmapset) (info new : list JoinClause) : list JoinClause :=
  foldl (fun new c => if bms_is_subset (required_relids c) joinrelids then append_unique new c else new) new info.

Definition subbuild_joinrel_joinlist (joinrelids : Bitmapset) (info new : list JoinClause) : list JoinClause :=
  foldl (fun new c => if bms_is_subset (required_relids c) joinrelids then new else append_unique new c) new info.

Definition build_joinrel_joinlist (joinrelids : Bitmapset) (outer_rel inner_rel : JoinRel) : list JoinClause :=
  subbuild_joinrel_joinlist joinrelids (joininfo inner_rel) (subbuild_joinrel_joinlist joinrelids (joininfo outer_rel) []).

Definition build_joinrel_restrictlist (joinrelids : Bitmapset) (outer_rel inner_rel : nat) : JS P (list JoinClause) :=
  o ← get_rel outer_rel;
  i ← get_rel inner_rel;
  let result := subbuild_joinrel_restrictlist joinrelids (joininfo i) (subbuild_joinrel_restrictlist joinrelids (joininfo o) []) in
  implied ← on_paths (fun rs p => jp_implied rs p joinrelids (relids o) inner_rel);
  mret (result ++ implied).

(** The lateral references of the placeholders computed at the join; what else
    [add_placeholders_to_joinrel] does is on the target list. *)
Definition add_placeholders_to_joinrel (joinrelids direct : Bitmapset) : Bitmapset :=
  foldl (fun direct ph =>
    if bms_nonempty_difference (ph_needed ph) joinrelids && bms_is_subset (ph_eval_at ph) joinrelids
    then bms_add_members direct (ph_lateral ph) else direct) direct (placeholder_list q).

Definition new_join_rel (joinrelids : Bitmapset) (o i : JoinRel) : JoinRel :=
  let relids := bms_copy joinrelids in
  let direct := add_placeholders_to_joinrel relids (bms_union (direct_lateral_relids o) (direct_lateral_relids i)) in
  mkJoinRel relids (build_joinrel_joinlist relids o i) (has_relevant_eclass_joinclause q relids)
    (null_if_empty (bms_del_members direct relids)) (min_join_parameterization relids o i) None.

(** Add the relation to the level being built, when there is one. *)
Definition add_to_level (rel : nat) : JS P () :=
  st ← js_get;
  match join_rel_level st with
  | None => mret ()
  | Some levels =>
      l ← js_lift (rd levels (join_cur_level st));
      levels ← js_lift (wr levels (join_cur_level st) (l ++ [rel]));
      js_put (mkPlanner (rels st) (join_rel_list st) (join_rel_hash st) (Some levels) (join_cur_level st) (paths st))
  end.

Definition push_rel (r : JoinRel) : JS P nat :=
  fun st => Ok (length (rels st),
    mkPlanner (rels st ++ [r]) (join_rel_list st) (join_rel_hash st) (join_rel_level st) (join_cur_level st) (paths st)).

Definition build_join_rel (joinrelids : Bitmapset) (outer_rel inner_rel : nat) (sjinfo : SpecialJoinInfo)
  : JS P (nat * list JoinClause) :=
  found ← find_join_rel joinrelids;
  match found with
  | Some rel =>
      jr ← get_rel rel;
      restrictlist ← build_joinrel_restrictlist (relids jr) outer_rel inner_rel;
      mret (rel, restrictlist)
  | None =>
      o ← get_rel outer_rel;
      i ← get_rel inner_rel;
      rel ← push_rel (new_join_rel joinrelids o i);
      restrictlist ← build_joinrel_restrictlist (bms_copy joinrelids) outer_rel inner_rel;
      _ ← on_paths (fun rs p => p ← jp_new rs p rel outer_rel inner_rel sjinfo restrictlist; Ok ((), p));
      _ ← add_join_rel rel;
      _ ← add_to_level rel;
      mret (rel, restrictlist)
  end.

(** ** Paths of a join relation *)
Definition is_dummy_rel (rel : nat) : JS P bool := on_paths (fun _ p => Ok (jp_dummy p rel, p)).
Definition mark_dummy_rel (rel : nat) : JS P () := on_paths (fun rs p => p ← jp_mark_dummy rs p rel; Ok ((), p)).

Definition add_paths_to_joinrel (joinrel outer inner : nat) (jt : JoinType) (sj : SpecialJoinInfo) (rl : list JoinClause) : JS P () :=
  on_paths (fun rs p => p ← jp_add rs p joinrel outer inner jt sj rl; Ok ((), p)).

Definition unique_ifiable (rel : nat) (sj : SpecialJoinInfo) : JS P bool := on_paths (fun rs p => jp_unique rs p rel sj).

(** [a || b] of two tests, the second only when the first fails. *)
Definition js_or (a b : JS P bool) : JS P bool := x ← a; if x : bool then mret true else b.
Definition js_and (a b : JS P bool) : JS P bool := x ← a; if x : bool then b else mret false.
Definition js_if (c : JS P bool) (a b : JS P ()) : JS P () := x ← c; if x : bool then a else b.

Definition populate_joinrel_with_paths (rel1 rel2 joinrel : nat) (sj : SpecialJoinInfo) (rl : list JoinClause) : JS P () :=
  r1 ← get_rel rel1;
  r2 ← get_rel rel2;
  let false_restriction (pushed : bool) : JS P bool := mret (restriction_is_constant_false rl pushed) in
  let either_dummy := js_or (is_dummy_rel rel1) (js_or (is_dummy_rel rel2) (false_restriction false)) in
  let add := add_paths_to_joinrel joinrel in
  let dummy_inner :=
    if restriction_is_constant_false rl false && bms_is_subset (relids r2) (syn_righthand sj) then mark_dummy_rel rel2 else mret () in
  match sj_jointype sj with
  | JOIN_INNER =>
      js_if either_dummy (mark_dummy_rel joinrel)
        (_ ← add rel1 rel2 JOIN_INNER sj rl; add rel2 rel1 JOIN_INNER sj rl)
  | JOIN_LEFT =>
      js_if (js_or (is_dummy_rel rel1) (false_restriction true)) (mark_dummy_rel joinrel)
        (_ ← dummy_inner; _ ← add rel1 rel2 JOIN_LEFT sj rl; add rel2 rel1 JOIN_RIGHT sj rl)
  | JOIN_FULL =>
      js_if (js_or (js_and (is_dummy_rel rel1) (is_dummy_rel rel2)) (false_restriction true)) (mark_dummy_rel joinrel)
        (_ ← add rel1 rel2 JOIN_FULL sj rl; _ ← add rel2 rel1 JOIN_FULL sj rl;
         none ← on_paths (fun _ p => Ok (jp_nopaths p joinrel, p));
         if none : bool
         then js_fail (Fault_elog "FULL JOIN is only supported with merge-joinable or hash-joinable join conditions")
         else mret ())
  | JOIN_SEMI =>
      broke ← (if bms_is_subset (min_lefthand sj) (relids r1) && bms_is_subset (min_righthand sj) (relids r2) then
                 d ← either_dummy;
                 if d : bool then _ ← mark_dummy_rel joinrel; mret true
                 else _ ← add rel1 rel2 JOIN_SEMI sj rl; mret false
               else mret false);
      if broke : bool then mret ()
      else js_if (js_and (mret (bms_equal (syn_righthand sj) (relids r2))) (unique_ifiable rel2 sj))
             (js_if either_dummy (mark_dummy_rel joinrel)
                (_ ← add rel1 rel2 JOIN_UNIQUE_INNER sj rl; add rel2 rel1 JOIN_UNIQUE_OUTER sj rl))
             (mret ())
  | JOIN_ANTI =>
      js_if (js_or (is_dummy_rel rel1) (false_restriction true)) (mark_dummy_rel joinrel)
        (_ ← dummy_inner; add rel1 rel2 JOIN_ANTI sj rl)
  | _ => js_fail (Fault_elog "unrecognized join type")
  end.

(** The plain inner join that no special join describes. *)
Definition inner_sj (r1 r2 : Bitmapset) : SpecialJoinInfo :=
  mkSJ r1 r2 r1 r2 JOIN_INNER false false false false [] [].

Definition make_join_rel (rel1 rel2 : nat) : JS P (option nat) :=
  r1 ← get_rel rel1;
  r2 ← get_rel rel2;
  let joinrelids := bms_union (relids r1) (relids r2) in
  legal ← join_is_legal rel1 rel2 joinrelids;
  match legal with
  | None => mret None
  | Some (sjinfo, rev) =>
      let '(a, ra, b, rb) := if rev : bool then (rel2, relids r2, rel1, relids r1) else (rel1, relids r1, rel2, relids r2) in
      let sj := match sjinfo with Some sj => sj | None => inner_sj ra rb end in
      '(joinrel, restrictlist) ← build_join_rel joinrelids a b sj;
      d ← is_dummy_rel joinrel;
      if d : bool then mret (Some joinrel)
      else _ ← populate_joinrel_with_paths a b joinrel sj restrictlist; mret (Some joinrel)
  end.

(** ** One level of the search *)
Definition make_rels_by_clause_joins (old_rel : nat) (other_rels : list nat) : JS P () :=
  js_foreach other_rels (fun other_rel =>
    o ← get_rel old_rel;
    n ← get_rel other_rel;
    if bms_overlap (relids o) (relids n) then mret ()
    else js_if (js_or (mret (have_relevant_joinclause q o n)) (have_join_order_restriction old_rel other_rel))
           (_ ← make_join_rel old_rel other_rel; mret ()) (mret ())).

Definition make_rels_by_clauseless_joins (old_rel : nat) (other_rels : list nat) : JS P () :=
  js_foreach other_rels (fun other_rel =>
    o ← get_rel old_rel;
    n ← get_rel other_rel;
    if bms_overlap (relids n) (relids o) then mret () else _ ← make_join_rel old_rel other_rel; mret ()).

(** [joinrels[k]]. *)
Definition level_rels (k : nat) : JS P (list nat) :=
  fun st => match join_rel_level st with
            | None => Err Fault_bounds
            | Some levels => match rd levels k with Ok l => Ok (l, st) | Err e => Err e end
            end.

(** [joininfo != NIL || has_eclass_joins || has_join_restriction(root, rel)]. *)
Definition has_links (r : JoinRel) : bool :=
  match joininfo r with [] => has_eclass_joins r || has_join_restriction q r | _ => true end.

Definition linear_joins (level : nat) : JS P () :=
  rels_below ← level_rels (level - 1);
  js_cells rels_below (fun old_rel rest =>
    o ← get_rel old_rel;
    firsts ← level_rels 1;
    if has_links o then make_rels_by_clause_joins old_rel (if level =? 2 then rest else firsts)
    else make_rels_by_clauseless_joins old_rel firsts).

Definition bushy_pairs (old_rel : nat) (other_rels : list nat) : JS P () :=
  js_foreach other_rels (fun new_rel =>
    o ← get_rel old_rel;
    n ← get_rel new_rel;
    if bms_overlap (relids o) (relids n) then mret ()
    else js_if (js_or (mret (have_relevant_joinclause q o n)) (have_join_order_restriction old_rel new_rel))
           (_ ← make_join_rel old_rel new_rel; mret ()) (mret ())).

(** [for (k = 2;; k++) { if (k > level - k) break; ... }], in [n] turns. *)
Fixpoint bushy_joins (n k level : nat) : JS P () :=
  match n with
  | O => mret ()
  | S n =>
      let other_level := level - k in
      if other_level <? k then mret ()
      else
        ks ← level_rels k;
        _ ← js_cells ks (fun old_rel rest =>
              o ← get_rel old_rel;
              if has_links o then
                others ← level_rels other_level;
                bushy_pairs old_rel (if k =? other_level then rest else others)
              else mret ());
        bushy_joins n (S k) level
  end.

Definition last_ditch (level : nat) : JS P () :=
  rels_below ← level_rels (level - 1);
  _ ← js_foreach rels_below (fun old_rel => firsts ← level_rels 1; make_rels_by_clauseless_joins old_rel firsts);
  built ← level_rels level;
  match built, join_info_list q with
  | [], [] => if hasLateralRTEs q then mret () else js_fail (Fault_elog "failed to build any %d-way joins")
  | _, _ => mret ()
  end.

Definition set_level (level : nat) : JS P () :=
  st ← js_get; js_put (mkPlanner (rels st) (join_rel_list st) (join_rel_hash st) (join_rel_level st) level (paths st)).

Definition join_search_one_level (level : nat) : JS P () :=
  _ ← set_level level;
  _ ← linear_joins level;
  _ ← bushy_joins level 2 level;
  built ← level_rels level;
  match built with [] => last_ditch level | _ => mret () end.

(** ** The search *)

(** The relations of a finished level get their best paths. *)
Definition finish_level (lev : nat) : JS P () :=
  l ← level_rels lev;
  js_foreach l (fun rel => on_paths (fun rs p => p ← jp_finish rs p rel; Ok ((), p))).

(** Levels [lev], [lev + 1], ... ([n] of them). *)
Fixpoint search_levels (n lev : nat) : JS P () :=
  match n with
  | O => mret ()
  | S n => _ ← join_search_one_level lev; _ ← finish_level lev; search_levels n (S lev)
  end.

Definition aqo_join_search (best_pred_cost : double) (levels_needed : nat) (initial : list nat) : JS P nat :=
  st ← js_get;
  levels ← js_lift (wr (replicate (levels_needed + 1) []) 1 initial);
  _ ← js_put (mkPlanner (rels st) (join_rel_list st) (join_rel_hash st) (Some levels) (join_cur_level st)
                (jp_begin best_pred_cost (paths st)));
  _ ← search_levels (levels_needed - 1) 2;
  last ← level_rels levels_needed;
  match last with
  | [] => js_fail (Fault_elog "failed to build any %d-way joins")
  | rel :: _ =>
      st ← js_get;
      _ ← js_put (mkPlanner (rels st) (join_rel_list st) (join_rel_hash st) None (join_cur_level st) (paths st));
      mret rel
  end.
End search.
