(* ===== verification/JoinSearch.v ===== *)
(** * JoinSearch: the search finds the joins there are

    The dynamic programming of [JoinRels] against its specification: levels of
    unions of initial relations, none twice, all the connected ones, and in the
    end the one relation that joins everything. *)
From S2P Require Import Prelude Float64 HashAny Nodes Bitmapset BitmapOps Paths PathUtils JoinRels.
From stdpp Require Import strings.

(** ** Computations that return *)
Definition js_ensures {P A} (m : JS P A) (st : Planner P) (Q : A → Planner P → Prop) : Prop :=
  match m st with Ok (a, st') => Q a st' | Err _ => False end.

Section rules.
Context {P : Type}.
Implicit Types st : Planner P.

Lemma js_ret {A} (a : A) st (Q : A → Planner P → Prop) : Q a st → js_ensures (mret a) st Q.
Proof. done. Qed.

Lemma js_bind {A B} (m : JS P A) (f : A → JS P B) st Q :
  js_ensures m st (fun a st' => js_ensures (f a) st' Q) → js_ensures (m ≫= f) st Q.
Proof. unfold js_ensures, mbind, JS_bind. by destruct (m st) as [[a st']|]. Qed.

Lemma js_mono {A} (m : JS P A) st (Q R : A → Planner P → Prop) :
  js_ensures m st Q → (∀ a st', Q a st' → R a st') → js_ensures m st R.
Proof. unfold js_ensures. destruct (m st) as [[a st']|]; auto. Qed.

Lemma js_bind_mono {A B} (m : JS P A) (f : A → JS P B) st (Q : A → Planner P → Prop) R :
  js_ensures m st Q → (∀ a st', Q a st' → js_ensures (f a) st' R) → js_ensures (m ≫= f) st R.
Proof. intros Hm Hf. apply js_bind. by eapply js_mono. Qed.

Lemma js_inv {A} (m : JS P A) st Q : js_ensures m st Q → ∃ a st', m st = Ok (a, st') ∧ Q a st'.
Proof. unfold js_ensures. destruct (m st) as [[a st']|]; [eauto | done]. Qed.

Lemma js_get_rel i r st (Q : JoinRel → Planner P → Prop) : rels st !! i = Some r → Q r st → js_ensures (get_rel i) st Q.
Proof. unfold js_ensures, get_rel. intros Hi. by rewrite (rd_some _ _ _ Hi). Qed.

Lemma js_level levels k l st (Q : list nat → Planner P → Prop) :
  join_rel_level st = Some levels → levels !! k = Some l → Q l st → js_ensures (level_rels k) st Q.
Proof. unfold js_ensures, level_rels. intros -> Hk. by rewrite (rd_some _ _ _ Hk). Qed.

Lemma js_lift_ok {A} (m : res A) st (Q : A → Planner P → Prop) : ensures m (fun a => Q a st) → js_ensures (js_lift m) st Q.
Proof. unfold js_ensures, js_lift. by destruct m. Qed.

Definition with_paths st (p : P) : Planner P :=
  mkPlanner (rels st) (join_rel_list st) (join_rel_hash st) (join_rel_level st) (join_cur_level st) p.

Lemma js_on_paths {A} (f : list JoinRel → P → res (A * P)) st (Q : A → Planner P → Prop) :
  ensures (f (rels st) (paths st)) (fun '(a, p) => Q a (with_paths st p)) → js_ensures (on_paths f) st Q.
Proof. unfold js_ensures, on_paths. by destruct (f _ _) as [[a p]|]. Qed.

Lemma js_foreach_ext {A} (l : list A) (f g : A → JS P ()) st : (∀ x s, f x s = g x s) → js_foreach l f st = js_foreach l g st.
Proof.
  intros H. revert st. induction l as [|x l IH]; intros st; [done|]. cbn [js_foreach]. unfold mbind, JS_bind. rewrite H.
  destruct (g x st) as [[]|]; [apply IH | done].
Qed.

(** Loops whose body keeps [I], moves along the preorder [R] and makes [Q x], which
    [R] keeps. *)
Section loops.
Context (I : Planner P → Prop) (R : relation (Planner P)) `{!PreOrder R}.

Lemma js_cells_rule {A} (l : list A) (body : A → list A → JS P ()) (Q : A → list A → Planner P → Prop) st :
  (∀ x rest s s', Q x rest s → R s s' → Q x rest s') →
  (∀ done x rest s, l = done ++ x :: rest → I s → R st s → js_ensures (body x rest) s (fun _ s' => I s' ∧ R s s' ∧ Q x rest s')) →
  I st →
  js_ensures (js_cells l body) st (fun _ s' => I s' ∧ R st s' ∧ ∀ done x rest, l = done ++ x :: rest → Q x rest s').
Proof.
  intros Hmono Hbody Hst. assert (Hgen : ∀ rest done s, l = done ++ rest → I s → R st s →
    js_ensures (js_cells rest body) s (fun _ s' => I s' ∧ R s s' ∧ ∀ d x r, rest = d ++ x :: r → Q x r s')).
  { intros rest. induction rest as [|x rest IH]; intros done s Hl Hs HR; cbn [js_cells].
    { apply js_ret. split_and!; [done | reflexivity | intros [|] ? ?; done]. }
    eapply js_bind_mono; [by apply (Hbody done)|]. intros _ s1 (H1 & HR1 & HQ1).
    eapply js_mono; [apply (IH (done ++ [x])); [by rewrite <- (assoc_L (++)) | done | by etrans]|].
    intros _ s2 (H2 & HR2 & HQ2). split_and!; [done | by etrans |]. intros [|y d] z r Hd; simplify_eq/=; [by eapply Hmono | by eapply HQ2]. }
  eapply js_mono; [by apply (Hgen l [] st)|]. done.
Qed.

Lemma js_foreach_rule {A} (l : list A) (body : A → JS P ()) (Q : A → Planner P → Prop) st :
  (∀ x s s', Q x s → R s s' → Q x s') →
  (∀ x s, x ∈ l → I s → R st s → js_ensures (body x) s (fun _ s' => I s' ∧ R s s' ∧ Q x s')) →
  I st →
  js_ensures (js_foreach l body) st (fun _ s' => I s' ∧ R st s' ∧ ∀ x, x ∈ l → Q x s').
Proof.
  intros Hmono Hbody Hst. replace (js_foreach l body) with (js_cells l (fun x _ => body x)).
  2: { clear. induction l as [|x l IH]; [done|]. cbn [js_cells js_foreach]. by rewrite IH. }
  eapply js_mono; [apply (js_cells_rule l _ (fun x _ => Q x))|].
  - intros x _. apply Hmono.
  - intros done x rest s -> Hs HR. apply Hbody; [set_solver | done | done].
  - done.
  - intros _ s' (H1 & H2 & H3). split_and!; [done | done|]. intros x (d & r & ->)%list_elem_of_split. by eapply H3.
Qed.
End loops.
End rules.

(** ** Finding a join relation *)
Section find.
Context {P : Type}.
Implicit Types st : Planner P.

(** The set of a relation. *)
Definition set_at (rs : list JoinRel) (j : nat) : gset nat := match rs !! j with Some r => relids_of (relids r) | None => ∅ end.

(** The relations of a list are there and well formed. *)
Definition listed (rs : list JoinRel) (l : list nat) : Prop := ∀ j, j ∈ l → ∃ r, rs !! j = Some r ∧ bms_ok (relids r).

Definition entry_ok (rs : list JoinRel) (e : JoinHashEntry) : Prop :=
  ∃ r, rs !! join_rel e = Some r ∧ join_relids e = relids r ∧ bitmap_hash (relids r) = Ok (hashvalue e).

(** The hash table has the relations of the list. *)
Definition table_of (rs : list JoinRel) (l : list nat) (tab : list JoinHashEntry) : Prop :=
  Forall (entry_ok rs) tab ∧ (join_rel <$> tab) ≡ₚ l.

Definition hash_ok st : Prop :=
  match join_rel_hash st with None => True | Some tab => table_of (rels st) (join_rel_list st) tab end.

(** [f] is the relation of the list with this set, if there is one. *)
Definition finds (rs : list JoinRel) (l : list nat) (key : gset nat) (f : option nat) : Prop :=
  match f with Some j => j ∈ l ∧ set_at rs j = key | None => ∀ j, j ∈ l → set_at rs j ≠ key end.

Lemma finds_unique rs l key f f' : NoDup (set_at rs <$> l) → finds rs l key f → finds rs l key f' → f = f'.
Proof.
  intros Hnd. destruct f as [j|], f' as [j'|]; simpl; [|naive_solver..]. intros [Hj Ej] [Hj' Ej'].
  f_equal. apply list_elem_of_lookup in Hj as [i Hi]. apply list_elem_of_lookup in Hj' as [i' Hi'].
  assert (i = i') as ->; [|congruence]. eapply NoDup_lookup; [exact Hnd | by rewrite list_lookup_fmap, Hi|].
  rewrite list_lookup_fmap, Hi'. simpl. congruence.
Qed.

Lemma linear_find_ok rs l key K : refines key K → listed rs l → ∃ f, linear_find rs l key = Ok f ∧ finds rs l K f.
Proof.
  intros HK. induction l as [|j l IH]; intros Hl; [by exists None; split; [|intros ? ?%not_elem_of_nil]|]. cbn [linear_find].
  destruct (Hl j) as (r & Hr & Hok); [set_solver|]. rewrite (rd_some _ _ _ Hr). cbn [mbind res_bind].
  assert (Hset : set_at rs j = relids_of (relids r)) by (unfold set_at; by rewrite Hr).
  rewrite (bms_equal_refines _ _ _ _ (refines_self _ Hok) HK). case_bool_decide as E.
  - exists (Some j). split; [done|]. simpl. split; [set_solver | congruence].
  - destruct IH as (f & -> & Hf); [intros ? ?; apply Hl; set_solver|]. exists f. split; [done|]. destruct f as [j'|]; simpl in *; [set_solver|].
    intros j' [->|Hj']%elem_of_cons; [congruence | by apply Hf].
Qed.

Lemma hash_find_ok rs l tab key K h :
  refines key K → listed rs l → table_of rs l tab → bitmap_hash key = Ok h → finds rs l K (hash_find tab h key).
Proof.
  intros HK Hl [Htab Hperm] Hh.
  assert (Hgen : ∀ t, Forall (entry_ok rs) t → (∀ j, j ∈ join_rel <$> t → j ∈ l) → finds rs (join_rel <$> t) K (hash_find t h key)).
  { intros t Ht. induction Ht as [|e t (r & Hr & Hk & He) Ht IH]; intros Hsub; [by intros j ?%not_elem_of_nil|]. cbn [hash_find].
    assert (Hset : set_at rs (join_rel e) = relids_of (relids r)) by (unfold set_at; by rewrite Hr).
    destruct (Hl (join_rel e)) as (r' & Hr' & Hok); [apply Hsub; rewrite fmap_cons; set_solver|]. assert (r' = r) as -> by congruence.
    assert (Heq : bitmap_match key (join_relids e) = bool_decide (K = relids_of (relids r))).
    { unfold bitmap_match. rewrite Hk. apply (bms_equal_refines _ _ _ _ HK (refines_self _ Hok)). }
    destruct (decide (K = relids_of (relids r))) as [E|E].
    - assert (Hsame : hashvalue e = h).
      { rewrite (bool_decide_true _ E) in Heq. unfold bitmap_match in Heq. rewrite Hk in Heq.
        unfold bitmap_hash in *. rewrite bms_hash_strip in Hh, He. apply equal_strip in Heq. rewrite Heq in Hh. congruence. }
      rewrite Hsame, Z.eqb_refl, Heq, bool_decide_true by done. simpl. split; [set_solver | congruence].
    - rewrite Heq, bool_decide_false, andb_false_r by done. specialize (IH ltac:(intros; apply Hsub; rewrite fmap_cons; set_solver)).
      destruct (hash_find t h key) as [j|]; simpl in *; [set_solver|]. intros j [->|Hj]%elem_of_cons; [congruence | by apply IH]. }
  specialize (Hgen tab Htab ltac:(intros j; by rewrite Hperm)). destruct (hash_find tab h key) as [j|]; simpl in *.
  - by rewrite <- Hperm.
  - intros j Hj. apply Hgen. by rewrite Hperm.
Qed.

Lemma hash_total key : ∃ h, bitmap_hash key = Ok h.
Proof. unfold bitmap_hash. rewrite bms_hash_strip. eauto. Qed.

Lemma build_hash_ok rs l tab done :
  listed rs l → table_of rs done tab → ∃ tab', build_join_rel_hash rs l tab = Ok tab' ∧ table_of rs (done ++ l) tab'.
Proof.
  revert tab done. induction l as [|j l IH]; intros tab done Hl Htab; cbn [build_join_rel_hash].
  { exists tab. by rewrite app_nil_r. }
  destruct (Hl j) as (r & Hr & Hok); [set_solver|]. rewrite (rd_some _ _ _ Hr). cbn [mbind res_bind]. unfold hash_enter.
  destruct (hash_total (relids r)) as [h Hh]. rewrite Hh. cbn [mbind res_bind].
  destruct (IH (mkEntry h (relids r) j :: tab) (done ++ [j])) as (tab' & -> & Ht); [intros ? ?; apply Hl; set_solver | |].
  - destruct Htab as [H1 H2]. split; [constructor; [by exists r | done]|]. rewrite fmap_cons, H2. simpl. apply Permutation_cons_append.
  - exists tab'. split; [done|]. by rewrite <- (assoc_L (++)) in Ht.
Qed.

(** [find_join_rel] finds by linear search or by the hash table, and leaves the
    state alone but for the table. *)
Lemma find_join_rel_ok st key K :
  refines key K → listed (rels st) (join_rel_list st) → hash_ok st →
  js_ensures (find_join_rel key) st (fun f st' =>
    finds (rels st) (join_rel_list st) K f ∧ hash_ok st' ∧ st' = with_hash st (join_rel_hash st')).
Proof.
  intros HK Hl Hh. unfold find_join_rel. eapply js_bind, js_bind.
  assert (Htab : ensures (match join_rel_hash st with
     | None => if 32 <? length (join_rel_list st) then tab ← build_join_rel_hash (rels st) (join_rel_list st) []; Ok (Some tab) else Ok None
     | Some tab => Ok (Some tab) end)
    (fun h => match h with Some tab => table_of (rels st) (join_rel_list st) tab | None => True end)).
  { unfold hash_ok in Hh. destruct (join_rel_hash st) as [tab|]; [done|]. destruct (32 <? _); [|done].
    destruct (build_hash_ok (rels st) (join_rel_list st) [] [] Hl) as (tab & -> & Ht); [by split|]. exact Ht. }
  apply js_lift_ok. eapply ensures_mono; [exact Htab|]. intros h Hh'. apply js_bind. unfold js_put, js_ensures at 1.
  destruct h as [tab|].
  - destruct (hash_total key) as [k Hk]. apply js_bind, js_lift_ok. rewrite Hk. apply js_ret. split; [by eapply hash_find_ok|]. done.
  - apply js_lift_ok. destruct (linear_find_ok (rels st) (join_rel_list st) key K HK Hl) as (f & -> & Hf). done.
Qed.

(** Looking up a join relation gives the same relation through the hash table
    the planner builds past 32 join relations as by the linear search, whichever
    of the two forms the planner is in, and leaves a table of exactly the
    relations of the list. *)
Theorem find_join_rel_linear st key :
  bms_ok key → listed (rels st) (join_rel_list st) → NoDup (set_at (rels st) <$> join_rel_list st) → hash_ok st →
  ∃ f st', find_join_rel key st = Ok (f, st') ∧ linear_find (rels st) (join_rel_list st) key = Ok f ∧
    hash_ok st' ∧ st' = with_hash st (join_rel_hash st').
Proof.
  intros Hkey Hl Hnd Hh. pose proof (refines_self _ Hkey) as HK.
  destruct (js_inv _ _ _ (find_join_rel_ok st key _ HK Hl Hh)) as (f & st' & E & Hf & Hh' & Est).
  destruct (linear_find_ok _ _ key _ HK Hl) as (f' & E' & Hf'). exists f, st'. split_and!; try done.
  rewrite E'. f_equal. by eapply finds_unique.
Qed.
End find.

(** A planner with one more join relation than the linear search takes. *)
Definition many_rels : list JoinRel := (fun i => mkJoinRel (Some [Z.of_nat (3 + i)]) [] false None None None) <$> seq 0 33.
Definition many_planner : Planner () := mkPlanner many_rels (seq 0 33) None None 0 ().

Lemma find_join_rel_linear_witness :
  ∃ f st', find_join_rel (Some [20; 0]%Z) many_planner = Ok (f, st') ∧
    linear_find (rels many_planner) (join_rel_list many_planner) (Some [20; 0]%Z) = Ok f ∧
    hash_ok st' ∧ st' = with_hash many_planner (join_rel_hash st').
Proof.
  apply (find_join_rel_linear many_planner (Some [20; 0]%Z)).
  - repeat constructor; lia.
  - intros j Hj%elem_of_seq. eexists. split; [unfold many_planner, many_rels; cbn [rels]; rewrite list_lookup_fmap, lookup_seq_lt by lia; reflexivity|].
    repeat constructor; lia.
  - apply (bool_decide_unpack _). by vm_compute.
  - exact I.
Defined.

(** ** What the paths promise the search

    [jp_good]: the path side knows the relations; [jp_has]: a relation has a path;
    [jp_best]: its best paths are set, so it can be an input of joins; [jp_cost]: with this
    prediction of the best cost the paths are not pruned away. *)
Definition keeps {P} (has best : P → nat → Prop) (p p' : P) : Prop :=
  (∀ j, has p j → has p' j) ∧ (∀ j, best p j → best p' j).

Class JoinPathsOk (P : Type) `{JP : !JoinPaths P} : Type := {
  jp_good : list JoinRel → P → Prop;
  jp_has : P → nat → Prop;
  jp_best : P → nat → Prop;
  jp_dummy_ok : ∀ rs p j, jp_good rs p → jp_dummy p j = true → jp_has p j;
  jp_cost : double → P → Prop;
  jp_begin_ok : ∀ c rs p, jp_good rs p → jp_cost c p → jp_good rs (jp_begin c p) ∧ keeps jp_has jp_best p (jp_begin c p);
  jp_unique_ok : ∀ rs p i sj, jp_good rs p → i < length rs → jp_best p i →
    ensures (jp_unique rs p i sj) (fun '(_, p') => jp_good rs p' ∧ keeps jp_has jp_best p p');
  jp_implied_ok : ∀ rs rs' p a b i, jp_good rs p → rs `prefix_of` rs' → i < length rs →
    ensures (jp_implied rs' p a b i) (fun '(_, p') => jp_good rs p' ∧ keeps jp_has jp_best p p');
  jp_new_ok : ∀ rs r p o i sj rl, jp_good rs p → bms_ok (relids r) → o < length rs → i < length rs →
    ensures (jp_new (rs ++ [r]) p (length rs) o i sj rl) (fun p' => jp_good (rs ++ [r]) p' ∧ keeps jp_has jp_best p p');
  jp_add_ok : ∀ rs p j o i sj rl, jp_good rs p → j < length rs → o ≠ j → i ≠ j → jp_best p o → jp_best p i → sj_jointype sj = JOIN_INNER →
    ensures (jp_add rs p j o i JOIN_INNER sj rl) (fun p' => jp_good rs p' ∧ keeps jp_has jp_best p p' ∧ jp_has p' j);
  jp_mark_dummy_ok : ∀ rs p j, jp_good rs p → j < length rs →
    ensures (jp_mark_dummy rs p j) (fun p' => jp_good rs p' ∧ keeps jp_has jp_best p p' ∧ jp_has p' j);
  jp_finish_ok : ∀ rs p j, jp_good rs p → j < length rs → jp_has p j →
    ensures (jp_finish rs p j) (fun p' => jp_good rs p' ∧ keeps jp_has jp_best p p' ∧ jp_best p' j)
}.

#[export] Instance keeps_preorder {P} (has best : P → nat → Prop) : PreOrder (keeps has best).
Proof. split; [by intros p | intros p1 p2 p3 [H1 H2] [H3 H4]; split; eauto]. Qed.

(** ** Unions of initial relations *)
Section built.
Context (initial : list nat) (iset : nat → gset nat).

(** [S] is the union of [k] different initial relations. *)
Definition built (k : nat) (S : gset nat) : Prop :=
  ∃ l, NoDup l ∧ (∀ i, i ∈ l → i ∈ initial) ∧ length l = k ∧ S = ⋃ (iset <$> l).

Definition iset_ok : Prop :=
  NoDup initial ∧ (∀ i, i ∈ initial → iset i ≠ ∅) ∧ (∀ i j, i ∈ initial → j ∈ initial → i ≠ j → iset i ∩ iset j = ∅).

Hypothesis Hok : iset_ok.

Lemma in_union l x : x ∈ ⋃ (iset <$> l) ↔ ∃ i, i ∈ l ∧ x ∈ iset i.
Proof.
  rewrite elem_of_union_list. split.
  - intros (X & (i & -> & Hi)%list_elem_of_fmap & Hx). eauto.
  - intros (i & Hi & Hx). exists (iset i). split; [apply list_elem_of_fmap; eauto | done].
Qed.

Lemma union_mem l i : (∀ i, i ∈ l → i ∈ initial) → i ∈ initial → iset i ⊆ ⋃ (iset <$> l) → i ∈ l.
Proof.
  destruct Hok as (_ & Hne & Hdis). intros Hl Hi Hsub. destruct (set_choose_L _ (Hne i Hi)) as [x Hx].
  pose proof (Hsub x Hx) as (j & Hj & Hxj)%in_union. destruct (decide (i = j)) as [->|Hij]; [done|].
  pose proof (Hdis i j Hi (Hl j Hj) Hij). set_solver.
Qed.

Lemma built_one i : i ∈ initial → built 1 (iset i).
Proof.
  intros Hi. exists [i]. split_and!; [apply NoDup_singleton | set_solver | done |]. simpl. by rewrite union_empty_r_L.
Qed.

Lemma built_level k k' S : built k S → built k' S → k = k'.
Proof.
  assert (Hle : ∀ l l', NoDup l → (∀ i, i ∈ l → i ∈ initial) → (∀ i, i ∈ l' → i ∈ initial) → ⋃ (iset <$> l) ⊆ ⋃ (iset <$> l') → length l ≤ length l').
  { intros l l' Hnd Hl Hl' Hsub. apply submseteq_length, NoDup_submseteq; [done|]. intros i Hi. apply union_mem; [done | by apply Hl|].
    intros x Hx. apply Hsub, in_union. eauto. }
  intros (l & Hnd & Hl & <- & ->) (l' & Hnd' & Hl' & <- & E). apply (anti_symm (≤)); apply Hle; try done; by rewrite E.
Qed.

Lemma built_union k k' S S' : built k S → built k' S' → S ∩ S' = ∅ → built (k + k') (S ∪ S').
Proof.
  intros (l & Hnd & Hl & <- & ->) (l' & Hnd' & Hl' & <- & ->) Hdis. exists (l ++ l'). split_and!.
  - apply NoDup_app. split_and!; [done | | done]. intros i Hi Hi'. destruct Hok as (_ & Hne & _).
    destruct (set_choose_L _ (Hne i (Hl i Hi))) as [x Hx].
    assert (x ∈ ⋃ (iset <$> l) ∩ ⋃ (iset <$> l')) by (apply elem_of_intersection; split; apply in_union; eauto). set_solver.
  - intros i [|]%elem_of_app; auto.
  - apply length_app.
  - by rewrite fmap_app, union_list_app_L.
Qed.

(** A union of fewer than all the initial relations leaves one out, which it does
    not touch. *)
Lemma built_room k S : built k S → k < length initial → ∃ i, i ∈ initial ∧ iset i ∩ S = ∅.
Proof.
  intros (l & Hnd & Hl & <- & ->) Hk. destruct (decide (Forall (fun i => i ∈ l) initial)) as [Hall|Hex].
  - exfalso. rewrite Forall_forall in Hall. pose proof (submseteq_length _ _ (NoDup_submseteq _ _ (proj1 Hok) Hall)). lia.
  - apply not_Forall_Exists in Hex; [|intros ?; apply _]. apply Exists_exists in Hex as (i & Hi & Hni). exists i. split; [done|].
    apply elem_of_equiv_empty_L. intros x [Hx (j & Hj & Hxj)%in_union]%elem_of_intersection.
    destruct Hok as (_ & _ & Hdis). pose proof (Hdis i j Hi (Hl j Hj) ltac:(intros ->; done)). set_solver.
Qed.

Lemma built_all S : built (length initial) S → S = ⋃ (iset <$> initial).
Proof.
  intros (l & Hnd & Hl & Hlen & ->). assert (Hp : l ≡ₚ initial).
  { apply submseteq_length_Permutation; [by apply NoDup_submseteq | lia]. }
  apply set_eq. intros x. rewrite !in_union. by setoid_rewrite Hp.
Qed.
End built.

(** ** The state of the search *)
Section search_proofs.
Context {P : Type} `{JP : !JoinPaths P} `{JO : !JoinPathsOk P}.
Context (q : JoinProblem) (iset : nat → gset nat) (clauses : list JoinClause).
Implicit Types st : Planner P.
Notation initial := (initial_rels q).
Notation n := (length (initial_rels q)).
Notation req c := (relids_of (required_relids c)).

(** The problem has no special joins and no lateral references; every join clause
    is one record. *)
Record problem_ok : Prop := {
  po_inner : join_info_list q = [];
  po_lateral : hasLateralRTEs q = false;
  po_sets : iset_ok initial iset;
  po_clauses : ∀ c, c ∈ clauses → bms_ok (required_relids c);
  po_ptrs : ∀ c c', c ∈ clauses → c' ∈ clauses → jc_ptr c = jc_ptr c' → c = c';
  po_eclasses : ∀ ec, ec ∈ eq_classes q → bms_ok (ec_relids ec)
}.

(** A relation stands for the set [S]; its join clauses are the ones that [S] has
    a part in and does not contain, and its flag is right. *)
Record rel_ok (r : JoinRel) (S : gset nat) : Prop := {
  ro_relids : refines (relids r) S;
  ro_joininfo : ∀ c, c ∈ joininfo r ↔ c ∈ clauses ∧ req c ∩ S ≠ ∅ ∧ ¬ req c ⊆ S;
  ro_eclass : has_eclass_joins r = has_relevant_eclass_joinclause q (relids r)
}.

(** The relations of level [k]. *)
Definition lvl st (k : nat) : list nat := default [] (join_rel_level st ≫= (.!! k)).

Definition rel_is st (j : nat) (S : gset nat) : Prop := ∃ r, rels st !! j = Some r ∧ rel_ok r S.

Record inv (lev : nat) st : Prop := {
  inv_cur : join_cur_level st = lev;
  inv_len : ∃ levels, join_rel_level st = Some levels ∧ length levels = S n;
  inv_first : lvl st 1 = initial;
  inv_initial : ∀ i, i ∈ initial → rel_is st i (iset i);
  inv_level : ∀ k j, 2 ≤ k → j ∈ lvl st k → j ∈ join_rel_list st ∧ ∃ S, rel_is st j S ∧ built initial iset k S;
  inv_distinct : ∀ k, 2 ≤ k → NoDup (set_at (rels st) <$> lvl st k);
  inv_above : ∀ k, lev < k → lvl st k = [];
  inv_list : listed (rels st) (join_rel_list st);
  inv_found : ∀ j k, j ∈ join_rel_list st → 2 ≤ k → k ≤ n → built initial iset k (set_at (rels st) j) → j ∈ lvl st k;
  inv_hash : hash_ok st;
  inv_good : jp_good (rels st) (paths st);
  inv_best : ∀ k j, k < lev → j ∈ lvl st k → jp_best (paths st) j
}.

Definition has_all (lev : nat) st : Prop := ∀ j, j ∈ lvl st lev → jp_has (paths st) j.

(** The relations and levels grow, the paths keep what they have. *)
Record grows (lev : nat) st st' : Prop := {
  gr_rels : rels st `prefix_of` rels st';
  gr_levels : ∀ k, k ≠ lev → lvl st' k = lvl st k;
  gr_level : ∀ j, j ∈ lvl st lev → j ∈ lvl st' lev;
  gr_paths : keeps jp_has jp_best (paths st) (paths st')
}.

#[local] Instance grows_preorder lev : PreOrder (grows lev).
Proof.
  split.
  - intros st. split; [done | done | done | reflexivity].
  - intros s1 s2 s3 [H1 H2 H3 H4] [H5 H6 H7 H8]. split; [by etrans | intros k Hk; by rewrite H6, H2 | auto | by etrans].
Qed.

(** The level has a relation of this set. *)
Definition present (lev : nat) (S : gset nat) st : Prop := ∃ j, j ∈ lvl st lev ∧ rel_is st j S.

Lemma rel_is_grows lev st st' j S : rel_is st j S → grows lev st st' → rel_is st' j S.
Proof. intros (r & Hr & Ho) H. exists r. split; [|done]. eapply prefix_lookup_Some; [done | apply H]. Qed.

Lemma present_grows lev S st st' : present lev S st → grows lev st st' → present lev S st'.
Proof. intros (j & Hj & Hr) H. exists j. split; [by apply H | by eapply rel_is_grows]. Qed.

Lemma rel_is_set st j S : rel_is st j S → set_at (rels st) j = S.
Proof. intros (r & Hr & Ho). unfold set_at. rewrite Hr. apply Ho. Qed.

Lemma rel_is_lt st j S : rel_is st j S → j < length (rels st).
Proof. intros (r & Hr & _). by eapply lookup_lt_Some. Qed.

Lemma lvl_get st levels k : join_rel_level st = Some levels → k < length levels → levels !! k = Some (lvl st k).
Proof. intros E Hk. unfold lvl. rewrite E. simpl. destruct (lookup_lt_is_Some_2 levels k Hk) as [l ->]. done. Qed.

Lemma js_lvl lev st k (Q : list nat → Planner P → Prop) : inv lev st → k ≤ n → Q (lvl st k) st → js_ensures (level_rels k) st Q.
Proof.
  intros Hi Hk HQ. destruct (inv_len _ _ Hi) as (levels & E & Hlen). eapply js_level; [done | apply lvl_get; [done | lia] | done].
Qed.

Hypothesis Hprob : problem_ok.

Lemma level_rel lev st k j : inv lev st → 1 ≤ k → j ∈ lvl st k → ∃ S, rel_is st j S ∧ built initial iset k S.
Proof.
  intros Hi Hk Hj. destruct (decide (k = 1)) as [->|].
  - rewrite (inv_first _ _ Hi) in Hj. exists (iset j). split; [by apply (inv_initial _ _ Hi) | apply built_one; [apply (po_sets Hprob) | done]].
  - apply (inv_level _ _ Hi k j); [lia | done].
Qed.

(** Only the paths changed. *)
Lemma inv_paths lev st p : inv lev st → jp_good (rels st) p → keeps jp_has jp_best (paths st) p → inv lev (with_paths st p).
Proof. intros H Hp Hk. destruct H. split; try done. intros k j Hkl Hj. apply Hk. by eapply inv_best0. Qed.

Lemma grows_paths lev st p : keeps jp_has jp_best (paths st) p → grows lev st (with_paths st p).
Proof. by split. Qed.

(** *** Legality *)
Lemma legal_inner rel1 rel2 r1 r2 joinrelids st (Q : _ → Planner P → Prop) :
  rels st !! rel1 = Some r1 → rels st !! rel2 = Some r2 → Q (Some (None, false)) st → js_ensures (join_is_legal q rel1 rel2 joinrelids) st Q.
Proof.
  intros H1 H2 HQ. unfold join_is_legal. eapply js_bind, js_get_rel; [done|]. eapply js_bind, js_get_rel; [done|].
  rewrite (po_inner Hprob). apply js_bind, js_ret. cbn. by rewrite (po_lateral Hprob).
Qed.

(** *** Join clauses *)
Lemma append_unique_mem l c c' :
  (∀ x, x ∈ l → x ∈ clauses) → c ∈ clauses → (c' ∈ append_unique l c ↔ c' ∈ l ∨ c' = c).
Proof.
  intros Hl Hc. unfold append_unique. destruct (existsb _ l) eqn:E; [|set_solver]. split; [auto|]. intros [ | ->]; [done|].
  apply existsb_exists in E as (x & Hx%list_elem_of_In & Ep%Nat.eqb_eq). by rewrite <- (po_ptrs Hprob x c (Hl x Hx) Hc Ep).
Qed.

Lemma subbuild_mem jr info new c :
  (∀ x, x ∈ info → x ∈ clauses) → (∀ x, x ∈ new → x ∈ clauses) →
  (c ∈ subbuild_joinrel_joinlist jr info new ↔ c ∈ new ∨ (c ∈ info ∧ bms_is_subset (required_relids c) jr = false)).
Proof.
  revert new. unfold subbuild_joinrel_joinlist. induction info as [|x info IH]; intros new Hi Hn; cbn [foldl]; [set_solver|].
  assert (Hx : x ∈ clauses) by (apply Hi; set_solver). assert (Hi' : ∀ y, y ∈ info → y ∈ clauses) by (intros; apply Hi; set_solver).
  destruct (bms_is_subset (required_relids x) jr) eqn:E.
  - rewrite IH by done. rewrite elem_of_cons. split; [tauto|]. intros [?|[[->|?] ?]]; [auto | congruence | auto].
  - rewrite IH; [|done|].
    + rewrite append_unique_mem, elem_of_cons by done. split; [intros [[?| ->]|?]; tauto | intros [?|[[->|?] ?]]; tauto].
    + intros y. rewrite append_unique_mem by done. intros [?| ->]; auto.
Qed.

Lemma new_join_rel_ok o i O I :
  rel_ok o O → rel_ok i I → rel_ok (new_join_rel q (bms_union (relids o) (relids i)) o i) (O ∪ I).
Proof.
  intros Ho Hi. pose proof (bms_union_ok _ _ _ _ (ro_relids _ _ Ho) (ro_relids _ _ Hi)) as Hu.
  replace (bms_union (relids o) (relids i)) with (bms_copy (bms_union (relids o) (relids i))) in Hu by (by destruct (bms_union _ _)).
  split; [exact Hu | | done]. intros c. unfold new_join_rel, build_joinrel_joinlist. cbn [joininfo].
  assert (Hsub : ∀ r R, rel_ok r R → ∀ x, x ∈ joininfo r → x ∈ clauses) by (intros r R Hr x Hx; apply (ro_joininfo _ _ Hr x), Hx).
  assert (Hnil : ∀ x : JoinClause, x ∈ [] → x ∈ clauses) by (by intros x ?%not_elem_of_nil).
  pose proof (Hsub _ _ Ho) as Ho'. pose proof (Hsub _ _ Hi) as Hi'.
  rewrite subbuild_mem; [|done|].
  2: { intros x. rewrite subbuild_mem by done. intros [?|[? _]]; auto. }
  rewrite subbuild_mem by done.
  rewrite (ro_joininfo _ _ Ho), (ro_joininfo _ _ Hi).
  assert (Hreq : c ∈ clauses → (bms_is_subset (required_relids c) (bms_copy (bms_union (relids o) (relids i))) = false ↔ ¬ req c ⊆ O ∪ I)).
  { intros Hc. rewrite (bms_is_subset_ok _ _ _ _ (refines_self _ (po_clauses Hprob c Hc)) Hu). apply bool_decide_eq_false. }
  split.
  - intros [[[]%not_elem_of_nil | [(Hc & Hov & Hns) Hb]] | [(Hc & Hov & Hns) Hb]]; apply Hreq in Hb; try done; split_and!; set_solver.
  - intros (Hc & Hov & Hns). rewrite (Hreq Hc). destruct (decide (req c ∩ O = ∅)) as [E|E].
    + right. split_and!; [done | set_solver | set_solver | done].
    + left. right. split_and!; [done | done | set_solver | done].
Qed.

(** *** The clauses of a join *)
Lemma restrictlist_ok rs0 joinrelids a b ra rb st (Q : list JoinClause → Planner P → Prop) :
  rels st !! a = Some ra → rels st !! b = Some rb → b < length rs0 → rs0 `prefix_of` rels st → jp_good rs0 (paths st) →
  (∀ l p, jp_good rs0 p → keeps jp_has jp_best (paths st) p → Q l (with_paths st p)) →
  js_ensures (build_joinrel_restrictlist joinrelids a b) st Q.
Proof.
  intros Ha Hb Hlt Hpre Hg HQ. unfold build_joinrel_restrictlist. eapply js_bind, js_get_rel; [done|]. eapply js_bind, js_get_rel; [done|].
  cbv zeta. apply js_bind, js_on_paths. eapply ensures_mono; [by apply (jp_implied_ok rs0)|]. intros [l p] [H1 H2]. apply js_ret. by apply HQ.
Qed.

(** *** A new relation *)
Record added (lev : nat) (r : JoinRel) st st' : Prop := {
  ad_rels : rels st' = rels st ++ [r];
  ad_list : join_rel_list st' = join_rel_list st ++ [length (rels st)];
  ad_hash : hash_ok st';
  ad_cur : join_cur_level st' = join_cur_level st;
  ad_len : ∃ levels, join_rel_level st' = Some levels ∧ length levels = S n;
  ad_here : lvl st' lev = lvl st lev ++ [length (rels st)];
  ad_other : ∀ k, k ≠ lev → lvl st' k = lvl st k;
  ad_good : jp_good (rels st') (paths st');
  ad_keeps : keeps jp_has jp_best (paths st) (paths st')
}.

Lemma table_prefix rs rs' l tab : rs `prefix_of` rs' → table_of rs l tab → table_of rs' l tab.
Proof.
  intros Hp [H1 H2]. split; [|done]. eapply Forall_impl; [exact H1|]. intros e (r & Hr & ?). exists r. split; [|done].
  by eapply prefix_lookup_Some.
Qed.

Lemma add_join_rel_ok st j r (Q : () → Planner P → Prop) :
  rels st !! j = Some r → hash_ok st →
  (∀ h, hash_ok (mkPlanner (rels st) (join_rel_list st ++ [j]) h (join_rel_level st) (join_cur_level st) (paths st)) →
     Q () (mkPlanner (rels st) (join_rel_list st ++ [j]) h (join_rel_level st) (join_cur_level st) (paths st))) →
  js_ensures (add_join_rel j) st Q.
Proof.
  intros Hr Hh HQ. unfold add_join_rel. apply js_bind. unfold js_get, js_ensures at 1. eapply js_bind, js_get_rel; [done|].
  apply js_bind, js_lift_ok. unfold hash_ok in Hh. destruct (join_rel_hash st) as [tab|].
  - destruct (hash_total (relids r)) as [h Eh]. unfold hash_enter. rewrite Eh. cbn. apply HQ. destruct Hh as [H1 H2].
    split; [constructor; [by exists r | done]|]. cbn. rewrite H2. apply Permutation_cons_append.
  - cbn. by apply HQ.
Qed.

Lemma add_to_level_ok st j levels (Q : () → Planner P → Prop) :
  join_rel_level st = Some levels → join_cur_level st < length levels →
  Q () (mkPlanner (rels st) (join_rel_list st) (join_rel_hash st)
          (Some (<[join_cur_level st := lvl st (join_cur_level st) ++ [j]]> levels)) (join_cur_level st) (paths st)) →
  js_ensures (add_to_level j) st Q.
Proof.
  intros El Hlt HQ. unfold add_to_level. apply js_bind. unfold js_get, js_ensures at 1. rewrite El.
  pose proof (lvl_get st levels _ El Hlt) as Hl. apply js_bind, js_lift_ok. rewrite (rd_some _ _ _ Hl). cbn.
  apply js_bind, js_lift_ok. unfold wr. rewrite Hl. exact HQ.
Qed.

Lemma lvl_insert rs l h levels c p k x :
  lvl (mkPlanner rs l h (Some (<[c := x]> levels)) c p) k =
    if decide (k = c) then if decide (c < length levels) then x else default [] (levels !! c) else default [] (levels !! k).
Proof.
  unfold lvl. simpl. destruct (decide (k = c)) as [->|]; [|by rewrite list_lookup_insert_ne by done].
  case_decide; [by rewrite list_lookup_insert_eq | by rewrite list_insert_ge by lia].
Qed.

Lemma build_new_ok lev st joinrelids a b ra rb sj :
  inv lev st → lev ≤ n → rels st !! a = Some ra → rels st !! b = Some rb →
  bms_ok joinrelids →
  js_ensures (rel ← push_rel (new_join_rel q joinrelids ra rb);
              restrictlist ← build_joinrel_restrictlist (bms_copy joinrelids) a b;
              _ ← on_paths (fun rs p => p ← jp_new rs p rel a b sj restrictlist; Ok ((), p));
              _ ← add_join_rel rel;
              _ ← add_to_level rel;
              mret (rel, restrictlist)) st
    (fun '(j, _) st' => j = length (rels st) ∧ added lev (new_join_rel q joinrelids ra rb) st st').
Proof.
  intros Hi Hn Ha Hb Hok. set (r := new_join_rel q joinrelids ra rb).
  destruct (inv_len _ _ Hi) as (levels & El & Hlen). apply js_bind. unfold push_rel, js_ensures at 1. set (st1 := mkPlanner _ _ _ _ _ _).
  apply js_bind. apply (restrictlist_ok (rels st) _ a b ra rb st1);
    [by apply lookup_app_l_Some | by apply lookup_app_l_Some | by eapply lookup_lt_Some | by exists [r] | apply Hi |].
  intros rl p Hp Hk. apply js_bind, js_on_paths. cbn [rels paths with_paths st1].
  pose proof (jp_new_ok (rels st) r p a b sj rl Hp ltac:(by destruct joinrelids) ltac:(by eapply lookup_lt_Some) ltac:(by eapply lookup_lt_Some)) as Hnew.
  apply ensures_inv in Hnew as (p' & -> & Hg & Hk'). cbn [mbind res_bind ensures].
  apply js_bind. eapply (add_join_rel_ok _ _ r).
  { cbn. apply list_lookup_middle. done. }
  { pose proof (inv_hash _ _ Hi) as Hh. unfold hash_ok in *. cbn. destruct (join_rel_hash st); [|done]. eapply table_prefix; [|exact Hh]. by exists [r]. }
  intros h Hh. apply js_bind. eapply (add_to_level_ok _ _ levels); [exact El | cbn; rewrite (inv_cur _ _ Hi), Hlen; lia|].
  apply js_ret. split; [done|]. cbn [rels join_rel_list join_rel_hash join_rel_level join_cur_level paths with_paths st1]. rewrite (inv_cur _ _ Hi).
  assert (Hdef : ∀ k, default [] (levels !! k) = lvl st k) by (intros k; unfold lvl; by rewrite El).
  split; [done | done | exact Hh | by rewrite (inv_cur _ _ Hi) | | | | done | by etrans].
  - eexists. split; [done|]. by rewrite length_insert.
  - rewrite lvl_insert, !decide_True by (rewrite ?Hlen; lia || done). f_equal.
  - intros k Hk0. rewrite lvl_insert, decide_False by done. apply Hdef.
Qed.

Lemma set_at_app rs r j : j < length rs → set_at (rs ++ [r]) j = set_at rs j.
Proof. intros Hj. unfold set_at. by rewrite lookup_app_l. Qed.

Lemma listed_lt rs l j : listed rs l → j ∈ l → j < length rs.
Proof. intros H Hj. destruct (H j Hj) as (r & Hr & _). by eapply lookup_lt_Some. Qed.

(** A relation whose set was not there joins its level. *)
Lemma inv_added lev r S st st' :
  inv lev st → 2 ≤ lev → lev ≤ n → added lev r st st' → rel_ok r S → built initial iset lev S →
  (∀ j, j ∈ join_rel_list st → set_at (rels st) j ≠ S) →
  inv lev st' ∧ grows lev st st' ∧ rel_is st' (length (rels st)) S.
Proof.
  intros Hi H2 Hn Had Hr Hb Hnew. set (j := length (rels st)).
  assert (Hpre : rels st `prefix_of` rels st') by (rewrite (ad_rels _ _ _ _ Had); by exists [r]).
  assert (Hj : rel_is st' j S) by (exists r; split; [rewrite (ad_rels _ _ _ _ Had); by apply list_lookup_middle | done]).
  assert (Hg : grows lev st st').
  { split; [done | apply Had | rewrite (ad_here _ _ _ _ Had); set_solver | apply Had]. }
  assert (Hset : ∀ k, k < length (rels st) → set_at (rels st') k = set_at (rels st) k).
  { intros k Hk. rewrite (ad_rels _ _ _ _ Had). by apply set_at_app. }
  assert (Hlv : ∀ k x, 2 ≤ k → x ∈ lvl st k → set_at (rels st') x = set_at (rels st) x).
  { intros k x Hk Hx. destruct (inv_level _ _ Hi k x Hk Hx) as (Hx' & _). apply Hset. eapply listed_lt; [apply Hi | done]. }
  split; [|done]. split.
  - rewrite (ad_cur _ _ _ _ Had). apply Hi.
  - apply Had.
  - rewrite (ad_other _ _ _ _ Had) by lia. apply Hi.
  - intros i Hin. eapply rel_is_grows; [by apply (inv_initial _ _ Hi) | done].
  - intros k x Hk Hx. rewrite (ad_list _ _ _ _ Had). destruct (decide (k = lev)) as [->|Hne].
    + rewrite (ad_here _ _ _ _ Had) in Hx. apply elem_of_app in Hx as [Hx|Hx%list_elem_of_singleton].
      * destruct (inv_level _ _ Hi _ _ Hk Hx) as (Hx' & S' & HS & HB). split; [set_solver|]. exists S'. split; [by eapply rel_is_grows | done].
      * subst x. split; [set_solver | by exists S].
    + rewrite (ad_other _ _ _ _ Had) in Hx by done. destruct (inv_level _ _ Hi _ _ Hk Hx) as (Hx' & S' & HS & HB).
      split; [set_solver|]. exists S'. split; [by eapply rel_is_grows | done].
  - intros k Hk. destruct (decide (k = lev)) as [->|Hne].
    + rewrite (ad_here _ _ _ _ Had), fmap_app. apply NoDup_app. split_and!; [| |apply NoDup_singleton].
      * erewrite list_fmap_ext; [by apply (inv_distinct _ _ Hi)|]. intros i x Hx%list_elem_of_lookup_2. by eapply Hlv.
      * intros X (x & -> & Hx)%list_elem_of_fmap. simpl. intros HX%list_elem_of_singleton. fold j in HX. rewrite (rel_is_set _ _ _ Hj), (Hlv lev x) in HX by done.
        destruct (inv_level _ _ Hi lev x Hk Hx) as (Hx' & _). by eapply Hnew.
    + rewrite (ad_other _ _ _ _ Had) by done. erewrite list_fmap_ext; [by apply (inv_distinct _ _ Hi)|]. intros i x Hx%list_elem_of_lookup_2. by eapply Hlv.
  - intros k Hk. rewrite (ad_other _ _ _ _ Had) by lia. by apply (inv_above _ _ Hi).
  - rewrite (ad_list _ _ _ _ Had). intros x [Hx|Hx%list_elem_of_singleton]%elem_of_app.
    + destruct (inv_list _ _ Hi x Hx) as (r' & Hr' & ?). exists r'. split; [by eapply prefix_lookup_Some | done].
    + subst x. destruct Hj as (r' & Hr' & Ho). exists r'. split; [done | apply Ho].
  - rewrite (ad_list _ _ _ _ Had). intros x k [Hx|Hx%list_elem_of_singleton]%elem_of_app Hk Hkn.
    + rewrite Hset by (eapply listed_lt; [apply Hi | done]). intros HB. pose proof (inv_found _ _ Hi x k Hx Hk Hkn HB) as Hin.
      destruct (decide (k = lev)) as [->|]; [rewrite (ad_here _ _ _ _ Had); set_solver | by rewrite (ad_other _ _ _ _ Had)].
    + subst x. fold j. rewrite (rel_is_set _ _ _ Hj). intros HB. assert (k = lev) as -> by (eapply built_level; [apply (po_sets Hprob) | done | done]).
      rewrite (ad_here _ _ _ _ Had). set_solver.
  - apply Had.
  - apply Had.
  - intros k x Hk Hx. rewrite (ad_other _ _ _ _ Had) in Hx by lia. apply (ad_keeps _ _ _ _ Had). by eapply (inv_best _ _ Hi).
Qed.

(** *** Finding or building the join relation *)
Lemma inv_with_hash lev st h : inv lev st → hash_ok (with_hash st h) → inv lev (with_hash st h).
Proof. intros H Hh. destruct H. by split. Qed.

(** The state has the join relation [j] of the set [S]; the others of its level
    have paths. *)
Definition joined (lev : nat) (S : gset nat) st st' (j : nat) : Prop :=
  inv lev st' ∧ grows lev st st' ∧ j ∈ lvl st' lev ∧ rel_is st' j S ∧
  ∀ j', j' ∈ lvl st' lev → j' ≠ j → jp_has (paths st') j'.

Lemma build_join_rel_ok lev st a b A B sj ra rb :
  inv lev st → has_all lev st → 2 ≤ lev → lev ≤ n → rels st !! a = Some ra → rel_ok ra A → rels st !! b = Some rb → rel_ok rb B →
  built initial iset lev (A ∪ B) →
  js_ensures (build_join_rel q (bms_union (relids ra) (relids rb)) a b sj) st (fun '(j, _) st' => joined lev (A ∪ B) st st' j).
Proof.
  intros Hi Hhas H2 Hn Ha HA Hb HB Hbuilt. unfold build_join_rel.
  pose proof (bms_union_ok _ _ _ _ (ro_relids _ _ HA) (ro_relids _ _ HB)) as Hu.
  eapply js_bind_mono; [by apply (find_join_rel_ok st _ _ Hu); apply Hi|]. intros f st1 (Hf & Hh & Est).
  assert (Hi1 : inv lev st1) by (rewrite Est; apply inv_with_hash; [done | by rewrite <- Est]).
  destruct f as [j|].
  - destruct Hf as [Hj Hset]. assert (Hin : j ∈ lvl st lev) by (apply (inv_found _ _ Hi); [done | done | done | by rewrite Hset]).
    destruct (inv_level _ _ Hi _ _ H2 Hin) as (_ & S & (r & Hr & Ho) & _).
    assert (S = A ∪ B) as -> by (rewrite <- Hset; symmetry; apply rel_is_set; by exists r).
    assert (Hr1 : ∀ i x, rels st !! i = Some x → rels st1 !! i = Some x) by (by rewrite Est).
    eapply js_bind, js_get_rel; [by apply Hr1|]. apply js_bind.
    eapply (restrictlist_ok (rels st1)); [by apply Hr1 | by apply Hr1 | eapply lookup_lt_Some; by apply Hr1 | done | apply Hi1 |].
    intros l p Hp Hk. apply js_ret. rewrite Est in *. split_and!.
    + by apply inv_paths.
    + split; [done | done | done | done].
    + done.
    + by exists r.
    + intros j' Hj' _. apply Hk. by apply Hhas.
  - assert (Hr1 : rels st1 = rels st) by (by rewrite Est).
    eapply js_bind, js_get_rel; [by rewrite Hr1|]. eapply js_bind, js_get_rel; [by rewrite Hr1|].
    eapply js_mono; [apply (build_new_ok lev st1 _ a b ra rb); [done | done | by rewrite Hr1 | by rewrite Hr1 | apply Hu]|].
    intros [j rl] st2 [-> Had]. destruct (inv_added lev (new_join_rel q (bms_union (relids ra) (relids rb)) ra rb) (A ∪ B) st1 st2) as (Hi2 & Hg & Hrel); try done.
    + by apply new_join_rel_ok.
    + rewrite Est. exact Hf.
    + split_and!; [done | | rewrite (ad_here _ _ _ _ Had); set_solver | done |].
      * etrans; [|exact Hg]. rewrite Est. split; done.
      * intros j' Hj' Hne. rewrite (ad_here _ _ _ _ Had) in Hj'. apply elem_of_app in Hj' as [Hj'|Hj'%list_elem_of_singleton]; [|done].
        apply (ad_keeps _ _ _ _ Had). rewrite Est in *. by apply Hhas.
Qed.

(** *** Paths of the join *)
Lemma on_paths_unit lev st (f : list JoinRel → P → res P) (Q : () → Planner P → Prop) (Q' : P → Prop) :
  inv lev st →
  ensures (f (rels st) (paths st)) (fun p => jp_good (rels st) p ∧ keeps jp_has jp_best (paths st) p ∧ Q' p) →
  (∀ p, inv lev (with_paths st p) → keeps jp_has jp_best (paths st) p → Q' p → Q () (with_paths st p)) →
  js_ensures (on_paths (fun rs p => p ← f rs p; Ok ((), p))) st Q.
Proof.
  intros Hi (p & E & Hg & Hk & Hq)%ensures_inv HQ. apply js_on_paths. rewrite E. cbn. apply HQ; [by apply inv_paths | done | done].
Qed.

Lemma is_dummy_ok j st (Q : bool → Planner P → Prop) : Q (jp_dummy (paths st) j) st → js_ensures (is_dummy_rel j) st Q.
Proof. intros H. apply js_on_paths. cbn. by replace (with_paths st (paths st)) with st by (by destruct st). Qed.

Lemma either_dummy_ok a b c st (Q : bool → Planner P → Prop) :
  (∀ b, Q b st) → js_ensures (js_or (is_dummy_rel a) (js_or (is_dummy_rel b) (mret c))) st Q.
Proof.
  intros H. apply js_bind, is_dummy_ok. destruct (jp_dummy _ a); [by apply js_ret|]. apply js_bind, is_dummy_ok. destruct (jp_dummy _ b); by apply js_ret.
Qed.

Lemma populate_inner_ok lev st a b j ra rb sj rl :
  inv lev st → sj_jointype sj = JOIN_INNER → rels st !! a = Some ra → rels st !! b = Some rb → j < length (rels st) →
  a ≠ j → b ≠ j → jp_best (paths st) a → jp_best (paths st) b →
  js_ensures (populate_joinrel_with_paths a b j sj rl) st (fun _ st' =>
    ∃ p, st' = with_paths st p ∧ inv lev st' ∧ keeps jp_has jp_best (paths st) p ∧ jp_has p j).
Proof.
  intros Hi Hsj Ha Hb Hj Haj Hbj Hba Hbb. unfold populate_joinrel_with_paths. eapply js_bind, js_get_rel; [done|]. eapply js_bind, js_get_rel; [done|].
  cbv zeta. rewrite Hsj. apply js_bind, either_dummy_ok. intros [].
  - eapply (on_paths_unit lev _ (fun rs p => jp_mark_dummy rs p j)); [done | by apply jp_mark_dummy_ok; [apply Hi|]|].
    intros p Hp Hk Hh. by exists p.
  - apply js_bind. eapply (on_paths_unit lev _ (fun rs p => jp_add rs p j a b JOIN_INNER sj rl)); [done | by apply jp_add_ok; [apply Hi|..]|].
    intros p Hp Hk Hh. eapply (on_paths_unit lev _ (fun rs p => jp_add rs p j b a JOIN_INNER sj rl)); [done | |].
    { apply jp_add_ok; [apply Hp | done | done | done | by apply Hk | by apply Hk | done]. }
    intros p' Hp' Hk' Hh'. exists p'. split_and!; [done | done | by etrans | done].
Qed.

(** The join of two disjoint relations of lower levels is there afterwards, with paths. *)
Lemma make_join_rel_ok lev st a b k1 k2 :
  inv lev st → has_all lev st → 1 ≤ k1 → 1 ≤ k2 → k1 + k2 = lev → lev ≤ n → a ∈ lvl st k1 → b ∈ lvl st k2 →
  ∀ A B, rel_is st a A → rel_is st b B → A ∩ B = ∅ →
  js_ensures (make_join_rel q a b) st (fun _ st' => (inv lev st' ∧ has_all lev st') ∧ grows lev st st' ∧ present lev (A ∪ B) st').
Proof.
  intros Hi Hhas H1 H2 Hlev Hn Hka Hkb A B (ra & Ha & HA) (rb & Hb & HB) Hdis. unfold make_join_rel.
  assert (Hbuilt : ∀ k x r X, 1 ≤ k → x ∈ lvl st k → rels st !! x = Some r → rel_ok r X → built initial iset k X).
  { intros k x r X Hk Hx Hr HX. destruct (level_rel _ _ _ _ Hi Hk Hx) as (Y & HY & HBY).
    assert (X = Y) as ->; [|done]. rewrite <- (rel_is_set _ _ _ HY). symmetry. apply rel_is_set. by exists r. }
  assert (Hunion : built initial iset lev (A ∪ B)).
  { rewrite <- Hlev. apply built_union; [apply (po_sets Hprob) | by eapply Hbuilt | by eapply Hbuilt | done]. }
  eapply js_bind, js_get_rel; [done|]. eapply js_bind, js_get_rel; [done|]. cbv zeta. apply js_bind.
  eapply legal_inner; [done | done|]. eapply js_bind_mono; [apply (build_join_rel_ok lev st a b A B _ ra rb); (done || lia)|].
  intros [j rl] st1 (Hi1 & Hg1 & Hj & Hrel & Hothers).
  assert (Hne : ∀ k x, 1 ≤ k → k < lev → x ∈ lvl st k → x ≠ j).
  { intros k x Hk Hkl Hx ->. destruct (level_rel _ _ _ _ Hi Hk Hx) as (Y & HY & HBY).
    pose proof (rel_is_grows _ _ _ _ _ HY Hg1) as HY1. pose proof (rel_is_set _ _ _ HY1) as E1. rewrite (rel_is_set _ _ _ Hrel) in E1. subst Y.
    pose proof (built_level _ _ (po_sets Hprob) _ _ _ HBY Hunion). lia. }
  apply js_bind, is_dummy_ok. destruct (jp_dummy (paths st1) j) eqn:Ed.
  - apply js_ret. split_and!; [done | | done | by exists j]. intros j' Hj'. destruct (decide (j' = j)) as [->|]; [|by apply Hothers].
    eapply jp_dummy_ok; [apply Hi1 | done].
  - assert (Hx : ∀ x r, rels st !! x = Some r → rels st1 !! x = Some r) by (intros; eapply prefix_lookup_Some; [done | apply Hg1]).
    assert (Hbest : ∀ k x, k < lev → x ∈ lvl st k → jp_best (paths st1) x) by (intros k x Hk Hkx; apply Hg1; by eapply (inv_best _ _ Hi)).
    apply js_bind. eapply js_mono; [apply (populate_inner_ok lev st1 a b j ra rb); try done; try (by apply Hx); try (by eapply rel_is_lt)|].
    + by eapply (Hne k1); (done || lia).
    + by eapply (Hne k2); (done || lia).
    + by eapply (Hbest k1); (done || lia).
    + by eapply (Hbest k2); (done || lia).
    + intros _ st2 (p & -> & Hi2 & Hk & Hhj). apply js_ret. split_and!; [done | | |].
      * intros j' Hj'. destruct (decide (j' = j)) as [->|]; [done|]. apply Hk. by apply Hothers.
      * etrans; [exact Hg1 | by apply grows_paths].
      * exists j. split; [done|]. destruct Hrel as (r & Hr & Ho). by exists r.
Qed.

(** *** Linked relations *)

(** A join clause or an equivalence class mentions both sets. *)
Definition linked (A B : gset nat) : Prop :=
  (∃ c, c ∈ clauses ∧ req c ∩ A ≠ ∅ ∧ req c ∩ B ≠ ∅) ∨
  (∃ ec, ec ∈ eq_classes q ∧ 1 < ec_nmembers ec ∧ relids_of (ec_relids ec) ∩ A ≠ ∅ ∧ relids_of (ec_relids ec) ∩ B ≠ ∅).

Lemma linked_sym A B : linked A B → linked B A.
Proof. unfold linked. naive_solver. Qed.

Lemma overlap_true a A b : refines a A → bms_ok b → (bms_overlap a b = true ↔ relids_of b ∩ A ≠ ∅).
Proof.
  intros HA Hb. rewrite (bms_overlap_ok _ _ _ _ HA (refines_self _ Hb)), bool_decide_eq_true. by rewrite (intersection_comm_L A).
Qed.

Lemma eclass_linked ra rb A B :
  rel_ok ra A → rel_ok rb B →
  have_relevant_eclass_joinclause q ra rb = true ↔
  ∃ ec, ec ∈ eq_classes q ∧ 1 < ec_nmembers ec ∧ relids_of (ec_relids ec) ∩ A ≠ ∅ ∧ relids_of (ec_relids ec) ∩ B ≠ ∅.
Proof.
  intros HA HB. unfold have_relevant_eclass_joinclause. rewrite existsb_exists. setoid_rewrite <- list_elem_of_In.
  apply exist_proper. intros ec. split.
  - intros (Hec & Hl). pose proof (po_eclasses Hprob ec Hec) as Hok. unfold eclass_links in Hl.
    apply andb_prop in Hl as [[Hn%negb_true_iff%Nat.leb_gt H1]%andb_prop H2].
    apply (overlap_true _ _ _ (ro_relids _ _ HA) Hok) in H1. by apply (overlap_true _ _ _ (ro_relids _ _ HB) Hok) in H2.
  - intros (Hec & Hn & H1 & H2). split; [done|]. pose proof (po_eclasses Hprob ec Hec) as Hok. unfold eclass_links.
    apply (overlap_true _ _ _ (ro_relids _ _ HA) Hok) in H1. apply (overlap_true _ _ _ (ro_relids _ _ HB) Hok) in H2.
    rewrite H1, H2, (proj2 (Nat.leb_gt _ _)) by done. done.
Qed.

Lemma has_eclass ra A B :
  rel_ok ra A → A ∩ B = ∅ →
  (∃ ec, ec ∈ eq_classes q ∧ 1 < ec_nmembers ec ∧ relids_of (ec_relids ec) ∩ A ≠ ∅ ∧ relids_of (ec_relids ec) ∩ B ≠ ∅) →
  has_eclass_joins ra = true.
Proof.
  intros HA Hdis (ec & Hec & Hn & H1 & H2). rewrite (ro_eclass _ _ HA). unfold has_relevant_eclass_joinclause. apply existsb_exists.
  exists ec. split; [by apply list_elem_of_In|]. pose proof (po_eclasses Hprob ec Hec) as Hok.
  apply (overlap_true _ _ _ (ro_relids _ _ HA) Hok) in H1. rewrite H1, (proj2 (Nat.leb_gt _ _)) by done. cbn.
  rewrite (bms_is_subset_ok _ _ _ _ (refines_self _ Hok) (ro_relids _ _ HA)), bool_decide_false; [done | set_solver].
Qed.

(** The clauses of one relation that mention the other. *)
Lemma joininfo_linked ra rb A B :
  rel_ok ra A → rel_ok rb B → A ∩ B = ∅ →
  existsb (fun c => bms_overlap (relids rb) (required_relids c)) (joininfo ra) = true ↔
  ∃ c, c ∈ clauses ∧ req c ∩ A ≠ ∅ ∧ req c ∩ B ≠ ∅.
Proof.
  intros HA HB Hdis. rewrite existsb_exists. setoid_rewrite <- list_elem_of_In. setoid_rewrite (ro_joininfo _ _ HA).
  apply exist_proper. intros c. split.
  - intros ((Hc & H1 & _) & H2). by apply (overlap_true _ _ _ (ro_relids _ _ HB) (po_clauses Hprob c Hc)) in H2.
  - intros (Hc & H1 & H2). split; [split_and!; [done | done | set_solver]|].
    by apply (overlap_true _ _ _ (ro_relids _ _ HB) (po_clauses Hprob c Hc)).
Qed.

(** [have_relevant_joinclause] decides whether two disjoint relations are linked,
    whichever of the two lists of clauses it looks at. *)
Lemma relevant_linked ra rb A B :
  rel_ok ra A → rel_ok rb B → A ∩ B = ∅ → (have_relevant_joinclause q ra rb = true ↔ linked A B).
Proof.
  intros HA HB Hdis. assert (Hdis' : B ∩ A = ∅) by set_solver. unfold have_relevant_joinclause.
  set (pair := if length (joininfo ra) <=? length (joininfo rb) then _ else _).
  assert (Hp : existsb (fun c => bms_overlap (snd pair) (required_relids c)) (fst pair) = true ↔ ∃ c, c ∈ clauses ∧ req c ∩ A ≠ ∅ ∧ req c ∩ B ≠ ∅).
  { subst pair. destruct (length (joininfo ra) <=? length (joininfo rb)); cbn; [by apply joininfo_linked|].
    rewrite (joininfo_linked rb ra B A) by done. split; intros (c & ? & ? & ?); by exists c. }
  destruct pair as [info other]. cbn in Hp. unfold linked. rewrite <- Hp, <- (eclass_linked ra rb A B HA HB).
  destruct (existsb _ info); cbn; [by split; [left|]|].
  destruct (has_eclass_joins ra) eqn:Ea, (has_eclass_joins rb) eqn:Eb; cbn; [by split; [right | intros []]|..].
  all: split; [done|]; intros [|Hec%(eclass_linked _ _ _ _ HA HB)]; [done|]; exfalso.
  - rewrite (has_eclass rb B A HB Hdis') in Eb; [done|]. destruct Hec as (ec & ? & ? & ? & ?). by exists ec.
  - by rewrite (has_eclass ra A B HA Hdis) in Ea.
  - by rewrite (has_eclass ra A B HA Hdis) in Ea.
Qed.

Lemma linked_has_links ra A B : rel_ok ra A → A ∩ B = ∅ → linked A B → has_links q ra = true.
Proof.
  intros HA Hdis [(c & Hc & H1 & H2)|Hec]; unfold has_links.
  - assert (Hin : c ∈ joininfo ra) by (apply (ro_joininfo _ _ HA); split_and!; [done | done | set_solver]).
    destruct (joininfo ra); [by apply not_elem_of_nil in Hin | done].
  - destruct (joininfo ra); [|done]. by rewrite (has_eclass ra A B).
Qed.

(** *** The loops *)
Definition ready (lev : nat) st : Prop := inv lev st ∧ has_all lev st.

Lemma restriction_total a b ra rb st (Q : bool → Planner P → Prop) :
  rels st !! a = Some ra → rels st !! b = Some rb → (∀ x, Q x st) → js_ensures (have_join_order_restriction q a b) st Q.
Proof.
  intros Ha Hb HQ. unfold have_join_order_restriction. eapply js_bind, js_get_rel; [done|]. eapply js_bind, js_get_rel; [done|].
  destruct (_ || _); [by apply js_ret|]. destruct (existsb _ _); [by apply js_ret|]. rewrite (po_inner Hprob). by apply js_ret.
Qed.

Definition join_pair (clauseless : bool) (old_rel other_rel : nat) : JS P () :=
  o ← get_rel old_rel;
  n ← get_rel other_rel;
  if bms_overlap (relids o) (relids n) then mret ()
  else js_if (if clauseless then mret true else js_or (mret (have_relevant_joinclause q o n)) (have_join_order_restriction q old_rel other_rel))
         (_ ← make_join_rel q old_rel other_rel; mret ()) (mret ()).

(** Of two relations of lower levels, a disjoint pair that is linked, or any
    disjoint pair in the clauseless case, is joined. *)
Lemma join_pair_ok clauseless lev st a b k1 k2 :
  ready lev st → 1 ≤ k1 → 1 ≤ k2 → k1 + k2 = lev → lev ≤ n → a ∈ lvl st k1 → b ∈ lvl st k2 →
  js_ensures (join_pair clauseless a b) st (fun _ st' => ready lev st' ∧ grows lev st st' ∧
    ∀ A B, rel_is st a A → rel_is st b B → A ∩ B = ∅ → clauseless = true ∨ linked A B → present lev (A ∪ B) st').
Proof.
  intros [Hi Hh] H1 H2 Hlev Hn Ha Hb. unfold join_pair.
  destruct (level_rel _ _ _ _ Hi H1 Ha) as (A & HA & _). destruct (level_rel _ _ _ _ Hi H2 Hb) as (B & HB & _).
  pose proof HA as (ra & Hra & Hoa). pose proof HB as (rb & Hrb & Hob).
  assert (Huniq : ∀ A' B', rel_is st a A' → rel_is st b B' → A' = A ∧ B' = B).
  { intros A' B' HA' HB'. by rewrite <- (rel_is_set _ _ _ HA), <- (rel_is_set _ _ _ HB), (rel_is_set _ _ _ HA'), (rel_is_set _ _ _ HB'). }
  eapply js_bind, js_get_rel; [done|]. eapply js_bind, js_get_rel; [done|].
  rewrite (bms_overlap_ok _ _ _ _ (ro_relids _ _ Hoa) (ro_relids _ _ Hob)). case_bool_decide as Hov.
  { apply js_ret. split_and!; [done | reflexivity|]. intros A' B' HA' HB' Hd. by destruct (Huniq A' B' HA' HB') as [-> ->]. }
  assert (Hmake : js_ensures (_ ← make_join_rel q a b; mret ()) st (fun _ st' => ready lev st' ∧ grows lev st st' ∧ present lev (A ∪ B) st')).
  { apply js_bind. eapply js_mono; [by apply (make_join_rel_ok lev st a b k1 k2 Hi Hh)|]. intros ? st' H. by apply js_ret. }
  assert (Hdone : ∀ c : bool, (clauseless = true ∨ linked A B → c = true) →
    js_ensures (if c then _ ← make_join_rel q a b; mret () else mret ()) st (fun _ st' => ready lev st' ∧ grows lev st st' ∧
      ∀ A' B', rel_is st a A' → rel_is st b B' → A' ∩ B' = ∅ → clauseless = true ∨ linked A' B' → present lev (A' ∪ B') st')).
  { intros c Hc. destruct c.
    - eapply js_mono; [exact Hmake|]. intros _ st' (? & ? & ?). split_and!; [done | done|]. intros A' B' HA' HB' _ _. by destruct (Huniq A' B' HA' HB') as [-> ->].
    - apply js_ret. split_and!; [done | reflexivity|]. intros A' B' HA' HB' _ Hl. destruct (Huniq A' B' HA' HB') as [-> ->]. by apply Hc in Hl. }
  apply js_bind. destruct clauseless; [by apply js_ret, (Hdone true)|]. apply js_bind, js_ret.
  destruct (have_relevant_joinclause q ra rb) eqn:E; [by apply js_ret, (Hdone true)|].
  eapply restriction_total; [done | done|]. intros x. apply Hdone. intros [|Hl]; [done|].
  apply (relevant_linked ra rb A B Hoa Hob Hov) in Hl. congruence.
Qed.

(** The three loops over pairs are [join_pair]. *)
Lemma clause_joins_pairs a l : make_rels_by_clause_joins q a l = js_foreach l (join_pair false a).
Proof. done. Qed.

Lemma bushy_joins_pairs a l : bushy_pairs q a l = js_foreach l (join_pair false a).
Proof. done. Qed.

Lemma pairs_ok clauseless lev st a l k1 k2 :
  ready lev st → 1 ≤ k1 → 1 ≤ k2 → k1 + k2 = lev → lev ≤ n → a ∈ lvl st k1 → (∀ b, b ∈ l → b ∈ lvl st k2) →
  js_ensures (js_foreach l (join_pair clauseless a)) st (fun _ st' => ready lev st' ∧ grows lev st st' ∧
    ∀ b, b ∈ l → ∀ A B, rel_is st a A → rel_is st b B → A ∩ B = ∅ → clauseless = true ∨ linked A B → present lev (A ∪ B) st').
Proof.
  intros Hst H1 H2 Hlev Hn Ha Hl. apply (js_foreach_rule (ready lev) (grows lev)); [| |done].
  - intros b s s' HQ Hg A B HA HB Hd Hc. eapply present_grows; [by eapply HQ | done].
  - intros b s Hb Hs Hg. eapply js_mono; [apply (join_pair_ok clauseless lev s a b k1 k2); try done|].
    + rewrite (gr_levels _ _ _ Hg) by lia. done.
    + rewrite (gr_levels _ _ _ Hg) by lia. by apply Hl.
    + intros _ s' (? & ? & HQ). split_and!; [done | done|]. intros A B HA HB. apply HQ; by eapply rel_is_grows.
Qed.

Lemma overlap_sym a b : bms_overlap a b = bms_overlap b a.
Proof.
  destruct a as [x|], b as [y|]; try done. cbn. revert y. induction x as [|w x IH]; intros [|v y]; try done. cbn. by rewrite Z.land_comm, IH.
Qed.

Lemma clauseless_joins_pairs a l st : make_rels_by_clauseless_joins q a l st = js_foreach l (join_pair true a) st.
Proof.
  apply js_foreach_ext. intros b s. unfold join_pair, mbind, JS_bind, get_rel.
  destruct (rd (rels s) a) as [ra|]; [|done]. destruct (rd (rels s) b) as [rb|]; [|done]. rewrite (overlap_sym (relids rb)).
  by destruct (bms_overlap _ _).
Qed.

Lemma clauseless_ok st a l (Q : () → Planner P → Prop) :
  js_ensures (js_foreach l (join_pair true a)) st Q → js_ensures (make_rels_by_clauseless_joins q a l) st Q.
Proof. unfold js_ensures. by rewrite clauseless_joins_pairs. Qed.

(** Every relation of the level below is joined with the initial relations it is
    linked to and disjoint from. *)
Lemma linear_joins_ok lev st :
  ready lev st → 2 ≤ lev → lev ≤ n →
  js_ensures (linear_joins q lev) st (fun _ st' => ready lev st' ∧ grows lev st st' ∧
    ∀ a i A, a ∈ lvl st (lev - 1) → i ∈ initial → rel_is st a A → A ∩ iset i = ∅ → linked A (iset i) → present lev (A ∪ iset i) st').
Proof.
  intros Hst H2 Hn. unfold linear_joins. apply js_bind. eapply js_lvl; [apply Hst | lia|].
  set (others := fun rest => if lev =? 2 then rest else initial).
  eapply js_mono; [apply (js_cells_rule (ready lev) (grows lev) _ _ (fun a rest s =>
    ∀ i A, i ∈ others rest → rel_is st a A → A ∩ iset i = ∅ → linked A (iset i) → present lev (A ∪ iset i) s)); [| |done]|].
  - intros a rest s s' HQ Hg i A Hin HA Hd Hl. eapply present_grows; [by eapply HQ | done].
  - intros done a rest s El Hs Hg. pose proof Hs as [Hi _].
    assert (Ha : a ∈ lvl s (lev - 1)) by (rewrite (gr_levels _ _ _ Hg) by lia; rewrite El; set_solver).
    assert (Hrest : ∀ b, b ∈ others rest → b ∈ lvl s 1).
    { intros b. unfold others. rewrite (inv_first _ _ Hi). destruct (Nat.eqb_spec lev 2) as [E|]; [|done]. intros Hb.
      rewrite <- (inv_first _ _ (proj1 Hst)). rewrite E in El. change (2 - 1) with 1 in El. rewrite El. set_solver. }
    destruct (level_rel _ _ _ _ Hi (ltac:(lia) : 1 ≤ lev - 1) Ha) as (A0 & (ra & Hra & Hoa) & _).
    eapply js_bind, js_get_rel; [done|]. apply js_bind. eapply js_lvl; [done | lia|].
    assert (Hpost : ∀ (c : bool) (l : list nat) s', (∀ b, b ∈ others rest → b ∈ l) →
      (∀ b, b ∈ l → ∀ A B, rel_is s a A → rel_is s b B → A ∩ B = ∅ → c = true ∨ linked A B → present lev (A ∪ B) s') →
      ∀ i A, i ∈ others rest → rel_is st a A → A ∩ iset i = ∅ → linked A (iset i) → present lev (A ∪ iset i) s').
    { intros c l s' Hsub HQ i A Hin HA Hd Hl. apply (HQ i); [by apply Hsub | by eapply rel_is_grows | | done | by right].
      apply (inv_initial _ _ Hi). rewrite <- (inv_first _ _ Hi). by apply Hrest. }
    rewrite (inv_first _ _ Hi). destruct (has_links q ra) eqn:Elinks.
    + rewrite clause_joins_pairs. eapply js_mono; [apply (pairs_ok false lev s a (others rest) (lev - 1) 1); (done || lia)|].
      intros _ s' (? & ? & HQ). split_and!; [done | done|]. apply (Hpost false (others rest) s' ltac:(done) HQ).
    + apply clauseless_ok. eapply js_mono; [apply (pairs_ok true lev s a initial (lev - 1) 1); try (done || lia)|].
      { rewrite (inv_first _ _ Hi). done. }
      intros _ s' (? & ? & HQ). split_and!; [done | done|]. eapply (Hpost true); [|exact HQ].
      intros b Hb. rewrite <- (inv_first _ _ Hi). by apply Hrest.
  - intros _ st' (Hst' & Hg & HQ). split_and!; [done | done|]. intros a i A Ha Hin HA Hd Hl.
    destruct (decide (lev = 2)) as [->|Hne].
    2: { apply list_elem_of_split in Ha as (d & r & E). eapply (HQ d a r E); [|done..]. unfold others. by rewrite (proj2 (Nat.eqb_neq _ _)). }
    change (2 - 1) with 1 in *. rewrite (inv_first _ _ (proj1 Hst)) in *.
    assert (A = iset a) as -> by (rewrite <- (rel_is_set _ _ _ HA); apply rel_is_set; by apply (inv_initial _ _ (proj1 Hst))).
    assert (Hai : a ≠ i).
    { intros ->. destruct (po_sets Hprob) as (_ & Hne & _). specialize (Hne i Hin). set_solver. }
    pose proof Ha as (d & r & E)%list_elem_of_split. destruct (decide (i ∈ r)) as [Hir|Hir].
    + eapply (HQ d a r E); [done | by apply (inv_initial _ _ (proj1 Hst)) | done | done].
    + assert (Hid : i ∈ d).
      { pose proof Hin as Hin'. rewrite E in Hin'. apply elem_of_app in Hin' as [?|[->|?]%elem_of_cons]; done. }
      apply list_elem_of_split in Hid as (d1 & d2 & Ed).
      rewrite (union_comm_L (iset a)). eapply (HQ d1 i (d2 ++ a :: r)).
      * rewrite E, Ed. by rewrite <- (assoc_L (++)).
      * unfold others. cbn. set_solver.
      * by apply (inv_initial _ _ (proj1 Hst)).
      * by rewrite (intersection_comm_L (iset i)).
      * by apply linked_sym.
Qed.

Lemma bushy_joins_ok lev m k st :
  ready lev st → 2 ≤ k → lev ≤ n → js_ensures (bushy_joins q m k lev) st (fun _ st' => ready lev st' ∧ grows lev st st').
Proof.
  revert k st. induction m as [|m IH]; intros k st Hst Hk Hn; cbn [bushy_joins]; [by apply js_ret|].
  destruct (Nat.ltb_spec (lev - k) k) as [|Hle]; [by apply js_ret|]. apply js_bind. eapply js_lvl; [apply Hst | lia|]. apply js_bind.
  eapply js_mono; [apply (js_cells_rule (ready lev) (grows lev) _ _ (fun _ _ _ => True)); [done| |done]|].
  - intros done a rest s El Hs Hg. pose proof Hs as [Hi _].
    assert (Ha : a ∈ lvl s k) by (rewrite (gr_levels _ _ _ Hg) by lia; rewrite El; set_solver).
    destruct (level_rel _ _ _ _ Hi (ltac:(lia) : 1 ≤ k) Ha) as (A0 & (ra & Hra & _) & _).
    eapply js_bind, js_get_rel; [done|]. destruct (has_links q ra); [|by apply js_ret; split_and!].
    apply js_bind. eapply js_lvl; [done | lia|]. rewrite bushy_joins_pairs.
    eapply js_mono; [apply (pairs_ok false lev s a _ k (lev - k)); try (done || lia)|].
    + intros b. destruct (Nat.eqb_spec k (lev - k)) as [E|]; [|done]. intros Hb. rewrite <- E, (gr_levels _ _ _ Hg) by lia. rewrite El. set_solver.
    + intros _ s' (? & ? & _). done.
  - intros _ s (Hs & Hg & _). eapply js_mono; [by apply IH; [|lia|]|]. intros _ s' [Hs' Hg']. split; [done | by etrans].
Qed.

(** The last resort makes a relation, and so does not raise its error. *)
Lemma last_ditch_ok lev st :
  ready lev st → 2 ≤ lev → lev ≤ n → lvl st (lev - 1) ≠ [] →
  js_ensures (last_ditch q lev) st (fun _ st' => ready lev st' ∧ grows lev st st' ∧ lvl st' lev ≠ []).
Proof.
  intros Hst H2 Hn Hne. unfold last_ditch. apply js_bind. eapply js_lvl; [apply Hst | lia|]. apply js_bind.
  eapply js_mono; [apply (js_foreach_rule (ready lev) (grows lev) _ _ (fun _ s => lvl s lev ≠ [])); [| |done]|].
  - intros a s s' Hs Hg E. destruct (lvl s lev) as [|x l] eqn:El; [done|]. assert (x ∈ lvl s' lev) by (apply Hg; rewrite El; set_solver).
    rewrite E in *. by apply not_elem_of_nil in H.
  - intros a s Ha Hs Hg. pose proof Hs as [Hi _]. assert (Ha' : a ∈ lvl s (lev - 1)) by (by rewrite (gr_levels _ _ _ Hg) by lia).
    apply js_bind. eapply js_lvl; [done | lia|]. rewrite (inv_first _ _ Hi). apply clauseless_ok.
    eapply js_mono; [apply (pairs_ok true lev s a initial (lev - 1) 1); try (done || lia)|].
    { by rewrite (inv_first _ _ Hi). }
    intros _ s' (? & ? & HQ). split_and!; [done | done|].
    destruct (level_rel _ _ _ _ Hi (ltac:(lia) : 1 ≤ lev - 1) Ha') as (A & HA & Hb).
    destruct (built_room _ _ (po_sets Hprob) _ _ Hb) as (i & Hin & Hd); [lia|].
    destruct (HQ i Hin A (iset i) HA) as (j & Hj & _); [by apply (inv_initial _ _ Hi) | set_solver | by left |].
    intros E. rewrite E in Hj. by apply not_elem_of_nil in Hj.
  - intros _ s (Hs & Hg & HQ). destruct (lvl st (lev - 1)) as [|a l]; [done|]. specialize (HQ a ltac:(set_solver)).
    apply js_bind. eapply js_lvl; [apply Hs | lia|]. destruct (lvl s lev) eqn:E; [done|]. apply js_ret. by rewrite E.
Qed.

(** ** Levels *)

(** Sets that grow from an initial relation by linked ones. *)
Inductive connected : nat → gset nat → Prop :=
| connected_one i : i ∈ initial → connected 1 (iset i)
| connected_join k A i : connected k A → i ∈ initial → A ∩ iset i = ∅ → linked A (iset i) → connected (S k) (A ∪ iset i).

Definition finished (lev : nat) st : Prop :=
  inv lev st ∧ (∀ j, j ∈ lvl st lev → jp_best (paths st) j) ∧
  ∀ k, 1 ≤ k ≤ lev → lvl st k ≠ [] ∧ ∀ A, connected k A → present k A st.

Lemma present_other lev k A st st' : k ≠ lev → present k A st → grows lev st st' → present k A st'.
Proof. intros Hk (j & Hj & Hr) Hg. exists j. split; [by rewrite (gr_levels _ _ _ Hg) | by eapply rel_is_grows]. Qed.

Lemma start_level lev st :
  finished (lev - 1) st → 2 ≤ lev →
  js_ensures (set_level lev) st (fun _ st' => ready lev st' ∧ lvl st' lev = [] ∧ rels st' = rels st ∧ ∀ k, lvl st' k = lvl st k).
Proof.
  intros (Hi & Hbest & _) H2. assert (E : lvl st lev = []) by (apply (inv_above _ _ Hi); lia). unfold set_level, js_ensures. cbn.
  split; [|done]. split; [|intros j Hj; change (j ∈ lvl st lev) in Hj; rewrite E in Hj; by apply not_elem_of_nil in Hj].
  destruct Hi. split; try done.
  - intros k Hk. apply inv_above0. lia.
  - intros k j Hk Hj. destruct (decide (k = lev - 1)) as [->|]; [by apply Hbest | eapply inv_best0; [|done]; lia].
Qed.

(** Joins of the level: never the error, all the connected sets. *)
Lemma one_level_ok lev st :
  finished (lev - 1) st → 2 ≤ lev → lev ≤ n →
  js_ensures (join_search_one_level q lev) st (fun _ st' => ready lev st' ∧
    ∀ k, 1 ≤ k ≤ lev → lvl st' k ≠ [] ∧ ∀ A, connected k A → present k A st').
Proof.
  intros Hst H2 Hn. pose proof Hst as (Hi & _ & Hlow). unfold join_search_one_level.
  eapply js_bind_mono; [by apply start_level|]. intros _ s0 (Hr0 & E0 & Er & El).
  eapply js_bind_mono; [by apply linear_joins_ok|]. intros _ s1 (Hr1 & Hg1 & Hconn).
  eapply js_bind_mono; [by apply (bushy_joins_ok lev)|]. intros _ s2 (Hr2 & Hg2).
  assert (Hg : grows lev s0 s2) by (by etrans).
  assert (Hpres : ∀ A, connected lev A → present lev A s2).
  { intros A HA. destruct HA as [i Hin | k A i HA Hin Hd Hl]; [lia|]. eapply present_grows; [|exact Hg2].
    destruct (Hlow k ltac:(destruct HA; lia)) as [_ Hp]. destruct (Hp A HA) as (j & Hj & r & Hrj & Hro).
    apply (Hconn j i A); [|done| |done|done].
    - replace (S k - 1) with k by lia. by rewrite El.
    - exists r. by rewrite Er. }
  assert (Hbelow : ∀ s, grows lev s0 s → ∀ k, 1 ≤ k ≤ lev - 1 → lvl s k ≠ [] ∧ ∀ A, connected k A → present k A s).
  { intros s Hgs k Hk. rewrite (gr_levels _ _ _ Hgs), El by lia. destruct (Hlow k Hk) as [Hne Hp]. split; [done|]. intros A HA.
    eapply present_other; [|  |exact Hgs]; [lia|]. destruct (Hp A HA) as (j & Hj & r & Hrj & Hro).
    exists j. split; [by rewrite El | exists r; by rewrite Er]. }
  apply js_bind. eapply js_lvl; [apply Hr2 | done|].
  assert (Hend : ∀ s, ready lev s → grows lev s2 s → lvl s lev ≠ [] → ready lev s ∧ ∀ k, 1 ≤ k ≤ lev → lvl s k ≠ [] ∧ ∀ A, connected k A → present k A s).
  { intros s Hs Hgs Hne. split; [done|]. intros k Hk. destruct (decide (k = lev)) as [->|].
    - split; [done|]. intros A HA. eapply present_grows; [by apply Hpres | done].
    - apply Hbelow; [by etrans | lia]. }
  destruct (lvl s2 lev) as [|x l] eqn:E2.
  - eapply js_mono; [apply last_ditch_ok; try done|].
    + rewrite (gr_levels _ _ _ Hg), El by lia. apply Hlow. lia.
    + intros _ s3 (Hs3 & Hg3 & Hne). by apply Hend.
  - apply js_ret. apply Hend; [done | done | by rewrite E2].
Qed.

Lemma finish_level_ok lev st :
  ready lev st → 1 ≤ lev → lev ≤ n →
  js_ensures (finish_level lev) st (fun _ st' => inv lev st' ∧ grows lev st st' ∧ (∀ j, j ∈ lvl st' lev → jp_best (paths st') j) ∧
    ∀ k, lvl st' k = lvl st k).
Proof.
  intros Hst Hn1 Hn. unfold finish_level. apply js_bind. eapply js_lvl; [apply Hst | done|].
  set (R := fun s s' => grows lev s s' ∧ ∀ k, lvl s' k = lvl s k). assert (Hpre : PreOrder R).
  { split; [intros s; split; [reflexivity | done]|]. intros s1 s2 s3 [? H1] [? H2]. split; [by etrans|]. intros k. by rewrite H2, H1. }
  eapply js_mono; [apply (js_foreach_rule (ready lev) R _ _ (fun j s => jp_best (paths s) j)); [| |done]|].
  - intros j s s' Hb [Hg _]. by apply Hg.
  - intros j s Hj [Hi Hh] [Hg El].
    eapply (on_paths_unit lev _ (fun rs p => jp_finish rs p j)); [done | |].
    + apply jp_finish_ok; [apply Hi | | apply Hh; by rewrite El].
      destruct (level_rel lev s lev j Hi Hn1 ltac:(by rewrite El)) as (S & HS & _). by eapply rel_is_lt.
    + intros p Hp Hk Hbj. split; [split; [done | intros j' Hj'; apply Hk, Hh, Hj']|]. split; [split; [by apply grows_paths | done] | done].
  - intros _ s' ([Hi _] & [Hg El] & HQ). split_and!; [done | done | | done]. intros j Hj. apply HQ. by rewrite <- El.
Qed.

Lemma search_levels_ok m lev st :
  finished (lev - 1) st → 2 ≤ lev → lev + m ≤ S n → js_ensures (search_levels q m lev) st (fun _ st' => finished (lev + m - 1) st').
Proof.
  revert lev st. induction m as [|m IH]; intros lev st Hst H2 Hn; cbn [search_levels].
  { apply js_ret. by replace (lev + 0 - 1) with (lev - 1) by lia. }
  eapply js_bind_mono; [by apply one_level_ok; [| |lia]|]. intros _ s1 (Hr1 & Hl1).
  eapply js_bind_mono; [by apply finish_level_ok; [|lia|lia]|]. intros _ s2 (Hi2 & Hg2 & Hb2 & El).
  replace (lev + S m - 1) with (S lev + m - 1) by lia. apply IH; [|lia|lia]. replace (S lev - 1) with lev by lia.
  split_and!; [done | done|]. intros k Hk. destruct (Hl1 k Hk) as [Hne Hp]. rewrite El. split; [done|]. intros A HA.
  destruct (Hp A HA) as (j & Hj & Hr). exists j. split; [by rewrite El | by eapply rel_is_grows].
Qed.

(** ** The whole search *)

(** The search starts with well-formed initial relations that have their best
    paths; no join relation made before is a union of several of them. *)
Record start_ok st : Prop := {
  so_initial : ∀ i, i ∈ initial → rel_is st i (iset i);
  so_list : listed (rels st) (join_rel_list st);
  so_fresh : ∀ j k, j ∈ join_rel_list st → 2 ≤ k → ¬ built initial iset k (set_at (rels st) j);
  so_hash : hash_ok st;
  so_good : jp_good (rels st) (paths st);
  so_best : ∀ i, i ∈ initial → jp_best (paths st) i
}.

(** The planner with its levels set up. *)
Definition with_levels st (c : double) : Planner P :=
  mkPlanner (rels st) (join_rel_list st) (join_rel_hash st) (Some (<[1 := initial]> (replicate (n + 1) []))) (join_cur_level st)
    (jp_begin c (paths st)).

Definition recur st (c : nat) : Planner P :=
  mkPlanner (rels st) (join_rel_list st) (join_rel_hash st) (join_rel_level st) c (paths st).

Lemma lvl_start st c k : 1 ≤ n → lvl (with_levels st c) k = if decide (k = 1) then initial else [].
Proof.
  intros Hn. unfold lvl, with_levels. cbn [join_rel_level mbind option_bind]. destruct (decide (k = 1)) as [->|].
  - rewrite list_lookup_insert_eq; [done|]. rewrite length_replicate. lia.
  - rewrite list_lookup_insert_ne by done. destruct (replicate _ _ !! k) as [l|] eqn:E; [|done]. by apply lookup_replicate in E as [-> _].
Qed.

Lemma finished_start st c : start_ok st → jp_cost c (paths st) → 1 ≤ n → finished 1 (recur (with_levels st c) 1).
Proof.
  intros Hs Hc Hn. destruct (jp_begin_ok c _ _ (so_good _ Hs) Hc) as [Hg Hkeep].
  assert (Hlvl : ∀ k, lvl (recur (with_levels st c) 1) k = if decide (k = 1) then initial else []) by (intros; by apply (lvl_start st c)).
  split; [split|split].
  - done.
  - eexists. split; [done|]. rewrite length_insert, length_replicate. lia.
  - by rewrite Hlvl, decide_True.
  - intros i Hi. apply (so_initial _ Hs i Hi).
  - intros k j Hk. rewrite Hlvl, decide_False by lia. by intros ?%not_elem_of_nil.
  - intros k Hk. rewrite Hlvl, decide_False by lia. constructor.
  - intros k Hk. rewrite Hlvl, decide_False by lia. done.
  - apply Hs.
  - intros j k Hj H2 _ HB. by apply (so_fresh _ Hs) in HB.
  - pose proof (so_hash _ Hs) as H. exact H.
  - exact Hg.
  - intros k j Hk. rewrite Hlvl, decide_False by lia. by intros ?%not_elem_of_nil.
  - intros j. rewrite Hlvl, decide_True by done. intros Hj. by apply Hkeep, (so_best _ Hs).
  - intros k Hk1. assert (k = 1) as -> by lia. rewrite Hlvl, decide_True by done. split; [by destruct initial; [simpl in Hn; lia|]|].
    intros A HA. inversion HA as [i Hi|k A' i HA' Hi]; subst; [|inversion HA'; lia].
    exists i. rewrite Hlvl, decide_True by done. split; [done|]. apply (so_initial _ Hs i Hi).
Qed.

Lemma levels_start st c : start_ok st → jp_cost c (paths st) → 1 ≤ n →
  js_ensures (search_levels q (n - 1) 2) (with_levels st c) (fun _ st' => ∃ c', finished n (recur st' c')).
Proof.
  intros Hs Hc Hn. pose proof (finished_start st c Hs Hc Hn) as Hf. destruct (n - 1) as [|m] eqn:Em.
  - apply js_ret. exists 1. by replace n with 1 by lia.
  - assert (E : search_levels q (S m) 2 (with_levels st c) = search_levels q (S m) 2 (recur (with_levels st c) 1)) by done.
    unfold js_ensures. rewrite E. change (js_ensures (search_levels q (S m) 2) (recur (with_levels st c) 1) (fun _ st' => ∃ c', finished n (recur st' c'))).
    eapply js_mono; [apply search_levels_ok; [exact Hf | done | lia]|]. intros [] st' H. exists (join_cur_level st').
    replace (recur st' (join_cur_level st')) with st' by (by destruct st'). by replace n with (2 + S m - 1) by lia.
Qed.

Lemma levels_spec st : finished n st → ∀ k, 2 ≤ k ≤ n →
  lvl st k ≠ [] ∧ NoDup (set_at (rels st) <$> lvl st k) ∧
  (∀ j, j ∈ lvl st k → built initial iset k (set_at (rels st) j)) ∧
  (∀ A, connected k A → ∃ j, j ∈ lvl st k ∧ set_at (rels st) j = A).
Proof.
  intros (Hi & _ & Hl) k Hk. destruct (Hl k ltac:(lia)) as [Hne Hp]. split_and!; [done | apply (inv_distinct _ _ Hi); lia | |].
  - intros j Hj. destruct (inv_level _ _ Hi k j ltac:(lia) Hj) as (_ & A & HA & HB). by rewrite (rel_is_set _ _ _ HA).
  - intros A HA. destruct (Hp A HA) as (j & Hj & Hr). exists j. split; [done | by apply rel_is_set].
Qed.

Lemma last_level st : finished n st → 2 ≤ n → ∃ j, lvl st n = [j] ∧ set_at (rels st) j = ⋃ (iset <$> initial).
Proof.
  intros Hf Hn. destruct (levels_spec st Hf n ltac:(lia)) as (Hne & Hnd & Hb & _).
  assert (Hall : ∀ j, j ∈ lvl st n → set_at (rels st) j = ⋃ (iset <$> initial)) by (intros j Hj; by eapply built_all, Hb).
  destruct (lvl st n) as [|j [|j' l]]; [done | |].
  - exists j. split; [done | apply Hall; set_solver].
  - exfalso. rewrite !fmap_cons in Hnd. apply NoDup_cons in Hnd as [Hnd _]. apply Hnd.
    rewrite (Hall j), <- (Hall j') by set_solver. set_solver.
Qed.

Lemma js_put_ok st st' (Q : () → Planner P → Prop) : Q () st' → js_ensures (js_put st') st Q.
Proof. done. Qed.

Lemma js_get_ok st (Q : Planner P → Planner P → Prop) : Q st st → js_ensures js_get st Q.
Proof. done. Qed.
End search_proofs.


(** [aqo_join_search] never fails on such a problem: it returns the relation that
    joins all the initial ones, with its best paths set, and puts the levels away. *)
Lemma aqo_join_search_ok {P} `{JP : !JoinPaths P} `{JO : !JoinPathsOk P} (q : JoinProblem) (iset : nat → gset nat)
    (clauses : list JoinClause) (st : Planner P) (c : double) :
  problem_ok q iset clauses → start_ok q iset clauses st → jp_cost c (paths st) → 2 ≤ length (initial_rels q) →
  ∃ rel st', aqo_join_search q c (length (initial_rels q)) (initial_rels q) st = Ok (rel, st') ∧
    set_at (rels st') rel = ⋃ (iset <$> initial_rels q) ∧ jp_best (paths st') rel ∧ join_rel_level st' = None.
Proof.
  intros Hp Hs Hc Hn. apply (js_inv _ _ (fun rel st' => set_at (rels st') rel = ⋃ (iset <$> initial_rels q) ∧ jp_best (paths st') rel ∧ join_rel_level st' = None)).
  unfold aqo_join_search. apply js_bind, js_get_ok, js_bind, js_lift_ok. unfold wr.
  assert (Hone : replicate (length (initial_rels q) + 1) ([] : list nat) !! 1 = Some []) by (apply lookup_replicate; split; [done | lia]).
  rewrite Hone. apply js_bind, js_put_ok. eapply js_bind_mono; [apply (levels_start q iset clauses Hp st c Hs Hc); lia|].
  intros _ st' (c' & Hf). destruct (last_level q iset clauses Hp _ Hf Hn) as (j & Ej & Hset). pose proof Hf as (Hi & Hb & _).
  apply js_bind. destruct (inv_len _ _ _ _ _ Hi) as (levels & El & Hlen).
  eapply (js_level levels (length (initial_rels q)) [j]); [exact El | rewrite (lvl_get _ _ _ El), Ej by lia; done|].
  apply js_bind, js_get_ok, js_bind, js_put_ok, js_ret. split_and!; [exact Hset | apply Hb; rewrite Ej; set_solver | done].
Qed.

(** A path side that keeps the list of the joins it was asked for. *)
Definition recorder : Type := list (nat * nat * nat).

#[export] Instance recorder_paths : JoinPaths recorder := {|
  jp_begin _ p := p;
  jp_dummy _ _ := false;
  jp_nopaths _ _ := false;
  jp_mark_dummy _ p _ := Ok p;
  jp_unique _ p _ _ := Ok (false, p);
  jp_implied _ p _ _ _ := Ok ([], p);
  jp_new _ p _ _ _ _ _ := Ok p;
  jp_add _ p j o i _ _ _ := Ok (p ++ [(j, o, i)]);
  jp_finish _ p _ := Ok p
|}.

#[export] Instance recorder_ok : JoinPathsOk recorder.
Proof. by refine {| jp_good _ _ := True; jp_has _ _ := True; jp_best _ _ := True; jp_cost _ _ := True |}. Defined.

(** Three relations in a chain: 1 - 2 - 3. *)
Definition chain_clause (ptr : nat) (w : Z) : JoinClause :=
  mkJoinClause ptr (mkRestrictInfo (TextNode []) None None (d_of_Z 1) (d_of_Z 1)) (Some [w]) false true [] 0.
Definition chain_clauses : list JoinClause := [chain_clause 0 6; chain_clause 1 12].
Definition chain_rels : list JoinRel :=
  [mkJoinRel (Some [2%Z]) [chain_clause 0 6] false None None None;
   mkJoinRel (Some [4%Z]) chain_clauses false None None None;
   mkJoinRel (Some [8%Z]) [chain_clause 1 12] false None None None].
Definition chain_problem : JoinProblem := mkJoinProblem [] [] [] false [0; 1; 2].
Definition chain_planner : Planner recorder := mkPlanner chain_rels [] None None 0 [].
Definition chain_iset (i : nat) : gset nat := {[ S i ]}.

Lemma chain_problem_ok : problem_ok chain_problem chain_iset chain_clauses.
Proof.
  split; [done | done | | | |].
  - split_and!; [apply (bool_decide_unpack _); by vm_compute | intros i _; unfold chain_iset; set_solver | intros i j _ _ Hij; unfold chain_iset; set_solver].
  - intros c Hc. unfold chain_clauses in Hc. rewrite !elem_of_cons, elem_of_nil in Hc. destruct Hc as [->|[->|[]]]; repeat constructor; lia.
  - intros c c' Hc Hc'. unfold chain_clauses in *. rewrite !elem_of_cons, elem_of_nil in Hc, Hc'.
    destruct Hc as [->|[->|[]]], Hc' as [->|[->|[]]]; done.
  - intros ec Hec. by apply not_elem_of_nil in Hec.
Qed.

Lemma chain_start_ok : start_ok chain_problem chain_iset chain_clauses chain_planner.
Proof.
  assert (Hclause : ∀ c, c ∈ chain_clauses ↔ c = chain_clause 0 6 ∨ c = chain_clause 1 12).
  { intros c. unfold chain_clauses. rewrite !elem_of_cons, elem_of_nil. naive_solver. }
  split; try done.
  - intros i Hi. assert (Hi' : i = 0 ∨ i = 1 ∨ i = 2) by (cbn in Hi; rewrite !elem_of_cons, elem_of_nil in Hi; naive_solver).
    destruct Hi' as [->|[->| ->]]; (eexists; split; [reflexivity|]; split; [split; [repeat constructor; lia | by vm_compute] | | by vm_compute]);
      intros c; rewrite Hclause; cbn [joininfo]; unfold chain_clauses, chain_iset; rewrite ?elem_of_cons, ?elem_of_nil;
      (split; [intros Hc | intros (Hc & H1 & H2)]).
    all: repeat match goal with H : _ ∨ _ |- _ => destruct H end; subst; try done.
    all: try (exfalso; apply H1; apply (bool_decide_unpack _); by vm_compute).
    all: try (split_and!; [auto | apply (bool_decide_unpack _); by vm_compute ..]).
    all: auto.
  - intros j Hj. by apply not_elem_of_nil in Hj.
  - intros j k Hj. by apply not_elem_of_nil in Hj.
Qed.

