(* ===== verification/JoinLegal.v ===== *)
(** * JoinLegal: the legality of joins among special joins

    What [join_is_legal] of [JoinRels] accepts when the query has outer joins,
    semijoins and lateral references, and the closure it computes for the latter. *)
From S2P Require Import Prelude Float64 HashAny Nodes Bitmapset BitmapOps Paths PathUtils JoinRels JoinSearch.
From stdpp Require Import strings.

(** The sets of a special join are well formed. *)
Record sj_ok (sj : SpecialJoinInfo) : Prop := {
  sjo_minl : bms_ok (min_lefthand sj);
  sjo_minr : bms_ok (min_righthand sj);
  sjo_syn : bms_ok (syn_righthand sj)
}.

Notation minl sj := (relids_of (min_lefthand sj)).
Notation minr sj := (relids_of (min_righthand sj)).
Notation synr sj := (relids_of (syn_righthand sj)).

(** ** The closure of a set under the special joins *)

(** Whoever touches the left side of a special join has the right side, and of a
    full join both ways. *)
Definition sj_closed (X : gset nat) (sj : SpecialJoinInfo) : Prop :=
  (minl sj ∩ X ≠ ∅ → minr sj ⊆ X) ∧ (sj_jointype sj = JOIN_FULL → minr sj ∩ X ≠ ∅ → minl sj ⊆ X).

Definition closed_under (sjs : list SpecialJoinInfo) (X : gset nat) : Prop := Forall (sj_closed X) sjs.

(** How many sides of special joins the set does not contain. *)
Definition missing (X : gset nat) (sj : SpecialJoinInfo) : nat :=
  (if decide (minr sj ⊆ X) then 0 else 1) + (if decide (minl sj ⊆ X) then 0 else 1).
Definition missing_all (X : gset nat) (sjs : list SpecialJoinInfo) : nat := sum_list (missing X <$> sjs).

Lemma missing_mono X Y sj : X ⊆ Y → missing Y sj ≤ missing X sj.
Proof.
  intros H. unfold missing. destruct (decide (minr sj ⊆ X)), (decide (minl sj ⊆ X)), (decide (minr sj ⊆ Y)), (decide (minl sj ⊆ Y)); try lia; set_solver.
Qed.

Lemma missing_all_mono X Y sjs : X ⊆ Y → missing_all Y sjs ≤ missing_all X sjs.
Proof.
  intros H. induction sjs as [|sj sjs IH]; [done|]. unfold missing_all in *. cbn. pose proof (missing_mono X Y sj H). lia.
Qed.

Lemma missing_all_bound X sjs : missing_all X sjs ≤ 2 * length sjs.
Proof.
  induction sjs as [|sj sjs IH]; [done|]. unfold missing_all in *. cbn. unfold missing at 1. destruct (decide _), (decide _); lia.
Qed.

(** What a part of a pass does: the set grows within every closed set; when it did
    not set [more] the set is closed and the same, and otherwise fewer sides are missing. *)
Record pass_ok (sjs : list SpecialJoinInfo) (A : gset nat) (more : bool) (B : gset nat) (more' : bool) : Prop := {
  pa_grows : A ⊆ B;
  pa_least : ∀ all X, closed_under all X → (∀ sj, sj ∈ sjs → sj ∈ all) → A ⊆ X → B ⊆ X;
  pa_same : more' = false → B = A ∧ more = false ∧ closed_under sjs A;
  pa_fewer : ∀ all, (∀ sj, sj ∈ sjs → sj ∈ all) → more = false → more' = true → missing_all B all < missing_all A all;
  pa_sticky : more = true → more' = true
}.

(** Adding a side that was not there. *)
Lemma missing_fewer X Y sj all :
  sj ∈ all → X ⊆ Y → (¬ minr sj ⊆ X ∧ minr sj ⊆ Y) ∨ (¬ minl sj ⊆ X ∧ minl sj ⊆ Y) → missing_all Y all < missing_all X all.
Proof.
  intros Hin Hsub Hnew. apply list_elem_of_split in Hin as (l1 & l2 & ->). unfold missing_all.
  assert (Happ : ∀ (a b : list nat), sum_list (a ++ b) = sum_list a + sum_list b) by (induction a as [|x a IH]; intros b; cbn; [done | rewrite IH; lia]).
  rewrite !fmap_app, !fmap_cons, !Happ. cbn.
  pose proof (missing_all_mono X Y l1 Hsub) as H1. pose proof (missing_all_mono X Y l2 Hsub) as H2. unfold missing_all in H1, H2.
  assert (missing Y sj < missing X sj); [|lia]. unfold missing.
  destruct (decide (minr sj ⊆ X)), (decide (minl sj ⊆ X)), (decide (minr sj ⊆ Y)), (decide (minl sj ⊆ Y)); try lia; set_solver.
Qed.

Lemma overlap_mono (X A B : gset nat) : X ∩ A ≠ ∅ → A ⊆ B → X ∩ B ≠ ∅.
Proof. set_solver. Qed.

Lemma rhs_step_ok sj set A more :
  sj_ok sj → refines set A → ∃ B, refines (rhs_step (set, more) sj).1 B ∧ pass_ok [sj] A more B (rhs_step (set, more) sj).2.
Proof.
  intros Hsj HA. pose proof (refines_self _ (sjo_minl _ Hsj)) as HL. pose proof (refines_self _ (sjo_minr _ Hsj)) as HR. cbn [rhs_step].
  rewrite (bms_overlap_ok _ _ _ _ HL HA), (bms_is_subset_ok _ _ _ _ HR HA).
  set (c1 := bool_decide (minl sj ∩ A ≠ ∅) && negb (bool_decide (minr sj ⊆ A))).
  set (A1 := if c1 then A ∪ minr sj else A). set (set1 := if c1 then bms_add_members set (min_righthand sj) else set).
  assert (HA1 : refines set1 A1) by (subst set1 A1; destruct c1; [by apply bms_add_members_ok | done]).
  replace (if c1 then (bms_add_members set (min_righthand sj), true) else (set, more)) with (set1, c1 || more) by (subst set1; by destruct c1).
  rewrite (bms_overlap_ok _ _ _ _ HR HA1), (bms_is_subset_ok _ _ _ _ HL HA1).
  set (c2 := bool_decide (sj_jointype sj = JOIN_FULL) && bool_decide (minr sj ∩ A1 ≠ ∅) && negb (bool_decide (minl sj ⊆ A1))).
  exists (if c2 then A1 ∪ minl sj else A1). split; [destruct c2; cbn; [by apply bms_add_members_ok | done]|].
  replace (if c2 then _ else _).2 with (c2 || c1 || more) by (by destruct c2).
  assert (Hc1 : c1 = true → minl sj ∩ A ≠ ∅ ∧ ¬ minr sj ⊆ A).
  { intros H%andb_prop. destruct H as [?%bool_decide_eq_true ?%negb_true_iff%bool_decide_eq_false]. done. }
  assert (Hc2 : c2 = true → sj_jointype sj = JOIN_FULL ∧ minr sj ∩ A1 ≠ ∅ ∧ ¬ minl sj ⊆ A1).
  { intros H%andb_prop. destruct H as [[?%bool_decide_eq_true ?%bool_decide_eq_true]%andb_prop ?%negb_true_iff%bool_decide_eq_false]. done. }
  assert (Hsub : A ⊆ A1) by (subst A1; destruct c1; set_solver). split.
  - destruct c2; set_solver.
  - intros all X HX Hin HAX. destruct (proj1 (Forall_forall _ _) HX sj ltac:(apply Hin; set_solver)) as [X1 X2].
    assert (HA1X : A1 ⊆ X) by (subst A1; destruct c1; [|done]; destruct (Hc1 eq_refl); apply union_subseteq; split; [done | by eapply X1, overlap_mono]).
    destruct c2; [|done]. destruct (Hc2 eq_refl) as (Hf & Ho & _). apply union_subseteq. split; [done | by eapply X2, overlap_mono].
  - intros [[E2 E1]%orb_false_iff ->]%orb_false_iff. assert (HA1eq : A1 = A) by (subst A1; by rewrite E1).
    rewrite E2. split_and!; [done | done|]. constructor; [|constructor]. split.
    + intros Ho. apply andb_false_iff in E1 as [E1%bool_decide_eq_false|E1%negb_false_iff%bool_decide_eq_true]; [by destruct E1 | done].
    + intros Hf Ho. unfold c2 in E2. rewrite HA1eq in E2.
      apply andb_false_iff in E2 as [[E2%bool_decide_eq_false|E2%bool_decide_eq_false]%andb_false_iff|E2%negb_false_iff%bool_decide_eq_true]; [done | by destruct E2 | done].
  - intros all Hin -> Hm. rewrite orb_false_r in Hm. apply (missing_fewer _ _ sj); [apply Hin; set_solver | destruct c2; set_solver|].
    destruct c1 eqn:E1; [left; destruct (Hc1 eq_refl); split; [done | subst A1; destruct c2; set_solver]|].
    destruct c2; [|done]. right. destruct (Hc2 eq_refl) as (_ & _ & Hn). split; [done | set_solver].
  - intros ->. apply orb_true_r.
Qed.

Lemma pass_app l1 l2 A B C m1 m2 m3 : pass_ok l1 A m1 B m2 → pass_ok l2 B m2 C m3 → pass_ok (l1 ++ l2) A m1 C m3.
Proof.
  intros H1 H2. split.
  - pose proof (pa_grows _ _ _ _ _ H1). pose proof (pa_grows _ _ _ _ _ H2). set_solver.
  - intros all X HX Hin HA. apply (pa_least _ _ _ _ _ H2 all X HX); [intros; apply Hin; set_solver|].
    apply (pa_least _ _ _ _ _ H1 all X HX); [intros; apply Hin; set_solver | done].
  - intros E. destruct (pa_same _ _ _ _ _ H2 E) as (-> & E2 & Hc2). destruct (pa_same _ _ _ _ _ H1 E2) as (-> & E1 & Hc1).
    split_and!; [done | done|]. by apply Forall_app.
  - intros all Hin E1 E3. assert (Hin1 : ∀ sj, sj ∈ l1 → sj ∈ all) by (intros; apply Hin; set_solver).
    assert (Hin2 : ∀ sj, sj ∈ l2 → sj ∈ all) by (intros; apply Hin; set_solver).
    pose proof (missing_all_mono _ _ all (pa_grows _ _ _ _ _ H2)). destruct m2.
    + pose proof (pa_fewer _ _ _ _ _ H1 all Hin1 E1 eq_refl). lia.
    + destruct (pa_same _ _ _ _ _ H1 eq_refl) as (-> & _). by apply (pa_fewer _ _ _ _ _ H2).
  - intros E. by apply (pa_sticky _ _ _ _ _ H2), (pa_sticky _ _ _ _ _ H1).
Qed.

Lemma pass_list sjs set A more :
  Forall sj_ok sjs → refines set A →
  ∃ B, refines (foldl rhs_step (set, more) sjs).1 B ∧ pass_ok sjs A more B (foldl rhs_step (set, more) sjs).2.
Proof.
  intros Hsjs. revert set A more. induction Hsjs as [|sj sjs Hsj Hsjs IH]; intros set A more HA.
  { exists A. split; [done|]. cbn [foldl fst snd]. split; [done | done | intros ->; split_and!; [done | done | constructor] | congruence | done]. }
  cbn [foldl]. destruct (rhs_step_ok sj set A more Hsj HA) as (B & HB & Hp). destruct (rhs_step (set, more) sj) as [set1 more1]. cbn in HB, Hp.
  destruct (IH set1 B more1 HB) as (C & HC & Hp'). exists C. split; [done|]. by apply (pass_app [sj] sjs A B C more more1).
Qed.

Lemma rhs_closure_ok fuel sjs set A :
  Forall sj_ok sjs → refines set A → missing_all A sjs < fuel →
  ∃ set' B, rhs_closure fuel sjs set = Ok set' ∧ refines set' B ∧ A ⊆ B ∧ closed_under sjs B ∧ ∀ X, closed_under sjs X → A ⊆ X → B ⊆ X.
Proof.
  intros Hsjs. revert set A. induction fuel as [|fuel IH]; intros set A HA Hf; [lia|]. cbn [rhs_closure].
  destruct (pass_list sjs set A false Hsjs HA) as (B & HB & Hp). destruct (foldl rhs_step (set, false) sjs) as [set1 more1]. cbn in HB, Hp.
  destruct more1.
  - pose proof (pa_fewer _ _ _ _ _ Hp sjs ltac:(done) eq_refl eq_refl). destruct (IH set1 B HB ltac:(lia)) as (set' & C & E & HC & H1 & H2 & H3).
    exists set', C. split_and!; [done | done | pose proof (pa_grows _ _ _ _ _ Hp); set_solver | done|].
    intros X HX HAX. apply H3; [done|]. by apply (pa_least _ _ _ _ _ Hp sjs).
  - destruct (pa_same _ _ _ _ _ Hp eq_refl) as (-> & _ & Hc). by exists set1, A.
Qed.

(** C24. The [do] loop of [join_is_legal] that collects the relations a join with
    lateral references would drag to the inner side of outer joins ends, within one
    pass more than there are sides of special joins, with the least set that contains
    the joined relations and is closed under the special joins. *)
Theorem rhs_closure_least sjs set :
  Forall sj_ok sjs → bms_ok set →
  ∃ set', rhs_closure (S (2 * length sjs)) sjs set = Ok set' ∧ bms_ok set' ∧
    relids_of set ⊆ relids_of set' ∧ closed_under sjs (relids_of set') ∧
    ∀ X, closed_under sjs X → relids_of set ⊆ X → relids_of set' ⊆ X.
Proof.
  intros Hsjs Hset. destruct (rhs_closure_ok (S (2 * length sjs)) sjs set _ Hsjs (refines_self _ Hset)) as (set' & B & E & [Hok <-] & H).
  - pose proof (missing_all_bound (relids_of set) sjs). lia.
  - by exists set'.
Qed.

Definition sample_left_join (l r : Z) : SpecialJoinInfo := mkSJ (Some [l]) (Some [r]) (Some [l]) (Some [r]) JOIN_LEFT true false false false [] [].

Lemma sample_left_ok l r : (0 ≤ l < 2 ^ 32)%Z → (0 ≤ r < 2 ^ 32)%Z → sj_ok (sample_left_join l r).
Proof. intros. split; by apply Forall_singleton. Qed.

(** A chain of left joins, against the order of the list. *)
Lemma rhs_closure_least_witness :
  ∃ set', rhs_closure 5 [sample_left_join 4 8; sample_left_join 2 4] (Some [2%Z]) = Ok set' ∧ bms_ok set' ∧
    relids_of (Some [2%Z]) ⊆ relids_of set' ∧ closed_under [sample_left_join 4 8; sample_left_join 2 4] (relids_of set') ∧
    ∀ X, closed_under [sample_left_join 4 8; sample_left_join 2 4] X → relids_of (Some [2%Z]) ⊆ X → relids_of set' ⊆ X.
Proof.
  apply (rhs_closure_least [sample_left_join 4 8; sample_left_join 2 4] (Some [2%Z])).
  - constructor; [apply sample_left_ok; lia|]. constructor; [apply sample_left_ok; lia | constructor].
  - apply Forall_singleton. lia.
Defined.

(** ** What a legal join is *)
Section legal.
Context {P : Type} `{JP : !JoinPaths P} `{JO : !JoinPathsOk P}.
Context (R1 R2 : gset nat).
Notation J := (R1 ∪ R2).

(** The special join is not concerned: its right side is outside or not yet
    complete, or it was done below, or its right side was made unique below. *)
Definition unconcerned (sj : SpecialJoinInfo) : Prop :=
  minr sj ∩ J = ∅ ∨ J ⊆ minr sj ∨ (minl sj ⊆ R1 ∧ minr sj ⊆ R1) ∨ (minl sj ⊆ R2 ∧ minr sj ⊆ R2) ∨
  (sj_jointype sj = JOIN_SEMI ∧ (synr sj ⊂ R1 ∨ synr sj ⊂ R2)).

(** The join of [outer] and [inner] performs it, as it stands or as an inner join
    with the right side made unique. *)
Definition performs (sj : SpecialJoinInfo) (outer inner : gset nat) : Prop :=
  (minl sj ⊆ outer ∧ minr sj ⊆ inner) ∨ (sj_jointype sj = JOIN_SEMI ∧ synr sj = inner).

Definition sides (rev : bool) : gset nat * gset nat := if rev then (R2, R1) else (R1, R2).

(** The join respects a special join it does not perform. *)
Definition respects (left_only : Prop) (sj : SpecialJoinInfo) : Prop :=
  unconcerned sj ∨ (R1 ∩ minr sj ≠ ∅ ∧ R2 ∩ minr sj ≠ ∅) ∨ (sj_jointype sj = JOIN_LEFT ∧ J ∩ minl sj = ∅ ∧ left_only).

Record scan_ok (pre : list SpecialJoinInfo) (l : LegalState) : Prop := {
  sc_match : match match_sjinfo l with
             | None => reversed l = false
             | Some sj => sj ∈ pre ∧ performs sj (sides (reversed l)).1 (sides (reversed l)).2
             end;
  sc_all : ∀ sj, sj ∈ pre → match_sjinfo l = Some sj ∨ respects (must_be_leftjoin l = true) sj
}.

Lemma irrelevant_ok sj r1 r2 j :
  sj_ok sj → refines r1 R1 → refines r2 R2 → refines j J → sj_irrelevant sj r1 r2 j = true → unconcerned sj.
Proof.
  intros Hsj H1 H2 HJ. pose proof (refines_self _ (sjo_minl _ Hsj)) as HL. pose proof (refines_self _ (sjo_minr _ Hsj)) as HR.
  pose proof (refines_self _ (sjo_syn _ Hsj)) as HS. unfold sj_irrelevant, unconcerned.
  rewrite (bms_overlap_ok _ _ _ _ HR HJ), (bms_is_subset_ok _ _ _ _ HJ HR), (bms_is_subset_ok _ _ _ _ HL H1), (bms_is_subset_ok _ _ _ _ HR H1),
    (bms_is_subset_ok _ _ _ _ HL H2), (bms_is_subset_ok _ _ _ _ HR H2), (bms_is_subset_ok _ _ _ _ HS H1), (bms_is_subset_ok _ _ _ _ HS H2),
    (bms_equal_refines _ _ _ _ HS H1), (bms_equal_refines _ _ _ _ HS H2).
  rewrite !orb_true_iff, !andb_true_iff, !orb_true_iff, !andb_true_iff, !negb_true_iff, !bool_decide_eq_true, !bool_decide_eq_false.
  intros [[[[H|H]|H]|H]|[Hs [H|H]]].
  - left. by apply dec_stable.
  - auto.
  - auto.
  - auto.
  - right; right; right; right. split; [done|]. left. set_solver.
  - right; right; right; right. split; [done|]. right. set_solver.
Qed.

Lemma respects_mono sj (p q : Prop) : (p → q) → respects p sj → respects q sj.
Proof. unfold respects. tauto. Qed.

Lemma match_ok pre l sj rev uniq l' :
  scan_ok pre l → match_sj l sj rev uniq = Some l' → performs sj (sides rev).1 (sides rev).2 → scan_ok (pre ++ [sj]) l'.
Proof.
  unfold match_sj. intros [Hm Ha] E Hp. destruct (match_sjinfo l) eqn:El; [done|]. simplify_eq. split; cbn.
  - split; [set_solver | done].
  - intros sj' [Hin|Hin%list_elem_of_singleton]%elem_of_app; [|left; by subst]. destruct (Ha sj' Hin) as [?|?]; [congruence | by right].
Qed.

Lemma skip_ok pre l sj : scan_ok pre l → respects (must_be_leftjoin l = true) sj → scan_ok (pre ++ [sj]) l.
Proof.
  intros [Hm Ha] Hr. split.
  - destruct (match_sjinfo l); [|done]. destruct Hm. split; [set_solver | done].
  - intros sj' [Hin|Hin%list_elem_of_singleton]%elem_of_app; [by apply Ha | subst; by right].
Qed.

Lemma violated_ok pre l sj r1 r2 j l' :
  sj_ok sj → refines r1 R1 → refines r2 R2 → refines j J → scan_ok pre l → sj_violated l sj r1 r2 j = Some l' → scan_ok (pre ++ [sj]) l'.
Proof.
  intros Hsj H1 H2 HJ Hs. pose proof (refines_self _ (sjo_minl _ Hsj)) as HL. pose proof (refines_self _ (sjo_minr _ Hsj)) as HR. unfold sj_violated.
  rewrite (bms_overlap_ok _ _ _ _ H1 HR), (bms_overlap_ok _ _ _ _ H2 HR), (bms_overlap_ok _ _ _ _ HJ HL).
  destruct (bool_decide (R1 ∩ _ ≠ ∅) && _) eqn:E1.
  - intros [= <-]. apply andb_prop in E1 as [E1%bool_decide_eq_true E1'%bool_decide_eq_true]. apply skip_ok; [done|]. right. by left.
  - destruct (bool_decide (sj_jointype sj ≠ JOIN_LEFT) || _) eqn:E2; [done|]. intros [= <-].
    apply orb_false_iff in E2 as [E2%bool_decide_eq_false E2'%bool_decide_eq_false]. apply dec_stable in E2. apply dec_stable in E2'.
    apply skip_ok; [|right; right; by split_and!]. destruct Hs as [Hm Ha]. split; [done|]. cbn. intros sj' Hin.
    destruct (Ha sj' Hin); [by left | right; eapply respects_mono; [|done]; done].
Qed.

(** The scan keeps the specification, and all else but the paths. *)
Lemma legal_scan_ok sjs pre rel1 rel2 r1 r2 j l (st : Planner P) :
  Forall sj_ok sjs → refines r1 R1 → refines r2 R2 → refines j J → rel1 < length (rels st) → rel2 < length (rels st) →
  jp_good (rels st) (paths st) → jp_best (paths st) rel1 → jp_best (paths st) rel2 → scan_ok pre l →
  js_ensures (legal_scan sjs rel1 rel2 r1 r2 j l) st (fun o st' =>
    (∃ p, st' = with_paths st p ∧ jp_good (rels st) p ∧ keeps jp_has jp_best (paths st) p) ∧
    match o with None => True | Some l' => scan_ok (pre ++ sjs) l' end).
Proof.
  intros Hsjs H1 H2 HJ Hl1 Hl2. revert pre l st Hl1 Hl2. induction Hsjs as [|sj sjs Hsj Hsjs IH]; intros pre l st Hl1 Hl2 Hg Hb1 Hb2 Hs; cbn [legal_scan].
  { apply js_ret. rewrite app_nil_r. split; [|done]. exists (paths st). split_and!; [by destruct st | done | reflexivity]. }
  replace (pre ++ sj :: sjs) with ((pre ++ [sj]) ++ sjs) in * by (by rewrite <- (assoc_L (++))).
  assert (Hgo : ∀ st0 p lo, st0 = with_paths st p → jp_good (rels st) p → keeps jp_has jp_best (paths st) p →
    (∀ l', lo = Some l' → scan_ok (pre ++ [sj]) l') →
    js_ensures (match lo with None => mret None | Some l' => legal_scan sjs rel1 rel2 r1 r2 j l' end) st0 (fun o st' =>
      (∃ p, st' = with_paths st p ∧ jp_good (rels st) p ∧ keeps jp_has jp_best (paths st) p) ∧
      match o with None => True | Some l' => scan_ok ((pre ++ [sj]) ++ sjs) l' end)).
  { intros st0 p lo -> Hp Hk Hlo. destruct lo as [l'|]; [|by apply js_ret; split; [exists p|]].
    eapply js_mono; [apply (IH (pre ++ [sj]) l' (with_paths st p)); [done | done | done | by apply Hk | by apply Hk | by apply Hlo]|].
    intros o st' [(p' & -> & Hg' & Hk') Ho]. split; [|done]. exists p'. split_and!; [done | done | by etrans]. }
  assert (Hself : st = with_paths st (paths st)) by (by destruct st).
  pose proof (refines_self _ (sjo_minl _ Hsj)) as HL. pose proof (refines_self _ (sjo_minr _ Hsj)) as HR. pose proof (refines_self _ (sjo_syn _ Hsj)) as HS.
  destruct (sj_irrelevant sj r1 r2 j) eqn:Eirr.
  { apply (Hgo st (paths st) (Some l)); [done | done | reflexivity|]. intros l' [= <-]. apply skip_ok; [done|]. left. by eapply irrelevant_ok. }
  rewrite (bms_is_subset_ok _ _ _ _ HL H1), (bms_is_subset_ok _ _ _ _ HR H2), (bms_is_subset_ok _ _ _ _ HL H2), (bms_is_subset_ok _ _ _ _ HR H1).
  destruct (bool_decide (minl sj ⊆ R1) && _) eqn:E1.
  { apply andb_prop in E1 as [E1%bool_decide_eq_true E1'%bool_decide_eq_true].
    apply (Hgo st (paths st)); [done | done | reflexivity|]. intros l' E. eapply match_ok; [done | done|]. by left. }
  destruct (bool_decide (minl sj ⊆ R2) && _) eqn:E2.
  { apply andb_prop in E2 as [E2%bool_decide_eq_true E2'%bool_decide_eq_true].
    apply (Hgo st (paths st)); [done | done | reflexivity|]. intros l' E. eapply match_ok; [done | done|]. by left. }
  assert (Huniq : ∀ rel r R p, refines r R → rel < length (rels st) → jp_best (paths st) rel → jp_good (rels st) p → keeps jp_has jp_best (paths st) p →
    js_ensures (if bool_decide (sj_jointype sj = JOIN_SEMI) && bms_equal (syn_righthand sj) r then on_paths (fun rs p => jp_unique rs p rel sj) else mret false)
      (with_paths st p) (fun u st' => (u = true → sj_jointype sj = JOIN_SEMI ∧ synr sj = R) ∧
        ∃ p', st' = with_paths st p' ∧ jp_good (rels st) p' ∧ keeps jp_has jp_best (paths st) p')).
  { intros rel r R p Hr Hrel Hbest Hp Hk. rewrite (bms_equal_refines _ _ _ _ HS Hr). destruct (bool_decide (sj_jointype sj = JOIN_SEMI) && _) eqn:E; [|apply (js_ret false); split; [done | by exists p]].
    apply andb_prop in E as [E%bool_decide_eq_true E'%bool_decide_eq_true]. apply js_on_paths.
    eapply ensures_mono; [apply (jp_unique_ok (rels st) p rel sj Hp Hrel); by apply Hk|]. intros [u p'] [Hg' Hk']. split; [done|].
    exists p'. split_and!; [done | done | by etrans]. }
  rewrite Hself at 1. eapply js_bind_mono; [apply (Huniq rel2 r2 R2); [done | done | done | done | reflexivity]|].
  intros u2 st1 (Hu2 & p1 & -> & Hg1 & Hk1). destruct u2.
  { apply (Hgo _ p1); [done | done | done|]. intros l' E. eapply match_ok; [done | done|]. right. by apply Hu2. }
  eapply js_bind_mono; [by apply (Huniq rel1 r1 R1)|]. intros u1 st2 (Hu1 & p2 & -> & Hg2 & Hk2). destruct u1.
  { apply (Hgo _ p2); [done | done | done|]. intros l' E. eapply match_ok; [done | done|]. right. by apply Hu1. }
  apply (Hgo _ p2); [done | done | done|]. intros l' E. by eapply violated_ok.
Qed.
End legal.

(** The lateral references of a relation are well-formed sets. *)
Definition lateral_sets_ok (r : JoinRel) : Prop := bms_ok (lateral_relids r) ∧ bms_ok (direct_lateral_relids r).

Lemma lateral_total q rel1 rel2 j l :
  Forall sj_ok (join_info_list q) → bms_ok j → ∃ b, lateral_ok q rel1 rel2 j l = Ok b ∧
    (b = true → bms_overlap (relids rel1) (lateral_relids rel2) && bms_overlap (relids rel2) (lateral_relids rel1) = false).
Proof.
  intros Hsjs Hj. unfold lateral_ok. destruct (bms_overlap (relids rel1) _ && bms_overlap _ _) eqn:E; [by exists false|].
  do 2 match goal with |- context [if ?c then Ok false else _] => destruct c; [by exists false|] end.
  destruct (min_join_parameterization j rel1 rel2) as [ws|]; [|by exists true].
  assert (Hjc : bms_ok (bms_copy j)) by (by destruct j).
  destruct (rhs_closure_ok (S (2 * length (join_info_list q))) _ _ _ Hsjs (refines_self _ Hjc)) as (set' & B & -> & _).
  - pose proof (missing_all_bound (relids_of (bms_copy j)) (join_info_list q)). lia.
  - eexists. split; [reflexivity | done].
Qed.

(** C10. [join_is_legal] answers for any special joins and lateral references, and
    what it accepts is right: the special join it names is one of the query's that
    the two relations, in the order it gives, can perform, or whose right side is
    exactly the inner one and can be made unique; every other special join is not
    concerned, is violated on both sides already, or is a left join whose left side
    the join does not touch, and then the join itself is a strict left join; and
    lateral references do not go both ways. *)
Theorem join_is_legal_sound {P} `{JP : !JoinPaths P} `{JO : !JoinPathsOk P} (q : JoinProblem) (st : Planner P)
    (rel1 rel2 : nat) (jr1 jr2 : JoinRel) (R1 R2 : gset nat) :
  Forall sj_ok (join_info_list q) → jp_good (rels st) (paths st) →
  rels st !! rel1 = Some jr1 → refines (relids jr1) R1 → rels st !! rel2 = Some jr2 → refines (relids jr2) R2 →
  lateral_sets_ok jr1 → lateral_sets_ok jr2 → jp_best (paths st) rel1 → jp_best (paths st) rel2 →
  ∃ answer st', join_is_legal q rel1 rel2 (bms_union (relids jr1) (relids jr2)) st = Ok (answer, st') ∧
    (∃ p, st' = with_paths st p ∧ jp_good (rels st) p) ∧
    ∀ m rev, answer = Some (m, rev) →
      match m with
      | None => rev = false
      | Some sj => sj ∈ join_info_list q ∧ performs sj (sides R1 R2 rev).1 (sides R1 R2 rev).2
      end ∧
      (∀ sj, sj ∈ join_info_list q →
        m = Some sj ∨ respects R1 R2 (∃ sj', m = Some sj' ∧ sj_jointype sj' = JOIN_LEFT ∧ lhs_strict sj' = true) sj) ∧
      (hasLateralRTEs q = true → ¬ (R1 ∩ relids_of (lateral_relids jr2) ≠ ∅ ∧ R2 ∩ relids_of (lateral_relids jr1) ≠ ∅)).
Proof.
  intros Hsjs Hg Hr1 H1 Hr2 H2 Hlat1 Hlat2 Hb1 Hb2. apply (js_inv _ _ (fun answer st' => (∃ p, st' = with_paths st p ∧ jp_good (rels st) p) ∧ ∀ m rev, answer = Some (m, rev) → _)).
  pose proof (bms_union_ok _ _ _ _ H1 H2) as HJ. unfold join_is_legal. eapply js_bind, js_get_rel; [done|]. eapply js_bind, js_get_rel; [done|].
  eapply js_bind_mono; [apply (legal_scan_ok R1 R2 _ []); try done; try (by eapply lookup_lt_Some)|].
  { by split; [|intros ? ?%not_elem_of_nil]. }
  intros o st' [(p & -> & Hp & _) Ho]. destruct o as [l|]; [|apply js_ret; split; [by exists p | done]]. destruct Ho as [Hm Ha]. cbn in Hm, Ha.
  set (wrong := match match_sjinfo l with None => true | Some sj => _ end).
  destruct (must_be_leftjoin l && wrong) eqn:Ew; [apply js_ret; split; [by exists p | done]|].
  assert (Hall : ∀ sj, sj ∈ join_info_list q → match_sjinfo l = Some sj ∨
      respects R1 R2 (∃ sj', match_sjinfo l = Some sj' ∧ sj_jointype sj' = JOIN_LEFT ∧ lhs_strict sj' = true) sj).
  { intros sj Hin. destruct (Ha sj Hin) as [?|Hr]; [by left|]. right. eapply respects_mono; [|exact Hr]. intros Hmust. rewrite Hmust in Ew. cbn in Ew.
    subst wrong. destruct (match_sjinfo l) as [sj'|]; [|done]. exists sj'. apply orb_false_iff in Ew as [E1%bool_decide_eq_false E2%negb_false_iff].
    split_and!; [done | by apply dec_stable | done]. }
  destruct (hasLateralRTEs q) eqn:Elat; [|apply js_ret; split; [by exists p|]; intros m rev [= <- <-]; split_and!; done].
  apply js_bind, js_lift_ok. destruct (lateral_total q jr1 jr2 (bms_union (relids jr1) (relids jr2)) l Hsjs (proj1 HJ)) as (b & -> & Hb). cbn [ensures].
  destruct b; [|apply js_ret; split; [by exists p | done]]. apply js_ret. split; [by exists p|]. intros m rev [= <- <-]. split_and!; [done | done|].
  intros _ [Hf Hr]. specialize (Hb eq_refl). rewrite (bms_overlap_ok _ _ _ _ H1 (refines_self _ (proj1 Hlat2))), (bms_overlap_ok _ _ _ _ H2 (refines_self _ (proj1 Hlat1))) in Hb.
  by rewrite !bool_decide_true in Hb.
Qed.

(** A left join of relation 1 with relation 2, and relation 3 besides. *)
Definition left_problem : JoinProblem := mkJoinProblem [sample_left_join 2 4] [] [] true [0; 1; 2].
Definition left_planner : Planner recorder :=
  mkPlanner ((fun w => mkJoinRel (Some [w]) [] false None None None) <$> [4%Z; 2%Z; 8%Z]) [] None None 0 [].

Lemma join_is_legal_sound_witness :
  join_is_legal left_problem 0 1 (Some [6%Z]) left_planner = Ok (Some (Some (sample_left_join 2 4), true), left_planner) ∧
  performs (sample_left_join 2 4) (relids_of (Some [2%Z])) (relids_of (Some [4%Z])).
Proof.
  split; [reflexivity|].
  destruct (join_is_legal_sound left_problem left_planner 0 1 (mkJoinRel (Some [4%Z]) [] false None None None)
    (mkJoinRel (Some [2%Z]) [] false None None None) (relids_of (Some [4%Z])) (relids_of (Some [2%Z]))) as (answer & st' & E & _ & H).
  - constructor; [apply sample_left_ok; lia | constructor].
  - exact I.
  - reflexivity.
  - apply refines_self, Forall_singleton. lia.
  - reflexivity.
  - apply refines_self, Forall_singleton. lia.
  - by split.
  - by split.
  - exact I.
  - exact I.
  - assert (Ea : Ok (answer, st') = Ok (Some (Some (sample_left_join 2 4), true), left_planner)) by (rewrite <- E; reflexivity).
    assert (answer = Some (Some (sample_left_join 2 4), true)) as -> by congruence.
    exact (proj2 (proj1 (H _ _ eq_refl))).
Defined.
