(* ===== verification/JoinPath.v ===== *)
(** * JoinPath: the paths of a join relation

    The path generator of src/backend/optimizer/path/joinpath.c as this fork changed
    it for its exploration: nested loops, merge joins and hash joins over the fronts
    of the two inputs, next to the generator of PostgreSQL it is derived from (the
    [_origin] routines, used when the search does not explore), partial paths for
    parallel workers included, with the path constructors of
    src/backend/optimizer/util/pathnode.c they use.  The paths of all relations are
    one store; a relation is a position of it, as in [JoinRels].  The cost formulas of
    joins, the choice of merge clauses and sort keys, and what needs the catalogs come from
    the interface [JoinCosts]; explore values, parameterization and the competition
    of paths are modelled. *)
From S2P Require Import Prelude Float64 HashAny Nodes Bitmapset BitmapOps PathUtils Paths JoinRels.
From Stdlib Require Import SpecFloat.
From stdpp Require Import strings.

(** ** Data *)

(** What a relation has besides its list of paths. *)
Record RelPaths : Type := mkRelPaths {
  rel_paths : RelOptInfo;
  cheapest_unique_path : option Path;
  consider_parallel : bool;
  rel_rows : double;
  rel_explore_value : double;
  partial_pathlist : list Path
}.

Definition set_rel_paths (r : RelPaths) (p : RelOptInfo) : RelPaths :=
  mkRelPaths p (cheapest_unique_path r) (consider_parallel r) (rel_rows r) (rel_explore_value r) (partial_pathlist r).
Definition set_unique (r : RelPaths) (p : Path) : RelPaths :=
  mkRelPaths (rel_paths r) (Some p) (consider_parallel r) (rel_rows r) (rel_explore_value r) (partial_pathlist r).
Definition set_partial (r : RelPaths) (l : list Path) : RelPaths :=
  mkRelPaths (rel_paths r) (cheapest_unique_path r) (consider_parallel r) (rel_rows r) (rel_explore_value r) l.

Inductive JoinMethod : Type :=
| NestLoop
| MergeJoin (mergeclauses : list JoinClause) (outersortkeys innersortkeys : list nat)
| HashJoin (hashclauses : list JoinClause).

(** What a join path says besides [Path]: its address, its method and type, the
    addresses of the paths it joins. *)
Record JoinNode : Type := mkNode {
  jn_path : nat;
  jn_method : JoinMethod;
  jn_type : JoinType;
  jn_outer : nat;
  jn_inner : nat
}.

(** The paths of all relations; [next_path] is the next free address, [dummies] are
    the addresses of the empty append paths. *)
Record PathStore : Type := mkPathStore {
  stores : list RelPaths;
  next_path : nat;
  nodes : list JoinNode;
  dummies : list nat;
  best_estimate_cost : double
}.

Record JoinPathExtraData : Type := mkExtra {
  restrictlist : list JoinClause;
  mergeclause_list : list JoinClause;
  inner_unique : bool;
  ex_sjinfo : SpecialJoinInfo;
  param_source_rels : Bitmapset
}.

(** Costs and tests of the rest of the planner: the settings, the uniqueness of an
    inner relation, equivalence classes that make a merge clause redundant, sort keys,
    the estimates of parameterized join paths, initial and final costs (start-up and
    total) of a join, of materialization, sorting and hashed grouping, whether an
    index or a subquery makes a relation unique already, the number of groups, whether
    start-up costs matter for joins, and the size of a new join relation.
    [search_mode] is [root->search_plan_mode]: zero for no exploration. *)
Class JoinCosts : Type := {
  search_mode : Z;
  enable_mergejoin : bool;
  enable_hashjoin : bool;
  enable_material : bool;
  prune_rate : double;
  all_baserels : Bitmapset;
  innerrel_is_unique : Bitmapset → nat → JoinType → list JoinClause → bool;
  ec_must_be_redundant : JoinClause → bool;
  select_outer_pathkeys_for_merge : list JoinClause → nat → list nat;
  find_mergeclauses_for_pathkeys : list nat → bool → list JoinClause → list JoinClause;
  make_inner_pathkeys_for_merge : list JoinClause → list nat → list nat;
  truncate_useless_pathkeys : nat → list nat → list nat;
  ppi_estimates : nat → Bitmapset → double * double;
  initial_cost : JoinMethod → JoinType → JoinPathExtraData → Path → Path → double * double;
  final_cost : JoinMethod → JoinType → JoinPathExtraData → nat → Path → Path → double → double * double;
  cost_material : Path → double * double;
  ExecMaterializesOutput : Path → bool;
  already_unique : nat → SpecialJoinInfo → bool;
  estimate_num_groups : SpecialJoinInfo → double → double;
  path_width : Path → Z;
  work_mem : Z;
  cost_agg_hashed : nat → double → double → double → double → double * double;
  join_consider_startup : bool;
  join_estimates : nat → nat → nat → SpecialJoinInfo → list JoinClause → double * double * bool;
  implied_equalities : Bitmapset → Bitmapset → nat → list JoinClause;
  enable_gathermerge : bool;
  parallel_setup_cost : double;
  parallel_tuple_cost : double;
  cpu_operator_cost : double;
  cost_sort : list nat → double → double → Z → double * double
}.

Definition exploring `{JC : !JoinCosts} : bool := negb (search_mode =? 0)%Z.

(** ** Computations on the store *)
Definition PM (A : Type) : Type := PathStore → res (A * PathStore).

#[export] Instance PM_ret : MRet PM := fun A a st => Ok (a, st).
#[export] Instance PM_bind : MBind PM := fun A B f m st =>
  match m st with Ok (a, st) => f a st | Err e => Err e end.

Definition pm_rel (i : nat) : PM RelPaths := fun st => r ← rd (stores st) i; Ok (r, st).
Definition pm_set (i : nat) (r : RelPaths) : PM () := fun st =>
  l ← wr (stores st) i r; Ok ((), mkPathStore l (next_path st) (nodes st) (dummies st) (best_estimate_cost st)).
Definition pm_fresh : PM nat := fun st =>
  Ok (next_path st, mkPathStore (stores st) (S (next_path st)) (nodes st) (dummies st) (best_estimate_cost st)).
Definition pm_node (n : JoinNode) : PM () := fun st =>
  Ok ((), mkPathStore (stores st) (next_path st) (nodes st ++ [n]) (dummies st) (best_estimate_cost st)).
Definition pm_best : PM double := fun st => Ok (best_estimate_cost st, st).

Definition pm_lift {A} (m : res A) : PM A := fun st => a ← m; Ok (a, st).

(** A null pointer is followed. *)
Definition pm_null {A} : PM A := fun _ => Err Fault_bounds.
Definition not_null {A} (o : option A) : PM A := match o with Some a => mret a | None => pm_null end.

Fixpoint pm_foreach {A} (l : list A) (body : A → PM ()) : PM () :=
  match l with [] => mret () | x :: l => _ ← body x; pm_foreach l body end.

(** A loop that carries variables. *)
Fixpoint pm_fold {A V} (l : list A) (body : A → V → PM V) (v : V) : PM V :=
  match l with [] => mret v | x :: l => v ← body x v; pm_fold l body v end.

(** ** Rows of partial paths *)

(** The integer next to [m / 2^k], ties to even. *)
Definition round_half_even (m : Z) (k : Z) : Z :=
  let q := Z.shiftr m k in
  let r := (m - Z.shiftl q k)%Z in
  let half := Z.shiftl 1 (k - 1) in
  if (r <? half)%Z then q else if (half <? r)%Z then (q + 1)%Z else if Z.even q then q else (q + 1)%Z.

(** [rint] of the C library in the default rounding mode. *)
Definition c_rint (x : double) : double :=
  match x with
  | S754_finite s m e =>
      if (0 <=? e)%Z then x
      else match round_half_even (Zpos m) (- e) with
           | 0%Z => S754_zero s
           | n => binary_normalize prec emax (if s then - n else n) 0 s
           end
  | _ => x
  end.

Definition clamp_row_est (nrows : double) : double := if (nrows <=? d_of_Z 1)%D then d_of_Z 1 else c_rint nrows.

Definition get_parallel_divisor (workers : Z) : double :=
  let parallel_divisor := d_of_Z workers in
  let leader_contribution := (d_of_Z 1 - dlit 3 10 * d_of_Z workers)%D in
  if (leader_contribution >? d0)%D then (parallel_divisor + leader_contribution)%D else parallel_divisor.

(** ** Path constructors *)
Section paths.
Context `{LM : !Libm} `{JC : !JoinCosts}.

(** [create_material_path]. *)
Definition create_material_path (rel : nat) (subpath : Path) : PM Path :=
  r ← pm_rel rel;
  id ← pm_fresh;
  let '(startup, total) := cost_material subpath in
  mret (mkPath id (param_info subpath) (pathkeys subpath) (consider_parallel r && parallel_safe subpath) (parallel_workers subpath)
          (path_rows subpath) startup total (explore_value subpath)).

(** Rows, start-up and total cost of the unique rows of a path and whether their order is kept:
    nothing to do, sorting or hashing, the cheaper; [None] when hashing would need too
    much memory and sorting is impossible. *)
Definition unique_estimates (rel : nat) (r : RelPaths) (subpath : Path) (sj : SpecialJoinInfo) : option (double * double * double * bool) :=
  if already_unique rel sj then Some (rel_rows r, startup_cost subpath, total_cost subpath, true)
  else
    let rows := estimate_num_groups sj (rel_rows r) in
    let numCols := length (semi_rhs_exprs sj) in
    let sorted :=
      if semi_can_btree sj then
        let '(startup, total) := cost_sort [] (total_cost subpath) (rel_rows r) (path_width subpath) in
        Some (startup, (total + cpu_operator_cost * rel_rows r * d_of_Z (Z.of_nat numCols))%D)
      else None in
    let hashed :=
      if semi_can_hash sj then
        if (d_of_Z (path_width subpath + 64) * rows >? d_of_Z (work_mem * 1024))%D then None
        else Some (cost_agg_hashed numCols rows (startup_cost subpath) (total_cost subpath) (rel_rows r))
      else None in
    match sorted, hashed with
    | Some (s, t), Some (s', t') => if (t' <? t)%D then Some (rows, s', t', false) else Some (rows, s, t, false)
    | Some (s, t), None | None, Some (s, t) => Some (rows, s, t, false)
    | None, None => None
    end.

(** [None] when the relation cannot be made unique; the first unique path is kept. *)
Definition create_unique_path (rel : nat) (subpath : Path) (sj : SpecialJoinInfo) : PM (option Path) :=
  r ← pm_rel rel;
  match cheapest_unique_path r with
  | Some p => mret (Some p)
  | None =>
      if negb (semi_can_btree sj || semi_can_hash sj) then mret None
      else match unique_estimates rel r subpath sj with
           | None => mret None
           | Some (rows, startup, total, ordered) =>
               id ← pm_fresh;
               let p := mkPath id (param_info subpath) (if ordered : bool then pathkeys subpath else [])
                          (consider_parallel r && parallel_safe subpath) (parallel_workers subpath) rows startup total (explore_value subpath) in
               _ ← pm_set rel (set_unique r p);
               mret (Some p)
           end
  end.

Definition calc_nestloop_required_outer (outer_path inner_path : Path) (outer_relids : Bitmapset) : Bitmapset :=
  match PATH_REQ_OUTER inner_path with
  | None => bms_copy (PATH_REQ_OUTER outer_path)
  | Some _ as inner_paramrels =>
      null_if_empty (bms_del_members (bms_union (PATH_REQ_OUTER outer_path) inner_paramrels) outer_relids)
  end.

Definition calc_non_nestloop_required_outer (outer_path inner_path : Path) : Bitmapset :=
  bms_union (PATH_REQ_OUTER outer_path) (PATH_REQ_OUTER inner_path).

(** [workspace->explore_value] of the three initial cost functions. *)
Definition workspace_explore (outer_path inner_path : Path) : double :=
  (explore_value outer_path + explore_value inner_path)%D.

(** [create_nestloop_path], [create_mergejoin_path] and [create_hashjoin_path] with
    what their final cost functions do about rows and explore values: both are those
    of the relation, or of the parameterization, the rows shared by the workers, and the
    explore values of the inputs are added. *)
Definition create_join_path (joinrel : nat) (m : JoinMethod) (jt : JoinType) (extra : JoinPathExtraData)
    (outer_path inner_path : Path) (keys : list nat) (required_outer : Bitmapset) : PM Path :=
  r ← pm_rel joinrel;
  id ← pm_fresh;
  let parameterized := negb (bms_is_empty required_outer) in
  let '(rows, base) := if parameterized then ppi_estimates joinrel required_outer else (rel_rows r, rel_explore_value r) in
  let workers := parallel_workers outer_path in
  let rows := if (0 <? workers)%Z then clamp_row_est (rows / get_parallel_divisor workers)%D else rows in
  let '(startup, total) := final_cost m jt extra joinrel outer_path inner_path rows in
  _ ← pm_node (mkNode id m jt (path_id outer_path) (path_id inner_path));
  mret (mkPath id (if parameterized then Some required_outer else None) keys
          (consider_parallel r && parallel_safe outer_path && parallel_safe inner_path) workers
          rows startup total (base + workspace_explore outer_path inner_path)%D).

(** *** Partial paths *)
Definition partial_verdict (new old : Path) : verdict :=
  let keyscmp := compare_pathkeys (pathkeys new) (pathkeys old) in
  match keyscmp with
  | PATHKEYS_DIFFERENT => KeepBoth
  | _ =>
      if (total_cost new >? total_cost old * STD_FUZZ_FACTOR)%D then
        match keyscmp with PATHKEYS_BETTER1 => KeepBoth | _ => RejectNew end
      else if (total_cost old >? total_cost new * STD_FUZZ_FACTOR)%D then
        match keyscmp with PATHKEYS_BETTER2 => KeepBoth | _ => RemoveOld end
      else
        match keyscmp with
        | PATHKEYS_BETTER1 => RemoveOld
        | PATHKEYS_BETTER2 => RejectNew
        | _ => if (total_cost old >? total_cost new * dlit 10000000001 10000000000)%D then RemoveOld else RejectNew
        end
  end.

Definition add_partial_path (l : list Path) (new : Path) : list Path :=
  let '(accept_new, l, after) := add_scan (partial_verdict new) new l [] 0 in
  if accept_new then insert_path l after new else l.

(** [Some] answer of the loop, or [None] at its end. *)
Fixpoint partial_precheck_scan (total : double) (keys : list nat) (l : list Path) : option bool :=
  match l with
  | [] => None
  | old :: l =>
      match compare_pathkeys keys (pathkeys old) with
      | PATHKEYS_DIFFERENT => partial_precheck_scan total keys l
      | keyscmp =>
          if (total >? total_cost old * STD_FUZZ_FACTOR)%D && negb (bool_decide (keyscmp = PATHKEYS_BETTER1)) then Some false
          else if (total_cost old >? total * STD_FUZZ_FACTOR)%D && negb (bool_decide (keyscmp = PATHKEYS_BETTER2)) then Some true
          else partial_precheck_scan total keys l
      end
  end.

Definition add_partial_path_precheck (r : RelPaths) (total : double) (keys : list nat) : bool :=
  match partial_precheck_scan total keys (partial_pathlist r) with
  | Some b => b
  | None => add_path_precheck (rel_paths r) total total keys None
  end.

(** *** Trying a join *)

(** The end of the three [try_*_path]: precheck, construction, competition, in either
    mode. *)
Definition try_path (joinrel : nat) (m : JoinMethod) (jt : JoinType) (extra : JoinPathExtraData)
    (outer_path inner_path : Path) (keys : list nat) (required_outer : Bitmapset) : PM () :=
  r ← pm_rel joinrel;
  let '(startup, total) := initial_cost m jt extra outer_path inner_path in
  if exploring then
    if add_path_precheck_explore (rel_paths r) startup total keys required_outer (workspace_explore outer_path inner_path) then
      p ← create_join_path joinrel m jt extra outer_path inner_path keys required_outer;
      best ← pm_best;
      r ← pm_rel joinrel;
      pm_set joinrel (set_rel_paths r (add_path_explore (rel_paths r) p best prune_rate))
    else mret ()
  else if add_path_precheck (rel_paths r) startup total keys required_outer then
    p ← create_join_path joinrel m jt extra outer_path inner_path keys required_outer;
    r ← pm_rel joinrel;
    pm_set joinrel (set_rel_paths r (add_path (rel_paths r) p))
  else mret ().

(** The same end of the three [try_partial_*_path]. *)
Definition try_partial (joinrel : nat) (m : JoinMethod) (jt : JoinType) (extra : JoinPathExtraData)
    (outer_path inner_path : Path) (keys : list nat) : PM () :=
  r ← pm_rel joinrel;
  let '(_, total) := initial_cost m jt extra outer_path inner_path in
  if add_partial_path_precheck r total keys then
    p ← create_join_path joinrel m jt extra outer_path inner_path keys None;
    r ← pm_rel joinrel;
    pm_set joinrel (set_partial r (add_partial_path (partial_pathlist r) p))
  else mret ().

Definition allow_star_schema_join (outer_relids : Bitmapset) (inner_path : Path) : bool :=
  let innerparams := PATH_REQ_OUTER inner_path in
  bms_overlap innerparams outer_relids && bms_nonempty_difference innerparams outer_relids.

Definition try_nestloop_path (q : JoinProblem) (joinrel : nat) (outer_relids : Bitmapset) (outer_path inner_path : Path)
    (keys : list nat) (jt : JoinType) (extra : JoinPathExtraData) : PM () :=
  let required_outer := calc_nestloop_required_outer outer_path inner_path outer_relids in
  let refused := match required_outer with
                 | None => false
                 | Some _ =>
                     (negb (bms_overlap required_outer (param_source_rels extra)) && negb (allow_star_schema_join outer_relids inner_path)) ||
                     have_dangerous_phv q outer_relids (PATH_REQ_OUTER inner_path)
                 end in
  if refused then mret () else try_path joinrel NestLoop jt extra outer_path inner_path keys required_outer.

(** The parameterization of the inner path must be within the outer relation. *)
Definition try_partial_nestloop_path (joinrel : nat) (outer_relids : Bitmapset) (outer_path inner_path : Path)
    (keys : list nat) (jt : JoinType) (extra : JoinPathExtraData) : PM () :=
  if match param_info inner_path with Some r => negb (bms_is_subset r outer_relids) | None => false end then mret ()
  else try_partial joinrel NestLoop jt extra outer_path inner_path keys.

(** [required_outer && !bms_overlap(required_outer, extra->param_source_rels)]. *)
Definition params_refused (required_outer : Bitmapset) (extra : JoinPathExtraData) : bool :=
  match required_outer with None => false | Some _ => negb (bms_overlap required_outer (param_source_rels extra)) end.

Definition pathkeys_contained_in (keys1 keys2 : list nat) : bool :=
  match compare_pathkeys keys1 keys2 with PATHKEYS_EQUAL | PATHKEYS_BETTER2 => true | _ => false end.

(** Keys that the path has already need no sort. *)
Definition sortkeys_needed (keys : list nat) (p : Path) : list nat :=
  match keys with [] => [] | _ => if pathkeys_contained_in keys (pathkeys p) then [] else keys end.

(** [inner_path->param_info != NULL && !bms_is_empty(inner_paramrels)]. *)
Definition inner_parameterized (inner_path : Path) : bool :=
  match param_info inner_path with Some r => negb (bms_is_empty r) | None => false end.

Definition try_partial_mergejoin_path (joinrel : nat) (outer_path inner_path : Path) (keys : list nat) (mergeclauses : list JoinClause)
    (outersortkeys innersortkeys : list nat) (jt : JoinType) (extra : JoinPathExtraData) : PM () :=
  if inner_parameterized inner_path then mret ()
  else try_partial joinrel (MergeJoin mergeclauses (sortkeys_needed outersortkeys outer_path) (sortkeys_needed innersortkeys inner_path))
         jt extra outer_path inner_path keys.

Definition try_mergejoin_path (joinrel : nat) (outer_path inner_path : Path) (keys : list nat) (mergeclauses : list JoinClause)
    (outersortkeys innersortkeys : list nat) (jt : JoinType) (extra : JoinPathExtraData) (is_partial : bool) : PM () :=
  if is_partial then
    try_partial_mergejoin_path joinrel outer_path inner_path keys mergeclauses outersortkeys innersortkeys jt extra
  else
    let required_outer := calc_non_nestloop_required_outer outer_path inner_path in
    if params_refused required_outer extra then mret ()
    else try_path joinrel (MergeJoin mergeclauses (sortkeys_needed outersortkeys outer_path) (sortkeys_needed innersortkeys inner_path))
           jt extra outer_path inner_path keys required_outer.

Definition try_hashjoin_path (joinrel : nat) (outer_path inner_path : Path) (hashclauses : list JoinClause) (jt : JoinType)
    (extra : JoinPathExtraData) : PM () :=
  let required_outer := calc_non_nestloop_required_outer outer_path inner_path in
  if params_refused required_outer extra then mret ()
  else try_path joinrel (HashJoin hashclauses) jt extra outer_path inner_path [] required_outer.

Definition try_partial_hashjoin_path (joinrel : nat) (outer_path inner_path : Path) (hashclauses : list JoinClause) (jt : JoinType)
    (extra : JoinPathExtraData) : PM () :=
  if inner_parameterized inner_path then mret ()
  else try_partial joinrel (HashJoin hashclauses) jt extra outer_path inner_path [].

(** ** Clauses *)

(** [Some outer_is_left], or [None] when the clause does not fit the join. *)
Definition clause_sides_match_join (c : JoinClause) (outer_relids inner_relids : Bitmapset) : option bool :=
  if bms_is_subset (left_relids (rinfo c)) outer_relids && bms_is_subset (right_relids (rinfo c)) inner_relids then Some true
  else if bms_is_subset (left_relids (rinfo c)) inner_relids && bms_is_subset (right_relids (rinfo c)) outer_relids then Some false
  else None.

Definition sides_match (c : JoinClause) (outer_relids inner_relids : Bitmapset) : bool :=
  match clause_sides_match_join c outer_relids inner_relids with Some _ => true | None => false end.

Definition IS_OUTER_JOIN (jt : JoinType) : bool :=
  match jt with JOIN_LEFT | JOIN_FULL | JOIN_RIGHT | JOIN_ANTI => true | _ => false end.

Definition is_const_clause (c : JoinClause) : bool := match clause (rinfo c) with Const _ => true | _ => false end.

(** One clause: the list so far and whether a clause cannot be merged. *)
Definition merge_clause_step (outer_relids inner_relids : Bitmapset) (jt : JoinType) (acc : list JoinClause * bool) (c : JoinClause)
  : list JoinClause * bool :=
  let '(l, nonmergeable) := acc in
  if IS_OUTER_JOIN jt && is_pushed_down c then (l, nonmergeable)
  else if negb (can_join c) || match mergeopfamilies c with [] => true | _ => false end then
    (l, nonmergeable || negb (is_const_clause c))
  else if negb (sides_match c outer_relids inner_relids) then (l, true)
  else if ec_must_be_redundant c then (l, true)
  else (l ++ [c], nonmergeable).

(** The merge clauses, and [mergejoin_allowed]. *)
Definition select_mergejoin_clauses (outer_relids inner_relids : Bitmapset) (rl : list JoinClause) (jt : JoinType)
  : list JoinClause * bool :=
  let '(l, nonmergeable) := foldl (merge_clause_step outer_relids inner_relids jt) ([], false) rl in
  (l, match jt with JOIN_RIGHT | JOIN_FULL => negb nonmergeable | _ => true end).

Definition hash_clauses (outer_relids inner_relids : Bitmapset) (rl : list JoinClause) (jt : JoinType) : list JoinClause :=
  base.filter (fun c => negb (IS_OUTER_JOIN jt && is_pushed_down c) && can_join c && negb (hashjoinoperator c =? 0)%Z &&
                        sides_match c outer_relids inner_relids = true) rl.

(** ** The three ways of joining *)

(** A join of two relations: their positions and sets, and the lateral references of
    the join. *)
Record JoinPair : Type := mkPair {
  jp_join : nat;
  jp_outer : nat;
  jp_inner : nat;
  outer_relids : Bitmapset;
  inner_relids : Bitmapset;
  join_lateral : Bitmapset
}.

Definition PATH_PARAM_BY_REL (p : Path) (r : Bitmapset) : bool :=
  match param_info p with Some _ => bms_overlap (PATH_REQ_OUTER p) r | None => false end.

Definition same_path (p p' : Path) : bool := path_id p =? path_id p'.
Definition is_include_in_pathlist (trypath : Path) (l : list Path) : bool := existsb (same_path trypath) l.

Definition front (r : RelPaths) : list Path := cheapest_cost_explore_pathlist (rel_paths r).
Definition param_paths (r : RelPaths) : list Path := cheapest_parameterized_paths (rel_paths r).

Definition build_join_pathkeys (joinrel : nat) (jt : JoinType) (keys : list nat) : list nat :=
  match jt with JOIN_FULL | JOIN_RIGHT => [] | _ => truncate_useless_pathkeys joinrel keys end.

(** [list_delete_ptr]. *)
Fixpoint delete_key (k : nat) (l : list nat) : list nat :=
  match l with [] => [] | x :: l => if x =? k then l else x :: delete_key k l end.

(** *** Parallel joins *)

(** Whether the join can have partial paths. *)
Definition parallel_join (jp : JoinPair) (save_jointype : JoinType) (j o : RelPaths) : bool :=
  consider_parallel j &&
  match save_jointype with JOIN_UNIQUE_OUTER | JOIN_FULL | JOIN_RIGHT => false | _ => true end &&
  match partial_pathlist o with [] => false | _ => true end &&
  bms_is_empty (join_lateral jp).

Definition get_cheapest_parallel_safe_total_inner (l : list Path) : option Path :=
  head (base.filter (fun p => parallel_safe p && bms_is_empty (PATH_REQ_OUTER p) = true) l).

(** The inner path for workers: the given one if it is safe, else one of the relation,
    but not when the given one was made unique. *)
Definition safe_inner (save_jointype : JoinType) (inner_path : Path) (i : RelPaths) : option Path :=
  if parallel_safe inner_path then Some inner_path
  else if bool_decide (save_jointype = JOIN_UNIQUE_INNER) then None
  else get_cheapest_parallel_safe_total_inner (pathlist (rel_paths i)).

(** The first partial outer path and its partner, when there are any. *)
Definition parallel_pair (jp : JoinPair) (save_jointype : JoinType) (inner_path : PM Path) : PM (option (Path * Path)) :=
  j ← pm_rel (jp_join jp);
  o ← pm_rel (jp_outer jp);
  if parallel_join jp save_jointype j o then
    inner_path ← inner_path;
    i ← pm_rel (jp_inner jp);
    mret (match partial_pathlist o, safe_inner save_jointype inner_path i with
          | outer :: _, Some inner => Some (outer, inner)
          | _, _ => None
          end)
  else mret None.

(** *** Sorting both inputs *)

(** One pair of paths; [outer_path] and [jointype] are variables that the loop
    changes when it makes a path unique. *)
Definition sort_pair (jp : JoinPair) (extra : JoinPathExtraData) (keys : list nat) (mergeclauses : list JoinClause)
    (outerkeys innerkeys : list nat) (inner_path : Path) (v : Path * JoinType) : PM (Path * JoinType) :=
  let '(outer_path, jointype) := v in
  if PATH_PARAM_BY_REL outer_path (inner_relids jp) || PATH_PARAM_BY_REL inner_path (outer_relids jp) then mret v
  else
    '(outer_path, inner_path, jointype) ←
      match jointype with
      | JOIN_UNIQUE_OUTER =>
          u ← create_unique_path (jp_outer jp) outer_path (ex_sjinfo extra);
          u ← not_null u;
          mret (u, inner_path, JOIN_INNER)
      | JOIN_UNIQUE_INNER =>
          u ← create_unique_path (jp_inner jp) inner_path (ex_sjinfo extra);
          u ← not_null u;
          mret (outer_path, u, JOIN_INNER)
      | _ => mret (outer_path, inner_path, jointype)
      end;
    _ ← try_mergejoin_path (jp_join jp) outer_path inner_path keys mergeclauses outerkeys innerkeys jointype extra false;
    mret (outer_path, jointype).

(** The partial path of one order. *)
Definition sort_partial (jp : JoinPair) (extra : JoinPathExtraData) (keys : list nat) (mergeclauses : list JoinClause)
    (outerkeys innerkeys : list nat) (partial : option (Path * Path)) (jointype : JoinType) : PM () :=
  match partial with
  | Some (outer, inner) => try_partial_mergejoin_path (jp_join jp) outer inner keys mergeclauses outerkeys innerkeys jointype extra
  | None => mret ()
  end.

(** One order of the merge keys. *)
Definition sort_order (jp : JoinPair) (extra : JoinPathExtraData) (partial : option (Path * Path)) (outerkeys : list nat)
    (jointype : JoinType) : PM JoinType :=
  let mergeclauses := find_mergeclauses_for_pathkeys outerkeys true (mergeclause_list extra) in
  let innerkeys := make_inner_pathkeys_for_merge mergeclauses outerkeys in
  let keys := build_join_pathkeys (jp_join jp) jointype outerkeys in
  o ← pm_rel (jp_outer jp);
  i ← pm_rel (jp_inner jp);
  jointype ← pm_fold (front o) (fun outer_path jointype =>
    '(_, jointype) ← pm_fold (front i) (sort_pair jp extra keys mergeclauses outerkeys innerkeys) (outer_path, jointype);
    mret jointype) jointype;
  _ ← sort_partial jp extra keys mergeclauses outerkeys innerkeys partial jointype;
  mret jointype.

(** The orders: all keys, then each other key in front of the rest. *)
Definition merge_orders (all_pathkeys : list nat) : list (list nat) :=
  match all_pathkeys with
  | [] => []
  | _ :: others => all_pathkeys :: map (fun k => k :: delete_key k all_pathkeys) others
  end.

(** Preparing the partial paths makes the inner relation unique and forgets that it
    has to be. *)
Definition sort_inner_and_outer (jp : JoinPair) (save_jointype : JoinType) (extra : JoinPathExtraData) : PM () :=
  i ← pm_rel (jp_inner jp);
  '(inner_path_parallel, jt) ←
    match save_jointype with
    | JOIN_UNIQUE_INNER =>
        p ← not_null (cheapest_total_path (rel_paths i));
        u ← create_unique_path (jp_inner jp) p (ex_sjinfo extra);
        u ← not_null u;
        mret (Some u, JOIN_INNER)
    | jt => mret (cheapest_total_path (rel_paths i), jt)
    end;
  partial ← parallel_pair jp save_jointype (not_null inner_path_parallel);
  _ ← pm_fold (merge_orders (select_outer_pathkeys_for_merge (mergeclause_list extra) (jp_join jp))) (sort_order jp extra partial) jt;
  mret ().

(** PostgreSQL's own: the two cheapest paths, made unique once. *)
Definition sort_inner_and_outer_origin (jp : JoinPair) (save_jointype : JoinType) (extra : JoinPathExtraData) : PM () :=
  o ← pm_rel (jp_outer jp);
  i ← pm_rel (jp_inner jp);
  outer_path ← not_null (cheapest_total_path (rel_paths o));
  inner_path ← not_null (cheapest_total_path (rel_paths i));
  if PATH_PARAM_BY_REL outer_path (inner_relids jp) || PATH_PARAM_BY_REL inner_path (outer_relids jp) then mret ()
  else
    '(outer_path, inner_path, jt) ←
      match save_jointype with
      | JOIN_UNIQUE_OUTER =>
          u ← create_unique_path (jp_outer jp) outer_path (ex_sjinfo extra); u ← not_null u; mret (u, inner_path, JOIN_INNER)
      | JOIN_UNIQUE_INNER =>
          u ← create_unique_path (jp_inner jp) inner_path (ex_sjinfo extra); u ← not_null u; mret (outer_path, u, JOIN_INNER)
      | jt => mret (outer_path, inner_path, jt)
      end;
    partial ← parallel_pair jp save_jointype (mret inner_path);
    pm_foreach (merge_orders (select_outer_pathkeys_for_merge (mergeclause_list extra) (jp_join jp))) (fun outerkeys =>
      let mergeclauses := find_mergeclauses_for_pathkeys outerkeys true (mergeclause_list extra) in
      let innerkeys := make_inner_pathkeys_for_merge mergeclauses outerkeys in
      let keys := build_join_pathkeys (jp_join jp) jt outerkeys in
      _ ← try_mergejoin_path (jp_join jp) outer_path inner_path keys mergeclauses outerkeys innerkeys jt extra false;
      sort_partial jp extra keys mergeclauses outerkeys innerkeys partial jt).

(** *** Sorted outer paths *)
Definition get_cheapest_path_for_pathkeys (l : list Path) (keys : list nat) (required_outer : Bitmapset) (criterion : CostSelector)
    (require_parallel_safe : bool) : option Path :=
  foldl (fun matched path =>
    if match matched with Some m => (compare_path_costs m path criterion <=? 0)%Z | None => false end then matched
    else if require_parallel_safe && negb (parallel_safe path) then matched
    else if pathkeys_contained_in keys (pathkeys path) && bms_is_subset (PATH_REQ_OUTER path) required_outer then Some path
    else matched) None l.

(** [best == NULL || compare(p, best) < 0]. *)
Definition improves (criterion : CostSelector) (p : Path) (best : option Path) : bool :=
  match best with None => true | Some b => (compare_path_costs p b criterion <? 0)%Z end.

(** The shorter and shorter sort keys of the inner path: [n] is [sortkeycnt]. *)
Fixpoint trial_joins (n : nat) (jp : JoinPair) (jt : JoinType) (extra : JoinPathExtraData) (useallclauses : bool) (outerpath : Path)
    (keys : list nat) (mergeclauses : list JoinClause) (num_sortkeys : nat) (trialsortkeys : list nat) (inner_paths : list Path)
    (cheapest_startup_inner cheapest_total_inner : option Path) (is_partial : bool) : PM () :=
  match n with
  | O => mret ()
  | S n' =>
      let trialsortkeys := take n trialsortkeys in
      let clauses_of := if n <? num_sortkeys then find_mergeclauses_for_pathkeys trialsortkeys false mergeclauses else mergeclauses in
      let merge (innerpath : Path) (clauses : list JoinClause) := try_mergejoin_path (jp_join jp) outerpath innerpath keys clauses [] [] jt extra is_partial in
      '(newclauses, cheapest_total_inner) ←
        match get_cheapest_path_for_pathkeys inner_paths trialsortkeys None TOTAL_COST is_partial with
        | Some innerpath =>
            if improves TOTAL_COST innerpath cheapest_total_inner then
              _ ← merge innerpath clauses_of; mret (clauses_of, Some innerpath)
            else mret ([], cheapest_total_inner)
        | None => mret ([], cheapest_total_inner)
        end;
      cheapest_startup_inner ←
        match get_cheapest_path_for_pathkeys inner_paths trialsortkeys None STARTUP_COST is_partial with
        | Some innerpath =>
            if improves STARTUP_COST innerpath cheapest_startup_inner then
              _ ← (if match cheapest_total_inner with Some t => same_path innerpath t | None => false end then mret ()
                   else merge innerpath (match newclauses with [] => clauses_of | _ => newclauses end));
              mret (Some innerpath)
            else mret cheapest_startup_inner
        | None => mret cheapest_startup_inner
        end;
      if useallclauses then mret ()
      else trial_joins n' jp jt extra useallclauses outerpath keys mergeclauses num_sortkeys trialsortkeys inner_paths
             cheapest_startup_inner cheapest_total_inner is_partial
  end.

(** The best of the paths of a list that have the order. *)
Definition sorted_best (criterion : CostSelector) (keys : list nat) (l : list Path) : option Path :=
  foldl (fun best p => if pathkeys_contained_in keys (pathkeys p) && improves criterion p best then Some p else best) None l.

(** Joins of one outer path by its order: with every inner path given, sorted, then
    with the inner paths that are sorted enough.  [generate_mergejoin_paths] is given one. *)
Definition generate_mergejoin_paths_explore (jp : JoinPair) (outerpath : Path) (save_jointype : JoinType) (extra : JoinPathExtraData)
    (useallclauses : bool) (inner_cheapest_totals : list Path) (keys : list nat) (is_partial : bool) : PM () :=
  let jt := match save_jointype with JOIN_UNIQUE_OUTER | JOIN_UNIQUE_INNER => JOIN_INNER | jt => jt end in
  let mergeclauses := find_mergeclauses_for_pathkeys (pathkeys outerpath) true (mergeclause_list extra) in
  let none := match mergeclauses with [] => true | _ => false end in
  if none && negb (bool_decide (jt = JOIN_FULL)) then mret ()
  else if useallclauses && negb (length mergeclauses =? length (mergeclause_list extra)) then mret ()
  else
    let innersortkeys := make_inner_pathkeys_for_merge mergeclauses (pathkeys outerpath) in
    _ ← pm_foreach inner_cheapest_totals (fun inner =>
          try_mergejoin_path (jp_join jp) outerpath inner keys mergeclauses [] innersortkeys jt extra is_partial);
    if bool_decide (save_jointype = JOIN_UNIQUE_INNER) then mret ()
    else
      i ← pm_rel (jp_inner jp);
      trial_joins (length innersortkeys) jp jt extra useallclauses outerpath keys mergeclauses (length innersortkeys) innersortkeys
        (pathlist (rel_paths i)) (sorted_best STARTUP_COST innersortkeys inner_cheapest_totals)
        (sorted_best TOTAL_COST innersortkeys inner_cheapest_totals) is_partial.

Definition generate_mergejoin_paths (jp : JoinPair) (outerpath : Path) (save_jointype : JoinType) (extra : JoinPathExtraData)
    (useallclauses : bool) (inner_cheapest_total : Path) (keys : list nat) (is_partial : bool) : PM () :=
  let jt := match save_jointype with JOIN_UNIQUE_OUTER | JOIN_UNIQUE_INNER => JOIN_INNER | jt => jt end in
  let mergeclauses := find_mergeclauses_for_pathkeys (pathkeys outerpath) true (mergeclause_list extra) in
  let none := match mergeclauses with [] => true | _ => false end in
  if none && negb (bool_decide (jt = JOIN_FULL)) then mret ()
  else if useallclauses && negb (length mergeclauses =? length (mergeclause_list extra)) then mret ()
  else
    let innersortkeys := make_inner_pathkeys_for_merge mergeclauses (pathkeys outerpath) in
    _ ← try_mergejoin_path (jp_join jp) outerpath inner_cheapest_total keys mergeclauses [] innersortkeys jt extra is_partial;
    if bool_decide (save_jointype = JOIN_UNIQUE_INNER) then mret ()
    else
      i ← pm_rel (jp_inner jp);
      let sorted := if pathkeys_contained_in innersortkeys (pathkeys inner_cheapest_total) then Some inner_cheapest_total else None in
      trial_joins (length innersortkeys) jp jt extra useallclauses outerpath keys mergeclauses (length innersortkeys) innersortkeys
        (pathlist (rel_paths i)) sorted sorted is_partial.

(** *** Joins of partial paths *)
Definition consider_parallel_mergejoin (jp : JoinPair) (jt : JoinType) (extra : JoinPathExtraData) (inner_cheapest_total : Path) : PM () :=
  o ← pm_rel (jp_outer jp);
  pm_foreach (partial_pathlist o) (fun outerpath =>
    let keys := build_join_pathkeys (jp_join jp) jt (pathkeys outerpath) in
    generate_mergejoin_paths jp outerpath jt extra false inner_cheapest_total keys true).

Definition consider_parallel_nestloop (jp : JoinPair) (save_jointype : JoinType) (extra : JoinPathExtraData) : PM () :=
  let jt := match save_jointype with JOIN_UNIQUE_INNER => JOIN_INNER | jt => jt end in
  o ← pm_rel (jp_outer jp);
  i ← pm_rel (jp_inner jp);
  pm_foreach (partial_pathlist o) (fun outerpath =>
    let keys := build_join_pathkeys (jp_join jp) jt (pathkeys outerpath) in
    pm_foreach (param_paths i) (fun innerpath =>
      if negb (parallel_safe innerpath) then mret ()
      else if bool_decide (save_jointype = JOIN_UNIQUE_INNER) then
        if negb match cheapest_total_path (rel_paths i) with Some t => same_path innerpath t | None => false end then mret ()
        else
          u ← create_unique_path (jp_inner jp) innerpath (ex_sjinfo extra);
          u ← not_null u;
          try_partial_nestloop_path (jp_join jp) (outer_relids jp) outerpath u keys jt extra
      else try_partial_nestloop_path (jp_join jp) (outer_relids jp) outerpath innerpath keys jt extra)).

(** The end of both [match_unsorted_outer]: [inner_cheapest_total] is what the variable
    holds by then. *)
Definition match_parallel (jp : JoinPair) (save_jointype : JoinType) (extra : JoinPathExtraData) (inner_cheapest_total : option Path) : PM () :=
  j ← pm_rel (jp_join jp);
  o ← pm_rel (jp_outer jp);
  if parallel_join jp save_jointype j o then
    _ ← consider_parallel_nestloop jp save_jointype extra;
    if match inner_cheapest_total with Some p => parallel_safe p | None => false end then
      match inner_cheapest_total with Some p => consider_parallel_mergejoin jp save_jointype extra p | None => mret () end
    else if bool_decide (save_jointype = JOIN_UNIQUE_INNER) then mret ()
    else
      i ← pm_rel (jp_inner jp);
      match get_cheapest_parallel_safe_total_inner (pathlist (rel_paths i)) with
      | Some p => consider_parallel_mergejoin jp save_jointype extra p
      | None => mret ()
      end
  else mret ().

(** *** The outer paths as they are *)

(** [nestjoinOK] and [useallclauses]. *)
Definition nestjoinOK (jt : JoinType) : bool := match jt with JOIN_RIGHT | JOIN_FULL => false | _ => true end.

(** One path of the inner front: the unique, the materialized and all the paths, and the
    variable [inner_cheapest_total]. *)
Definition inner_candidate (jp : JoinPair) (save_jointype : JoinType) (extra : JoinPathExtraData) (inner : Path)
    (v : list Path * list Path * list Path * option Path) : PM (list Path * list Path * list Path * option Path) :=
  let '(modify, mats, totals, _) := v in
  let parameterized := PATH_PARAM_BY_REL inner (outer_relids jp) in
  if bool_decide (save_jointype = JOIN_UNIQUE_INNER) then
    if parameterized then mret (modify, mats, totals, None)
    else
      u ← create_unique_path (jp_inner jp) inner (ex_sjinfo extra);
      u ← not_null u;
      mret (modify ++ [u], mats, totals ++ [u], Some u)
  else
    mats ← (if nestjoinOK save_jointype && enable_material && negb parameterized && negb (ExecMaterializesOutput inner) then
              m ← create_material_path (jp_inner jp) inner; mret (mats ++ [m])
            else mret mats);
    mret (if parameterized then (modify, mats, totals, None) else (modify, mats, totals ++ [inner], Some inner)).

(** One path of the outer relation. *)
Definition outer_candidate (q : JoinProblem) (jp : JoinPair) (save_jointype jt : JoinType) (extra : JoinPathExtraData)
    (modify mats totals : list Path) (outerpath : Path) : PM () :=
  if PATH_PARAM_BY_REL outerpath (inner_relids jp) then mret ()
  else
    o ← pm_rel (jp_outer jp);
    let unique_outer := bool_decide (save_jointype = JOIN_UNIQUE_OUTER) in
    if unique_outer && negb (is_include_in_pathlist outerpath (front o)) then mret ()
    else
      outerpath ← (if unique_outer then u ← create_unique_path (jp_outer jp) outerpath (ex_sjinfo extra); not_null u
                   else mret outerpath);
      let keys := build_join_pathkeys (jp_join jp) jt (pathkeys outerpath) in
      let nest (inner : Path) := try_nestloop_path q (jp_join jp) (outer_relids jp) outerpath inner keys jt extra in
      _ ← (if bool_decide (save_jointype = JOIN_UNIQUE_INNER) then pm_foreach modify nest
           else if nestjoinOK save_jointype then
             i ← pm_rel (jp_inner jp);
             _ ← pm_foreach (param_paths i) nest;
             pm_foreach mats nest
           else mret ());
      match totals with
      | [] => mret ()
      | _ => if unique_outer then mret ()
             else generate_mergejoin_paths_explore jp outerpath save_jointype extra (negb (nestjoinOK save_jointype)) totals keys false
      end.

Definition match_unsorted_outer (q : JoinProblem) (jp : JoinPair) (save_jointype : JoinType) (extra : JoinPathExtraData) : PM () :=
  let jt := match save_jointype with JOIN_UNIQUE_OUTER | JOIN_UNIQUE_INNER => JOIN_INNER | jt => jt end in
  i ← pm_rel (jp_inner jp);
  '(modify, mats, totals, inner_cheapest_total) ← pm_fold (front i) (inner_candidate jp save_jointype extra) ([], [], [], None);
  if bool_decide (save_jointype = JOIN_UNIQUE_INNER) && match modify with [] => true | _ => false end then mret ()
  else
    o ← pm_rel (jp_outer jp);
    _ ← pm_foreach (pathlist (rel_paths o)) (outer_candidate q jp save_jointype jt extra modify mats totals);
    match_parallel jp save_jointype extra inner_cheapest_total.

(** One path of the outer relation in PostgreSQL's own routine. *)
Definition outer_candidate_origin (q : JoinProblem) (jp : JoinPair) (save_jointype jt : JoinType) (extra : JoinPathExtraData)
    (inner_cheapest_total matpath : option Path) (outerpath : Path) : PM () :=
  if PATH_PARAM_BY_REL outerpath (inner_relids jp) then mret ()
  else
    o ← pm_rel (jp_outer jp);
    let unique_outer := bool_decide (save_jointype = JOIN_UNIQUE_OUTER) in
    if unique_outer && negb match cheapest_total_path (rel_paths o) with Some t => same_path outerpath t | None => false end then mret ()
    else
      outerpath ← (if unique_outer then u ← create_unique_path (jp_outer jp) outerpath (ex_sjinfo extra); not_null u
                   else mret outerpath);
      let keys := build_join_pathkeys (jp_join jp) jt (pathkeys outerpath) in
      let nest (inner : Path) := try_nestloop_path q (jp_join jp) (outer_relids jp) outerpath inner keys jt extra in
      _ ← (if bool_decide (save_jointype = JOIN_UNIQUE_INNER) then inner ← not_null inner_cheapest_total; nest inner
           else if nestjoinOK save_jointype then
             i ← pm_rel (jp_inner jp);
             _ ← pm_foreach (param_paths i) nest;
             match matpath with Some m => nest m | None => mret () end
           else mret ());
      if unique_outer then mret ()
      else match inner_cheapest_total with
           | None => mret ()
           | Some inner => generate_mergejoin_paths jp outerpath save_jointype extra (negb (nestjoinOK save_jointype)) inner keys false
           end.

(** The cheapest inner path, unique if it has to be, and its materialization. *)
Definition inner_origin (jp : JoinPair) (save_jointype : JoinType) (extra : JoinPathExtraData) (inner : option Path)
  : PM (option Path * option Path) :=
  if bool_decide (save_jointype = JOIN_UNIQUE_INNER) then
    match inner with
    | None => mret (None, None)
    | Some p =>
        u ← create_unique_path (jp_inner jp) p (ex_sjinfo extra);
        u ← not_null u;
        mret (Some u, None)
    end
  else
    match inner with
    | Some p =>
        if nestjoinOK save_jointype && enable_material && negb (ExecMaterializesOutput p) then
          m ← create_material_path (jp_inner jp) p; mret (Some p, Some m)
        else mret (Some p, None)
    | None => mret (None, None)
    end.

Definition match_unsorted_outer_origin (q : JoinProblem) (jp : JoinPair) (save_jointype : JoinType) (extra : JoinPathExtraData) : PM () :=
  let jt := match save_jointype with JOIN_UNIQUE_OUTER | JOIN_UNIQUE_INNER => JOIN_INNER | jt => jt end in
  i ← pm_rel (jp_inner jp);
  p ← not_null (cheapest_total_path (rel_paths i));
  '(inner_cheapest_total, matpath) ←
    inner_origin jp save_jointype extra (if PATH_PARAM_BY_REL p (outer_relids jp) then None else Some p);
  if bool_decide (save_jointype = JOIN_UNIQUE_INNER) && match inner_cheapest_total with None => true | _ => false end then mret ()
  else
    o ← pm_rel (jp_outer jp);
    _ ← pm_foreach (pathlist (rel_paths o)) (outer_candidate_origin q jp save_jointype jt extra inner_cheapest_total matpath);
    match_parallel jp save_jointype extra inner_cheapest_total.

(** *** Hashing the inner input *)

(** One pair of paths of the fronts; the two paths and [jointype] are variables that
    keep what the loop makes of them. *)
Definition hash_pair (jp : JoinPair) (extra : JoinPathExtraData) (clauses : list JoinClause) (inner : Path) (v : Path * option Path * JoinType)
  : PM (Path * option Path * JoinType) :=
  let '(outer, _, jointype) := v in
  if PATH_PARAM_BY_REL outer (inner_relids jp) || PATH_PARAM_BY_REL inner (outer_relids jp) then mret (outer, Some inner, jointype)
  else
    '(outer, inner, jointype) ←
      match jointype with
      | JOIN_UNIQUE_OUTER =>
          u ← create_unique_path (jp_outer jp) outer (ex_sjinfo extra); u ← not_null u; mret (u, inner, JOIN_INNER)
      | JOIN_UNIQUE_INNER =>
          u ← create_unique_path (jp_inner jp) inner (ex_sjinfo extra); u ← not_null u; mret (outer, u, JOIN_INNER)
      | _ => mret (outer, inner, jointype)
      end;
    _ ← try_hashjoin_path (jp_join jp) outer inner clauses jointype extra;
    mret (outer, Some inner, jointype).

(** All the pairs: the inner path and [jointype] are variables of the whole loop. *)
Definition hash_fronts (jp : JoinPair) (extra : JoinPathExtraData) (clauses : list JoinClause) (outers inners : list Path)
    (v : option Path * JoinType) : PM (option Path * JoinType) :=
  pm_fold outers (fun outer '(last, jt) =>
    '(_, last, jt) ← pm_fold inners (hash_pair jp extra clauses) (outer, last, jt); mret (last, jt)) v.

(** The path with the least start-up cost, when it is not in the front. *)
Definition hash_startup (jp : JoinPair) (extra : JoinPathExtraData) (clauses : list JoinClause) (inner_front : list Path) (startup : Path)
    (v : option Path * JoinType) : PM (option Path * JoinType) :=
  match v.2 with
  | JOIN_UNIQUE_OUTER => mret v
  | JOIN_UNIQUE_INNER =>
      pm_fold inner_front (fun inner _ =>
        u ← create_unique_path (jp_inner jp) inner (ex_sjinfo extra);
        u ← not_null u;
        _ ← try_hashjoin_path (jp_join jp) startup u clauses JOIN_INNER extra;
        mret (Some u, JOIN_INNER)) v
  | jointype =>
      pm_fold inner_front (fun inner _ =>
        _ ← try_hashjoin_path (jp_join jp) startup inner clauses jointype extra;
        mret (Some inner, jointype)) v
  end.

(** The parameterized paths, but for the pairs tried before. *)
Definition hash_params (jp : JoinPair) (extra : JoinPathExtraData) (clauses : list JoinClause) (o i : RelPaths) (jointype : JoinType) : PM () :=
  pm_foreach (param_paths o) (fun outerpath =>
    if PATH_PARAM_BY_REL outerpath (inner_relids jp) then mret ()
    else pm_foreach (param_paths i) (fun innerpath =>
      if PATH_PARAM_BY_REL innerpath (outer_relids jp) then mret ()
      else
        let is_startup := match cheapest_startup_path (rel_paths o) with Some s => same_path outerpath s | None => false end in
        if (is_include_in_pathlist outerpath (front o) && is_include_in_pathlist innerpath (front i)) ||
           (is_startup && is_include_in_pathlist innerpath (front i)) then mret ()
        else try_hashjoin_path (jp_join jp) outerpath innerpath clauses jointype extra)).

(** The partial hash join. *)
Definition hash_partial (jp : JoinPair) (save_jointype jt : JoinType) (extra : JoinPathExtraData) (clauses : list JoinClause)
    (inner : option Path) : PM () :=
  partial ← parallel_pair jp save_jointype (not_null inner);
  match partial with
  | Some (outer, inner) => try_partial_hashjoin_path (jp_join jp) outer inner clauses jt extra
  | None => mret ()
  end.

Definition hash_inner_and_outer (jp : JoinPair) (save_jointype : JoinType) (extra : JoinPathExtraData) : PM () :=
  match hash_clauses (outer_relids jp) (inner_relids jp) (restrictlist extra) save_jointype with
  | [] => mret ()
  | clauses =>
      o ← pm_rel (jp_outer jp);
      i ← pm_rel (jp_inner jp);
      let startup := cheapest_startup_path (rel_paths o) in
      v ← hash_fronts jp extra clauses (front o) (front i) (None, save_jointype);
      v ← match startup with
          | Some s => if is_include_in_pathlist s (front o) then mret v else hash_startup jp extra clauses (front i) s v
          | None => mret v
          end;
      let '(inner, jt) := v in
      _ ← match jt with
          | JOIN_UNIQUE_OUTER | JOIN_UNIQUE_INNER => mret ()
          | _ => hash_params jp extra clauses o i jt
          end;
      hash_partial jp save_jointype jt extra clauses inner
  end.

(** The parameterized paths in PostgreSQL's own routine. *)
Definition hash_params_origin (jp : JoinPair) (extra : JoinPathExtraData) (clauses : list JoinClause) (o i : RelPaths) (inner_total : Path)
    (jt : JoinType) : PM () :=
  pm_foreach (param_paths o) (fun outerpath =>
    if PATH_PARAM_BY_REL outerpath (inner_relids jp) then mret ()
    else pm_foreach (param_paths i) (fun innerpath =>
      if PATH_PARAM_BY_REL innerpath (outer_relids jp) then mret ()
      else if match cheapest_startup_path (rel_paths o) with Some s => same_path outerpath s | None => false end &&
              same_path innerpath inner_total then mret ()
      else try_hashjoin_path (jp_join jp) outerpath innerpath clauses jt extra)).

Definition hash_inner_and_outer_origin (jp : JoinPair) (save_jointype : JoinType) (extra : JoinPathExtraData) : PM () :=
  match hash_clauses (outer_relids jp) (inner_relids jp) (restrictlist extra) save_jointype with
  | [] => mret ()
  | clauses =>
      o ← pm_rel (jp_outer jp);
      i ← pm_rel (jp_inner jp);
      let startup := cheapest_startup_path (rel_paths o) in
      outer_total ← not_null (cheapest_total_path (rel_paths o));
      inner_total ← not_null (cheapest_total_path (rel_paths i));
      if PATH_PARAM_BY_REL outer_total (inner_relids jp) || PATH_PARAM_BY_REL inner_total (outer_relids jp) then mret ()
      else
        '(inner_total, jt) ←
          match save_jointype with
          | JOIN_UNIQUE_OUTER =>
              u ← create_unique_path (jp_outer jp) outer_total (ex_sjinfo extra);
              u ← not_null u;
              _ ← try_hashjoin_path (jp_join jp) u inner_total clauses JOIN_INNER extra;
              mret (inner_total, JOIN_INNER)
          | JOIN_UNIQUE_INNER =>
              u ← create_unique_path (jp_inner jp) inner_total (ex_sjinfo extra);
              u ← not_null u;
              _ ← try_hashjoin_path (jp_join jp) outer_total u clauses JOIN_INNER extra;
              _ ← match startup with
                  | Some s => if same_path s outer_total then mret () else try_hashjoin_path (jp_join jp) s u clauses JOIN_INNER extra
                  | None => mret ()
                  end;
              mret (u, JOIN_INNER)
          | jt =>
              _ ← match startup with Some s => try_hashjoin_path (jp_join jp) s inner_total clauses jt extra | None => mret () end;
              _ ← hash_params_origin jp extra clauses o i inner_total jt;
              mret (inner_total, jt)
          end;
        hash_partial jp save_jointype jt extra clauses (Some inner_total)
  end.

(** ** The paths of a join *)

(** One special join of [extra.param_source_rels]. *)
Definition param_source_step (joinrelids : Bitmapset) (acc : Bitmapset) (sj : SpecialJoinInfo) : Bitmapset :=
  let acc := if bms_overlap joinrelids (min_righthand sj) && negb (bms_overlap joinrelids (min_lefthand sj))
             then bms_join acc (bms_difference all_baserels (min_righthand sj)) else acc in
  if bool_decide (sj_jointype sj = JOIN_FULL) && bms_overlap joinrelids (min_lefthand sj) && negb (bms_overlap joinrelids (min_righthand sj))
  then bms_join acc (bms_difference all_baserels (min_lefthand sj)) else acc.

Definition is_inner_unique (jp : JoinPair) (jt : JoinType) (sj : SpecialJoinInfo) (rl : list JoinClause) : bool :=
  match jt with
  | JOIN_SEMI | JOIN_ANTI => false
  | JOIN_UNIQUE_INNER => bms_is_subset (min_lefthand sj) (outer_relids jp)
  | JOIN_UNIQUE_OUTER => innerrel_is_unique (outer_relids jp) (jp_inner jp) JOIN_INNER rl
  | jt => innerrel_is_unique (outer_relids jp) (jp_inner jp) jt rl
  end.

(** [add_paths_to_joinrel], without the hooks of foreign tables and extensions. *)
Definition add_paths (q : JoinProblem) (jp : JoinPair) (joinrelids : Bitmapset) (jt : JoinType)
    (sj : SpecialJoinInfo) (rl : list JoinClause) : PM () :=
  let full := bool_decide (jt = JOIN_FULL) in
  let '(mergeclauses, mergejoin_allowed) :=
    if enable_mergejoin || full then select_mergejoin_clauses (outer_relids jp) (inner_relids jp) rl jt else ([], true) in
  let sources := bms_add_members (foldl (param_source_step joinrelids) None (join_info_list q)) (join_lateral jp) in
  let extra := mkExtra rl mergeclauses (is_inner_unique jp jt sj rl) sj sources in
  _ ← (if mergejoin_allowed : bool then
         if exploring then sort_inner_and_outer jp jt extra else sort_inner_and_outer_origin jp jt extra
       else mret ());
  _ ← (if mergejoin_allowed : bool then
         if exploring then match_unsorted_outer q jp jt extra else match_unsorted_outer_origin q jp jt extra
       else mret ());
  if enable_hashjoin || full then
    if exploring then hash_inner_and_outer jp jt extra else hash_inner_and_outer_origin jp jt extra
  else mret ().

(** ** Empty relations and finished ones *)
Definition is_dummy (st : PathStore) (rel : nat) : bool :=
  match stores st !! rel with
  | Some r => match cheapest_total_path (rel_paths r) with Some p => existsb (Nat.eqb (path_id p)) (dummies st) | None => false end
  | None => false
  end.

(** [create_append_path(rel, NIL, NULL, 0, NIL)]. *)
Definition create_dummy_path (rel : nat) : PM Path :=
  r ← pm_rel rel;
  id ← pm_fresh;
  _ ← (fun st => Ok ((), mkPathStore (stores st) (next_path st) (nodes st) (id :: dummies st) (best_estimate_cost st))) : PM ();
  mret (mkPath id None [] (consider_parallel r) 0 d0 d0 d0 d0).

(** The size estimate is reset, the old paths go, the dummy path comes. *)
Definition mark_dummy (rel : nat) : PM () :=
  already ← (fun st => Ok (is_dummy st rel, st)) : PM bool;
  if already : bool then mret ()
  else
    r ← pm_rel rel;
    let empty := set_pathlist (rel_paths r) [] (best_cost (rel_paths r)) in
    _ ← pm_set rel (mkRelPaths empty (cheapest_unique_path r) (consider_parallel r) d0 (rel_explore_value r) []);
    p ← create_dummy_path rel;
    r ← pm_rel rel;
    rp ← pm_lift (set_cheapest (add_path (rel_paths r) p));
    pm_set rel (set_rel_paths r rp).

(** *** Gathering the workers' rows *)
Definition LOG2 (x : double) : double := (c_log x / dlit 693147180559945 1000000000000000)%D.
Definition disable_cost : double := d_of_Z 10000000000.

(** Start-up and total cost; the explore value of the path stays zero. *)
Definition cost_gather (rows : double) (subpath : Path) : double * double :=
  let startup := (startup_cost subpath + parallel_setup_cost)%D in
  let run := (total_cost subpath - startup_cost subpath + parallel_tuple_cost * rows)%D in
  (startup, (startup + run)%D).

Definition cost_gather_merge (rows : double) (num_workers : Z) (input_startup input_total : double) : double * double :=
  let startup := if enable_gathermerge then d0 else (d0 + disable_cost)%D in
  let N := (d_of_Z num_workers + d_of_Z 1)%D in
  let logN := LOG2 N in
  let comparison_cost := (d_of_Z 2 * cpu_operator_cost)%D in
  let startup := (startup + comparison_cost * N * logN)%D in
  let run := (d0 + rows * comparison_cost * logN)%D in
  let run := (run + cpu_operator_cost * rows)%D in
  let startup := (startup + parallel_setup_cost)%D in
  let run := (run + parallel_tuple_cost * rows * dlit 105 100)%D in
  ((startup + input_startup)%D, (startup + run + input_total)%D).

(** Both for no required outer relations. *)
Definition create_gather_path (rel : nat) (subpath : Path) : PM Path :=
  r ← pm_rel rel;
  id ← pm_fresh;
  let '(startup, total) := cost_gather (rel_rows r) subpath in
  mret (mkPath id None (if (parallel_workers subpath =? 0)%Z then pathkeys subpath else []) false 0 (rel_rows r) startup total d0).

Definition create_gather_merge_path (rel : nat) (subpath : Path) (keys : list nat) : PM Path :=
  r ← pm_rel rel;
  id ← pm_fresh;
  let '(input_startup, input_total) :=
    if pathkeys_contained_in keys (pathkeys subpath) then ((d0 + startup_cost subpath)%D, (d0 + total_cost subpath)%D)
    else let '(s, t) := cost_sort keys (total_cost subpath) (path_rows subpath) (path_width subpath) in ((d0 + s)%D, (d0 + t)%D) in
  let '(startup, total) := cost_gather_merge (rel_rows r) (parallel_workers subpath) input_startup input_total in
  mret (mkPath id None keys false 0 (rel_rows r) startup total (rel_explore_value r)).

(** [add_path] on a relation of the store. *)
Definition add_path_to (rel : nat) (p : Path) : PM () := r ← pm_rel rel; pm_set rel (set_rel_paths r (add_path (rel_paths r) p)).

Definition generate_gather_paths (rel : nat) : PM () :=
  r ← pm_rel rel;
  match partial_pathlist r with
  | [] => mret ()
  | cheapest :: _ =>
      p ← create_gather_path rel cheapest;
      _ ← add_path_to rel p;
      pm_foreach (partial_pathlist r) (fun subpath =>
        match pathkeys subpath with
        | [] => mret ()
        | keys => p ← create_gather_merge_path rel subpath keys; add_path_to rel p
        end)
  end.

(** The gather paths, then the best paths in either mode. *)
Definition finish_rel (rel : nat) : PM () :=
  _ ← generate_gather_paths rel;
  r ← pm_rel rel;
  rp ← pm_lift (if exploring then set_cheapest_explore (rel_paths r) else set_cheapest (rel_paths r));
  pm_set rel (set_rel_paths r rp).

(** The new join relation has no paths. *)
Definition new_store (rel outer inner : nat) (sj : SpecialJoinInfo) (rl : list JoinClause) : PM () := fun st =>
  let '(rows, ev, parallel) := join_estimates rel outer inner sj rl in
  Ok ((), mkPathStore (stores st ++ [mkRelPaths (mkRel join_consider_startup false [] d0 None None [] []) None parallel rows ev []])
            (next_path st) (nodes st) (dummies st) (best_estimate_cost st)).
End paths.
