(* ===== verification/JoinPathOk.v ===== *)
(** * JoinPathOk: the path generator keeps its promise to the join search

    The paths of [JoinPath] as an instance of the interface [JoinPaths] of the join
    search, with its laws: paths stay well formed, no relation loses what the search
    relies on, and a join that a nested loop can compute gets a path that needs no
    other relation.  With it the search of [JoinSearch] never fails on the real
    paths. *)
From S2P Require Import Prelude Float64 HashAny Nodes Bitmapset BitmapOps PathUtils Paths JoinRels JoinSearch JoinPath.
From stdpp Require Import strings.

(** ** Paths well formed *)

(** The outer relations of a parameterized path are a set that is not empty; when the
    search prunes by a predicted cost there are no parameterized paths. *)
Definition path_good (c : double) (p : Path) : Prop :=
  match param_info p with None => True | Some r => bms_ok r ∧ bms_is_empty r = false ∧ dlt d0 c = false end.

(** A path that any query can use as it is. *)
Definition free_path (p : Path) : Prop := param_info p = None.

Definition has_free (l : list Path) : Prop := ∃ p, p ∈ l ∧ free_path p.

(** All the paths a relation remembers are good; it has a free one once its best
    paths are set. *)
Record rel_good (c : double) (r : RelPaths) : Prop := {
  good_list : Forall (path_good c) (pathlist (rel_paths r));
  good_front : Forall (path_good c) (front r);
  good_params : Forall (path_good c) (param_paths r);
  good_startup : from_option (path_good c) True (cheapest_startup_path (rel_paths r));
  good_total : from_option (path_good c) True (cheapest_total_path (rel_paths r));
  good_unique : from_option (path_good c) True (cheapest_unique_path r);
  good_lead : is_Some (cheapest_total_path (rel_paths r)) → has_free (pathlist (rel_paths r))
}.

(** The best paths are set, free ones among them, and there is a front while exploring. *)
Record rel_best `{JC : !JoinCosts} (r : RelPaths) : Prop := {
  best_free : has_free (pathlist (rel_paths r));
  best_params : has_free (param_paths r);
  best_total : is_Some (cheapest_total_path (rel_paths r));
  best_front : exploring = true → front r ≠ []
}.

(** What the search relies on stays. *)
Record rel_step `{JC : !JoinCosts} (r r' : RelPaths) : Prop := {
  step_has : has_free (pathlist (rel_paths r)) → has_free (pathlist (rel_paths r'));
  step_best : rel_best r → rel_best r';
  step_unique : ∀ u, cheapest_unique_path r = Some u → cheapest_unique_path r' = Some u
}.

#[export] Instance rel_step_preorder `{JC : !JoinCosts} : PreOrder rel_step.
Proof. split; [by intros r; split | intros r1 r2 r3 [] []; split; auto]. Qed.

(** Another list of paths that has a free one if the old one had. *)
Lemma list_rel_step `{JC : !JoinCosts} r r' :
  (has_free (pathlist (rel_paths r)) → has_free (pathlist (rel_paths r'))) → param_paths r' = param_paths r →
  cheapest_total_path (rel_paths r') = cheapest_total_path (rel_paths r) → front r' = front r →
  (∀ u, cheapest_unique_path r = Some u → cheapest_unique_path r' = Some u) → rel_step r r'.
Proof. intros H1 H2 H3 H4 H5. split; [done | | done]. intros []. split; [auto | by rewrite H2 | by rewrite H3 | by rewrite H4]. Qed.

Lemma good_outer_ok c p : path_good c p → bms_ok (PATH_REQ_OUTER p).
Proof. unfold path_good, PATH_REQ_OUTER. destruct (param_info p) as [r|]; [by intros [? _] | done]. Qed.

Lemma empty_spec a : bms_ok a → (bms_is_empty a = true ↔ ∀ x, mem a x = false).
Proof.
  intros Ha. assert (E : bms_is_empty a = bms_equal a None) by (by destruct a). rewrite E, bms_equal_ok by done. done.
Qed.

(** A good path with the outer relations of a free one is free. *)
Lemma good_free c p : path_good c p → (∀ x, mem (PATH_REQ_OUTER p) x = false) → free_path p.
Proof.
  unfold path_good, PATH_REQ_OUTER, free_path. destruct (param_info p) as [r|]; [|done]. intros (Hok & He & _) H.
  by rewrite (proj2 (empty_spec r Hok) H) in He.
Qed.

Lemma free_outer p x : free_path p → mem (PATH_REQ_OUTER p) x = false.
Proof. unfold free_path, PATH_REQ_OUTER. by intros ->. Qed.

Lemma good_subset_free c p p' : path_good c p → free_path p' → subset (PATH_REQ_OUTER p) (PATH_REQ_OUTER p') → free_path p.
Proof.
  intros Hp Hp' H. apply (good_free c); [done|]. intros x. apply not_true_iff_false. intros Hx%H. by rewrite free_outer in Hx.
Qed.

Lemma pruned_free c p : dlt d0 c = true → path_good c p → free_path p.
Proof. unfold path_good, free_path. intros Hc. destruct (param_info p); [intros (_ & _ & ?); congruence | done]. Qed.

(** ** The competition keeps a free path *)

(** The scan loses old paths only to the new one, and rejects it only for an old one
    that stays. *)
Lemma add_scan_mem (f : Path → verdict) new todo kept after :
  let '(acc, l, _) := add_scan f new todo kept after in
  (∀ p, p ∈ l → p ∈ kept ∨ p ∈ todo) ∧ (∀ p, p ∈ kept → p ∈ l) ∧
  (∀ p, p ∈ todo → f p = RemoveOld ∨ p ∈ l) ∧
  (acc = false → ∃ p, p ∈ todo ∧ p ∈ l ∧ f p = RejectNew).
Proof.
  revert kept after. induction todo as [|old todo IH]; intros kept after; cbn [add_scan].
  { split_and!; [auto | auto | by intros p Hp%elem_of_nil | done]. }
  destruct (f old) eqn:E.
  - specialize (IH (kept ++ [old]) (if (total_cost new >=? total_cost old)%D then length kept + 1 else after)).
    destruct (add_scan _ _ _ _ _) as [[acc l] a]. destruct IH as (H1 & H2 & H3 & H4). split_and!.
    + intros p Hp. destruct (H1 p Hp); set_solver.
    + intros p Hp. apply H2. set_solver.
    + intros p [->|Hp]%elem_of_cons; [|by apply H3]. right. apply H2. set_solver.
    + intros Ha. destruct (H4 Ha) as (p & ? & ? & ?). exists p. set_solver.
  - specialize (IH kept after). destruct (add_scan _ _ _ _ _) as [[acc l] a]. destruct IH as (H1 & H2 & H3 & H4). split_and!.
    + intros p Hp. destruct (H1 p Hp); set_solver.
    + done.
    + intros p [->|Hp]%elem_of_cons; [by left | by apply H3].
    + intros Ha. destruct (H4 Ha) as (p & ? & ? & ?). exists p. set_solver.
  - split_and!; [intros p; set_solver | intros p; set_solver | intros p Hp; right; set_solver | intros _; exists old; set_solver].
Qed.

Section competition.
Context (c : double).

(** A verdict that compares outer relations. *)
Definition fair (f : Path → verdict) (new : Path) : Prop :=
  ∀ old, path_good c old → (f old = RemoveOld → subset (PATH_REQ_OUTER new) (PATH_REQ_OUTER old)) ∧
                           (f old = RejectNew → subset (PATH_REQ_OUTER old) (PATH_REQ_OUTER new)).

Lemma add_path_fair rel new : path_good c new → fair (add_path_verdict rel new) new.
Proof.
  intros Hn old Ho. destruct (add_path_verdict_sound rel new old (good_outer_ok c _ Hn) (good_outer_ok c _ Ho)) as [H1 H2].
  split; [intros E; apply (H1 E) | intros E; apply (H2 E)].
Qed.

Lemma add_path_explore_fair rel new : path_good c new → fair (add_path_explore_verdict rel new) new.
Proof.
  intros Hn old Ho. destruct (add_path_explore_verdict_sound rel new old (good_outer_ok c _ Hn) (good_outer_ok c _ Ho)) as [H1 H2].
  split; [intros E; apply (H1 E) | intros E; apply (H2 E)].
Qed.

(** The list after the new path: good paths, a free one if there was one or if the
    new one is. *)
Definition list_step (new : Path) (l l' : list Path) : Prop :=
  Forall (path_good c) l' ∧ (has_free l → has_free l') ∧ (free_path new → has_free l').

Lemma scan_step f new l :
  path_good c new → Forall (path_good c) l → fair f new →
  let '(acc, l', a) := add_scan f new l [] 0 in list_step new l (if acc then insert_path l' a new else l').
Proof.
  intros Hn Hl Hf. pose proof (add_scan_mem f new l [] 0) as H. destruct (add_scan f new l [] 0) as [[acc l'] a].
  destruct H as (H1 & _ & H3 & H4). rewrite Forall_forall in Hl.
  assert (Hin : ∀ p, p ∈ l' → path_good c p) by (intros p Hp; destruct (H1 p Hp) as [[]%elem_of_nil | ?]; auto).
  assert (Hfree : free_path new → has_free (if acc then insert_path l' a new else l')).
  { intros Hfr. destruct acc; [exists new; split; [apply elem_insert_path; auto | done]|].
    destruct (H4 eq_refl) as (p & Hp & Hp' & Hr). exists p. split; [done|]. eapply (good_subset_free c p new); auto. by apply Hf; auto. }
  split_and!; [| |done].
  - apply Forall_forall. destruct acc; [|done]. intros p [->|Hp]%elem_insert_path; auto.
  - intros (p & Hp & Hpf). destruct (decide (f p = RemoveOld)) as [Hr|Hr].
    + apply Hfree. apply (good_subset_free c new p); [done | done|]. by apply Hf; auto.
    + exists p. split; [|done]. destruct (H3 p Hp) as [?|Hp']; [done|]. destruct acc; [apply elem_insert_path; auto | done].
Qed.

Lemma add_path_step rel new :
  path_good c new → Forall (path_good c) (pathlist rel) → list_step new (pathlist rel) (pathlist (add_path rel new)).
Proof.
  intros Hn Hl. unfold add_path. pose proof (scan_step (add_path_verdict rel new) new (pathlist rel) Hn Hl (add_path_fair rel new Hn)) as H.
  by destruct (add_scan _ _ _ _ _) as [[acc l'] a].
Qed.

Lemma prune_step new l : path_good c new → Forall (path_good c) l → dlt d0 c = true → l ≠ [] → list_step new l l.
Proof.
  intros Hn Hl Hc Hne. assert (Hf : has_free l).
  { destruct l as [|p l]; [done|]. exists p. split; [set_solver|]. apply Forall_cons in Hl as [Hp _]. by apply (pruned_free c). }
  by split_and!.
Qed.

Lemma insert_step new l a : path_good c new → Forall (path_good c) l → list_step new l (insert_path l a new).
Proof.
  rewrite Forall_forall. intros Hn Hl. split_and!.
  - apply Forall_forall. intros p [->|Hp]%elem_insert_path; auto.
  - intros (p & Hp & Hf). exists p. split; [apply elem_insert_path; auto | done].
  - intros Hf. exists new. split; [apply elem_insert_path; auto | done].
Qed.

(** Pruning by the predicted cost too: the first path is never pruned, and without
    parameterized paths it is free. *)
Lemma add_path_explore_step rel new rate :
  path_good c new → Forall (path_good c) (pathlist rel) → list_step new (pathlist rel) (pathlist (add_path_explore rel new c rate)).
Proof.
  intros Hn Hl. unfold add_path_explore.
  pose proof (scan_step (add_path_explore_verdict rel new) new (pathlist rel) Hn Hl (add_path_explore_fair rel new Hn)) as H.
  set (empty := match pathlist rel with [] => true | _ => false end). set (cheaper := dlt (total_cost new) (best_cost rel)).
  destruct (deq c d0 || empty || cheaper) eqn:Eg; [by destruct (add_scan _ _ _ _ _) as [[acc l'] a]|].
  apply orb_false_iff in Eg as [[_ He]%orb_false_iff _]. destruct (dlt d0 c) eqn:Epos; [|by apply insert_step].
  destruct (dle _ _); [by destruct (add_scan _ _ _ _ _) as [[acc l'] a]|]. apply (prune_step new (pathlist rel)); [done | done | done|].
  intros E. unfold empty in He. by rewrite E in He.
Qed.
End competition.

(** ** The best paths of a relation *)

(** What the loop over the paths knows without looking at costs. *)
Record cheapest_mem (explore : bool) (l : list Path) (st : cheapest_state) : Prop := {
  mem_startup : from_option (fun p => p ∈ l ∧ free_path p) True (c_startup st);
  mem_total : match c_total st with Some p => p ∈ l ∧ free_path p | None => ¬ has_free l end;
  mem_param : match c_param st with Some p => p ∈ l | None => has_free l ∨ l = [] end;
  mem_params : ∀ p, p ∈ c_params st → p ∈ l;
  mem_front : ∀ p, p ∈ c_front st → p ∈ l;
  mem_some : explore = true → is_Some (c_total st) → c_front st ≠ []
}.

Lemma front_scan_mem path todo kept p : p ∈ (front_scan path todo kept).2 → p ∈ kept ∨ p ∈ todo.
Proof.
  revert kept. induction todo as [|old todo IH]; intros kept; cbn [front_scan]; [auto|].
  assert (Hrec : ∀ k, (p ∈ k → p ∈ kept ∨ p = old) → p ∈ (front_scan path todo k).2 → p ∈ kept ∨ p ∈ old :: todo).
  { intros k Hk Hp. rewrite elem_of_cons. destruct (IH k Hp) as [Hp'|]; [destruct (Hk Hp')|]; auto. }
  repeat case_match; try (apply Hrec; set_solver); cbn; set_solver.
Qed.

Lemma add_to_front_mem l path p : p ∈ add_to_front l path → p = path ∨ p ∈ l.
Proof.
  unfold add_to_front. pose proof (front_scan_mem path l [] p) as H. destruct (front_scan _ _ _) as [b f]. cbn in H.
  assert (Hf : p ∈ f → p ∈ l) by (intros Hx; destruct (H Hx) as [[]%elem_of_nil|]; done).
  destruct b; [intros [?|Hp%list_elem_of_singleton]%elem_of_app; auto | auto].
Qed.

Lemma front_scan_some path todo kept : kept ++ todo ≠ [] → (front_scan path todo kept).1 = false → (front_scan path todo kept).2 ≠ [].
Proof.
  intros _. revert kept. induction todo as [|old todo IH]; intros kept; cbn [front_scan]; [done|].
  repeat case_match; auto; by destruct kept.
Qed.

Lemma add_to_front_some l path : l ≠ [] → add_to_front l path ≠ [].
Proof.
  unfold add_to_front. intros Hl. pose proof (front_scan_some path l [] Hl) as H. destruct (front_scan _ _ _) as [[] f]; [by destruct f | by apply H].
Qed.

Lemma cheaper_of_in criterion best path : cheaper_of criterion best path = path ∨ cheaper_of criterion best path = best.
Proof. unfold cheaper_of. case_match; auto. Qed.

Lemma has_free_snoc l x : has_free (l ++ [x]) ↔ has_free l ∨ free_path x.
Proof. unfold has_free. split; [intros (p & Hp & Hf) | intros [(p & Hp & Hf)|Hf]]; set_solver. Qed.

Lemma cheapest_step_mem explore l st path : cheapest_mem explore l st → cheapest_mem explore (l ++ [path]) (cheapest_step explore st path).
Proof.
  destruct st as [s t b ps f]. intros [Hs Ht Hb Hps Hf Hne]. cbn in *.
  assert (Hl : ∀ p, p ∈ l → p ∈ l ++ [path]) by set_solver. assert (Hx : path ∈ l ++ [path]) by set_solver.
  unfold cheapest_step. destruct (param_info path) as [r|] eqn:Ep.
  - assert (Hnf : ¬ free_path path) by (unfold free_path; by rewrite Ep). split; cbn.
    + destruct s; cbn in *; [destruct Hs; auto | done].
    + destruct t; [destruct Ht; auto|]. rewrite has_free_snoc. tauto.
    + destruct t as [t|]; [destruct b; [auto|]; rewrite has_free_snoc; left; left; by exists t|]. destruct b as [b|]; [|done].
      destruct (better_param_in path b) as [-> | ->]; auto.
    + set_solver.
    + auto.
    + auto.
  - assert (Hp : path ∈ l ++ [path] ∧ free_path path) by done.
    assert (Hb' : match b with Some p => p ∈ l ++ [path] | None => has_free (l ++ [path]) ∨ l ++ [path] = [] end).
    { destruct b; [auto|]. left. apply has_free_snoc. by right. }
    destruct s as [cs|]; [destruct t as [ct|]|]; (split; cbn; [ | | exact Hb' | auto | | intros -> _ ]).
    all: try done.
    all: try (destruct (cheaper_of_in STARTUP_COST cs path) as [-> | ->]; [done | destruct Hs; auto]).
    all: try (destruct (cheaper_of_in TOTAL_COST ct path) as [-> | ->]; [done | destruct Ht; auto]).
    all: try (by destruct f).
    2: by apply add_to_front_some, Hne.
    all: intros p Hin; destruct explore; auto.
    1: apply add_to_front_mem in Hin as [->|]; auto.
    all: apply elem_of_app in Hin as [|Hin%list_elem_of_singleton]; subst; auto.
Qed.

Lemma cheapest_fold_mem explore l : cheapest_mem explore l (foldl (cheapest_step explore) (mkCheapest None None None [] []) l).
Proof.
  induction l as [|x l IH] using rev_ind; [split; cbn; [done | by intros (p & Hp%elem_of_nil & _) | auto | auto | auto | by intros _ []]|].
  rewrite foldl_app. by apply cheapest_step_mem.
Qed.

(** A relation with a free path gets free best paths. *)
Lemma set_cheapest_good c explore r :
  Forall (path_good c) (pathlist (rel_paths r)) → Forall (path_good c) (front r) → from_option (path_good c) True (cheapest_unique_path r) →
  has_free (pathlist (rel_paths r)) →
  ensures (set_cheapest_with explore (rel_paths r)) (fun rp =>
    rel_good c (set_rel_paths r rp) ∧ has_free (pathlist rp) ∧ is_Some (cheapest_total_path rp) ∧ has_free (cheapest_parameterized_paths rp) ∧
    (cheapest_cost_explore_pathlist (rel_paths r) ≠ [] ∨ explore = true → cheapest_cost_explore_pathlist rp ≠ [])).
Proof.
  intros Hl Hf Hu Hfree. unfold set_cheapest_with. destruct (pathlist (rel_paths r)) as [|p0 l0]; [by destruct Hfree as (p & Hp%elem_of_nil & _)|].
  set (l := p0 :: l0) in *. clearbody l. pose proof (cheapest_fold_mem explore l) as H.
  destruct (foldl _ _ l) as [s t b ps f]. destruct H as [Ms Mt Mb Mps Mf Mne]. cbn in *. rewrite Forall_forall in Hl.
  destruct t as [ct|]; [|done]. destruct Mt as [Mt Fct]. split_and!.
  - split; cbn; unfold front, param_paths; cbn; [by apply Forall_forall | | | | by auto | done | done].
    + destruct explore; [|done]. apply Forall_forall. intros p. destruct f as [|x f]; [|eauto]. destruct b as [bp|]; [|set_solver].
      intros ->%list_elem_of_singleton. auto.
    + apply Forall_forall. intros p [->|]%elem_of_cons; auto.
    + destruct s; [|done]. destruct Ms. cbn. auto.
  - done.
  - eauto.
  - exists ct. split; [set_solver | done].
  - intros He. destruct explore; [|by destruct He]. specialize (Mne eq_refl ltac:(eauto)). by destruct f.
Qed.

(** ** Computations that are safe *)
Definition pm_ensures {A} (m : PM A) (st : PathStore) (Q : A → PathStore → Prop) : Prop :=
  match m st with Ok (a, st') => Q a st' | Err _ => False end.

Lemma pm_ret {A} (a : A) st (Q : A → PathStore → Prop) : Q a st → pm_ensures (mret a) st Q.
Proof. done. Qed.

Lemma pm_bind_rule {A B} (m : PM A) (f : A → PM B) st Q :
  pm_ensures m st (fun a st' => pm_ensures (f a) st' Q) → pm_ensures (m ≫= f) st Q.
Proof. unfold pm_ensures, mbind, PM_bind. by destruct (m st) as [[a st']|]. Qed.

Lemma pm_mono {A} (m : PM A) st (Q R : A → PathStore → Prop) :
  pm_ensures m st Q → (∀ a st', Q a st' → R a st') → pm_ensures m st R.
Proof. unfold pm_ensures. destruct (m st) as [[a st']|]; auto. Qed.

Section generator.
Context `{LM : !Libm} `{JC : !JoinCosts}.
Context (c : double) (n : nat) (ready : nat → Prop) (made : nat → Path → Prop) (ok_node : JoinNode → Prop).

Definition has_at (st : PathStore) (k : nat) : Prop := ∃ r, stores st !! k = Some r ∧ has_free (pathlist (rel_paths r)).
Definition best_at (st : PathStore) (k : nat) : Prop := ∃ r, stores st !! k = Some r ∧ rel_best r.
Definition unique_at (st : PathStore) (k : nat) (u : Path) : Prop := ∃ r, stores st !! k = Some r ∧ cheapest_unique_path r = Some u.

(** The store of [n] relations with the predicted cost [c]; the [ready] ones have their
    best paths, the unique paths [made] are there. *)
Record store_good (st : PathStore) : Prop := {
  sg_cost : best_estimate_cost st = c;
  sg_len : length (stores st) = n;
  sg_rels : Forall (rel_good c) (stores st);
  sg_ready : ∀ k, ready k → best_at st k;
  sg_made : ∀ k u, made k u → unique_at st k u
}.

(** The relations keep what they have; the join paths built are logged and have [ok_node]. *)
Definition logged (st st' : PathStore) : Prop := ∃ new, nodes st' = nodes st ++ new ∧ Forall ok_node new.
Definition store_step (st st' : PathStore) : Prop := Forall2 rel_step (stores st) (stores st') ∧ logged st st'.

#[export] Instance store_step_preorder : PreOrder store_step.
Proof.
  split.
  - intros st. split; [induction (stores st); constructor; [reflexivity | done] | exists []; by rewrite app_nil_r].
  - intros st1 st2 st3 [H1 (n1 & E1 & F1)] [H2 (n2 & E2 & F2)]. split; [by etrans|]. exists (n1 ++ n2).
    rewrite E2, E1, (assoc_L (++)). split; [done | by apply Forall_app_2].
Qed.

Lemma has_at_step st st' k : store_step st st' → has_at st k → has_at st' k.
Proof.
  intros [Hs _] (r & Hr & Hf). destruct (Forall2_lookup_l _ _ _ _ _ Hs Hr) as (r' & Hr' & [H _ _]). exists r'. auto.
Qed.

Lemma best_at_step st st' k : store_step st st' → best_at st k → best_at st' k.
Proof.
  intros [Hs _] (r & Hr & Hf). destruct (Forall2_lookup_l _ _ _ _ _ Hs Hr) as (r' & Hr' & [_ H _]). exists r'. auto.
Qed.

Lemma unique_at_step st st' k u : store_step st st' → unique_at st k u → unique_at st' k u.
Proof.
  intros [Hs _] (r & Hr & Hf). destruct (Forall2_lookup_l _ _ _ _ _ Hs Hr) as (r' & Hr' & [_ _ H]). exists r'. auto.
Qed.

(** From good stores to good stores that keep what the search relies on, with a
    result that has [Q]. *)
Definition safe {A} (m : PM A) (Q : A → Prop) : Prop :=
  ∀ st, store_good st → pm_ensures m st (fun a st' => store_good st' ∧ store_step st st' ∧ Q a).

Lemma safe_ret {A} (a : A) (Q : A → Prop) : Q a → safe (mret a) Q.
Proof. intros Ha st Hst. apply pm_ret. split_and!; [done | reflexivity | done]. Qed.

Lemma safe_bind {A B} (m : PM A) (f : A → PM B) (Q : A → Prop) (R : B → Prop) :
  safe m Q → (∀ a, Q a → safe (f a) R) → safe (m ≫= f) R.
Proof.
  intros Hm Hf st Hst. apply pm_bind_rule. eapply pm_mono; [by apply Hm|]. intros a st' (Hst' & Hs & Ha).
  eapply pm_mono; [by apply (Hf a Ha)|]. intros b st'' (? & ? & ?). split_and!; [done | by etrans | done].
Qed.

Lemma safe_mono {A} (m : PM A) (Q R : A → Prop) : safe m Q → (∀ a, Q a → R a) → safe m R.
Proof. intros Hm H st Hst. eapply pm_mono; [by apply Hm|]. intros a st' (? & ? & ?). auto. Qed.

Lemma safe_if {A} (b : bool) (m m' : PM A) Q : safe m Q → safe m' Q → safe (if b then m else m') Q.
Proof. by destruct b. Qed.

Lemma safe_not_null {A} (o : option A) (Q : A → Prop) a : o = Some a → Q a → safe (not_null o) Q.
Proof. intros ->. by apply safe_ret. Qed.

Lemma safe_foreach {A} (l : list A) (body : A → PM ()) (P : A → Prop) :
  Forall P l → (∀ x, P x → safe (body x) (fun _ => True)) → safe (pm_foreach l body) (fun _ => True).
Proof.
  intros Hl Hb. induction Hl as [|x l Hx Hl IH]; cbn [pm_foreach]; [by apply safe_ret|]. by eapply safe_bind; [apply Hb|].
Qed.

(** A loop that turns [Q] into [R], which is stronger, at its first round. *)
Lemma safe_fold_first {A V} (l : list A) (body : A → V → PM V) (v : V) (P : A → Prop) (Q R : V → Prop) :
  Forall P l → l ≠ [] → (∀ v, R v → Q v) → (∀ x v, P x → Q v → safe (body x v) R) → Q v → safe (pm_fold l body v) R.
Proof.
  intros Hl Hne HRQ Hb. revert v. induction Hl as [|x l Hx Hl IH]; intros v Hv; [done|]. cbn [pm_fold].
  eapply safe_bind; [by apply Hb|]. intros v' Hv'. destruct l; [by apply safe_ret | auto].
Qed.

Lemma safe_fold {A V} (l : list A) (body : A → V → PM V) (v : V) (P : A → Prop) (Q : V → Prop) :
  Forall P l → (∀ x v, P x → Q v → safe (body x v) Q) → Q v → safe (pm_fold l body v) Q.
Proof.
  intros Hl Hb Hv. destruct l as [|x l]; [by apply safe_ret|]. by eapply safe_fold_first.
Qed.

Lemma safe_lookup i (st : PathStore) : i < n → store_good st → ∃ r, stores st !! i = Some r ∧ rel_good c r.
Proof.
  intros Hi Hst. destruct (lookup_lt_is_Some_2 (stores st) i) as [r Hr]; [by rewrite (sg_len st Hst)|].
  exists r. split; [done|]. by eapply (proj1 (Forall_lookup _ _) (sg_rels st Hst)).
Qed.

Lemma ready_lookup i (st : PathStore) : ready i → store_good st → ∃ r, stores st !! i = Some r ∧ rel_good c r ∧ rel_best r.
Proof.
  intros Hi Hst. destruct (sg_ready st Hst i Hi) as (r & Hr & Hb). exists r. split_and!; [done | | done].
  by eapply (proj1 (Forall_lookup _ _) (sg_rels st Hst)).
Qed.

Lemma pm_rel_at {B} i r (f : RelPaths → PM B) st Q : stores st !! i = Some r → pm_ensures (f r) st Q → pm_ensures (pm_rel i ≫= f) st Q.
Proof. intros Hr H. apply pm_bind_rule. unfold pm_ensures at 1, pm_rel. by rewrite (rd_some _ _ _ Hr). Qed.

Lemma safe_rel i : i < n → safe (pm_rel i) (rel_good c).
Proof.
  intros Hi st Hst. destruct (safe_lookup i st Hi Hst) as (r & Hr & Hg). unfold pm_ensures, pm_rel. rewrite (rd_some _ _ _ Hr).
  cbn. split_and!; [done | reflexivity | done].
Qed.

Lemma safe_input i : ready i → safe (pm_rel i) (fun r => rel_good c r ∧ rel_best r).
Proof.
  intros Hi st Hst. destruct (ready_lookup i st Hi Hst) as (r & Hr & Hg & Hb). unfold pm_ensures, pm_rel. rewrite (rd_some _ _ _ Hr).
  cbn. split_and!; [done | reflexivity | done | done].
Qed.

(** Addresses and the log of nodes do not matter. *)
Lemma store_good_ids st next nds ds : store_good st → store_good (mkPathStore (stores st) next nds ds (best_estimate_cost st)).
Proof. intros [H1 H2 H3 H4 H5]. by split. Qed.

Lemma same_stores st next new ds : Forall ok_node new →
  store_step st (mkPathStore (stores st) next (nodes st ++ new) ds (best_estimate_cost st)).
Proof. intros Hnew. split; [apply (store_step_preorder.(PreOrder_Reflexive) st) | by exists new]. Qed.

Lemma safe_fresh : safe pm_fresh (fun _ => True).
Proof.
  intros st Hst. split_and!; [by apply store_good_ids | | done]. rewrite <- (app_nil_r (nodes st)). by apply same_stores.
Qed.

Lemma safe_node nd : ok_node nd → safe (pm_node nd) (fun _ => True).
Proof. intros Hnd st Hst. split_and!; [by apply store_good_ids | by apply same_stores, Forall_singleton | done]. Qed.

Lemma safe_best : safe pm_best (fun b => b = c).
Proof. intros st Hst. split_and!; [done | reflexivity | by destruct Hst]. Qed.

(** Writing a relation back changed. *)
Lemma set_step st i r r' :
  store_good st → stores st !! i = Some r → rel_good c r' → rel_step r r' →
  pm_ensures (pm_set i r') st (fun _ st' =>
    store_good st' ∧ store_step st st' ∧ stores st' = <[i := r']> (stores st)).
Proof.
  intros Hst Hi Hr' Hs. unfold pm_ensures, pm_set, wr. rewrite Hi. cbn. set (st' := mkPathStore _ _ _ _ _).
  assert (Hstep : store_step st st').
  { split; [|exists []; by rewrite app_nil_r]. cbn. rewrite <- (list_insert_id (stores st) i r) at 1 by done. apply Forall2_insert; [|done].
    apply (store_step_preorder.(PreOrder_Reflexive) st). }
  split_and!; [|done|done]. destruct Hst as [Hc Hn Hr Hready Hmade].
  split; cbn; [done | by rewrite length_insert | by apply Forall_insert| |].
  - intros k Hk. by eapply best_at_step; [|apply Hready].
  - intros k u Hk. by eapply unique_at_step; [|apply Hmade].
Qed.

Lemma safe_update i (f : RelPaths → RelPaths) :
  i < n → (∀ r, rel_good c r → rel_good c (f r) ∧ rel_step r (f r)) →
  safe (r ← pm_rel i; pm_set i (f r)) (fun _ => True).
Proof.
  intros Hi Hf st Hst. destruct (safe_lookup i st Hi Hst) as (r & Hr & Hg). apply (pm_rel_at i r); [done|]. destruct (Hf r Hg).
  eapply pm_mono; [by apply (set_step st i r)|]. naive_solver.
Qed.

(** *** A free path for a relation *)

(** The computation gives relation [j] a free path. *)
Definition gives {A} (j : nat) (m : PM A) : Prop := ∀ st, store_good st → pm_ensures m st (fun _ st' => has_at st' j).

Lemma gives_after {A B} j (m : PM A) (f : A → PM B) (Q : A → Prop) : safe m Q → (∀ a, Q a → gives j (f a)) → gives j (m ≫= f).
Proof.
  intros Hm Hf st Hst. apply pm_bind_rule. eapply pm_mono; [by apply Hm|]. intros a st' (Hst' & Hs & Ha). by apply Hf.
Qed.

Lemma gives_before {A B} j (m : PM A) (f : A → PM B) (Q : A → Prop) (R : B → Prop) :
  safe m Q → gives j m → (∀ a, Q a → safe (f a) R) → gives j (m ≫= f).
Proof.
  intros Hm Hg Hf st Hst. apply pm_bind_rule. pose proof (Hm st Hst) as H1. pose proof (Hg st Hst) as H2.
  unfold pm_ensures in *. destruct (m st) as [[a st']|]; [|done]. destruct H1 as (Hst' & Hs & Ha). pose proof (Hf a Ha st' Hst') as H3.
  unfold pm_ensures in H3. destruct (f a st') as [[b st'']|]; [|done]. by eapply has_at_step; [apply H3|].
Qed.

Lemma gives_foreach {A} j (l : list A) (body : A → PM ()) (P : A → Prop) x :
  Forall P l → (∀ x, P x → safe (body x) (fun _ => True)) → x ∈ l → gives j (body x) → gives j (pm_foreach l body).
Proof.
  intros Hl Hb Hx Hg. induction Hl as [|y l Hy Hl IH]; [by apply elem_of_nil in Hx|]. cbn [pm_foreach].
  apply elem_of_cons in Hx as [->|Hx].
  - eapply gives_before; [by apply Hb | done|]. intros _ _. by eapply safe_foreach.
  - eapply gives_after; [by apply Hb|]. intros _ _. auto.
Qed.

(** *** Joining two paths *)

(** The outer relations of a join path. *)
Definition outer_good (req : Bitmapset) : Prop := bms_ok req ∧ (bms_is_empty req = false → dlt d0 c = false).

Lemma outer_good_intro op ip req :
  path_good c op → path_good c ip → bms_ok req → (free_path op → free_path ip → req = None) → outer_good req.
Proof.
  intros Ho Hi Hok Hf. split; [done|]. destruct (dlt d0 c) eqn:Hc; [|done]. rewrite Hf; [done | by apply (pruned_free c) ..].
Qed.

Lemma nestloop_outer_good op ip orel :
  path_good c op → path_good c ip → bms_ok orel → outer_good (calc_nestloop_required_outer op ip orel).
Proof.
  intros Ho Hi Hr. apply (outer_good_intro op ip); [done | done | |].
  - pose proof (good_outer_ok c op Ho) as H1. pose proof (good_outer_ok c ip Hi) as H2. unfold calc_nestloop_required_outer.
    destruct (PATH_REQ_OUTER ip) as [w|] eqn:E.
    + rewrite bms_del_members_difference. assert (H : bms_ok (bms_difference (bms_union (PATH_REQ_OUTER op) (Some w)) orel)).
      { eapply proj1, bms_difference_ok; [apply bms_union_ok; by apply refines_self | by apply refines_self]. }
      unfold null_if_empty. by case_match.
    + by destruct (PATH_REQ_OUTER op).
  - unfold calc_nestloop_required_outer, PATH_REQ_OUTER, free_path. by intros -> ->.
Qed.

Lemma other_outer_good op ip : path_good c op → path_good c ip → outer_good (calc_non_nestloop_required_outer op ip).
Proof.
  intros Ho Hi. apply (outer_good_intro op ip); [done | done | |].
  - eapply proj1. unfold calc_non_nestloop_required_outer. apply bms_union_ok; apply refines_self; by eapply good_outer_ok.
  - unfold calc_non_nestloop_required_outer, PATH_REQ_OUTER, free_path. by intros -> ->.
Qed.

(** A node for this join may be logged. *)
Definition node_ok (jt : JoinType) (op ip : Path) : Prop := ∀ id m, ok_node (mkNode id m jt (path_id op) (path_id ip)).

Lemma safe_join_path j m jt extra op ip keys req :
  j < n → outer_good req → node_ok jt op ip →
  safe (create_join_path j m jt extra op ip keys req) (fun p => path_good c p ∧ (bms_is_empty req = true → free_path p)).
Proof.
  intros Hj [Hok Hc] Hnode. unfold create_join_path. eapply safe_bind; [by apply safe_rel|]. intros r Hr.
  eapply safe_bind; [apply safe_fresh|]. intros id _. destruct (if negb _ then _ else _) as [rows base].
  destruct (final_cost _ _ _ _ _ _ _) as [startup total]. eapply safe_bind; [apply safe_node, Hnode|]. intros _ _. apply safe_ret.
  unfold path_good, free_path. cbn. destruct (bms_is_empty req) eqn:E; cbn; [done | split; [auto | done]].
Qed.

(** Another list of paths. *)
Lemma set_list_good r l bc p :
  rel_good c r → list_step c p (pathlist (rel_paths r)) l →
  rel_good c (set_rel_paths r (set_pathlist (rel_paths r) l bc)) ∧ rel_step r (set_rel_paths r (set_pathlist (rel_paths r) l bc)).
Proof.
  intros [Hl Hf Hp Hs Ht Hu Hlead] (H1 & H2 & _). split; [split; auto|]. by apply list_rel_step.
Qed.

Lemma good_add_explore r p rate :
  rel_good c r → path_good c p →
  let r' := set_rel_paths r (add_path_explore (rel_paths r) p c rate) in
  rel_good c r' ∧ rel_step r r' ∧ (free_path p → has_free (pathlist (rel_paths r'))).
Proof.
  intros Hr Hg. pose proof (add_path_explore_step c (rel_paths r) p rate Hg (good_list _ _ Hr)) as H.
  assert (E : ∃ l bc, add_path_explore (rel_paths r) p c rate = set_pathlist (rel_paths r) l bc)
    by (unfold add_path_explore; repeat case_match; eauto).
  destruct E as (l & bc & E). rewrite E in *. destruct (set_list_good r l bc p Hr H). split_and!; [done | done | apply H].
Qed.

Lemma good_add r p :
  rel_good c r → path_good c p →
  let r' := set_rel_paths r (add_path (rel_paths r) p) in
  rel_good c r' ∧ rel_step r r' ∧ (free_path p → has_free (pathlist (rel_paths r'))).
Proof.
  intros Hr Hg. pose proof (add_path_step c (rel_paths r) p Hg (good_list _ _ Hr)) as H.
  assert (E : ∃ l bc, add_path (rel_paths r) p = set_pathlist (rel_paths r) l bc) by (unfold add_path; repeat case_match; eauto).
  destruct E as (l & bc & E). rewrite E in *. destruct (set_list_good r l bc p Hr H). split_and!; [done | done | apply H].
Qed.

(** Changing a relation so that it has a free path. *)
Lemma update_gives j (f : RelPaths → RelPaths) :
  j < n → (∀ r, rel_good c r → rel_good c (f r) ∧ rel_step r (f r) ∧ has_free (pathlist (rel_paths (f r)))) →
  gives j (r ← pm_rel j; pm_set j (f r)).
Proof.
  intros Hj Hf st Hst. destruct (safe_lookup j st Hj Hst) as (r & Hr & Hg). destruct (Hf r Hg) as (H1 & H2 & H3).
  apply (pm_rel_at j r); [done|]. eapply pm_mono; [by apply (set_step st j r)|]. intros _ st' (_ & _ & E).
  eexists. split; [rewrite E; apply list_lookup_insert_eq; by eapply lookup_lt_Some | done].
Qed.

(** A path that a precheck refuses has a rival with the same outer relations. *)
Lemma precheck_rival loses startup total keys req consider l :
  precheck_scan loses startup total keys req consider l = false → ∃ p, p ∈ l ∧ bms_equal req (PATH_REQ_OUTER p) = true.
Proof.
  induction l as [|old l IH]; [done|]. cbn [precheck_scan]. destruct (total >? _)%D; [|done]. destruct (_ && _) eqn:E.
  - intros _. apply andb_true_iff in E as [_ E]. exists old. split; [set_solver|]. by destruct (compare_pathkeys _ _).
  - intros H. destruct (IH H) as (p & ? & ?). exists p. set_solver.
Qed.

Lemma rival_free loses rel startup total keys :
  Forall (path_good c) (pathlist rel) → precheck_with loses rel startup total keys None = false → has_free (pathlist rel).
Proof.
  intros Hg H. destruct (precheck_rival _ _ _ _ _ _ _ H) as (p & Hp & He). exists p. split; [done|].
  assert (Hgp : path_good c p) by (by eapply (proj1 (Forall_forall _ _) Hg)).
  apply (good_free c p Hgp). intros x. by rewrite <- (proj1 (bms_equal_ok None _ I (good_outer_ok c p Hgp)) He x).
Qed.

Lemma safe_try_path j m jt extra op ip keys req :
  j < n → outer_good req → node_ok jt op ip → safe (try_path j m jt extra op ip keys req) (fun _ => True).
Proof.
  intros Hj Hreq Hnode. unfold try_path. eapply safe_bind; [by apply safe_rel|]. intros r _.
  destruct (initial_cost _ _ _ _ _) as [startup total].
  apply safe_if; (apply safe_if; [|by apply safe_ret]); (eapply safe_bind; [by apply safe_join_path|]); intros p [Hp _].
  - eapply safe_bind; [apply safe_best|]. intros ? ->.
    apply (safe_update j (fun r => set_rel_paths r (add_path_explore (rel_paths r) p c prune_rate))); [done|].
    intros r' Hr'. by destruct (good_add_explore r' p prune_rate Hr' Hp) as (? & ? & ?).
  - apply (safe_update j (fun r => set_rel_paths r (add_path (rel_paths r) p))); [done|].
    intros r' Hr'. by destruct (good_add r' p Hr' Hp) as (? & ? & ?).
Qed.

Lemma try_path_gives j m jt extra op ip keys : j < n → node_ok jt op ip → gives j (try_path j m jt extra op ip keys None).
Proof.
  intros Hj Hnode st Hst. assert (Hreq : outer_good None) by by split. unfold try_path.
  destruct (safe_lookup j st Hj Hst) as (r & Hr & Hg). apply (pm_rel_at j r); [done|].
  destruct (initial_cost _ _ _ _ _) as [startup total].
  assert (Hrival : ∀ loses, precheck_with loses (rel_paths r) startup total keys None = false → has_at st j).
  { intros loses H. exists r. split; [done|]. by eapply rival_free; [apply (good_list _ _ Hg)|]. }
  assert (Hnew : ∀ m' : PM (), gives j m' → pm_ensures m' st (fun _ st' => has_at st' j)) by auto.
  destruct exploring.
  - destruct (add_path_precheck_explore _ _ _ _ _ _) eqn:E; [|by apply pm_ret; eapply Hrival]. apply Hnew.
    eapply gives_after; [by apply safe_join_path|]. intros p [Hp Hf]. eapply gives_after; [apply safe_best|]. intros ? ->.
    apply (update_gives j (fun r => set_rel_paths r (add_path_explore (rel_paths r) p c prune_rate))); [done|].
    intros r' Hr'. destruct (good_add_explore r' p prune_rate Hr' Hp) as (? & ? & H). split_and!; [done | done | by apply H, Hf].
  - destruct (add_path_precheck _ _ _ _ _) eqn:E; [|by apply pm_ret; eapply Hrival]. apply Hnew.
    eapply gives_after; [by apply safe_join_path|]. intros p [Hp Hf].
    apply (update_gives j (fun r => set_rel_paths r (add_path (rel_paths r) p))); [done|].
    intros r' Hr'. destruct (good_add r' p Hr' Hp) as (? & ? & H). split_and!; [done | done | by apply H, Hf].
Qed.

(** Partial paths are lists of their own. *)
Lemma safe_try_partial j m jt extra op ip keys : j < n → node_ok jt op ip → safe (try_partial j m jt extra op ip keys) (fun _ => True).
Proof.
  intros Hj Hnode. unfold try_partial. eapply safe_bind; [by apply safe_rel|]. intros r _. destruct (initial_cost _ _ _ _ _) as [startup total].
  apply safe_if; [|by apply safe_ret]. eapply safe_bind; [apply safe_join_path; [done | by split | done]|]. intros p _.
  apply (safe_update j (fun r => set_partial r (add_partial_path (partial_pathlist r) p))); [done|].
  intros r' []. split; [by split | by apply list_rel_step].
Qed.

Lemma safe_nestloop q j orel op ip keys jt extra :
  j < n → bms_ok orel → path_good c op → path_good c ip → node_ok jt op ip → safe (try_nestloop_path q j orel op ip keys jt extra) (fun _ => True).
Proof.
  intros Hj Hr Ho Hi Hnode. unfold try_nestloop_path. apply safe_if; [by apply safe_ret|]. apply safe_try_path; auto using nestloop_outer_good.
Qed.

Lemma safe_mergejoin j op ip keys mc ok ik jt extra partial :
  j < n → (partial = false → path_good c op ∧ path_good c ip) → node_ok jt op ip →
  safe (try_mergejoin_path j op ip keys mc ok ik jt extra partial) (fun _ => True).
Proof.
  intros Hj H Hnode. unfold try_mergejoin_path. destruct partial.
  - unfold try_partial_mergejoin_path. apply safe_if; [by apply safe_ret | by apply safe_try_partial].
  - destruct (H eq_refl). apply safe_if; [by apply safe_ret|]. apply safe_try_path; auto using other_outer_good.
Qed.

Lemma safe_hashjoin j op ip hc jt extra :
  j < n → path_good c op → path_good c ip → node_ok jt op ip → safe (try_hashjoin_path j op ip hc jt extra) (fun _ => True).
Proof.
  intros Hj Ho Hi Hnode. unfold try_hashjoin_path. apply safe_if; [by apply safe_ret|]. apply safe_try_path; auto using other_outer_good.
Qed.

Lemma safe_partial_nestloop j orel op ip keys jt extra :
  j < n → node_ok jt op ip → safe (try_partial_nestloop_path j orel op ip keys jt extra) (fun _ => True).
Proof. intros Hj Hnode. unfold try_partial_nestloop_path. apply safe_if; [by apply safe_ret | by apply safe_try_partial]. Qed.

Lemma safe_partial_hashjoin j op ip hc jt extra :
  j < n → node_ok jt op ip → safe (try_partial_hashjoin_path j op ip hc jt extra) (fun _ => True).
Proof. intros Hj Hnode. unfold try_partial_hashjoin_path. apply safe_if; [by apply safe_ret | by apply safe_try_partial]. Qed.

(** *** A join that makes nothing unique *)
Definition plain (jt : JoinType) : Prop := match jt with JOIN_UNIQUE_OUTER | JOIN_UNIQUE_INNER => False | _ => True end.

(** The three relations of a join. *)
Record pair_ok (jp : JoinPair) : Prop := {
  pair_join : jp_join jp < n;
  pair_outer : ready (jp_outer jp);
  pair_inner : ready (jp_inner jp);
  pair_outer_relids : bms_ok (outer_relids jp);
  pair_inner_relids : bms_ok (inner_relids jp)
}.

Section join.
Context (q : JoinProblem) (jp : JoinPair) (extra : JoinPathExtraData) (jt : JoinType).
Context (Hjp : pair_ok jp) (Hplain : plain jt) (Hnodes : ∀ op ip, node_ok jt op ip).

Lemma plain_type : match jt with JOIN_UNIQUE_OUTER | JOIN_UNIQUE_INNER => JOIN_INNER | jt => jt end = jt.
Proof. by destruct jt. Qed.

Lemma plain_not_inner : jt ≠ JOIN_UNIQUE_INNER.
Proof. intros E. by rewrite E in Hplain. Qed.

Lemma not_unique_inner : bool_decide (jt = JOIN_UNIQUE_INNER) = false.
Proof. by apply bool_decide_eq_false, plain_not_inner. Qed.

Lemma not_unique_outer : bool_decide (jt = JOIN_UNIQUE_OUTER) = false.
Proof. apply bool_decide_eq_false. by intros E; rewrite E in Hplain. Qed.

(** The steps that occur in every routine: reading one of the relations, trying a join. *)
Lemma safe_outer : safe (pm_rel (jp_outer jp)) (fun r => rel_good c r ∧ rel_best r).
Proof. apply safe_input, Hjp. Qed.
Lemma safe_inner_rel : safe (pm_rel (jp_inner jp)) (fun r => rel_good c r ∧ rel_best r).
Proof. apply safe_input, Hjp. Qed.
Lemma safe_join_rel : safe (pm_rel (jp_join jp)) (rel_good c).
Proof. apply safe_rel, Hjp. Qed.

Lemma safe_nest op ip keys : path_good c op → path_good c ip → safe (try_nestloop_path q (jp_join jp) (outer_relids jp) op ip keys jt extra) (fun _ => True).
Proof. intros. by apply safe_nestloop; [apply Hjp | apply Hjp|..]. Qed.
Lemma safe_merge op ip keys mc ok ik partial :
  path_good c op → path_good c ip → safe (try_mergejoin_path (jp_join jp) op ip keys mc ok ik jt extra partial) (fun _ => True).
Proof. intros. by apply safe_mergejoin; [apply Hjp|..]. Qed.
Lemma safe_hash op ip hc : path_good c op → path_good c ip → safe (try_hashjoin_path (jp_join jp) op ip hc jt extra) (fun _ => True).
Proof. intros. by apply safe_hashjoin; [apply Hjp|..]. Qed.

Lemma parallel_pair_ok m : safe m (fun _ => True) → safe (parallel_pair jp jt m) (fun _ => True).
Proof.
  intros Hm. unfold parallel_pair. eapply safe_bind; [apply safe_join_rel|]. intros j _. eapply safe_bind; [apply safe_outer|]. intros o _.
  apply safe_if; [|by apply safe_ret]. eapply safe_bind; [exact Hm|]. intros p _. eapply safe_bind; [apply safe_inner_rel|]. intros i _.
  by apply safe_ret.
Qed.

(** The cheapest path of an input is there. *)
Lemma safe_total r : rel_good c r → rel_best r → safe (not_null (cheapest_total_path (rel_paths r))) (path_good c).
Proof.
  intros Hg [_ _ [t Ht] _]. eapply safe_not_null; [exact Ht|]. pose proof (good_total _ _ Hg) as H. by rewrite Ht in H.
Qed.

(** **** Sorting both *)
Lemma safe_sort_partial keys mc ok ik partial : safe (sort_partial jp extra keys mc ok ik partial jt) (fun _ => True).
Proof.
  unfold sort_partial. destruct partial as [[op ip]|]; [|by apply safe_ret]. unfold try_partial_mergejoin_path.
  apply safe_if; [by apply safe_ret|]. by apply safe_try_partial; [apply Hjp|].
Qed.

(** The loop's variables stay: a good outer path, the same join type. *)
Lemma safe_sort_pair keys mc ok ik ip v :
  path_good c ip → path_good c v.1 ∧ v.2 = jt →
  safe (sort_pair jp extra keys mc ok ik ip v) (fun v' => path_good c v'.1 ∧ v'.2 = jt).
Proof.
  intros Hi [Ho Ev]. destruct v as [op jt']. cbn in Ho, Ev. subst jt'. unfold sort_pair. apply safe_if; [by apply safe_ret|].
  eapply (safe_bind _ _ (fun x => x = (op, ip, jt))); [by destruct jt; try done; apply safe_ret|]. intros ? ->.
  eapply safe_bind; [by apply safe_merge|]. intros _ _. by apply safe_ret.
Qed.

Lemma safe_sort_order partial ok jt' : jt' = jt → safe (sort_order jp extra partial ok jt') (fun jt' => jt' = jt).
Proof.
  intros ->. unfold sort_order. eapply safe_bind; [apply safe_outer|]. intros o [Ho _]. eapply safe_bind; [apply safe_inner_rel|]. intros i [Hi _].
  eapply (safe_bind _ _ (fun jt' => jt' = jt)).
  - eapply safe_fold; [apply (good_front _ _ Ho) | | done]. intros op jt' Hop ->. eapply safe_bind.
    + eapply (safe_fold _ _ _ (path_good c) (fun v => path_good c v.1 ∧ v.2 = jt)); [apply (good_front _ _ Hi) | | done].
      intros ip v Hip Hv. by apply safe_sort_pair.
    + intros [op' jt'] [_ E]. by apply safe_ret.
  - intros ? ->. eapply safe_bind; [apply safe_sort_partial|]. intros _ _. by apply safe_ret.
Qed.

Lemma safe_sort_inner_and_outer : safe (sort_inner_and_outer jp jt extra) (fun _ => True).
Proof.
  unfold sort_inner_and_outer. eapply safe_bind; [apply safe_inner_rel|]. intros i [Hi Hb].
  eapply (safe_bind _ _ (fun v => v = (cheapest_total_path (rel_paths i), jt))); [by destruct jt; try done; apply safe_ret|]. intros ? ->.
  eapply safe_bind; [apply parallel_pair_ok|].
  { by eapply safe_mono; [apply safe_total|]. }
  intros partial _. eapply safe_bind; [|intros _ _; by apply safe_ret].
  eapply (safe_fold _ _ _ (fun _ => True) (fun jt' => jt' = jt)); [by apply Forall_true | | done]. intros. by apply safe_sort_order.
Qed.

Lemma safe_sort_inner_and_outer_origin : safe (sort_inner_and_outer_origin jp jt extra) (fun _ => True).
Proof.
  unfold sort_inner_and_outer_origin. eapply safe_bind; [apply safe_outer|]. intros o [Ho Hbo].
  eapply safe_bind; [apply safe_inner_rel|]. intros i [Hi Hbi]. eapply safe_bind; [by apply safe_total|]. intros op Hop.
  eapply safe_bind; [by apply safe_total|]. intros ip Hip. apply safe_if; [by apply safe_ret|].
  eapply (safe_bind _ _ (fun v => v = (op, ip, jt))); [by destruct jt; try done; apply safe_ret|]. intros ? ->.
  eapply safe_bind; [apply parallel_pair_ok; by apply safe_ret|]. intros partial _.
  eapply (safe_foreach _ _ (fun _ => True)); [by apply Forall_true|]. intros keys _.
  eapply safe_bind; [by apply safe_merge|]. intros _ _. apply safe_sort_partial.
Qed.

(** **** Sorted outer paths *)
Lemma cheapest_for_keys_good l keys req criterion ps p :
  Forall (path_good c) l → get_cheapest_path_for_pathkeys l keys req criterion ps = Some p → path_good c p.
Proof.
  unfold get_cheapest_path_for_pathkeys. intros Hl. assert (H : ∀ m, from_option (path_good c) True m →
    from_option (path_good c) True (foldl (fun matched path =>
    if match matched with Some m => (compare_path_costs m path criterion <=? 0)%Z | None => false end then matched
    else if ps && negb (parallel_safe path) then matched
    else if pathkeys_contained_in keys (pathkeys path) && bms_is_subset (PATH_REQ_OUTER path) req then Some path
    else matched) m l)).
  { induction Hl as [|x l Hx Hl IH]; intros m Hm; [done|]. cbn [foldl]. apply IH. destruct (if m then _ else _); [done|].
    destruct (ps && _); [done|]. by destruct (_ && _). }
  intros E. specialize (H None I). by rewrite E in H.
Qed.

Lemma safe_trial_joins k useall op keys mc ns tk l cs ct partial :
  path_good c op ∨ partial = true → Forall (path_good c) l →
  safe (trial_joins k jp jt extra useall op keys mc ns tk l cs ct partial) (fun _ => True).
Proof.
  intros Ho Hl. revert tk cs ct. induction k as [|k IH]; intros tk cs ct; cbn [trial_joins]; [by apply safe_ret|].
  assert (Hm : ∀ p clauses, path_good c p → safe (try_mergejoin_path (jp_join jp) op p keys clauses [] [] jt extra partial) (fun _ => True)).
  { intros p clauses Hp. apply safe_mergejoin; [apply Hjp| |done]. intros ->. by destruct Ho. }
  eapply (safe_bind _ _ (fun _ => True)).
  { destruct (get_cheapest_path_for_pathkeys _ _ _ _ _) as [p|] eqn:E; [|by apply safe_ret]. apply safe_if; [|by apply safe_ret].
    eapply safe_bind; [apply Hm; by eapply cheapest_for_keys_good|]. intros _ _. by apply safe_ret. }
  intros [clauses ct'] _. eapply (safe_bind _ _ (fun _ => True)).
  { destruct (get_cheapest_path_for_pathkeys _ _ _ _ _) as [p|] eqn:E; [|by apply safe_ret]. apply safe_if; [|by apply safe_ret].
    eapply (safe_bind _ _ (fun _ => True)); [|intros _ _; by apply safe_ret]. apply safe_if; [by apply safe_ret|].
    apply Hm. by eapply cheapest_for_keys_good. }
  intros cs' _. destruct useall; [by apply safe_ret | apply IH].
Qed.

Lemma safe_generate_explore op useall totals keys :
  path_good c op → Forall (path_good c) totals → safe (generate_mergejoin_paths_explore jp op jt extra useall totals keys false) (fun _ => True).
Proof.
  intros Ho Ht. unfold generate_mergejoin_paths_explore. rewrite plain_type. apply safe_if; [by apply safe_ret|]. apply safe_if; [by apply safe_ret|].
  eapply safe_bind; [eapply safe_foreach; [exact Ht | intros ip Hip; by apply safe_merge]|]. intros _ _.
  apply safe_if; [by apply safe_ret|]. eapply safe_bind; [apply safe_inner_rel|]. intros i [Hi _].
  apply safe_trial_joins; [by left | apply (good_list _ _ Hi)].
Qed.

Lemma safe_generate op useall ip keys partial :
  (path_good c op ∧ path_good c ip) ∨ partial = true → safe (generate_mergejoin_paths jp op jt extra useall ip keys partial) (fun _ => True).
Proof.
  intros Ho. unfold generate_mergejoin_paths. rewrite plain_type. apply safe_if; [by apply safe_ret|]. apply safe_if; [by apply safe_ret|].
  eapply safe_bind; [apply safe_mergejoin; [apply Hjp | intros ->; by destruct Ho | done]|]. intros _ _.
  apply safe_if; [by apply safe_ret|]. eapply safe_bind; [apply safe_inner_rel|]. intros i [Hi _].
  apply safe_trial_joins; [by destruct Ho as [[? _]|]; [left | right] | apply (good_list _ _ Hi)].
Qed.

(** **** Partial paths *)
Lemma safe_parallel_mergejoin ip : safe (consider_parallel_mergejoin jp jt extra ip) (fun _ => True).
Proof.
  unfold consider_parallel_mergejoin. eapply safe_bind; [apply safe_outer|]. intros o _.
  eapply (safe_foreach _ _ (fun _ => True)); [by apply Forall_true|]. intros op _. apply safe_generate. by right.
Qed.

Lemma safe_parallel_nestloop : safe (consider_parallel_nestloop jp jt extra) (fun _ => True).
Proof.
  unfold consider_parallel_nestloop. rewrite not_unique_inner. eapply safe_bind; [apply safe_outer|]. intros o _.
  eapply safe_bind; [apply safe_inner_rel|]. intros i _. eapply (safe_foreach _ _ (fun _ => True)); [by apply Forall_true|]. intros op _.
  eapply (safe_foreach _ _ (fun _ => True)); [by apply Forall_true|]. intros ip _. apply safe_if; [by apply safe_ret|].
  apply safe_partial_nestloop; [apply Hjp | by destruct jt].
Qed.

Lemma safe_match_parallel inner : safe (match_parallel jp jt extra inner) (fun _ => True).
Proof.
  unfold match_parallel. eapply safe_bind; [apply safe_join_rel|]. intros j _. eapply safe_bind; [apply safe_outer|]. intros o _.
  apply safe_if; [|by apply safe_ret]. eapply safe_bind; [apply safe_parallel_nestloop|]. intros _ _. apply safe_if.
  - destruct inner; [apply safe_parallel_mergejoin | by apply safe_ret].
  - apply safe_if; [by apply safe_ret|]. eapply safe_bind; [apply safe_inner_rel|]. intros i _.
    destruct (get_cheapest_parallel_safe_total_inner _); [apply safe_parallel_mergejoin | by apply safe_ret].
Qed.

(** **** The outer paths as they are *)
Definition good4 (v : list Path * list Path * list Path * option Path) : Prop :=
  Forall (path_good c) v.1.1.1 ∧ Forall (path_good c) v.1.1.2 ∧ Forall (path_good c) v.1.2.

Lemma safe_material rel p : rel < n → path_good c p → safe (create_material_path rel p) (path_good c).
Proof.
  intros Hr Hp. unfold create_material_path. eapply safe_bind; [by apply safe_rel|]. intros r _. eapply safe_bind; [apply safe_fresh|].
  intros id _. destruct (cost_material p). apply safe_ret. exact Hp.
Qed.

Lemma safe_material_inner p : path_good c p → safe (create_material_path (jp_inner jp) p) (path_good c).
Proof.
  intros Hp st Hst. apply safe_material; [|done|done]. destruct (sg_ready st Hst _ (pair_inner _ Hjp)) as (r & Hr & _).
  rewrite <- (sg_len st Hst). by eapply lookup_lt_Some.
Qed.

Lemma safe_inner_candidate p v : path_good c p → good4 v → safe (inner_candidate jp jt extra p v) good4.
Proof.
  destruct v as [[[modify mats] totals] last]. intros Hp (H1 & H2 & H3). cbn in H1, H2, H3. unfold inner_candidate.
  rewrite not_unique_inner. eapply (safe_bind _ _ (Forall (path_good c))).
  - apply safe_if; [|by apply safe_ret]. eapply safe_bind; [by apply safe_material_inner|]. intros m Hm. apply safe_ret.
    by apply Forall_app_2; [|apply Forall_singleton].
  - intros mats' Hm. apply safe_ret. destruct (PATH_PARAM_BY_REL _ _); split_and!; cbn; try done. by apply Forall_app_2; [|apply Forall_singleton].
Qed.

(** The nested loops with every parameterized inner path. *)
Lemma safe_nests op keys l : path_good c op → Forall (path_good c) l →
  safe (pm_foreach l (fun ip => try_nestloop_path q (jp_join jp) (outer_relids jp) op ip keys jt extra)) (fun _ => True).
Proof. intros Ho Hl. eapply safe_foreach; [exact Hl|]. intros ip Hip. by apply safe_nest. Qed.

Lemma safe_outer_candidate modify mats totals last op :
  path_good c op → good4 (modify, mats, totals, last) → safe (outer_candidate q jp jt jt extra modify mats totals op) (fun _ => True).
Proof.
  intros Ho (H1 & H2 & H3). cbn in H1, H2, H3. unfold outer_candidate. rewrite not_unique_inner, not_unique_outer. cbn [andb].
  apply safe_if; [by apply safe_ret|]. eapply safe_bind; [apply safe_outer|]. intros o _.
  eapply (safe_bind _ _ (fun op' => op' = op)); [by apply safe_ret|]. intros ? ->. eapply (safe_bind _ _ (fun _ => True)).
  - apply safe_if; [|by apply safe_ret]. eapply safe_bind; [apply safe_inner_rel|]. intros i [Hi _].
    eapply safe_bind; [apply safe_nests; [done | apply (good_params _ _ Hi)]|]. intros _ _. by apply safe_nests.
  - intros _ _. destruct totals; [by apply safe_ret|]. by apply safe_generate_explore.
Qed.

Lemma safe_match_unsorted_outer : safe (match_unsorted_outer q jp jt extra) (fun _ => True).
Proof.
  unfold match_unsorted_outer. rewrite plain_type. eapply safe_bind; [apply safe_inner_rel|]. intros i [Hi _].
  eapply safe_bind; [eapply (safe_fold _ _ _ (path_good c) good4); [apply (good_front _ _ Hi) | intros; by apply safe_inner_candidate | done]|].
  intros [[[modify mats] totals] last] Hv. apply safe_if; [by apply safe_ret|]. eapply safe_bind; [apply safe_outer|]. intros o [Ho _].
  eapply safe_bind; [|intros _ _; apply safe_match_parallel].
  eapply safe_foreach; [apply (good_list _ _ Ho)|]. intros op Hop. by eapply safe_outer_candidate.
Qed.

Definition good_opt (o : option Path) : Prop := from_option (path_good c) True o.

Lemma safe_inner_origin jt' p :
  jt' ≠ JOIN_UNIQUE_INNER → good_opt p → safe (inner_origin jp jt' extra p) (fun v => good_opt v.1 ∧ good_opt v.2).
Proof.
  intros Hne Hp. unfold inner_origin. rewrite bool_decide_eq_false_2 by done. destruct p as [p|]; [|by apply safe_ret].
  apply safe_if; [|by apply safe_ret]. eapply safe_bind; [by apply safe_material_inner|]. intros m Hm. by apply safe_ret.
Qed.

Lemma safe_outer_candidate_origin inner mat op :
  path_good c op → good_opt inner → good_opt mat → safe (outer_candidate_origin q jp jt jt extra inner mat op) (fun _ => True).
Proof.
  intros Ho Hi Hm. unfold outer_candidate_origin. rewrite not_unique_inner, not_unique_outer. cbn [andb].
  apply safe_if; [by apply safe_ret|]. eapply safe_bind; [apply safe_outer|]. intros o _.
  eapply (safe_bind _ _ (fun op' => op' = op)); [by apply safe_ret|]. intros ? ->. eapply (safe_bind _ _ (fun _ => True)).
  - apply safe_if; [|by apply safe_ret]. eapply safe_bind; [apply safe_inner_rel|]. intros i [Hri _].
    eapply safe_bind; [apply safe_nests; [done | apply (good_params _ _ Hri)]|]. intros _ _. destruct mat; [by apply safe_nest | by apply safe_ret].
  - intros _ _. destruct inner; [|by apply safe_ret]. apply safe_generate. by left.
Qed.

Lemma safe_match_unsorted_outer_origin : safe (match_unsorted_outer_origin q jp jt extra) (fun _ => True).
Proof.
  unfold match_unsorted_outer_origin. rewrite plain_type. eapply safe_bind; [apply safe_inner_rel|]. intros i [Hi Hb].
  eapply safe_bind; [by apply safe_total|]. intros p Hp.
  eapply safe_bind; [apply safe_inner_origin; [apply plain_not_inner | by destruct (PATH_PARAM_BY_REL _ _)]|].
  intros [inner mat] [H1 H2]. apply safe_if; [by apply safe_ret|]. eapply safe_bind; [apply safe_outer|]. intros o [Ho _].
  eapply safe_bind; [|intros _ _; apply safe_match_parallel].
  eapply safe_foreach; [apply (good_list _ _ Ho)|]. intros op Hop. by apply safe_outer_candidate_origin.
Qed.

(** The nested loop of two free paths. *)
Lemma nestloop_gives op ip keys :
  free_path op → free_path ip → gives (jp_join jp) (try_nestloop_path q (jp_join jp) (outer_relids jp) op ip keys jt extra).
Proof.
  intros Fo Fi. unfold try_nestloop_path, calc_nestloop_required_outer, PATH_REQ_OUTER. rewrite Fo, Fi. cbn.
  by apply try_path_gives; [apply Hjp|].
Qed.

Lemma nests_give op keys r : path_good c op → free_path op → rel_good c r → rel_best r →
  gives (jp_join jp) (pm_foreach (param_paths r) (fun ip => try_nestloop_path q (jp_join jp) (outer_relids jp) op ip keys jt extra)).
Proof.
  intros Ho Fo Hr [_ (ip & Hip & Fi) _ _]. eapply gives_foreach; [apply (good_params _ _ Hr) | | exact Hip | by apply nestloop_gives].
  intros ? ?. by apply safe_nest.
Qed.

Lemma outer_candidate_gives modify mats totals last op :
  nestjoinOK jt = true → path_good c op → free_path op → good4 (modify, mats, totals, last) →
  gives (jp_join jp) (outer_candidate q jp jt jt extra modify mats totals op).
Proof.
  intros Hn Ho Fo (H1 & H2 & H3). cbn in H1, H2, H3. unfold outer_candidate, PATH_PARAM_BY_REL. rewrite Fo, not_unique_inner, not_unique_outer, Hn.
  cbn [andb]. eapply gives_after; [apply safe_outer|]. intros o _.
  eapply (gives_after _ _ _ (fun op' => op' = op)); [by apply safe_ret|]. intros ? ->.
  eapply (gives_before _ _ _ (fun _ => True) (fun _ => True)).
  - eapply safe_bind; [apply safe_inner_rel|]. intros i [Hi _].
    eapply safe_bind; [apply safe_nests; [done | apply (good_params _ _ Hi)]|]. intros _ _. by apply safe_nests.
  - eapply gives_after; [apply safe_inner_rel|]. intros i [Hi Hb]. eapply (gives_before _ _ _ (fun _ => True) (fun _ => True)).
    + apply safe_nests; [done | apply (good_params _ _ Hi)].
    + by apply nests_give.
    + intros _ _. by apply safe_nests.
  - intros _ _. destruct totals; [by apply safe_ret|]. by apply safe_generate_explore.
Qed.

Lemma match_unsorted_outer_gives : nestjoinOK jt = true → gives (jp_join jp) (match_unsorted_outer q jp jt extra).
Proof.
  intros Hn. unfold match_unsorted_outer. rewrite plain_type, not_unique_inner. eapply gives_after; [apply safe_inner_rel|]. intros i [Hi _].
  eapply gives_after; [eapply (safe_fold _ _ _ (path_good c) good4); [apply (good_front _ _ Hi) | intros; by apply safe_inner_candidate | done]|].
  intros [[[modify mats] totals] last] Hv. cbn [andb]. eapply gives_after; [apply safe_outer|]. intros o [Ho [(op & Hop & Fo) _ _ _]].
  eapply (gives_before _ _ _ (fun _ => True) (fun _ => True)); [| |intros _ _; apply safe_match_parallel].
  - eapply safe_foreach; [apply (good_list _ _ Ho)|]. intros ? ?. by eapply safe_outer_candidate.
  - eapply gives_foreach; [apply (good_list _ _ Ho) | | exact Hop|].
    + intros ? ?. by eapply safe_outer_candidate.
    + eapply outer_candidate_gives; [done | | done | done]. by eapply (proj1 (Forall_forall _ _) (good_list _ _ Ho)).
Qed.

Lemma outer_candidate_origin_gives inner mat op :
  nestjoinOK jt = true → path_good c op → free_path op → good_opt inner → good_opt mat →
  gives (jp_join jp) (outer_candidate_origin q jp jt jt extra inner mat op).
Proof.
  intros Hn Ho Fo Hgi Hgm. unfold outer_candidate_origin, PATH_PARAM_BY_REL. rewrite Fo, not_unique_inner, not_unique_outer, Hn.
  cbn [andb]. eapply gives_after; [apply safe_outer|]. intros o _.
  eapply (gives_after _ _ _ (fun op' => op' = op)); [by apply safe_ret|]. intros ? ->.
  assert (Hmat : ∀ keys, safe (match mat with Some m => try_nestloop_path q (jp_join jp) (outer_relids jp) op m keys jt extra | None => mret () end)
                         (fun _ => True)) by (intros keys; destruct mat; [by apply safe_nest | by apply safe_ret]).
  eapply (gives_before _ _ _ (fun _ => True) (fun _ => True)).
  - eapply safe_bind; [apply safe_inner_rel|]. intros i [Hi _].
    eapply safe_bind; [apply safe_nests; [done | apply (good_params _ _ Hi)]|]. intros _ _. apply Hmat.
  - eapply gives_after; [apply safe_inner_rel|]. intros i [Hi Hb]. eapply (gives_before _ _ _ (fun _ => True) (fun _ => True)).
    + apply safe_nests; [done | apply (good_params _ _ Hi)].
    + by apply nests_give.
    + intros _ _. apply Hmat.
  - intros _ _. destruct inner; [|by apply safe_ret]. apply safe_generate. by left.
Qed.

Lemma match_unsorted_outer_origin_gives : nestjoinOK jt = true → gives (jp_join jp) (match_unsorted_outer_origin q jp jt extra).
Proof.
  intros Hn. unfold match_unsorted_outer_origin. rewrite plain_type, not_unique_inner. eapply gives_after; [apply safe_inner_rel|]. intros i [Hi Hb].
  eapply gives_after; [by apply safe_total|]. intros p Hp.
  eapply gives_after; [apply safe_inner_origin; [apply plain_not_inner | by destruct (PATH_PARAM_BY_REL _ _)]|].
  intros [inner mat] [H1 H2]. cbn [andb]. eapply gives_after; [apply safe_outer|]. intros o [Ho [(op & Hop & Fo) _ _ _]].
  eapply (gives_before _ _ _ (fun _ => True) (fun _ => True)); [| |intros _ _; apply safe_match_parallel].
  - eapply safe_foreach; [apply (good_list _ _ Ho)|]. intros ? ?. by apply safe_outer_candidate_origin.
  - eapply gives_foreach; [apply (good_list _ _ Ho) | | exact Hop|].
    + intros ? ?. by apply safe_outer_candidate_origin.
    + apply outer_candidate_origin_gives; [done | | done | done | done]. by eapply (proj1 (Forall_forall _ _) (good_list _ _ Ho)).
Qed.

(** **** Hashing the inner input *)
Lemma safe_hash_pair clauses ip v :
  path_good c ip → path_good c v.1.1 ∧ v.2 = jt →
  safe (hash_pair jp extra clauses ip v) (fun v' => (path_good c v'.1.1 ∧ v'.2 = jt) ∧ is_Some v'.1.2).
Proof.
  intros Hi [Ho Ev]. destruct v as [[op last] jt']. cbn in Ho, Ev. subst jt'. unfold hash_pair. apply safe_if; [apply safe_ret; by eauto|].
  eapply (safe_bind _ _ (fun x => x = (op, ip, jt))); [by destruct jt; try done; apply safe_ret|]. intros ? ->.
  eapply safe_bind; [by apply safe_hash|]. intros _ _. apply safe_ret. by eauto.
Qed.

Lemma safe_hash_fronts clauses outers inners :
  Forall (path_good c) outers → Forall (path_good c) inners → outers ≠ [] → inners ≠ [] →
  safe (hash_fronts jp extra clauses outers inners (None, jt)) (fun v => is_Some v.1 ∧ v.2 = jt).
Proof.
  intros Ho Hi Hno Hni. unfold hash_fronts.
  eapply (safe_fold_first _ _ _ (path_good c) (fun v => v.2 = jt)); [done | done | by intros v [_ ?] | | done].
  intros op [last jt'] Hop E. cbn in E. subst jt'. eapply safe_bind.
  - eapply (safe_fold_first _ _ _ (path_good c) (fun v => path_good c v.1.1 ∧ v.2 = jt)
                (fun v => (path_good c v.1.1 ∧ v.2 = jt) ∧ is_Some v.1.2)); [done | done | | | done].
    + intros v [H _]. exact H.
    + intros ip v Hip Hv. by apply safe_hash_pair.
  - intros [[op' last'] jt'] [[_ E] Hs]. by apply safe_ret.
Qed.

Lemma safe_hash_startup clauses l s v :
  Forall (path_good c) l → path_good c s → is_Some v.1 ∧ v.2 = jt →
  safe (hash_startup jp extra clauses l s v) (fun v => is_Some v.1 ∧ v.2 = jt).
Proof.
  intros Hl Hs Hv. destruct v as [last jt']. pose proof Hv as [Hlast E]. cbn in Hlast, E. subst jt'.
  assert (H : safe (pm_fold l (fun inner _ => _ ← try_hashjoin_path (jp_join jp) s inner clauses jt extra; mret (Some inner, jt)) (last, jt))
                (fun v => is_Some v.1 ∧ v.2 = jt)).
  { eapply safe_fold; [exact Hl | | done]. intros ip w Hip _. eapply safe_bind; [by apply safe_hash|]. intros _ _. apply safe_ret. by eauto. }
  unfold hash_startup. cbn [snd]. by destruct jt.
Qed.

Lemma safe_hash_params clauses o i : rel_good c o → rel_good c i → safe (hash_params jp extra clauses o i jt) (fun _ => True).
Proof.
  intros Ho Hi. unfold hash_params. eapply safe_foreach; [apply (good_params _ _ Ho)|]. intros op Hop.
  apply safe_if; [by apply safe_ret|]. eapply safe_foreach; [apply (good_params _ _ Hi)|]. intros ip Hip.
  apply safe_if; [by apply safe_ret|]. apply safe_if; [by apply safe_ret|]. by apply safe_hash.
Qed.

Lemma safe_hash_params_origin clauses o i p : rel_good c o → rel_good c i → safe (hash_params_origin jp extra clauses o i p jt) (fun _ => True).
Proof.
  intros Ho Hi. unfold hash_params_origin. eapply safe_foreach; [apply (good_params _ _ Ho)|]. intros op Hop.
  apply safe_if; [by apply safe_ret|]. eapply safe_foreach; [apply (good_params _ _ Hi)|]. intros ip Hip.
  apply safe_if; [by apply safe_ret|]. apply safe_if; [by apply safe_ret|]. by apply safe_hash.
Qed.

Lemma safe_hash_partial clauses inner : is_Some inner → safe (hash_partial jp jt jt extra clauses inner) (fun _ => True).
Proof.
  intros [p ->]. unfold hash_partial. eapply safe_bind; [apply parallel_pair_ok; by apply safe_ret|]. intros partial _.
  destruct partial as [[op ip]|]; [by apply safe_partial_hashjoin; [apply Hjp|] | by apply safe_ret].
Qed.

Lemma safe_hash_inner_and_outer : exploring = true → safe (hash_inner_and_outer jp jt extra) (fun _ => True).
Proof.
  intros Hex. unfold hash_inner_and_outer. destruct (hash_clauses _ _ _ _) as [|cl cls]; [by apply safe_ret|].
  eapply safe_bind; [apply safe_outer|]. intros o [Ho Hbo]. eapply safe_bind; [apply safe_inner_rel|]. intros i [Hi Hbi].
  eapply safe_bind; [apply safe_hash_fronts; [apply (good_front _ _ Ho) | apply (good_front _ _ Hi) | by apply best_front | by apply best_front]|].
  intros v Hv. eapply (safe_bind _ _ (fun v => is_Some v.1 ∧ v.2 = jt)).
  { pose proof (good_startup _ _ Ho) as Hs. destruct (cheapest_startup_path (rel_paths o)) as [s|]; [|by apply safe_ret].
    apply safe_if; [by apply safe_ret|]. apply safe_hash_startup; [apply (good_front _ _ Hi) | done | done]. }
  intros [last jt'] [Hlast E]. cbn in Hlast, E. subst jt'. eapply (safe_bind _ _ (fun _ => True)).
  - pose proof (safe_hash_params (cl :: cls) o i Ho Hi) as H. by destruct jt.
  - intros _ _. by apply safe_hash_partial.
Qed.

Lemma safe_hash_inner_and_outer_origin : safe (hash_inner_and_outer_origin jp jt extra) (fun _ => True).
Proof.
  unfold hash_inner_and_outer_origin. destruct (hash_clauses _ _ _ _) as [|cl cls]; [by apply safe_ret|].
  eapply safe_bind; [apply safe_outer|]. intros o [Ho Hbo]. eapply safe_bind; [apply safe_inner_rel|]. intros i [Hi Hbi].
  eapply safe_bind; [by apply safe_total|]. intros op Hop. eapply safe_bind; [by apply safe_total|]. intros ip Hip.
  apply safe_if; [by apply safe_ret|].
  assert (H : safe (_ ← match cheapest_startup_path (rel_paths o) with
                        | Some s => try_hashjoin_path (jp_join jp) s ip (cl :: cls) jt extra | None => mret () end;
                    _ ← hash_params_origin jp extra (cl :: cls) o i ip jt; mret (ip, jt)) (fun v => v = (ip, jt))).
  { eapply (safe_bind _ _ (fun _ => True)).
    - pose proof (good_startup _ _ Ho) as Hs. destruct (cheapest_startup_path (rel_paths o)); [by apply safe_hash | by apply safe_ret].
    - intros _ _. eapply safe_bind; [by apply safe_hash_params_origin|]. intros _ _. by apply safe_ret. }
  eapply (safe_bind _ _ (fun v => v = (ip, jt))); [by destruct jt|]. intros ? ->. apply safe_hash_partial. by eauto.
Qed.
End join.

(** All the paths of a join. *)
Lemma safe_add_paths q jp joinrelids jt sj rl :
  pair_ok jp → plain jt → (∀ op ip, node_ok jt op ip) → safe (add_paths q jp joinrelids jt sj rl) (fun _ => True).
Proof.
  intros Hjp Hp Hnodes. unfold add_paths. destruct (if enable_mergejoin || _ then _ else _) as [mc allowed].
  eapply (safe_bind _ _ (fun _ => True)).
  { apply safe_if; [|by apply safe_ret]. apply safe_if; [by apply safe_sort_inner_and_outer | by apply safe_sort_inner_and_outer_origin]. }
  intros _ _. eapply (safe_bind _ _ (fun _ => True)).
  { apply safe_if; [|by apply safe_ret]. apply safe_if; [by apply safe_match_unsorted_outer | by apply safe_match_unsorted_outer_origin]. }
  intros _ _. apply safe_if; [|by apply safe_ret].
  destruct exploring eqn:E; [by apply safe_hash_inner_and_outer | by apply safe_hash_inner_and_outer_origin].
Qed.

Lemma add_paths_gives q jp joinrelids jt sj rl :
  pair_ok jp → plain jt → (∀ op ip, node_ok jt op ip) → nestjoinOK jt = true → gives (jp_join jp) (add_paths q jp joinrelids jt sj rl).
Proof.
  intros Hjp Hp Hnodes Hn. unfold add_paths. destruct (if enable_mergejoin || _ then _ else _) as [mc allowed] eqn:E.
  assert (allowed = true) as ->.
  { revert E. destruct (enable_mergejoin || _); [|by intros [= _ <-]]. unfold select_mergejoin_clauses. destruct (foldl _ _ _) as [l b].
    intros [= _ <-]. by destruct jt. }
  eapply (gives_after _ _ _ (fun _ => True)).
  { apply safe_if; [by apply safe_sort_inner_and_outer | by apply safe_sort_inner_and_outer_origin]. }
  intros _ _. eapply (gives_before _ _ _ (fun _ => True) (fun _ => True)).
  - apply safe_if; [by apply safe_match_unsorted_outer | by apply safe_match_unsorted_outer_origin].
  - destruct exploring; [by apply match_unsorted_outer_gives | by apply match_unsorted_outer_origin_gives].
  - intros _ _. apply safe_if; [|by apply safe_ret].
    destruct exploring eqn:Ex; [by apply safe_hash_inner_and_outer | by apply safe_hash_inner_and_outer_origin].
Qed.

(** *** Unique, empty and finished relations *)
Lemma safe_unique rel p sj :
  rel < n → path_good c p → safe (create_unique_path rel p sj) (fun u => from_option (path_good c) True u).
Proof.
  intros Hrel Hp st Hst. destruct (safe_lookup rel st Hrel Hst) as (r & Hr & Hg). unfold create_unique_path. apply (pm_rel_at rel r); [done|].
  destruct (cheapest_unique_path r) as [u|] eqn:Eu.
  { apply pm_ret. split_and!; [done | reflexivity|]. pose proof (good_unique _ _ Hg) as H. by rewrite Eu in H. }
  destruct (negb _); [by apply safe_ret|]. destruct (unique_estimates rel r p sj) as [[[[rows startup] total] ordered]|]; [|by apply safe_ret].
  apply pm_bind_rule. unfold pm_ensures at 1, pm_fresh. set (u := mkPath _ _ _ _ _ _ _ _ _).
  set (st1 := mkPathStore _ _ _ _ _). assert (Hst1 : store_good st1) by (by apply store_good_ids).
  assert (Hu : path_good c u) by exact Hp.
  apply pm_bind_rule. eapply pm_mono; [apply (set_step st1 rel r (set_unique r u) Hst1 Hr)|].
  - destruct Hg. by split.
  - apply list_rel_step; [done.. | by rewrite Eu].
  - intros _ st2 (H1 & H2 & _). apply pm_ret. split_and!; [done | | done].
    etrans; [|exact H2]. unfold st1. rewrite <- (app_nil_r (nodes st)). by apply same_stores.
Qed.

(** The dummy path of a relation, and what [mark_dummy] computes. *)
Definition dummy_path (st : PathStore) (r : RelPaths) : Path := mkPath (next_path st) None [] (consider_parallel r) 0 d0 d0 d0 d0.

Lemma mark_dummy_eq rel st r :
  stores st !! rel = Some r → is_dummy st rel = false →
  mark_dummy rel st =
    (rp ← set_cheapest (add_path (set_pathlist (rel_paths r) [] (best_cost (rel_paths r))) (dummy_path st r));
     Ok ((), mkPathStore (<[rel := mkRelPaths rp (cheapest_unique_path r) (consider_parallel r) d0 (rel_explore_value r) []]> (stores st))
               (S (next_path st)) (nodes st) (next_path st :: dummies st) (best_estimate_cost st))).
Proof.
  intros Hr Hd. unfold mark_dummy. cbv [mbind PM_bind]. rewrite Hd. cbv beta iota.
  assert (Hlt : rel < length (stores st)) by (by eapply lookup_lt_Some).
  assert (Hins : ∀ x, <[rel := x]> (stores st) !! rel = Some x) by (intros x; by apply list_lookup_insert_eq).
  unfold create_dummy_path. cbv [mbind PM_bind pm_rel pm_set pm_fresh pm_lift mret PM_ret res_bind wr rd]. rewrite Hr.
  cbv beta iota. rewrite Hr. cbn [stores next_path nodes dummies best_estimate_cost]. rewrite !Hins.
  cbn [stores next_path nodes dummies best_estimate_cost]. rewrite !Hins. cbn [rel_paths consider_parallel]. fold (dummy_path st r).
  destruct (set_cheapest _) as [rp|]; [|done]. cbn [stores]. rewrite Hins. by rewrite list_insert_insert_eq.
Qed.

Lemma mark_dummy_safe rel st :
  rel < n → store_good st → pm_ensures (mark_dummy rel) st (fun _ st' => store_good st' ∧ store_step st st' ∧ has_at st' rel).
Proof.
  intros Hrel Hst. destruct (safe_lookup rel st Hrel Hst) as (r & Hr & Hg). destruct (is_dummy st rel) eqn:Ed.
  - unfold mark_dummy, pm_ensures. cbv [mbind PM_bind]. rewrite Ed. cbn. split_and!; [done | reflexivity|]. exists r. split; [done|].
    apply (good_lead _ _ Hg). unfold is_dummy in Ed. rewrite Hr in Ed. by destruct (cheapest_total_path _).
  - unfold pm_ensures. rewrite (mark_dummy_eq rel st r Hr Ed). set (rp0 := set_pathlist _ _ _). set (p := dummy_path st r).
    destruct (add_path_step c rp0 p I ltac:(constructor)) as (H1 & _ & H2). destruct Hg.
    assert (E : ∃ l bc, add_path rp0 p = set_pathlist rp0 l bc) by (unfold add_path; repeat case_match; eauto).
    destruct E as (l & bc & E).
    pose proof (set_cheapest_good c false (set_rel_paths r (add_path rp0 p)) H1) as H. rewrite E in *. unfold front in H. cbn in H.
    specialize (H good_front0 good_unique0 (H2 eq_refl)). unfold set_cheapest.
    destruct (set_cheapest_with false _) as [rp|]; [|done]. destruct H as (Hgood & Hfree & Htot & Hpar & Hfront). cbn.
    set (r' := mkRelPaths rp _ _ _ _ _). assert (Hr' : rel_good c r') by (by destruct Hgood).
    assert (Hs : rel_step r r').
    { split; [done | | done]. intros []. split; [done | done | done|]. intros Hex. apply Hfront. left. by apply best_front0. }
    pose proof (set_step st rel r r' Hst Hr Hr' Hs) as H. unfold pm_ensures, pm_set, wr in H. rewrite Hr in H. cbn in H.
    destruct H as (Hg1 & Hs1 & _). split_and!; [by apply (store_good_ids _ _ _ _ Hg1) | exact Hs1|].
    exists r'. split; [by apply list_lookup_insert_eq; eapply lookup_lt_Some | done].
Qed.

(** Free paths added to a relation of the store. *)
Lemma safe_add_path_to rel p : rel < n → path_good c p → safe (add_path_to rel p) (fun _ => True).
Proof.
  intros Hrel Hp. apply (safe_update rel (fun r => set_rel_paths r (add_path (rel_paths r) p))); [done|].
  intros r Hr. by destruct (good_add r p Hr Hp) as (? & ? & ?).
Qed.

Lemma safe_gather rel : rel < n → safe (generate_gather_paths rel) (fun _ => True).
Proof.
  intros Hrel. unfold generate_gather_paths. eapply safe_bind; [by apply safe_rel|]. intros r _. destruct (partial_pathlist r) as [|p l]; [by apply safe_ret|].
  eapply (safe_bind _ _ (path_good c)).
  { unfold create_gather_path. eapply safe_bind; [by apply safe_rel|]. intros r' _. eapply safe_bind; [apply safe_fresh|]. intros id _.
    destruct (cost_gather _ _). by apply safe_ret. }
  intros gp Hgp. eapply safe_bind; [by apply safe_add_path_to|]. intros _ _.
  eapply (safe_foreach _ _ (fun _ => True)); [by apply Forall_true|]. intros sub _. destruct (pathkeys sub) as [|k keys]; [by apply safe_ret|].
  eapply (safe_bind _ _ (path_good c)); [|intros gm Hgm; by apply safe_add_path_to].
  unfold create_gather_merge_path. eapply safe_bind; [by apply safe_rel|]. intros r' _. eapply safe_bind; [apply safe_fresh|]. intros id _.
  destruct (if pathkeys_contained_in _ _ then _ else _). destruct (cost_gather_merge _ _ _ _). by apply safe_ret.
Qed.

Lemma finish_safe rel st :
  store_good st → has_at st rel →
  pm_ensures (finish_rel rel) st (fun _ st' => store_good st' ∧ store_step st st' ∧ best_at st' rel).
Proof.
  intros Hst (r0 & Hr0 & Hf0). assert (Hrel : rel < n) by (rewrite <- (sg_len st Hst); by eapply lookup_lt_Some).
  unfold finish_rel. apply pm_bind_rule. eapply pm_mono; [by apply safe_gather|]. intros _ st1 (Hst1 & Hs1 & _).
  destruct (has_at_step _ _ rel Hs1 ltac:(by exists r0)) as (r & Hr & Hf). apply (pm_rel_at rel r); [done|].
  assert (Hg : rel_good c r) by (by eapply (proj1 (Forall_lookup _ _) (sg_rels st1 Hst1))).
  pose proof (set_cheapest_good c exploring r (good_list _ _ Hg) (good_front _ _ Hg) (good_unique _ _ Hg) Hf) as H.
  apply pm_bind_rule. unfold pm_ensures at 1, pm_lift.
  replace (if exploring then set_cheapest_explore (rel_paths r) else set_cheapest (rel_paths r)) with (set_cheapest_with exploring (rel_paths r))
    by (by destruct exploring).
  destruct (set_cheapest_with _ _) as [rp|]; [|done]. destruct H as (Hgood & Hfree & Htot & Hpar & Hfront). cbn.
  assert (Hb : rel_best (set_rel_paths r rp)) by (split; [done | done | done | intros Hex; apply Hfront; by right]).
  eapply pm_mono; [apply (set_step st1 rel r); [done | done | done | by split]|]. intros _ st2 (H1 & H2 & E). split_and!; [done | by etrans|].
  exists (set_rel_paths r rp). split; [|done]. rewrite E. apply list_lookup_insert_eq. by eapply lookup_lt_Some.
Qed.
End generator.

(** ** The paths behind the search's interface *)
Section instance.
Context `{LM : !Libm} `{JC : !JoinCosts} (q : JoinProblem).

Definition run {A} (m : PM A) (st : PathStore) : res PathStore := '(_, st) ← m st; Ok st.

(** [add_paths_to_joinrel] on the relations of the search. *)
Definition add_paths_to_joinrel (rs : list JoinRel) (j o i : nat) (jt : JoinType) (sj : SpecialJoinInfo) (rl : list JoinClause) : PM () :=
  jr ← pm_lift (rd rs j);
  ro ← pm_lift (rd rs o);
  ri ← pm_lift (rd rs i);
  add_paths q (mkPair j o i (relids ro) (relids ri) (lateral_relids jr)) (relids jr) jt sj rl.

Definition begin_search (best_pred_cost : double) (st : PathStore) : PathStore :=
  mkPathStore (stores st) (next_path st) (nodes st) (dummies st) best_pred_cost.

(** Whether the cheapest path can be made unique. *)
Definition unique_rel (rel : nat) (sj : SpecialJoinInfo) : PM bool :=
  r ← pm_rel rel;
  p ← not_null (cheapest_total_path (rel_paths r));
  u ← create_unique_path rel p sj;
  mret (match u with Some _ => true | None => false end).

Definition no_paths (st : PathStore) (rel : nat) : bool :=
  match stores st !! rel with Some r => match pathlist (rel_paths r) with [] => true | _ => false end | None => false end.

#[export] Instance path_store_paths : JoinPaths PathStore := {|
  jp_begin := begin_search;
  jp_dummy := is_dummy;
  jp_nopaths := no_paths;
  jp_mark_dummy _ p rel := run (mark_dummy rel) p;
  jp_unique _ p rel sj := unique_rel rel sj p;
  jp_implied _ p a b i := Ok (implied_equalities a b i, p);
  jp_new _ p rel o i sj rl := run (new_store rel o i sj rl) p;
  jp_add rs p j o i jt sj rl := run (add_paths_to_joinrel rs j o i jt sj rl) p;
  jp_finish _ p rel := run (finish_rel rel) p
|}.

(** The path side knows the relations. *)
Definition nobody (k : nat) : Prop := False.
Definition no_unique (k : nat) (u : Path) : Prop := False.
Definition any_node (nd : JoinNode) : Prop := True.
Definition of_type (jt : JoinType) (nd : JoinNode) : Prop := jn_type nd = jt.
Definition paths_good (rs : list JoinRel) (st : PathStore) : Prop :=
  store_good (best_estimate_cost st) (length rs) nobody no_unique st ∧ Forall (fun r => bms_ok (relids r)) rs.

Lemma run_ensures {A} (m : PM A) st (Q : PathStore → Prop) : pm_ensures m st (fun _ st' => Q st') → ensures (run m st) Q.
Proof. unfold pm_ensures, run. by destruct (m st) as [[a st']|]. Qed.

Lemma step_keeps ok_node st st' : store_step ok_node st st' → keeps has_at best_at st st'.
Proof. intros H. split; intros k; [by eapply has_at_step | by eapply best_at_step]. Qed.

Lemma good_again rs ready made st st' :
  Forall (fun r => bms_ok (relids r)) rs → store_good (best_estimate_cost st) (length rs) ready made st' → paths_good rs st'.
Proof. intros Hrs [H1 H2 H3 _ _]. split; [|done]. rewrite H1. by split. Qed.

Lemma lift_rel rs k (f : JoinRel → PM ()) st Q :
  k < length rs → (∀ r, rs !! k = Some r → pm_ensures (f r) st Q) → pm_ensures (pm_lift (rd rs k) ≫= f) st Q.
Proof.
  intros Hk Hf. destruct (lookup_lt_is_Some_2 rs k Hk) as [r Hr]. apply pm_bind_rule. unfold pm_ensures at 1, pm_lift.
  rewrite (rd_some _ _ _ Hr). cbn. by apply Hf.
Qed.

(** The two inputs of a join are ready; every pair given to [add_paths] is in order. *)
Definition either (o i k : nat) : Prop := k = o ∨ k = i.

Lemma lift_pair rs st j o i jt sj rl Q :
  paths_good rs st → j < length rs → best_at st o → best_at st i →
  (∀ ro ri lateral joinrelids, pair_ok (length rs) (either o i) (mkPair j o i ro ri lateral) →
    pm_ensures (add_paths q (mkPair j o i ro ri lateral) joinrelids jt sj rl) st Q) →
  pm_ensures (add_paths_to_joinrel rs j o i jt sj rl) st Q.
Proof.
  intros [Hst Hrs] Hj Ho Hi H. assert (Hlt : ∀ k, best_at st k → k < length rs).
  { intros k (r & Hr & _). rewrite <- (sg_len _ _ _ _ _ Hst). by eapply lookup_lt_Some. }
  rewrite Forall_lookup in Hrs. unfold add_paths_to_joinrel. apply lift_rel; [done|]. intros jr Hjr.
  apply lift_rel; [by apply Hlt|]. intros ro Hro. apply lift_rel; [by apply Hlt|]. intros ri Hri.
  apply H. split; cbn; [done | by left | by right | by eapply Hrs | by eapply Hrs].
Qed.

Lemma pair_store_good rs st o i made :
  paths_good rs st → best_at st o → best_at st i → (∀ k u, made k u → unique_at st k u) →
  store_good (best_estimate_cost st) (length rs) (either o i) made st.
Proof. intros [[H1 H2 H3 _ _] _] Ho Hi Hm. split; [done | done | done | by intros k [-> | ->] | done]. Qed.

Lemma add_paths_law rs st j o i jt sj rl :
  paths_good rs st → j < length rs → best_at st o → best_at st i → plain jt →
  pm_ensures (add_paths_to_joinrel rs j o i jt sj rl) st (fun _ st' => paths_good rs st' ∧ store_step (of_type jt) st st' ∧ (nestjoinOK jt = true → has_at st' j)).
Proof.
  intros Hgood Hj Ho Hi Hp. apply lift_pair; [done..|]. intros ro ri lateral joinrelids Hok.
  pose proof (pair_store_good rs st o i no_unique Hgood Ho Hi ltac:(done)) as Hst.
  pose proof (safe_add_paths (best_estimate_cost st) _ _ no_unique (of_type jt) q _ joinrelids jt sj rl Hok Hp ltac:(done) st Hst) as H1.
  pose proof (add_paths_gives (best_estimate_cost st) _ _ no_unique (of_type jt) q _ joinrelids jt sj rl Hok Hp ltac:(done)) as H2.
  unfold gives, pm_ensures in *. destruct (add_paths _ _ _ _ _ _ _) as [[[] st']|] eqn:E; [|done]. destruct H1 as (Hg & Hs & _).
  split_and!; [by eapply good_again, Hg; apply Hgood | done | intros Hn; specialize (H2 Hn st Hst); by rewrite E in H2].
Qed.

Lemma new_law rs r st rel o i sj rl :
  paths_good rs st → bms_ok (relids r) →
  pm_ensures (new_store rel o i sj rl) st (fun _ st' => paths_good (rs ++ [r]) st' ∧ keeps has_at best_at st st').
Proof.
  intros [[_ Hn Hst _ _] Hrs] Hr. unfold new_store, pm_ensures. destruct (join_estimates _ _ _ _ _) as [[rows ev] parallel].
  set (new := mkRelPaths _ _ _ _ _ _). assert (Hnew : rel_good (best_estimate_cost st) new).
  { split; cbn; unfold front, param_paths; cbn; try done; by intros [? [=]]. }
  assert (Hl : ∀ k x, stores st !! k = Some x → (stores st ++ [new]) !! k = Some x) by (intros; by apply lookup_app_l_Some).
  split; [split; [split; cbn | by apply Forall_app_2; [|apply Forall_singleton]]|].
  - done.
  - by rewrite !length_app, Hn.
  - by apply Forall_app_2; [|apply Forall_singleton].
  - by intros k [].
  - by intros k u [].
  - split; intros k (x & Hx & ?); exists x; (split; [by apply Hl | done]).
Qed.

Lemma unique_law rs st rel sj :
  paths_good rs st → best_at st rel →
  pm_ensures (unique_rel rel sj) st (fun _ st' => paths_good rs st' ∧ keeps has_at best_at st st').
Proof.
  intros [Hst Hrs] (r & Hr & [_ _ [t Ht] _]). assert (Hrel : rel < length rs) by (rewrite <- (sg_len _ _ _ _ _ Hst); by eapply lookup_lt_Some).
  assert (Hg : rel_good (best_estimate_cost st) r) by (by eapply (proj1 (Forall_lookup _ _) (sg_rels _ _ _ _ _ Hst))).
  assert (Hgt : path_good (best_estimate_cost st) t) by (pose proof (good_total _ _ Hg) as H; by rewrite Ht in H).
  unfold unique_rel. apply (pm_rel_at rel r); [done|]. rewrite Ht. apply pm_bind_rule, pm_ret, pm_bind_rule.
  eapply pm_mono; [by apply (safe_unique (best_estimate_cost st) (length rs) nobody no_unique any_node)|].
  intros u st' (H1 & H2 & _). apply pm_ret. split; [by eapply good_again | by eapply step_keeps].
Qed.

#[export] Instance path_store_ok : JoinPathsOk PathStore.
Proof.
  refine {| jp_good := paths_good; jp_has := has_at; jp_best := best_at; jp_cost c st := Forall (rel_good c) (stores st) |}.
  - intros rs st j [Hst _] Hd. unfold jp_dummy, path_store_paths, is_dummy in Hd. destruct (stores st !! j) as [r|] eqn:Hr; [|done].
    exists r. split; [done|]. assert (Hg : rel_good (best_estimate_cost st) r) by (by eapply (proj1 (Forall_lookup _ _) (sg_rels _ _ _ _ _ Hst))).
    apply (good_lead _ _ Hg). by destruct (cheapest_total_path _).
  - intros c rs st [Hst Hrs] Hc. split; [split; [|done] | by split]. by split; [| apply Hst | |intros k []|].
  - intros rs st i sj Hgood Hi Hb. pose proof (unique_law rs st i sj Hgood Hb) as H. unfold pm_ensures in H. cbn.
    by destruct (unique_rel i sj st) as [[b st']|].
  - intros rs rs' st a b i Hgood _ _. split; [done | reflexivity].
  - intros rs r st o i sj rl Hgood Hr _ _. apply run_ensures. by apply new_law.
  - intros rs st j o i sj rl Hgood Hj _ _ Ho Hi _. apply run_ensures. eapply pm_mono; [by apply add_paths_law|].
    intros _ st' (? & ? & H). split_and!; [done | by eapply step_keeps | by apply H].
  - intros rs st j [Hst Hrs] Hj. apply run_ensures. eapply pm_mono; [by eapply (mark_dummy_safe _ _ _ _ any_node)|].
    intros _ st' (? & ? & ?). split_and!; [by eapply good_again | by eapply step_keeps | done].
  - intros rs st j [Hst Hrs] Hj Hhas. apply run_ensures. eapply pm_mono; [by eapply (finish_safe _ _ _ _ any_node)|].
    intros _ st' (? & ? & ?). split_and!; [by eapply good_again | by eapply step_keeps | done].
Defined.
End instance.

(** ** What the generator promises *)



(** ** Examples *)

(** Costs that are sums of the costs of the inputs, a merge or hash join ten dearer; three kinds of
    settings are on, a unique path costs twenty more. *)
Definition toy_costs_at (mode : Z) : JoinCosts := {|
  search_mode := mode;
  enable_mergejoin := true;
  enable_hashjoin := true;
  enable_material := false;
  prune_rate := d_of_Z 2;
  all_baserels := Some [14%Z];
  innerrel_is_unique _ _ _ _ := false;
  ec_must_be_redundant _ := false;
  select_outer_pathkeys_for_merge _ _ := [];
  find_mergeclauses_for_pathkeys _ _ _ := [];
  make_inner_pathkeys_for_merge _ keys := keys;
  truncate_useless_pathkeys _ _ := [];
  ppi_estimates _ _ := (d_of_Z 1, d_of_Z 0);
  initial_cost m _ _ op ip := (d_of_Z 0, (total_cost op + total_cost ip)%D);
  final_cost m _ _ _ op ip _ :=
    (d_of_Z 0, (total_cost op + total_cost ip + match m with NestLoop => d_of_Z 0 | _ => d_of_Z 10 end)%D);
  cost_material p := (startup_cost p, total_cost p);
  ExecMaterializesOutput _ := true;
  already_unique _ _ := false;
  estimate_num_groups _ rows := rows;
  path_width _ := 8%Z;
  work_mem := 4096%Z;
  cost_agg_hashed _ _ _ total _ := (total, (total + d_of_Z 20)%D);
  join_consider_startup := false;
  join_estimates _ _ _ _ _ := (d_of_Z 10, d_of_Z 0, false);
  implied_equalities _ _ _ := [];
  enable_gathermerge := true;
  parallel_setup_cost := d_of_Z 1000;
  parallel_tuple_cost := dlit 1 10;
  cpu_operator_cost := dlit 25 10000;
  cost_sort _ total _ _ := (total, (total + d_of_Z 30)%D)
|}.
Definition toy_costs : JoinCosts := toy_costs_at 2.

#[local] Existing Instance sample_libm.
#[local] Existing Instance toy_costs.

(** A base relation with one scan. *)
Definition scan_path (id : nat) : Path := mkPath id None [] true 0 (d_of_Z 10) (d_of_Z 0) (d_of_Z 100) (d_of_Z 1).
Definition base_rel (l : list Path) : RelPaths :=
  mkRelPaths (mkRel false false l (d_of_Z 100) (head l) (head l) l l) None true (d_of_Z 10) (d_of_Z 1) [].
Definition base_store : PathStore :=
  mkPathStore [base_rel [scan_path 0]; base_rel [scan_path 1]; base_rel [scan_path 2]] 3 [] [] (d_of_Z 0).

Lemma scan_good c id : rel_good c (base_rel [scan_path id]).
Proof.
  assert (H : path_good c (scan_path id)) by exact I.
  split; cbn; unfold front, param_paths; cbn; try (by apply Forall_singleton); try done. intros _. exists (scan_path id). split; [set_solver | done].
Qed.

Lemma base_best k : k < 3 → best_at base_store k.
Proof.
  intros Hk. assert (Hf : has_free [scan_path k]) by (exists (scan_path k); split; [set_solver | done]).
  exists (base_rel [scan_path k]). split; [by destruct k as [|[|[|k]]]; [..|lia]|]. by split; [| | eexists |].
Qed.

Lemma base_good : paths_good chain_rels base_store.
Proof. split; [split; [done | done | repeat (apply Forall_cons; split; [apply scan_good|]); constructor | by intros k [] | by intros k u []] | repeat constructor; lia]. Qed.

(** The chain of [JoinSearch] with these paths. *)
Definition chain_paths : Planner PathStore := mkPlanner chain_rels [] None None 0 base_store.

Lemma chain_paths_ok :
  start_ok (JP := path_store_paths chain_problem) (JO := path_store_ok chain_problem) chain_problem chain_iset chain_clauses chain_paths.
Proof.
  destruct chain_start_ok as [H1 H2 H3 _ _ _]. split; [exact H1 | exact H2 | exact H3 | exact I | exact base_good|].
  intros i Hi. apply base_best. cbn in Hi. rewrite !elem_of_cons, elem_of_nil in Hi. lia.
Qed.


(** The join of the first two, not built yet. *)
Definition pair_rels : list JoinRel := chain_rels ++ [mkJoinRel (Some [6%Z]) [chain_clause 1 12] false None None None].
Definition pair_store : PathStore :=
  mkPathStore (stores base_store ++ [mkRelPaths (mkRel false false [] d0 None None [] []) None true (d_of_Z 10) (d_of_Z 1) []]) 3 [] [] (d_of_Z 0).

Lemma pair_good : paths_good pair_rels pair_store.
Proof.
  split; [split; [done | done | apply Forall_app_2 | by intros k [] | by intros k u []] | repeat constructor; lia].
  - apply base_good.
  - apply Forall_singleton. split; cbn; unfold front, param_paths; cbn; try done; by intros [? [=]].
Qed.

Lemma pair_best k : k < 3 → best_at pair_store k.
Proof. intros Hk. destruct (base_best k Hk) as (r & Hr & H). exists r. split; [by apply lookup_app_l_Some | done]. Qed.

