(* ===== verification/JoinUnique.v ===== *)
(** * JoinUnique: what exploring changes for semijoins and prechecks

    A semijoin can be computed by making one input unique and joining as usual.  The
    exploring generator of [JoinPath] walks over fronts of paths where PostgreSQL
    has one cheapest path, and keeps a variable for whether an input still has to be
    made unique: this file says what that does. *)
From S2P Require Import Prelude Float64 HashAny Nodes Bitmapset BitmapOps PathUtils Paths JoinRels JoinSearch JoinPath JoinPathOk.
From stdpp Require Import strings.

(** ** Semijoins by unique inputs *)

(** When a join type needs nothing made unique, the loop over the inner front just
    tries every path. *)
Section fronts.
Context `{JC : !JoinCosts}.
Context (jp : JoinPair) (extra : JoinPathExtraData) (clauses : list JoinClause).

(** Neither input is parameterized by the other. *)
Definition apart (outers inners : list Path) : Prop :=
  Forall (fun p => PATH_PARAM_BY_REL p (inner_relids jp) = false) outers ∧
  Forall (fun p => PATH_PARAM_BY_REL p (outer_relids jp) = false) inners.

(** The value of the inner variable after the loop. *)
Definition last_inner (l : option Path) (inners : list Path) : option Path := foldl (fun _ p => Some p) l inners.

(** Every pair of two lists is tried as an inner join. *)
Definition all_pairs (outers inners : list Path) : PM () :=
  pm_foreach outers (fun op => pm_foreach inners (fun ip => try_hashjoin_path (jp_join jp) op ip clauses JOIN_INNER extra)).

Lemma hash_row op inners l st :
  PATH_PARAM_BY_REL op (inner_relids jp) = false → Forall (fun p => PATH_PARAM_BY_REL p (outer_relids jp) = false) inners →
  pm_fold inners (hash_pair jp extra clauses) (op, l, JOIN_INNER) st =
  (_ ← pm_foreach inners (fun ip => try_hashjoin_path (jp_join jp) op ip clauses JOIN_INNER extra); mret (op, last_inner l inners, JOIN_INNER) : PM _) st.
Proof.
  intros Ho Hi. revert l st. induction Hi as [|ip inners Hip Hl IH]; intros l st; [done|]. cbn [pm_fold pm_foreach]. cbv [mbind PM_bind].
  unfold hash_pair at 1. rewrite Ho, Hip. cbn [orb]. cbv [mbind PM_bind mret PM_ret].
  destruct (try_hashjoin_path _ _ _ _ _ _ _) as [[[] st']|]; [|done]. rewrite IH. cbv [mbind PM_bind mret PM_ret].
  by destruct (pm_foreach _ _ _) as [[]|].
Qed.

Lemma hash_fronts_cons op outers inners l jt st :
  hash_fronts jp extra clauses (op :: outers) inners (l, jt) st =
  ('(_, l, jt) ← pm_fold inners (hash_pair jp extra clauses) (op, l, jt); hash_fronts jp extra clauses outers inners (l, jt) : PM _) st.
Proof. unfold hash_fronts. cbn [pm_fold]. cbv [mbind PM_bind mret PM_ret]. by destruct (pm_fold inners _ _ st) as [[[[]]]|]. Qed.

Lemma hash_rows outers inners l st :
  apart outers inners → ∃ l', hash_fronts jp extra clauses outers inners (l, JOIN_INNER) st = (_ ← all_pairs outers inners; mret (l', JOIN_INNER) : PM _) st.
Proof.
  intros [Ho Hi]. revert l st. induction Ho as [|op outers Hop Hl IH]; intros l st; [by exists l|].
  destruct (pm_foreach inners (fun ip => try_hashjoin_path (jp_join jp) op ip clauses JOIN_INNER extra) st) as [[[] st']|e] eqn:E.
  - destruct (IH (last_inner l inners) st') as [l' H]. exists l'. rewrite hash_fronts_cons. unfold all_pairs. cbn [pm_foreach]. cbv [mbind PM_bind].
    rewrite hash_row by done. cbv [mbind PM_bind mret PM_ret]. rewrite E. exact H.
  - exists None. rewrite hash_fronts_cons. unfold all_pairs. cbn [pm_foreach]. cbv [mbind PM_bind].
    rewrite hash_row by done. cbv [mbind PM_bind mret PM_ret]. by rewrite E.
Qed.

Lemma hash_first op ip l st :
  PATH_PARAM_BY_REL op (inner_relids jp) = false → PATH_PARAM_BY_REL ip (outer_relids jp) = false →
  hash_pair jp extra clauses ip (op, l, JOIN_UNIQUE_OUTER) st =
  (u ← create_unique_path (jp_outer jp) op (ex_sjinfo extra);
   u ← not_null u;
   _ ← try_hashjoin_path (jp_join jp) u ip clauses JOIN_INNER extra;
   mret (u, Some ip, JOIN_INNER) : PM _) st.
Proof.
  intros Ho Hi. unfold hash_pair. rewrite Ho, Hi. cbn [orb]. cbv [mbind PM_bind].
  destruct (create_unique_path _ _ _ st) as [[[u|] st']|]; done.
Qed.

Lemma unique_apart op u st st' :
  PATH_PARAM_BY_REL op (inner_relids jp) = false →
  (∀ r u, stores st !! jp_outer jp = Some r → cheapest_unique_path r = Some u → PATH_PARAM_BY_REL u (inner_relids jp) = false) →
  create_unique_path (jp_outer jp) op (ex_sjinfo extra) st = Ok (Some u, st') → PATH_PARAM_BY_REL u (inner_relids jp) = false.
Proof.
  intros Ho Hu. unfold create_unique_path, pm_rel, rd. cbv [mbind PM_bind res_bind]. destruct (stores st !! jp_outer jp) as [r|] eqn:Hr; [|done].
  destruct (cheapest_unique_path r) as [u0|] eqn:Eu; [intros [= <- <-]; by eapply Hu|]. destruct (negb _); [done|].
  destruct (unique_estimates _ _ _ _) as [[[[rows startup] total] ordered]|]; [|done]. cbn. unfold pm_set, wr. cbn. rewrite Hr. cbn.
  intros [= <- _]. exact Ho.
Qed.
End fronts.

(** C34. The hash joins of a semijoin whose outer input has to be made unique: only the
    first path of the outer front is; the others are joined as they are, and as an
    inner join, so that their duplicates reach the result. *)
Theorem hash_unique_once `{JC : !JoinCosts} (jp : JoinPair) (extra : JoinPathExtraData) (clauses : list JoinClause) (op ip : Path)
    (outers inners : list Path) (st : PathStore) :
  apart jp (op :: outers) (ip :: inners) →
  (∀ r u, stores st !! jp_outer jp = Some r → cheapest_unique_path r = Some u → PATH_PARAM_BY_REL u (inner_relids jp) = false) →
  ∃ last,
    hash_fronts jp extra clauses (op :: outers) (ip :: inners) (None, JOIN_UNIQUE_OUTER) st =
    (u ← create_unique_path (jp_outer jp) op (ex_sjinfo extra);
     u ← not_null u;
     _ ← all_pairs jp extra clauses (u :: outers) (ip :: inners);
     mret (last, JOIN_INNER) : PM _) st.
Proof.
  intros [[Ho Hos]%Forall_cons Hi] Hu. pose proof Hi as [Hip Hips]%Forall_cons. rewrite hash_fronts_cons. cbn [pm_fold].
  cbv [mbind PM_bind]. rewrite hash_first by done. cbv [mbind PM_bind].
  destruct (create_unique_path _ _ _ st) as [[[u|] st']|] eqn:E; [|by exists None|by exists None]. cbn [not_null]. cbv [mret PM_ret].
  pose proof (unique_apart jp extra op u st st' Ho Hu E) as Hua. unfold all_pairs. cbn [pm_foreach]. cbv [mbind PM_bind].
  destruct (try_hashjoin_path _ _ _ _ _ _ _) as [[[] st1]|]; [|by exists None]. rewrite hash_row by done. cbv [mbind PM_bind mret PM_ret].
  destruct (pm_foreach inners _ _) as [[[] st2]|]; [|by exists None].
  destruct (hash_rows jp extra clauses outers (ip :: inners) (last_inner (Some ip) inners) st2) as [l H]; [done|]. exists l. exact H.
Qed.

#[local] Existing Instance sample_libm.
#[local] Existing Instance toy_costs.

(** The first relation has a second path, dearer and worth exploring; its join with the
    second relation is a semijoin computed by making the first unique. *)
Definition explore_path : Path := mkPath 7 None [] true 0 (d_of_Z 10) (d_of_Z 0) (d_of_Z 140) (d_of_Z 5).
Definition semi_sj : SpecialJoinInfo :=
  mkSJ (Some [4%Z]) (Some [2%Z]) (Some [4%Z]) (Some [2%Z]) JOIN_SEMI false false true true [] [].
Definition semi_extra : JoinPathExtraData := mkExtra [chain_clause 0 6] [] false semi_sj None.
Definition semi_store : PathStore :=
  mkPathStore (<[0 := base_rel [scan_path 0; explore_path]]> (stores pair_store)) 10 [] [] (d_of_Z 0).
Definition semi_pair : JoinPair := mkPair 3 0 1 (Some [2%Z]) (Some [4%Z]) None.

Lemma hash_unique_once_witness :
  ∃ last st', hash_fronts semi_pair semi_extra [] [scan_path 0; explore_path] [scan_path 1] (None, JOIN_UNIQUE_OUTER) semi_store = Ok (last, JOIN_INNER, st') ∧
    (jn_type <$> nodes st') = [JOIN_INNER; JOIN_INNER] ∧ (jn_outer <$> nodes st') = [10; path_id explore_path].
Proof.
  destruct (hash_unique_once semi_pair semi_extra [] (scan_path 0) (scan_path 1) [explore_path] [] semi_store) as [last H].
  - split; [apply Forall_cons; split; [reflexivity | apply Forall_singleton; reflexivity] | apply Forall_singleton; reflexivity].
  - intros r u [= <-] [=].
  - exists last. rewrite H. eexists. split; [vm_compute; reflexivity | split; reflexivity].
Defined.

(** The precheck of the exploring planner is given the explore values of the two
    inputs without the one of the join itself, which the finished path gets too: a
    join that adds to the knowledge can be refused before it is built although
    [add_path_explore] would keep it. *)
Theorem precheck_drops_exploration :
  ∃ (st : PathStore) (r : RelPaths) (op ip p : Path) (st' : PathStore),
    stores st !! 3 = Some r ∧
    create_join_path 3 NestLoop JOIN_INNER semi_extra op ip [] None st = Ok (p, st') ∧
    p ∈ pathlist (add_path_explore (rel_paths r) p (best_estimate_cost st) prune_rate) ∧
    try_path 3 NestLoop JOIN_INNER semi_extra op ip [] None st = Ok ((), st).
Proof.
  set (old := mkPath 8 None [] true 0 (d_of_Z 10) (d_of_Z 0) (d_of_Z 150) (d_of_Z 3)).
  set (r := mkRelPaths (mkRel false false [old] (d_of_Z 150) None None [] []) None true (d_of_Z 10) (d_of_Z 2) []).
  exists (mkPathStore (<[3 := r]> (stores pair_store)) 10 [] [] (d_of_Z 0)), r, (scan_path 0), (scan_path 1).
  eexists _, _. split; [reflexivity|]. split; [vm_compute; reflexivity|]. split.
  - vm_compute. repeat constructor.
  - vm_compute. reflexivity.
Qed.

(** The gather paths compete by [add_path], which does not look at explore values, and
    have none of their own: while exploring they drive out a path that is worth it. *)
Theorem gather_drops_exploration :
  ∃ (st st' : PathStore) (r' : RelPaths) (p : Path),
    exploring = true ∧ generate_gather_paths 3 st = Ok ((), st') ∧ stores st' !! 3 = Some r' ∧
    (∃ r, stores st !! 3 = Some r ∧ p ∈ pathlist (rel_paths r) ∧ explore_value p = d_of_Z 5) ∧
    (explore_value <$> pathlist (rel_paths r')) = [d0].
Proof.
  set (p := mkPath 8 None [] false 0 (d_of_Z 10) (d_of_Z 2000) (d_of_Z 9000) (d_of_Z 5)).
  set (part := mkPath 9 None [] true 2 (d_of_Z 5) (d_of_Z 0) (d_of_Z 4000) (d_of_Z 5)).
  set (r := mkRelPaths (mkRel false false [p] (d_of_Z 9000) None None [] []) None true (d_of_Z 10) (d_of_Z 2) [part]).
  exists (mkPathStore (<[3 := r]> (stores pair_store)) 10 [] [] (d_of_Z 0)). eexists _, _, p. split; [reflexivity|].
  split; [vm_compute; reflexivity|]. split; [reflexivity|]. split; [|vm_compute; reflexivity].
  exists r. split_and!; [reflexivity | constructor | reflexivity].
Qed.
