(* ===== verification/JoinSemi.v ===== *)
(** * JoinSemi: semijoins of PostgreSQL's own path generator

    When a semijoin is computed as an inner join, one input has to be made unique
    first.  The search makes the unique path before it asks for the paths of the join,
    and [create_unique_path] returns the one it made.  The routines of
    PostgreSQL that run when nothing is explored then build no join that leaves the
    input as it is: this is proved here.  [JoinUnique] shows that the exploring
    routines do not have this property. *)
From S2P Require Import Prelude Float64 HashAny Nodes Bitmapset BitmapOps PathUtils Paths JoinRels JoinSearch JoinPath JoinPathOk JoinUnique.
From stdpp Require Import strings.

(** ** The input that is made unique *)

(** The relation of the pair, and the join paths that may be built: inner joins with
    the unique path [u] on that side. *)
Definition unique_side (jt : JoinType) (o i : nat) : nat := match jt with JOIN_UNIQUE_OUTER => o | _ => i end.
Definition through (jt : JoinType) (u : Path) (nd : JoinNode) : Prop :=
  jn_type nd = JOIN_INNER ∧ match jt with JOIN_UNIQUE_OUTER => jn_outer nd | _ => jn_inner nd end = path_id u.

Section semi.
Context `{LM : !Libm} `{JC : !JoinCosts}.
Context (c : double) (n : nat) (ready : nat → Prop) (q : JoinProblem) (jp : JoinPair) (extra : JoinPathExtraData) (jt : JoinType) (u : Path).
Context (Hjp : pair_ok n ready jp) (Hu : path_good c u).

Definition side : nat := unique_side jt (jp_outer jp) (jp_inner jp).
Definition is_made (k : nat) (p : Path) : Prop := k = side ∧ p = u.

Abbreviation ok := (safe c n ready is_made (through jt u)).

(** The unique path is the one that was made. *)
Lemma safe_created rel p sj : rel = side → ok (create_unique_path rel p sj) (fun v => v = Some u).
Proof.
  intros -> st Hst. destruct (sg_made _ _ _ _ st Hst side u) as (r & Hr & Er); [done|].
  unfold create_unique_path. apply (pm_rel_at side r); [done|]. rewrite Er. apply pm_ret. split_and!; [done | reflexivity | done].
Qed.

Lemma safe_cached {A} rel p sj (k : Path → PM A) Q :
  rel = side → ok (k u) Q → ok (v ← create_unique_path rel p sj; v ← not_null v; k v) Q.
Proof.
  intros Hrel Hk. eapply safe_bind; [by apply safe_created|]. intros ? ->.
  eapply (safe_bind _ _ _ _ _ _ _ (eq u)); [by apply safe_ret|]. by intros ? <-.
Qed.

Lemma safe_cached_path rel p sj : rel = side → ok (v ← create_unique_path rel p sj; not_null v) (eq u).
Proof. intros Hrel. eapply safe_bind; [by apply safe_created|]. intros ? ->. by apply safe_ret. Qed.

(** Reading the three relations. *)
Lemma read_outer : ok (pm_rel (jp_outer jp)) (fun r => rel_good c r ∧ rel_best r).
Proof. apply safe_input, Hjp. Qed.
Lemma read_inner : ok (pm_rel (jp_inner jp)) (fun r => rel_good c r ∧ rel_best r).
Proof. apply safe_input, Hjp. Qed.
Lemma read_join : ok (pm_rel (jp_join jp)) (rel_good c).
Proof. apply safe_rel, Hjp. Qed.
Lemma read_total r : rel_good c r → rel_best r → ok (not_null (cheapest_total_path (rel_paths r))) (path_good c).
Proof. apply safe_total. Qed.

(** Joins of two paths that may be joined. *)
Abbreviation node := (node_ok (through jt u) JOIN_INNER).
Lemma join_nest op ip keys : path_good c op → path_good c ip → node op ip →
  ok (try_nestloop_path q (jp_join jp) (outer_relids jp) op ip keys JOIN_INNER extra) (fun _ => True).
Proof. intros. by apply safe_nestloop; [apply Hjp | apply Hjp|..]. Qed.
Lemma join_merge op ip keys mc ok' ik : path_good c op → path_good c ip → node op ip →
  ok (try_mergejoin_path (jp_join jp) op ip keys mc ok' ik JOIN_INNER extra false) (fun _ => True).
Proof. intros. by apply safe_mergejoin; [apply Hjp|..]. Qed.
Lemma join_merge_partial op ip keys mc ok' ik : node op ip →
  ok (try_mergejoin_path (jp_join jp) op ip keys mc ok' ik JOIN_INNER extra true) (fun _ => True).
Proof. intros. by apply safe_mergejoin; [apply Hjp|..]. Qed.
Lemma join_hash op ip hc : path_good c op → path_good c ip → node op ip →
  ok (try_hashjoin_path (jp_join jp) op ip hc JOIN_INNER extra) (fun _ => True).
Proof. intros. by apply safe_hashjoin; [apply Hjp|..]. Qed.
End semi.

(** *** The outer input is made unique *)
Section outer.
Context `{LM : !Libm} `{JC : !JoinCosts}.
Context (c : double) (n : nat) (ready : nat → Prop) (q : JoinProblem) (jp : JoinPair) (extra : JoinPathExtraData) (u : Path).
Context (Hjp : pair_ok n ready jp) (Hu : path_good c u).

Abbreviation ok := (safe c n ready (is_made jp JOIN_UNIQUE_OUTER u) (through JOIN_UNIQUE_OUTER u)).

Lemma outer_node ip : node_ok (through JOIN_UNIQUE_OUTER u) JOIN_INNER u ip.
Proof. by split. Qed.

(** Such a join has no partial paths. *)
Lemma outer_no_partial m : ok (parallel_pair jp JOIN_UNIQUE_OUTER m) (fun v => v = None).
Proof.
  unfold parallel_pair. eapply safe_bind; [by apply read_join|]. intros j _. eapply safe_bind; [by apply read_outer|]. intros o _.
  unfold parallel_join. rewrite andb_false_r. by apply safe_ret.
Qed.

Lemma outer_no_parallel inner : ok (match_parallel jp JOIN_UNIQUE_OUTER extra inner) (fun _ => True).
Proof.
  unfold match_parallel. eapply safe_bind; [by apply read_join|]. intros j _. eapply safe_bind; [by apply read_outer|]. intros o _.
  unfold parallel_join. rewrite andb_false_r. by apply safe_ret.
Qed.

Lemma outer_sort : ok (sort_inner_and_outer_origin jp JOIN_UNIQUE_OUTER extra) (fun _ => True).
Proof.
  unfold sort_inner_and_outer_origin. eapply safe_bind; [by apply read_outer|]. intros o [Ho Hbo].
  eapply safe_bind; [by apply read_inner|]. intros i [Hi Hbi]. eapply safe_bind; [by apply read_total|]. intros op Hop.
  eapply safe_bind; [by apply read_total|]. intros ip Hip. apply safe_if; [by apply safe_ret|].
  eapply (safe_bind _ _ _ _ _ _ _ (eq (u, ip, JOIN_INNER))); [by apply safe_cached; [|apply safe_ret]|]. intros ? <-.
  eapply safe_bind; [apply outer_no_partial|]. intros ? ->.
  eapply (safe_foreach _ _ _ _ _ _ _ (fun _ => True)); [by apply Forall_true|]. intros keys _.
  eapply safe_bind; [apply join_merge; auto using outer_node|]. intros _ _. by apply safe_ret.
Qed.

Lemma outer_hash : ok (hash_inner_and_outer_origin jp JOIN_UNIQUE_OUTER extra) (fun _ => True).
Proof.
  unfold hash_inner_and_outer_origin. destruct (hash_clauses _ _ _ _) as [|cl cls]; [by apply safe_ret|].
  eapply safe_bind; [by apply read_outer|]. intros o [Ho Hbo]. eapply safe_bind; [by apply read_inner|]. intros i [Hi Hbi].
  eapply safe_bind; [by apply read_total|]. intros op Hop. eapply safe_bind; [by apply read_total|]. intros ip Hip.
  apply safe_if; [by apply safe_ret|]. eapply (safe_bind _ _ _ _ _ _ _ (eq (ip, JOIN_INNER))).
  - apply safe_cached; [done|]. eapply safe_bind; [apply join_hash; auto using outer_node|]. intros _ _. by apply safe_ret.
  - intros ? <-. unfold hash_partial. eapply safe_bind; [apply outer_no_partial|]. intros ? ->. by apply safe_ret.
Qed.

Lemma outer_candidate_ok inner mat op :
  good_opt c inner → good_opt c mat →
  ok (outer_candidate_origin q jp JOIN_UNIQUE_OUTER JOIN_INNER extra inner mat op) (fun _ => True).
Proof.
  intros Hgi Hgm. unfold outer_candidate_origin. apply safe_if; [by apply safe_ret|]. eapply safe_bind; [by apply read_outer|]. intros o _.
  rewrite bool_decide_eq_true_2 by done. apply safe_if; [by apply safe_ret|].
  eapply (safe_bind _ _ _ _ _ _ _ (eq u)); [by apply safe_cached_path|]. intros ? <-.
  eapply (safe_bind _ _ _ _ _ _ _ (fun _ => True)); [|intros _ _; by apply safe_ret].
  eapply safe_bind; [by apply read_inner|]. intros i [Hi _].
  eapply (safe_bind _ _ _ _ _ _ _ (fun _ => True)).
  - eapply safe_foreach; [apply (good_params _ _ Hi)|]. intros ip Hip. apply join_nest; auto using outer_node.
  - intros _ _. destruct mat; [apply join_nest; auto using outer_node | by apply safe_ret].
Qed.

Lemma outer_match : ok (match_unsorted_outer_origin q jp JOIN_UNIQUE_OUTER extra) (fun _ => True).
Proof.
  unfold match_unsorted_outer_origin. eapply safe_bind; [by apply read_inner|]. intros i [Hi Hb].
  eapply safe_bind; [by apply read_total|]. intros p Hp.
  eapply safe_bind; [eapply safe_inner_origin; [done | done | by destruct (PATH_PARAM_BY_REL _ _)]|].
  intros [inner mat] [H1 H2]. apply safe_if; [by apply safe_ret|]. eapply safe_bind; [by apply read_outer|]. intros o _.
  eapply safe_bind; [|intros _ _; apply outer_no_parallel].
  eapply (safe_foreach _ _ _ _ _ _ _ (fun _ => True)); [by apply Forall_true|]. intros op _. by apply outer_candidate_ok.
Qed.
End outer.

(** *** The inner input is made unique *)
Section inner.
Context `{LM : !Libm} `{JC : !JoinCosts}.
Context (c : double) (n : nat) (ready : nat → Prop) (q : JoinProblem) (jp : JoinPair) (extra : JoinPathExtraData) (u : Path).
Context (Hjp : pair_ok n ready jp) (Hu : path_good c u).

Abbreviation ok := (safe c n ready (is_made jp JOIN_UNIQUE_INNER u) (through JOIN_UNIQUE_INNER u)).

Lemma inner_node op : node_ok (through JOIN_UNIQUE_INNER u) JOIN_INNER op u.
Proof. by split. Qed.
#[local] Hint Resolve inner_node : core.

(** The partner of a partial path is the unique one. *)
Lemma inner_partial m : ok m (eq u) → ok (parallel_pair jp JOIN_UNIQUE_INNER m) (fun v => from_option (fun p => p.2 = u) True v).
Proof.
  intros Hm. unfold parallel_pair. eapply safe_bind; [by apply read_join|]. intros j _. eapply safe_bind; [by apply read_outer|]. intros o _.
  apply safe_if; [|by apply safe_ret]. eapply safe_bind; [exact Hm|]. intros ? <-. eapply safe_bind; [by apply read_inner|]. intros i _.
  apply safe_ret. unfold safe_inner. rewrite bool_decide_eq_true_2 by done.
  destruct (partial_pathlist o); [done|]. by destruct (parallel_safe u).
Qed.

Lemma inner_sort : ok (sort_inner_and_outer_origin jp JOIN_UNIQUE_INNER extra) (fun _ => True).
Proof.
  unfold sort_inner_and_outer_origin. eapply safe_bind; [by apply read_outer|]. intros o [Ho Hbo].
  eapply safe_bind; [by apply read_inner|]. intros i [Hi Hbi]. eapply safe_bind; [by apply read_total|]. intros op Hop.
  eapply safe_bind; [by apply read_total|]. intros ip Hip. apply safe_if; [by apply safe_ret|].
  eapply (safe_bind _ _ _ _ _ _ _ (eq (op, u, JOIN_INNER))); [by apply safe_cached; [|apply safe_ret]|]. intros ? <-.
  eapply safe_bind; [by apply inner_partial, safe_ret|]. intros partial Hpartial.
  eapply (safe_foreach _ _ _ _ _ _ _ (fun _ => True)); [by apply Forall_true|]. intros keys _.
  eapply safe_bind; [by apply join_merge|]. intros _ _. unfold sort_partial. destruct partial as [[po pi]|]; [|by apply safe_ret].
  cbn in Hpartial. subst pi. unfold try_partial_mergejoin_path. apply safe_if; [by apply safe_ret|]. by apply safe_try_partial; [apply Hjp|].
Qed.

Lemma inner_hash_partial clauses : ok (hash_partial jp JOIN_UNIQUE_INNER JOIN_INNER extra clauses (Some u)) (fun _ => True).
Proof.
  unfold hash_partial. eapply safe_bind; [by apply inner_partial, safe_ret|]. intros [[po pi]|] Hp; [|by apply safe_ret].
  cbn in Hp. subst pi. by apply safe_partial_hashjoin; [apply Hjp|].
Qed.

Lemma inner_hash : ok (hash_inner_and_outer_origin jp JOIN_UNIQUE_INNER extra) (fun _ => True).
Proof.
  unfold hash_inner_and_outer_origin. destruct (hash_clauses _ _ _ _) as [|cl cls]; [by apply safe_ret|].
  eapply safe_bind; [by apply read_outer|]. intros o [Ho Hbo]. eapply safe_bind; [by apply read_inner|]. intros i [Hi Hbi].
  eapply safe_bind; [by apply read_total|]. intros op Hop. eapply safe_bind; [by apply read_total|]. intros ip Hip.
  apply safe_if; [by apply safe_ret|]. eapply (safe_bind _ _ _ _ _ _ _ (eq (u, JOIN_INNER))); [|intros ? <-; apply inner_hash_partial].
  apply safe_cached; [done|]. eapply safe_bind; [by apply join_hash|]. intros _ _.
  eapply (safe_bind _ _ _ _ _ _ _ (fun _ => True)); [|intros _ _; by apply safe_ret].
  pose proof (good_startup _ _ Ho) as Hs. destruct (cheapest_startup_path _); [|by apply safe_ret].
  apply safe_if; [by apply safe_ret | by apply join_hash].
Qed.

(** The joins by order stop after the unique path. *)
Lemma inner_generate op useall keys partial : path_good c op ∨ partial = true →
  ok (generate_mergejoin_paths jp op JOIN_UNIQUE_INNER extra useall u keys partial) (fun _ => True).
Proof.
  intros Hop. unfold generate_mergejoin_paths. apply safe_if; [by apply safe_ret|]. apply safe_if; [by apply safe_ret|].
  eapply safe_bind; [|intros _ _; rewrite bool_decide_eq_true_2 by done; by apply safe_ret].
  destruct partial; [by apply join_merge_partial | by apply join_merge; [| destruct Hop | |]].
Qed.

Lemma inner_parallel : ok (match_parallel jp JOIN_UNIQUE_INNER extra (Some u)) (fun _ => True).
Proof.
  unfold match_parallel. eapply safe_bind; [by apply read_join|]. intros j _. eapply safe_bind; [by apply read_outer|]. intros o _.
  apply safe_if; [|by apply safe_ret]. eapply (safe_bind _ _ _ _ _ _ _ (fun _ => True)).
  - unfold consider_parallel_nestloop. eapply safe_bind; [by apply read_outer|]. intros o' _. eapply safe_bind; [by apply read_inner|]. intros i _.
    eapply (safe_foreach _ _ _ _ _ _ _ (fun _ => True)); [by apply Forall_true|]. intros op _.
    eapply (safe_foreach _ _ _ _ _ _ _ (fun _ => True)); [by apply Forall_true|]. intros ip _. apply safe_if; [by apply safe_ret|].
    rewrite bool_decide_eq_true_2 by done. apply safe_if; [by apply safe_ret|]. apply safe_cached; [done|].
    by apply safe_partial_nestloop; [apply Hjp|].
  - intros _ _. apply safe_if; [|rewrite bool_decide_eq_true_2 by done; by apply safe_ret].
    unfold consider_parallel_mergejoin. eapply safe_bind; [by apply read_outer|]. intros o' _.
    eapply (safe_foreach _ _ _ _ _ _ _ (fun _ => True)); [by apply Forall_true|]. intros op _. apply inner_generate. by right.
Qed.

Lemma inner_candidate_ok op : path_good c op →
  ok (outer_candidate_origin q jp JOIN_UNIQUE_INNER JOIN_INNER extra (Some u) None op) (fun _ => True).
Proof.
  intros Hop. unfold outer_candidate_origin. apply safe_if; [by apply safe_ret|]. eapply safe_bind; [by apply read_outer|]. intros o _.
  rewrite bool_decide_eq_false_2 by done. cbn [andb]. eapply (safe_bind _ _ _ _ _ _ _ (eq op)); [by apply safe_ret|]. intros ? <-.
  rewrite bool_decide_eq_true_2 by done. eapply (safe_bind _ _ _ _ _ _ _ (fun _ => True)).
  - eapply (safe_bind _ _ _ _ _ _ _ (eq u)); [by apply safe_ret|]. intros ? <-. by apply join_nest.
  - intros _ _. apply inner_generate. by left.
Qed.

Lemma inner_match : ok (match_unsorted_outer_origin q jp JOIN_UNIQUE_INNER extra) (fun _ => True).
Proof.
  unfold match_unsorted_outer_origin. eapply safe_bind; [by apply read_inner|]. intros i [Hi Hb].
  eapply safe_bind; [by apply read_total|]. intros p Hp.
  eapply (safe_bind _ _ _ _ _ _ _ (fun v => v = (None, None) ∨ v = (Some u, None))).
  { unfold inner_origin. rewrite bool_decide_eq_true_2 by done. destruct (PATH_PARAM_BY_REL _ _); [apply safe_ret; by left|].
    apply safe_cached; [done|]. apply safe_ret. by right. }
  intros ? [-> | ->]; rewrite bool_decide_eq_true_2 by done; cbn [andb]; [by apply safe_ret|].
  eapply safe_bind; [by apply read_outer|]. intros o [Ho _]. eapply safe_bind; [|intros _ _; apply inner_parallel].
  eapply safe_foreach; [apply (good_list _ _ Ho)|]. intros op Hop. by apply inner_candidate_ok.
Qed.
End inner.

(** ** All the paths of the join *)
Lemma semi_paths `{LM : !Libm} `{JC : !JoinCosts} c n ready q jp jt u joinrelids sj rl :
  pair_ok n ready jp → path_good c u → exploring = false → jt = JOIN_UNIQUE_OUTER ∨ jt = JOIN_UNIQUE_INNER →
  safe c n ready (is_made jp jt u) (through jt u) (add_paths q jp joinrelids jt sj rl) (fun _ => True).
Proof.
  intros Hjp Hu Hex Hjt. unfold add_paths. destruct (if enable_mergejoin || _ then _ else _) as [mc allowed]. rewrite Hex.
  eapply (safe_bind _ _ _ _ _ _ _ (fun _ => True)).
  { apply safe_if; [|by apply safe_ret]. destruct Hjt as [-> | ->]; [by apply outer_sort | by apply inner_sort]. }
  intros _ _. eapply (safe_bind _ _ _ _ _ _ _ (fun _ => True)).
  { apply safe_if; [|by apply safe_ret]. destruct Hjt as [-> | ->]; [by apply outer_match | by apply inner_match]. }
  intros _ _. apply safe_if; [|by apply safe_ret]. destruct Hjt as [-> | ->]; [by apply outer_hash | by apply inner_hash].
Qed.

(** C11. A semijoin computed by making an input unique, in PostgreSQL's own generator: once
    the search has made the unique path [u] of that input, [add_paths_to_joinrel] never
    follows a null pointer, keeps the paths well formed, and every join path it builds
    (nested loop, merge or hash join, partial ones too) is an inner join that has
    [u] on that side, so that no duplicates of the input reach the result. *)
Theorem semijoin_unique `{LM : !Libm} `{JC : !JoinCosts} (q : JoinProblem) (rs : list JoinRel) (st : PathStore) (j o i : nat) (jt : JoinType)
    (u : Path) (sj : SpecialJoinInfo) (rl : list JoinClause) :
  paths_good rs st → j < length rs → best_at st o → best_at st i → exploring = false →
  jt = JOIN_UNIQUE_OUTER ∨ jt = JOIN_UNIQUE_INNER → unique_at st (unique_side jt o i) u →
  ∃ st', add_paths_to_joinrel q rs j o i jt sj rl st = Ok ((), st') ∧ paths_good rs st' ∧ store_step (through jt u) st st'.
Proof.
  intros Hgood Hj Ho Hi Hex Hjt Hu.
  assert (Hgu : path_good (best_estimate_cost st) u).
  { destruct Hu as (r & Hr & Er). pose proof (proj1 (Forall_lookup _ _) (sg_rels _ _ _ _ _ (proj1 Hgood)) _ _ Hr) as Hg.
    pose proof (good_unique _ _ Hg) as H. by rewrite Er in H. }
  assert (H : pm_ensures (add_paths_to_joinrel q rs j o i jt sj rl) st (fun _ st' => paths_good rs st' ∧ store_step (through jt u) st st')).
  { apply lift_pair; [done..|]. intros ro ri lateral joinrelids Hok.
    eapply pm_mono; [eapply (semi_paths (best_estimate_cost st)); [exact Hok | exact Hgu | exact Hex | exact Hjt|]|].
    - apply pair_store_good; [done..|]. by intros k p [-> ->].
    - intros _ st' (H1 & H2 & _). split; [by eapply good_again, H1; apply Hgood | done]. }
  unfold pm_ensures in H. destruct (add_paths_to_joinrel _ _ _ _ _ _ _ _ _) as [[[] st']|]; [by exists st' | done].
Qed.

(** ** Example *)
#[local] Existing Instance sample_libm.
#[local] Instance quiet_costs : JoinCosts := toy_costs_at 0.

(** The semijoin of [JoinUnique] by a hashable clause, its outer input made unique before. *)
Definition unique_path : Path := mkPath 9 None [] true 0 (d_of_Z 5) (d_of_Z 0) (d_of_Z 120) (d_of_Z 1).
Definition hash_clause : JoinClause :=
  mkJoinClause 0 (mkRestrictInfo (TextNode []) (Some [2%Z]) (Some [4%Z]) (d_of_Z 1) (d_of_Z 1)) (Some [6%Z]) false true [] 96.
Definition unique_store : PathStore := mkPathStore (<[0 := set_unique (base_rel [scan_path 0]) unique_path]> (stores pair_store)) 10 [] [] (d_of_Z 0).

Lemma unique_store_good : paths_good pair_rels unique_store.
Proof.
  split; [|apply pair_good]. split; [done | done | | by intros k [] | by intros k p []]. cbn. apply Forall_cons. split; [|apply Forall_cons].
  - destruct (scan_good (d_of_Z 0) 0). by split.
  - split; [apply scan_good|]. pose proof (sg_rels _ _ _ _ _ (proj1 pair_good)) as H. cbn in H. by do 2 apply Forall_cons in H as [_ H].
Qed.

Lemma unique_store_best k : k < 2 → best_at unique_store k.
Proof.
  intros Hk. assert (Hf : has_free [scan_path k]) by (exists (scan_path k); split; [set_solver | done]).
  destruct k as [|[|k]]; [..|lia]; (eexists; split; [reflexivity|]; by split; [| | eexists |]).
Qed.

Lemma semijoin_unique_witness :
  ∃ st', add_paths_to_joinrel chain_problem pair_rels 3 0 1 JOIN_UNIQUE_OUTER semi_sj [hash_clause] unique_store = Ok ((), st') ∧
    paths_good pair_rels st' ∧ ((fun nd => (jn_method nd, jn_type nd, jn_outer nd)) <$> nodes st') = [(NestLoop, JOIN_INNER, 9); (HashJoin [hash_clause], JOIN_INNER, 9)].
Proof.
  destruct (semijoin_unique chain_problem pair_rels unique_store 3 0 1 JOIN_UNIQUE_OUTER unique_path semi_sj [hash_clause])
    as (st' & E & Hg & _).
  - exact unique_store_good.
  - cbn. lia.
  - apply unique_store_best. lia.
  - apply unique_store_best. lia.
  - reflexivity.
  - by left.
  - eexists. split; reflexivity.
  - exists st'. split; [exact E|]. split; [exact Hg|]. vm_compute in E. injection E as <-. reflexivity.
Defined.
