(* ===== verification/Postprocess.v ===== *)
(** * Postprocess: learning from executed plans

    contrib/aqo/postprocessing.c: when a query starts, its context is kept in the
    query environment (src/backend/utils/misc/queryenvironment.c); when it ends,
    the context is taken back, the tree of executed plan nodes is walked, and each
    node with its clauses, selectivities and relations is learned. *)
From S2P Require Import Prelude Float64 Nodes HashText HashEclass Fss Knn PgArray LwprModel PgState Storage StorageLwpr LwprUpdate LwprPredict SelectivityCache Bitmapset Costs Learning Preprocess PathUtils.
From stdpp Require Import strings.

(** ** Times *)

(** The loop of [INSTR_TIME_SUBTRACT]; a normalised time needs one turn. *)
Fixpoint normalize_time (fuel : nat) (t : instr_time) : res instr_time :=
  if (tv_nsec t <? 0)%Z then
    match fuel with
    | O => Err Fault_fuel
    | S fuel => normalize_time fuel (mkTime (tv_sec t - 1) (tv_nsec t + 1000000000))
    end
  else Ok t.

Definition INSTR_TIME_SUBTRACT (x y : instr_time) : res instr_time :=
  normalize_time 1 (mkTime (tv_sec x - tv_sec y) (tv_nsec x - tv_nsec y)).

Definition INSTR_TIME_GET_DOUBLE (t : instr_time) : double :=
  (d_of_Z (tv_sec t) + d_of_Z (tv_nsec t) / d_of_Z 1000000000)%D.

(** ** The query environment *)
Inductive enr_data : Type := AQOData (q : QueryContextData) | OtherData.
Record EphemeralNamedRelation : Type := mkENR { enr_name : string; reldata : enr_data }.

(** The list of named relations, [None] for no environment. *)
Definition QueryEnvironment : Type := option (list EphemeralNamedRelation).
Definition create_queryEnv : list EphemeralNamedRelation := [].
Definition register_ENR (env : list EphemeralNamedRelation) (enr : EphemeralNamedRelation) : list EphemeralNamedRelation := env ++ [enr].

Fixpoint find_enr (env : list EphemeralNamedRelation) (name : string) : option (nat * EphemeralNamedRelation) :=
  match env with
  | [] => None
  | enr :: env =>
      if String.eqb (enr_name enr) name then Some (0, enr)
      else match find_enr env name with Some (i, e) => Some (S i, e) | None => None end
  end.

Definition get_ENR (env : QueryEnvironment) (name : string) : option EphemeralNamedRelation :=
  match env with None => None | Some l => snd <$> find_enr l name end.

(** [list_delete] removes the relation that was found. *)
Definition unregister_ENR (env : list EphemeralNamedRelation) (name : string) : list EphemeralNamedRelation :=
  match find_enr env name with Some (i, _) => delete i env | None => env end.

Definition AQOPrivateData : string := "AQOPrivateData".

Definition StoreToQueryContext (env : QueryEnvironment) : PG QueryEnvironment :=
  q ← q_get id;
  let l := match env with None => create_queryEnv | Some l => l end in
  mret (Some (register_ENR l (mkENR AQOPrivateData (AQOData q)))).

Definition ExtractFromQueryContext (env : QueryEnvironment) : PG bool :=
  match get_ENR env AQOPrivateData with
  | None => mret false
  | Some enr =>
      match reldata enr with
      | AQOData q => q_modify (fun _ => q);; mret true
      | OtherData => pg_throw Fault_conv
      end
  end.

Definition RemoveFromQueryContext (env : QueryEnvironment) : QueryEnvironment :=
  match env with None => None | Some l => Some (unregister_ENR l AQOPrivateData) end.

(** ** The start of an execution *)
Definition EXEC_FLAG_EXPLAIN_ONLY : Z := 1.
Definition INSTRUMENT_ROWS : Z := 4.

Definition set_planning_time (t : double) (q : QueryContextData) : QueryContextData :=
  let '(mkContext qh la ua fh at_ cs aq eo ea ts _ cq di nf cf be bp) := q in
  mkContext qh la ua fh at_ cs aq eo ea ts t cq di nf cf be bp.
Definition set_explain_only (b : bool) (q : QueryContextData) : QueryContextData :=
  let '(mkContext qh la ua fh at_ cs aq _ ea ts pt cq di nf cf be bp) := q in
  mkContext qh la ua fh at_ cs aq b ea ts pt cq di nf cf be bp.

(** Returns the options of the instrumentation and the query environment. *)
Definition aqo_ExecutorStart (now : instr_time) (eflags instrument_options : Z) (env : QueryEnvironment) : PG (Z * QueryEnvironment) :=
  start ← q_get query_starttime;
  elapsed ← pg_lift (INSTR_TIME_SUBTRACT now start);
  q_modify (set_planning_time (INSTR_TIME_GET_DOUBLE elapsed));;
  q_modify (set_explain_only (negb (Z.land eflags EXEC_FLAG_EXPLAIN_ONLY =? 0)%Z));;
  q ← q_get id;
  let options := if learn_aqo q && negb (explain_only q) then Z.lor instrument_options INSTRUMENT_ROWS else instrument_options in
  env ← StoreToQueryContext env;
  mret (options, env).

(** ** Executed plans *)
Record Plan : Type := mkPlan {
  plan_rows : double;
  had_path : bool;
  path_clauses : list RestrictInfo;
  path_relids : list Z;
  path_jointype : JoinType;
  path_parallel_workers : Z;
  was_parametrized : bool
}.

Record Instrumentation : Type := mkInstr {
  running : bool;
  starttime : instr_time;
  counter : instr_time;
  firsttuple : double;
  tuplecount : double;
  startup : double;
  total : double;
  ntuples : double;
  nloops : double
}.

(** A plan node with its sub-plans (what the [SubPlanState]s point to) and its two
    subtrees. *)
Inductive PlanState : Type :=
| mkPlanState (plan : Plan) (instrument : option Instrumentation) (subPlan : list PlanState) (lefttree righttree : option PlanState).

Definition INSTR_TIME_IS_ZERO (t : instr_time) : bool := (tv_nsec t =? 0)%Z && (tv_sec t =? 0)%Z.

Definition InstrEndLoop (instr : Instrumentation) : res Instrumentation :=
  if negb (running instr) then Ok instr
  else if negb (INSTR_TIME_IS_ZERO (starttime instr)) then Err (Fault_elog "InstrEndLoop called on running node"%string)
  else
    let totaltime := INSTR_TIME_GET_DOUBLE (counter instr) in
    Ok (mkInstr false (mkTime 0 0) (mkTime 0 0) d0 d0 (startup instr + firsttuple instr)%D (total instr + totaltime)%D
          (ntuples instr + tuplecount instr)%D (nloops instr + d_of_Z 1)%D).

(** What [aqo_copy_generic_path_info] writes into the plan node of a path. *)
Definition aqo_copy_generic_path_info (root : PlannerInfo) (dest : Plan) (src : PathNode) : res Plan :=
  if had_path dest then Ok dest
  else
    let head := match src with JoinPath _ h _ _ _ _ => h | WrapPath _ h _ => h | OtherPath h => h end in
    let '(clauses, jointype) :=
      match src with
      | JoinPath _ _ jt c _ _ => (c, jt)
      | _ => (baserestrictinfo head ++ default [] (param_info head), JOIN_INNER)
      end in
    relids ← get_list_of_relids root (parent_relids head);
    Ok (mkPlan (plan_rows dest) true clauses relids jointype (parallel_workers head) (bool_decide (is_Some (param_info head)))).

(** The list of selectivities the clauses were planned with. *)
Definition restore_selectivities (objects : list Entry) (clauselist : list RestrictInfo) (relidslist : list Z) (join_type : JoinType)
    (was_parametrized : bool) : res (list double) :=
  let own rinfo := if bool_decide (join_type = JOIN_INNER) then norm_selec rinfo else outer_selec rinfo in
  match was_parametrized, relidslist with
  | true, [cur_relid] =>
      '(args_hash, eclass_hash) ← get_eclasses (clause <$> clauselist);
      mapM (fun rinfo =>
        cur_hash ← get_clause_hash2 (clause rinfo) args_hash eclass_hash;
        Ok (match selectivity_cache_find_global_relid objects cur_hash cur_relid with
            | Some sel => sel
            | None => own rinfo
            end)) clauselist
  | _, _ => Ok (own <$> clauselist)
  end.

(** The three lists the walk collects. *)
Record collected : Type := mkCollected {
  clauselist : list RestrictInfo;
  selectivities : list double;
  relidslist : list Z
}.

Definition nothing : collected := mkCollected [] [] [].

Definition list_concat3 (a b : collected) : collected :=
  mkCollected (clauselist a ++ clauselist b) (selectivities a ++ selectivities b) (relidslist a ++ relidslist b).

(** The number of rows to learn. *)
Definition learn_rows_of (i : Instrumentation) (workers : Z) (leaf : bool) : double :=
  let one := d_of_Z 1 in
  if (nloops i >=? dlit 1 2)%D then
    let learn_rows := (ntuples i / nloops i)%D in
    let learn_rows := if (0 <? workers)%Z && leaf then (learn_rows * d_of_Z (to_int32 (workers + 1)))%D else learn_rows in
    if (learn_rows <? one)%D then one else learn_rows
  else one.

Section collect.
Context `{Cluster} `{Libm} `{Palloc} `{Scratch} (objects : list Entry).

(** The node itself, after its subtrees: [leaf] says that it has none, [has_right]
    that it has a right one. *)
Definition collect_node (plan : Plan) (instrument : option Instrumentation) (leaf has_right : bool) (acc : collected) (s : learn_stats)
  : PG (collected * learn_stats) :=
  if had_path plan then
    cur_selectivities ← pg_lift (restore_selectivities objects (path_clauses plan) (path_relids plan) (path_jointype plan) (was_parametrized plan));
    let temp := mkCollected (path_clauses plan ++ clauselist acc) (cur_selectivities ++ selectivities acc)
                  (if decide (path_relids plan = []) then relidslist acc else path_relids plan) in
    match instrument with
    | Some i =>
        if has_right || leaf || bool_decide (path_clauses plan ≠ []) then
          i ← pg_lift (InstrEndLoop i);
          let learn_rows := learn_rows_of i (path_parallel_workers plan) leaf in
          if negb (deq (ntuples i) d0 && deq (nloops i) d0) then
            '(s, flag) ← learn_sample_rfwr (clause <$> clauselist temp) (selectivities temp) (relidslist temp) learn_rows (plan_rows plan) s;
            mret (if (flag =? 1)%Z then temp else acc, s)
          else mret (temp, s)
        else mret (acc, s)
    | None => mret (acc, s)
    end
  else mret (acc, s).

Fixpoint collect_planstat (p : PlanState) (other_plans : list PlanState) (acc : collected) (s : learn_stats)
  : PG (list PlanState * collected * learn_stats) :=
  match p with
  | mkPlanState plan instrument subPlan lefttree righttree =>
      let other_plans := other_plans ++ subPlan in
      match lefttree, righttree with
      | None, Some _ => mret (other_plans, acc, s)
      | None, None =>
          '(acc, s) ← collect_node plan instrument true false acc s;
          mret (other_plans, acc, s)
      | Some l, None =>
          '(other_plans, acc, s) ← collect_planstat l other_plans acc s;
          '(acc, s) ← collect_node plan instrument false false acc s;
          mret (other_plans, acc, s)
      | Some l, Some r =>
          '(other_plans, acc, s) ← collect_planstat l other_plans acc s;
          '(other_plans, cur, s) ← collect_planstat r other_plans nothing s;
          '(acc, s) ← collect_node plan instrument false true (list_concat3 cur acc) s;
          mret (other_plans, acc, s)
      end
  end.

(** [while (list_length(other_plans) != 0)] *)
Fixpoint walk_plans (fuel : nat) (other_plans : list PlanState) (acc : collected) (s : learn_stats) : PG learn_stats :=
  match other_plans with
  | [] => mret s
  | to_walk :: _ =>
      match fuel with
      | O => pg_throw Fault_fuel
      | S fuel =>
          '(other_plans, acc, s) ← collect_planstat to_walk other_plans acc s;
          walk_plans fuel (tail other_plans) acc s
      end
  end.
End collect.

(** The number of plan nodes. *)
Fixpoint plan_size (p : PlanState) : nat :=
  let size_o o := match o with Some q => plan_size q | None => 0 end in
  match p with
  | mkPlanState _ _ subs l r => S (foldr (fun q k => plan_size q + k) 0 subs + (size_o l + size_o r))
  end.

Section learn_query_stat.
Context `{Cluster} `{Libm} `{Palloc} `{Scratch} (aqo_mode : AqoMode).

(** The walk takes at most one turn for each plan node. *)
Definition learn_plans (objects : list Entry) (planstate : PlanState) : PG unit :=
  learn ← q_get learn_aqo;
  if learn : bool then _ ← walk_plans objects (plan_size planstate) [planstate] nothing (mkStats d0 0); mret tt else mret tt.

Definition record_costs (now : instr_time) : PG unit :=
  q ← q_get id;
  if collect_stat q then
    elapsed ← pg_lift (INSTR_TIME_SUBTRACT now (query_starttime q));
    let totaltime := INSTR_TIME_GET_DOUBLE elapsed in
    if bool_decide (aqo_mode = AQO_MODE_LEARN) && (0 <? ctx_nfeatures q) && negb (current_query_hash q =? 0)%Z then
      update_two_best_costs_record (current_query_hash q) (ctx_nfeatures q) (current_query_features q) (best_est_cost q)
        (totaltime - query_planning_time q)%D
    else mret tt
  else mret tt.

(** Returns the query environment and the selectivity cache. *)
Definition learn_query_stat (now : instr_time) (planstate : PlanState) (env : QueryEnvironment) (objects : list Entry)
  : PG (QueryEnvironment * list Entry) :=
  found ← ExtractFromQueryContext env;
  if negb found then mret (env, objects)
  else
    eo ← q_get explain_only;
    (if (eo : bool) then q_modify (fun q => set_collect false (set_learn false q)) else mret tt);;
    learn_plans objects planstate;;
    record_costs now;;
    mret (RemoveFromQueryContext env, selectivity_cache_clear objects).
End learn_query_stat.

(** ** What a walk learns

    The reference: each plan is walked by itself, in an order that has every plan
    of the query once; a node that was executed is a learning step on the clauses
    of its subtree. *)
Section trace.
Context `{Libm} `{Scratch} (objects : list Entry).

(** Whether an object has features. *)
Definition learnable (c : collected) : res bool :=
  '(_, F) ← fss_for_object (clause <$> clauselist c) (selectivities c) (relidslist c);
  Ok (0 <? length F).

Definition learn_op (c : collected) (rows planned : double) : session_op :=
  Learn (clause <$> clauselist c) (selectivities c) (relidslist c) rows planned.

Definition node_trace (plan : Plan) (instrument : option Instrumentation) (leaf has_right : bool) (acc : collected)
  : res (list session_op * collected) :=
  if had_path plan then
    sels ← restore_selectivities objects (path_clauses plan) (path_relids plan) (path_jointype plan) (was_parametrized plan);
    let temp := mkCollected (path_clauses plan ++ clauselist acc) (sels ++ selectivities acc)
                  (if decide (path_relids plan = []) then relidslist acc else path_relids plan) in
    match instrument with
    | Some i =>
        if has_right || leaf || bool_decide (path_clauses plan ≠ []) then
          i ← InstrEndLoop i;
          if deq (ntuples i) d0 && deq (nloops i) d0 then Ok ([], temp)
          else
            can ← learnable temp;
            Ok ([learn_op temp (learn_rows_of i (path_parallel_workers plan) leaf) (plan_rows plan)], if (can : bool) then temp else acc)
        else Ok ([], acc)
    | None => Ok ([], acc)
    end
  else Ok ([], acc).

Fixpoint plan_trace (p : PlanState) (acc : collected) : res (list session_op * collected) :=
  match p with
  | mkPlanState plan instrument _ None (Some _) => Ok ([], acc)
  | mkPlanState plan instrument _ None None => node_trace plan instrument true false acc
  | mkPlanState plan instrument _ (Some l) None =>
      '(ops, acc) ← plan_trace l acc;
      '(own, acc) ← node_trace plan instrument false false acc;
      Ok (ops ++ own, acc)
  | mkPlanState plan instrument _ (Some l) (Some r) =>
      '(ops, acc) ← plan_trace l acc;
      '(ops', cur) ← plan_trace r nothing;
      '(own, acc) ← node_trace plan instrument false true (list_concat3 cur acc);
      Ok (ops ++ (ops' ++ own), acc)
  end.

Fixpoint trace_all (plans : list PlanState) (acc : collected) : res (list session_op) :=
  match plans with
  | [] => Ok []
  | p :: plans => '(ops, acc) ← plan_trace p acc; rest ← trace_all plans acc; Ok (ops ++ rest)
  end.
End trace.

(** The sub-plans the nodes of one plan lead to, as they are found. *)
Fixpoint subplans (p : PlanState) : list PlanState :=
  match p with
  | mkPlanState _ _ subs None (Some _) => subs
  | mkPlanState _ _ subs l r =>
      subs ++ (match l with Some l => subplans l | None => [] end) ++ (match r with Some r => subplans r | None => [] end)
  end.

(** Breadth first. *)
Fixpoint plan_order (fuel : nat) (queue : list PlanState) : list PlanState :=
  match fuel, queue with
  | S fuel, p :: rest => p :: plan_order fuel (rest ++ subplans p)
  | _, _ => []
  end.

(** Every plan of a query: [p] and, below it, the sub-plans of all nodes. *)
Fixpoint below (p : PlanState) : list PlanState :=
  let all q := q :: below q in
  match p with
  | mkPlanState _ _ subs None (Some _) => concat (map all subs)
  | mkPlanState _ _ subs l r =>
      concat (map all subs) ++ (match l with Some l => below l | None => [] end) ++ (match r with Some r => below r | None => [] end)
  end.
Definition all_plans (p : PlanState) : list PlanState := p :: below p.

Section plan_ind.
Context (P : PlanState → Prop).
Context (HP : ∀ plan i subs l r, Forall P subs → (∀ q, l = Some q → P q) → (∀ q, r = Some q → P q) → P (mkPlanState plan i subs l r)).

Fixpoint plan_ind' (p : PlanState) : P p :=
  let all := fix all (l : list PlanState) : Forall P l :=
    match l with [] => Forall_nil_2 P | x :: l' => Forall_cons_2 P x l' (plan_ind' x) (all l') end in
  let sub (o : option PlanState) : ∀ q, o = Some q → P q :=
    match o with Some x => fun q E => eq_rect x P (plan_ind' x) q (f_equal (default x) E) | None => fun q E => match E with end end in
  match p with
  | mkPlanState plan i subs l r => HP plan i subs l r (all subs) (sub l) (sub r)
  end.
End plan_ind.

(** ** The order of the plans *)
Definition sizes (l : list PlanState) : nat := foldr (fun q k => plan_size q + k) 0 l.

Lemma sizes_app l l' : sizes (l ++ l') = sizes l + sizes l'.
Proof. induction l as [|q l IH]; simpl; [done|]. rewrite IH. lia. Qed.

Lemma subplans_size p : sizes (subplans p) < plan_size p.
Proof.
  induction p as [plan i subs l r _ Hl Hr] using plan_ind'. cbn [plan_size]. fold (sizes subs).
  destruct l as [l|], r as [r|]; cbn [subplans]; rewrite ?app_nil_r, ?sizes_app; simpl;
    try specialize (Hl _ eq_refl); try specialize (Hr _ eq_refl); lia.
Qed.

Lemma below_subplans p : below p ≡ₚ concat (map all_plans (subplans p)).
Proof.
  induction p as [plan i subs l r _ Hl Hr] using plan_ind'.
  destruct l as [l|], r as [r|]; cbn [below subplans]; rewrite ?app_nil_r, ?map_app, ?concat_app; simpl;
    rewrite ?app_nil_r; try done.
  - by rewrite (Hl _ eq_refl), (Hr _ eq_refl).
  - by rewrite (Hl _ eq_refl).
Qed.

Lemma plan_order_perm fuel queue : sizes queue ≤ fuel → plan_order fuel queue ≡ₚ concat (map all_plans queue).
Proof.
  revert queue. induction fuel as [|fuel IH]; intros [|p rest] Hf; cbn [plan_order map concat]; try done.
  - exfalso. destruct p. simpl in Hf. lia.
  - unfold all_plans at 1. cbn [app]. rewrite IH.
    + rewrite map_app, concat_app, below_subplans. f_equiv. by rewrite (comm (++)).
    + rewrite sizes_app. pose proof (subplans_size p). simpl in Hf. lia.
Qed.

(** Every plan of the query is walked once, the plan of the query itself first. *)
Lemma plan_order_all p : plan_order (plan_size p) [p] ≡ₚ all_plans p.
Proof. rewrite plan_order_perm by (simpl; lia). simpl. by rewrite app_nil_r. Qed.

(** ** The walk is that session *)
Lemma pg_bind_assoc {A B C} (m : PG A) (f : A → PG B) (g : B → PG C) st : ((m ≫= f) ≫= g) st = (m ≫= fun x => f x ≫= g) st.
Proof. unfold mbind, PG_bind. by destruct (m st) as [[]]. Qed.

Lemma pg_bind_cong {A B} (m : PG A) (f g : A → PG B) st : (∀ a st', f a st' = g a st') → (m ≫= f) st = (m ≫= g) st.
Proof. intros Hfg. unfold mbind, PG_bind. destruct (m st) as [[]]; [apply Hfg | done]. Qed.

Section refines.
Context `{Cluster} `{Libm} `{Palloc} `{Scratch} (objects : list Entry).

Lemma run_session_app ops ops' s st : run_session (ops ++ ops') s st = (s' ← run_session ops s; run_session ops' s') st.
Proof.
  revert s st. induction ops as [|op ops IH]; intros s st; [done|]. cbn [app run_session]. rewrite pg_bind_assoc.
  apply pg_bind_cong. intros s' st'. apply IH.
Qed.

Lemma run_session_app_bind {A} ops ops' s (k : learn_stats → PG A) st :
  (run_session (ops ++ ops') s ≫= k) st = (s' ← run_session ops s; run_session ops' s' ≫= k) st.
Proof. rewrite (pg_bind_ext _ _ _ _ (run_session_app ops ops' s st)). apply pg_bind_assoc. Qed.

(** The result of a learning step is known beforehand. *)
Lemma learn_flag c rows planned s st can :
  learnable c = Ok can →
  learn_sample_rfwr (clause <$> clauselist c) (selectivities c) (relidslist c) rows planned s st =
  (s' ← run_op (learn_op c rows planned) s; mret (s', if can : bool then 1%Z else 0%Z)) st.
Proof.
  unfold learnable, run_op, learn_op. intros E. rewrite pg_bind_assoc. unfold learn_sample_rfwr. cbv zeta. 
  destruct (fss_for_object _ _ _) as [[fss F]|]; [|done]. cbn [mbind res_bind] in E. injection E as <-.
  rewrite pg_bind_assoc, !(pg_lift_ok _ _ _ (fss, F)) by done. cbv beta iota. destruct (0 <? length F); [|done].
  rewrite pg_bind_assoc. apply pg_bind_cong. intros m st'. rewrite pg_bind_assoc. by apply pg_bind_cong.
Qed.

Lemma node_refines plan i leaf has_right acc s st ops acc' :
  node_trace objects plan i leaf has_right acc = Ok (ops, acc') →
  collect_node objects plan i leaf has_right acc s st = (s' ← run_session ops s; mret (acc', s')) st.
Proof.
  unfold node_trace, collect_node. destruct (had_path plan); [|by intros [= <- <-]].
  destruct (restore_selectivities _ _ _ _ _) as [sels|]; [|done]. cbn [mbind res_bind]. rewrite (pg_lift_ok _ _ _ sels) by done.
  set (temp := mkCollected _ _ _). destruct i as [i|]; [|by intros [= <- <-]]. destruct (_ || _ || _); [|by intros [= <- <-]].
  destruct (InstrEndLoop i) as [i'|]; [|done]. cbn [mbind res_bind]. rewrite (pg_lift_ok _ _ _ i') by done. cbv zeta.
  destruct (deq (ntuples i') d0 && deq (nloops i') d0); cbn [negb]; [by intros [= <- <-]|].
  destruct (learnable temp) as [can|] eqn:Ec; [|done]. cbn [mbind res_bind]. intros [= <- <-].
  erewrite pg_bind_ext by (by apply learn_flag). cbn [run_session]. rewrite !pg_bind_assoc. apply pg_bind_cong.
  intros s' st'. by destruct can.
Qed.

Lemma collect_refines p : ∀ other acc s st ops acc',
  plan_trace objects p acc = Ok (ops, acc') →
  collect_planstat objects p other acc s st = (s' ← run_session ops s; mret (other ++ subplans p, acc', s')) st.
Proof.
  induction p as [plan i subs l r _ Hl Hr] using plan_ind'. intros other acc s st ops acc' E.
  destruct l as [l|], r as [r|]; cbn [plan_trace collect_planstat subplans] in *.
  - destruct (plan_trace objects l acc) as [[ops1 acc1]|] eqn:E1; [|done]. cbn [mbind res_bind] in E.
    destruct (plan_trace objects r nothing) as [[ops2 cur]|] eqn:E2; [|done]. cbn [mbind res_bind] in E.
    destruct (node_trace _ _ _ _ _ _) as [[own acc2]|] eqn:E3; [|done]. cbn [mbind res_bind] in E. injection E as <- <-.
    erewrite pg_bind_ext by (by apply Hl). rewrite pg_bind_assoc.
    rewrite run_session_app_bind. apply pg_bind_cong. intros s1 st1.
    rewrite pg_ret_bind. cbv beta iota. erewrite pg_bind_ext by (by apply Hr). rewrite pg_bind_assoc.
    rewrite run_session_app_bind. apply pg_bind_cong. intros s2 st2.
    rewrite pg_ret_bind. cbv beta iota. erewrite pg_bind_ext by (by apply node_refines). rewrite pg_bind_assoc. apply pg_bind_cong.
    intros s3 st3. by rewrite pg_ret_bind, <- !(assoc_L (++)).
  - destruct (plan_trace objects l acc) as [[ops1 acc1]|] eqn:E1; [|done]. cbn [mbind res_bind] in E.
    destruct (node_trace _ _ _ _ _ _) as [[own acc2]|] eqn:E3; [|done]. cbn [mbind res_bind] in E. injection E as <- <-.
    erewrite pg_bind_ext by (by apply Hl). rewrite pg_bind_assoc.
    rewrite run_session_app_bind. apply pg_bind_cong. intros s1 st1.
    rewrite pg_ret_bind. cbv beta iota. erewrite pg_bind_ext by (by apply node_refines). rewrite pg_bind_assoc. apply pg_bind_cong.
    intros s3 st3. by rewrite pg_ret_bind, app_nil_r, <- !(assoc_L (++)).
  - by injection E as <- <-.
  - erewrite pg_bind_ext by (by apply node_refines). rewrite pg_bind_assoc. apply pg_bind_cong. intros s3 st3.
    by rewrite pg_ret_bind, !app_nil_r.
Qed.

Lemma walk_refines fuel queue acc s st ops :
  sizes queue ≤ fuel → trace_all objects (plan_order fuel queue) acc = Ok ops →
  walk_plans objects fuel queue acc s st = run_session ops s st.
Proof.
  revert queue acc s st ops. induction fuel as [|fuel IH]; intros [|p rest] acc s st ops Hf E; cbn [plan_order trace_all walk_plans] in *;
    try by injection E as <-.
  { exfalso. destruct p. simpl in Hf. lia. }
  destruct (plan_trace objects p acc) as [[ops1 acc1]|] eqn:E1; [|done]. cbn [mbind res_bind] in E.
  destruct (trace_all _ _ _) as [ops2|] eqn:E2; [|done]. cbn [mbind res_bind] in E. injection E as <-.
  erewrite pg_bind_ext by (by apply collect_refines). rewrite pg_bind_assoc, run_session_app. apply pg_bind_cong. intros s1 st1.
  rewrite pg_ret_bind. cbn [app tail]. apply IH; [|done]. rewrite sizes_app. pose proof (subplans_size p). simpl in Hf. lia.
Qed.
End refines.

(** ** Learning steps only *)
Definition is_learn (op : session_op) : Prop := match op with Learn _ _ _ _ _ => True | _ => False end.

Section learns.
Context `{Libm} `{Scratch} (objects : list Entry).

Lemma node_learns plan i leaf has_right acc ops acc' :
  node_trace objects plan i leaf has_right acc = Ok (ops, acc') → Forall is_learn ops.
Proof.
  unfold node_trace. destruct (had_path plan); [|by intros [= <- _]]. destruct (restore_selectivities _ _ _ _ _); [|done].
  cbn [mbind res_bind]. destruct i as [i|]; [|by intros [= <- _]]. destruct (_ || _ || _); [|by intros [= <- _]].
  destruct (InstrEndLoop i); [|done]. cbn [mbind res_bind]. destruct (_ && _); [by intros [= <- _]|].
  destruct (learnable _); [|done]. cbn [mbind res_bind]. intros [= <- _]. by repeat constructor.
Qed.

Lemma plan_learns p : ∀ acc ops acc', plan_trace objects p acc = Ok (ops, acc') → Forall is_learn ops.
Proof.
  induction p as [plan i subs l r _ Hl Hr] using plan_ind'. intros acc ops acc' E. 
  destruct l as [l|], r as [r|]; cbn [plan_trace] in E; [| |by injection E as <- _|by eapply node_learns].
  - destruct (plan_trace objects l acc) as [[ops1 acc1]|] eqn:E1; [|done]. cbn [mbind res_bind] in E.
    destruct (plan_trace objects r nothing) as [[ops2 cur]|] eqn:E2; [|done]. cbn [mbind res_bind] in E.
    destruct (node_trace _ _ _ _ _ _) as [[own acc2]|] eqn:E3; [|done]. injection E as <- _.
    apply Forall_app_2; [by eapply Hl | apply Forall_app_2; [by eapply Hr | by eapply node_learns]].
  - destruct (plan_trace objects l acc) as [[ops1 acc1]|] eqn:E1; [|done]. cbn [mbind res_bind] in E.
    destruct (node_trace _ _ _ _ _ _) as [[own acc2]|] eqn:E3; [|done]. injection E as <- _.
    apply Forall_app_2; [by eapply Hl | by eapply node_learns].
Qed.

Lemma trace_learns plans acc ops : trace_all objects plans acc = Ok ops → Forall is_learn ops.
Proof.
  revert acc ops. induction plans as [|p plans IH]; intros acc ops; cbn [trace_all]; [by intros [= <-]|].
  destruct (plan_trace objects p acc) as [[ops1 acc1]|] eqn:E1; [|done]. cbn [mbind res_bind].
  destruct (trace_all _ _ _) as [ops2|] eqn:E2; [|done]. intros [= <-].
  apply Forall_app_2; [by eapply plan_learns | by eapply IH].
Qed.
End learns.

Section learn_session.
Context `{Cluster} `{Libm} `{Palloc} `{Scratch} (dim : Z → nat) (Hcalm : calm) (Hav : available aqo_data_lwpr).

Lemma run_learns_db ops s st :
  db_ok dim st → query_ok (ctx st) → Forall is_learn ops → Forall (op_ok dim (fspace_hash (ctx st))) ops →
  pg_ensures (run_session ops s) st (fun _ st' => db_ok dim st' ∧ step_frame st st').
Proof.
  revert s st. induction ops as [|op ops IH]; intros s st Hdb Hq Hl Ho; [by split|].
  apply Forall_cons in Hl as [Hl Hls]. apply Forall_cons in Ho as [Ho Hos]. destruct op as [cl sels rl t p| |]; try done.
  cbn [run_session run_op]. destruct (learn_sample_db dim Hcalm Hav cl sels rl t p s st Hdb Hq Ho) as (fss & F & _ & Hs).
  eapply pg_ensures_bind_mono; [eapply pg_ensures_bind_mono; [exact Hs|]|].
  { intros [s' flag] st' (_ & _ & Hdb' & Hsf & _). exact (conj Hdb' Hsf). }
  intros s' st' [Hdb' Hsf]. eapply pg_ensures_mono.
  { apply IH; [done | by apply (sf_query _ _ Hsf) | done | by rewrite (sf_fspace _ _ Hsf)]. }
  intros s'' st'' [Hdb'' Hsf']. split; [done | by eapply step_frame_trans].
Qed.
End learn_session.

(** A time as the clock gives it. *)
Definition time_ok (t : instr_time) : Prop := (0 ≤ tv_nsec t < 1000000000)%Z.

(** The difference of two times, normalised. *)
Lemma subtract_ok x y : time_ok x → time_ok y →
  ∃ t, INSTR_TIME_SUBTRACT x y = Ok t ∧ time_ok t ∧
    (tv_sec t * 1000000000 + tv_nsec t = (tv_sec x - tv_sec y) * 1000000000 + (tv_nsec x - tv_nsec y))%Z.
Proof.
  unfold time_ok, INSTR_TIME_SUBTRACT. intros Hx Hy. cbn [normalize_time tv_sec tv_nsec].
  destruct (Z.ltb_spec (tv_nsec x - tv_nsec y) 0).
  - rewrite (proj2 (Z.ltb_ge _ _)) by lia. eexists. split; [done|]. simpl. lia.
  - eexists. split; [done|]. simpl. lia.
Qed.

(** ** Contexts in the query environment *)
Lemma find_enr_app env e name :
  find_enr (env ++ [e]) name =
  match find_enr env name with
  | Some x => Some x
  | None => if String.eqb (enr_name e) name then Some (length env, e) else None
  end.
Proof.
  induction env as [|x env IH]; simpl; [done|]. destruct (String.eqb (enr_name x) name); [done|]. rewrite IH.
  destruct (find_enr env name) as [[]|]; [done|]. by destruct (String.eqb _ name).
Qed.

Lemma find_enr_get env name : get_ENR (Some env) name = None → find_enr env name = None.
Proof. simpl. by destruct (find_enr env name). Qed.

Lemma extract_ok env l i e q st : env = Some l → find_enr l AQOPrivateData = Some (i, e) → reldata e = AQOData q →
  ExtractFromQueryContext env st = (Ok true, set_ctx st q).
Proof. intros -> Hf Hq. unfold ExtractFromQueryContext, get_ENR. rewrite Hf. simpl. by rewrite Hq. Qed.

(** The context of a query survives whatever other queries do to the global
    one: after the start of the execution, an extraction at any later time gives
    back the context at the start, with the planning time measured; the removal
    leaves the environment as it was. *)
Theorem context_restored (now : instr_time) (eflags options : Z) (env : QueryEnvironment) (st : pgstate) :
  time_ok now → time_ok (query_starttime (ctx st)) → get_ENR env AQOPrivateData = None →
  pg_ensures (aqo_ExecutorStart now eflags options env) st (fun '(_, env') st1 =>
    (∀ st2, ExtractFromQueryContext env' st2 = (Ok true, set_ctx st2 (ctx st1))) ∧
    RemoveFromQueryContext env' = Some (default [] env) ∧
    (∃ t, st1 = set_ctx st (set_explain_only (negb (Z.land eflags EXEC_FLAG_EXPLAIN_ONLY =? 0)%Z) (set_planning_time t (ctx st))))).
Proof.
  intros Hn Hs He. unfold aqo_ExecutorStart. unfold pg_ensures. rewrite q_get_bind.
  destruct (subtract_ok _ _ Hn Hs) as (t & Et & _). rewrite (pg_lift_ok _ _ _ t Et), !q_modify_bind, q_get_bind.
  unfold StoreToQueryContext. rewrite (pg_bind_assoc (q_get id)), q_get_bind. cbv zeta.
  set (l := match env with None => create_queryEnv | Some l => l end).
  assert (Hl : find_enr l AQOPrivateData = None) by (subst l; destruct env; [by apply find_enr_get | done]).
  cbn -[find_enr AQOPrivateData EXEC_FLAG_EXPLAIN_ONLY]. split_and!.
  - intros st2. eapply (extract_ok _ _ (length l)); [reflexivity | unfold register_ENR; rewrite find_enr_app, Hl; reflexivity | reflexivity].
  - unfold RemoveFromQueryContext, unregister_ENR, register_ENR. rewrite find_enr_app, Hl. simpl. f_equal. rewrite delete_last. by destruct env.
  - by eexists.
Qed.


(** ** The end of an execution *)
Lemma db_ok_frame dim st st' :
  rows st' aqo_data_lwpr = rows st aqo_data_lwpr → rows st' aqo_data_house_lwpr = rows st aqo_data_house_lwpr →
  fspace_hash (ctx st') = fspace_hash (ctx st) → db_ok dim st → db_ok dim st'.
Proof.
  intros E1 E2 Ef [Ht Hm Hh]. split; [by apply (table_ok_rows st) | | intros fss; by apply (house_ok_rows _ _ st)].
  intros fss t. rewrite Ef, (row_data_rows _ _ _ _ E1). apply Hm.
Qed.

Section ends.
Context `{Cluster} `{Libm} `{Palloc} `{Scratch}.


Lemma record_step aqo_mode now (nf : Z → nat) st0 st :
  calm → available aqo_best_two_costs_table → time_ok now → time_ok (query_starttime (ctx st0)) →
  nf (current_query_hash (ctx st0)) = ctx_nfeatures (ctx st0) → ctx_nfeatures (ctx st0) ≤ length (current_query_features (ctx st0)) →
  ctx st = ctx st0 ∨ ctx st = disabled (ctx st0) → costs_ok nf st →
  pg_ensures (record_costs aqo_mode now) st (fun _ st' => costs_ok nf st' ∧ costs_frame st st').
Proof.
  intros Hcalm Hav Hn Hs Hnf Hlen Hctx Hok. unfold record_costs.
  apply (pg_ensures_bind_mono (q_get id) _ st (fun q st' => q = ctx st ∧ st' = st)); [done|]. intros q st' [-> ->].
  assert (Hsame : costs_ok nf st ∧ costs_frame st st) by (split; [done | by split]).
  assert (E : query_starttime (ctx st) = query_starttime (ctx st0) ∧ current_query_hash (ctx st) = current_query_hash (ctx st0) ∧
    ctx_nfeatures (ctx st) = ctx_nfeatures (ctx st0) ∧ current_query_features (ctx st) = current_query_features (ctx st0))
    by (destruct Hctx as [-> | ->]; destruct (ctx st0); done).
  destruct E as (E1 & E2 & E3 & E4). destruct (collect_stat (ctx st)); [|done].
  rewrite E1, E2, E3, E4. destruct (subtract_ok _ _ Hn Hs) as (t & -> & _).
  apply pg_ensures_bind, pg_ensures_lift. cbn [ensures]. destruct (_ && _ && _); [|done].
  rewrite <- Hnf. apply record_ok; [done | done | done | by rewrite Hnf].
Qed.

(** What the end of an execution changes of the context. *)
Definition ended (q : QueryContextData) : QueryContextData :=
  if explain_only q then set_collect false (set_learn false q) else q.

Lemma ended_same q :
  fspace_hash (ended q) = fspace_hash q ∧ (query_ok q → query_ok (ended q)) ∧ query_starttime (ended q) = query_starttime q ∧
  current_query_hash (ended q) = current_query_hash q ∧ ctx_nfeatures (ended q) = ctx_nfeatures q ∧
  current_query_features (ended q) = current_query_features q.
Proof. unfold ended. destruct q as [? ? ? ? ? ? ? []]; split_and!; try done; intros []; by split. Qed.

End ends.

(** ** Concrete inputs *)

(** A join whose left side, with a sub-plan, and right side were not run to the
    end. *)
Definition idle_instr : Instrumentation := mkInstr false (mkTime 0 0) (mkTime 0 0) d0 d0 d0 d0 d0 d0.
Definition busy_instr : Instrumentation := mkInstr true (mkTime 0 0) (mkTime 0 0) d0 (d_of_Z 40) d0 d0 d0 d0.
Definition sample_info (c : node) (sel : double) : RestrictInfo := mkRestrictInfo c None None sel sel.
Definition sample_sub : PlanState := mkPlanState (mkPlan d0 false [] [] JOIN_INNER 0 false) None [] None None.
Definition sample_left : PlanState :=
  mkPlanState (mkPlan (d_of_Z 10) true [sample_info sample_join (dlit 1 2)] [3%Z] JOIN_INNER 0 false) (Some idle_instr) [sample_sub] None None.
Definition sample_right : PlanState :=
  mkPlanState (mkPlan (d_of_Z 10) true [] [1%Z] JOIN_INNER 0 false) (Some idle_instr) [] None None.
Definition sample_plan : PlanState :=
  mkPlanState (mkPlan (d_of_Z 50) true [sample_info (sample_eq (sample_int 5)) (dlit 1 10)] [3; 1]%Z JOIN_INNER 0 false) (Some busy_instr) []
    (Some sample_left) (Some sample_right).

Lemma sample_trace : @trace_all sample_libm sample_scratch [] (plan_order (plan_size sample_plan) [sample_plan]) nothing = Ok [sample_learn].
Proof. vm_compute. reflexivity. Qed.

Definition sample_env : list EphemeralNamedRelation := [mkENR "transition_table" OtherData; mkENR AQOPrivateData (AQOData (ctx planning_state))].

Lemma planning_costs : costs_ok (fun _ => ctx_nfeatures (ctx planning_state)) planning_state.
Proof. split; [split; [intros i j t t' k _ Hi | intros i t Hi]; done | done]. Qed.


Lemma context_restored_witness :
  pg_ensures (aqo_ExecutorStart (mkTime 7 5) 0 0 None) planning_state (fun '(_, env') st1 =>
    ExtractFromQueryContext env' empty_tables = (Ok true, set_ctx empty_tables (ctx st1))).
Proof.
  assert (H1 : time_ok (mkTime 7 5)) by (unfold time_ok; simpl; lia).
  assert (H2 : time_ok (query_starttime (ctx planning_state))) by (unfold time_ok; vm_compute; split; congruence).
  apply (pg_ensures_mono _ _ _ _ (context_restored (mkTime 7 5) 0 0 None planning_state H1 H2 eq_refl)).
  intros [o env'] st1 (He & _). apply He.
Defined.


