(* ===== verification/Hooks.v ===== *)
(** * Hooks: the cardinality hooks of the planner

    contrib/aqo/cardinality_hooks.c and the two small hooks of
    contrib/aqo/plan_generation.c.  For every relation the planner asks a hook for
    its number of rows; when AQO is in use, the hook collects the clauses of the
    relation with their selectivities and asks the model of their feature
    subspace.  The estimators below the hooks (an earlier hook, or PostgreSQL's
    own) are the class [Estimators]. *)
From S2P Require Import Prelude Float64 Nodes HashText HashEclass Fss Knn PgArray LwprModel PgState Storage StorageLwpr LwprUpdate LwprPredict SelectivityCache Bitmapset Costs Learning Preprocess PathUtils Postprocess.

(** What the hooks read and write of a relation. *)
Record HookRel : Type := mkHookRel {
  rel_relid : nat;
  rel_relids : Bitmapset;
  rel_restrictinfo : list RestrictInfo;
  rel_cheapest_total_path : option PathNode;
  rel_rows : double;
  rel_explore_value : double
}.

Definition set_rel (rel : HookRel) (rows explore : double) : HookRel :=
  mkHookRel (rel_relid rel) (rel_relids rel) (rel_restrictinfo rel) (rel_cheapest_total_path rel) rows explore.

Class Estimators : Type := {
  default_baserel_rows : HookRel → double;
  default_parameterized_baserel_size : HookRel → list RestrictInfo → double;
  default_joinrel_rows : HookRel → HookRel → HookRel → SpecialJoinInfo → list RestrictInfo → double;
  default_parameterized_joinrel_size : HookRel → option PathNode → option PathNode → SpecialJoinInfo → list RestrictInfo → double
}.

(** The selectivity cache and [ppi_explore_value]. *)
Record hook_globals : Type := mkGlobals { cache : list Entry; ppi_explore_value : double }.

(** [est_uncof * rate + est_future * (1 - rate)] *)
Definition explore_of (ev : Explore_Value) : double := (est_uncof ev * rate ev + est_future ev * (d_of_Z 1 - rate ev))%D.

Section hooks.
Context `{Cluster} `{Libm} `{Palloc} `{Scratch} `{Statistics} `{Estimators} (aqo_mode : AqoMode).

Definition call_default_set_baserel_rows_estimate (rel : HookRel) : HookRel :=
  set_rel rel (default_baserel_rows rel) (rel_explore_value rel).

Definition call_default_set_joinrel_size_estimates (rel outer_rel inner_rel : HookRel) (sjinfo : SpecialJoinInfo)
    (restrictlist : list RestrictInfo) : HookRel :=
  set_rel rel (default_joinrel_rows rel outer_rel inner_rel sjinfo restrictlist) (rel_explore_value rel).

Definition aqo_set_baserel_rows_estimate (root : PlannerInfo) (rel : HookRel) : PG HookRel :=
  q ← q_get id;
  let base := rel_restrictinfo rel in
  let selectivities := if use_aqo q || learn_aqo q then get_selectivities base 0 JOIN_INNER None else [] in
  if negb (use_aqo q) then mret (call_default_set_baserel_rows_estimate rel)
  else
    rte ← pg_lift (planner_rt_fetch (rel_relid rel) root);
    let relids := [rte_relid rte] in
    if bool_decide (aqo_mode = AQO_MODE_LEARN) then
      ev ← predict_for_relation_lwpr_explore (clause <$> base) selectivities relids lwpr_men_alloc_ev;
      if (ev_rows ev >=? d0)%D then mret (set_rel rel (ev_rows ev) (explore_of ev * d_of_Z 1)%D)
      else if bool_decide (base = []) then mret (call_default_set_baserel_rows_estimate (set_rel rel (rel_rows rel) d0))
      else mret (call_default_set_baserel_rows_estimate (set_rel rel (rel_rows rel) (dlit 1 2)))
    else mret rel.

(** [forboth(l, allclauses, l2, selectivities)] *)
Fixpoint cache_all (args_hash eclass_hash : list Z) (relid global_relid : Z) (clauses : list RestrictInfo) (sels : list double)
    (objects : list Entry) : res (list Entry) :=
  match clauses, sels with
  | c :: clauses, s :: sels =>
      current_hash ← get_clause_hash2 (clause c) args_hash eclass_hash;
      cache_all args_hash eclass_hash relid global_relid clauses sels (cache_selectivity current_hash relid global_relid s objects)
  | _, _ => Ok objects
  end.

(** The number of rows, [None] where the function ends without a return value. *)
Definition aqo_get_parameterized_baserel_size (root : PlannerInfo) (rel : HookRel) (param_clauses : list RestrictInfo) (g : hook_globals)
  : PG (option double * hook_globals) :=
  q ← q_get id;
  let allclauses := param_clauses ++ rel_restrictinfo rel in
  let selectivities := get_selectivities2 allclauses 0 JOIN_INNER None in
  '(relid, g) ← (if use_aqo q || learn_aqo q then
                   rte ← pg_lift (planner_rt_fetch (rel_relid rel) root);
                   '(args_hash, eclass_hash) ← pg_lift (get_eclasses (clause <$> allclauses));
                   objects ← pg_lift (cache_all args_hash eclass_hash (Z.of_nat (rel_relid rel)) (rte_relid rte) allclauses selectivities (cache g));
                   mret (rte_relid rte, mkGlobals objects (ppi_explore_value g))
                 else mret (0%Z, g));
  let default_size := default_parameterized_baserel_size rel param_clauses in
  if negb (use_aqo q) then mret (Some default_size, mkGlobals (cache g) d0)
  else if bool_decide (aqo_mode = AQO_MODE_LEARN) then
    ev ← predict_for_relation_lwpr_explore (clause <$> allclauses) selectivities [relid] lwpr_men_alloc_ev;
    if (ev_rows ev >=? d0)%D then mret (Some (ev_rows ev), mkGlobals (cache g) (explore_of ev))
    else mret (Some default_size, mkGlobals (cache g) (d_of_Z 1))
  else mret (None, g).

(** The clauses of a join with those of the two paths it joins. *)
Definition join_clauses (sjinfo : SpecialJoinInfo) (restrictlist : list RestrictInfo) (outer_path inner_path : option PathNode)
  : list RestrictInfo * list double :=
  let current_selectivities := get_selectivities restrictlist 0 (sj_jointype sjinfo) (Some sjinfo) in
  let '(outer_clauses, outer_selectivities) := get_path_clauses outer_path in
  let '(inner_clauses, inner_selectivities) := get_path_clauses inner_path in
  (restrictlist ++ (outer_clauses ++ inner_clauses), current_selectivities ++ (outer_selectivities ++ inner_selectivities)).

Definition aqo_set_joinrel_size_estimates (root : PlannerInfo) (rel outer_rel inner_rel : HookRel) (sjinfo : SpecialJoinInfo)
    (restrictlist : list RestrictInfo) : PG HookRel :=
  q ← q_get id;
  if negb (use_aqo q) then mret (call_default_set_joinrel_size_estimates rel outer_rel inner_rel sjinfo restrictlist)
  else
    relids ← pg_lift (get_list_of_relids root (rel_relids rel));
    let '(allclauses, selectivities) :=
      join_clauses sjinfo restrictlist (rel_cheapest_total_path outer_rel) (rel_cheapest_total_path inner_rel) in
    if bool_decide (aqo_mode = AQO_MODE_LEARN) then
      ev ← predict_for_relation_lwpr_explore (clause <$> allclauses) selectivities relids lwpr_men_alloc_ev;
      if (ev_rows ev >=? d0)%D then mret (set_rel rel (ev_rows ev) (explore_of ev * d_of_Z 1)%D)
      else mret (call_default_set_joinrel_size_estimates (set_rel rel (rel_rows rel) (d_of_Z 1)) outer_rel inner_rel sjinfo restrictlist)
    else mret rel.

Definition aqo_get_parameterized_joinrel_size (root : PlannerInfo) (rel : HookRel) (outer_path inner_path : option PathNode)
    (sjinfo : SpecialJoinInfo) (restrict_clauses : list RestrictInfo) (g : hook_globals) : PG (option double * hook_globals) :=
  q ← q_get id;
  let default_size := default_parameterized_joinrel_size rel outer_path inner_path sjinfo restrict_clauses in
  if negb (use_aqo q) then mret (Some default_size, mkGlobals (cache g) d0)
  else
    relids ← pg_lift (get_list_of_relids root (rel_relids rel));
    let '(allclauses, selectivities) := join_clauses sjinfo restrict_clauses outer_path inner_path in
    if bool_decide (aqo_mode = AQO_MODE_LEARN) then
      ev ← predict_for_relation_lwpr_explore (clause <$> allclauses) selectivities relids lwpr_men_alloc_ev;
      if (ev_rows ev >=? d0)%D then mret (Some (ev_rows ev), mkGlobals (cache g) (explore_of ev))
      else mret (Some default_size, mkGlobals (cache g) (d_of_Z 1))
    else mret (None, g).
End hooks.

(** The explore value that a parameterised path is given. *)
Definition ppi_hook (g : hook_globals) : double := ppi_explore_value g.

(** ** The search of the plan *)
Definition rate_to_generate_explore_plan : double := dlit 1 100.
Definition rate_to_compare_best_est_cost : double := d_of_Z 1.
Definition prune_rate_for_add_path_explore : double := dlit 101 100.

Record search_settings : Type := mkSearch {
  search_plan_mode : Z;
  explore_rate : double;
  compare_rate : double;
  prune_rate : double
}.

Definition aqo_set_rel_pathlist (aqo_mode : AqoMode) (root : search_settings) : search_settings :=
  if bool_decide (aqo_mode = AQO_MODE_DISABLED) then mkSearch 0 (explore_rate root) (compare_rate root) (prune_rate root)
  else mkSearch 2 rate_to_generate_explore_plan rate_to_compare_best_est_cost prune_rate_for_add_path_explore.

Definition set_best_est_cost (x : double) (q : QueryContextData) : QueryContextData :=
  let '(mkContext qh la ua fh at_ cs aq eo ea ts pt cq di nf cf _ bp) := q in
  mkContext qh la ua fh at_ cs aq eo ea ts pt cq di nf cf x bp.

Definition aqo_estimated_cost_hook (total_cost : double) : PG unit := q_modify (set_best_est_cost total_cost).

(** ** Clauses, selectivities and the cache *)
Section lemmas.
Context `{Statistics}.

Lemma join_clauses_aligned sj restrictlist o i :
  Forall2 estimates (join_clauses sj restrictlist o i).1 (join_clauses sj restrictlist o i).2.
Proof.
  unfold join_clauses. pose proof (get_path_clauses_aligned o) as Ho. pose proof (get_path_clauses_aligned i) as Hi.
  destruct (get_path_clauses o) as [oc os], (get_path_clauses i) as [ic is_].
  apply Forall2_app; [apply get_selectivities_aligned | by apply Forall2_app].
Qed.

(** The hash of every clause, and the selectivity it stands for. *)
Context (args_hash eclass_hash : list Z) (g : Z) (h : RestrictInfo → Z) (sel : RestrictInfo → double).

(** What is stored for the clauses [all] is their selectivity. *)
Definition agrees (all : list RestrictInfo) (objects : list Entry) : Prop :=
  ∀ c s, c ∈ all → selectivity_cache_find_global_relid objects (h c) g = Some s → s = sel c.

Lemma find_stored ch r s objects ch' :
  selectivity_cache_find_global_relid (cache_selectivity ch r g s objects) ch' g =
  match selectivity_cache_find_global_relid objects ch' g with
  | Some x => Some x
  | None => if decide (ch = ch') then Some s else None
  end.
Proof.
  rewrite !find_abs. change (cache_selectivity ch r g s objects) with (SelectivityCache.run_op objects (Op_cache ch r g s)).
  rewrite run_op_abs. cbn [abstract_op]. rewrite acache_store_lookup. destruct (abs objects !! (ch', g)); [done|].
  by repeat case_decide; simplify_eq.
Qed.

Lemma cache_all_ok r all clauses objects :
  (∀ c, c ∈ all → get_clause_hash2 (clause c) args_hash eclass_hash = Ok (h c)) →
  (∀ c c', c ∈ all → c' ∈ all → h c = h c' → sel c = sel c') →
  clauses ⊆ all → agrees all objects →
  ∃ objects', cache_all args_hash eclass_hash r g clauses (sel <$> clauses) objects = Ok objects' ∧ agrees all objects' ∧
    (∀ k x, selectivity_cache_find_global_relid objects k g = Some x → selectivity_cache_find_global_relid objects' k g = Some x) ∧
    ∀ c, c ∈ clauses → selectivity_cache_find_global_relid objects' (h c) g = Some (sel c).
Proof.
  intros Hh Hsel. revert objects. induction clauses as [|c clauses IH]; intros objects Hsub Hag.
  { exists objects. split_and!; [done | done | done|]. intros c []%elem_of_nil. }
  assert (Hc : c ∈ all) by (apply Hsub; left). cbn [fmap list_fmap cache_all]. rewrite (Hh c Hc). cbn [mbind res_bind].
  destruct (IH (cache_selectivity (h c) r g (sel c) objects)) as (objects' & -> & Hag' & Hkeep & Hin).
  { intros x Hx. apply Hsub. by right. }
  { intros c' s Hc'. rewrite find_stored. destruct (selectivity_cache_find_global_relid objects (h c') g) as [x|] eqn:E.
    - intros [= <-]. by apply (Hag c').
    - case_decide; [|done]. intros [= <-]. by apply Hsel. }
  exists objects'. split_and!; [done | done | |].
  - intros k x Hk. apply Hkeep. by rewrite find_stored, Hk.
  - intros c' [->|Hc']%elem_of_cons; [|by apply Hin]. apply Hkeep. rewrite find_stored.
    destruct (selectivity_cache_find_global_relid objects (h c) g) as [x|] eqn:E; [|by rewrite decide_True].
    by rewrite (Hag c x).
Qed.
End lemmas.

(** ** The estimates *)
Section estimates.
Context `{Cluster} `{Libm} `{Palloc} `{Scratch} `{Statistics} `{Estimators}.

(** The hash of a clause among the clauses of its relation. *)
Definition hash_in (clauses : list RestrictInfo) (c : RestrictInfo) : res Z :=
  '(args_hash, eclass_hash) ← get_eclasses (clause <$> clauses);
  get_clause_hash2 (clause c) args_hash eclass_hash.

(** What the cache holds for the clauses is their selectivity, and clauses of one
    hash have one selectivity. *)
Definition selectivities_agree (objects : list Entry) (clauses : list RestrictInfo) (g : Z) : Prop :=
  ∀ c k, c ∈ clauses → hash_in clauses c = Ok k →
    (∀ s, selectivity_cache_find_global_relid objects k g = Some s → s = selectivity2 JOIN_INNER c) ∧
    (∀ c', c' ∈ clauses → hash_in clauses c' = Ok k → selectivity2 JOIN_INNER c' = selectivity2 JOIN_INNER c).

(** What [objects] holds of the relation [g], [objects'] holds too. *)
Definition holds_on (g : Z) (objects objects' : list Entry) : Prop :=
  ∀ k x, selectivity_cache_find_global_relid objects k g = Some x → selectivity_cache_find_global_relid objects' k g = Some x.

Lemma holds_on_ops g ops objects : Forall (fun o => o ≠ Op_clear) ops → holds_on g objects (foldl SelectivityCache.run_op objects ops).
Proof.
  intros Hops. revert objects. induction Hops as [|o ops Ho _ IH]; intros objects k x Hk; [done|]. apply IH.
  rewrite !find_abs in *. rewrite run_op_abs. destruct o as [ch r g' s|]; [|done]. cbn [abstract_op].
  by rewrite acache_store_lookup, Hk.
Qed.

Lemma restore_found objects clauses g jt ah eh (h : RestrictInfo → Z) (sel : RestrictInfo → double) :
  get_eclasses (clause <$> clauses) = Ok (ah, eh) →
  (∀ c, c ∈ clauses → get_clause_hash2 (clause c) ah eh = Ok (h c)) →
  (∀ c, c ∈ clauses → selectivity_cache_find_global_relid objects (h c) g = Some (sel c)) →
  restore_selectivities objects clauses [g] jt true = Ok (sel <$> clauses).
Proof.
  intros Ee Hh Hf. unfold restore_selectivities. rewrite Ee. cbn [mbind res_bind]. apply mapM_res_total.
  intros c Hc. rewrite (Hh c Hc). cbn [mbind res_bind]. by rewrite Hf.
Qed.

Lemma cache_all_total ah eh r g clauses sels objects :
  (∀ c, c ∈ clauses → ∃ k, get_clause_hash2 (clause c) ah eh = Ok k) → ∃ objects', cache_all ah eh r g clauses sels objects = Ok objects'.
Proof.
  revert sels objects. induction clauses as [|c clauses IH]; intros [|s sels] objects Hh; cbn [cache_all]; [by eexists..|].
  destruct (Hh c) as [k ->]; [left|]. cbn [mbind res_bind]. apply IH. intros c' Hc'. apply Hh. by right.
Qed.

(** Caching the clauses of a parameterised relation and restoring them in any
    order. *)
Lemma cache_restore objects r g all clauses jt :
  Forall clause_ok (clause <$> all) → selectivities_agree objects all g → clauses ≡ₚ all →
  ∃ ah eh objects', get_eclasses (clause <$> all) = Ok (ah, eh) ∧
    cache_all ah eh r g all (get_selectivities2 all 0 JOIN_INNER None) objects = Ok objects' ∧
    ∀ objects'', holds_on g objects' objects'' →
      restore_selectivities objects'' clauses [g] jt true = Ok (get_selectivities2 clauses 0 JOIN_INNER None).
Proof.
  intros Hok Hag Hp. destruct (ensures_inv _ _ (get_eclasses_ok (clause <$> all))) as ([ah eh] & Ee & He).
  set (h c := match get_clause_hash2 (clause c) ah eh with Ok k => k | Err _ => 0%Z end).
  assert (Hh : ∀ c, c ∈ all → get_clause_hash2 (clause c) ah eh = Ok (h c)).
  { intros c Hc. unfold h. rewrite Forall_fmap, Forall_forall in Hok.
    by destruct (clause_hash2_total _ _ _ _ He (Hok c Hc)) as [k ->]. }
  assert (Hin : ∀ c, c ∈ all → hash_in all c = Ok (h c)) by (intros c Hc; unfold hash_in; rewrite Ee; by apply Hh).
  destruct (cache_all_ok ah eh g h (selectivity2 JOIN_INNER) r all all objects) as (objects' & E & _ & _ & Hf); [done | | done | |].
  { intros c c' Hc Hc' Ehh. apply (Hag c' (h c')); auto. rewrite <- Ehh. auto. }
  { intros c s Hc. apply (Hag c (h c)); auto. }
  exists ah, eh, objects'. split_and!; [done | done|]. intros objects'' Hon. apply (restore_found _ _ _ _ ah eh h).
  - rewrite <- Ee. by apply get_eclasses_perm, fmap_Permutation.
  - intros c Hc. apply Hh. by rewrite <- Hp.
  - intros c Hc. apply Hon, Hf. by rewrite <- Hp.
Qed.

(** The objects a hook passes on: the hash functions cover them, their number is
    an [int], objects of a subspace have the features of the subspace, and none
    has exactly one. *)
Definition estimable (dim : Z → nat) (clauses : list RestrictInfo) (sels : list double) (relids : list Z) : Prop :=
  Forall clause_ok (clause <$> clauses) ∧ (Z.of_nat (length clauses) < 2 ^ 31)%Z ∧
  ∀ fss F, fss_for_object (clause <$> clauses) sels relids = Ok (fss, F) → (F = [] ∨ length F = dim fss) ∧ length F ≠ 1.

(** The model of an object answers with rows that are not negative, or the
    estimate is refused. *)
Lemma answer_db dim clauses sels relids fss F st :
  calm → available aqo_data_lwpr → db_ok dim st → query_ok (ctx st) →
  Forall2 estimates clauses sels → estimable dim clauses sels relids →
  fss_for_object (clause <$> clauses) sels relids = Ok (fss, F) →
  pg_ensures (predict_for_relation_lwpr_explore (clause <$> clauses) sels relids lwpr_men_alloc_ev) st (fun ev st' =>
    db_ok dim st' ∧ step_frame st st' ∧
    (F = [] ∨ ¬ has_model st fss → (ev_rows ev >=? d0)%D = false ∧ st' = st) ∧
    ((ev_rows ev >=? d0)%D = true → has_model st fss ∧ rate ev = rate_between_explore_value)).
Proof.
  intros Hcalm Hav Hdb Hq Hal (Hc & Hi & Hd) E.
  assert (Ho : object_ok dim (clause <$> clauses) sels relids).
  { split; [done | by rewrite length_fmap, (Forall2_length _ _ _ Hal) | by rewrite length_fmap | intros; by apply Hd]. }
  destruct (estimate_db dim Hcalm Hav _ _ _ lwpr_men_alloc_ev st Hdb Hq Ho) as (fss' & F' & E' & Hev); [intros; by eapply Hd|].
  rewrite E in E'. injection E' as <- <-. eapply pg_ensures_mono; [exact Hev|].
  intros ev st' (Hdb' & Hsf & Hno & Hyes). split_and!; [done | done | |].
  - intros Hn. destruct (Hno Hn) as [-> ->]. done.
  - intros Hpos. assert (Hs : ¬ (F = [] ∨ ¬ has_model st fss)) by (intros Hn; destruct (Hno Hn) as [-> _]; done).
    assert (Hhas : has_model st fss).
    { destruct (row_data st aqo_data_lwpr [fspace_hash (ctx st); fss]) eqn:Er; [unfold has_model; rewrite Er; by eexists|].
      destruct Hs. right. unfold has_model. rewrite Er. by intros [? [=]]. }
    split; [done|]. apply Hyes; [|done]. intros ->. apply Hs. by left.
Qed.
End estimates.

(** ** The hooks *)


(** C40. Only learn mode estimates.  In the other modes a query may use AQO (forced
    mode turns it on for every new query), but then the hooks that set the rows of
    a relation return with the relation as it was, without calling the estimator
    below, and the hooks for parameterised paths end without a value. *)
Theorem forced_mode_unestimated `{Cluster} `{Libm} `{Palloc} `{Scratch} `{Statistics} `{Estimators} (aqo_mode : AqoMode)
    (root : PlannerInfo) (rel outer_rel inner_rel : HookRel) (sjinfo : SpecialJoinInfo) (clauses : list RestrictInfo)
    (outer_path inner_path : option PathNode) (g : hook_globals) (rte : RangeTblEntry) (relids : list Z) (st : pgstate) :
  (∀ q, use_aqo (new_settings AQO_MODE_FORCED q) = true) ∧
  (aqo_mode ≠ AQO_MODE_LEARN → use_aqo (ctx st) = true →
   planner_rt_fetch (rel_relid rel) root = Ok rte → get_list_of_relids root (rel_relids rel) = Ok relids →
   Forall clause_ok (clause <$> clauses ++ rel_restrictinfo rel) →
   aqo_set_baserel_rows_estimate aqo_mode root rel st = (Ok rel, st) ∧
   aqo_set_joinrel_size_estimates aqo_mode root rel outer_rel inner_rel sjinfo clauses st = (Ok rel, st) ∧
   (∃ objects, aqo_get_parameterized_baserel_size aqo_mode root rel clauses g st = (Ok (None, mkGlobals objects (ppi_explore_value g)), st)) ∧
   aqo_get_parameterized_joinrel_size aqo_mode root rel outer_path inner_path sjinfo clauses g st = (Ok (None, g), st)).
Proof.
  split; [by intros []|]. intros Hm Hu Er El Hok.
  assert (Hlearn : bool_decide (aqo_mode = AQO_MODE_LEARN) = false) by (by apply bool_decide_false).
  unfold aqo_set_baserel_rows_estimate, aqo_set_joinrel_size_estimates, aqo_get_parameterized_baserel_size,
    aqo_get_parameterized_joinrel_size. rewrite !q_get_bind. unfold id. rewrite Hu. cbn [negb orb].
  rewrite !(pg_lift_ok _ _ _ _ Er), !(pg_lift_ok _ _ _ _ El), Hlearn. split; [done|]. split; [by destruct (join_clauses _ _ _ _)|].
  split; [|by destruct (join_clauses _ _ _ _)].
  set (all := clauses ++ rel_restrictinfo rel) in *. 
  destruct (ensures_inv _ _ (get_eclasses_ok (clause <$> all))) as ([ah eh] & Ee & He).
  destruct (cache_all_total ah eh (Z.of_nat (rel_relid rel)) (rte_relid rte) all (get_selectivities2 all 0 JOIN_INNER None) (cache g))
    as [objects Ec].
  { intros c Hc. rewrite Forall_fmap, Forall_forall in Hok. exact (clause_hash2_total _ _ _ _ He (Hok c Hc)). }
  exists objects. rewrite (pg_bind_ok _ _ _ (rte_relid rte, mkGlobals objects (ppi_explore_value g)) st); [done|]. rewrite (pg_lift_ok _ _ _ _ Er), (pg_lift_ok _ _ _ _ Ee).
  cbv beta iota. by rewrite (pg_lift_ok _ _ _ _ Ec).
Qed.


(** ** Concrete inputs *)
Definition sample_statistics : Statistics := {| clause_selectivity := fun c _ _ _ => norm_selec c |}.
Definition sample_estimators : Estimators :=
  {| default_baserel_rows := fun _ => d_of_Z 100; default_parameterized_baserel_size := fun _ _ => d_of_Z 10;
     default_joinrel_rows := fun _ _ _ _ _ => d_of_Z 1000; default_parameterized_joinrel_size := fun _ _ _ _ _ => d_of_Z 50 |}.

Definition sample_root : PlannerInfo := mkPlannerInfo None [mkRTE RTE_RELATION 1; mkRTE RTE_RELATION 3].
Definition sample_sj : SpecialJoinInfo := mkSJ None None None None JOIN_INNER false false false false [] [].
Definition sample_rel (relid : nat) (relids : Bitmapset) (base : list RestrictInfo) : HookRel := mkHookRel relid relids base None d0 d0.
Definition sample_restricts : list RestrictInfo := [sample_info (sample_eq (sample_int 5)) (dlit 1 10); sample_info sample_join (dlit 1 2)].
Definition sample_using : pgstate := set_ctx planning_state (set_use true (set_learn true (ctx planning_state))).

Lemma using_db : db_ok (fun _ => 2) sample_using.
Proof. apply (db_ok_rows _ planning_state); try reflexivity. exact planning_db. Qed.

Lemma using_query : query_ok (ctx sample_using).
Proof. split; [by split | vm_compute; lia]. Qed.

(** Two orders of the sample clauses with their selectivities. *)
Lemma sample_join_estimable :
  @estimable sample_libm sample_scratch (fun _ => 2) sample_restricts sample_sels [1; 3]%Z.
Proof.
  split; [repeat constructor; intros _; discriminate|]. split; [simpl; lia|].
  intros fss F E. vm_compute in E. injection E as _ <-. split; [right; reflexivity | discriminate].
Qed.

Lemma sample_param_estimable :
  @estimable sample_libm sample_scratch (fun _ => 2) (reverse sample_restricts) (reverse sample_sels) [3]%Z.
Proof.
  split; [repeat constructor; intros _; discriminate|]. split; [simpl; lia|].
  intros fss F E. vm_compute in E. injection E as _ <-. split; [right; reflexivity | discriminate].
Qed.

Lemma sample_param_fss : ∃ fss F,
  @fss_for_object sample_libm sample_scratch (clause <$> reverse sample_restricts) (reverse sample_sels) [3]%Z = Ok (fss, F).
Proof. eexists _, _. vm_compute. reflexivity. Qed.

Lemma sample_agree : @selectivities_agree sample_statistics [] (reverse sample_restricts) 3.
Proof.
  intros c k Hc Hk. split; [intros s; discriminate|]. intros c' Hc' Hk'. rewrite <- Hk in Hk'.
  change (reverse sample_restricts) with [sample_info sample_join (dlit 1 2); sample_info (sample_eq (sample_int 5)) (dlit 1 10)] in Hc, Hc'.
  apply elem_of_cons in Hc as [-> | ->%list_elem_of_singleton];
    (apply elem_of_cons in Hc' as [-> | ->%list_elem_of_singleton]); try (vm_compute in Hk'; discriminate Hk'); reflexivity.
Qed.


Lemma forced_mode_unestimated_witness :
  use_aqo (new_settings AQO_MODE_FORCED (ctx planning_state)) = true ∧
  @aqo_set_baserel_rows_estimate good_cluster sample_libm sample_palloc sample_scratch sample_statistics sample_estimators
    AQO_MODE_FORCED sample_root (sample_rel 2 (Some [4%Z]) sample_restricts) sample_using
  = (Ok (sample_rel 2 (Some [4%Z]) sample_restricts), sample_using).
Proof.
  destruct (@forced_mode_unestimated good_cluster sample_libm sample_palloc sample_scratch sample_statistics sample_estimators
    AQO_MODE_FORCED sample_root (sample_rel 2 (Some [4%Z]) sample_restricts) (sample_rel 1 (Some [2%Z]) []) (sample_rel 2 (Some [4%Z]) [])
    sample_sj [] None None (mkGlobals [] d0) (mkRTE RTE_RELATION 3) [3%Z] sample_using) as [Hforced Hun].
  split; [apply Hforced|]. apply Hun; [discriminate | reflexivity | reflexivity | vm_compute; reflexivity | apply sample_join_estimable].
Defined.

