(* ===== verification/AutoTuning.v ===== *)
(** * AutoTuning: the statistics of a query and the automatic setting of AQO

    [update_query_stat_row] of contrib/aqo/postprocessing.c, which enters an
    execution into the three series of a query, and contrib/aqo/auto_tuning.c,
    which reads the series and sets whether AQO is used.  The executor hook has
    both calls commented out.  A series is an array of [aqo_stat_size] cells with
    the number of the cells in use; in [QueryStat] it is the list of the cells in
    use. *)
From S2P Require Import Prelude Float64 Knn Utils PgArray LwprModel PgState Storage Preprocess.

(** ** Entering an execution *)

(** One of the three blocks of [update_query_stat_row]: when the array is full the
    cells move up, and the value goes into the last cell in use. *)
Definition push_value (v : list double) (size : nat) (x : double) : res (list double * nat) :=
  v ← (if aqo_stat_size <=? size then for_range 1 aqo_stat_size (fun i v => y ← rd v i; wr v (i - 1) y) v else Ok v);
  let size := if aqo_stat_size <=? size then aqo_stat_size else size + 1 in
  v ← wr v (size - 1) x;
  Ok (v, size).

Record stat_row : Type := mkRow {
  et : list double; et_size : nat;
  pt : list double; pt_size : nat;
  ce : list double; ce_size : nat;
  n_exec : Z
}.

(** A signed 64-bit counter. *)
Definition to_int64 (z : Z) : Z := ((z + 2 ^ 63) mod 2 ^ 64 - 2 ^ 63)%Z.

Definition update_query_stat_row (r : stat_row) (planning_time execution_time cardinality_error : double) : res stat_row :=
  '(ce', ce_size') ← (if (cardinality_error >=? d0)%D then push_value (ce r) (ce_size r) cardinality_error else Ok (ce r, ce_size r));
  '(et', et_size') ← push_value (et r) (et_size r) execution_time;
  '(pt', pt_size') ← push_value (pt r) (pt_size r) planning_time;
  Ok (mkRow et' et_size' pt' pt_size' ce' ce_size' (to_int64 (n_exec r + 1))).

(** ** Tuning *)
Definition auto_tuning_window_size : nat := 5.
Definition auto_tuning_infinite_loop : nat := 8.

Definition get_mean (elems : list double) (nelems : nat) : res double :=
  sum ← for_range 0 nelems (fun i sum => x ← rd elems i; Ok (sum + x)%D) d0;
  Ok (sum / d_of_Z (Z.of_nat nelems))%D.

Definition get_estimation (elems : list double) (nelems : nat) : res double :=
  let start := if auto_tuning_window_size <? nelems then nelems - auto_tuning_window_size else 0 in
  get_mean (drop start elems) (nelems - start).

Definition is_stable (elems : list double) (nelems : nat) : res bool :=
  est ← get_mean elems (nelems - 1);
  last ← rd elems (nelems - 1);
  Ok (((last <? est * dlit 11 10)%D || (last <? est + dlit 1 10)%D) && ((est * dlit 9 10 <? last)%D || (est - dlit 1 10 <? last)%D)).

(** [nelems] may be negative in [is_in_infinite_loop_cq]. *)
Definition converged_cq (elems : list double) (nelems : Z) : res bool :=
  if (nelems <? Z.of_nat auto_tuning_window_size + 2)%Z then Ok false
  else is_stable (drop (Z.to_nat nelems - auto_tuning_window_size - 1) elems) (auto_tuning_window_size + 1).

(** [&&] evaluates its second side only when the first is true. *)
Definition is_in_infinite_loop_cq (elems : list double) (nelems : Z) : res bool :=
  if (nelems - Z.of_nat auto_tuning_infinite_loop <? Z.of_nat auto_tuning_window_size + 2)%Z then Ok false
  else
    c ← converged_cq elems nelems;
    if negb c then c ← converged_cq elems (nelems - Z.of_nat auto_tuning_window_size); Ok (negb c) else Ok false.

(** Whether the estimated times are compared. *)
Definition compares_times (stat : QueryStat) : res bool :=
  let errors := cardinality_error_with_aqo stat in
  let size := Z.of_nat (length errors) in
  if (executions_without_aqo stat <? Z.of_nat auto_tuning_window_size + 1)%Z then Ok false
  else
    c ← converged_cq errors size;
    if negb c then is_in_infinite_loop_cq errors size else Ok true.

Definition estimated_times (stat : QueryStat) : res (double * double) :=
  let est v := get_estimation v (length v) in
  e1 ← est (execution_time_with_aqo stat); p1 ← est (planning_time_with_aqo stat);
  e2 ← est (execution_time_without_aqo stat); p2 ← est (planning_time_without_aqo stat);
  Ok ((e1 + p1)%D, (e2 + p2)%D).

Definition automatical_query_tuning `{Cluster} (qh : Z) (stat : QueryStat) : PG bool :=
  q_modify (set_learn true);;
  s ← pg_lift (compares_times stat);
  (if (s : bool) then
     '(t_aqo, t_not_aqo) ← pg_lift (estimated_times stat);
     if (t_aqo <? t_not_aqo)%D then q_modify (set_use true) else q_modify (set_use true)
   else q_modify (set_use true));;
  q ← q_get id;
  update_query qh (learn_aqo q) (use_aqo q) (fspace_hash q) true.

(** ** The series *)

(** The last values of a series, as many as fit. *)
Definition latest (xs : list double) : list double := drop (length xs - aqo_stat_size) xs.

(** The array [v] with [size] cells in use holds the series [xs]. *)
Record series_is (v : list double) (size : nat) (xs : list double) : Prop := {
  series_len : length v = aqo_stat_size;
  series_size : size = length xs `min` aqo_stat_size;
  series_cells : take size v = latest xs
}.

Lemma shift_ok v :
  length v = aqo_stat_size →
  ensures (for_range 1 aqo_stat_size (fun i (v : list double) => y ← rd v i; wr v (i - 1) y) v) (fun v' =>
    length v' = aqo_stat_size ∧ take (aqo_stat_size - 1) v' = drop 1 v).
Proof.
  intros Hv. eapply ensures_mono.
  { apply (ensures_for (fun i v' => length v' = aqo_stat_size ∧ ∀ k, v' !! k = if decide (k < i - 1) then v !! S k else v !! k));
      [unfold aqo_stat_size; lia | split; [done|]; intros k; case_decide; [lia | done]|].
    intros j t Hj [Hl Ht]. apply ensures_bind, ensures_rd; [lia|]. intros y Hy. rewrite Ht, decide_False in Hy by lia.
    apply ensures_wr; [lia|]. split; [by rewrite length_insert|]. intros k.
    destruct (decide (k = j - 1)) as [->|Hne].
    - rewrite list_lookup_insert_eq, decide_True by lia. rewrite <- Hy. f_equal. lia.
    - rewrite list_lookup_insert_ne, Ht by done. repeat case_decide; lia || done. }
  intros v' [Hl Hk]. split; [done|]. apply list_eq. intros k. rewrite lookup_drop.
  destruct (decide (k < aqo_stat_size - 1)).
  - rewrite lookup_take_lt, Hk, decide_True by lia. done.
  - rewrite lookup_take_ge by lia. symmetry. apply lookup_ge_None. lia.
Qed.

(** A value enters at the end; of a full array the oldest one leaves. *)
Lemma push_value_ok v size xs x :
  series_is v size xs → ensures (push_value v size x) (fun '(v', size') => series_is v' size' (xs ++ [x])).
Proof.
  intros [Hv Hs Hc]. unfold push_value. destruct (Nat.leb_spec aqo_stat_size size) as [Hf|Hf].
  - eapply ensures_bind_mono; [by apply shift_ok|]. intros v' [Hl Ht]. apply ensures_bind, ensures_wr; [unfold aqo_stat_size in *; lia|].
    assert (Hge : aqo_stat_size ≤ length xs) by lia.
    split; [by rewrite length_insert | rewrite length_app; simpl; lia|].
    assert (Es : aqo_stat_size = S (aqo_stat_size - 1)) by done. rewrite Es at 1.
    rewrite (take_S_r _ _ x) by (rewrite list_lookup_insert_eq by (rewrite Hl; unfold aqo_stat_size; lia); done).
    rewrite take_insert_ge by lia. rewrite Ht. unfold latest. rewrite length_app. cbn [length].
    replace (length xs + 1 - aqo_stat_size) with ((length xs - aqo_stat_size) + 1) by lia.
    rewrite <- drop_drop, drop_app_le by lia. rewrite drop_app_le by (rewrite length_drop; unfold aqo_stat_size in *; lia).
    f_equal. unfold latest in Hc. rewrite <- Hc. replace size with (length v) by lia. by rewrite firstn_all.
  - cbn [mbind res_bind]. apply ensures_bind, ensures_wr; [lia|]. assert (size = length xs) by lia. subst size.
    split; [by rewrite length_insert | rewrite length_app; simpl; lia|].
    rewrite Nat.add_sub, Nat.add_1_r. rewrite (take_S_r _ _ x) by (rewrite list_lookup_insert_eq by lia; done).
    rewrite take_insert_ge by lia. rewrite Hc. unfold latest. rewrite length_app. cbn [length].
    rewrite !(proj2 (Nat.sub_0_le _ _)) by lia. done.
Qed.

(** An execution: its planning time, its execution time and the error of its
    cardinalities, negative when there is none. *)
Notation execution := (double * double * double)%type.

Fixpoint record_all (r : stat_row) (runs : list execution) : res stat_row :=
  match runs with
  | [] => Ok r
  | (p, e, c) :: runs => r ← update_query_stat_row r p e c; record_all r runs
  end.

(** The errors that count. *)
Definition errors_of (runs : list execution) : list double := filter (fun c => (c >=? d0)%D = true) (snd <$> runs).

Record row_is (r : stat_row) (runs : list execution) : Prop := {
  row_et : series_is (et r) (et_size r) ((fun '(_, e, _) => e) <$> runs);
  row_pt : series_is (pt r) (pt_size r) ((fun '(p, _, _) => p) <$> runs);
  row_ce : series_is (ce r) (ce_size r) (errors_of runs);
  row_n : n_exec r = to_int64 (Z.of_nat (length runs))
}.

Lemma update_row_ok r runs p e c :
  row_is r runs → ensures (update_query_stat_row r p e c) (fun r' => row_is r' (runs ++ [(p, e, c)])).
Proof.
  intros [He Hp Hc Hn]. unfold update_query_stat_row.
  eapply (ensures_bind_mono _ _ (fun '(v, n) => series_is v n (errors_of (runs ++ [(p, e, c)])))).
  { unfold errors_of in *. rewrite fmap_app, filter_app. cbn [fmap list_fmap snd]. rewrite filter_cons, filter_nil.
    destruct (c >=? d0)%D eqn:Ec; [rewrite decide_True by done; by apply push_value_ok | rewrite decide_False by done].
    by rewrite app_nil_r. }
  intros [ce' n'] Hce. eapply ensures_bind_mono; [exact (push_value_ok _ _ _ e He)|]. intros [et' en] Het.
  eapply ensures_bind_mono; [exact (push_value_ok _ _ _ p Hp)|]. intros [pt' pn] Hpt.
  split; cbn [et et_size pt pt_size ce ce_size n_exec]; rewrite ?fmap_app; [done..|]. rewrite Hn, length_app. unfold to_int64. cbn [length].
  replace ((Z.of_nat (length runs) + 2 ^ 63) mod 2 ^ 64 - 2 ^ 63 + 1 + 2 ^ 63)%Z with ((Z.of_nat (length runs) + 2 ^ 63) mod 2 ^ 64 + 1)%Z by lia.
  rewrite Zplus_mod_idemp_l. do 2 f_equal. lia.
Qed.

Lemma record_all_ok r old runs : row_is r old → ensures (record_all r runs) (fun r' => row_is r' (old ++ runs)).
Proof.
  revert r old. induction runs as [|[[p e] c] runs IH]; intros r old Hr; cbn [record_all]; [by rewrite app_nil_r|].
  eapply ensures_bind_mono; [exact (update_row_ok _ _ p e c Hr)|]. intros r' Hr'. rewrite cons_middle, (assoc_L (++)). by apply IH.
Qed.

(** The statistics of a query are its last executions: from empty arrays,
    after any executions, each array stays of its size and its cells in use are,
    in order, the last twenty execution times, the last twenty planning times and
    the last twenty of the errors that were measured; the counter is their number
    at 64 bits. *)
Theorem statistics_window (runs : list execution) (v1 v2 v3 : list double) :
  length v1 = aqo_stat_size → length v2 = aqo_stat_size → length v3 = aqo_stat_size →
  ensures (record_all (mkRow v1 0 v2 0 v3 0 0) runs) (fun r =>
    (length (et r) = aqo_stat_size ∧ take (et_size r) (et r) = latest ((fun '(_, e, _) => e) <$> runs)) ∧
    (length (pt r) = aqo_stat_size ∧ take (pt_size r) (pt r) = latest ((fun '(p, _, _) => p) <$> runs)) ∧
    (length (ce r) = aqo_stat_size ∧ take (ce_size r) (ce r) = latest (filter (fun c => (c >=? d0)%D = true) (snd <$> runs))) ∧
    n_exec r = to_int64 (Z.of_nat (length runs))).
Proof.
  intros H1 H2 H3. eapply ensures_mono; [apply (record_all_ok _ [])|].
  - by split.
  - intros r [[] [] [] Hn]. cbn [app] in *. split_and!; done.
Qed.

(** ** Tuning *)
Definition mean (xs : list double) : double := (foldl dadd d0 xs / d_of_Z (Z.of_nat (length xs)))%D.

Lemma get_mean_ok elems n : n ≤ length elems → get_mean elems n = Ok (mean (take n elems)).
Proof.
  intros Hn. assert (Hm : ensures (get_mean elems n) (fun m => m = mean (take n elems))).
  { unfold get_mean. eapply ensures_bind_mono.
    { apply (ensures_for (fun i sum => sum = foldl dadd d0 (take i elems))); [lia | done|].
      intros j sum Hj ->. apply ensures_bind, ensures_rd; [lia|]. intros x Hx. rewrite (take_S_r _ _ _ Hx), foldl_app. done. }
    intros sum ->. unfold mean. by rewrite length_take_le. }
  destruct (ensures_inv _ _ Hm) as (m & -> & ->). done.
Qed.

Lemma get_estimation_total elems : ∃ m, get_estimation elems (length elems) = Ok m.
Proof. unfold get_estimation. eexists. apply get_mean_ok. rewrite length_drop. lia. Qed.

(** Within a tenth of the estimate, or 0.1, on both sides. *)
Definition near (est last : double) : bool :=
  ((last <? est * dlit 11 10)%D || (last <? est + dlit 1 10)%D) && ((est * dlit 9 10 <? last)%D || (est - dlit 1 10 <? last)%D).

(** A series has converged when its last value is near the mean of the values of
    the window before it. *)
Lemma converged_cq_ok pre ws x rest :
  length ws = auto_tuning_window_size →
  converged_cq (pre ++ ws ++ x :: rest) (Z.of_nat (length (pre ++ ws ++ [x]))) =
    Ok (if decide (pre = []) then false else near (mean ws) x).
Proof.
  unfold auto_tuning_window_size. intros Hw. unfold converged_cq, auto_tuning_window_size.
  rewrite !length_app, Hw, Nat2Z.id. cbn [length]. destruct pre as [|a pre]; [done|]. rewrite decide_False by done.
  destruct (Z.ltb_spec (Z.of_nat (length (a :: pre) + (5 + 1))) (Z.of_nat 5 + 2)); [simpl in *; lia|].
  replace (length (a :: pre) + (5 + 1) - 5 - 1) with (length (a :: pre)) by lia. rewrite drop_app_length.
  unfold is_stable. rewrite get_mean_ok by (rewrite length_app; simpl; lia). cbn [mbind res_bind Nat.add Nat.sub].
  rewrite <- Hw. rewrite take_app_length. erewrite (rd_some _ _ x); [done|]. rewrite lookup_app_r, Nat.sub_diag by lia. done.
Qed.

Lemma converged_cq_total elems n : (n ≤ Z.of_nat (length elems))%Z → ∃ b, converged_cq elems n = Ok b.
Proof.
  intros Hn. destruct (decide (n < 7)%Z).
  { exists false. unfold converged_cq, auto_tuning_window_size. destruct (Z.ltb_spec n (Z.of_nat 5 + 2)); [done | lia]. }
  set (k := Z.to_nat n). assert (Hk : k ≤ length elems) by lia.
  destruct (lookup_lt_is_Some_2 elems (k - 1)) as [x Hx]; [lia|].
  rewrite <- (take_drop_middle _ _ _ Hx), <- (take_drop (k - 6) (take (k - 1) elems)), <- (assoc_L (++)). 
  replace n with (Z.of_nat (length (take (k - 6) (take (k - 1) elems) ++ drop (k - 6) (take (k - 1) elems) ++ [x]))).
  - eexists. apply converged_cq_ok. unfold auto_tuning_window_size. rewrite length_drop, length_take. lia.
  - rewrite !length_app, length_drop, !length_take. simpl. lia.
Qed.

Lemma compares_times_total stat : ∃ b, compares_times stat = Ok b.
Proof.
  unfold compares_times, is_in_infinite_loop_cq. cbv zeta. destruct (_ <? _)%Z; [eauto|].
  destruct (converged_cq_total (cardinality_error_with_aqo stat) (Z.of_nat (length (cardinality_error_with_aqo stat)))) as [b ->]; [lia|].
  cbn [mbind res_bind]. destruct b; cbn [negb]; [eauto|]. destruct (_ <? _)%Z; [eauto|].
  edestruct (converged_cq_total (cardinality_error_with_aqo stat)) as [b ->]; [|cbn [mbind res_bind]; eauto]. lia.
Qed.

Lemma estimated_times_total stat : ∃ p, estimated_times stat = Ok p.
Proof.
  unfold estimated_times.
  destruct (get_estimation_total (execution_time_with_aqo stat)) as [? ->], (get_estimation_total (planning_time_with_aqo stat)) as [? ->],
    (get_estimation_total (execution_time_without_aqo stat)) as [? ->], (get_estimation_total (planning_time_without_aqo stat)) as [? ->].
  cbn. eauto.
Qed.

(** Automatic tuning never turns AQO off: whatever the statistics say (the
    errors converged or not, the query faster or slower with AQO), it reads inside
    the series, sets the query to learn and to use AQO and writes these settings;
    and for every stored query that write leaves the five-cell arrays of
    [update_query]. *)
Theorem tuning_always_on `{Cluster} (qh : Z) (stat : QueryStat) (st : pgstate) :
  let st' := set_ctx st (set_use true (set_learn true (ctx st))) in
  automatical_query_tuning qh stat st = update_query qh true true (fspace_hash (ctx st)) true st' ∧
  ∀ t, available aqo_queries → row_data st aqo_queries [qh] = Some t → length t = natts aqo_queries →
    (automatical_query_tuning qh stat st).1 = Err Fault_bounds.
Proof.
  intros st'.
  assert (E : automatical_query_tuning qh stat st = update_query qh true true (fspace_hash (ctx st)) true st').
  { unfold automatical_query_tuning. rewrite q_modify_bind. destruct (compares_times_total stat) as [s Es].
    rewrite (pg_lift_ok _ _ _ _ Es). rewrite (pg_bind_ok _ _ _ tt st').
    - rewrite q_get_bind. subst st'. by destruct (ctx st).
    - destruct s; [|done]. destruct (estimated_times_total stat) as [[t1 t2] Et]. rewrite (pg_lift_ok _ _ _ _ Et).
      by destruct (t1 <? t2)%D. }
  split; [done|]. intros t Hav Ht Hl. rewrite E. by apply (update_query_overflows qh true true (fspace_hash (ctx st)) true t st').
Qed.

(** ** Concrete inputs *)

(** Twenty-two executions, the second without a measured error. *)
Definition sample_runs : list execution :=
  (fun i => (d_of_Z (Z.of_nat i), d_of_Z (Z.of_nat (2 * i)), if (i =? 2)%nat then d_of_Z (-1) else d_of_Z (Z.of_nat (3 * i)))) <$> seq 1 22.

Lemma statistics_window_witness :
  ensures (record_all (mkRow (replicate 20 d0) 0 (replicate 20 d0) 0 (replicate 20 d0) 0 0) sample_runs) (fun r =>
    take (et_size r) (et r) = (fun i => d_of_Z (Z.of_nat (2 * i))) <$> seq 3 20 ∧
    take (ce_size r) (ce r) = (fun i => d_of_Z (Z.of_nat (3 * i))) <$> seq 3 20 ∧ n_exec r = 22%Z).
Proof.
  eapply ensures_mono; [exact (statistics_window sample_runs (replicate 20 d0) (replicate 20 d0) (replicate 20 d0) eq_refl eq_refl eq_refl)|].
  intros r ((_ & He) & _ & (_ & Hc) & Hn). rewrite He, Hc, Hn. vm_compute. auto.
Defined.

(** A query that is slower with AQO, its error stable. *)
Definition slow_stat : QueryStat :=
  mkQueryStat (replicate 8 (d_of_Z 9)) (replicate 8 (d_of_Z 2)) (replicate 8 (d_of_Z 1)) (replicate 8 (d_of_Z 1))
    (replicate 8 (dlit 1 2)) (replicate 8 (dlit 1 2)) 8 8.

Lemma tuning_always_on_witness :
  compares_times slow_stat = Ok true ∧ estimated_times slow_stat = Ok (d_of_Z 10, d_of_Z 3) ∧
  (@automatical_query_tuning good_cluster 3 slow_stat (sample_state aqo_queries [query_row])).1 = Err Fault_bounds.
Proof.
  split; [vm_compute; reflexivity|]. split; [vm_compute; reflexivity|].
  apply (proj2 (@tuning_always_on good_cluster 3 slow_stat (sample_state aqo_queries [query_row])) (Some <$> query_row));
    [done | reflexivity | reflexivity].
Defined.
