(* ===== verification/Guc.v ===== *)
(** * Guc: the settings of a session

    guc.c keeps the variables a user can set, [aqo.mode] among them.  A variable of
    an enumerated type has a current value, a value for RESET and a stack of former
    values, because SET is undone when a transaction aborts and SET LOCAL when it
    ends.  This file models the variable, setting it, and the ends of (sub)transactions
    and functions, and shows that the stack implements nested transactions.  [Extension]
    defines [aqo.mode].

    A variable without hooks and extra data is modelled, as [aqo.mode] is one; the
    search of a variable by its name is the position [i] in the table. *)
From S2P Require Import Prelude Nodes PgState Preprocess.
From stdpp Require Import strings.
From Stdlib Require Import Ascii.

(** ** Data *)
Inductive GucContext : Type :=
| PGC_INTERNAL | PGC_POSTMASTER | PGC_SIGHUP | PGC_SU_BACKEND | PGC_BACKEND | PGC_SUSET | PGC_USERSET.

Inductive GucSource : Type :=
| PGC_S_DEFAULT | PGC_S_DYNAMIC_DEFAULT | PGC_S_ENV_VAR | PGC_S_FILE | PGC_S_ARGV | PGC_S_GLOBAL | PGC_S_DATABASE
| PGC_S_USER | PGC_S_DATABASE_USER | PGC_S_CLIENT | PGC_S_OVERRIDE | PGC_S_INTERACTIVE | PGC_S_TEST | PGC_S_SESSION.

Inductive GucAction : Type := GUC_ACTION_SET | GUC_ACTION_LOCAL | GUC_ACTION_SAVE.
Inductive GucStackState : Type := GUC_SAVE | GUC_SET | GUC_LOCAL | GUC_SET_LOCAL.

(** The levels of messages that occur here; 0 asks for the standard choice. *)
Inductive ELevel : Type := DEBUG3 | LOG | WARNING | ERROR.

#[export] Instance GucContext_eq_dec : EqDecision GucContext.
Proof. solve_decision. Defined.
#[export] Instance GucSource_eq_dec : EqDecision GucSource.
Proof. solve_decision. Defined.
#[export] Instance GucAction_eq_dec : EqDecision GucAction.
Proof. solve_decision. Defined.
#[export] Instance GucStackState_eq_dec : EqDecision GucStackState.
Proof. solve_decision. Defined.

(** The order of the sources is that of the enumeration. *)
Definition priority (s : GucSource) : nat :=
  match s with
  | PGC_S_DEFAULT => 0 | PGC_S_DYNAMIC_DEFAULT => 1 | PGC_S_ENV_VAR => 2 | PGC_S_FILE => 3 | PGC_S_ARGV => 4 | PGC_S_GLOBAL => 5
  | PGC_S_DATABASE => 6 | PGC_S_USER => 7 | PGC_S_DATABASE_USER => 8 | PGC_S_CLIENT => 9 | PGC_S_OVERRIDE => 10
  | PGC_S_INTERACTIVE => 11 | PGC_S_TEST => 12 | PGC_S_SESSION => 13
  end.

(** A stack entry; [prev] is the rest of the list. *)
Record GucStack : Type := mkStack {
  nest_level : nat;
  entry_state : GucStackState;
  entry_source : GucSource;
  entry_scontext : GucContext;
  masked_scontext : GucContext;
  prior : Z;
  masked : Z
}.

Record config_enum_entry : Type := mkOption { opt_name : cstring; opt_val : Z; opt_hidden : bool }.

Record config_enum : Type := mkEnum {
  guc_name : cstring;
  guc_context : GucContext;
  guc_flags : Z;
  pending_restart : bool;
  guc_source : GucSource;
  reset_source : GucSource;
  guc_scontext : GucContext;
  reset_scontext : GucContext;
  guc_stack : list GucStack;
  guc_variable : Z;
  boot_val : Z;
  guc_options : list config_enum_entry;
  reset_val : Z
}.

Definition set_stack (c : config_enum) (l : list GucStack) : config_enum :=
  mkEnum (guc_name c) (guc_context c) (guc_flags c) (pending_restart c) (guc_source c) (reset_source c) (guc_scontext c) (reset_scontext c)
    l (guc_variable c) (boot_val c) (guc_options c) (reset_val c).
Definition set_value (c : config_enum) (v : Z) (s : GucSource) (x : GucContext) : config_enum :=
  mkEnum (guc_name c) (guc_context c) (guc_flags c) (pending_restart c) s (reset_source c) x (reset_scontext c)
    (guc_stack c) v (boot_val c) (guc_options c) (reset_val c).
Definition set_reset (c : config_enum) (v : Z) (s : GucSource) (x : GucContext) : config_enum :=
  mkEnum (guc_name c) (guc_context c) (guc_flags c) (pending_restart c) (guc_source c) s (guc_scontext c) x
    (guc_stack c) (guc_variable c) (boot_val c) (guc_options c) v.
Definition set_pending (c : config_enum) (b : bool) : config_enum :=
  mkEnum (guc_name c) (guc_context c) (guc_flags c) b (guc_source c) (reset_source c) (guc_scontext c) (reset_scontext c)
    (guc_stack c) (guc_variable c) (boot_val c) (guc_options c) (reset_val c).

(** The variables and the two globals of the transactional part. *)
Record Guc : Type := mkGuc {
  guc_variables : list config_enum;
  GUCNestLevel : nat;
  guc_dirty : bool
}.

(** What the rest of the server says. *)
Class GucServer : Type := {
  IsUnderPostmaster : bool;
  InLocalUserIdChange : bool;
  InSecurityRestrictedOperation : bool
}.

Definition GUC_NO_RESET_ALL : Z := 8.
Definition GUC_NOT_WHILE_SEC_REST : Z := 1024.

(** ** Names of values *)

(** Folding one character as [pg_strcasecmp] does; bytes above 127 as in the C locale. *)
Definition fold_char (ch : Z) : Z := if (65 <=? ch)%Z && (ch <=? 90)%Z then (ch + 32)%Z else ch.
Definition char_code (c : ascii) : Z := Z.of_N (N_of_ascii c).

(** The end of a text is the character 0. *)
Fixpoint pg_strcasecmp (s1 s2 : cstring) : Z :=
  let ch1 := match s1 with [] => 0%Z | c :: _ => char_code c end in
  let ch2 := match s2 with [] => 0%Z | c :: _ => char_code c end in
  let d := (if (ch1 =? ch2)%Z then 0 else fold_char ch1 - fold_char ch2)%Z in
  if negb (d =? 0)%Z then d
  else if (ch1 =? 0)%Z then 0%Z
  else match s1, s2 with _ :: s1, _ :: s2 => pg_strcasecmp s1 s2 | _, _ => 0%Z end.

Fixpoint lookup_by_value (l : list config_enum_entry) (val : Z) : res cstring :=
  match l with
  | [] => Err (Fault_elog "could not find enum option")
  | e :: l => if (opt_val e =? val)%Z then Ok (opt_name e) else lookup_by_value l val
  end.
Definition config_enum_lookup_by_value (record : config_enum) (val : Z) : res cstring := lookup_by_value (guc_options record) val.

Fixpoint lookup_by_name (l : list config_enum_entry) (value : cstring) : option Z :=
  match l with
  | [] => None
  | e :: l => if (pg_strcasecmp value (opt_name e) =? 0)%Z then Some (opt_val e) else lookup_by_name l value
  end.
Definition config_enum_lookup_by_name (record : config_enum) (value : cstring) : option Z := lookup_by_name (guc_options record) value.

(** ** Stacking *)

(** A second assignment at the same nest level. *)
Definition adjust_entry (gconf : config_enum) (action : GucAction) (s : GucStack) : GucStack :=
  match action with
  | GUC_ACTION_SET => mkStack (nest_level s) GUC_SET (entry_source s) (entry_scontext s) (masked_scontext s) (prior s) (masked s)
  | GUC_ACTION_LOCAL =>
      if decide (entry_state s = GUC_SET) then
        mkStack (nest_level s) GUC_SET_LOCAL (entry_source s) (entry_scontext s) (guc_scontext gconf) (prior s) (guc_variable gconf)
      else s
  | GUC_ACTION_SAVE => s
  end.

Definition action_state (action : GucAction) : GucStackState :=
  match action with GUC_ACTION_SET => GUC_SET | GUC_ACTION_LOCAL => GUC_LOCAL | GUC_ACTION_SAVE => GUC_SAVE end.

(** The new entry is zeroed memory where nothing is stored. *)
Definition new_entry (level : nat) (gconf : config_enum) (action : GucAction) : GucStack :=
  mkStack level (action_state action) (guc_source gconf) (guc_scontext gconf) PGC_INTERNAL (guc_variable gconf) 0.

(** With the value of [guc_dirty]. *)
Definition push_old_value (level : nat) (dirty : bool) (gconf : config_enum) (action : GucAction) : config_enum * bool :=
  if level =? 0 then (gconf, dirty)
  else
    let push := (set_stack gconf (new_entry level gconf action :: guc_stack gconf), true) in
    match guc_stack gconf with
    | s :: prev => if level <=? nest_level s then (set_stack gconf (adjust_entry gconf action s :: prev), dirty) else push
    | [] => push
    end.

(** ** Setting a variable *)
Section setting.
Context `{Server} `{GucServer}.

Definition has_flag (record : config_enum) (flag : Z) : bool := negb (Z.land (guc_flags record) flag =? 0)%Z.

(** The standard choice of a message level. *)
Definition standard_elevel (source : GucSource) : ELevel :=
  match source with
  | PGC_S_DEFAULT | PGC_S_FILE => if IsUnderPostmaster then DEBUG3 else LOG
  | PGC_S_GLOBAL | PGC_S_DATABASE | PGC_S_USER | PGC_S_DATABASE_USER => WARNING
  | _ => ERROR
  end.

Definition ereport (elevel : ELevel) (msg : string) : res () := match elevel with ERROR => Err (Fault_elog msg) | _ => Ok () end.

(** The outcome of the checks: go on, with [prohibitValueChange]; complain and return 0;
    return -1. *)
Inductive verdict : Type := Allowed (prohibit : bool) | Denied (msg : string) | Ignored.

Definition backend_verdict (context : GucContext) (source : GucSource) (is_reload : bool) : verdict :=
  match context with
  | PGC_SIGHUP => if IsUnderPostmaster && negb is_reload then Ignored else Allowed false
  | PGC_POSTMASTER | PGC_BACKEND | PGC_SU_BACKEND => Allowed false
  | _ => if decide (source = PGC_S_CLIENT) then Allowed false else Denied "parameter cannot be set after connection start"
  end.

(** The [switch] on the context the variable needs. *)
Definition context_verdict (needed context : GucContext) (source : GucSource) (is_reload : bool) : verdict :=
  match needed with
  | PGC_INTERNAL => if decide (context = PGC_INTERNAL) then Allowed false else Denied "parameter cannot be changed"
  | PGC_POSTMASTER =>
      match context with
      | PGC_SIGHUP => Allowed true
      | PGC_POSTMASTER => Allowed false
      | _ => Denied "parameter cannot be changed without restarting the server"
      end
  | PGC_SIGHUP =>
      match context with PGC_SIGHUP | PGC_POSTMASTER => Allowed false | _ => Denied "parameter cannot be changed now" end
  | PGC_SU_BACKEND =>
      if decide (context = PGC_BACKEND) then Denied "permission denied to set parameter" else backend_verdict context source is_reload
  | PGC_BACKEND => backend_verdict context source is_reload
  | PGC_SUSET => match context with PGC_USERSET | PGC_BACKEND => Denied "permission denied to set parameter" | _ => Allowed false end
  | PGC_USERSET => Allowed false
  end.

Definition restricted (record : config_enum) : bool :=
  has_flag record GUC_NOT_WHILE_SEC_REST && (InLocalUserIdChange || InSecurityRestrictedOperation).

(** A new default reaches the saved values that come from no higher source. *)
Definition default_entry (newval : Z) (source : GucSource) (context : GucContext) (s : GucStack) : GucStack :=
  if priority (entry_source s) <=? priority source then
    mkStack (nest_level s) (entry_state s) source context (masked_scontext s) newval (masked s)
  else s.

Definition make_default (conf : config_enum) (newval : Z) (source : GucSource) (context : GucContext) : config_enum :=
  let conf := if priority (reset_source conf) <=? priority source then set_reset conf newval source context else conf in
  set_stack conf (map (default_entry newval source context) (guc_stack conf)).

(** The new value with its source and context; [None] when the text is no value. *)
Definition parse_value (conf : config_enum) (value : option cstring) (source : GucSource) (context : GucContext)
  : option (Z * GucSource * GucContext) :=
  match value with
  | Some text => v ← config_enum_lookup_by_name conf text; Some (v, source, context)
  | None =>
      if decide (source = PGC_S_DEFAULT) then Some (boot_val conf, source, context)
      else Some (reset_val conf, reset_source conf, reset_scontext conf)
  end.

(** [set_config_option] on a variable of the table: the returned code, the variable and
    [guc_dirty]. *)
Definition set_option (level : nat) (dirty : bool) (record : config_enum) (value : option cstring) (context : GucContext) (source : GucSource)
    (action : GucAction) (changeVal : bool) (elevel : option ELevel) (is_reload : bool) : res (Z * config_enum * bool) :=
  let elevel := match elevel with Some l => l | None => standard_elevel source end in
  let refuse (msg : string) (record : config_enum) : res (Z * config_enum * bool) := _ ← ereport elevel msg; Ok (0%Z, record, dirty) in
  _ ← (if IsInParallelMode && changeVal && negb (bool_decide (action = GUC_ACTION_SAVE)) then
         ereport elevel "cannot set parameters during a parallel operation" else Ok ());
  match context_verdict (guc_context record) context source is_reload with
  | Ignored => Ok ((-1)%Z, record, dirty)
  | Denied msg => refuse msg record
  | Allowed prohibit =>
      if restricted record then refuse "cannot set parameter within security-restricted operation" record
      else
        let makeDefault := changeVal && (priority source <=? priority PGC_S_OVERRIDE) &&
          (match value with Some _ => true | None => false end || bool_decide (source = PGC_S_DEFAULT)) in
        let lower := priority source <? priority (guc_source record) in
        if lower && changeVal && negb makeDefault then Ok ((-1)%Z, record, dirty)
        else
          let changeVal := changeVal && negb lower in
          match parse_value record value source context with
          | None => refuse "invalid value for parameter" record
          | Some (newval, source, context) =>
              if prohibit : bool then
                if negb (guc_variable record =? newval)%Z then
                  refuse "parameter cannot be changed without restarting the server" (set_pending record true)
                else Ok ((-1)%Z, set_pending record false, dirty)
              else
                let '(conf, dirty) :=
                  if changeVal && negb makeDefault then push_old_value level dirty record action else (record, dirty) in
                let conf := if changeVal then set_value conf newval source context else conf in
                let conf := if makeDefault then make_default conf newval source context else conf in
                Ok (if changeVal then 1%Z else (-1)%Z, conf, dirty)
          end
  end.

Definition set_config_option (i : nat) (value : option cstring) (context : GucContext) (source : GucSource) (action : GucAction)
    (changeVal : bool) (elevel : option ELevel) (is_reload : bool) (st : Guc) : res (Z * Guc) :=
  record ← rd (guc_variables st) i;
  '(ret, conf, dirty) ← set_option (GUCNestLevel st) (guc_dirty st) record value context source action changeVal elevel is_reload;
  Ok (ret, mkGuc (<[i := conf]> (guc_variables st)) (GUCNestLevel st) dirty).

(** RESET ALL. *)
Definition reset_option (level : nat) (dirty : bool) (gconf : config_enum) : config_enum * bool :=
  match guc_context gconf with
  | PGC_SUSET | PGC_USERSET =>
      if has_flag gconf GUC_NO_RESET_ALL then (gconf, dirty)
      else if priority (guc_source gconf) <=? priority PGC_S_OVERRIDE then (gconf, dirty)
      else
        let '(conf, dirty) := push_old_value level dirty gconf GUC_ACTION_SET in
        (set_value conf (reset_val conf) (reset_source conf) (reset_scontext conf), dirty)
  | _ => (gconf, dirty)
  end.

Fixpoint reset_all (level : nat) (dirty : bool) (l : list config_enum) : list config_enum * bool :=
  match l with
  | [] => ([], dirty)
  | gconf :: l =>
      let '(conf, dirty) := reset_option level dirty gconf in
      let '(l, dirty) := reset_all level dirty l in
      (conf :: l, dirty)
  end.

Definition ResetAllOptions (st : Guc) : Guc :=
  let '(l, dirty) := reset_all (GUCNestLevel st) (guc_dirty st) (guc_variables st) in mkGuc l (GUCNestLevel st) dirty.
End setting.

(** ** Transactions *)
Definition AtStart_GUC (st : Guc) : Guc := mkGuc (guc_variables st) 1 (guc_dirty st).
Definition NewGUCNestLevel (st : Guc) : nat * Guc :=
  (S (GUCNestLevel st), mkGuc (guc_variables st) (S (GUCNestLevel st)) (guc_dirty st)).

(** Merging a SET, LOCAL or SET_LOCAL entry into the one of the level below. *)
Definition merge_entry (s prev : GucStack) : GucStack :=
  match entry_state s with
  | GUC_SAVE => prev
  | GUC_SET => mkStack (nest_level prev) GUC_SET (entry_source prev) (entry_scontext prev) (masked_scontext prev) (prior prev) (masked prev)
  | GUC_LOCAL =>
      if decide (entry_state prev = GUC_SET) then
        mkStack (nest_level prev) GUC_SET_LOCAL (entry_source prev) (entry_scontext prev) (entry_scontext s) (prior prev) (prior s)
      else prev
  | GUC_SET_LOCAL =>
      mkStack (nest_level prev) GUC_SET_LOCAL (entry_source prev) (entry_scontext prev) (masked_scontext s) (prior prev) (masked s)
  end.

Definition lower_entry (s : GucStack) : GucStack :=
  mkStack (nest_level s - 1) (entry_state s) (entry_source s) (entry_scontext s) (masked_scontext s) (prior s) (masked s).

(** One round of the loop that pops the entries of a level. *)
Definition pop_entry (isCommit : bool) (gconf : config_enum) (s : GucStack) (prev : list GucStack) : config_enum :=
  let restore_prior := set_stack (set_value gconf (prior s) (entry_source s) (entry_scontext s)) prev in
  if negb isCommit then restore_prior
  else if decide (entry_state s = GUC_SAVE) then restore_prior
  else if nest_level s =? 1 then
    match entry_state s with
    | GUC_SET_LOCAL => set_stack (set_value gconf (masked s) PGC_S_SESSION (masked_scontext s)) prev
    | GUC_SET => set_stack gconf prev
    | _ => restore_prior
    end
  else
    match prev with
    | p :: rest =>
        if nest_level p <? nest_level s - 1 then set_stack gconf (lower_entry s :: prev)
        else set_stack gconf (merge_entry s p :: rest)
    | [] => set_stack gconf [lower_entry s]
    end.

Fixpoint pop_stack (fuel : nat) (isCommit : bool) (nestLevel : nat) (gconf : config_enum) : res config_enum :=
  match guc_stack gconf with
  | s :: prev =>
      if nestLevel <=? nest_level s then
        match fuel with
        | O => Err Fault_fuel
        | S fuel => pop_stack fuel isCommit nestLevel (pop_entry isCommit gconf s prev)
        end
      else Ok gconf
  | [] => Ok gconf
  end.

(** Every round pops an entry or takes one down a level. *)
Definition stack_weight (l : list GucStack) : nat := sum_list_with (fun s => S (nest_level s)) l.
Definition pop_fuel (gconf : config_enum) : nat := stack_weight (guc_stack gconf).

Fixpoint pop_all (isCommit : bool) (nestLevel : nat) (l : list config_enum) : res (list config_enum) :=
  match l with
  | [] => Ok []
  | gconf :: l =>
      gconf ← pop_stack (pop_fuel gconf) isCommit nestLevel gconf;
      l ← pop_all isCommit nestLevel l;
      Ok (gconf :: l)
  end.

Definition AtEOXact_GUC (isCommit : bool) (nestLevel : nat) (st : Guc) : res Guc :=
  if negb (guc_dirty st) then Ok (mkGuc (guc_variables st) (nestLevel - 1) false)
  else
    l ← pop_all isCommit nestLevel (guc_variables st);
    Ok (mkGuc l (nestLevel - 1) (existsb (fun c => match guc_stack c with [] => false | _ => true end) l)).

(** ** What transactions promise

    A setting has a committed value and a frame for each open transaction,
    subtransaction or function: the value in effect, the value that a commit leaves
    (if there was a SET), and whether the frame was touched by an assignment or by
    entering a function, whose assignments always end with it. *)
Inductive touch : Type := Untouched | Touched | Saved.
Record frame : Type := mkFrame { active : Z; persist : option Z; touched : touch }.
Record setting : Type := mkSetting {
  choices : list config_enum_entry;
  default_value : Z;
  committed : Z;
  frames : list frame
}.

Definition with_frames (a : setting) (v : Z) (l : list frame) : setting := mkSetting (choices a) (default_value a) v l.
Definition in_effect (a : setting) : Z := match frames a with f :: _ => active f | [] => committed a end.

Definition spec_begin (a : setting) : setting := with_frames a (committed a) (mkFrame (in_effect a) None Untouched :: frames a).

Definition assign_frame (action : GucAction) (v : Z) (f : frame) : frame :=
  match action with
  | GUC_ACTION_SET => mkFrame v (Some v) Touched
  | GUC_ACTION_LOCAL => mkFrame v (persist f) (match touched f with Untouched => Touched | t => t end)
  | GUC_ACTION_SAVE => mkFrame v None Saved
  end.

Definition spec_assign (action : GucAction) (v : Z) (a : setting) : setting :=
  match frames a with
  | [] => with_frames a v []
  | f :: fs => with_frames a (committed a) (assign_frame action v f :: fs)
  end.

(** A committed frame goes into the one around it. *)
Definition join_frames (f g : frame) : frame :=
  match touched f with
  | Saved => g
  | Untouched => g
  | Touched =>
      mkFrame (active f) (match persist f with Some v => Some v | None => persist g end)
        (match touched g, persist f with Saved, None => Saved | _, _ => Touched end)
  end.

Definition spec_commit (a : setting) : setting :=
  match frames a with
  | [] => a
  | [f] => with_frames a (match touched f with Saved => committed a | _ => default (committed a) (persist f) end) []
  | f :: g :: fs => with_frames a (committed a) (join_frames f g :: fs)
  end.

(** Aborting level [k] drops the frames from it on. *)
Definition spec_abort (k : nat) (a : setting) : setting :=
  with_frames a (committed a) (drop (S (length (frames a)) - k) (frames a)).

(** The entries of the stack and the frames they stand for. *)
Definition entry_means (s : GucStack) (f : frame) : Prop :=
  match entry_state s with
  | GUC_SAVE => persist f = None ∧ touched f = Saved
  | GUC_SET => persist f = Some (active f) ∧ touched f = Touched
  | GUC_LOCAL => persist f = None ∧ touched f = Touched
  | GUC_SET_LOCAL => persist f = Some (masked s) ∧ touched f = Touched
  end.

Inductive implements : Z → list GucStack → list frame → Z → Prop :=
| impl_base v : implements v [] [] v
| impl_inherit v l fs base : implements v l fs base → implements v l (mkFrame v None Untouched :: fs) base
| impl_entry s prev f fs base :
    nest_level s = S (length fs) → entry_means s f → implements (prior s) prev fs base → implements (active f) (s :: prev) (f :: fs) base.

Lemma implements_level v l fs base : implements v l fs base → Forall (fun s => nest_level s ≤ length fs) l.
Proof.
  induction 1 as [| |s prev f fs base Hl _ _ IH]; [done | |].
  - eapply Forall_impl; [done|]. cbn. lia.
  - apply Forall_cons. split; [cbn; lia|]. eapply Forall_impl; [exact IH|]. cbn. lia.
Qed.

Lemma implements_nil v l base : implements v l [] base → l = [] ∧ v = base.
Proof. by inversion 1. Qed.

Lemma implements_cons v l f fs base :
  implements v l (f :: fs) base →
  (f = mkFrame v None Untouched ∧ implements v l fs base) ∨
  ∃ s prev, l = s :: prev ∧ v = active f ∧ nest_level s = S (length fs) ∧ entry_means s f ∧ implements (prior s) prev fs base.
Proof. inversion 1; subst; [by left|]. right. by eexists _, _. Qed.

Lemma implements_current v l a base : implements v l (frames a) base → base = committed a → v = in_effect a.
Proof. unfold in_effect. by inversion 1. Qed.

(** A frame without an entry of its own. *)
Lemma implements_below v l f fs base s :
  implements v l (f :: fs) base → head l = Some s → nest_level s ≤ length fs → f = mkFrame v None Untouched ∧ implements v l fs base.
Proof. inversion 1; subst; [done|]. intros [= ->]. lia. Qed.

(** ** Assignments *)
Lemma push_frame conf dirty f fs base action v conf' dirty' :
  (action = GUC_ACTION_SAVE → touched f ≠ Touched) →
  implements (guc_variable conf) (guc_stack conf) (f :: fs) base →
  push_old_value (S (length fs)) dirty conf action = (conf', dirty') →
  implements v (guc_stack conf') (assign_frame action v f :: fs) base ∧ (dirty' = true ∨ dirty' = dirty ∧ guc_stack conf ≠ []) ∧
  ∃ l, conf' = set_stack conf l.
Proof.
  intros Hsave Himpl. unfold push_old_value. cbn [Nat.eqb]. set (push := (set_stack _ _, true)).
  assert (Hpush : f = mkFrame (guc_variable conf) None Untouched → implements (guc_variable conf) (guc_stack conf) fs base → push = (conf', dirty') →
    implements v (guc_stack conf') (assign_frame action v f :: fs) base ∧ (dirty' = true ∨ dirty' = dirty ∧ guc_stack conf ≠ []) ∧
    ∃ l, conf' = set_stack conf l).
  { intros -> Hb [= <- <-]. split_and!; [|by left|eauto]. cbn.
    by destruct action; apply (impl_entry (new_entry _ conf _) _ (mkFrame v _ _)). }
  destruct (guc_stack conf) as [|s prev] eqn:Es.
  - inversion Himpl; subst. by apply Hpush.
  - destruct (Nat.leb_spec (S (length fs)) (nest_level s)) as [Hl|Hl].
    + intros [= <- <-]. split_and!; [|by right|eauto]. cbn. inversion Himpl as [|? ? ? ? Hb|? ? ? ? ? Hn Hm Hb]; subst.
      { pose proof (implements_level _ _ _ _ Hb) as Hlev. inversion Hlev. lia. }
      unfold entry_means in Hm. unfold adjust_entry. destruct action.
      * by apply (impl_entry (mkStack _ _ _ _ _ _ _) _ (mkFrame v (Some v) Touched)).
      * cbn. destruct (decide _) as [E|E]; [rewrite E in Hm; destruct Hm as [-> ->] | destruct (entry_state s) eqn:Ee; [| done | |]; destruct Hm as [-> ->]].
        -- match goal with H : active f = guc_variable conf |- _ => rewrite H end.
           by apply (impl_entry (mkStack _ _ _ _ _ _ _) _ (mkFrame v _ _)).
        -- by apply (impl_entry s _ (mkFrame v _ _)); [| unfold entry_means; rewrite Ee|].
        -- by apply (impl_entry s _ (mkFrame v _ _)); [| unfold entry_means; rewrite Ee|].
        -- by apply (impl_entry s _ (mkFrame v _ _)); [| unfold entry_means; rewrite Ee|].
      * apply (impl_entry s _ (mkFrame v _ _)); [done | | done]. unfold entry_means. destruct (entry_state s); [done | | |]; by destruct Hm as [_ ?], (Hsave eq_refl).
    + destruct (implements_below _ _ _ _ _ s Himpl) as [Hf Hb]; [done | lia|]. by apply Hpush.
Qed.

(** ** Ends of transactions *)

(** What the transactional operations leave alone. *)
Record same_var (c c' : config_enum) : Prop := {
  same_context : guc_context c' = guc_context c;
  same_flags : guc_flags c' = guc_flags c;
  same_options : guc_options c' = guc_options c;
  same_reset : reset_val c' = reset_val c
}.

#[export] Instance same_var_preorder : PreOrder same_var.
Proof. split; [by split | intros c1 c2 c3 [] []; split; congruence]. Qed.

Lemma pop_entry_same b conf s prev : same_var conf (pop_entry b conf s prev).
Proof. unfold pop_entry. repeat case_match; by split. Qed.

(** Popping ends: every round takes weight from the stack. *)
Lemma pop_entry_weight b conf s prev : 1 ≤ nest_level s → stack_weight (guc_stack (pop_entry b conf s prev)) < stack_weight (s :: prev).
Proof.
  intros Hs. unfold pop_entry, stack_weight. destruct b; [|cbn; lia]. cbn [negb]. destruct (decide _); [cbn; lia|].
  destruct (Nat.eqb_spec (nest_level s) 1); [destruct (entry_state s); cbn; lia|].
  destruct prev as [|p rest]; [cbn; lia|]. destruct (nest_level p <? nest_level s - 1); [cbn; lia|].
  unfold merge_entry. destruct (entry_state s); try destruct (decide _); cbn; lia.
Qed.

Lemma pop_stack_ends fuel b k conf :
  1 ≤ k → stack_weight (guc_stack conf) ≤ fuel → ensures (pop_stack fuel b k conf) (fun conf' =>
    same_var conf conf' ∧ match guc_stack conf' with s :: _ => nest_level s < k | [] => True end).
Proof.
  intros Hk. revert conf. induction fuel as [|fuel IH]; intros conf Hw; cbn [pop_stack]; (destruct (guc_stack conf) as [|s prev] eqn:Es;
    [cbn; rewrite Es; by split | destruct (Nat.leb_spec k (nest_level s)) as [Hl|Hl]; [|cbn; rewrite Es; by split]]).
  - unfold stack_weight in Hw. cbn in Hw. lia.
  - pose proof (pop_entry_weight b conf s prev ltac:(lia)). specialize (IH (pop_entry b conf s prev) ltac:(lia)).
    destruct (pop_stack _ _ _ _); [|done]. destruct IH. split; [|done]. etrans; [apply pop_entry_same | done].
Qed.

(** The end of a level whose frame has no entry changes nothing. *)
Lemma pop_stack_idle fuel b k conf : Forall (fun s => nest_level s < k) (guc_stack conf) → pop_stack fuel b k conf = Ok conf.
Proof.
  intros Hl. destruct fuel; cbn [pop_stack]; (destruct (guc_stack conf) as [|s prev]; [done|]); inversion Hl;
    by destruct (Nat.leb_spec k (nest_level s)); [lia|].
Qed.

Lemma pop_once fuel b k conf s prev :
  guc_stack conf = s :: prev → nest_level s = k → Forall (fun s => nest_level s < k) (guc_stack (pop_entry b conf s prev)) →
  pop_stack (S fuel) b k conf = Ok (pop_entry b conf s prev).
Proof.
  intros Es Hk Hl. cbn [pop_stack]. rewrite Es. destruct (Nat.leb_spec k (nest_level s)); [|lia]. by apply pop_stack_idle.
Qed.

(** Merging and lowering entries, as frames are joined. *)
Lemma merge_means s p f g :
  entry_state s ≠ GUC_SAVE → entry_means s f → entry_means p g → prior s = active g →
  entry_means (merge_entry s p) (join_frames f g) ∧ active (join_frames f g) = active f ∧
  nest_level (merge_entry s p) = nest_level p ∧ prior (merge_entry s p) = prior p.
Proof.
  unfold entry_means, merge_entry, join_frames. intros Hs Hf Hg Hp.
  destruct (entry_state s) eqn:Es; [done | | |]; destruct Hf as [Hf1 Hf2]; rewrite Hf1, Hf2;
    destruct (entry_state p) eqn:Ep; destruct Hg as [Hg1 Hg2]; rewrite ?Hg1, ?Hg2; cbn; rewrite ?Ep;
    try (destruct (decide _) as [E|E]; [try done | try (by destruct E)]); cbn; rewrite ?Ep; by rewrite ?Hp.
Qed.

Lemma pop_entry_commit conf s prev f fs base a :
  nest_level s = S (length fs) → entry_means s f → guc_variable conf = active f → implements (prior s) prev fs base →
  frames a = f :: fs → committed a = base → let conf' := pop_entry true conf s prev in
  implements (guc_variable conf') (guc_stack conf') (frames (spec_commit a)) (committed (spec_commit a)).
Proof.
  intros Hn Hm Hv Hb Ef Ec. unfold pop_entry, spec_commit. rewrite Ef. cbn [negb]. destruct (decide (entry_state s = GUC_SAVE)) as [E|E].
  - unfold entry_means in Hm. rewrite E in Hm. destruct Hm as [_ Ht]. unfold join_frames. rewrite Ht.
    destruct fs as [|g fs]; cbn; [|by rewrite Ec]. destruct (implements_nil _ _ _ Hb) as [-> ->]. rewrite Ec. constructor.
  - destruct fs as [|g fs].
    + rewrite Hn. cbn [length Nat.eqb]. unfold entry_means in Hm. destruct (implements_nil _ _ _ Hb) as [-> Hp].
      destruct (entry_state s); [done | | |]; destruct Hm as [Hpe ->]; cbn; rewrite Hpe; cbn; rewrite ?Hv, ?Hp, ?Ec; constructor.
    + rewrite Hn. cbn [length Nat.eqb]. inversion Hb as [|? ? ? ? Hg|p rest ? ? ? Hnp Hmp Hg]; subst.
      * assert (Hlow : implements (guc_variable conf) (lower_entry s :: prev) (join_frames f (mkFrame (prior s) None Untouched) :: fs) (committed a)).
        { unfold entry_means in Hm. assert (touched f = Touched) as Ht by (by destruct (entry_state s), Hm). unfold join_frames. rewrite Ht, Hv. cbn.
          apply (impl_entry (lower_entry s) _ (mkFrame (active f) _ _)); [cbn in Hn |- *; lia | | done]. unfold entry_means. cbn.
          by destruct (entry_state s); [|destruct Hm as [-> _]..]. }
        pose proof (implements_level _ _ _ _ Hg) as Hlev. destruct prev as [|p rest]; [done|].
        destruct (Nat.ltb_spec (nest_level p) (S (S (length fs)) - 1)); [done|]. inversion Hlev. cbn in *. lia.
      * destruct (Nat.ltb_spec (nest_level p) (S (S (length fs)) - 1)); [lia|].
        destruct (merge_means s p f g E Hm Hmp) as (H1 & H2 & H3 & H4); [done|]. cbn. rewrite Hv, <- H2.
        apply impl_entry; [by rewrite H3 | done | by rewrite H4].
Qed.

Lemma spec_commit_length a f fs : frames a = f :: fs → length (frames (spec_commit a)) = length fs.
Proof. intros E. unfold spec_commit. rewrite E. by destruct fs. Qed.

Lemma commit_level conf a f fs :
  implements (guc_variable conf) (guc_stack conf) (frames a) (committed a) → frames a = f :: fs →
  ensures (pop_stack (pop_fuel conf) true (S (length fs)) conf) (fun conf' =>
    implements (guc_variable conf') (guc_stack conf') (frames (spec_commit a)) (committed (spec_commit a))).
Proof.
  intros Himpl Ef. rewrite Ef in Himpl. destruct (implements_cons _ _ _ _ _ Himpl) as [[Hf Hb]|(s & prev & Es & Ev & Hn & Hm & Hb)].
  - rewrite pop_stack_idle; [|eapply Forall_impl; [by eapply implements_level|]; cbn; lia]. unfold spec_commit. rewrite Ef. subst f.
    destruct fs as [|g fs]; cbn; [|exact Hb]. destruct (implements_nil _ _ _ Hb) as [-> ->]. constructor.
  - assert (Hw : ∃ w, pop_fuel conf = S w) by (unfold pop_fuel; rewrite Es; by eexists). destruct Hw as [w ->].
    pose proof (pop_entry_commit conf s prev f fs (committed a) a Hn Hm Ev Hb Ef eq_refl) as H. cbn in H.
    rewrite (pop_once w true (S (length fs)) conf s prev); [exact H | done | done|].
    eapply Forall_impl; [by eapply implements_level|]. rewrite (spec_commit_length a f fs Ef). cbn. lia.
Qed.

Lemma abort_level fuel conf k fs base :
  implements (guc_variable conf) (guc_stack conf) fs base → k ≤ S (length fs) → stack_weight (guc_stack conf) ≤ fuel →
  ensures (pop_stack fuel false k conf) (fun conf' =>
    implements (guc_variable conf') (guc_stack conf') (drop (S (length fs) - k) fs) base).
Proof.
  revert fuel conf. induction fs as [|f fs IH]; intros fuel conf Himpl Hk Hw.
  - destruct (implements_nil _ _ _ Himpl) as [E _]. rewrite pop_stack_idle by (by rewrite E). cbn. by rewrite drop_nil.
  - destruct (decide (k = S (length (f :: fs)))) as [->|Hne].
    { rewrite pop_stack_idle; [|eapply Forall_impl; [by eapply implements_level|]; cbn; lia]. by rewrite Nat.sub_diag, drop_0. }
    cbn [length] in Hk, Hne. replace (S (length (f :: fs)) - k) with (S (S (length fs) - k)) by (cbn; lia). cbn [drop].
    destruct (implements_cons _ _ _ _ _ Himpl) as [[_ Hb]|(s & prev & Es & _ & Hn & _ & Hb)]; [apply IH; [done | lia | done]|].
    destruct fuel as [|fuel]; [rewrite Es in Hw; unfold stack_weight in Hw; cbn in Hw; lia|].
    cbn [pop_stack]. rewrite Es. destruct (Nat.leb_spec k (nest_level s)); [|lia].
    apply IH; [done | lia|]. rewrite Es in Hw. unfold stack_weight in *. cbn in *. lia.
Qed.

(** ** Sessions *)

(** A variable of the table and the setting it stands for, in [n] open frames. *)
Record var_rel `{GucServer} (n : nat) (c : config_enum) (a : setting) : Prop := {
  var_context : guc_context c = PGC_SUSET;
  var_free : restricted c = false;
  var_choices : guc_options c = choices a;
  var_default : reset_val c = default_value a;
  var_depth : length (frames a) = n;
  var_implements : implements (guc_variable c) (guc_stack c) (frames a) (committed a)
}.

Record guc_rel `{GucServer} (st : Guc) (l : list setting) : Prop := {
  rel_vars : Forall2 (var_rel (GUCNestLevel st)) (guc_variables st) l;
  rel_dirty : guc_dirty st = false → Forall (fun c => guc_stack c = []) (guc_variables st)
}.

(** What a superuser's session does: transactions and subtransactions begin and end,
    variables are SET, SET LOCAL, saved by functions, or RESET (without a text). *)
Inductive guc_op : Type :=
| OpStart | OpSub | OpAssign (action : GucAction) (i : nat) (value : option cstring) | OpCommit | OpAbort (nestLevel : nat).

Definition guc_step `{Server} `{GucServer} (op : guc_op) (st : Guc) : res Guc :=
  match op with
  | OpStart => Ok (AtStart_GUC st)
  | OpSub => Ok (NewGUCNestLevel st).2
  | OpAssign action i value => '(_, st) ← set_config_option i value PGC_SUSET PGC_S_SESSION action true None false st; Ok st
  | OpCommit => AtEOXact_GUC true (GUCNestLevel st) st
  | OpAbort k => AtEOXact_GUC false k st
  end.

Fixpoint guc_run `{Server} `{GucServer} (ops : list guc_op) (st : Guc) : res Guc :=
  match ops with [] => Ok st | op :: ops => st ← guc_step op st; guc_run ops st end.

(** The same on settings; [None] where the operation is not allowed: a transaction inside
    another, an end without a beginning, a text that is no value, a function's
    assignment after others in its frame. *)
Definition chosen (a : setting) (value : option cstring) : option Z :=
  match value with Some text => lookup_by_name (choices a) text | None => Some (default_value a) end.

Definition may_save (action : GucAction) (a : setting) : bool :=
  match action, frames a with GUC_ACTION_SAVE, mkFrame _ _ Touched :: _ => false | _, _ => true end.

Definition spec_step (n : nat) (op : guc_op) (l : list setting) : option (nat * list setting) :=
  match op with
  | OpStart => if n =? 0 then Some (1, map spec_begin l) else None
  | OpSub => if n =? 0 then None else Some (S n, map spec_begin l)
  | OpAssign action i value =>
      a ← l !! i;
      v ← chosen a value;
      if may_save action a then Some (n, <[i := spec_assign action v a]> l) else None
  | OpCommit => if n =? 0 then None else Some (n - 1, map spec_commit l)
  | OpAbort k => if (1 <=? k) && (k <=? n) then Some (k - 1, map (spec_abort k) l) else None
  end.

Fixpoint spec_run (n : nat) (ops : list guc_op) (l : list setting) : option (nat * list setting) :=
  match ops with [] => Some (n, l) | op :: ops => '(n, l) ← spec_step n op l; spec_run n ops l end.

Section session.
Context `{Server} `{GucServer}.

(** Setting a variable in a session pushes and assigns. *)
Lemma set_option_session level dirty c action value v :
  IsInParallelMode = false → guc_context c = PGC_SUSET → restricted c = false →
  match value with Some text => lookup_by_name (guc_options c) text | None => Some (reset_val c) end = Some v →
  ∃ s x, set_option level dirty c value PGC_SUSET PGC_S_SESSION action true None false =
    Ok (1%Z, set_value (push_old_value level dirty c action).1 v s x, (push_old_value level dirty c action).2).
Proof.
  intros Hpar Hctx Hres Hv. unfold set_option. rewrite Hpar, Hctx, Hres. cbn [andb context_verdict].
  assert (Hlow : priority PGC_S_SESSION <? priority (guc_source c) = false) by (apply Nat.ltb_ge; destruct (guc_source c); cbn; lia).
  rewrite Hlow. cbn [andb negb orb priority Nat.leb]. unfold parse_value, config_enum_lookup_by_name.
  destruct value as [text|]; [rewrite Hv | injection Hv as <-]; cbn [mbind option_bind].
  - destruct (push_old_value level dirty c action). by eexists _, _.
  - rewrite decide_False by done. destruct (push_old_value level dirty c action). by eexists _, _.
Qed.

Lemma assign_var n dirty c a action value v :
  IsInParallelMode = false → var_rel n c a → chosen a value = Some v → may_save action a = true →
  ∃ c' dirty', set_option n dirty c value PGC_SUSET PGC_S_SESSION action true None false = Ok (1%Z, c', dirty') ∧
    var_rel n c' (spec_assign action v a) ∧ (dirty' = false → dirty = false ∧ (guc_stack c = [] → guc_stack c' = [])).
Proof.
  intros Hpar [Hctx Hfree Hch Hdef Hdep Himpl] Hv Hsave. unfold chosen in Hv. rewrite <- Hch, <- Hdef in Hv.
  destruct (set_option_session n dirty c action value v Hpar Hctx Hfree Hv) as (s & x & ->).
  destruct (push_old_value n dirty c action) as [c1 dirty1] eqn:Ep. cbn [fst snd]. eexists _, _. split; [done|]. subst n.
  unfold spec_assign. destruct (frames a) as [|f fs] eqn:Ef.
  - unfold push_old_value in Ep. cbn in Ep. injection Ep as <- <-. destruct (implements_nil _ _ _ Himpl) as [E _].
    split; [|by rewrite E]. split; cbn; [done | done | done | done | done|]. rewrite E. constructor.
  - destruct (push_frame c dirty f fs (committed a) action v c1 dirty1) as (H1 & H2 & l & ->); [|exact Himpl|exact Ep|].
    { intros ->. unfold may_save in Hsave. rewrite Ef in Hsave. by destruct f as [? ? []]. }
    split; [by split|]. cbn. intros ->. destruct H2 as [|[<- Hne]]; [done|]. split; [done|]. by intros E.
Qed.

Lemma begin_var n c a : var_rel n c a → var_rel (S n) c (spec_begin a).
Proof.
  intros [Hctx Hfree Hch Hdef Hdep Himpl]. split; cbn; [done | done | done | done | by rewrite Hdep|].
  rewrite <- (implements_current _ _ _ _ Himpl eq_refl). by constructor.
Qed.

Lemma same_restricted c c' : same_var c c' → restricted c' = restricted c.
Proof. intros [_ E _ _]. unfold restricted, has_flag. by rewrite E. Qed.

(** The end of a level for one variable. *)
Lemma end_var n n' c a b k (F : setting → setting) :
  1 ≤ k → var_rel n c a → choices (F a) = choices a → default_value (F a) = default_value a → length (frames (F a)) = n' →
  ensures (pop_stack (pop_fuel c) b k c) (fun c' => implements (guc_variable c') (guc_stack c') (frames (F a)) (committed (F a))) →
  ensures (pop_stack (pop_fuel c) b k c) (fun c' => var_rel n' c' (F a)).
Proof.
  intros Hk [Hctx Hfree Hch Hdef Hdep Himpl] E1 E2 E3 Hi. pose proof (pop_stack_ends (pop_fuel c) b k c Hk (le_n _)) as Hs.
  destruct (pop_stack _ _ _ _) as [c'|]; [|done]. cbn in *. destruct Hs as [Hs _]. pose proof (same_restricted c c' Hs). destruct Hs.
  split; congruence.
Qed.

Lemma commit_var n c a : var_rel (S n) c a → ensures (pop_stack (pop_fuel c) true (S n) c) (fun c' => var_rel n c' (spec_commit a)).
Proof.
  intros Hrel. pose proof Hrel as [_ _ _ _ Hdep Himpl]. destruct (frames a) as [|f fs] eqn:Ef; [done|]. injection Hdep as Hn.
  eapply end_var; [lia | exact Hrel | by unfold spec_commit; rewrite Ef; destruct fs.. | by rewrite (spec_commit_length a f fs Ef)|].
  subst n. apply (commit_level c a f fs); [by rewrite Ef | done].
Qed.

Lemma abort_var n k c a :
  1 ≤ k → k ≤ n → var_rel n c a → ensures (pop_stack (pop_fuel c) false k c) (fun c' => var_rel (k - 1) c' (spec_abort k a)).
Proof.
  intros Hk Hkn Hrel. pose proof Hrel as [_ _ _ _ Hdep Himpl].
  eapply end_var; [lia | exact Hrel | done | done | unfold spec_abort; cbn; rewrite length_drop; lia|].
  apply abort_level; [done | lia | done].
Qed.

(** All variables. *)
Lemma pop_all_rel b k (P : config_enum → setting → Prop) vars l :
  Forall2 (fun c a => ensures (pop_stack (pop_fuel c) b k c) (fun c' => P c' a)) vars l →
  ensures (pop_all b k vars) (fun vars' => Forall2 P vars' l).
Proof.
  induction 1 as [|c a vars l Hc Hl IH]; [constructor|]. cbn [pop_all]. destruct (pop_stack _ _ _ c) as [c'|]; [|done].
  destruct (pop_all b k vars) as [vars'|]; [|done]. by constructor.
Qed.

Lemma end_rel b k st l n' (F : setting → setting) :
  guc_rel st l → k - 1 = n' →
  (∀ c a, var_rel (GUCNestLevel st) c a → ensures (pop_stack (pop_fuel c) b k c) (fun c' => var_rel n' c' (F a))) →
  ensures (AtEOXact_GUC b k st) (fun st' => guc_rel st' (map F l) ∧ GUCNestLevel st' = n').
Proof.
  intros [Hvars Hdirty] Hk HF. unfold AtEOXact_GUC. destruct (guc_dirty st) eqn:Ed; cbn [negb].
  - pose proof (pop_all_rel b k (fun c a => var_rel n' c (F a)) (guc_variables st) l) as H1.
    destruct (pop_all b k (guc_variables st)) as [vars'|]; cbn in *.
    + split; [|done]. split; cbn; [rewrite Hk; apply Forall2_fmap_r, H1; eapply Forall2_impl; [exact Hvars | exact HF]|].
      intros He. apply Forall_forall. intros c Hc. destruct (guc_stack c) eqn:E; [done|]. exfalso.
      assert (existsb (fun c => match guc_stack c with [] => false | _ => true end) vars' = true); [|congruence].
      apply existsb_exists. exists c. split; [by apply list_elem_of_In | by rewrite E].
    + apply H1. eapply Forall2_impl; [exact Hvars | exact HF].
  - cbn. split; [|done]. specialize (Hdirty eq_refl). split; cbn; [|done]. rewrite Hk. apply Forall2_fmap_r.
    apply Forall2_same_length_lookup_2; [by apply Forall2_length in Hvars|]. intros i c a Hc Ha.
    specialize (HF c a (Forall2_lookup_lr _ _ _ _ _ _ Hvars Hc Ha)). rewrite Forall_lookup in Hdirty.
    rewrite pop_stack_idle in HF; [done|]. by rewrite (Hdirty i c Hc).
Qed.

Lemma guc_step_spec op st l n' l' :
  IsInParallelMode = false → guc_rel st l → spec_step (GUCNestLevel st) op l = Some (n', l') →
  ensures (guc_step op st) (fun st' => guc_rel st' l' ∧ GUCNestLevel st' = n').
Proof.
  intros Hpar Hrel Hspec. pose proof Hrel as [Hvars Hdirty]. destruct op as [| |action i value| |k]; unfold spec_step in Hspec; unfold guc_step.
  - destruct (Nat.eqb_spec (GUCNestLevel st) 0) as [E|]; [|done]. injection Hspec as <- <-. split; [|done].
    split; cbn; [|done]. rewrite E in Hvars. apply Forall2_fmap_r. eapply Forall2_impl; [exact Hvars|]. apply begin_var.
  - destruct (Nat.eqb_spec (GUCNestLevel st) 0) as [E|]; [done|]. injection Hspec as <- <-. split; [|done].
    split; cbn; [|done]. apply Forall2_fmap_r. eapply Forall2_impl; [exact Hvars|]. apply begin_var.
  - destruct (l !! i) as [a|] eqn:Ea; [|done]. cbn in Hspec. destruct (chosen a value) as [v|] eqn:Ev; [|done]. cbn in Hspec.
    destruct (may_save action a) eqn:Es; [|done]. injection Hspec as <- <-.
    destruct (Forall2_lookup_r _ _ _ _ _ Hvars Ea) as (c & Hc & Hrc). unfold set_config_option. rewrite (rd_some _ _ _ Hc).
    destruct (assign_var _ (guc_dirty st) c a action value v Hpar Hrc Ev Es) as (c' & dirty' & Eo & Hrc' & Hd). cbn [mbind res_bind]. rewrite Eo.
    cbn. split; [|done]. split; cbn; [by apply Forall2_insert|]. intros ->. destruct (Hd eq_refl) as [Ed Hst].
    specialize (Hdirty Ed). apply Forall_insert; [done|]. apply Hst. by eapply (proj1 (Forall_lookup _ _) Hdirty).
  - destruct (Nat.eqb_spec (GUCNestLevel st) 0) as [E|E]; [done|]. injection Hspec as <- <-. apply end_rel; [done | done|].
    destruct (GUCNestLevel st) as [|n]; [done|]. intros c a Hc. replace (S n - 1) with n by lia. by apply commit_var.
  - destruct (Nat.leb_spec 1 k); [|done]. destruct (Nat.leb_spec k (GUCNestLevel st)); [|done]. injection Hspec as <- <-.
    apply end_rel; [done | done|]. intros c a Hc. by eapply abort_var.
Qed.

(** C31. The stack of guc.c implements nested transactions: whatever a superuser's session does
    (transactions, subtransactions and functions that begin, commit or abort; SET, SET
    LOCAL, RESET and the SET options of functions) runs to its end, and the variables are
    the settings of the frames: a commit hands the last SET to the transaction around,
    an abort forgets everything since the level began, SET LOCAL lasts as long as
    its transaction, a function's own settings as long as the function. *)
Theorem guc_transactions (ops : list guc_op) (st : Guc) (l : list setting) (n : nat) (l' : list setting) :
  IsInParallelMode = false → guc_rel st l → spec_run (GUCNestLevel st) ops l = Some (n, l') →
  ∃ st', guc_run ops st = Ok st' ∧ guc_rel st' l' ∧ GUCNestLevel st' = n ∧ map guc_variable (guc_variables st') = map in_effect l'.
Proof.
  intros Hpar. revert st l. induction ops as [|op ops IH]; intros st l Hrel Hspec; cbn in *.
  - injection Hspec as <- <-. exists st. split_and!; [done | done | done|]. destruct Hrel as [Hvars _].
    induction Hvars as [|c a vars l Hc _ IHv]; [done|]. cbn. rewrite IHv. f_equal. by eapply implements_current; [apply Hc|].
  - destruct (spec_step _ op l) as [[n1 l1]|] eqn:Es; [|done]. cbn in Hspec.
    pose proof (guc_step_spec op st l n1 l1 Hpar Hrel Es) as Hstep. destruct (guc_step op st) as [st1|]; [|done].
    cbn in Hstep |- *. destruct Hstep as [Hrel1 <-]. by apply IH with l1.
Qed.
End session.

(** ** Values and privileges *)
Definition is_value (c : config_enum) (v : Z) : Prop := v ∈ map opt_val (guc_options c).

Definition entry_valid (c : config_enum) (s : GucStack) : Prop :=
  is_value c (prior s) ∧ (entry_state s = GUC_SET_LOCAL → is_value c (masked s)).

(** Everything a variable holds or remembers is one of its values. *)
Record enum_valid (c : config_enum) : Prop := {
  valid_value : is_value c (guc_variable c);
  valid_boot : is_value c (boot_val c);
  valid_reset : is_value c (reset_val c);
  valid_stack : Forall (entry_valid c) (guc_stack c)
}.

Lemma lookup_by_name_value l text v : lookup_by_name l text = Some v → v ∈ map opt_val l.
Proof.
  induction l as [|e l IH]; [done|]. cbn [lookup_by_name map]. destruct (_ =? 0)%Z; [intros [= <-]; left|]. intros Hv. right. by apply IH.
Qed.

Lemma adjust_valid c action s : is_value c (guc_variable c) → entry_valid c s → entry_valid c (adjust_entry c action s).
Proof. intros Hv [H1 H2]. unfold adjust_entry. destruct action; [| destruct (decide _) |]; by split. Qed.

Lemma push_valid level dirty c action : enum_valid c → enum_valid (push_old_value level dirty c action).1.
Proof.
  intros [H1 H2 H3 H4]. unfold push_old_value. destruct (level =? 0); [by split|].
  assert (Hpush : enum_valid (set_stack c (new_entry level c action :: guc_stack c))).
  { split; cbn; [done | done | done|]. apply Forall_cons. split; [|done]. split; [done|]. by destruct action. }
  destruct (guc_stack c) as [|s prev] eqn:Es; [done|]. destruct (level <=? nest_level s); [|done].
  split; cbn; [done | done | done|]. apply Forall_cons in H4 as [Hs Hprev]. apply Forall_cons. split; [|done].
  by apply (adjust_valid c).
Qed.

Lemma set_value_valid c v s x : enum_valid c → is_value c v → enum_valid (set_value c v s x).
Proof. intros [] Hv. by split. Qed.

Lemma default_valid c v s x : enum_valid c → is_value c v → enum_valid (make_default c v s x).
Proof.
  intros Hc Hv. unfold make_default.
  set (c' := if priority (reset_source c) <=? priority s then set_reset c v s x else c).
  assert (Hc' : enum_valid c' ∧ is_value c' v) by (unfold c'; destruct (priority (reset_source c) <=? priority s); destruct Hc; by repeat split).
  destruct Hc' as [[H1 H2 H3 H4] Hv']. split; cbn; [done | done | done|]. apply Forall_map. eapply Forall_impl; [exact H4|].
  intros e [He1 He2]. cbn. unfold default_entry. destruct (priority (entry_source e) <=? priority s); by split.
Qed.

Lemma pop_entry_valid b c s prev : guc_stack c = s :: prev → enum_valid c → enum_valid (pop_entry b c s prev).
Proof.
  intros Es [H1 H2 H3 H4]. rewrite Es in H4. apply Forall_cons in H4 as [[Hp Hm] Hprev]. unfold pop_entry.
  destruct (negb b); [by split|]. destruct (decide _); [by split|]. destruct (nest_level s =? 1).
  { destruct (entry_state s) eqn:E; split; try done. cbn. by apply Hm. }
  assert (Hlow : enum_valid (set_stack c (lower_entry s :: prev))) by (split; try done; by apply Forall_cons).
  destruct prev as [|p rest]; [done|]. destruct (nest_level p <? nest_level s - 1); [done|]. split; try done. cbn.
  apply Forall_cons in Hprev as [[Hpp Hpm] Hrest]. apply Forall_cons. split; [|done].
  unfold merge_entry. destruct (entry_state s) eqn:E; try destruct (decide _); by split.
Qed.

Lemma pop_stack_valid b k c :
  1 ≤ k → enum_valid c → ensures (pop_stack (pop_fuel c) b k c) enum_valid.
Proof.
  intros Hk. unfold pop_fuel. generalize (le_n (stack_weight (guc_stack c))). generalize (stack_weight (guc_stack c)) at 2 3 as fuel. intros fuel. revert c.
  induction fuel as [|fuel IH]; intros c Hw Hc; cbn [pop_stack]; (destruct (guc_stack c) as [|s prev] eqn:Es; [done|]);
    (destruct (Nat.leb_spec k (nest_level s)); [|done]).
  - unfold stack_weight in Hw. cbn in Hw. lia.
  - apply IH; [|by apply pop_entry_valid]. pose proof (pop_entry_weight b c s prev ltac:(lia)). lia.
Qed.

(** Any call, by anybody. *)
Inductive guc_call : Type :=
| CallSet (i : nat) (value : option cstring) (context : GucContext) (source : GucSource) (action : GucAction) (changeVal : bool)
    (elevel : option ELevel) (is_reload : bool)
| CallResetAll | CallStart | CallNest | CallEnd (isCommit : bool) (nestLevel : nat).

Definition guc_exec `{Server} `{GucServer} (call : guc_call) (st : Guc) : res Guc :=
  match call with
  | CallSet i value context source action changeVal elevel is_reload =>
      '(_, st) ← set_config_option i value context source action changeVal elevel is_reload st; Ok st
  | CallResetAll => Ok (ResetAllOptions st)
  | CallStart => Ok (AtStart_GUC st)
  | CallNest => Ok (NewGUCNestLevel st).2
  | CallEnd isCommit nestLevel => AtEOXact_GUC isCommit nestLevel st
  end.

Definition call_ok (st : Guc) (call : guc_call) : Prop :=
  match call with CallSet i _ _ _ _ _ _ _ => i < length (guc_variables st) | CallEnd _ k => 1 ≤ k | _ => True end.
Definition guc_valid (st : Guc) : Prop := Forall enum_valid (guc_variables st).

(** A result of the C code, or an error that it raised. *)
Definition returns {A} (m : res A) (Q : A → Prop) : Prop :=
  match m with Ok a => Q a | Err e => ∃ msg, e = Fault_elog msg end.

Section values.
Context `{Server} `{GucServer}.

Lemma ereport_returns {A} elevel msg (m : res A) Q : returns m Q → returns (_ ← ereport elevel msg; m) Q.
Proof. intros Hm. destruct elevel; cbn; [done | done | done | by eexists]. Qed.

Lemma check_returns {A} (b : bool) elevel msg (m : res A) Q : returns m Q → returns (_ ← (if b then ereport elevel msg else Ok ()); m) Q.
Proof. destruct b; [apply ereport_returns | done]. Qed.

Lemma parse_valid c value source context v s x :
  enum_valid c → parse_value c value source context = Some (v, s, x) → is_value c v.
Proof.
  intros [H1 H2 H3 H4]. unfold parse_value. destruct value as [text|].
  - unfold config_enum_lookup_by_name. destruct (lookup_by_name _ _) eqn:E; [|done]. intros [= <- _ _]. by eapply lookup_by_name_value.
  - destruct (decide _); by intros [= <- _ _].
Qed.

Lemma assign_valid (change default : bool) level dirty c action v s x :
  enum_valid c → is_value c v →
  enum_valid (let '(conf, _) := if change && negb default then push_old_value level dirty c action else (c, dirty) in
              let conf := if change then set_value conf v s x else conf in
              if default then make_default conf v s x else conf).
Proof.
  intros Hc Hv. set (p := if change && negb default then _ else _).
  assert (Hp : enum_valid p.1 ∧ guc_options p.1 = guc_options c).
  { unfold p. destruct (change && negb default); [|done]. split; [by apply push_valid|]. unfold push_old_value. by repeat case_match. }
  destruct p as [conf d]. cbn in Hp. destruct Hp as [Hp Ho]. assert (Hv' : is_value conf v) by (unfold is_value; by rewrite Ho).
  destruct change, default; cbn; try done; repeat (first [apply default_valid | apply set_value_valid]); done.
Qed.

Lemma set_option_valid level dirty c value context source action changeVal elevel is_reload :
  enum_valid c → returns (set_option level dirty c value context source action changeVal elevel is_reload) (fun p => enum_valid p.1.2).
Proof.
  intros Hc. unfold set_option. set (el := match elevel with Some l => l | None => _ end).
  apply check_returns. destruct (context_verdict _ _ _ _) as [prohibit|msg|]; [|by apply ereport_returns|done].
  destruct (restricted c); [by apply ereport_returns|]. set (mk := changeVal && _ && _). destruct (_ && _ && negb mk); [done|].
  destruct (parse_value c value source context) as [[[v s] x]|] eqn:Ep; [|by apply ereport_returns].
  pose proof (parse_valid c value source context v s x Hc Ep) as Hv. destruct prohibit.
  - assert (Hpend : ∀ b, enum_valid (set_pending c b)) by (intros b; by destruct Hc). destruct (negb _); [apply ereport_returns|]; apply Hpend.
  - set (change := changeVal && negb _). pose proof (assign_valid change mk level dirty c action v s x Hc Hv) as H1.
    by destruct (if change && negb mk then _ else _) as [conf d].
Qed.

Lemma reset_all_valid level dirty l : Forall enum_valid l → Forall enum_valid (reset_all level dirty l).1.
Proof.
  intros Hl. revert dirty. induction Hl as [|c l Hc Hl IH]; intros dirty; [constructor|]. cbn [reset_all].
  assert (Hr : enum_valid (reset_option level dirty c).1).
  { unfold reset_option. destruct (guc_context c); try done; (destruct (has_flag _ _); [done|]); (destruct (priority _ <=? _); [done|]);
      pose proof (push_valid level dirty c GUC_ACTION_SET Hc) as Hp; destruct (push_old_value _ _ _ _) as [c' d]; cbn in *;
      apply set_value_valid; try done; apply Hp. }
  destruct (reset_option level dirty c) as [c' d]. specialize (IH d). destruct (reset_all level d l). by constructor.
Qed.

Lemma pop_all_valid b k l : 1 ≤ k → Forall enum_valid l → ensures (pop_all b k l) (Forall enum_valid).
Proof.
  intros Hk. induction 1 as [|c l Hc Hl IH]; [constructor|]. cbn [pop_all]. pose proof (pop_stack_valid b k c Hk Hc) as Hp.
  destruct (pop_stack _ _ _ _); [|done]. destruct (pop_all _ _ _); [|done]. by constructor.
Qed.

(** Whoever calls whichever routine with whatever arguments: the routine returns or raises an
    ordinary error (in particular the loop that pops a stack ends), and the variables keep
    to their values: the current one, the one for RESET and all saved ones are among
    the options. *)
Theorem guc_values (call : guc_call) (st : Guc) :
  guc_valid st → call_ok st call → returns (guc_exec call st) guc_valid.
Proof.
  intros Hst Hok. destruct call as [i value context source action changeVal elevel is_reload| | | |b k]; cbn in Hok |- *.
  - destruct (lookup_lt_is_Some_2 _ _ Hok) as [c Hc]. unfold set_config_option. rewrite (rd_some _ _ _ Hc). cbn [mbind res_bind].
    pose proof (set_option_valid (GUCNestLevel st) (guc_dirty st) c value context source action changeVal elevel is_reload) as H1.
    destruct (set_option _ _ _ _ _ _ _ _ _ _) as [[[ret c'] d]|e]; cbn in *.
    + apply Forall_insert; [done|]. apply H1. by eapply (proj1 (Forall_lookup _ _) Hst).
    + apply H1. by eapply (proj1 (Forall_lookup _ _) Hst).
  - unfold guc_valid, ResetAllOptions. pose proof (reset_all_valid (GUCNestLevel st) (guc_dirty st) (guc_variables st) Hst) as H1.
    by destruct (reset_all _ _ _).
  - done.
  - done.
  - unfold AtEOXact_GUC. destruct (negb _); [done|]. pose proof (pop_all_valid b k (guc_variables st) Hok Hst) as H1.
    by destruct (pop_all _ _ _).
Qed.

(** A variable that only a superuser may set, as [aqo.mode] is, stays as it is when anybody
    else sets it or sends it with a connection: the call raises an error or returns 0,
    and nothing changes. *)
Theorem unprivileged_denied (i : nat) (c : config_enum) (value : option cstring) (context : GucContext) (source : GucSource)
    (action : GucAction) (changeVal : bool) (elevel : option ELevel) (is_reload : bool) (st : Guc) :
  guc_variables st !! i = Some c → guc_context c = PGC_SUSET → context = PGC_USERSET ∨ context = PGC_BACKEND →
  returns (set_config_option i value context source action changeVal elevel is_reload st) (fun p => p = (0%Z, st)).
Proof.
  intros Hi Hc Hctx. unfold set_config_option. rewrite (rd_some _ _ _ Hi). cbn [mbind res_bind]. unfold set_option.
  set (el := match elevel with Some l => l | None => _ end). rewrite Hc.
  assert (E : ∃ msg, context_verdict PGC_SUSET context source is_reload = Denied msg) by (destruct Hctx as [-> | ->]; by eexists).
  destruct E as [msg ->]. assert (Hst : mkGuc (<[i:=c]> (guc_variables st)) (GUCNestLevel st) (guc_dirty st) = st).
  { rewrite list_insert_id by done. by destruct st. }
  assert (Hel : returns (ereport el msg) (fun _ => True)) by (destruct el; cbn; eauto).
  destruct (if _ && _ && _ then _ else _) eqn:E1; cbn.
  - destruct (ereport el msg); cbn; [by rewrite Hst | exact Hel].
  - revert E1. destruct (_ && _); [|done]. destruct el; try done. intros [= <-]. by eexists.
Qed.
End values.

(** ** Examples *)
Definition sample_guc_server : GucServer :=
  {| IsUnderPostmaster := true; InLocalUserIdChange := false; InSecurityRestrictedOperation := false |}.

(** A switch, off at first. *)
Definition switch_options : list config_enum_entry := [mkOption (lit "off") 0 false; mkOption (lit "on") 1 false; mkOption (lit "auto") 2 false].
Definition switch : config_enum :=
  mkEnum (lit "switch") PGC_SUSET 0 false PGC_S_DEFAULT PGC_S_DEFAULT PGC_INTERNAL PGC_INTERNAL [] 0 0 switch_options 0.
Definition switch_guc : Guc := mkGuc [switch] 0 false.

(** A transaction sets it, a subtransaction sets it locally and commits, a function saves it
    and returns, another subtransaction is rolled back, and the transaction commits. *)
Definition switch_session : list guc_op :=
  [OpStart; OpAssign GUC_ACTION_SET 0 (Some (lit "on")); OpSub; OpAssign GUC_ACTION_LOCAL 0 (Some (lit "auto")); OpCommit;
   OpSub; OpAssign GUC_ACTION_SAVE 0 (Some (lit "off")); OpCommit; OpSub; OpAssign GUC_ACTION_SET 0 None; OpAbort 2].

Lemma switch_rel : @guc_rel sample_guc_server switch_guc [mkSetting switch_options 0 0 []].
Proof. split; [|by repeat constructor]. repeat constructor. Qed.

Lemma guc_transactions_witness :
  ∃ st', @guc_run sample_server sample_guc_server switch_session switch_guc = Ok st' ∧ map guc_variable (guc_variables st') = [2%Z] ∧
    ∃ st'', @guc_run sample_server sample_guc_server (switch_session ++ [OpCommit]) switch_guc = Ok st'' ∧
      map guc_variable (guc_variables st'') = [1%Z].
Proof.
  destruct (@guc_transactions sample_server sample_guc_server switch_session switch_guc _ 1
    [mkSetting switch_options 0 0 [mkFrame 2 (Some 1%Z) Touched]] eq_refl switch_rel eq_refl) as (st' & E & _ & _ & Hv).
  destruct (@guc_transactions sample_server sample_guc_server (switch_session ++ [OpCommit]) switch_guc _ 0
    [mkSetting switch_options 0 1 []] eq_refl switch_rel eq_refl) as (st'' & E' & _ & _ & Hv').
  exists st'. split; [exact E|]. split; [exact Hv|]. exists st''. split; [exact E' | exact Hv'].
Defined.

Lemma switch_valid : guc_valid switch_guc.
Proof.
  assert (H : is_value switch 0) by (unfold is_value; apply (bool_decide_unpack _); by vm_compute). apply Forall_singleton. by split; [..|constructor].
Qed.

Lemma guc_values_witness :
  ∃ st', @guc_exec sample_server sample_guc_server
           (CallSet 0 (Some (lit "ON")) PGC_SUSET PGC_S_SESSION GUC_ACTION_SET true None false) switch_guc = Ok st' ∧ guc_valid st' ∧
    map guc_variable (guc_variables st') = [1%Z].
Proof.
  pose proof (@guc_values sample_server sample_guc_server
    (CallSet 0 (Some (lit "ON")) PGC_SUSET PGC_S_SESSION GUC_ACTION_SET true None false) switch_guc switch_valid (le_n 1)) as Hv.
  eexists. split; [vm_compute; reflexivity|]. split; [|reflexivity]. vm_compute in Hv |- *. exact Hv.
Defined.

(** The comment of [masked] says that its source is always a SET.  After RESET and SET LOCAL in one
    transaction it is not: the default value comes back marked as set by the session, and
    a changed configuration file no longer reaches it. *)
Theorem reset_marked_as_set : ∃ st st',
  @guc_run sample_server sample_guc_server [OpStart; OpAssign GUC_ACTION_SET 0 None; OpCommit] switch_guc = Ok st ∧
  @guc_run sample_server sample_guc_server
    [OpStart; OpAssign GUC_ACTION_SET 0 None; OpAssign GUC_ACTION_LOCAL 0 (Some (lit "on")); OpCommit] switch_guc = Ok st' ∧
  map guc_variable (guc_variables st) = map guc_variable (guc_variables st') ∧
  map guc_source (guc_variables st) = [PGC_S_DEFAULT] ∧ map guc_source (guc_variables st') = [PGC_S_SESSION].
Proof. eexists _, _. split; [vm_compute; reflexivity|]. split; [vm_compute; reflexivity|]. done. Qed.
