(* ===== verification/Extension.v ===== *)
(** * Extension: loading AQO into a session

    aqo.c: the routine [_PG_init] that the server calls when it loads the library, which
    defines the variable [aqo.mode] (guc.c, [Guc]) and puts AQO's functions into the hooks
    of the planner and the executor, and the two functions that SQL can call. *)
From S2P Require Import Prelude Float64 Nodes HashText PgArray LwprModel PgState Storage Preprocess Guc.
From stdpp Require Import strings.
From Stdlib Require Import Ascii.

(** ** The mode *)
Definition format_options : list config_enum_entry :=
  [mkOption (lit "intelligent") 0 false; mkOption (lit "forced") 1 false; mkOption (lit "controlled") 2 false;
   mkOption (lit "learn") 3 false; mkOption (lit "disabled") 4 false].

(** The numbers of the enumeration AQO_MODE. *)
Definition mode_number (m : AqoMode) : Z :=
  match m with
  | AQO_MODE_INTELLIGENT => 0 | AQO_MODE_FORCED => 1 | AQO_MODE_CONTROLLED => 2 | AQO_MODE_LEARN => 3 | AQO_MODE_DISABLED => 4
  end.

(** ** Variables set before they are defined *)

(** A value given to a name that no library has defined yet is kept as text. *)
Record string_entry : Type := mkStringEntry {
  se_level : nat;
  se_state : GucStackState;
  se_source : GucSource;
  se_scontext : GucContext;
  se_masked_scontext : GucContext;
  se_prior : option cstring;
  se_masked : option cstring
}.

(** [ph_shared]: the oldest value is the very text of [reset_val], not a copy. *)
Record placeholder : Type := mkPlaceholder {
  ph_name : cstring;
  ph_reset_val : option cstring;
  ph_reset_source : GucSource;
  ph_reset_scontext : GucContext;
  ph_value : option cstring;
  ph_source : GucSource;
  ph_scontext : GucContext;
  ph_stack : list string_entry;
  ph_shared : bool
}.

(** [guc_name_compare]: only the letters of ASCII are folded. *)
Fixpoint guc_name_compare (namea nameb : cstring) : Z :=
  match namea, nameb with
  | a :: namea, b :: nameb =>
      let cha := fold_char (char_code a) in
      let chb := fold_char (char_code b) in
      if negb (cha =? chb)%Z then (cha - chb)%Z else guc_name_compare namea nameb
  | _ :: _, [] => 1%Z
  | [], _ :: _ => (-1)%Z
  | [], [] => 0%Z
  end.

Definition same_name (a b : cstring) : bool := (guc_name_compare a b =? 0)%Z.

(** The level that the setting of a placeholder had. *)
Definition set_entry_level (c : config_enum) (level : nat) : config_enum :=
  match guc_stack c with
  | s :: prev =>
      set_stack c (mkStack level (entry_state s) (entry_source s) (entry_scontext s) (masked_scontext s) (prior s) (masked s) :: prev)
  | [] => c
  end.

Section loading.
Context `{Server} `{GucServer}.

(** [set_config_option] with warnings, so that it always returns; the code it returns is
    not looked at. *)
Definition reapply (level : nat) (value : option cstring) (context : GucContext) (source : GucSource) (action : GucAction)
    (v : config_enum * bool) : res (config_enum * bool) :=
  '(_, c, dirty) ← set_option level v.2 v.1 value context source action true (Some WARNING) false;
  Ok (c, dirty).

Fixpoint reapply_stacked_values (level : nat) (p : placeholder) (stack : list string_entry) (curvalue : option cstring)
    (curscontext : GucContext) (cursource : GucSource) (v : config_enum * bool) : res (config_enum * bool) :=
  match stack with
  | s :: prev =>
      let oldvarstack := length (guc_stack v.1) in
      v ← reapply_stacked_values level p prev (se_prior s) (se_scontext s) (se_source s) v;
      v ← match se_state s with
          | GUC_SAVE => reapply level curvalue curscontext cursource GUC_ACTION_SAVE v
          | GUC_SET => reapply level curvalue curscontext cursource GUC_ACTION_SET v
          | GUC_LOCAL => reapply level curvalue curscontext cursource GUC_ACTION_LOCAL v
          | GUC_SET_LOCAL =>
              v ← reapply level (se_masked s) (se_masked_scontext s) PGC_S_SESSION GUC_ACTION_SET v;
              reapply level curvalue curscontext cursource GUC_ACTION_LOCAL v
          end;
      Ok (if negb (length (guc_stack v.1) =? oldvarstack) then set_entry_level v.1 (se_level s) else v.1, v.2)
  | [] =>
      if negb (ph_shared p) || negb (bool_decide (curscontext = ph_reset_scontext p)) || negb (bool_decide (cursource = ph_reset_source p)) then
        v ← reapply level curvalue curscontext cursource GUC_ACTION_SET v;
        Ok (set_stack v.1 [], v.2)
      else Ok v
  end.

(** The table: the variables of an enumerated type, and the placeholders. *)
Record Settings : Type := mkSettings { guc : Guc; placeholders : list placeholder }.

(** [define_custom_variable]. *)
Definition define_custom_variable (var : config_enum) (s : Settings) : res Settings :=
  let level := GUCNestLevel (guc s) in
  let defined := existsb (fun c => same_name (guc_name var) (guc_name c)) (guc_variables (guc s)) in
  if defined then Err (Fault_elog "attempt to redefine parameter")
  else
    match list_find (fun p => same_name (guc_name var) (ph_name p) = true) (placeholders s) with
    | None => Ok (mkSettings (mkGuc (guc_variables (guc s) ++ [var]) level (guc_dirty (guc s))) (placeholders s))
    | Some (k, p) =>
        v ← match ph_reset_val p with
            | Some text => reapply level (Some text) (ph_reset_scontext p) (ph_reset_source p) GUC_ACTION_SET (var, guc_dirty (guc s))
            | None => Ok (var, guc_dirty (guc s))
            end;
        '(var, dirty) ← reapply_stacked_values level p (ph_stack p) (ph_value p) (ph_scontext p) (ph_source p) v;
        Ok (mkSettings (mkGuc (guc_variables (guc s) ++ [var]) level dirty) (delete k (placeholders s)))
    end.

(** [DefineCustomEnumVariable] with [InitializeOneGUCOption]: the value is the boot value. *)
Definition DefineCustomEnumVariable (name : cstring) (bootValue : Z) (options : list config_enum_entry) (context : GucContext) (flags : Z)
    (s : Settings) : res Settings :=
  define_custom_variable
    (mkEnum name context flags false PGC_S_DEFAULT PGC_S_DEFAULT PGC_INTERNAL PGC_INTERNAL [] bootValue bootValue options bootValue) s.

(** ** Hooks *)
Inductive hook : Type :=
| planner_hook | post_parse_analyze_hook | ExecutorStart_hook | ExecutorEnd_hook | set_baserel_rows_estimate_hook
| get_parameterized_baserel_size_hook | set_joinrel_size_estimates_hook | get_parameterized_joinrel_size_hook
| copy_generic_path_info_hook | ExplainOnePlan_hook | join_search_hook | set_rel_pathlist_hook
| parampathinfo_postinit_hook | estimated_cost_hook.

#[export] Instance hook_eq_dec : EqDecision hook.
Proof. solve_decision. Defined.

(** The functions a hook can point to: AQO's, and those of other libraries. *)
Inductive hook_function : Type :=
| aqo_planner_f | get_query_text_f | aqo_ExecutorStart_f | learn_query_stat_f | aqo_set_baserel_rows_estimate_f
| aqo_get_parameterized_baserel_size_f | aqo_set_joinrel_size_estimates_f | aqo_get_parameterized_joinrel_size_f
| aqo_copy_generic_path_info_f | print_into_explain_f | aqo_join_search_f | aqo_set_rel_pathlist_f | ppi_hook_f
| aqo_estimated_cost_hook_f | foreign_f (n : nat).

(** A backend: the hooks, the variables [prev_*] of aqo.c, the settings, AQO's state and
    whether its memory context was made. *)
Record Backend : Type := mkBackend {
  hooks : hook → option hook_function;
  prev_hooks : hook → option hook_function;
  settings : Settings;
  aqo_state : pgstate;
  AQOMemoryContext : bool
}.

Definition fun_set {A} (f : hook → A) (h : hook) (a : A) : hook → A := fun h' => if decide (h' = h) then a else f h'.

(** [prev_h = h; h = f]. *)
Definition install (h : hook) (f : hook_function) (b : Backend) : Backend :=
  mkBackend (fun_set (hooks b) h (Some f)) (fun_set (prev_hooks b) h (hooks b h)) (settings b) (aqo_state b) (AQOMemoryContext b).
(** [h = f]. *)
Definition overwrite (h : hook) (f : hook_function) (b : Backend) : Backend :=
  mkBackend (fun_set (hooks b) h (Some f)) (prev_hooks b) (settings b) (aqo_state b) (AQOMemoryContext b).

Definition aqo_mode_name : cstring := lit "aqo.mode".

(** The twelve hooks that are passed on, and the two that are not. *)
Definition install_all (b : Backend) : Backend :=
  foldl (fun b '(h, f) => install h f b) b
    [(planner_hook, aqo_planner_f); (post_parse_analyze_hook, get_query_text_f); (ExecutorStart_hook, aqo_ExecutorStart_f);
     (ExecutorEnd_hook, learn_query_stat_f); (set_baserel_rows_estimate_hook, aqo_set_baserel_rows_estimate_f);
     (get_parameterized_baserel_size_hook, aqo_get_parameterized_baserel_size_f);
     (set_joinrel_size_estimates_hook, aqo_set_joinrel_size_estimates_f);
     (get_parameterized_joinrel_size_hook, aqo_get_parameterized_joinrel_size_f);
     (copy_generic_path_info_hook, aqo_copy_generic_path_info_f); (ExplainOnePlan_hook, print_into_explain_f);
     (join_search_hook, aqo_join_search_f); (set_rel_pathlist_hook, aqo_set_rel_pathlist_f)].
Definition overwrite_all (b : Backend) : Backend :=
  overwrite estimated_cost_hook aqo_estimated_cost_hook_f (overwrite parampathinfo_postinit_hook ppi_hook_f b).

Definition PG_init (b : Backend) : res Backend :=
  s ← DefineCustomEnumVariable aqo_mode_name (mode_number AQO_MODE_CONTROLLED) format_options PGC_SUSET 0 (settings b);
  let b := overwrite_all (install_all (mkBackend (hooks b) (prev_hooks b) s (aqo_state b) (AQOMemoryContext b))) in
  let '(r, st) := init_deactivated_queries_storage (aqo_state b) in
  _ ← r;
  Ok (mkBackend (hooks b) (prev_hooks b) (settings b) st true).
End loading.

(** ** Functions for SQL *)

(** The trigger on aqo_queries. *)
Definition invalidate_deactivated_queries_cache : PG unit :=
  fini_deactivated_queries_storage;;
  init_deactivated_queries_storage.

Definition MaxAllocSize : Z := 1073741823.
(** [AllocSizeIsValid] of [sizeof(double) * num], computed as an unsigned 64-bit number. *)
Definition alloc_valid (num : Z) : bool := (((8 * num) mod 2 ^ 64) <=? MaxAllocSize)%Z.

Definition imdb_get_array_hash (array : ArrayType) (num : Z) : res Z :=
  if negb (alloc_valid num) then Err (Fault_elog "invalid memory alloc request size")
  else
    '(vector, nelems) ← deform_vector array (palloc0 (Z.to_nat num));
    Ok (get_int_array_hash2 (take nelems vector)).

(** ** Names *)
Definition folded (s : cstring) : list Z := map (fun c => fold_char (char_code c)) s.
Definition no_nul (s : cstring) : Prop := Forall (fun c => char_code c ≠ 0%Z) s.

Lemma fold_zero ch : (0 ≤ ch)%Z → fold_char ch = 0%Z ↔ ch = 0%Z.
Proof. unfold fold_char. intros Hch. destruct (_ && _) eqn:E; [|done]. apply andb_true_iff in E as [? ?]. lia. Qed.

Lemma char_code_pos c : (0 ≤ char_code c)%Z.
Proof. unfold char_code. lia. Qed.

(** [pg_strcasecmp] is equality up to case. *)
Lemma strcasecmp_cons c1 s1 c2 s2 :
  char_code c1 ≠ 0%Z →
  pg_strcasecmp (c1 :: s1) (c2 :: s2) =
  let d := (fold_char (char_code c1) - fold_char (char_code c2))%Z in if (d =? 0)%Z then pg_strcasecmp s1 s2 else d.
Proof.
  intros Hc. cbn [pg_strcasecmp]. rewrite (proj2 (Z.eqb_neq _ _) Hc).
  destruct (Z.eqb_spec (char_code c1) (char_code c2)) as [->|]; [by rewrite Z.sub_diag|]. by destruct (_ =? 0)%Z.
Qed.

Lemma strcasecmp_nil c s : char_code c ≠ 0%Z → pg_strcasecmp (c :: s) [] ≠ 0%Z ∧ pg_strcasecmp [] (c :: s) ≠ 0%Z.
Proof.
  intros Hc. pose proof (fold_zero (char_code c) (char_code_pos c)) as Hf. cbn [pg_strcasecmp]. change (fold_char 0) with 0%Z.
  rewrite (proj2 (Z.eqb_neq (char_code c) 0) Hc), (proj2 (Z.eqb_neq 0 (char_code c)) (not_eq_sym Hc)).
  rewrite (proj2 (Z.eqb_neq (fold_char (char_code c) - 0) 0)), (proj2 (Z.eqb_neq (0 - fold_char (char_code c)) 0)) by lia.
  cbn [negb]. lia.
Qed.

Lemma strcasecmp_folded s1 s2 : no_nul s1 → no_nul s2 → pg_strcasecmp s1 s2 = 0%Z ↔ folded s1 = folded s2.
Proof.
  intros H1. revert s2. induction H1 as [|c1 s1 Hc1 H1 IH]; intros s2 H2; destruct H2 as [|c2 s2 Hc2 H2].
  - done.
  - split; [by intros E; destruct (strcasecmp_nil c2 s2 Hc2) | done].
  - split; [by intros E; destruct (strcasecmp_nil c1 s1 Hc1) | done].
  - rewrite strcasecmp_cons by done. cbv zeta. specialize (IH s2 H2). unfold folded in *. cbn [map].
    destruct (Z.eqb_spec (fold_char (char_code c1) - fold_char (char_code c2)) 0) as [Ez|Ez].
    + rewrite IH. split; [intros ->; f_equal; lia | by intros [= _ ?]].
    + split; [done | intros [= ? _]; lia].
Qed.

Lemma name_compare_refl s : same_name s s = true.
Proof.
  unfold same_name. assert (E : guc_name_compare s s = 0%Z); [|by rewrite E]. induction s; [done|]. cbn. by rewrite Z.eqb_refl.
Qed.

(** The texts that name a mode are its name in any case of letters, and the mode's name
    is one of them. *)
Theorem mode_names (text : cstring) (v : Z) :
  no_nul text → lookup_by_name format_options text = Some v ↔
    ∃ m name, v = mode_number m ∧ lookup_by_value format_options v = Ok name ∧ folded text = folded name.
Proof.
  intros Ht. assert (Hc : ∀ name, no_nul name → (pg_strcasecmp text name =? 0)%Z = bool_decide (folded text = folded name)).
  { intros name Hn. pose proof (strcasecmp_folded text name Ht Hn).
    destruct (Z.eqb_spec (pg_strcasecmp text name) 0), (bool_decide_reflect (folded text = folded name)); tauto. }
  unfold format_options. cbn [lookup_by_name opt_name opt_val]. rewrite !Hc by (repeat constructor; discriminate).
  split.
  - case_bool_decide; [intros [= <-]; by exists AQO_MODE_INTELLIGENT, (lit "intelligent")|].
    case_bool_decide; [intros [= <-]; by exists AQO_MODE_FORCED, (lit "forced")|].
    case_bool_decide; [intros [= <-]; by exists AQO_MODE_CONTROLLED, (lit "controlled")|].
    case_bool_decide; [intros [= <-]; by exists AQO_MODE_LEARN, (lit "learn")|].
    case_bool_decide; [intros [= <-]; by exists AQO_MODE_DISABLED, (lit "disabled") | done].
  - intros (m & name & -> & E & Hf). rewrite Hf. destruct m; cbn in E; injection E as <-; by vm_compute.
Qed.

(** ** Loading *)
Section load.
Context `{Server} `{GucServer}.

(** With warnings instead of errors setting a variable always returns, and keeps its name. *)
Lemma push_name level dirty c action : guc_name (push_old_value level dirty c action).1 = guc_name c.
Proof. unfold push_old_value. by repeat case_match. Qed.

Lemma set_option_warning level dirty c value context source action changeVal is_reload :
  ∃ ret c' dirty', set_option level dirty c value context source action changeVal (Some WARNING) is_reload = Ok (ret, c', dirty') ∧
    guc_name c' = guc_name c.
Proof.
  assert (Hw : ∀ (b : bool) msg, (if b then ereport WARNING msg else Ok ()) = Ok ()) by (by intros []).
  unfold set_option. rewrite Hw. cbn [mbind res_bind ereport]. destruct (context_verdict _ _ _ _) as [prohibit| |]; [|by eexists _, _, _ ..].
  destruct (restricted c); [by eexists _, _, _|]. set (mk := changeVal && _ && _). destruct (_ && _ && negb mk); [by eexists _, _, _|].
  destruct (parse_value _ _ _ _) as [[[v s] x]|]; [|by eexists _, _, _]. destruct prohibit; [destruct (negb _); by eexists _, _, _|].
  set (change := changeVal && negb _). pose proof (push_name level dirty c action) as Hn.
  destruct (change && negb mk); [destruct (push_old_value _ _ _ _) as [c1 d]; cbn in Hn|]; eexists _, _, _; (split; [done|]);
    destruct mk, change; cbn; unfold make_default; cbn; try destruct (_ <=? _); done.
Qed.

(** What stays of a variable while it is set again. *)
Definition kept (name : cstring) (v : config_enum * bool) : Prop := guc_name v.1 = name ∧ enum_valid v.1.

Lemma reapply_kept name level value context source action v : kept name v → ensures (reapply level value context source action v) (kept name).
Proof.
  intros [Hn Hv]. unfold reapply. destruct (set_option_warning level v.2 v.1 value context source action true false) as (ret & c' & d & E & Hn').
  pose proof (set_option_valid level v.2 v.1 value context source action true (Some WARNING) false Hv) as Hv'. rewrite E in *. cbn in *.
  split; cbn; [congruence | done].
Qed.

Lemma ensures_bind_kept name (m : res (config_enum * bool)) k :
  ensures m (kept name) → (∀ v, kept name v → ensures (k v) (kept name)) → ensures (m ≫= k) (kept name).
Proof. destruct m; cbn; auto. Qed.

Lemma set_entry_level_valid c level : enum_valid c → enum_valid (set_entry_level c level).
Proof.
  intros Hc. unfold set_entry_level. destruct (guc_stack c) as [|s prev] eqn:Es; [done|]. destruct Hc as [H1 H2 H3 H4]. rewrite Es in H4.
  split; cbn; [done | done | done|]. apply Forall_cons in H4 as [[Hs1 Hs2] Hprev]. apply Forall_cons. by split.
Qed.

Lemma reapply_stacked_kept name level p stack cur curx curs v :
  kept name v → ensures (reapply_stacked_values level p stack cur curx curs v) (kept name).
Proof.
  revert cur curx curs. induction stack as [|s prev IH]; intros cur curx curs Hv; cbn [reapply_stacked_values].
  - destruct (_ || _ || _); [|done]. apply ensures_bind_kept; [by apply reapply_kept|]. intros v' [Hn [H1 H2 H3 H4]]. by repeat split.
  - apply ensures_bind_kept; [by apply IH|]. intros v1 Hv1. apply ensures_bind_kept.
    + destruct (se_state s); try (by apply reapply_kept). apply ensures_bind_kept; [by apply reapply_kept|]. intros. by apply reapply_kept.
    + intros v2 [Hn2 Hv2]. split; cbn; (destruct (negb _); [|done]); [|by apply set_entry_level_valid].
      unfold set_entry_level. by destruct (guc_stack v2.1).
Qed.

(** Defining a variable that is not there yet. *)
Lemma define_ok var s :
  enum_valid var → existsb (fun c => same_name (guc_name var) (guc_name c)) (guc_variables (guc s)) = false →
  ensures (define_custom_variable var s) (fun s' => ∃ c, guc_variables (guc s') = guc_variables (guc s) ++ [c] ∧
    guc_name c = guc_name var ∧ enum_valid c ∧ GUCNestLevel (guc s') = GUCNestLevel (guc s)).
Proof.
  intros Hv Hnew. unfold define_custom_variable. rewrite Hnew. destruct (list_find _ _) as [[k p]|]; [|by exists var].
  set (level := GUCNestLevel _). set (m := match ph_reset_val p with Some _ => _ | None => _ end).
  assert (Hm : ensures m (kept (guc_name var))) by (unfold m; destruct (ph_reset_val p); [by apply reapply_kept | done]).
  destruct m as [v|]; [|done]. cbn [mbind res_bind].
  pose proof (reapply_stacked_kept (guc_name var) level p (ph_stack p) (ph_value p) (ph_scontext p) (ph_source p) v Hm) as Hr.
  destruct (reapply_stacked_values _ _ _ _ _ _ _) as [[c d]|]; [|done]. destruct Hr. by exists c.
Qed.
End load.

(** AQO's function for each hook, and the hooks whose earlier function is kept. *)
Definition aqo_function (h : hook) : hook_function :=
  match h with
  | planner_hook => aqo_planner_f
  | post_parse_analyze_hook => get_query_text_f
  | ExecutorStart_hook => aqo_ExecutorStart_f
  | ExecutorEnd_hook => learn_query_stat_f
  | set_baserel_rows_estimate_hook => aqo_set_baserel_rows_estimate_f
  | get_parameterized_baserel_size_hook => aqo_get_parameterized_baserel_size_f
  | set_joinrel_size_estimates_hook => aqo_set_joinrel_size_estimates_f
  | get_parameterized_joinrel_size_hook => aqo_get_parameterized_joinrel_size_f
  | copy_generic_path_info_hook => aqo_copy_generic_path_info_f
  | ExplainOnePlan_hook => print_into_explain_f
  | join_search_hook => aqo_join_search_f
  | set_rel_pathlist_hook => aqo_set_rel_pathlist_f
  | parampathinfo_postinit_hook => ppi_hook_f
  | estimated_cost_hook => aqo_estimated_cost_hook_f
  end.
Definition chained (h : hook) : bool := match h with parampathinfo_postinit_hook | estimated_cost_hook => false | _ => true end.

Lemma install_all_ok b : let b' := overwrite_all (install_all b) in
  (∀ h, hooks b' h = Some (aqo_function h)) ∧ (∀ h, chained h = true → prev_hooks b' h = hooks b h) ∧ settings b' = settings b ∧
  aqo_state b' = aqo_state b.
Proof. split_and!; [by intros [] | by intros [] | done | done]. Qed.


(** The variable as it is defined. *)
Definition fresh_mode : config_enum :=
  mkEnum aqo_mode_name PGC_SUSET 0 false PGC_S_DEFAULT PGC_S_DEFAULT PGC_INTERNAL PGC_INTERNAL [] (mode_number AQO_MODE_CONTROLLED)
    (mode_number AQO_MODE_CONTROLLED) format_options (mode_number AQO_MODE_CONTROLLED).

(** Whether the text takes effect. *)
Definition configured (context : GucContext) (text : cstring) : Z :=
  default (mode_number AQO_MODE_CONTROLLED)
    (match context with PGC_USERSET | PGC_BACKEND => None | _ => lookup_by_name format_options text end).

Lemma reapply_default `{Server} `{GucServer} level dirty text context source :
  priority source ≤ priority PGC_S_OVERRIDE →
  ensures (reapply level (Some text) context source GUC_ACTION_SET (fresh_mode, dirty)) (fun v => guc_variable v.1 = configured context text).
Proof.
  intros Hp. unfold reapply, set_option, configured. cbn [fst snd].
  assert (Hw : ∀ (b : bool) msg, (if b then ereport WARNING msg else Ok ()) = Ok ()) by (by intros []). rewrite Hw.
  cbn [mbind res_bind ereport]. change (guc_context fresh_mode) with PGC_SUSET. change (restricted fresh_mode) with false.
  apply Nat.leb_le in Hp. rewrite Hp. replace (priority source <? priority (guc_source fresh_mode)) with false by (cbn; by destruct source).
  unfold parse_value, config_enum_lookup_by_name. change (guc_options fresh_mode) with format_options. cbn [andb orb negb].
  generalize (lookup_by_name format_options text) as o. intros o. destruct context; cbn; try done; (destruct o as [v|]; cbn; [|done]); by destruct source.
Qed.

(** The mode that the configuration gave before loading: it takes effect when it names a
    mode and was not given by an ordinary user; otherwise the mode is "controlled". *)
Theorem mode_at_load `{Server} `{GucServer} (b : Backend) (k : nat) (p : placeholder) (text : cstring) :
  existsb (fun c => same_name aqo_mode_name (guc_name c)) (guc_variables (guc (settings b))) = false →
  list_find (fun p => same_name aqo_mode_name (ph_name p) = true) (placeholders (settings b)) = Some (k, p) →
  ph_reset_val p = Some text → ph_stack p = [] → ph_shared p = true → ph_scontext p = ph_reset_scontext p → ph_source p = ph_reset_source p →
  priority (ph_reset_source p) ≤ priority PGC_S_OVERRIDE →
  ∃ b' c, PG_init b = Ok b' ∧ last (guc_variables (guc (settings b'))) = Some c ∧ guc_variable c = configured (ph_reset_scontext p) text.
Proof.
  intros Hnew Hfind Hreset Hstack Hshared Hx Hs Hprio. unfold PG_init, DefineCustomEnumVariable. fold fresh_mode.
  assert (Hd : ensures (define_custom_variable fresh_mode (settings b)) (fun s' => ∃ c, last (guc_variables (guc s')) = Some c ∧
    guc_variable c = configured (ph_reset_scontext p) text)).
  { unfold define_custom_variable. change (guc_name fresh_mode) with aqo_mode_name. rewrite Hnew, Hfind, Hreset, Hstack.
    pose proof (reapply_default (GUCNestLevel (guc (settings b))) (guc_dirty (guc (settings b))) text (ph_reset_scontext p) (ph_reset_source p) Hprio) as Hr.
    destruct (reapply _ _ _ _ _ _) as [[c d]|]; [|done]. cbn [mbind res_bind reapply_stacked_values].
    rewrite Hshared, Hx, Hs, !bool_decide_eq_true_2 by done. cbn [negb orb mbind res_bind ensures guc guc_variables].
    exists c. by rewrite last_snoc. }
  destruct (define_custom_variable fresh_mode (settings b)) as [s'|]; [|done]. destruct Hd as (c & Hl & Hv). cbn [mbind res_bind].
  destruct (install_all_ok (mkBackend (hooks b) (prev_hooks b) s' (aqo_state b) (AQOMemoryContext b))) as (_ & _ & H5 & _).
  set (b1 := overwrite_all _) in *. eexists _, c. split; [reflexivity|]. cbn [settings]. by rewrite H5.
Qed.

(** ** The functions for SQL *)

(** A query that was deactivated is looked up again. *)
Theorem invalidate_forgets (st : pgstate) (query_hash : Z) :
  (invalidate_deactivated_queries_cache;; query_is_deactivated query_hash) st = (Ok false, set_deactivated st (Some ∅)).
Proof.
  assert (E : bool_decide (query_hash ∈ (∅ : gset Z)) = false) by (apply bool_decide_eq_false_2, not_elem_of_empty).
  by rewrite <- E.
Qed.

(** Copying into too small an array leaves it. *)
Lemma copy_overflow {A} (src dst : list A) i k :
  i + k ≤ length src → i ≤ length dst → length dst < i + k →
  for_from i k (fun i d => x ← rd src i; wr d i x) dst = Err Fault_bounds.
Proof.
  revert i dst. induction k as [|k IH]; intros i dst Hs Hi Hd; [lia|]. cbn [for_from].
  destruct (lookup_lt_is_Some_2 src i) as [x Hx]; [lia|]. rewrite (rd_some _ _ _ Hx). cbn [mbind res_bind]. unfold wr.
  destruct (dst !! i) as [y|] eqn:Hy; [|done]. apply lookup_lt_Some in Hy.
  apply IH; rewrite ?length_insert; lia.
Qed.

(** The number given is only the room for the elements: with enough of it the hash is that of
    the whole array, with less the elements are written behind it. *)
Theorem imdb_hash (array : ArrayType) (num : Z) :
  alloc_valid num = true →
  imdb_get_array_hash array num =
    if length (arr_elems array) <=? Z.to_nat num then Ok (get_int_array_hash2 (arr_elems array)) else Err Fault_bounds.
Proof.
  intros Ha. unfold imdb_get_array_hash. rewrite Ha. cbn [negb]. destruct (Nat.leb_spec (length (arr_elems array)) (Z.to_nat num)) as [Hl|Hl].
  - rewrite deform_vector_ok by (unfold palloc0; by rewrite length_replicate). cbn. by rewrite take_app_length.
  - unfold deform_vector, for_range. rewrite Nat.sub_0_r, copy_overflow; [done | done | lia|]. unfold palloc0. rewrite length_replicate. lia.
Qed.

(** ** Examples *)
(** Another library has hooked the planner; the configuration file asks for learning, in capitals. *)
Definition learn_placeholder : placeholder :=
  mkPlaceholder (lit "AQO.mode") (Some (lit "LEARN")) PGC_S_FILE PGC_POSTMASTER (Some (lit "LEARN")) PGC_S_FILE PGC_POSTMASTER [] true.
Definition sample_backend : Backend :=
  mkBackend (fun h => if decide (h = planner_hook) then Some (foreign_f 1) else None) (fun _ => None)
    (mkSettings (mkGuc [] 0 false) [learn_placeholder]) empty_tables false.

