(* ===== verification/BTree.v ===== *)
(** * BTree: the check of a unique index

    When a row gets its entry in a unique index, the leaf pages of the B-tree are
    searched for a live row with the same key (nbtinsert.c, nbtsearch.c).  [PgState]
    says what comes of it for the rows of AQO's tables; this file models the search in
    the pages: the comparison of keys, the way to the leaf of the key, the binary search in it, and
    [_bt_check_unique], which walks over the equal entries and the pages to the right.
    It shows that the check answers for all the entries from a leaf on, and that for an
    index that has the entries of a table's rows the answer is the one of [PgState].
    Locks on buffers, predicate locks and the descent from the root are left out. *)
From Stdlib Require Import Sorted.
From S2P Require Import Prelude Nodes PgState Storage.
From stdpp Require Import strings sorting.

(** ** Data *)

(** A key is a list of integers or nulls, as AQO's indexes have them. *)
Abbreviation key := (list (option Z)).

(** An entry: its key, the row it leads to, and whether it was marked killed. *)
Record IndexItem : Type := mkItem { it_key : key; it_tid : nat; it_dead : bool }.

(** A leaf: the items from offset 1 on, the first one being the high key unless the
    page is the rightmost; the right sibling (0: none); the flags: deleted, with killed
    items, split without an entry for the right half in the level above. *)
Record BTPage : Type := mkBTPage { bt_items : list IndexItem; btpo_next : nat; bt_ignore : bool; bt_garbage : bool; bt_incomplete : bool }.

Definition P_RIGHTMOST (p : BTPage) : bool := btpo_next p =? 0.
Definition P_HIKEY : nat := 1.
Definition P_FIRSTDATAKEY (p : BTPage) : nat := if P_RIGHTMOST p then P_HIKEY else 2.
Definition PageGetMaxOffsetNumber (p : BTPage) : nat := length (bt_items p).
Definition PageGetItem (p : BTPage) (offset : nat) : res IndexItem := if offset =? 0 then Err Fault_bounds else rd (bt_items p) (offset - 1).

(** The check that is asked for; UNIQUE_CHECK_NO does not get here. *)
Inductive UniqueCheck : Type := CHECK_YES | CHECK_PARTIAL | CHECK_EXISTING.
#[export] Instance UniqueCheck_eq_dec : EqDecision UniqueCheck.
Proof. solve_decision. Defined.

(** What [heap_hot_search] finds at a row: with SnapshotDirty the transactions that are at work on
    it, or nothing and whether all its versions are dead to everyone; with SnapshotSelf
    whether it is alive. *)
Record DirtyResult : Type := mkDirty { dirty_xmin : Z; dirty_xmax : Z; dirty_token : Z }.
Class HeapSearch : Type := {
  hot_search_dirty : nat → option DirtyResult;
  hot_all_dead : nat → bool;
  hot_search_self : nat → bool
}.

(** ** Comparing keys *)
Definition btint4cmp (a b : Z) : Z := if (a >? b)%Z then 1 else if (a =? b)%Z then 0 else -1.

(** One column of [_bt_compare]: ascending, nulls last. *)
Definition compare_attr (arg datum : option Z) : Z :=
  match arg, datum with
  | None, None => 0
  | None, Some _ => 1
  | Some _, None => -1
  | Some x, Some d => - btint4cmp d x
  end.

Fixpoint bt_compare (scankey k : key) : Z :=
  match scankey, k with
  | x :: scankey, d :: k => let result := compare_attr x d in if negb (result =? 0)%Z then result else bt_compare scankey k
  | _, _ => 0
  end.

Fixpoint bt_isequal (scankey k : key) : bool :=
  match scankey, k with
  | x :: scankey, d :: k =>
      match x, d with
      | Some x, Some d => if negb (btint4cmp d x =? 0)%Z then false else bt_isequal scankey k
      | _, _ => false
      end
  | _, _ => true
  end.

(** ** The binary search *)
Fixpoint binsrch_loop (fuel : nat) (p : BTPage) (scankey : key) (low high : nat) : res nat :=
  match fuel with
  | O => Err Fault_fuel
  | S fuel =>
      if low <? high then
        let mid := low + (high - low) / 2 in
        item ← PageGetItem p mid;
        if (1 <=? bt_compare scankey (it_key item))%Z then binsrch_loop fuel p scankey (mid + 1) high
        else binsrch_loop fuel p scankey low mid
      else Ok low
  end.

(** [_bt_binsrch] on a leaf, with [nextkey] false. *)
Definition bt_binsrch (p : BTPage) (scankey : key) : res nat :=
  let low := P_FIRSTDATAKEY p in
  let high := PageGetMaxOffsetNumber p in
  if high <? low then Ok low else binsrch_loop (S (S high)) p scankey low (high + 1).

(** What finishing a split does to the leaf; the new entry is in the level above. *)
Definition finish_split (p : BTPage) : BTPage := mkBTPage (bt_items p) (btpo_next p) (bt_ignore p) (bt_garbage p) false.

(** [_bt_moveright] from a leaf, for an insertion and with [nextkey] false: pages to the right while the
    key is behind the high key or the page was deleted. *)
Fixpoint bt_moveright (fuel : nat) (pages : list BTPage) (scankey : key) (blk : nat) : res (nat * list BTPage) :=
  match fuel with
  | O => Err Fault_fuel
  | S fuel =>
      p ← rd pages blk;
      if P_RIGHTMOST p then if bt_ignore p then Err (Fault_elog "fell off the end of index") else Ok (blk, pages)
      else if bt_incomplete p then bt_moveright fuel (<[blk := finish_split p]> pages) scankey blk
      else
        right ← (if bt_ignore p then Ok true else hikey ← PageGetItem p P_HIKEY; Ok (1 <=? bt_compare scankey (it_key hikey))%Z);
        if (right : bool) then bt_moveright fuel pages scankey (btpo_next p) else Ok (blk, pages)
  end.

(** ** The check *)

(** No conflict that is known, with [is_unique]; or a transaction to wait for. *)
Inductive UniqueResult : Type := Checked (is_unique : bool) | Waits (xwait token : Z).

(** What the body of the loop does with an item: go on, leave the loop, return. *)
Inductive ItemResult : Type := GoOn (pages : list BTPage) (found : bool) | Leave | Return (r : UniqueResult).

Section check.
Context `{HeapSearch}.
Context (checkUnique : UniqueCheck) (scankey : key) (tid : nat).

(** [ItemIdMarkDead] and the page's flag. *)
Definition mark_dead (p : BTPage) (offset : nat) : BTPage :=
  mkBTPage (alter (fun e => mkItem (it_key e) (it_tid e) true) (offset - 1) (bt_items p)) (btpo_next p) (bt_ignore p) true (bt_incomplete p).

Definition examine (pages : list BTPage) (blk : nat) (p : BTPage) (offset : nat) (found : bool) : res ItemResult :=
  if PageGetMaxOffsetNumber p <? offset then Ok (GoOn pages found)
  else
    item ← PageGetItem p offset;
    if it_dead item then Ok (GoOn pages found)
    else if negb (bt_isequal scankey (it_key item)) then Ok Leave
    else if bool_decide (checkUnique = CHECK_EXISTING) && (it_tid item =? tid) then Ok (GoOn pages true)
    else
      match hot_search_dirty (it_tid item) with
      | Some d =>
          if bool_decide (checkUnique = CHECK_PARTIAL) then Ok (Return (Checked false))
          else
            let xwait := if negb (dirty_xmin d =? 0)%Z then dirty_xmin d else dirty_xmax d in
            if negb (xwait =? 0)%Z then Ok (Return (Waits xwait (dirty_token d)))
            else if hot_search_self tid then Err (Fault_elog "duplicate key value violates unique constraint")
            else Ok Leave
      | None => if hot_all_dead (it_tid item) then Ok (GoOn (<[blk := mark_dead p offset]> pages) found) else Ok (GoOn pages found)
      end.

(** The next page that was not deleted. *)
Fixpoint next_page (fuel : nat) (pages : list BTPage) (blk : nat) : res nat :=
  match fuel with
  | O => Err Fault_fuel
  | S fuel =>
      p ← rd pages blk;
      if negb (bt_ignore p) then Ok blk
      else if P_RIGHTMOST p then Err (Fault_elog "fell off the end of index")
      else next_page fuel pages (btpo_next p)
  end.

Definition finish_check (pages : list BTPage) (found : bool) : res (UniqueResult * list BTPage) :=
  if bool_decide (checkUnique = CHECK_EXISTING) && negb found then Err (Fault_elog "failed to re-find tuple within index")
  else Ok (Checked true, pages).

Fixpoint check_loop (fuel : nat) (pages : list BTPage) (blk offset : nat) (found : bool) : res (UniqueResult * list BTPage) :=
  match fuel with
  | O => Err Fault_fuel
  | S fuel =>
      p ← rd pages blk;
      r ← examine pages blk p offset found;
      match r with
      | Return r => Ok (r, pages)
      | Leave => finish_check pages found
      | GoOn pages found =>
          if offset <? PageGetMaxOffsetNumber p then check_loop fuel pages blk (offset + 1) found
          else if P_RIGHTMOST p then finish_check pages found
          else
            hikey ← PageGetItem p P_HIKEY;
            if negb (bt_isequal scankey (it_key hikey)) then finish_check pages found
            else
              blk ← next_page (length pages) pages (btpo_next p);
              p ← rd pages blk;
              check_loop fuel pages blk (P_FIRSTDATAKEY p) found
      end
  end.

Definition page_weight (p : BTPage) : nat := S (length (bt_items p)).
Definition check_fuel (pages : list BTPage) : nat := S (sum_list_with page_weight pages).

Definition bt_check_unique (pages : list BTPage) (blk offset : nat) : res (UniqueResult * list BTPage) :=
  check_loop (check_fuel pages) pages blk offset false.

(** The part of [_bt_doinsert] that checks, from the leaf the descent led to: the leaf of
    the key, the first place for the key in it, then the check from there. *)
Definition check_insert (pages : list BTPage) (blk : nat) : res (UniqueResult * list BTPage) :=
  '(blk, pages) ← bt_moveright (2 * length pages) pages scankey blk;
  p ← rd pages blk;
  offset ← bt_binsrch p scankey;
  bt_check_unique pages blk offset.
End check.

(** ** The order of keys *)
Definition key_le (a b : key) : Prop := (bt_compare a b ≤ 0)%Z.

Lemma btint4cmp_opp a b : btint4cmp a b = (- btint4cmp b a)%Z.
Proof. unfold btint4cmp. rewrite !Z.gtb_ltb, (Z.eqb_sym b a). destruct (Z.ltb_spec b a), (Z.ltb_spec a b), (Z.eqb_spec a b); lia. Qed.

Lemma btint4cmp_zero a b : btint4cmp a b = 0%Z ↔ a = b.
Proof. unfold btint4cmp. rewrite Z.gtb_ltb. destruct (Z.ltb_spec b a), (Z.eqb_spec a b); lia. Qed.

Lemma compare_attr_opp x d : compare_attr x d = (- compare_attr d x)%Z.
Proof. destruct x as [x|], d as [d|]; cbn; try done. by rewrite (btint4cmp_opp d x). Qed.

Lemma compare_attr_zero x d : compare_attr x d = 0%Z ↔ x = d.
Proof.
  destruct x as [x|], d as [d|]; cbn; try done. pose proof (btint4cmp_zero d x) as Hz.
  split; [intros E; f_equal; symmetry; apply Hz; lia | intros [= E]; rewrite (proj2 Hz (eq_sym E)); done].
Qed.

Lemma compare_attr_trans x y z : (compare_attr x y < 0)%Z → (compare_attr y z < 0)%Z → (compare_attr x z < 0)%Z.
Proof.
  destruct x as [x|], y as [y|], z as [z|]; cbn; try lia. unfold btint4cmp. rewrite !Z.gtb_ltb.
  destruct (Z.ltb_spec x y), (Z.ltb_spec y z), (Z.ltb_spec x z), (Z.eqb_spec y x), (Z.eqb_spec z y), (Z.eqb_spec z x); lia.
Qed.

Lemma key_le_antisym a b : length a = length b → key_le a b → key_le b a → a = b.
Proof.
  unfold key_le. revert b. induction a as [|x a IH]; intros [|d b] Hl; [done | done | done|]. cbn. rewrite (compare_attr_opp d x).
  destruct (Z.eqb_spec (compare_attr x d) 0) as [E|E].
  - rewrite E. cbn. intros H1 H2. apply compare_attr_zero in E. injection Hl as Hl. by rewrite E, (IH b Hl H1 H2).
  - destruct (Z.eqb_spec (- compare_attr x d) 0); [lia|]. cbn. lia.
Qed.

Lemma isequal_eq a b : length a = length b → bt_isequal a b = true → a = b.
Proof.
  revert b. induction a as [|x a IH]; intros [|d b] Hl; [done | done | done|]. cbn. destruct x as [x|], d as [d|]; try done.
  destruct (Z.eqb_spec (btint4cmp d x) 0) as [E|]; [|done]. intros Hi. apply (proj1 (btint4cmp_zero _ _)) in E. injection Hl as Hl. by rewrite E, (IH b Hl Hi).
Qed.

Lemma key_le_trans a b c : length a = length b → length b = length c → key_le a b → key_le b c → key_le a c.
Proof.
  unfold key_le. revert b c. induction a as [|x a IH]; intros [|y b] [|z c] Hl Hl'; try done. cbn.
  destruct (Z.eqb_spec (compare_attr x y) 0) as [E|E]; cbn [negb].
  - apply compare_attr_zero in E as ->. intros H1. destruct (negb (compare_attr y z =? 0)%Z) eqn:E'; [done|]. apply IH; [by injection Hl | by injection Hl' | done].
  - intros H1. destruct (Z.eqb_spec (compare_attr y z) 0) as [E'|E']; cbn [negb].
    + apply compare_attr_zero in E' as <-. intros _. destruct (Z.eqb_spec (compare_attr x y) 0); [done|]. done.
    + intros H2. assert (compare_attr x z < 0)%Z by (apply (compare_attr_trans x y z); lia). destruct (Z.eqb_spec (compare_attr x z) 0); cbn [negb]; lia.
Qed.

Lemma key_le_refl a : key_le a a.
Proof. unfold key_le. induction a as [|x a IH]; [done|]. cbn. by rewrite (proj2 (compare_attr_zero x x) eq_refl). Qed.

Lemma isequal_le s e : length s = length e → bt_isequal s e = true → key_le s e.
Proof. intros Hl E. rewrite <- (isequal_eq s e Hl E). apply key_le_refl. Qed.

(** Behind a key that is greater nothing is equal. *)
Lemma isequal_past s e e' :
  length s = length e → length s = length e' → key_le s e → bt_isequal s e = false → key_le e e' → bt_isequal s e' = false.
Proof.
  intros Hl Hl' Hse Hne Hee. destruct (bt_isequal s e') eqn:E; [|done]. pose proof (isequal_eq s e' Hl' E) as <-.
  pose proof (key_le_antisym s e Hl Hse Hee) as <-. congruence.
Qed.

Lemma sorted_lookup (l : list key) i j a b : StronglySorted key_le l → l !! i = Some a → l !! j = Some b → i ≤ j → key_le a b.
Proof.
  intros Hs. revert i j. induction Hs as [|x l Hs IH Hx]; intros i j Ha Hb Hij; [done|]. destruct i as [|i], j as [|j]; cbn in Ha, Hb; try lia; simplify_eq.
  - apply key_le_refl.
  - rewrite Forall_forall in Hx. apply Hx. by eapply list_elem_of_lookup_2.
  - apply (IH i j); [done | done | lia].
Qed.

(** The binary search stops at the first entry that is not smaller than the key. *)
Lemma binsrch_loop_ok fuel p scankey low high :
  StronglySorted key_le (map it_key (drop (P_FIRSTDATAKEY p - 1) (bt_items p))) →
  Forall (fun e => length scankey = length (it_key e)) (bt_items p) →
  1 ≤ P_FIRSTDATAKEY p ≤ low → low ≤ high → high ≤ S (length (bt_items p)) → high - low < fuel →
  (∀ o e, P_FIRSTDATAKEY p ≤ o < low → bt_items p !! (o - 1) = Some e → (1 ≤ bt_compare scankey (it_key e))%Z) →
  (∀ o e, high ≤ o → bt_items p !! (o - 1) = Some e → key_le scankey (it_key e)) →
  ∃ o', binsrch_loop fuel p scankey low high = Ok o' ∧ low ≤ o' ≤ high ∧
    (∀ o e, P_FIRSTDATAKEY p ≤ o < o' → bt_items p !! (o - 1) = Some e → (1 ≤ bt_compare scankey (it_key e))%Z) ∧
    (∀ o e, o' ≤ o → bt_items p !! (o - 1) = Some e → key_le scankey (it_key e)).
Proof.
  intros Hs Hl. set (f := P_FIRSTDATAKEY p) in *.
  assert (Hord : ∀ o o' e e', f ≤ o → o ≤ o' → 1 ≤ f → bt_items p !! (o - 1) = Some e → bt_items p !! (o' - 1) = Some e' → key_le (it_key e) (it_key e')).
  { intros o o' e e' Ho Ho' Hf He He'. eapply (sorted_lookup _ (o - f) (o' - f)); [exact Hs | | | lia]; rewrite list_lookup_fmap, lookup_drop.
    - replace (f - 1 + (o - f)) with (o - 1) by lia. by rewrite He.
    - replace (f - 1 + (o' - f)) with (o' - 1) by lia. by rewrite He'. }
  rewrite Forall_forall in Hl. revert low high. induction fuel as [|fuel IH]; intros low high Hf Hlh Hh Hfuel Hlo Hhi; [lia|]. cbn [binsrch_loop].
  destruct (Nat.ltb_spec low high); [|exists low; split_and!; [done | lia | lia | done | intros o e Ho; apply Hhi; lia]].
  set (mid := low + (high - low) / 2). assert (Hmid : low ≤ mid < high) by (unfold mid; pose proof (Nat.div_lt (high - low) 2 ltac:(lia) ltac:(lia)); lia).
  destruct (lookup_lt_is_Some_2 (bt_items p) (mid - 1) ltac:(lia)) as [e He].
  unfold PageGetItem. destruct (Nat.eqb_spec mid 0); [lia|]. rewrite (rd_some _ _ _ He). cbn [mbind res_bind].
  pose proof (Hl e (list_elem_of_lookup_2 _ _ _ He)) as Hle.
  destruct (Z.leb_spec 1 (bt_compare scankey (it_key e))) as [Hgt|Hngt].
  - destruct (IH (mid + 1) high) as (o' & E & Hr & H1 & H2); [lia | lia | lia | lia | | done | exists o'; split_and!; [done | lia | lia | done | done]].
    intros o e1 Ho He1. apply Z.nlt_ge. intros Hlt. assert (key_le scankey (it_key e)); [|unfold key_le in *; lia].
    pose proof (Hl e1 (list_elem_of_lookup_2 _ _ _ He1)). eapply (key_le_trans _ (it_key e1)); [done | congruence | unfold key_le; lia|]. apply (Hord o mid); [lia | lia | lia | done | done].
  - destruct (IH low mid) as (o' & E & Hr & H1 & H2); [lia | lia | lia | lia | done | | exists o'; split_and!; [done | lia | lia | done | done]].
    intros o e1 Ho He1. pose proof (Hl e1 (list_elem_of_lookup_2 _ _ _ He1)). eapply (key_le_trans _ (it_key e)); [done | congruence | unfold key_le; lia|].
    apply (Hord mid o); [lia | lia | lia | done | done].
Qed.

Lemma first_pos p : 1 ≤ P_FIRSTDATAKEY p ≤ 2.
Proof. unfold P_FIRSTDATAKEY, P_HIKEY. destruct (P_RIGHTMOST p); lia. Qed.

Lemma bt_binsrch_ok p scankey :
  StronglySorted key_le (map it_key (drop (P_FIRSTDATAKEY p - 1) (bt_items p))) →
  Forall (fun e => length scankey = length (it_key e)) (bt_items p) →
  ∃ o', bt_binsrch p scankey = Ok o' ∧ P_FIRSTDATAKEY p ≤ o' ∧
    (∀ o e, P_FIRSTDATAKEY p ≤ o < o' → bt_items p !! (o - 1) = Some e → (1 ≤ bt_compare scankey (it_key e))%Z) ∧
    (∀ o e, o' ≤ o → bt_items p !! (o - 1) = Some e → key_le scankey (it_key e)).
Proof.
  intros Hs Hl. pose proof (first_pos p). unfold bt_binsrch, PageGetMaxOffsetNumber.
  destruct (Nat.ltb_spec (length (bt_items p)) (P_FIRSTDATAKEY p)) as [Hlt|Hge].
  - exists (P_FIRSTDATAKEY p). split_and!; [done | done | lia|]. intros o e Ho He. apply lookup_lt_Some in He. lia.
  - destruct (binsrch_loop_ok (S (S (length (bt_items p)))) p scankey (P_FIRSTDATAKEY p) (length (bt_items p) + 1)) as (o' & E & Hr & H1 & H2);
      [done | done | lia | lia | lia | lia | lia | | exists o'; split_and!; [done | lia | done | done]].
    intros o e Ho He. apply lookup_lt_Some in He. lia.
Qed.

(** ** Leaves in a row *)

(** The entries of a page and its high key. *)
Definition data (p : BTPage) : list IndexItem := drop (P_FIRSTDATAKEY p - 1) (bt_items p).
Definition hikeys (p : BTPage) : list key := if P_RIGHTMOST p then [] else map it_key (take 1 (bt_items p)).

(** The blocks from [b] to the right, with their pages. *)
Inductive right_chain (pages : list BTPage) : nat → list nat → list BTPage → Prop :=
| chain_last b p : pages !! b = Some p → P_RIGHTMOST p = true → bt_ignore p = false → right_chain pages b [b] [p]
| chain_next b p l ps :
    pages !! b = Some p → P_RIGHTMOST p = false → bt_items p ≠ [] → right_chain pages (btpo_next p) l ps → right_chain pages b (b :: l) (p :: ps).

Definition live_pages (ps : list BTPage) : list BTPage := base.filter (fun p => bt_ignore p = false) ps.
Definition chain_items (ps : list BTPage) : list IndexItem := concat (map data (live_pages ps)).
Definition chain_keys (ps : list BTPage) : list key := concat (map (fun p => map it_key (data p) ++ hikeys p) (live_pages ps)).

Lemma chain_det pages b l ps l' ps' : right_chain pages b l ps → right_chain pages b l' ps' → l = l'.
Proof.
  intros H. revert l' ps'. induction H as [b p Hp Hr Hi|b p l ps Hp Hr Hi Hc IH]; intros l' ps' H'; inversion H'; simplify_eq; [done | congruence | congruence|].
  f_equal. by eapply IH.
Qed.

Lemma chain_suffix pages b l ps b' : right_chain pages b l ps → b' ∈ l → ∃ l' ps', right_chain pages b' l' ps' ∧ length l' ≤ length l.
Proof.
  induction 1 as [b p Hp Hr Hi|b p l ps Hp Hr Hi Hc IH]; intros Hin.
  - apply list_elem_of_singleton in Hin as ->. eexists _, _. split; [by apply chain_last | done].
  - apply elem_of_cons in Hin as [->|Hin]; [eexists _, _; split; [by apply chain_next | done]|].
    destruct (IH Hin) as (l' & ps' & ? & ?). exists l', ps'. split; [done | cbn; lia].
Qed.

Lemma chain_nodup pages b l ps : right_chain pages b l ps → NoDup l.
Proof.
  induction 1 as [b p Hp Hr Hi|b p l ps Hp Hr Hi Hc IH]; [apply NoDup_singleton|]. apply NoDup_cons. split; [|done].
  intros Hin. destruct (chain_suffix _ _ _ _ _ Hc Hin) as (l' & ps' & Hc' & Hl).
  pose proof (chain_det _ _ _ _ _ _ (chain_next pages b p l ps Hp Hr Hi Hc) Hc') as <-. cbn in Hl. lia.
Qed.

Lemma chain_blocks pages b l ps : right_chain pages b l ps → Forall2 (fun b p => pages !! b = Some p) l ps.
Proof. induction 1; by repeat constructor. Qed.

Lemma sum_ext {A} (f g : A → nat) l : (∀ x, x ∈ l → f x = g x) → sum_list_with f l = sum_list_with g l.
Proof. induction l as [|x l IH]; intros H; [done|]. cbn. rewrite (H x), IH by set_solver. done. Qed.

Lemma sum_app {A} (f : A → nat) l k : sum_list_with f (l ++ k) = sum_list_with f l + sum_list_with f k.
Proof. induction l as [|x l IH]; [done|]. cbn. rewrite IH. lia. Qed.

Lemma chain_sub pages b l ps : right_chain pages b l ps → l ⊆+ seq 0 (length pages).
Proof.
  intros Hc. apply NoDup_submseteq; [by eapply chain_nodup|]. intros x Hx. apply elem_of_seq. apply list_elem_of_lookup in Hx as [i Hi].
  destruct (Forall2_lookup_l _ _ _ _ _ (chain_blocks _ _ _ _ Hc) Hi) as (p & _ & Hp). apply lookup_lt_Some in Hp. lia.
Qed.

Lemma chain_length pages b l ps : right_chain pages b l ps → length l ≤ length pages.
Proof. intros Hc%chain_sub%submseteq_length. by rewrite length_seq in Hc. Qed.

(** The fuel is enough for any row of leaves. *)
Lemma chain_weight pages b l ps : right_chain pages b l ps → sum_list_with page_weight ps ≤ sum_list_with page_weight pages.
Proof.
  intros Hc. set (w := fun b => match pages !! b with Some p => page_weight p | None => 0 end).
  assert (E1 : sum_list_with page_weight ps = sum_list_with w l).
  { pose proof (chain_blocks _ _ _ _ Hc) as Hb. clear Hc. induction Hb as [|b' p l' ps' Hp _ IH]; [done|].
    cbn [sum_list_with]. rewrite IH. f_equal. unfold w. by rewrite Hp. }
  assert (E2 : sum_list_with w (seq 0 (length pages)) = sum_list_with page_weight pages).
  { unfold w. clear. induction pages as [|p pages IH] using rev_ind; [done|]. rewrite length_app. cbn [length].
    rewrite Nat.add_1_r, seq_S, !sum_app. cbn [sum_list_with plus]. rewrite lookup_app_r, Nat.sub_diag by lia. cbn.
    f_equal. rewrite <- IH. clear IH. apply sum_ext. intros x Hx. apply elem_of_seq in Hx. by rewrite lookup_app_l by lia. }
  rewrite E1, <- E2. pose proof (chain_sub _ _ _ _ Hc) as Hsub. apply submseteq_Permutation in Hsub as [k ->]. rewrite sum_app. lia.
Qed.

(** ** What the check answers *)
Section spec.
Context `{HeapSearch}.
Context (scankey : key) (tid : nat).

(** An entry that conflicts: not killed, the same key, and a version of its row that somebody may see. *)
Definition is_conflict (e : IndexItem) : bool :=
  negb (it_dead e) && bt_isequal scankey (it_key e) && match hot_search_dirty (it_tid e) with Some _ => true | None => false end.

(** The answer is decided by the first conflict. *)
Definition conflict_result (partial : bool) (e : IndexItem) : res UniqueResult :=
  match hot_search_dirty (it_tid e) with
  | Some d =>
      if partial then Ok (Checked false)
      else if negb (dirty_xmin d =? 0)%Z then Ok (Waits (dirty_xmin d) (dirty_token d))
      else if negb (dirty_xmax d =? 0)%Z then Ok (Waits (dirty_xmax d) (dirty_token d))
      else if hot_search_self tid then Err (Fault_elog "duplicate key value violates unique constraint")
      else Ok (Checked true)
  | None => Ok (Checked true)
  end.

Definition expected (partial : bool) (es : list IndexItem) : res UniqueResult :=
  match find is_conflict es with Some e => conflict_result partial e | None => Ok (Checked true) end.

Lemma expected_none partial es : Forall (fun e => is_conflict e = false) es → expected partial es = Ok (Checked true).
Proof. unfold expected. induction 1 as [|e es He _ IH]; [done|]. cbn. by rewrite He. Qed.

Lemma expected_skip partial e es : is_conflict e = false → expected partial (e :: es) = expected partial es.
Proof. intros He. unfold expected. cbn. by rewrite He. Qed.

(** Killing entries whose rows are dead to everyone changes no answer. *)
Record item_marked (e e' : IndexItem) : Prop := {
  marked_key : it_key e' = it_key e;
  marked_tid : it_tid e' = it_tid e;
  marked_dead : it_dead e' = it_dead e ∨ it_dead e' = true ∧ hot_search_dirty (it_tid e) = None ∧ hot_all_dead (it_tid e) = true
}.

Record page_marked (p p' : BTPage) : Prop := {
  marked_items : Forall2 item_marked (bt_items p) (bt_items p');
  marked_next : btpo_next p' = btpo_next p;
  marked_ignore : bt_ignore p' = bt_ignore p
}.

Definition marked (pages pages' : list BTPage) : Prop := Forall2 page_marked pages pages'.

Lemma item_marked_refl e : item_marked e e.
Proof. split; [done | done | by left]. Qed.

Lemma page_marked_refl p : page_marked p p.
Proof. split; [|done|done]. induction (bt_items p); constructor; [apply item_marked_refl | done]. Qed.

Lemma marked_refl pages : marked pages pages.
Proof. induction pages; constructor; [apply page_marked_refl | done]. Qed.

Lemma marked_conflict e e' : item_marked e e' → it_dead e' = true → is_conflict e = false.
Proof.
  intros [Hk Ht Hd] Hdead. unfold is_conflict. destruct Hd as [Hd|(_ & Hn & _)].
  - rewrite <- Hd, Hdead. done.
  - rewrite Hn. by rewrite andb_false_r.
Qed.

Lemma mark_dead_marked p0 p offset e :
  page_marked p0 p → bt_items p0 !! (offset - 1) = Some e → hot_search_dirty (it_tid e) = None → hot_all_dead (it_tid e) = true →
  page_marked p0 (mark_dead p offset).
Proof.
  intros [Hi Hn Hg] He Hd Ha. split; cbn; [|done|done].
  apply Forall2_alter_r; [done|]. intros e0 e' He0 _ [Hk Ht _]. assert (e0 = e) as -> by congruence. split; cbn; [done | done | by right].
Qed.
End spec.

(** ** The walk over the leaves *)

(** What is to the right of a page. *)
Definition rest_chain (pages : list BTPage) (p : BTPage) (l : list nat) (ps : list BTPage) : Prop :=
  (P_RIGHTMOST p = true ∧ ps = []) ∨ (P_RIGHTMOST p = false ∧ bt_items p ≠ [] ∧ right_chain pages (btpo_next p) l ps).

Section walk.
Context `{HeapSearch}.
Context (m : UniqueCheck) (scankey : key) (tid : nat) (pages0 : list BTPage).
Context (Hmode : m ≠ CHECK_EXISTING).

Definition keys_ok (ks : list key) : Prop :=
  StronglySorted key_le ks ∧ Forall (fun k => key_le scankey k ∧ length scankey = length k) ks.

Lemma keys_ok_app ks ks' : keys_ok (ks ++ ks') → keys_ok ks'.
Proof.
  intros [Hs Hf]. apply Forall_app in Hf as [_ Hf]. split; [|done]. clear Hf. induction ks as [|k ks IH]; [done|]. apply IH. by inversion Hs.
Qed.

Lemma keys_past k ks : keys_ok (k :: ks) → bt_isequal scankey k = false → Forall (fun k => bt_isequal scankey k = false) (k :: ks).
Proof.
  intros [Hs Hf] Hk. apply StronglySorted_inv in Hs as [_ Hs]. apply Forall_cons in Hf as [[Hle Hl] Hf]. apply Forall_cons. split; [done|].
  rewrite Forall_forall in Hf, Hs |- *. intros k' Hk'. destruct (Hf k' Hk') as [_ Hl']. eapply isequal_past; [exact Hl | exact Hl' | done | done | by apply Hs].
Qed.

Lemma chain_items_keys ps e : e ∈ chain_items ps → it_key e ∈ chain_keys ps.
Proof.
  unfold chain_items, chain_keys. induction (live_pages ps) as [|p l IH]; cbn; [by intros ?%not_elem_of_nil|].
  rewrite !elem_of_app. intros [He|He]; [left; left; by apply (list_elem_of_fmap_2 it_key) | right; by apply IH].
Qed.

(** Nothing behind a greater key conflicts. *)
Lemma past_none partial ks es :
  (∀ e, e ∈ es → it_key e ∈ ks) → Forall (fun k => bt_isequal scankey k = false) ks → expected scankey tid partial es = Ok (Checked true).
Proof.
  intros He Hk. apply expected_none. rewrite Forall_forall in Hk. apply Forall_forall. intros e Hin. unfold is_conflict.
  by rewrite (Hk (it_key e) (He e Hin)), andb_false_r.
Qed.

Lemma next_page_ok pages b l ps fuel :
  marked pages0 pages → right_chain pages0 b l ps → length l ≤ fuel →
  ∃ b' p' l' ps', next_page fuel pages b = Ok b' ∧ pages0 !! b' = Some p' ∧ rest_chain pages0 p' l' ps' ∧
    chain_items ps = data p' ++ chain_items ps' ∧ chain_keys ps = map it_key (data p') ++ hikeys p' ++ chain_keys ps' ∧
    page_weight p' + sum_list_with page_weight ps' ≤ sum_list_with page_weight ps.
Proof.
  intros Hm Hc. revert fuel. induction Hc as [b p Hp Hr Hi|b p l ps Hp Hr Hi Hc IH]; intros fuel Hf; (destruct fuel as [|fuel]; [cbn in Hf; lia|]);
    cbn [next_page]; destruct (Forall2_lookup_l _ _ _ _ _ Hm Hp) as (q & Hq & [Hqi Hqn Hqg]); rewrite (rd_some _ _ _ Hq); cbn [mbind res_bind].
  - rewrite Hqg, Hi. exists b, p, [], []. unfold chain_items, chain_keys, live_pages, rest_chain.
    rewrite filter_cons_True by done. cbn. rewrite !app_nil_r. split_and!; [done | done | by left | done | done | cbn [sum_list_with]; lia].
  - rewrite Hqg. destruct (bt_ignore p) eqn:Eg; cbn [negb].
    + unfold P_RIGHTMOST in *. rewrite Hqn, Hr. destruct (IH fuel ltac:(cbn in Hf; lia)) as (b' & p' & l' & ps' & H1 & H2 & H3 & H4 & H5 & H6).
      exists b', p', l', ps'. unfold chain_items, chain_keys, live_pages in *. rewrite filter_cons_False by congruence.
      split_and!; [done | done | done | done | done | cbn [sum_list_with]; lia].
    + exists b, p, l, ps. unfold chain_items, chain_keys, live_pages, rest_chain. rewrite filter_cons_True by done. cbn. rewrite <- (assoc_L (++)).
      split_and!; [done | done | by right | done | done | cbn [sum_list_with]; lia].
Qed.

Abbreviation partial := (bool_decide (m = CHECK_PARTIAL)).

(** The answer of the code for the entries [es]. *)
Definition answers (es : list IndexItem) (r : res (UniqueResult * list BTPage)) : Prop :=
  match r with
  | Ok (r, pages) => expected scankey tid partial es = Ok r ∧ marked pages0 pages
  | Err e => expected scankey tid partial es = Err e
  end.

Lemma finish_ok pages found es : marked pages0 pages → expected scankey tid partial es = Ok (Checked true) → answers es (finish_check m pages found).
Proof. intros Hm He. unfold finish_check. rewrite bool_decide_eq_false_2 by done. by split. Qed.

Lemma answers_skip e es r : is_conflict scankey e = false → answers es r → answers (e :: es) r.
Proof. intros He. unfold answers. by rewrite (expected_skip _ _ _ _ _ He). Qed.

(** One item. *)
Lemma examine_ok pages b p0 p offset found e :
  marked pages0 pages → pages0 !! b = Some p0 → pages !! b = Some p → 1 ≤ offset → bt_items p0 !! (offset - 1) = Some e →
  match examine m scankey tid pages b p offset found with
  | Ok (GoOn pages' _) => is_conflict scankey e = false ∧ marked pages0 pages'
  | Ok Leave => bt_isequal scankey (it_key e) = false ∨ is_conflict scankey e = true ∧ conflict_result tid partial e = Ok (Checked true)
  | Ok (Return r) => is_conflict scankey e = true ∧ conflict_result tid partial e = Ok r
  | Err x => is_conflict scankey e = true ∧ conflict_result tid partial e = Err x
  end.
Proof.
  intros Hm Hp0 Hp Ho He. pose proof (Forall2_lookup_lr _ _ _ _ _ _ Hm Hp0 Hp) as Hpm. pose proof Hpm as [Hi _ _].
  destruct (Forall2_lookup_l _ _ _ _ _ Hi He) as (e' & He' & Hem). pose proof Hem as [Hk Ht Hd]. unfold examine, PageGetMaxOffsetNumber.
  pose proof (lookup_lt_Some _ _ _ He'). destruct (Nat.ltb_spec (length (bt_items p)) offset); [lia|]. unfold PageGetItem.
  destruct (Nat.eqb_spec offset 0); [lia|]. rewrite (rd_some _ _ _ He'). cbn [mbind res_bind].
  destruct (it_dead e') eqn:Ed; [split; [by eapply marked_conflict | done]|]. assert (Ed0 : it_dead e = false) by (destruct Hd as [|[? _]]; congruence).
  rewrite Hk, Ht. destruct (bt_isequal scankey (it_key e)) eqn:Eq; cbn [negb]; [|by left].
  rewrite (bool_decide_eq_false_2 (m = CHECK_EXISTING)) by done. cbn [andb]. unfold is_conflict, conflict_result. rewrite Ed0, Eq.
  destruct (hot_search_dirty (it_tid e)) as [d|] eqn:Eh; cbn [negb andb].
  - destruct partial; [done|]. destruct (dirty_xmin d =? 0)%Z eqn:Ex; cbn [negb]; [|by rewrite Ex].
    destruct (dirty_xmax d =? 0)%Z; cbn [negb]; [|done]. destruct (hot_search_self tid); [done | by right].
  - destruct (hot_all_dead (it_tid e)) eqn:Ea; [|done]. split; [done|]. rewrite <- (list_insert_id pages0 b p0 Hp0).
    apply Forall2_insert; [done|]. by eapply mark_dead_marked.
Qed.

(** The step behind the last item of a page, with what the loop does from the next page on. *)
Lemma advance_ok pages p0 p found l ps (rec : nat → nat → res (UniqueResult * list BTPage)) :
  marked pages0 pages → page_marked p0 p → rest_chain pages0 p0 l ps → keys_ok (hikeys p0 ++ chain_keys ps) →
  (∀ b' p' l' ps', pages0 !! b' = Some p' → rest_chain pages0 p' l' ps' → keys_ok (map it_key (data p') ++ hikeys p' ++ chain_keys ps') →
     page_weight p' + sum_list_with page_weight ps' ≤ sum_list_with page_weight ps → answers (data p' ++ chain_items ps') (rec b' (P_FIRSTDATAKEY p'))) →
  answers (chain_items ps)
    (if P_RIGHTMOST p then finish_check m pages found
     else hikey ← PageGetItem p P_HIKEY;
          if negb (bt_isequal scankey (it_key hikey)) then finish_check m pages found
          else blk ← next_page (length pages) pages (btpo_next p); p ← rd pages blk; rec blk (P_FIRSTDATAKEY p)).
Proof.
  intros Hm [Hi Hn _] Hrest Hk Hrec. assert (Hr : P_RIGHTMOST p = P_RIGHTMOST p0) by (unfold P_RIGHTMOST; by rewrite Hn). rewrite Hr.
  destruct Hrest as [[Er ->]|(Er & Hne & Hc)]; rewrite Er; [by apply finish_ok|]. unfold hikeys in Hk. rewrite Er in Hk.
  destruct (bt_items p0) as [|h0 items0] eqn:Ei0; [done|]. destruct (Forall2_cons_inv_l _ _ _ _ Hi) as (h & items & Hh & _ & Ei).
  unfold PageGetItem, P_HIKEY. cbn [Nat.eqb Nat.sub]. rewrite (rd_some (bt_items p) 0 h) by by rewrite Ei. cbn [mbind res_bind]. rewrite (marked_key _ _ Hh).
  cbn [take map app] in Hk. destruct (bt_isequal scankey (it_key h0)) eqn:Eq; cbn [negb].
  2:{ apply finish_ok; [done|]. pose proof (keys_past _ _ Hk Eq) as Hpast. eapply past_none; [|exact Hpast].
      intros e He. apply list_elem_of_further. by apply chain_items_keys. }
  apply (keys_ok_app [_]) in Hk. rewrite Hn, <- (Forall2_length _ _ _ Hm).
  destruct (next_page_ok pages _ l ps (length pages0) Hm Hc (chain_length _ _ _ _ Hc)) as (b' & p' & l' & ps' & En & Hp' & Hrest' & Eit & Eks & Hw).
  rewrite En. cbn [mbind res_bind]. destruct (Forall2_lookup_l _ _ _ _ _ Hm Hp') as (q & Hq & [_ Hqn _]). rewrite (rd_some _ _ _ Hq). cbn [mbind res_bind].
  assert (Hf : P_FIRSTDATAKEY q = P_FIRSTDATAKEY p') by (unfold P_FIRSTDATAKEY, P_RIGHTMOST; by rewrite Hqn).
  rewrite Hf, Eit. eapply Hrec; [done | exact Hrest' | by rewrite Eks in Hk | done].
Qed.

Lemma loop_ok fuel pages b p0 offset found l ps :
  marked pages0 pages → pages0 !! b = Some p0 → rest_chain pages0 p0 l ps → P_FIRSTDATAKEY p0 ≤ offset →
  keys_ok (map it_key (drop (offset - 1) (bt_items p0)) ++ hikeys p0 ++ chain_keys ps) →
  S (length (bt_items p0) - offset) + sum_list_with page_weight ps ≤ fuel →
  answers (drop (offset - 1) (bt_items p0) ++ chain_items ps) (check_loop m scankey tid fuel pages b offset found).
Proof.
  revert pages b p0 offset found l ps. induction fuel as [|fuel IH]; intros pages b p0 offset found l ps Hm Hp0 Hrest Hoff Hkeys Hfuel; [lia|].
  cbn [check_loop]. destruct (Forall2_lookup_l _ _ _ _ _ Hm Hp0) as (p & Hp & Hpm). pose proof Hpm as [Hi Hn _].
  rewrite (rd_some _ _ _ Hp). cbn [mbind res_bind]. assert (Hlen : length (bt_items p) = length (bt_items p0)) by (symmetry; by eapply Forall2_length).
  assert (Hoff1 : 1 ≤ offset) by (unfold P_FIRSTDATAKEY, P_HIKEY in Hoff; destruct (P_RIGHTMOST p0); lia).
  assert (Hadvance : ∀ pages' found', marked pages0 pages' → length (bt_items p0) ≤ offset →
    answers (chain_items ps)
      (if P_RIGHTMOST p then finish_check m pages' found'
       else hikey ← PageGetItem p P_HIKEY;
            if negb (bt_isequal scankey (it_key hikey)) then finish_check m pages' found'
            else blk ← next_page (length pages') pages' (btpo_next p); p ← rd pages' blk; check_loop m scankey tid fuel pages' blk (P_FIRSTDATAKEY p) found')).
  { intros pages' found' Hm' Hend. eapply (advance_ok _ _ _ _ _ _ (fun blk off => check_loop m scankey tid fuel pages' blk off found')); [done | done | exact Hrest | by eapply keys_ok_app|].
    intros b' p' l' ps' Hp' Hrest' Hk' Hw. eapply IH; [done | done | exact Hrest' | done | exact Hk'|]. unfold page_weight in Hw at 1. lia. }
  destruct (bt_items p0 !! (offset - 1)) as [e|] eqn:He.
  2:{ apply lookup_ge_None in He. rewrite drop_ge by lia. unfold examine, PageGetMaxOffsetNumber in *. rewrite Hlen.
      destruct (Nat.ltb_spec (length (bt_items p0)) offset); [|lia]. cbn [mbind res_bind]. destruct (Nat.ltb_spec offset (length (bt_items p0))); [lia|].
      apply Hadvance; [done | lia]. }
  pose proof (examine_ok pages b p0 p offset found e Hm Hp0 Hp Hoff1 He) as Hex. rewrite (drop_S _ _ _ He) in Hkeys |- *.
  replace (S (offset - 1)) with offset in * by lia. cbn [app map] in Hkeys |- *.
  destruct (examine m scankey tid pages b p offset found) as [[pages' found'| |r]|x]; cbn [mbind res_bind].
  - destruct Hex as [Hcf Hm']. apply answers_skip; [done|]. unfold PageGetMaxOffsetNumber. rewrite Hlen.
    destruct (Nat.ltb_spec offset (length (bt_items p0))) as [Hlt|Hge].
    + pose proof (IH pages' b p0 (offset + 1) found' l ps Hm' Hp0 Hrest ltac:(lia)) as IH'. replace (offset + 1 - 1) with offset in IH' by lia.
      apply IH'; [by apply (keys_ok_app [_]) in Hkeys | lia].
    + rewrite drop_ge by lia. by apply Hadvance.
  - apply finish_ok; [done|]. destruct Hex as [Hne|[Hc Hres]].
    + eapply past_none; [|exact (keys_past _ _ Hkeys Hne)]. intros e' He'. apply elem_of_cons in He' as [->|He']; [apply list_elem_of_here|]. apply list_elem_of_further.
      rewrite !elem_of_app. apply elem_of_app in He' as [He'|He']; [left; by apply (list_elem_of_fmap_2 it_key) | right; right; by apply chain_items_keys].
    + unfold expected. cbn. by rewrite Hc.
  - destruct Hex as [Hc Hres]. unfold answers, expected. cbn. by rewrite Hc.
  - destruct Hex as [Hc Hres]. unfold answers, expected. cbn. by rewrite Hc.
Qed.
(** The keys of the leaves in order, each with as many columns as the key that is sought. *)
Definition keys_sorted (ks : list key) : Prop := StronglySorted key_le ks ∧ Forall (fun k => length scankey = length k) ks.

Lemma keys_sorted_app ks ks' : keys_sorted (ks ++ ks') → keys_sorted ks'.
Proof. intros [Hs Hf]. apply Forall_app in Hf as [_ Hf]. split; [by eapply StronglySorted_app_1_r | done]. Qed.

Lemma not_equal_before k k' : length scankey = length k → length scankey = length k' → key_le k k' → (1 ≤ bt_compare scankey k')%Z → bt_isequal scankey k = false.
Proof.
  intros Hl Hl' Hle Hc. destruct (bt_isequal scankey k) eqn:E; [|done]. apply (isequal_eq _ _ Hl) in E as <-. unfold key_le in Hle. lia.
Qed.

Lemma items_data p h items : P_RIGHTMOST p = false → bt_items p = h :: items → data p = items ∧ hikeys p = [it_key h].
Proof. intros Hr E. unfold data, hikeys, P_FIRSTDATAKEY. by rewrite Hr, E. Qed.

(** An unfinished split is finished before the page is looked at. *)
Lemma finish_first pages b p q fuel :
  marked pages0 pages → pages0 !! b = Some p → pages !! b = Some q → P_RIGHTMOST p = false →
  ∃ pages' q' fuel', fuel ≤ fuel' ∧ marked pages0 pages' ∧ pages' !! b = Some q' ∧ page_marked p q' ∧ bt_incomplete q' = false ∧
    bt_moveright (S (S fuel)) pages scankey b = bt_moveright (S fuel') pages' scankey b.
Proof.
  intros Hm Hp Hq Hr. pose proof (Forall2_lookup_lr _ _ _ _ _ _ Hm Hp Hq) as Hpq. destruct (bt_incomplete q) eqn:Ei.
  - exists (<[b := finish_split q]> pages), (finish_split q), fuel. pose proof (lookup_lt_Some _ _ _ Hq). assert (Hpq' : page_marked p (finish_split q)) by (by destruct Hpq).
    split_and!; [done | | by rewrite list_lookup_insert_eq | done | done|].
    + rewrite <- (list_insert_id pages0 b p Hp). by apply Forall2_insert.
    + cbn [bt_moveright]. rewrite (rd_some _ _ _ Hq). cbn [mbind res_bind]. unfold P_RIGHTMOST in *. by rewrite (marked_next _ _ Hpq), Hr, Ei.
  - exists pages, q, (S fuel). split_and!; [lia | done | done | done | done | done].
Qed.

Lemma page_before items h ks :
  keys_sorted ((map it_key items ++ [it_key h]) ++ ks) → (1 ≤ bt_compare scankey (it_key h))%Z → Forall (fun e => bt_isequal scankey (it_key e) = false) items.
Proof.
  intros [Hs Hl] Hgt. apply StronglySorted_app_1_l in Hs. rewrite !Forall_app in Hl. destruct Hl as [[Hl Hlh] _].
  apply (proj1 (Forall_singleton _ _)) in Hlh. rewrite Forall_forall in Hl. apply Forall_forall. intros e He. assert (Hk : it_key e ∈ map it_key items) by by apply (list_elem_of_fmap_2 it_key).
  apply (not_equal_before _ (it_key h)); [by apply Hl | done | | done]. eapply StronglySorted_app_1_elem_of; [exact Hs | done | by apply list_elem_of_singleton].
Qed.

Lemma moveright_ok pages b l ps fuel :
  marked pages0 pages → right_chain pages0 b l ps → keys_sorted (chain_keys ps) → 2 * length l ≤ fuel →
  ∃ b' pages' p' l' ps' pre kpre, bt_moveright fuel pages scankey b = Ok (b', pages') ∧ marked pages0 pages' ∧ pages0 !! b' = Some p' ∧ rest_chain pages0 p' l' ps' ∧
    Forall (key_le scankey) (hikeys p') ∧ chain_items ps = pre ++ data p' ++ chain_items ps' ∧
    Forall (fun e => bt_isequal scankey (it_key e) = false) pre ∧ chain_keys ps = kpre ++ map it_key (data p') ++ hikeys p' ++ chain_keys ps' ∧
    page_weight p' + sum_list_with page_weight ps' ≤ sum_list_with page_weight ps.
Proof.
  intros Hm Hc. revert pages Hm fuel. induction Hc as [b p Hp Hr Hi|b p l ps Hp Hr Hi Hc IH]; intros pages Hm fuel Hs Hf;
    (destruct fuel as [|[|fuel]]; [cbn in Hf; lia | cbn in Hf; lia|]); destruct (Forall2_lookup_l _ _ _ _ _ Hm Hp) as (q & Hq & Hpq).
  - destruct Hpq as [_ Hqn Hqg]. cbn [bt_moveright]. rewrite (rd_some _ _ _ Hq). cbn [mbind res_bind]. unfold P_RIGHTMOST in Hr |- * at 1. rewrite Hqn, Hr, Hqg, Hi.
    exists b, pages, p, [], [], [], []. unfold chain_items, chain_keys, live_pages. rewrite filter_cons_True by done. cbn. rewrite !app_nil_r. unfold hikeys, rest_chain, P_RIGHTMOST. rewrite Hr.
    split_and!; [done | done | done | by left | done | done | done | done | cbn [sum_list_with]; lia].
  - destruct (finish_first pages b p q fuel Hm Hp Hq Hr) as (pages1 & q1 & fuel1 & Hf1 & Hm1 & Hq1 & [Hqi Hqn Hqg] & Hinc & ->).
    cbn [bt_moveright]. rewrite (rd_some _ _ _ Hq1). cbn [mbind res_bind]. assert (Hr1 : P_RIGHTMOST q1 = false) by (unfold P_RIGHTMOST; by rewrite Hqn).
    rewrite Hr1, Hinc, Hqg, Hqn. unfold chain_items, chain_keys, live_pages in *. destruct (bt_ignore p) eqn:Eg; cbn [mbind res_bind].
    { rewrite filter_cons_False in Hs |- * by congruence.
      destruct (IH pages1 Hm1 fuel1 Hs ltac:(cbn in Hf; lia)) as (b' & pages' & p' & l' & ps' & pre & kpre & H1 & H2 & H3 & H4 & H5 & H6 & H7 & H8 & H9).
      exists b', pages', p', l', ps', pre, kpre. split_and!; [done | done | done | done | done | done | done | done | cbn [sum_list_with]; lia]. }
    rewrite filter_cons_True in Hs |- * by done. cbn [map concat] in Hs |- *. destruct (bt_items p) as [|h items] eqn:Ei; [done|].
    destruct (items_data p h items Hr Ei) as [Ed Eh]. rewrite Ed, Eh in Hs |- *. destruct (Forall2_cons_inv_l _ _ _ _ Hqi) as (h1 & items1 & Hh & _ & Eq1).
    unfold PageGetItem, P_HIKEY. cbn [Nat.eqb Nat.sub]. rewrite (rd_some (bt_items q1) 0 h1) by by rewrite Eq1. cbn [mbind res_bind]. rewrite (marked_key _ _ Hh).
    destruct (Z.leb_spec 1 (bt_compare scankey (it_key h))) as [Hgt|Hle].
    + destruct (IH pages1 Hm1 fuel1 (keys_sorted_app _ _ Hs) ltac:(cbn in Hf; lia)) as (b' & pages' & p' & l' & ps' & pre & kpre & H1 & H2 & H3 & H4 & H5 & H6 & H7 & H8 & H9).
      exists b', pages', p', l', ps', (items ++ pre), ((map it_key items ++ [it_key h]) ++ kpre). rewrite H6, H8.
      split_and!; [done | done | done | done | done | by rewrite (assoc_L (++)) | | by rewrite <- !(assoc_L (++)) | cbn [sum_list_with]; lia].
      apply Forall_app. split; [|done]. by eapply page_before.
    + exists b, pages1, p, l, ps, [], []. unfold rest_chain. rewrite Ed, Eh, Ei. rewrite <- (assoc_L (++)).
      split_and!; [done | done | done | by right | | done | done | done | cbn [sum_list_with]; lia]. apply Forall_singleton. unfold key_le. lia.
Qed.

Lemma answers_skips pre es r : Forall (fun e => bt_isequal scankey (it_key e) = false) pre → answers es r → answers (pre ++ es) r.
Proof.
  intros Hpre Hes. induction Hpre as [|e pre He _ IH]; [done|]. cbn [app]. apply answers_skip; [|done]. unfold is_conflict. by rewrite He, andb_false_r.
Qed.

(** From the place of the key on, the keys are what the walk wants. *)
Lemma keys_from p l ps o :
  rest_chain pages0 p l ps → keys_sorted (map it_key (data p) ++ hikeys p ++ chain_keys ps) → Forall (key_le scankey) (hikeys p) → P_FIRSTDATAKEY p ≤ o →
  (∀ o' e, o ≤ o' → bt_items p !! (o' - 1) = Some e → key_le scankey (it_key e)) →
  keys_ok (map it_key (drop (o - 1) (bt_items p)) ++ hikeys p ++ chain_keys ps).
Proof.
  intros Hrest Hs Hhi Ho Hfrom. pose proof (first_pos p). assert (Hs' : keys_sorted (map it_key (drop (o - 1) (bt_items p)) ++ hikeys p ++ chain_keys ps)).
  { apply (keys_sorted_app (map it_key (take (o - P_FIRSTDATAKEY p) (data p)))). rewrite (assoc_L (++)), <- map_app. unfold data in *.
    replace (drop (o - 1) (bt_items p)) with (drop (o - P_FIRSTDATAKEY p) (drop (P_FIRSTDATAKEY p - 1) (bt_items p))) by (rewrite drop_drop; f_equal; lia).
    by rewrite take_drop. }
  destruct Hs' as [Hs1 Hs2]. split; [done|]. rewrite Forall_forall in Hs2. apply Forall_forall. intros k Hk. split; [|by apply Hs2].
  rewrite !elem_of_app in Hk. destruct Hk as [Hk|[Hk|Hk]].
  - apply list_elem_of_fmap in Hk as (e & -> & He). apply list_elem_of_lookup in He as [i Hi]. rewrite lookup_drop in Hi. apply (Hfrom (o + i)); [lia|].
    by replace (o + i - 1) with (o - 1 + i) by lia.
  - rewrite Forall_forall in Hhi. by apply Hhi.
  - destruct Hrest as [[_ ->]|(Hr & Hne & _)]; [by apply not_elem_of_nil in Hk|]. destruct (bt_items p) as [|h items] eqn:Ei; [done|].
    destruct (items_data p h items Hr Ei) as [_ Eh]. rewrite Eh in *. apply (proj1 (Forall_singleton _ _)) in Hhi.
    apply (key_le_trans _ (it_key h)); [| | done|].
    + apply Hs2. set_solver.
    + rewrite <- (Hs2 k) by set_solver. symmetry. apply Hs2. set_solver.
    + apply StronglySorted_app_1_r in Hs1. eapply StronglySorted_app_1_elem_of; [exact Hs1 | set_solver | done].
Qed.

(** The search sees only keys, and marks change no length. *)
Lemma binsrch_marked p q k : page_marked p q → bt_binsrch q k = bt_binsrch p k.
Proof.
  intros [Hi Hn _]. unfold bt_binsrch, P_FIRSTDATAKEY, P_RIGHTMOST, PageGetMaxOffsetNumber. rewrite Hn, <- (Forall2_length _ _ _ Hi).
  destruct (_ <? _); [done|]. generalize (S (S (length (bt_items p)))) as fuel, (if btpo_next p =? 0 then P_HIKEY else 2) as low, (length (bt_items p) + 1) as high.
  induction fuel as [|fuel IH]; intros low high; [done|]. cbn [binsrch_loop]. destruct (low <? high); [|done]. unfold PageGetItem, rd. destruct (_ =? 0); [done|].
  set (o := low + (high - low) / 2 - 1). destruct (bt_items p !! o) as [e|] eqn:E.
  - destruct (Forall2_lookup_l _ _ _ _ _ Hi E) as (e' & -> & He). cbn [mbind res_bind]. rewrite (marked_key _ _ He). by destruct (_ <=? _)%Z.
  - destruct (bt_items q !! o) as [e'|] eqn:E'; [|done]. destruct (Forall2_lookup_r _ _ _ _ _ Hi E') as (e & Ee & _). congruence.
Qed.

Lemma marked_weight pages pages' : marked pages pages' → sum_list_with page_weight pages = sum_list_with page_weight pages'.
Proof. induction 1 as [|p p' pages pages' [Hi _ _] _ IH]; [done|]. cbn [sum_list_with]. rewrite IH. unfold page_weight. by rewrite (Forall2_length _ _ _ Hi). Qed.

Lemma check_insert_ok b l ps :
  right_chain pages0 b l ps → keys_sorted (chain_keys ps) → answers (chain_items ps) (check_insert m scankey tid pages0 b).
Proof.
  intros Hc Hs. unfold check_insert, bt_check_unique.
  pose proof (chain_length _ _ _ _ Hc) as Hcl. destruct (moveright_ok pages0 b l ps (2 * length pages0) (marked_refl _) Hc Hs ltac:(lia))
    as (b' & pages & p & l' & ps' & pre & kpre & Em & Hm & Hp & Hrest & Hhi & Eit & Hpre & Eks & Hw).
  rewrite Em. cbn [mbind res_bind]. destruct (Forall2_lookup_l _ _ _ _ _ Hm Hp) as (q & Hq & Hpq). rewrite (rd_some _ _ _ Hq). cbn [mbind res_bind]. rewrite Eks in Hs. apply keys_sorted_app in Hs. pose proof Hs as [Hs1 Hs2].
  assert (Hlen : Forall (fun e => length scankey = length (it_key e)) (bt_items p)).
  { rewrite Forall_forall in Hs2. apply Forall_forall. intros e He. apply Hs2. rewrite !elem_of_app. unfold data, hikeys, P_FIRSTDATAKEY.
    destruct (P_RIGHTMOST p); cbn; [left; rewrite drop_0; by apply (list_elem_of_fmap_2 it_key)|]. rewrite <- (take_drop 1 (bt_items p)) in He.
    apply elem_of_app in He as [He|He]; apply (list_elem_of_fmap_2 it_key) in He; auto. }
  destruct (bt_binsrch_ok p scankey (StronglySorted_app_1_l _ _ _ Hs1) Hlen) as (o & Eo & Ho & Hbefore & Hfrom). rewrite (binsrch_marked p q scankey Hpq), Eo. cbn [mbind res_bind].
  pose proof (first_pos p). rewrite Eit. apply answers_skips; [done|].
  assert (Ed : data p = take (o - P_FIRSTDATAKEY p) (data p) ++ drop (o - 1) (bt_items p)).
  { rewrite <- (take_drop (o - P_FIRSTDATAKEY p) (data p)) at 1. f_equal. unfold data. rewrite drop_drop. f_equal. lia. }
  rewrite Ed, <- (assoc_L (++)). apply answers_skips.
  - apply Forall_lookup. intros i e Hi. apply lookup_take_Some in Hi as [Hi Hlt]. unfold data in Hi. rewrite lookup_drop in Hi.
    assert (He : bt_items p !! (P_FIRSTDATAKEY p + i - 1) = Some e) by (rewrite <- Hi; f_equal; lia).
    pose proof (proj1 (Forall_forall _ _) Hlen e (list_elem_of_lookup_2 _ _ _ He)). eapply (not_equal_before _ (it_key e)); [done | done | apply key_le_refl|].
    apply (Hbefore (P_FIRSTDATAKEY p + i)); [lia | done].
  - eapply loop_ok; [done | exact Hp | exact Hrest | done | by eapply keys_from|].
    pose proof (chain_weight _ _ _ _ Hc). unfold check_fuel. rewrite <- (marked_weight pages0 pages Hm). unfold page_weight in Hw at 1. lia.
Qed.
End walk.

(** C29. The check of a unique index gives the answer of all the entries from the leaf the descent led to
    on, wherever the key belongs.  In a row of leaves with the keys in order (deleted pages, killed
    entries and equal keys over several pages included) the check of an insertion ends and
    follows every link inside the index; it is decided by the first entry that is not killed, has
    the same key without nulls and leads to a row somebody may see: a partial check says not
    unique, a full check waits for the transaction at work on that row, else raises the duplicate-key error,
    unless the row to insert is itself dead; without such an entry the key is unique.  On the way
    only entries whose rows are dead to everyone are marked killed. *)
Theorem unique_check `{HeapSearch} (m : UniqueCheck) (scankey : key) (tid : nat) (pages : list BTPage) b l ps :
  m ≠ CHECK_EXISTING → right_chain pages b l ps → keys_sorted scankey (chain_keys ps) →
  match check_insert m scankey tid pages b with
  | Ok (r, pages') => expected scankey tid (bool_decide (m = CHECK_PARTIAL)) (chain_items ps) = Ok r ∧ marked pages pages'
  | Err e => expected scankey tid (bool_decide (m = CHECK_PARTIAL)) (chain_items ps) = Err e
  end.
Proof. intros Hm Hc Hs. exact (check_insert_ok m scankey tid pages Hm b l ps Hc Hs). Qed.

(** ** The outcome for the rows of a table *)
Lemma isequal_refl (keys : list Z) : bt_isequal (Some <$> keys) (Some <$> keys) = true.
Proof. induction keys as [|k keys IH]; [done|]. cbn. by rewrite (proj2 (btint4cmp_zero k k) eq_refl). Qed.

Section rows.
Context `{HeapSearch}.

(** The entries [es] of an index on [n] columns over the rows [l], while row [tid] gets its entry and no
    other transaction is at work on the rows: each other row has its entry, and so has row [tid] when it
    continues a HOT chain; an entry that leads to a visible row has the row's key. *)
Record indexes (n : nat) (l : list tuple) (tid : nat) (heap_only : bool) (es : list IndexItem) : Prop := {
  entry_of_row : ∀ i t keys, l !! i = Some t → length keys = n → has_key keys t = true → i ≠ tid ∨ heap_only = true →
    ∃ e, e ∈ es ∧ it_key e = Some <$> keys ∧ it_tid e = i ∧ it_dead e = false;
  row_of_entry : ∀ e keys, e ∈ es → it_dead e = false → hot_search_dirty (it_tid e) ≠ None → it_key e = Some <$> keys →
    (it_tid e = tid → heap_only = true) ∧ ∃ t, l !! it_tid e = Some t ∧ has_key keys t = true;
  rows_quiet : ∀ i t, l !! i = Some t → ∃ token, hot_search_dirty i = Some (mkDirty 0 0 token);
  row_alive : hot_search_self tid = true
}.

(** Two rows with the key, or a row with its own entry, are what the check finds. *)
Lemma expected_rows n l tid heap_only es keys t :
  indexes n l tid heap_only es → Forall (fun e => length keys = length (it_key e)) es → length keys = n → l !! tid = Some t → has_key keys t = true →
  expected (Some <$> keys) tid false es =
  (if existsb (fun '(i, t) => negb (i =? tid) && has_key keys t) (zip (seq 0 (length l)) l) || heap_only
   then Err (Fault_elog "duplicate key value violates unique constraint") else Ok (Checked true)).
Proof.
  intros [Hent Hrow Hquiet Halive] Hl Hn Ht Hk. rewrite Forall_forall in Hl.
  destruct (_ || heap_only) eqn:Ed; [|apply expected_none, Forall_forall; intros e He; apply not_true_iff_false; intros Hc].
  - assert (∃ i t, l !! i = Some t ∧ has_key keys t = true ∧ (i ≠ tid ∨ heap_only = true)) as (i & t' & Ht' & Hk' & Hor).
    { apply orb_true_iff in Ed as [Ed%existsb_dup| ->]; [destruct Ed as (i & t' & ? & ? & ?); exists i, t'; auto | exists tid, t; auto]. }
    destruct (Hent i t' keys Ht' Hn Hk' Hor) as (e & He & Hek & <- & Hdead). unfold expected.
    destruct (find _ es) as [e'|] eqn:Ef.
    + apply find_some in Ef as [He' Hc]. apply list_elem_of_In in He'. unfold is_conflict in Hc. rewrite !andb_true_iff in Hc. destruct Hc as [[Hd Heq] Hv].
      apply isequal_eq in Heq; [|rewrite length_fmap; by apply Hl]. apply negb_true_iff in Hd. unfold conflict_result.
      destruct (hot_search_dirty (it_tid e')) as [d|] eqn:Eh; [|done]. destruct (Hrow e' keys He' Hd ltac:(by rewrite Eh) (eq_sym Heq)) as [_ (t2 & Ht2 & _)].
      destruct (Hquiet _ _ Ht2) as [tok Htok]. rewrite Eh in Htok. injection Htok as ->. cbn. by rewrite Halive.
    + exfalso. pose proof (find_none _ _ Ef e (proj1 (list_elem_of_In _ _) He)) as Hc. unfold is_conflict in Hc. destruct (Hquiet _ _ Ht') as [tok Htok].
      by rewrite Hdead, Hek, isequal_refl, Htok in Hc.
  - apply orb_false_iff in Ed as [Ed Eh]. unfold is_conflict in Hc. rewrite !andb_true_iff in Hc. destruct Hc as [[Hd Heq] Hv].
    apply isequal_eq in Heq; [|rewrite length_fmap; by apply Hl]. apply negb_true_iff in Hd.
    destruct (Hrow e keys He Hd ltac:(by destruct (hot_search_dirty (it_tid e))) (eq_sym Heq)) as [Htid (t2 & Ht2 & Hk2)].
    assert (it_tid e ≠ tid) by (intros E; rewrite (Htid E) in Eh; done). by rewrite (existsb_row l tid keys (it_tid e) t2) in Ed.
Qed.

End rows.

(** ** Examples *)
Definition find_rows (visible : nat → option DirtyResult) : HeapSearch :=
  {| hot_search_dirty := visible; hot_all_dead := fun i => i =? 7; hot_search_self := fun _ => true |}.

(** Three leaves, the middle one deleted; block 0 is not a leaf. *)
Definition sample_pages : list BTPage :=
  let k a b := [Some a; Some b]%Z in
  [mkBTPage [] 0 false false false;
   mkBTPage [mkItem (k 2 7) 0 false; mkItem (k 1 5) 0 false; mkItem (k 2 7) 7 false]%Z 2 false false true;
   mkBTPage [mkItem (k 2 7) 0 false]%Z 3 true false false;
   mkBTPage [mkItem (k 2 7) 1 true; mkItem (k 2 7) 1 false; mkItem (k 3 1) 8 false]%Z 0 false false false].

Lemma sample_chain : ∃ l ps, right_chain sample_pages 1 l ps ∧ ps = drop 1 sample_pages.
Proof. eexists _, _. split; [do 2 (eapply chain_next; [reflexivity | reflexivity | done|]); by apply chain_last | reflexivity]. Qed.

Lemma sample_sorted : keys_sorted [Some 2; Some 7]%Z (chain_keys (drop 1 sample_pages)).
Proof. vm_compute chain_keys. split; repeat constructor; unfold key_le; vm_compute; done. Qed.

(** Row 1 is being deleted by transaction 42. *)
Definition busy_rows : HeapSearch := find_rows (fun i => if i =? 1 then Some (mkDirty 0 42 0) else None).

Lemma unique_check_witness : ∃ pages',
  @check_insert busy_rows CHECK_YES [Some 2; Some 7]%Z 2 sample_pages 1 = Ok (Waits 42 0, pages') ∧
  @expected busy_rows [Some 2; Some 7]%Z 2 false (chain_items (drop 1 sample_pages)) = Ok (Waits 42 0) ∧ @marked busy_rows sample_pages pages' ∧
  map (fun p => map it_dead (bt_items p)) pages' = [[]; [false; false; true]; [false]; [true; false; false]].
Proof.
  destruct sample_chain as (l & ps & Hc & ->).
  pose proof (@unique_check busy_rows CHECK_YES [Some 2; Some 7]%Z 2 sample_pages 1 l _ ltac:(done) Hc sample_sorted) as Hu.
  destruct (check_insert _ _ _ _ _) as [[r pages']|e] eqn:E; [|vm_compute in E; done]. destruct Hu as [Hx Hm].
  vm_compute in E. injection E as <- <-. eexists. split; [vm_compute; reflexivity|]. split; [exact Hx|]. split; [exact Hm | reflexivity].
Defined.

(** Rows 1 and 2 with the same key, of which row 2 gets its entry. *)
Definition quiet_rows : HeapSearch := find_rows (fun i => if i <? 3 then Some (mkDirty 0 0 0) else None).
Definition sample_row (a b : Z) : list Datum := [Int32GetDatum a; Int32GetDatum b].
Definition two_rows : pgstate := sample_state aqo_data [sample_row 1 5; sample_row 2 7; sample_row 2 7].

Lemma sample_indexes : @indexes quiet_rows 2 (rows two_rows aqo_data) 2 false (chain_items (drop 1 sample_pages)).
Proof.
  split; vm_compute chain_items; [| | |done].
  - intros i t [|a [|b [|c keys]]] Hi Hl Hk Hor; try done. assert (Hi2 : i ≠ 2) by (by destruct Hor).
    destruct i as [|[|[|i]]]; [| |done|done]; cbn in Hi; injection Hi as <-; cbn [has_key map] in Hk; rewrite andb_true_r in Hk; apply andb_true_iff in Hk as [->%Z.eqb_eq ->%Z.eqb_eq];
      [exists (mkItem [Some 1; Some 5] 0 false)%Z | exists (mkItem [Some 2; Some 7] 1 false)%Z]; (split; [apply list_elem_of_In; cbn; tauto | done]).
  - intros e keys He Hd Hv Hk. apply list_elem_of_In in He. cbn in He.
    assert (∃ a b, keys = [a; b] ∧ it_key e = [Some a; Some b]) as (a & b & -> & Hk').
    { destruct He as [<-|[<-|[<-|[<-|[<-|[]]]]]]; destruct keys as [|a [|b [|c keys]]]; try done; by exists a, b. }
    destruct He as [<-|[<-|[<-|[<-|[<-|[]]]]]]; try done; injection Hk' as <- <-; (split; [by intros [=] | by eexists]).
  - intros i t Hi. exists 0%Z. by destruct i as [|[|[|i]]].
Qed.

